(* ===== verification/_CoqProject ===== *)
-Q . S2P
Prelude.v
Platform.v
Decimal.v
Events.v
InsertionOrderedMap.v
TimedSizedMap.v
Watchlist.v
NoncePool.v
ConcretePlatform.v
Sweeps.v
Deposits.v
SolTransfer.v
MinterState.v
Replay.v
Invariants.v
Safety.v
Interleaving.v
Batches.v
Parameters.v
Guards.v
Rpc.v
Withdraw.v
Memo.v
Metrics.v
Mint.v
DepositSol.v
SweepTasks.v
Monitor.v
Async.v
Tasks.v
Execution.v
Delivery.v
Payout.v
CandidEvents.v
StableEncoding.v
Dashboard.v
EncodeMetrics.v
Http.v
Canister.v
System.v
Scheduling.v
Costs.v
Rounds.v
Concurrency.v
