(* ===== verification/Prelude.v ===== *)
(** * A model of the ckSOL minter

    The ckSOL minter is a canister of the Internet Computer that turns SOL on
    Solana into the ledger token ckSOL and back. The program under src/minter
    consists of a state machine driven by an event log, and of endpoints and
    timer tasks that talk to Solana (through the SOL RPC canister), to the
    ledger and to the threshold signature service, and record what happened as
    events. This library models the state machine and the decisions of the
    endpoints and tasks, and proves the properties that keep the funds safe.

    ** Parts of the program and files of the development

    - [Prelude]: panics ([outcome]), Rust's [Result], loops, 64-bit and
      128-bit arithmetic, record updates, ordered maps, shared lemmas, tactics
      and hints.
    - [Platform], [ConcretePlatform]: the types of the Solana and Internet
      Computer crates the minter uses. Their code is not part of the
      repository: it is a field of the class [Platform], and [PlatformLaws]
      names the documented behaviour some theorems rely on. [ConcretePlatform]
      is an instance of both, used by the witnesses.
    - [Events]: constants.rs, address/mod.rs, state/event.rs and the argument
      types of libs/types-internal.
    - [InsertionOrderedMap], [TimedSizedMap]: utils/insertion_ordered_map and
      utils/timed_sized_map, against an association list and an index
      invariant.
    - [Watchlist], [NoncePool]: state/watchlist and state/nonce_pool.
    - [Sweeps]: state/deposits/sweeps, that is planning a sweep, recovering it
      from its message, settling it against the reported balances, and the
      mints of its deposits.
    - [Deposits]: state/deposits. [Stage], [Lifecycle] and [lifecycle_op] are
      the abstract specification, and [implements] relates the maps to it.
    - [SolTransfer]: sol_transfer and signer.
    - [MinterState]: state/mod.rs. [State] has the fields of the source; a
      function [process_...] is the method of that name, from state to state.
      Read-only accessors are the projections.
    - [Replay]: state/audit.rs, the event log of storage and lifecycle.rs;
      [minter_run] are the executions of the minter.
    - [Invariants], [Safety]: the invariants of [minter_run] and the theorems
      on reachable states.
    - [Batches], [Parameters]: the withdrawal batches, the validation of the
      parameters and upgrades.
    - [Guards]: guard and cycles.rs. [Rpc]: rpc, withdraw/nonce and the
      answers of the ledger (ledger). [Withdraw]: withdraw, the endpoint and
      the timer task.
    - [Interleaving]: the executions of the minter between two points of an
      asynchronous function ([calm_step]: any event but the ones excluded).
    - [Memo]: libs/types/src/memo. [Metrics]: the counters of storage.
    - [Mint]: deposit/sweep/mint and the mint call of ledger/client.rs. The
      class [DedupLedger] states what the ledger promises (transactions are
      deduplicated within their window), [window_ledger] is an instance, and
      [mint_step] runs the minter, the ledger and lost answers side by side.
    - [DepositSol]: deposit/sweep/mod.rs, deposit/automatic, utils/mod.rs and
      the endpoints of address. [SweepTasks]: deposit/sweep/timer.rs and
      deposit/sweep/finalize. [Monitor]: monitor.
    - [Execution]: how Solana executes a sweep, the environment of the
      settlement. [Delivery], [Payout]: the tasks of a deposit and of a
      withdrawal one after the other; the class [MessageAccounts] is what they
      rely on of the message builder, and each stage is a definition
      ([..._goes_through]) that quantifies over what happens in between and
      over the answers.
    - [CandidEvents]: libs/types-internal/src/event.rs, state/event/candid,
      the endpoint get_events and the client of tests/replay_events.rs. The
      codecs of other crates are the class [EventCodec], their round trips
      [EventCodecLaws].
    - [StableEncoding]: the CBOR attributes of state/event.rs and of
      libs/types-internal/src/lib.rs, state/event/cbor, and the log of storage
      as the bytes it consists of. The class [CborCodec] is what the derived
      encoders call in libraries; [rfc_encode] is an instance, as RFC 8949
      writes data items.
    - [Decimal], [Dashboard]: dashboard, that is amounts as text, pagination
      and the data of the page. [EncodeMetrics]: metrics.rs.
      [Http]: the HTTP endpoint of main.rs and libs/types-internal/src/log.rs;
      the class [HttpLibraries] is the log library and the rendering, which may
      fail.
    - [Async], [Tasks]: the asynchronous functions whole. A program of [Async]
      alternates atomic parts on the heap of the canister with awaited calls
      ([Request], with the type of its [Answer]); a [Task] is a sequence of such
      programs and of joined ones, with its scope guards and the timers it
      registers. [Tasks] composes the functions of timer.rs, mint, finalize,
      monitor, withdraw and address of the parts modelled before.
    - [Canister]: the endpoints of main.rs ([endpoint_step]), with any
      arguments and answers.
    - [System]: the running canister. [Machine] is the heap, the waiting rounds
      of tasks and the armed timers; [machine_step] is one message: a timer
      fires, a call is answered, a callback traps (its changes are undone and
      its scope guards run), an endpoint runs, or the canister is upgraded.
      [fire] and [answer] execute the first two.
    - [Scheduling]: which timers are armed and which guards are held.
      [Rounds]: the messages of a round are the parts cut out before, and an
      execution with honest answers, in which a deposit is minted and a
      withdrawal paid ([deposit_minted_and_withdrawal_paid]).
      [Costs]: a bound on the calls of asynchronous code ([task_cost]), all in
      all and at the same time, every signature of a transaction counted.
      [Concurrency]: these bounds for the tasks, so that every round ends
      after a number of calls known in advance ([round_limit]; [history] counts
      the calls answered to a round) and limits its outstanding calls; the class
      [UniqueSigners] says that the signers of a message are distinct.
    ** Conventions

    Code that may panic returns [outcome]; a panic traps the message and rolls
    its changes back, so it carries no state. The canister is built in release
    mode without overflow checks: a plain addition wraps ([+w]), checked and
    saturating operations are written out, and [debug_assert!] is absent. An
    asynchronous function is cut at its awaits into parts that run atomically;
    the awaited answer is an argument, and where a property depends on what
    other messages do during an await, they are steps of a relation
    ([round_step], [unsent_step], [minter_step]). The files from [Async] on put
    the parts together again, with every interleaving of the messages. Addresses, hashes and
    signatures are the big-endian values of their bytes. A [BTreeMap] is a
    [gmap] iterated in key order ([btree_iter]).

    ** What the theorems show

    - The log: replay of the log of any execution rebuilds the state up to
      transient data, and an upgrade keeps everything but that data.
    - Deposits: the maps implement the lifecycle; a deposit is minted at most
      once, for at most its sweepable amount, moves forward only and is never
      stuck behind a panic.
    - Sweeps: a plan covers its deposits, is recovered from its own message
      only, and settles only when the reported balances agree with it.
    - Withdrawals: an accepted withdrawal is in exactly one bucket and moves
      forward only; batches are affordable; no interleaving makes the creation
      or the submission of a withdrawal transaction panic; a nonce account
      serves one transaction at a time and a nonce value is bound once.
    - Mints: on the ledger a deposit is minted at most once, whatever answers
      are lost or calls repeated, and the minted supply is backed by lamports
      received; a memo identifies the deposit it was written for.
    - Endpoints and tasks: a deposit that was paid for is queued, a queued one
      can be swept, a finalized sweep is settled by its outcome, sweeps and
      withdrawals are finalized by what the chain reports, and none of these
      tasks traps, whatever other messages ran during its awaits.
    - End to end: a queued deposit is swept, finalized, credited and minted
      ([queued_deposit_reaches_ledger]), and a reserved withdrawal is created,
      signed and finalized ([reserved_withdrawal_is_paid]), when the chain and
      the ledger do their part, whatever else the minter does in between; a
      sweep that Solana executed always settles ([executed_sweep_settles]).
    - The canister: every message is a sequence of steps of the state machine
      ([canister_refines_minter]), so the theorems on [minter_run] are theorems
      on the canister; a round of a timer task has no rival while it waits
      ([tasks_do_not_interfere]), no trap or upgrade stops a task for good
      ([tasks_stay_scheduled]), every round ends within a
      known number of calls ([rounds_end]) and its outstanding calls are
      limited ([outstanding_calls_bounded]); its log survives in stable memory
      and can be exported and replayed elsewhere, the dashboard and the metrics
      show all withdrawals and deposits, and every HTTP request is answered.
    - Accounting: the balance accounts for every lamport received and sent.
    - Parameters, guards, collections: the behaviour of each operation on
      every branch.

    ** Bounds

    [retrieve_all_events] needs one round per 2000 events ([retrieve_from]);
    [digits] prints numbers of up to 39 digits, enough for 128 bits.
    [rfc_decode] runs with the number of bytes as fuel, enough since every data
    item takes one at least ([rfc_decode_encoded]). [batches_fuel] runs with the number of requests as fuel, enough since each
    batch takes one at least ([batches_fuel_spec]); [chunks_fuel] and
    [tsm_evict_loop] likewise run with the length of what they consume.
    Theorems on executions assume a log of at most 2^64-1 events (the deposit
    ids are 64-bit numbers), distinct burn block indices, as the ledger
    guarantees, and, for the accounting, that no 64-bit amount overflows
    ([sized], [log_fits]).

    ** Not modelled

    The HTML templates, the text format of the metrics, the writing of the log
    and the transport of requests are not modelled: they are rendering code of
    libraries, or input and output whose results are arguments here. The timers
    are those of a library; [step_fire] states what it promises: a timer fires
    when it is due or later, and one with an interval is armed again.
    Test fixtures and integration tests are not part of the program. *)
From Stdlib Require Export ZArith Lia.
From stdpp Require Export base sorting strings numbers gmap list.

#[global] Open Scope Z_scope.

(** * Panics

    A Rust function that may panic returns an [outcome]. On the Internet
    Computer a panic traps the message and rolls every state change of the
    message back, so a panicking step carries no state. *)
Inductive outcome (A : Type) : Type :=
  | Done (a : A)
  | Panic (why : string).
Arguments Done {A} a.
Arguments Panic {A} why.

#[export] Instance outcome_ret : MRet outcome := @Done.
#[export] Instance outcome_bind : MBind outcome := fun A B f m =>
  match m with Done a => f a | Panic w => Panic w end.

(** [assert!(b, why)] *)
Definition assert_ (b : bool) (why : string) : outcome unit :=
  if b then Done tt else Panic why.

(** [Option::expect] and [unwrap_or_else(|| panic!(..))] *)
Definition expect {A} (o : option A) (why : string) : outcome A :=
  match o with Some a => Done a | None => Panic why end.

(** Rust's [Result]. *)
Inductive result (T E : Type) : Type :=
  | Ok (t : T)
  | Err (e : E).
Arguments Ok {T E} t.
Arguments Err {T E} e.

#[export] Instance result_eq_dec {T E} `{EqDecision T, EqDecision E} : EqDecision (result T E).
Proof. solve_decision. Defined.

(** The [?] operator. *)
Definition result_bind {T U E} (r : result T E) (f : T -> result U E) : result U E :=
  match r with Ok t => f t | Err e => Err e end.

Definition ok_or {T E} (o : option T) (e : E) : result T E :=
  match o with Some t => Ok t | None => Err e end.

Definition map_err {T E F} (f : E -> F) (r : result T E) : result T F :=
  match r with Ok t => Ok t | Err e => Err (f e) end.

Definition is_ok {T E} (r : result T E) : bool :=
  match r with Ok _ => true | Err _ => false end.

(** A [for] loop whose body may panic. *)
Fixpoint foreach {S A} (f : S -> A -> outcome S) (s : S) (l : list A) : outcome S :=
  match l with
  | [] => Done s
  | x :: l => s' ← f s x; foreach f s' l
  end.

(** An iterator [map] whose closure may panic, collected into a [Vec]. *)
Fixpoint traverse {A B} (f : A -> outcome B) (l : list A) : outcome (list B) :=
  match l with
  | [] => Done []
  | x :: l => y ← f x; ys ← traverse f l; Done (y :: ys)
  end.

(** An iterator of [Result]s collected into a [Result<Vec<_>, _>]: the first error wins. *)
Fixpoint collect_results {A B E} (f : A -> result B E) (l : list A) : result (list B) E :=
  match l with
  | [] => Ok []
  | x :: l => result_bind (f x) (fun y => result_bind (collect_results f l) (fun ys => Ok (y :: ys)))
  end.

(** * Machine integers

    Unsigned integers are [Z]s. The canister is built with [--release]
    (scripts/build) and the release profile does not enable overflow checks,
    so the plain operators [+] and [*] and [Iterator::sum] wrap around. *)
Definition u64_modulus : Z := 18446744073709551616.
Definition u64_max : Z := 18446744073709551615.
Definition u128_modulus : Z := 340282366920938463463374607431768211456.
Definition u32_max : Z := 4294967295.

Definition is_u64 (z : Z) : Prop := 0 <= z < u64_modulus.
Definition is_u128 (z : Z) : Prop := 0 <= z < u128_modulus.

Definition wrap64 (z : Z) : Z := z mod u64_modulus.
Definition wadd (a b : Z) : Z := wrap64 (a + b).
Definition wmul (a b : Z) : Z := wrap64 (a * b).
Definition wsum (l : list Z) : Z := fold_left wadd l 0.
Definition wadd128 (a b : Z) : Z := (a + b) mod u128_modulus.

Definition checked_add (a b : Z) : option Z :=
  if a + b <? u64_modulus then Some (a + b) else None.
Definition checked_sub (a b : Z) : option Z :=
  if b <=? a then Some (a - b) else None.
Definition saturating_add (a b : Z) : Z := Z.min u64_max (a + b).
Definition saturating_sub (a b : Z) : Z := Z.max 0 (a - b).
Definition div_ceil (a b : Z) : Z :=
  if 0 <? a mod b then a / b + 1 else a / b.

(** The mathematical sum, against which the wrapping one is compared. *)
Fixpoint zsum (l : list Z) : Z :=
  match l with [] => 0 | x :: l => x + zsum l end.

Declare Scope u64_scope.
Delimit Scope u64_scope with u64.
Infix "+w" := wadd (at level 50, left associativity) : u64_scope.
Infix "*w" := wmul (at level 40, left associativity) : u64_scope.
#[global] Open Scope u64_scope.

(** * Record updates

    [r <| f := v |>] and [r <| f ::= g |>] update one field. A record type
    supports them once it has an [Eta] instance that rebuilds a value from
    its projections; the setter of a field is computed from it. *)
Class Eta (R : Type) : Type := rebuild : R -> R.
Class FieldUpd {R T : Type} (proj : R -> T) : Type := field_upd : (T -> T) -> R -> R.
Arguments field_upd {R T} proj {_} _ _ /.

Ltac derive_field_upd :=
  match goal with
  | |- @FieldUpd ?R ?T ?proj =>
      let f := fresh "f" in
      let r := fresh "r" in
      refine (fun (f : T -> T) (r : R) => _);
      let inst := constr:(_ : Eta R) in
      let e := eval hnf in inst in
      let body := eval cbv beta in (e r) in
      let abs := eval pattern (proj r) in body in
      match abs with
      | ?g _ => let res := eval cbv beta in (g (f (proj r))) in exact res
      end
  end.
#[export] Hint Extern 0 (FieldUpd _) => derive_field_upd : typeclass_instances.

(** Reads a field of an updated record, one update at a time: normalising
    nested updates of a wide record is exponential. *)
Ltac upd_eq p R f i g k :=
  let H := fresh "Hupd" in
  tryif constr_eq p f
  then (assert (H : forall r0 : R, p (@field_upd R _ f i g r0) = g (p r0)) by (intros ?; reflexivity); k H; clear H)
  else (assert (H : forall r0 : R, p (@field_upd R _ f i g r0) = p r0) by (intros ?; reflexivity); k H; clear H).
Ltac read_upd :=
  repeat match goal with
  | |- context [?p (@field_upd ?R _ ?f ?i ?g ?r)] =>
      first [ upd_eq p R f i g ltac:(fun H => rewrite (H r)); cbv beta
            | change (p (@field_upd R _ f i g r)) with (p r)
            | change (p (@field_upd R _ f i g r)) with (g (p r)); cbv beta ]
  end.
Ltac read_upd_in H :=
  repeat match type of H with
  | context [?p (@field_upd ?R _ ?f ?i ?g ?r)] =>
      first [ upd_eq p R f i g ltac:(fun H' => rewrite (H' r) in H); cbv beta in H
            | change (p (@field_upd R _ f i g r)) with (p r) in H
            | change (p (@field_upd R _ f i g r)) with (g (p r)) in H; cbv beta in H ]
  end.

Declare Scope record_scope.
Delimit Scope record_scope with rec.
Notation "r <| f ::= g |>" := (field_upd f g r)
  (at level 1, left associativity, f at level 9) : record_scope.
Notation "r <| f := v |>" := (field_upd f (fun _ => v) r)
  (at level 1, left associativity, f at level 9) : record_scope.
#[global] Open Scope record_scope.

(** * Sorting and ordered maps

    [sort_by leb] is a stable sort: an element is placed before the first
    element it does not exceed, starting from the right, so equal elements
    keep their order, as [slice::sort_by_key] guarantees. *)
Fixpoint insert_by {A} (leb : A -> A -> bool) (x : A) (l : list A) : list A :=
  match l with
  | [] => [x]
  | y :: l' => if leb x y then x :: y :: l' else y :: insert_by leb x l'
  end.

Definition sort_by {A} (leb : A -> A -> bool) (l : list A) : list A :=
  fold_right (insert_by leb) [] l.

(** A [BTreeMap] whose keys are integers (ids, timestamps, and addresses,
    signatures and hashes read as big-endian numbers, whose lexicographic
    order is the numeric one): lookups go through [gmap], iteration visits
    the keys in increasing order. *)
Definition key_leb {V} (x y : Z * V) : bool := fst x <=? fst y.
Definition btree_iter {V} (m : gmap Z V) : list (Z * V) := sort_by key_leb (map_to_list m).
Definition btree_keys {V} (m : gmap Z V) : list Z := (btree_iter m).*1.
Definition btree_values {V} (m : gmap Z V) : list V := (btree_iter m).*2.

(** The elements of a [BTreeSet] of integers, in increasing order. *)
Definition bset_iter (s : gset Z) : list Z := sort_by Z.leb (elements s).

(** [Iterator::collect] into a [BTreeMap]: a later pair replaces an earlier one. *)
Definition collect_map {V} (l : list (Z * V)) : gmap Z V :=
  fold_left (fun m kv => <[kv.1 := kv.2]> m) l ∅.

(** [Itertools::chunks(n)]; the fuel [length l] suffices since every round
    consumes at least one element. *)
Fixpoint chunks_fuel {A} (fuel : nat) (n : nat) (l : list A) : list (list A) :=
  match fuel, l with
  | S fuel, _ :: _ => take n l :: chunks_fuel fuel n (drop n l)
  | _, _ => []
  end.
Definition chunks {A} (n : nat) (l : list A) : list (list A) := chunks_fuel (length l) n l.

(** [Iterator::max_by_key]: of several maximal elements the last one is returned. *)
Definition max_by {A} (leb : A -> A -> bool) (l : list A) : option A :=
  match l with
  | [] => None
  | x :: l => Some (fold_left (fun best y => if leb best y then y else best) l x)
  end.

(** [Iterator::min] over an integer iterator. *)
Definition list_min (l : list Z) : option Z :=
  match l with [] => None | x :: l => Some (fold_left Z.min l x) end.

(** ** Lemmas on outcomes *)
Lemma bind_Done {A B} (f : A -> outcome B) (m : outcome A) (b : B) :
  m ≫= f = Done b <-> exists a, m = Done a /\ f a = Done b.
Proof. destruct m as [a | w]; cbn; naive_solver. Qed.

Lemma assert_Done (b : bool) why u : assert_ b why = Done u <-> b = true.
Proof. destruct b, u; cbn; naive_solver. Qed.

Lemma expect_Done {A} (o : option A) why a : expect o why = Done a <-> o = Some a.
Proof. destruct o; cbn; naive_solver. Qed.

Lemma Done_inj {A} (a b : A) : Done a = Done b <-> a = b.
Proof. naive_solver. Qed.

Lemma Done_inv {A} (a b : A) : Done a = Done b -> a = b.
Proof. by intros [= ->]. Qed.

(** Turns a hypothesis [m = Done x] about a monadic program into the list
    of its successful steps. *)
Ltac inv_done :=
  repeat match goal with
  | H : _ ≫= _ = Done _ |- _ => apply bind_Done in H as (? & ? & H)
  | H : assert_ _ _ = Done _ |- _ => apply assert_Done in H
  | H : expect _ _ = Done _ |- _ => apply expect_Done in H
  | H : mret _ = Done _ |- _ => apply Done_inv in H
  | H : Done _ = Done _ |- _ => apply Done_inv in H
  | H : Panic _ = Done _ |- _ => discriminate H
  | H : (let _ := _ in _) = Done _ |- _ => progress cbv zeta in H
  | H : (let '(_, _) := ?p in _) = Done _ |- _ => destruct p
  end.

Lemma foreach_app {S A} (f : S -> A -> outcome S) s l1 l2 :
  foreach f s (l1 ++ l2) = (s' ← foreach f s l1; foreach f s' l2).
Proof.
  revert s; induction l1 as [|x l1 IH]; intros s; [done|].
  cbn. destruct (f s x); cbn; [apply IH | done].
Qed.

(** The loop rule: an invariant of every iteration holds at the end. *)
Lemma foreach_inv {S A} (P : S -> Prop) (f : S -> A -> outcome S) l :
  (forall s x s', x ∈ l -> P s -> f s x = Done s' -> P s') ->
  forall s s', P s -> foreach f s l = Done s' -> P s'.
Proof.
  induction l as [|x l IH]; intros Hstep s s' HP Hrun; cbn in *.
  - by simplify_eq.
  - apply bind_Done in Hrun as (s1 & Hf & Hrun).
    eapply IH; [|eapply Hstep; [left | exact HP | exact Hf] | exact Hrun].
    intros. eapply Hstep; [by right | done..].
Qed.

Lemma traverse_Done {A B} (f : A -> outcome B) l ys :
  traverse f l = Done ys <-> Forall2 (fun x y => f x = Done y) l ys.
Proof.
  revert ys; induction l as [|x l IH]; intros ys; cbn.
  - rewrite Done_inj. split; [intros <-; constructor | inversion 1; done].
  - rewrite bind_Done. setoid_rewrite bind_Done. setoid_rewrite IH. split.
    + intros (y & Hy & ys' & Hys & [= <-]). by constructor.
    + inversion 1; subst. naive_solver.
Qed.

Lemma collect_results_Ok {A B E} (f : A -> result B E) l ys :
  collect_results f l = Ok ys <-> Forall2 (fun x y => f x = Ok y) l ys.
Proof.
  revert ys; induction l as [|x l IH]; intros ys; cbn.
  - split; [intros [= <-]; constructor | inversion 1; done].
  - split.
    + destruct (f x) eqn:Hf; cbn; [|done].
      destruct (collect_results f l) eqn:Hl; cbn; [|done].
      intros [= <-]. constructor; [done | by apply IH].
    + inversion 1 as [|? ? ? ? Hx Hl]; subst. apply IH in Hl. by rewrite Hx, Hl.
Qed.

(** ** Lemmas on machine integers *)
Lemma checked_add_Some a b c : checked_add a b = Some c <-> c = a + b /\ a + b < u64_modulus.
Proof. unfold checked_add. destruct (Z.ltb_spec (a + b) u64_modulus); naive_solver lia. Qed.

Lemma checked_sub_Some a b c : checked_sub a b = Some c <-> c = a - b /\ b <= a.
Proof. unfold checked_sub. destruct (Z.leb_spec b a); naive_solver lia. Qed.

Lemma checked_sub_None a b : checked_sub a b = None <-> a < b.
Proof. unfold checked_sub. destruct (Z.leb_spec b a); naive_solver lia. Qed.

Lemma wrap64_small z : is_u64 z -> wrap64 z = z.
Proof. unfold is_u64, wrap64. intros. by apply Z.mod_small. Qed.

Lemma wrap64_range z : is_u64 (wrap64 z).
Proof. unfold is_u64, wrap64. by apply Z.mod_pos_bound. Qed.

Lemma zsum_nonneg l : Forall (fun x => 0 <= x) l -> 0 <= zsum l.
Proof. induction 1; cbn in *; lia. Qed.

Lemma zsum_app l1 l2 : zsum (l1 ++ l2) = zsum l1 + zsum l2.
Proof. induction l1; cbn in *; lia. Qed.

Lemma zsum_perm l1 l2 : l1 ≡ₚ l2 -> zsum l1 = zsum l2.
Proof. induction 1; cbn in *; lia. Qed.

Lemma zsum_le {A} (f g : A -> Z) l :
  (forall x, x ∈ l -> f x <= g x) -> zsum (f <$> l) <= zsum (g <$> l).
Proof.
  induction l as [|x l IH]; intros H; cbn; [lia|].
  specialize (H x (list_elem_of_here _ _)) as Hx.
  assert (forall y, y ∈ l -> f y <= g y) as H' by (intros; apply H; by right).
  specialize (IH H'). cbn in IH. lia.
Qed.

Lemma zsum_map_add {A} (f g : A -> Z) l :
  zsum ((fun x => f x + g x) <$> l) = zsum (f <$> l) + zsum (g <$> l).
Proof. induction l; cbn in *; lia. Qed.

Lemma zsum_map_sub {A} (f g : A -> Z) l :
  zsum ((fun x => f x - g x) <$> l) = zsum (f <$> l) - zsum (g <$> l).
Proof. induction l; cbn in *; lia. Qed.

Lemma zsum_const {A} (c : Z) (l : list A) :
  zsum ((fun _ => c) <$> l) = c * Z.of_nat (length l).
Proof. induction l; cbn in *; lia. Qed.

Lemma fold_wadd l a : is_u64 a -> fold_left wadd l a = wrap64 (a + zsum l).
Proof.
  unfold is_u64, wadd, wrap64. revert a; induction l as [|x l IH]; intros a Ha; cbn.
  - rewrite Z.add_0_r, Z.mod_small; done.
  - rewrite IH by (by apply Z.mod_pos_bound).
    rewrite Zplus_mod_idemp_l. f_equal. lia.
Qed.

(** [Iterator::sum] in the release profile is the mathematical sum modulo 2^64. *)
Lemma wsum_wrap l : wsum l = wrap64 (zsum l).
Proof. unfold wsum. rewrite fold_wadd; [done | unfold is_u64, u64_modulus; lia]. Qed.

Lemma wsum_exact l : is_u64 (zsum l) -> wsum l = zsum l.
Proof. intros. by rewrite wsum_wrap, wrap64_small. Qed.

(** The wrapped sum never exceeds the mathematical one. *)
Lemma wsum_le l : Forall (fun x => 0 <= x) l -> wsum l <= zsum l.
Proof.
  intros Hl. rewrite wsum_wrap. apply Z.mod_le; [by apply zsum_nonneg | done].
Qed.

Lemma div_ceil_bounds a b : 0 <= a -> 0 < b -> a <= b * div_ceil a b < a + b.
Proof.
  intros Ha Hb. unfold div_ceil.
  pose proof (Z.div_mod a b ltac:(lia)). pose proof (Z.mod_pos_bound a b Hb).
  destruct (Z.ltb_spec 0 (a mod b)); nia.
Qed.

(** ** Lemmas on sorting *)
Section Sorting.
Context {A : Type} (leb : A -> A -> bool).

Lemma insert_by_perm x l : insert_by leb x l ≡ₚ x :: l.
Proof.
  induction l as [|y l IH]; cbn; [done|]. destruct (leb x y); [done|].
  rewrite IH. apply Permutation_swap.
Qed.

Lemma sort_by_perm l : sort_by leb l ≡ₚ l.
Proof. induction l as [|x l IH]; cbn; [done|]. by rewrite insert_by_perm, IH. Qed.

Lemma sort_by_elem x l : x ∈ sort_by leb l <-> x ∈ l.
Proof. by rewrite sort_by_perm. Qed.

Lemma sort_by_length l : length (sort_by leb l) = length l.
Proof. apply Permutation_length, sort_by_perm. Qed.

Context (leb_total : forall x y, leb x y = true \/ leb y x = true).
Context (leb_trans : forall x y z, leb x y = true -> leb y z = true -> leb x z = true).

Lemma insert_by_sorted x l :
  StronglySorted (fun x y => leb x y = true) l ->
  StronglySorted (fun x y => leb x y = true) (insert_by leb x l).
Proof.
  induction 1 as [|y l Hl IH Hy]; cbn; [repeat constructor|].
  destruct (leb x y) eqn:Hxy.
  - constructor; [by constructor|]. constructor; [done|].
    rewrite Forall_forall in *. eauto.
  - constructor; [done|]. rewrite insert_by_perm. constructor; [|done].
    destruct (leb_total x y); congruence.
Qed.

Lemma sort_by_sorted l : StronglySorted (fun x y => leb x y = true) (sort_by leb l).
Proof. induction l; cbn; [constructor | by apply insert_by_sorted]. Qed.

Lemma fold_max_by l : forall x,
  let y := fold_left (fun best y => if leb best y then y else best) l x in
  (y = x \/ y ∈ l) /\ leb x y = true /\ Forall (fun z => leb z y = true) l.
Proof.
  induction l as [|z l IH]; intros x; cbn.
  - split_and!; [by left | destruct (leb_total x x); done | constructor].
  - destruct (leb x z) eqn:Hxz.
    + destruct (IH z) as (Hin & Hz & Hall). split_and!; [|by eapply leb_trans | by constructor].
      right. destruct Hin as [->|]; [left | by right].
    + assert (leb z x = true) by (destruct (leb_total x z); congruence).
      destruct (IH x) as (Hin & Hx & Hall). split_and!; [|done | constructor; [by eapply leb_trans | done]].
      destruct Hin as [->|]; [by left | right; by right].
Qed.

Lemma max_by_Some l y : max_by leb l = Some y -> y ∈ l /\ Forall (fun z => leb z y = true) l.
Proof.
  destruct l as [|x l]; [done|]. intros [= <-]. destruct (fold_max_by l x) as (Hin & Hx & Hall).
  split; [|by constructor]. destruct Hin as [->|]; [left | by right].
Qed.
End Sorting.

Lemma max_by_is_Some {A} leb (l : list A) : l <> [] -> is_Some (max_by leb l).
Proof. destruct l; [done|]. intros _. by eexists. Qed.

Lemma StronglySorted_lt_NoDup (l : list Z) : StronglySorted Z.lt l -> NoDup l.
Proof.
  induction 1 as [|x l Hl IH Hx]; constructor; [|done].
  intros Hin. rewrite Forall_forall in Hx. specialize (Hx _ Hin). lia.
Qed.

Lemma Forall2_impl_strong {A B} (P Q : A -> B -> Prop) l k :
  Forall2 P l k -> (forall x y, x ∈ l -> y ∈ k -> P x y -> Q x y) -> Forall2 Q l k.
Proof.
  induction 1 as [|x y l k Hxy HF IH]; intros Himpl; constructor.
  - apply Himpl; [left | left | done].
  - apply IH. intros. apply Himpl; [by right | by right | done].
Qed.

Lemma Forall2_elem_l {A B} (P : A -> B -> Prop) l k x :
  Forall2 P l k -> x ∈ l -> exists y, y ∈ k /\ P x y.
Proof.
  intros HF [i Hi]%list_elem_of_lookup_1. destruct (Forall2_lookup_l _ _ _ _ _ HF Hi) as (y & Hy & HP).
  exists y. split; [by eapply list_elem_of_lookup_2 | done].
Qed.

Lemma Forall2_elem_r {A B} (P : A -> B -> Prop) l k y :
  Forall2 P l k -> y ∈ k -> exists x, x ∈ l /\ P x y.
Proof. intros HF%Forall2_flip Hy. by eapply Forall2_elem_l in HF. Qed.

Lemma filter_all {A} (P : A -> Prop) `{!forall x, Decision (P x)} (l : list A) :
  (forall x, x ∈ l -> P x) -> filter P l = l.
Proof.
  induction l as [|x l IH]; intros Hl; [done|]. rewrite filter_cons, decide_True by (apply Hl; left).
  f_equal. apply IH. intros. apply Hl. by right.
Qed.

Lemma filter_none {A} (P : A -> Prop) `{!forall x, Decision (P x)} (l : list A) :
  (forall x, x ∈ l -> ~ P x) -> filter P l = [].
Proof.
  induction l as [|x l IH]; intros Hl; [done|]. rewrite filter_cons, decide_False by (apply Hl; left).
  apply IH. intros. apply Hl. by right.
Qed.

Lemma elem_of_list_concat {A} (x : A) ll : x ∈ concat ll <-> exists l, x ∈ l /\ l ∈ ll.
Proof.
  induction ll as [|l ll IH]; cbn.
  - rewrite elem_of_nil. split; [done|]. by intros (? & ? & ?%not_elem_of_nil).
  - rewrite elem_of_app, IH. setoid_rewrite elem_of_cons. naive_solver.
Qed.

(** ** Lemmas on ordered maps *)
Section BTree.
Context {V : Type}.
Implicit Types (m : gmap Z V) (k : Z) (v : V).

Lemma btree_iter_perm m : btree_iter m ≡ₚ map_to_list m.
Proof. apply sort_by_perm. Qed.

Lemma elem_of_btree_iter m k v : (k, v) ∈ btree_iter m <-> m !! k = Some v.
Proof. by rewrite btree_iter_perm, elem_of_map_to_list. Qed.

Lemma btree_iter_length m : length (btree_iter m) = size m.
Proof. rewrite btree_iter_perm. apply length_map_to_list. Qed.

Lemma elem_of_btree_keys m k : k ∈ btree_keys m <-> is_Some (m !! k).
Proof.
  unfold btree_keys. rewrite list_elem_of_fmap. split.
  - intros ([k' v] & -> & Hv%elem_of_btree_iter). by exists v.
  - intros [v Hv]. exists (k, v). by rewrite elem_of_btree_iter.
Qed.

Lemma elem_of_btree_values m v : v ∈ btree_values m <-> exists k, m !! k = Some v.
Proof.
  unfold btree_values. rewrite list_elem_of_fmap. split.
  - intros ([k v'] & -> & Hv%elem_of_btree_iter). by exists k.
  - intros [k Hv]. exists (k, v). by rewrite elem_of_btree_iter.
Qed.

Lemma NoDup_btree_keys m : NoDup (btree_keys m).
Proof. unfold btree_keys. rewrite btree_iter_perm. apply NoDup_fst_map_to_list. Qed.

Lemma btree_iter_empty : btree_iter (∅ : gmap Z V) = [].
Proof. done. Qed.

Lemma key_leb_total (x y : Z * V) : key_leb x y = true \/ key_leb y x = true.
Proof. unfold key_leb. rewrite !Z.leb_le. lia. Qed.

Lemma key_leb_trans (x y z : Z * V) :
  key_leb x y = true -> key_leb y z = true -> key_leb x z = true.
Proof. unfold key_leb. rewrite !Z.leb_le. lia. Qed.

(** Iteration visits the keys in strictly increasing order. *)
Lemma btree_keys_sorted m : StronglySorted Z.lt (btree_keys m).
Proof.
  pose proof (sort_by_sorted key_leb key_leb_total key_leb_trans (map_to_list m)) as Hs.
  pose proof (NoDup_btree_keys m) as Hnd. unfold btree_keys, btree_iter in *.
  induction Hs as [|[k v] l Hl IH Hk]; cbn in *; [constructor|].
  apply NoDup_cons in Hnd as [Hnin Hnd]. constructor; [by apply IH|].
  rewrite Forall_forall in Hk. apply Forall_forall. intros k' Hk'.
  apply list_elem_of_fmap in Hk' as ([k'' v'] & -> & Hin).
  specialize (Hk _ Hin). unfold key_leb in Hk; cbn in *. apply Z.leb_le in Hk.
  assert (k <> k''); [|lia]. intros ->. apply Hnin. apply list_elem_of_fmap. by exists (k'', v').
Qed.

(** Two key-sorted association lists with the same elements are equal. *)
Lemma sorted_assoc_unique (l1 l2 : list (Z * V)) :
  StronglySorted Z.lt l1.*1 -> StronglySorted Z.lt l2.*1 -> l1 ≡ₚ l2 -> l1 = l2.
Proof.
  revert l2. induction l1 as [|[k1 v1] l1 IH]; intros l2 H1 H2 Hp.
  { symmetry. by apply Permutation_nil. }
  destruct l2 as [|[k2 v2] l2]; [by apply Permutation_nil_r in Hp|].
  inversion H1 as [|? ? Hs1 Hf1]; inversion H2 as [|? ? Hs2 Hf2]; subst.
  rewrite Forall_forall in Hf1, Hf2.
  assert ((k1, v1) = (k2, v2)) as [= <- <-].
  { assert ((k1, v1) ∈ (k2, v2) :: l2) as [?|Ha]%elem_of_cons by (rewrite <- Hp; left); [done|].
    assert ((k2, v2) ∈ (k1, v1) :: l1) as [?|Hb]%elem_of_cons by (rewrite Hp; left); [done|].
    specialize (Hf1 k2 (list_elem_of_fmap_2 fst _ _ Hb)).
    specialize (Hf2 k1 (list_elem_of_fmap_2 fst _ _ Ha)). cbn in *. lia. }
  f_equal. apply IH; [done..|]. by apply Permutation_cons_inv in Hp.
Qed.

Lemma collect_map_fold (l : list (Z * V)) m :
  fold_left (fun m kv => <[kv.1 := kv.2]> m) l m = list_to_map (reverse l) ∪ m.
Proof.
  revert m; induction l as [|[k v] l IH]; intros m; cbn [fold_left fst snd].
  - by rewrite reverse_nil, list_to_map_nil, (left_id_L ∅ (∪)).
  - rewrite IH, reverse_cons, list_to_map_app, list_to_map_cons, list_to_map_nil.
    by rewrite <- (assoc_L (∪)), insert_empty, insert_union_singleton_l.
Qed.

Lemma collect_map_lookup (l : list (Z * V)) k v :
  collect_map l !! k = Some v -> (k, v) ∈ l.
Proof.
  unfold collect_map. rewrite collect_map_fold, (right_id_L ∅ (∪)).
  intros H%elem_of_list_to_map_2. by rewrite elem_of_reverse in H.
Qed.

Lemma collect_map_NoDup (l : list (Z * V)) :
  NoDup l.*1 -> forall k v, collect_map l !! k = Some v <-> (k, v) ∈ l.
Proof.
  intros Hnd k v. unfold collect_map. rewrite collect_map_fold, (right_id_L ∅ (∪)).
  rewrite <- elem_of_list_to_map.
  - by rewrite elem_of_reverse.
  - rewrite fmap_reverse. by rewrite reverse_Permutation.
Qed.

Lemma collect_map_is_Some (l : list (Z * V)) k :
  k ∈ l.*1 -> is_Some (collect_map l !! k).
Proof.
  unfold collect_map. rewrite collect_map_fold, (right_id_L ∅ (∪)). intros Hin.
  destruct (list_to_map (M:=gmap Z V) (reverse l) !! k) eqn:Hk; [by eexists|].
  apply not_elem_of_list_to_map_2 in Hk. by rewrite fmap_reverse, elem_of_reverse in Hk.
Qed.
Lemma StronglySorted_filter_fst (P : Z * V -> Prop) `{!forall x, Decision (P x)} (l : list (Z * V)) :
  StronglySorted Z.lt l.*1 -> StronglySorted Z.lt (filter P l).*1.
Proof.
  induction l as [|x l IH]; intros Hs; [done|]. inversion Hs as [|? ? Hl Hx]; subst.
  rewrite filter_cons. case_decide; [|by apply IH]. cbn. constructor; [by apply IH|].
  rewrite Forall_forall in *. intros k Hk. apply list_elem_of_fmap in Hk as (y & -> & Hy).
  apply list_elem_of_filter in Hy as [_ Hy]. apply Hx. by apply list_elem_of_fmap_2.
Qed.

Lemma StronglySorted_snoc (l : list Z) x :
  StronglySorted Z.lt l -> Forall (fun y => y < x) l -> StronglySorted Z.lt (l ++ [x]).
Proof.
  induction 1 as [|y l Hl IH Hy]; intros Hx; cbn; [repeat constructor|].
  inversion Hx; subst. constructor; [by apply IH|]. apply Forall_app_2; [done | by repeat constructor].
Qed.

(** A key-sorted association list of the map's pairs is its iteration. *)
Lemma btree_iter_unique m (l : list (Z * V)) :
  StronglySorted Z.lt l.*1 -> (forall k v, (k, v) ∈ l <-> m !! k = Some v) -> btree_iter m = l.
Proof.
  intros Hs Hl. apply sorted_assoc_unique; [apply btree_keys_sorted | done|].
  assert (NoDup l) as Hnd.
  { clear Hl. induction l as [|x l IH]; [constructor|]. inversion Hs as [|? ? Hs' Hx]; subst.
    constructor; [|by apply IH]. intros Hin. rewrite Forall_forall in Hx.
    specialize (Hx x.1 (list_elem_of_fmap_2 _ _ _ Hin)). lia. }
  rewrite btree_iter_perm. apply NoDup_Permutation; [apply NoDup_map_to_list | done|].
  intros [k v]. by rewrite elem_of_map_to_list, Hl.
Qed.

Lemma btree_iter_delete m k :
  btree_iter (delete k m) = filter (fun p => p.1 <> k) (btree_iter m).
Proof.
  apply btree_iter_unique.
  - apply StronglySorted_filter_fst, btree_keys_sorted.
  - intros k' v. rewrite list_elem_of_filter, elem_of_btree_iter, lookup_delete_Some. cbn. naive_solver.
Qed.

(** Inserting above every key appends to the iteration. *)
Lemma btree_iter_insert_last m k v :
  (forall k', is_Some (m !! k') -> k' < k) -> btree_iter (<[k := v]> m) = btree_iter m ++ [(k, v)].
Proof.
  intros Hk. apply btree_iter_unique.
  - rewrite fmap_app. apply StronglySorted_snoc; [apply btree_keys_sorted|].
    apply Forall_forall. intros k' Hk'. apply Hk. by apply elem_of_btree_keys.
  - intros k' v'. rewrite elem_of_app, elem_of_btree_iter, list_elem_of_singleton.
    rewrite lookup_insert_Some. split.
    + intros [Hm|[= -> ->]]; [|by left]. right. split; [|done].
      specialize (Hk k' (mk_is_Some _ _ Hm)). lia.
    + intros [[-> ->]|[_ Hm]]; [by right | by left].
Qed.

(** The first pair of the iteration is the one with the least key. *)
Lemma btree_iter_cons m k v l :
  btree_iter m = (k, v) :: l ->
  m !! k = Some v /\ btree_iter (delete k m) = l /\
  forall k', is_Some (m !! k') -> k <= k'.
Proof.
  intros Hm. assert (m !! k = Some v) as Hk by (apply elem_of_btree_iter; rewrite Hm; left).
  pose proof (btree_keys_sorted m) as Hs. unfold btree_keys in Hs. rewrite Hm in Hs.
  inversion Hs as [|? ? Hs' Hall]; subst. rewrite Forall_forall in Hall.
  split_and!; [done| |].
  - rewrite btree_iter_delete, Hm, filter_cons. cbn. rewrite decide_False by naive_solver.
    apply filter_all. intros [k' v'] Hin. cbn.
    specialize (Hall k' (list_elem_of_fmap_2 fst _ _ Hin)). lia.
  - intros k' Hk'. apply elem_of_btree_keys in Hk'. unfold btree_keys in Hk'. rewrite Hm in Hk'.
    cbn in Hk'. apply elem_of_cons in Hk' as [->|Hin]; [lia|]. specialize (Hall _ Hin). lia.
Qed.

Lemma btree_iter_lookup_perm m k v :
  m !! k = Some v -> btree_iter m ≡ₚ (k, v) :: filter (fun p => p.1 <> k) (btree_iter m).
Proof.
  intros Hk. rewrite <- btree_iter_delete, !btree_iter_perm. by rewrite map_to_list_delete.
Qed.

Lemma btree_iter_nil m : btree_iter m = [] -> m = ∅.
Proof.
  intros Hm. apply map_eq. intros k. rewrite lookup_empty.
  destruct (m !! k) as [v|] eqn:Hk; [|done]. apply elem_of_btree_iter in Hk. rewrite Hm in Hk.
  by apply not_elem_of_nil in Hk.
Qed.
End BTree.

(** Inserting (or deleting) every key of a map while iterating over it. *)
Lemma fold_insert_iter {A B} (g : A -> B) (l : list (Z * A)) : forall (m : gmap Z B) i,
  NoDup l.*1 ->
  fold_left (fun m (e : Z * A) => <[e.1 := g e.2]> m) l m !! i =
  match (list_to_map l : gmap Z A) !! i with Some a => Some (g a) | None => m !! i end.
Proof.
  induction l as [|[k a] l IH]; intros m i Hnd; [done|]. apply NoDup_cons in Hnd as [Hnin Hnd].
  cbn [fold_left fst snd]. rewrite IH by done. rewrite list_to_map_cons.
  destruct (decide (k = i)) as [<-|Hne].
  - rewrite lookup_insert_eq. rewrite not_elem_of_list_to_map_1 by done. by rewrite lookup_insert_eq.
  - by rewrite !lookup_insert_ne by done.
Qed.

Lemma list_to_map_btree_iter {A} (D : gmap Z A) : list_to_map (btree_iter D) = D.
Proof.
  apply map_eq. intros i. apply option_eq. intros a. rewrite <- elem_of_list_to_map by apply NoDup_btree_keys.
  apply elem_of_btree_iter.
Qed.

Lemma fold_insert_btree {A B} (g : A -> B) (D : gmap Z A) (m : gmap Z B) i :
  fold_left (fun m (e : Z * A) => <[e.1 := g e.2]> m) (btree_iter D) m !! i =
  match D !! i with Some a => Some (g a) | None => m !! i end.
Proof. rewrite fold_insert_iter by apply NoDup_btree_keys. by rewrite list_to_map_btree_iter. Qed.

Lemma fold_delete_lookup `{Countable K} {A B} (key : A -> K) (l : list A) : forall (m : gmap K B) i,
  fold_left (fun m a => delete (key a) m) l m !! i =
  if decide (i ∈ map key l) then None else m !! i.
Proof.
  induction l as [|a l IH]; intros m i; cbn [fold_left map].
  - by rewrite decide_False by apply not_elem_of_nil.
  - rewrite IH. destruct (decide (i ∈ map key l)).
    + by rewrite decide_True by (by right).
    + destruct (decide (key a = i)) as [<-|Hne].
      * rewrite lookup_delete_eq. by rewrite decide_True by left.
      * rewrite lookup_delete_ne by done. by rewrite decide_False by (by intros [->|]%elem_of_cons).
Qed.

Lemma elem_of_bset_iter s x : x ∈ bset_iter s <-> x ∈ s.
Proof. unfold bset_iter. by rewrite sort_by_elem, elem_of_elements. Qed.

(** ** Lemmas on chunks *)
Lemma chunks_fuel_concat {A} fuel n (l : list A) :
  (0 < n)%nat -> (length l <= fuel)%nat -> concat (chunks_fuel fuel n l) = l.
Proof.
  intros Hn. revert l; induction fuel as [|fuel IH]; intros [|x l] Hf; cbn in *; try lia; [done..|].
  destruct n; [lia|]. cbn. rewrite IH; [by rewrite take_drop|]. rewrite length_drop. lia.
Qed.

(** Chunking loses, duplicates and reorders nothing. *)
Lemma chunks_concat {A} n (l : list A) : (0 < n)%nat -> concat (chunks n l) = l.
Proof. intros. by apply chunks_fuel_concat. Qed.

Lemma chunks_bounds {A} n (l : list A) :
  (0 < n)%nat -> Forall (fun c => (0 < length c <= n)%nat) (chunks n l).
Proof.
  intros Hn. unfold chunks. generalize (length l) as fuel. intros fuel. revert l.
  induction fuel as [|fuel IH]; intros [|x l]; cbn; try constructor; [|apply IH].
  destruct n; [lia|]. cbn. rewrite length_take. lia.
Qed.

Lemma list_min_spec l x : list_min l = Some x -> x ∈ l /\ Forall (fun y => x <= y) l.
Proof.
  destruct l as [|z l]; cbn; [done|]. intros [= <-].
  assert (forall a, (fold_left Z.min l a = a \/ fold_left Z.min l a ∈ l) /\
    fold_left Z.min l a <= a /\ Forall (fun y => fold_left Z.min l a <= y) l) as H.
  { induction l as [|y l IH]; intros a; cbn; [split; [by left | split; [lia | constructor]]|].
    destruct (IH (Z.min a y)) as ([He|Hin] & Hle & Hall).
    - split; [|split; [lia | constructor; [lia | done]]].
      destruct (Z.min_spec a y) as [[_ Hm]|[_ Hm]]; rewrite Hm in *; [by left|right; rewrite He; left].
    - split; [right; by right | split; [lia | constructor; [lia | done]]]. }
  destruct (H z) as ([He|Hin] & Hle & Hall).
  - split; [rewrite He; left | constructor; done].
  - split; [by right | by constructor].
Qed.

(** ** Sums over maps *)
Definition map_sum {V} (f : V -> Z) (m : gmap Z V) : Z := zsum (map (fun p => f p.2) (map_to_list m)).

(** The value of a key in the sum. *)
Definition value_at {V} (f : V -> Z) (m : gmap Z V) (k : Z) : Z := default 0 (f <$> m !! k).

Lemma map_sum_empty {V} (f : V -> Z) : map_sum f ∅ = 0.
Proof. unfold map_sum. by rewrite map_to_list_empty. Qed.

Lemma map_sum_insert {V} (f : V -> Z) m i x : m !! i = None -> map_sum f (<[i := x]> m) = f x + map_sum f m.
Proof.
  intros Hi. unfold map_sum. rewrite (zsum_perm _ (map (fun p => f p.2) ((i, x) :: map_to_list m))); [done|].
  by rewrite map_to_list_insert.
Qed.

Lemma zsum_zero {A} (g : A -> Z) l : (forall x, x ∈ l -> g x = 0) -> zsum (map g l) = 0.
Proof.
  induction l as [|x l IH]; intros Hg; cbn; [done|]. rewrite (Hg x (list_elem_of_here _ _)), IH; [done|].
  intros. apply Hg. by right.
Qed.

Lemma zsum_map_ext {A} (g h : A -> Z) l : (forall x, x ∈ l -> g x = h x) -> zsum (map g l) = zsum (map h l).
Proof.
  induction l as [|x l IH]; intros Hg; cbn; [done|]. rewrite (Hg x (list_elem_of_here _ _)), IH; [done|].
  intros. apply Hg. by right.
Qed.

Lemma zsum_map_plus {A} (g h : A -> Z) l : zsum (map (fun x => g x + h x) l) = zsum (map g l) + zsum (map h l).
Proof. induction l; cbn; lia. Qed.

(** The sum of a function that vanishes off [l], over a list that covers [l]. *)
Lemma zsum_indicator (g : Z -> Z) (l ks : list Z) :
  NoDup l -> NoDup ks -> (forall k, k ∈ l -> k ∈ ks) ->
  zsum (map (fun k => if decide (k ∈ l) then g k else 0) ks) = zsum (map g l).
Proof.
  revert ks. induction l as [|x l IH]; intros ks Hl Hks Hin.
  - cbn. apply zsum_zero. intros k _. by rewrite decide_False by apply not_elem_of_nil.
  - apply NoDup_cons in Hl as [Hx Hl].
    assert (x ∈ ks) as (l1 & l2 & ->)%list_elem_of_split by (apply Hin; left).
    assert (NoDup (x :: l1 ++ l2)) as [Hx12 Hnd]%NoDup_cons by (by rewrite Permutation_middle).
    rewrite (zsum_perm _ (map (fun k => if decide (k ∈ x :: l) then g k else 0) (x :: l1 ++ l2)))
      by (by rewrite <- Permutation_middle).
    cbn. rewrite decide_True by left. f_equal. rewrite <- (IH (l1 ++ l2) Hl Hnd).
    + apply zsum_map_ext. intros k Hk. assert (k <> x) by (by intros ->).
      destruct (decide (k ∈ l)).
      * by rewrite decide_True by (by right).
      * by rewrite decide_False by (by intros [->|]%elem_of_cons).
    + intros k Hk. assert (k ∈ l1 ++ x :: l2) as Hk' by (apply Hin; by right).
      rewrite elem_of_app, elem_of_cons in Hk'. rewrite elem_of_app. naive_solver.
Qed.

(** A map's sum is the sum of its values over any list covering its keys. *)
Lemma map_sum_keys {V} (f : V -> Z) (m : gmap Z V) ks :
  NoDup ks -> (forall k, is_Some (m !! k) -> k ∈ ks) -> map_sum f m = zsum (map (value_at f m) ks).
Proof.
  intros Hnd Hin. unfold map_sum.
  transitivity (zsum (map (value_at f m) (map_to_list m).*1)).
  - rewrite <- list_fmap_compose. apply zsum_map_ext. intros [k v] Hkv%elem_of_map_to_list. cbn.
    unfold value_at. by rewrite Hkv.
  - rewrite <- (zsum_indicator (value_at f m) (map_to_list m).*1 ks); [|apply NoDup_fst_map_to_list | done|].
    + apply zsum_map_ext. intros k _. case_decide as Hk; [done|]. unfold value_at.
      destruct (m !! k) as [v|] eqn:Hv; [|done]. destruct Hk. apply list_elem_of_fmap. exists (k, v).
      by rewrite elem_of_map_to_list.
    + intros k ([k' v] & -> & Hkv%elem_of_map_to_list)%list_elem_of_fmap. apply Hin. by eexists.
Qed.

Lemma common_keys {V W} (m1 : gmap Z V) (m2 : gmap Z W) (l : list Z) :
  exists ks, NoDup ks /\ (forall k, is_Some (m1 !! k) -> k ∈ ks) /\ (forall k, is_Some (m2 !! k) -> k ∈ ks) /\
    (forall k, k ∈ l -> k ∈ ks).
Proof.
  exists (remove_dups ((map_to_list m1).*1 ++ (map_to_list m2).*1 ++ l)).
  split; [apply NoDup_remove_dups|]. setoid_rewrite elem_of_remove_dups. setoid_rewrite elem_of_app.
  setoid_rewrite elem_of_app. setoid_rewrite list_elem_of_fmap. split_and!.
  - intros k [v Hv]. left. exists (k, v). by rewrite elem_of_map_to_list.
  - intros k [v Hv]. right; left. exists (k, v). by rewrite elem_of_map_to_list.
  - auto.
Qed.

(** Comparing sums key by key. *)
Lemma map_sum_ext {V W} (f : V -> Z) (g : W -> Z) (m1 : gmap Z V) (m2 : gmap Z W) :
  (forall k, value_at f m1 k = value_at g m2 k) -> map_sum f m1 = map_sum g m2.
Proof.
  intros Hv. destruct (common_keys m1 m2 []) as (ks & Hnd & H1 & H2 & _).
  rewrite (map_sum_keys f m1 ks Hnd H1), (map_sum_keys g m2 ks Hnd H2). by apply zsum_map_ext.
Qed.

Lemma map_sum_plus {V} (f : V -> Z) (m m' : gmap Z V) (l : list Z) (g : Z -> Z) :
  NoDup l -> (forall k, value_at f m' k = value_at f m k + if decide (k ∈ l) then g k else 0) ->
  map_sum f m' = map_sum f m + zsum (map g l).
Proof.
  intros Hl Hv. destruct (common_keys m m' l) as (ks & Hnd & H1 & H2 & H3).
  rewrite (map_sum_keys f m ks Hnd H1), (map_sum_keys f m' ks Hnd H2), <- (zsum_indicator g l ks) by done.
  rewrite <- zsum_map_plus. by apply zsum_map_ext.
Qed.

Lemma map_sum_move {V W} (f : V -> Z) (g : W -> Z) (m1 m1' : gmap Z V) (m2 m2' : gmap Z W) :
  (forall k, value_at f m1' k + value_at g m2' k = value_at f m1 k + value_at g m2 k) ->
  map_sum f m1' + map_sum g m2' = map_sum f m1 + map_sum g m2.
Proof.
  intros Hv. destruct (common_keys m1 m2 []) as (ks1 & _ & H1 & H2 & _).
  destruct (common_keys m1' m2' ks1) as (ks & Hnd & H1' & H2' & H3).
  rewrite (map_sum_keys f m1 ks), (map_sum_keys g m2 ks), (map_sum_keys f m1' ks), (map_sum_keys g m2' ks) by auto.
  rewrite <- !zsum_map_plus. by apply zsum_map_ext.
Qed.

Lemma map_sum_nonneg {V} (f : V -> Z) (m : gmap Z V) :
  (forall k v, m !! k = Some v -> 0 <= f v) -> 0 <= map_sum f m.
Proof.
  intros Hf. apply zsum_nonneg, Forall_forall. intros x ([k v] & -> & Hkv%elem_of_map_to_list)%list_elem_of_fmap.
  by eapply Hf.
Qed.

(** The values of distinct keys sum to at most the sum of the map. *)
Lemma zsum_keys_le {V} (f : V -> Z) ks : forall (m : gmap Z V),
  NoDup ks -> (forall k v, m !! k = Some v -> 0 <= f v) -> zsum (map (value_at f m) ks) <= map_sum f m.
Proof.
  induction ks as [|k ks IH]; intros m Hnd Hf; cbn; [by apply map_sum_nonneg|].
  apply NoDup_cons in Hnd as [Hk Hnd].
  assert (zsum (map (value_at f m) ks) = zsum (map (value_at f (delete k m)) ks)) as ->.
  { apply zsum_map_ext. intros x Hx. unfold value_at. rewrite lookup_delete_ne; [done|]. by intros ->. }
  assert (zsum (map (value_at f (delete k m)) ks) <= map_sum f (delete k m)) as Hle.
  { apply IH; [done|]. intros x v [_ Hx]%lookup_delete_Some. by eapply Hf. }
  unfold value_at at 1. destruct (m !! k) as [v|] eqn:Hv; cbn [fmap option_fmap option_map from_option id].
  2: { rewrite delete_id in * by done. lia. }
  pose proof (map_sum_insert f (delete k m) k v (lookup_delete_eq m k)) as Hins.
  rewrite insert_delete_id in Hins by done. lia.
Qed.

Lemma NoDup_omap {A B} (f : A -> option B) (l : list A) :
  (forall k1 k2 x y z, l !! k1 = Some x -> l !! k2 = Some y -> f x = Some z -> f y = Some z -> k1 = k2) ->
  NoDup (omap f l).
Proof.
  induction l as [|x l IH]; intros Hinj; cbn; [constructor|].
  assert (NoDup (omap f l)) as Hnd.
  { apply IH. intros k1 k2 a b z H1 H2 Ha Hb. by apply (Nat.succ_inj k1 k2), (Hinj (S k1) (S k2) a b z). }
  destruct (f x) as [z|] eqn:Hz; [|done]. constructor; [|done]. intros (y & [k Hk]%list_elem_of_lookup & Hy)%list_elem_of_omap.
  by specialize (Hinj 0%nat (S k) x y z eq_refl Hk Hz Hy).
Qed.

(** * Hints

    [minter] resolves the side conditions that recur: ranges of machine
    integers, nonnegative sums and keys without duplicates. [outcome] turns
    the success of a monadic step into its condition. *)
Create HintDb minter.
#[export] Hint Resolve wrap64_range zsum_nonneg NoDup_btree_keys : minter.
#[export] Hint Rewrite @assert_Done @expect_Done @Done_inj @bind_Done : outcome.
