(* ===== verification/Platform.v ===== *)
(** The data types and the third-party code the minter is built on.

    Types are read off the minter's use of them. A function of an external
    crate (candid, ic_ed25519, solana_*, bincode) is a field of the class
    [Platform], an argument of every definition that calls it; the class
    [PlatformLaws] names the documented behaviour some theorems rely on. *)
From S2P Require Import Prelude.

(** Fixed-size byte arrays ([Address] and [Hash]: 32 bytes, [Signature]: 64
    bytes) are their big-endian values: equality and the lexicographic order
    of the arrays are equality and order of the numbers. *)
Abbreviation Address := Z (only parsing).
Abbreviation Hash := Z (only parsing).
Abbreviation Signature := Z (only parsing).
Abbreviation Lamport := Z (only parsing).
Abbreviation Timestamp := Z (only parsing).
Abbreviation DepositSolId := Z (only parsing).
Abbreviation LedgerBurnIndex := Z (only parsing).
Abbreviation LedgerMintIndex := Z (only parsing).
Abbreviation BlockHeight := Z (only parsing).
Abbreviation PublicKey := Z (only parsing).
Abbreviation bytes := (list Z) (only parsing).
Abbreviation Principal := (list Z) (only parsing).
Abbreviation DerivationPath := (list (list Z)) (only parsing).

(** The number a byte array stands for. *)
Definition be_value (bs : bytes) : Z := fold_left (fun acc b => acc * 256 + b) bs 0.

(** An ICRC-1 account. Its equality and order compare the owner and the
    effective subaccount (an absent subaccount is the default one), so the
    model keeps the effective subaccount and uses Leibniz equality. *)
Record Account := mkAccount { acc_owner : Principal; acc_subaccount : bytes }.

#[export] Instance Account_eq_dec : EqDecision Account.
Proof. solve_decision. Defined.

#[export] Instance Account_countable : Countable Account.
Proof.
  refine (inj_countable' (fun a => (acc_owner a, acc_subaccount a))
    (fun p => mkAccount p.1 p.2) _); by intros [].
Defined.

(** ** Solana messages (crate [solana_message]) *)
Record CompiledInstruction := mkCompiledInstruction {
  ci_program_id_index : Z;
  ci_accounts : list Z;
  ci_data : bytes
}.

Record MessageHeader := mkMessageHeader {
  num_required_signatures : Z;
  num_readonly_signed_accounts : Z;
  num_readonly_unsigned_accounts : Z
}.

Record Message := mkMessage {
  msg_header : MessageHeader;
  msg_account_keys : list Address;
  msg_recent_blockhash : Hash;
  msg_instructions : list CompiledInstruction
}.

#[export] Instance CompiledInstruction_eq_dec : EqDecision CompiledInstruction.
Proof. solve_decision. Defined.
#[export] Instance MessageHeader_eq_dec : EqDecision MessageHeader.
Proof. solve_decision. Defined.
#[export] Instance Message_eq_dec : EqDecision Message.
Proof. solve_decision. Defined.

(** An instruction before compilation, with its account metas
    [(key, is_signer, is_writable)]. *)
Record Instruction := mkInstruction {
  ins_program_id : Address;
  ins_accounts : list (Address * bool * bool);
  ins_data : bytes
}.

(** The names of the ids of [solana_sdk_ids] the minter uses. *)
Inductive SdkId : Type :=
  | AddressLookupTable | BpfLoader | BpfLoaderDeprecated | BpfLoaderUpgradeable | ComputeBudget | ConfigProgram
  | Ed25519Program | FeatureProgram | LoaderV4 | Secp256k1Program | Secp256r1Program | StakeConfig | StakeProgram
  | SystemProgram | VoteProgram | ZkElgamalProofProgram | ZkTokenProofProgram | SysvarClock | SysvarEpochRewards
  | SysvarEpochSchedule | SysvarFees | SysvarInstructions | SysvarLastRestartSlot | SysvarRecentBlockhashes
  | SysvarRent | SysvarRewards | SysvarSlotHashes | SysvarSlotHistory | SysvarStakeHistory | NativeLoader
  | SysvarProgram.

#[export] Instance SdkId_eq_dec : EqDecision SdkId.
Proof. solve_decision. Defined.

(** ** External code *)
Class Platform := {
  (** [candid::Principal::anonymous()] *)
  anonymous : Principal;
  (** [ic_ed25519::PublicKey::serialize_raw] *)
  serialize_raw : PublicKey -> Address;
  (** [ic_ed25519::PublicKey::derive_subkey_with_chain_code] *)
  derive_subkey_with_chain_code : PublicKey -> DerivationPath -> bytes -> PublicKey * bytes;
  (** [solana_address::Address::from_str] *)
  address_from_str : string -> result Address string;
  (** The [ID] constants of [solana_sdk_ids] *)
  sdk_id : SdkId -> Address;
  (** [Display] of [solana_address::Address] *)
  address_to_string : Address -> string;
  (** [Display] of [candid::Nat] *)
  nat_to_string : Z -> string;
  (** [solana_system_interface::instruction::transfer] *)
  transfer_instruction : Address -> Address -> Lamport -> Instruction;
  (** [solana_system_interface::instruction::advance_nonce_account] *)
  advance_nonce_account : Address -> Address -> Instruction;
  (** [solana_message::Message::new_with_blockhash] *)
  new_with_blockhash : list Instruction -> option Address -> Hash -> Message;
  (** [solana_message::Message::signer_keys] *)
  signer_keys : Message -> list Address;
  (** [message.serialize().len()] *)
  serialized_len : Message -> Z;
  (** [matches!(bincode::deserialize(data), Ok(SystemInstruction::AdvanceNonceAccount))] *)
  is_advance_nonce_data : bytes -> bool
}.

(** [system_program::ID] *)
Definition system_program_id `{Platform} : Address := sdk_id SystemProgram.

(** The nonce account named by the first instruction of a message, when that
    instruction is a system-program [AdvanceNonceAccount]. *)
Definition message_advances `{Platform} (m : Message) (nonce_account : Address) : Prop :=
  exists i rest k,
    msg_instructions m = i :: rest /\
    0 <= ci_program_id_index i /\
    msg_account_keys m !! Z.to_nat (ci_program_id_index i) = Some system_program_id /\
    is_advance_nonce_data (ci_data i) = true /\
    head (ci_accounts i) = Some k /\ 0 <= k /\
    msg_account_keys m !! Z.to_nat k = Some nonce_account.

(** Documented behaviour of the external code. *)
Class PlatformLaws `{Platform} : Prop := {
  (** The built message carries the given blockhash. *)
  new_with_blockhash_hash : forall instrs payer h,
    msg_recent_blockhash (new_with_blockhash instrs payer h) = h;
  (** Compilation keeps the order of the instructions. *)
  new_with_blockhash_advance : forall n auth instrs payer h,
    message_advances (new_with_blockhash (advance_nonce_account n auth :: instrs) payer h) n
}.

(** The account keys of a compiled message, and so its signers, are distinct. *)
Class UniqueSigners `{Platform} : Prop :=
  signer_keys_unique : forall instrs payer h, NoDup (signer_keys (new_with_blockhash instrs payer h)).
