(* ===== verification/Decimal.v ===== *)
(** Numbers as text: the decimal printing of Rust's [Display], the parsing of
    [from_str] of numbers, and the amounts of SOL of minter/src/dashboard. *)
From Stdlib Require Import Ascii.
From S2P Require Import Prelude Platform.

(** ** Digits, most significant first *)
Definition digit_char (d : Z) : ascii := ascii_of_nat (Z.to_nat (48 + d)).
Definition char_digit (c : ascii) : option Z :=
  let d := Z.of_nat (nat_of_ascii c) - 48 in
  if (0 <=? d) && (d <=? 9) then Some d else None.

Fixpoint digits_fuel (fuel : nat) (n : Z) (acc : list Z) : list Z :=
  match fuel with
  | O => acc
  | S fuel => if n <? 10 then n :: acc else digits_fuel fuel (n / 10) (n mod 10 :: acc)
  end.

(** A 128-bit number has at most 39 digits. *)
Definition digits (n : Z) : list Z := digits_fuel 39 n [].
Definition digits_value (ds : list Z) : Z := fold_left (fun acc d => acc * 10 + d) ds 0.
Definition digits_string (ds : list Z) : string := String.string_of_list_ascii (map digit_char ds).
Definition is_digit (d : Z) : Prop := 0 <= d <= 9.

(** [n.to_string()] *)
Definition decimal (n : Z) : string := digits_string (digits n).

(** [from_str] of an unsigned number: an optional plus sign and digits. A
    [usize] has 32 bits here. *)
Definition parse_unsigned (max : Z) (s : string) : option Z :=
  let cs := String.list_ascii_of_string s in
  let cs := match cs with
    | c :: (_ :: _) as rest => if Ascii.eqb c "+" then tail rest else cs
    | _ => cs
    end in
  match cs with
  | [] => None
  | _ => ds ← mapM char_digit cs; if digits_value ds <=? max then Some (digits_value ds) else None
  end.
Definition parse_usize : string -> option Z := parse_unsigned u32_max.
Definition parse_u64 : string -> option Z := parse_unsigned u64_max.

(** [format!("{:09}", n)] and [trim_end_matches('0')] *)
Definition pad_left (width : nat) (ds : list Z) : list Z := replicate (width - length ds) 0 ++ ds.
Definition trim_end_zeros (ds : list Z) : list Z :=
  foldr (fun d rest => if (d =? 0) && bool_decide (rest = []) then [] else d :: rest) [] ds.

Definition LAMPORTS_PER_SOL : Z := 1000000000.

Definition lamports_to_sol (lamports : Lamport) : string :=
  let whole := lamports / LAMPORTS_PER_SOL in
  let frac := lamports mod LAMPORTS_PER_SOL in
  if frac =? 0 then decimal whole
  else (decimal whole ++ "." ++ digits_string (trim_end_zeros (pad_left 9 (digits frac))))%string.

(** The amount a text stands for, to at most nine decimals. *)
Fixpoint split_dot (cs : list ascii) : list ascii * list ascii :=
  match cs with
  | [] => ([], [])
  | c :: cs => if Ascii.eqb c "." then ([], cs) else let '(w, f) := split_dot cs in (c :: w, f)
  end.

Definition sol_to_lamports (s : string) : option Lamport :=
  let '(whole, frac) := split_dot (String.list_ascii_of_string s) in
  ws ← mapM char_digit whole;
  fs ← mapM char_digit frac;
  Some (digits_value ws * LAMPORTS_PER_SOL + digits_value (fs ++ replicate (9 - length fs) 0)).

(** ** Lemmas *)
Lemma digits_value_app ds1 ds2 : digits_value (ds1 ++ ds2) = digits_value ds1 * 10 ^ Z.of_nat (length ds2) + digits_value ds2.
Proof.
  unfold digits_value. rewrite fold_left_app. generalize (fold_left (fun acc d => acc * 10 + d) ds1 0) as a.
  assert (forall a ds, fold_left (fun acc d => acc * 10 + d) ds a
    = a * 10 ^ Z.of_nat (length ds) + fold_left (fun acc d => acc * 10 + d) ds 0) as Hgen.
  { intros a ds. revert a. induction ds as [|d ds IH]; intros a; [cbn; lia|]. cbn [fold_left length].
    rewrite IH, (IH (0 * 10 + d)), Nat2Z.inj_succ, Z.pow_succ_r by lia. lia. }
  intros a. apply Hgen.
Qed.

Lemma digits_value_zeros n : digits_value (replicate n 0) = 0.
Proof. unfold digits_value. induction n; [done|]. exact IHn. Qed.

Lemma digits_value_cons d ds : digits_value (d :: ds) = d * 10 ^ Z.of_nat (length ds) + digits_value ds.
Proof. exact (digits_value_app [d] ds). Qed.

Lemma digits_fuel_spec fuel : forall n acc,
  0 <= n < 10 ^ Z.of_nat fuel -> Forall is_digit acc -> (0 < fuel)%nat ->
  Forall is_digit (digits_fuel fuel n acc) /\
  digits_value (digits_fuel fuel n acc) = n * 10 ^ Z.of_nat (length acc) + digits_value acc.
Proof.
  induction fuel as [|fuel IH]; intros n acc Hn Hacc Hpos; [lia|]. cbn [digits_fuel].
  destruct (Z.ltb_spec n 10) as [Hlt|Hge].
  - split; [constructor; [unfold is_digit; lia | done] | apply digits_value_cons].
  - rewrite Nat2Z.inj_succ, Z.pow_succ_r in Hn by lia. pose proof (Z.div_mod n 10 ltac:(lia)) as Hdm.
    pose proof (Z.mod_pos_bound n 10 ltac:(lia)) as Hm.
    assert (0 < fuel)%nat as Hf by (destruct fuel; [cbn in Hn; lia | lia]).
    destruct (IH (n / 10) (n mod 10 :: acc)) as [Hd Hv]; [split; [apply Z.div_pos; lia | apply Z.div_lt_upper_bound; lia] | | done |].
    + constructor; [unfold is_digit; lia | done].
    + split; [done|]. rewrite Hv, digits_value_cons. cbn [length]. rewrite Nat2Z.inj_succ, Z.pow_succ_r by lia.
      rewrite Hdm at 3. lia.
Qed.

Lemma digits_spec n : is_u128 n -> Forall is_digit (digits n) /\ digits_value (digits n) = n.
Proof.
  intros Hn. destruct (digits_fuel_spec 39 n []) as [Hd Hv]; [|by constructor|lia|].
  - unfold is_u128, u128_modulus in Hn. split; [lia|]. etransitivity; [apply Hn|]. reflexivity.
  - split; [done|]. unfold digits. rewrite Hv. cbn. lia.
Qed.

Lemma digits_length fuel : forall n acc width,
  0 <= n < 10 ^ Z.of_nat width -> (0 < width <= fuel)%nat -> (length (digits_fuel fuel n acc) <= width + length acc)%nat.
Proof.
  induction fuel as [|fuel IH]; intros n acc width Hn Hw; [lia|]. cbn [digits_fuel].
  destruct (Z.ltb_spec n 10) as [Hlt|Hge]; [cbn; lia|].
  destruct width as [|[|width]]; [lia | cbn in Hn; lia |].
  rewrite Nat2Z.inj_succ, Z.pow_succ_r in Hn by lia.
  specialize (IH (n / 10) (n mod 10 :: acc) (S width)). cbn [length] in IH. etransitivity; [apply IH|]; [|lia|lia].
  split; [apply Z.div_pos; lia | apply Z.div_lt_upper_bound; lia].
Qed.

Lemma char_digit_char d : is_digit d -> char_digit (digit_char d) = Some d.
Proof.
  intros Hd. unfold char_digit, digit_char. rewrite nat_ascii_embedding by (unfold is_digit in Hd; lia).
  rewrite Z2Nat.id by (unfold is_digit in Hd; lia). replace (48 + d - 48) with d by lia. unfold is_digit in Hd.
  destruct (Z.leb_spec 0 d), (Z.leb_spec d 9); (done || lia).
Qed.

Lemma mapM_digits ds : Forall is_digit ds -> mapM char_digit (map digit_char ds) = Some ds.
Proof.
  induction 1 as [|d ds Hd _ IH]; [done|]. cbn [map]. change (mapM char_digit (digit_char d :: map digit_char ds))
    with (y ← char_digit (digit_char d); k ← mapM char_digit (map digit_char ds); Some (y :: k)).
  rewrite char_digit_char, IH by done. done.
Qed.

Lemma digit_char_not d c : is_digit d -> char_digit c = None -> Ascii.eqb (digit_char d) c = false.
Proof.
  intros Hd Hc. destruct (Ascii.eqb_spec (digit_char d) c) as [<-|]; [|done]. by rewrite char_digit_char in Hc.
Qed.

Lemma digits_fuel_nonempty fuel n acc : (0 < fuel)%nat -> digits_fuel fuel n acc <> [].
Proof.
  intros Hpos. assert (forall fuel m acc, acc <> [] -> digits_fuel fuel m acc <> []) as Hne.
  { clear. intros fuel. induction fuel as [|fuel IH]; intros m acc Hacc; [done|]. cbn. destruct (m <? 10); [done|]. by apply IH. }
  destruct fuel as [|fuel]; [lia|]. cbn. destruct (n <? 10); [done|]. by apply Hne.
Qed.

Lemma digits_nonempty n : digits n <> [].
Proof. apply digits_fuel_nonempty. lia. Qed.

(** Printing and parsing a number. *)
Lemma parse_decimal max n : 0 <= n <= max -> max <= u64_max -> parse_unsigned max (decimal n) = Some n.
Proof.
  intros Hn Hmax. destruct (digits_spec n) as [Hd Hv]; [unfold is_u128, u128_modulus, u64_max in *; lia|].
  unfold parse_unsigned, decimal, digits_string. rewrite String.list_ascii_of_string_of_list_ascii.
  pose proof (digits_nonempty n) as Hne. pose proof (mapM_digits _ Hd) as Hm.
  destruct (digits n) as [|d ds]; [done|]. apply Forall_cons in Hd as [Hd0 Hd].
  assert ((match map digit_char (d :: ds) with c :: (_ :: _) as rest => if Ascii.eqb c "+" then tail rest else map digit_char (d :: ds)
    | _ => map digit_char (d :: ds) end) = map digit_char (d :: ds)) as ->.
  { cbn. destruct ds as [|d1 ds]; [done|]. cbn. by rewrite digit_char_not. }
  cbn [map] in *. rewrite Hm. cbn [mbind option_bind]. rewrite Hv. destruct (Z.leb_spec n max); [done | lia].
Qed.

Lemma decimal_inj n m : is_u128 n -> is_u128 m -> decimal n = decimal m -> n = m.
Proof.
  intros Hn Hm Heq. destruct (digits_spec n Hn) as [Hdn Hvn], (digits_spec m Hm) as [Hdm Hvm].
  apply (f_equal String.list_ascii_of_string) in Heq. unfold decimal, digits_string in Heq.
  rewrite !String.list_ascii_of_string_of_list_ascii in Heq. apply (f_equal (mapM char_digit)) in Heq.
  rewrite !mapM_digits in Heq by done. congruence.
Qed.

Lemma trim_end_zeros_spec ds :
  ds = trim_end_zeros ds ++ replicate (length ds - length (trim_end_zeros ds)) 0 /\
  (length (trim_end_zeros ds) <= length ds)%nat /\ last (trim_end_zeros ds) <> Some 0.
Proof.
  induction ds as [|d ds (Heq & Hlen & Hlast)]; [done|]. cbn [trim_end_zeros foldr]. fold (trim_end_zeros ds).
  destruct (Z.eqb_spec d 0) as [->|Hd]; cbn [andb].
  - case_bool_decide as He.
    + rewrite He in *. cbn in *. rewrite Nat.sub_0_r in Heq. split_and!; [by rewrite <- Heq | lia | done].
    + split_and!; [|cbn; lia|]; [cbn; f_equal; exact Heq|]. destruct (trim_end_zeros ds); [done | exact Hlast].
  - split_and!; [cbn; f_equal; exact Heq | cbn; lia |]. destruct (trim_end_zeros ds); [cbn; congruence | exact Hlast].
Qed.

Lemma split_dot_digits ds cs : Forall is_digit ds ->
  split_dot (map digit_char ds ++ cs) = (map digit_char ds ++ (split_dot cs).1, (split_dot cs).2).
Proof.
  induction 1 as [|d ds Hd _ IH]; [cbn; by destruct (split_dot cs)|]. cbn [map app split_dot].
  rewrite digit_char_not, IH by done. by destruct (split_dot cs).
Qed.

Lemma list_ascii_append s1 s2 :
  String.list_ascii_of_string (s1 ++ s2)%string = String.list_ascii_of_string s1 ++ String.list_ascii_of_string s2.
Proof. induction s1 as [|c s1 IH]; [done|].
  change (c :: String.list_ascii_of_string (s1 ++ s2)%string = c :: String.list_ascii_of_string s1 ++ String.list_ascii_of_string s2).
  by rewrite IH.
Qed.

Lemma string_append_empty s : (s ++ "")%string = s.
Proof. induction s as [|c s IH]; [done|]. change (String c (s ++ "")%string = String c s). by rewrite IH. Qed.

Lemma fraction_digits frac : 0 <= frac < LAMPORTS_PER_SOL ->
  let ds := trim_end_zeros (pad_left 9 (digits frac)) in
  Forall is_digit ds /\ digits_value (ds ++ replicate (9 - length ds) 0) = frac /\ (length ds <= 9)%nat.
Proof.
  intros Hf. destruct (digits_spec frac) as [Hd Hv]; [unfold is_u128, u128_modulus, LAMPORTS_PER_SOL in *; lia|].
  assert (length (digits frac) <= 9)%nat as Hl by (apply (digits_length 39 frac [] 9); [exact Hf | lia]).
  set (padded := pad_left 9 (digits frac)).
  assert (length padded = 9)%nat as Hlen by (unfold padded, pad_left; rewrite length_app, length_replicate; lia).
  assert (Forall is_digit padded) as Hp.
  { apply Forall_app. split; [|done]. apply Forall_replicate. unfold is_digit. lia. }
  assert (digits_value padded = frac) as Hpv.
  { unfold padded, pad_left. rewrite digits_value_app, digits_value_zeros, Hv. lia. }
  destruct (trim_end_zeros_spec padded) as (Heq & Hle & _). rewrite Hlen in *. cbn zeta. split_and!.
  - rewrite Heq in Hp. by apply Forall_app in Hp as [Hp _].
  - by rewrite <- Heq.
  - exact Hle.
Qed.

Lemma lamports_to_sol_shape l : is_u64 l ->
  exists whole frac, Forall is_digit whole /\ Forall is_digit frac /\ whole <> [] /\ (length frac <= 9)%nat /\ last frac <> Some 0 /\
    lamports_to_sol l = (digits_string whole ++ (if decide (frac = []) then "" else "." ++ digits_string frac))%string /\
    digits_value whole * LAMPORTS_PER_SOL + digits_value (frac ++ replicate (9 - length frac) 0) = l.
Proof.
  intros Hl. pose proof (Z.div_mod l LAMPORTS_PER_SOL ltac:(done)) as Hdm.
  pose proof (Z.mod_pos_bound l LAMPORTS_PER_SOL ltac:(done)) as Hm. unfold lamports_to_sol.
  destruct (digits_spec (l / LAMPORTS_PER_SOL)) as [Hd Hv].
  { unfold is_u64, is_u128, u64_modulus, u128_modulus in *. split; [apply Z.div_pos; [lia | done]|].
    apply Z.div_lt_upper_bound; [done|]. unfold LAMPORTS_PER_SOL. lia. }
  exists (digits (l / LAMPORTS_PER_SOL)). destruct (Z.eqb_spec (l mod LAMPORTS_PER_SOL) 0) as [H0|H0].
  - exists []. cbn [decide]. split_and!; [done | by constructor | apply digits_nonempty | cbn; lia | done | |].
    + symmetry. apply string_append_empty.
    + rewrite Hv. cbn. lia.
  - destruct (fraction_digits _ Hm) as (Hfd & Hfv & Hfl). exists (trim_end_zeros (pad_left 9 (digits (l mod LAMPORTS_PER_SOL)))).
    split_and!; [done | done | apply digits_nonempty | done | apply trim_end_zeros_spec | |].
    + destruct (decide _) as [He|]; [|done]. rewrite He in Hfv. cbn in Hfv. lia.
    + rewrite Hfv, Hv. lia.
Qed.

Lemma sol_to_lamports_printed l : is_u64 l -> sol_to_lamports (lamports_to_sol l) = Some l.
Proof.
  intros Hl. destruct (lamports_to_sol_shape l Hl) as (whole & frac & Hw & Hf & _ & _ & _ & -> & Hval).
  unfold sol_to_lamports. rewrite list_ascii_append. unfold digits_string at 1. rewrite String.list_ascii_of_string_of_list_ascii, split_dot_digits by done.
  assert (split_dot (String.list_ascii_of_string (if decide (frac = []) then "" else "." ++ digits_string frac)%string)
    = ([], map digit_char frac)) as ->.
  { destruct (decide (frac = [])) as [->|]; [done|]. rewrite list_ascii_append. cbn. unfold digits_string.
    by rewrite String.list_ascii_of_string_of_list_ascii. }
  cbn [fst snd]. rewrite app_nil_r, !mapM_digits by done. cbn [mbind option_bind]. by rewrite Hval.
Qed.

(** An amount shown on the dashboard is exact. Reading back the SOL text
    of any 64-bit number of lamports gives that number, so two amounts are
    shown alike only when they are equal; the text has at most nine decimals
    and does not end in a superfluous zero. *)
Theorem lamports_to_sol_roundtrip lamports :
  is_u64 lamports ->
  sol_to_lamports (lamports_to_sol lamports) = Some lamports /\
  (forall other, is_u64 other -> lamports_to_sol other = lamports_to_sol lamports -> other = lamports) /\
  exists whole frac, Forall is_digit whole /\ Forall is_digit frac /\ whole <> [] /\ (length frac <= 9)%nat /\ last frac <> Some 0 /\
    lamports_to_sol lamports = (digits_string whole ++ (if decide (frac = []) then "" else "." ++ digits_string frac))%string.
Proof.
  intros Hl. pose proof (sol_to_lamports_printed lamports Hl) as Hrt. split_and!; [exact Hrt | |].
  - intros other Ho Heq. pose proof (sol_to_lamports_printed other Ho) as H1. rewrite Heq, Hrt in H1. congruence.
  - destruct (lamports_to_sol_shape lamports Hl) as (whole & frac & H1 & H2 & H3 & H4 & H5 & H6 & _). by exists whole, frac.
Qed.

Lemma lamports_to_sol_roundtrip_witness :
  lamports_to_sol 1020300000 = "1.0203" /\ sol_to_lamports (lamports_to_sol 1020300000) = Some 1020300000 /\
  lamports_to_sol 7 = "0.000000007" /\ sol_to_lamports (lamports_to_sol 7) = Some 7.
Proof.
  split_and!; [reflexivity | | reflexivity |];
    [refine (proj1 (lamports_to_sol_roundtrip 1020300000 _)) | refine (proj1 (lamports_to_sol_roundtrip 7 _))];
    unfold is_u64, u64_modulus; lia.
Defined.
