(* ===== verification/Events.v ===== *)
(** The data of the event log (minter/src/state/event.rs), the init and
    upgrade arguments (libs/types-internal/src/lib.rs), the constants
    (minter/src/constants.rs, minter/src/sol_transfer), the deposit data shared
    by the events and the state, and the derivation of the minter's addresses
    (minter/src/address). *)
From S2P Require Import Prelude Platform.

(** ** Constants *)
Definition FEE_PER_SIGNATURE : Lamport := 5000.
Definition RENT_EXEMPTION_THRESHOLD : Lamport := 890880.
Definition GET_BALANCE_CYCLES : Z := 10000000000.
Definition MAX_SIGNATURES : Z := 10.
Definition MAX_TX_SIZE : Z := 1232.
Definition MAX_CONCURRENT_RPC_CALLS : nat := 10.
Definition MAX_CONCURRENT_SIGNATURES : nat := 10.
Definition BYTES_PER_SIGNATURE : Z := 64.
Definition MAX_WITHDRAWALS_PER_NONCE_TX : nat := 10.
Definition BATCH_WITHDRAWAL_TX_FEE : Lamport := FEE_PER_SIGNATURE.

(** ** Init and upgrade arguments *)
Inductive SolanaNetwork : Type := Mainnet | Devnet | Testnet.
Inductive Ed25519KeyName : Type := LocalDevelopment | MainnetTestKey1 | MainnetProdKey1.

Record InitArgs := mkInitArgs {
  ia_sol_rpc_canister_id : Principal;
  ia_ledger_canister_id : Principal;
  ia_master_key_name : Ed25519KeyName;
  ia_minimum_withdrawal_amount : Lamport;
  ia_minimum_deposit_amount : Lamport;
  ia_withdrawal_fee : Lamport;
  ia_deposit_sol_required_cycles : Z;
  ia_solana_network : SolanaNetwork;
  ia_deposit_sol_fee : Z;
  ia_nonce_accounts : list string;
  ia_automatic_deposit_fee : option Lamport
}.

Record UpgradeArgs := mkUpgradeArgs {
  ua_sol_rpc_canister_id : option Principal;
  ua_minimum_withdrawal_amount : option Lamport;
  ua_minimum_deposit_amount : option Lamport;
  ua_withdrawal_fee : option Lamport;
  ua_deposit_sol_required_cycles : option Z;
  ua_deposit_sol_fee : option Z;
  ua_nonce_accounts_to_add : option (list string);
  ua_automatic_deposit_fee : option Lamport
}.

(** ** Addresses *)
Record SchnorrPublicKey := mkSchnorrPublicKey { public_key : PublicKey; chain_code : bytes }.

#[export] Instance SchnorrPublicKey_eq_dec : EqDecision SchnorrPublicKey.
Proof. solve_decision. Defined.

Definition MINTER_DERIVATION_PATH : DerivationPath := [].

Definition derivation_path (account : Account) : DerivationPath :=
  [[1]; acc_owner account; acc_subaccount account].

Section Addresses.
Context `{Platform}.

Definition minter_address (master_key : SchnorrPublicKey) : Address :=
  serialize_raw (public_key master_key).

Definition derive_public_key (master_public_key : SchnorrPublicKey) (path : DerivationPath) : PublicKey :=
  fst (derive_subkey_with_chain_code (public_key master_public_key) path (chain_code master_public_key)).

Definition account_address (master_key : SchnorrPublicKey) (account : Account) : Address :=
  serialize_raw (derive_public_key master_key (derivation_path account)).
End Addresses.

(** ** Deposits *)

(** A [DepositBalance] is built by [new] only, so the rent exemption
    threshold it covers (and its 64-bit width) is part of the type. *)
Definition deposit_balance_ok (balance : Lamport) : bool :=
  (RENT_EXEMPTION_THRESHOLD <=? balance) && (balance <? u64_modulus).

Record DepositBalance := mkDepositBalance {
  balance_lamports : Lamport;
  balance_covers_rent : deposit_balance_ok balance_lamports = true
}.

#[export] Instance DepositBalance_eq_dec : EqDecision DepositBalance.
Proof.
  intros [x Hx] [y Hy]. destruct (decide (x = y)) as [->|Hne].
  - left. f_equal. apply Eqdep_dec.UIP_dec, Bool.bool_dec.
  - right. congruence.
Defined.

Definition DepositBalance_new (balance : Lamport) : option DepositBalance :=
  match Bool.bool_dec (deposit_balance_ok balance) true with
  | left H => Some (mkDepositBalance balance H)
  | right _ => None
  end.

(** The [expect] of the source cannot fail on a [DepositBalance]; see
    [sweepable_amount_checked]. *)
Definition balance_sweepable_amount (balance : DepositBalance) : Lamport :=
  balance_lamports balance - RENT_EXEMPTION_THRESHOLD.

Record QueuedDeposit := mkQueuedDeposit {
  qd_account : Account;
  qd_address : Address;
  qd_balance : DepositBalance;
  qd_deposit_fee : option Lamport
}.

#[export] Instance QueuedDeposit_eq_dec : EqDecision QueuedDeposit.
Proof. solve_decision. Defined.

Definition sweepable_amount (deposit : QueuedDeposit) : Lamport :=
  balance_sweepable_amount (qd_balance deposit).

Definition deposit_fee (deposit : QueuedDeposit) : Lamport :=
  default 0 (qd_deposit_fee deposit).

(** ** Events *)
Record CreditedDeposit := mkCreditedDeposit {
  cd_deposit_id : DepositSolId;
  cd_amount_to_mint : Lamport
}.

Record WithdrawalRequest := mkWithdrawalRequest {
  wr_account : Account;
  wr_solana_address : Address;
  wr_burn_block_index : LedgerBurnIndex;
  wr_burned_amount : Lamport;
  wr_amount_to_transfer : Lamport
}.

Inductive Signer : Type := SignerMinter | SignerAccount (account : Account).

#[export] Instance CreditedDeposit_eq_dec : EqDecision CreditedDeposit.
Proof. solve_decision. Defined.
#[export] Instance WithdrawalRequest_eq_dec : EqDecision WithdrawalRequest.
Proof. solve_decision. Defined.
#[export] Instance Signer_eq_dec : EqDecision Signer.
Proof. solve_decision. Defined.

Definition signer_derivation_path (signer : Signer) : DerivationPath :=
  match signer with
  | SignerMinter => MINTER_DERIVATION_PATH
  | SignerAccount account => derivation_path account
  end.

Inductive VersionedMessage : Type := Legacy (message : Message).

#[export] Instance VersionedMessage_eq_dec : EqDecision VersionedMessage.
Proof. solve_decision. Defined.

Definition transaction_fee (m : VersionedMessage) : Lamport :=
  let 'Legacy message := m in
  FEE_PER_SIGNATURE *w num_required_signatures (msg_header message).

Definition advanced_nonce_account `{Platform} (m : VersionedMessage) : option Address :=
  let 'Legacy message := m in
  instruction ← head (msg_instructions message);
  program_id ← msg_account_keys message !! Z.to_nat (ci_program_id_index instruction);
  if negb (program_id =? system_program_id) || negb (is_advance_nonce_data (ci_data instruction))
  then None
  else
    nonce_account_index ← head (ci_accounts instruction);
    msg_account_keys message !! Z.to_nat nonce_account_index.

Inductive TransactionPurpose : Type :=
  | PurposeSweepDeposit (deposit_ids : list DepositSolId) (block_height : BlockHeight)
  | PurposeWithdrawal (burn_indices : list LedgerBurnIndex).

Inductive EventType : Type :=
  | Init (args : InitArgs)
  | Upgrade (args : UpgradeArgs)
  | AcceptedWithdrawalRequest (request : WithdrawalRequest)
  | SubmittedTransaction (signature : Signature) (message : VersionedMessage)
      (signers : list Signer) (purpose : TransactionPurpose)
  | SucceededTransaction (signature : Signature)
  | FailedTransaction (signature : Signature)
  | ExpiredTransaction (signature : Signature)
  | QueuedDepositEvent (deposit_id : DepositSolId) (account : Account) (address : Address)
      (balance : DepositBalance) (deposit_fee : option Lamport)
  | CreditedSweep (signature : Signature) (amount_received : Lamport) (mints : list CreditedDeposit)
  | QuarantinedSweep (signature : Signature)
  | MinterPublicKeyFetched (public_key : PublicKey) (chain_code : bytes)
  | MintedSweptDeposit (deposit_id : DepositSolId) (mint_block_index : LedgerMintIndex)
  | QuarantinedPendingMint (deposit_id : DepositSolId)
  | CreatedWithdrawalTransactionEvent (burn_indices : list LedgerBurnIndex)
      (nonce_account : Address) (nonce_value : Hash).

Record Event := mkEvent { ev_timestamp : Timestamp; ev_payload : EventType }.

(** ** Lemmas *)
Lemma DepositBalance_eq b1 b2 : balance_lamports b1 = balance_lamports b2 -> b1 = b2.
Proof.
  destruct b1 as [x Hx], b2 as [y Hy]. cbn. intros ->. f_equal.
  apply Eqdep_dec.UIP_dec, Bool.bool_dec.
Qed.

Lemma DepositBalance_new_Some v b :
  DepositBalance_new v = Some b <->
  balance_lamports b = v /\ RENT_EXEMPTION_THRESHOLD <= v < u64_modulus.
Proof.
  unfold DepositBalance_new. destruct (Bool.bool_dec _ _) as [Hok|Hno]; unfold deposit_balance_ok in *.
  - split.
    + intros [= <-]. cbn. lia.
    + intros [Hv _]. f_equal. apply DepositBalance_eq. by rewrite Hv.
  - split; [done|]. intros [_ Hv]. exfalso. apply Hno. lia.
Qed.

Lemma balance_range b : RENT_EXEMPTION_THRESHOLD <= balance_lamports b < u64_modulus.
Proof. destruct b as [v Hv]. cbn. unfold deposit_balance_ok in Hv. lia. Qed.

Lemma sweepable_range d : 0 <= sweepable_amount d < u64_modulus.
Proof.
  unfold sweepable_amount, balance_sweepable_amount. pose proof (balance_range (qd_balance d)).
  unfold RENT_EXEMPTION_THRESHOLD in *. lia.
Qed.

(** [sweepable_amount] is the checked subtraction of the source, whose
    [expect] never fires. *)
Lemma sweepable_amount_checked b :
  checked_sub (balance_lamports b) RENT_EXEMPTION_THRESHOLD = Some (balance_sweepable_amount b).
Proof. apply checked_sub_Some. pose proof (balance_range b). split; [done | lia]. Qed.

Lemma derivation_path_inj a1 a2 : derivation_path a1 = derivation_path a2 -> a1 = a2.
Proof. destruct a1, a2. unfold derivation_path. cbn. by intros [= -> ->]. Qed.

(** Two signers with the same derivation path are the same key owner: the
    account paths are prefixed by the schema tag, so the main address is
    never the path of an account. *)
Lemma signer_derivation_path_inj s1 s2 :
  signer_derivation_path s1 = signer_derivation_path s2 -> s1 = s2.
Proof.
  destruct s1 as [|a1], s2 as [|a2]; cbn; try done. intros Hp. f_equal. by apply derivation_path_inj.
Qed.

Lemma advanced_nonce_account_spec `{Platform} m n :
  message_advances m n -> advanced_nonce_account (Legacy m) = Some n.
Proof.
  intros (i & rest & k & Hi & _ & Hprog & Hdata & Hk & _ & Hn). unfold advanced_nonce_account. cbn.
  rewrite Hi. cbn. rewrite Hprog. cbn. rewrite Z.eqb_refl, Hdata. cbn. rewrite Hk. cbn. done.
Qed.
