(* ===== verification/InsertionOrderedMap.v ===== *)
(** [InsertionOrderedMap] of minter/src/utils/insertion_ordered_map: a map
    that iterates in insertion order, kept as two B-tree maps and a sequence
    counter. The invariant ties the two maps together; the refinement
    theorems relate every operation to an association list in insertion
    order. *)
From S2P Require Import Prelude.

Section InsertionOrderedMap.
Context {K V : Type} `{Countable K}.

Record InsertionOrderedMap := mkIom {
  iom_entries : gmap K (Z * V);
  iom_order : gmap Z K;
  iom_next_seq : Z
}.

Definition iom_new : InsertionOrderedMap := mkIom ∅ ∅ 0.

Definition iom_remove (m : InsertionOrderedMap) (key : K) : InsertionOrderedMap * option V :=
  match iom_entries m !! key with
  | Some (seq, value) =>
      (mkIom (delete key (iom_entries m)) (delete seq (iom_order m)) (iom_next_seq m), Some value)
  | None => (m, None)
  end.

Definition iom_insert (m : InsertionOrderedMap) (key : K) (value : V)
    : InsertionOrderedMap * option V :=
  let '(m, old_value) :=
    match iom_entries m !! key with
    | Some (old_seq, old_val) =>
        (mkIom (delete key (iom_entries m)) (delete old_seq (iom_order m)) (iom_next_seq m),
         Some old_val)
    | None => (m, None)
    end in
  let seq := iom_next_seq m in
  (mkIom (<[key := (seq, value)]> (iom_entries m)) (<[seq := key]> (iom_order m)) (wadd seq 1),
   old_value).

Definition iom_get (m : InsertionOrderedMap) (key : K) : option V := snd <$> iom_entries m !! key.

Definition iom_contains_key (m : InsertionOrderedMap) (key : K) : bool :=
  bool_decide (is_Some (iom_entries m !! key)).

Definition iom_len (m : InsertionOrderedMap) : nat := size (iom_entries m).

Definition iom_is_empty (m : InsertionOrderedMap) : bool := bool_decide (iom_entries m = ∅).

(** [Iter::next]: the iteration ends early at a key of [order] without an entry. *)
Fixpoint iom_iter_from (entries : gmap K (Z * V)) (order : list K) : list (K * V) :=
  match order with
  | [] => []
  | key :: order =>
      match entries !! key with
      | Some (_, value) => (key, value) :: iom_iter_from entries order
      | None => []
      end
  end.

Definition iom_iter (m : InsertionOrderedMap) : list (K * V) :=
  iom_iter_from (iom_entries m) (btree_values (iom_order m)).

Definition iom_keys (m : InsertionOrderedMap) : list K := (iom_iter m).*1.
Definition iom_values (m : InsertionOrderedMap) : list V := (iom_iter m).*2.

(** The items of repeated [Iter::next_back]. *)
Definition iom_iter_back (m : InsertionOrderedMap) : list (K * V) :=
  iom_iter_from (iom_entries m) (reverse (btree_values (iom_order m))).

(** Writing through [values_mut]. *)
Definition iom_values_mut (write : V -> V) (m : InsertionOrderedMap) : InsertionOrderedMap :=
  mkIom ((fun entry => (entry.1, write entry.2)) <$> iom_entries m) (iom_order m) (iom_next_seq m).

(** [PartialEq::eq], which compares the iterations. *)
Definition iom_eq `{EqDecision V} (m1 m2 : InsertionOrderedMap) : bool := bool_decide (iom_iter m1 = iom_iter m2).

(** The well-formedness invariant: [order] and the sequence numbers of
    [entries] are inverse to each other and lie below [next_seq]. *)
Record iom_wf (m : InsertionOrderedMap) : Prop := {
  iom_wf_entry : forall k seq v,
    iom_entries m !! k = Some (seq, v) -> iom_order m !! seq = Some k;
  iom_wf_order : forall seq k,
    iom_order m !! seq = Some k -> exists v, iom_entries m !! k = Some (seq, v);
  iom_wf_seq : forall seq k, iom_order m !! seq = Some k -> 0 <= seq < iom_next_seq m
}.

(** ** Iteration *)
Lemma iom_iter_from_elem entries order k v :
  (forall k, k ∈ order -> is_Some (entries !! k)) ->
  (k, v) ∈ iom_iter_from entries order <->
  k ∈ order /\ exists seq, entries !! k = Some (seq, v).
Proof.
  induction order as [|k' order IH]; intros Hall; cbn.
  - rewrite !elem_of_nil. naive_solver.
  - destruct (Hall k' (list_elem_of_here _ _)) as [[seq' v'] Hk']. rewrite Hk'.
    rewrite !elem_of_cons, IH by (intros; apply Hall; by right).
    split; [|intros [[->|?] [? Hseq]]; naive_solver].
    intros [[= -> ->]|[? ?]]; [split; [by left|by exists seq'] | split; [by right|done]].
Qed.

Lemma iom_iter_from_keys entries order :
  (forall k, k ∈ order -> is_Some (entries !! k)) ->
  (iom_iter_from entries order).*1 = order.
Proof.
  induction order as [|k order IH]; intros Hall; cbn; [done|].
  destruct (Hall k (list_elem_of_here _ _)) as [[seq v] Hk]. rewrite Hk. cbn.
  rewrite IH; [done|]. intros; apply Hall; by right.
Qed.

Lemma iom_iter_from_ext e1 e2 order :
  (forall k, k ∈ order -> e1 !! k = e2 !! k) -> iom_iter_from e1 order = iom_iter_from e2 order.
Proof.
  induction order as [|k order IH]; intros He; cbn; [done|].
  rewrite He by left. destruct (e2 !! k) as [[]|]; [|done].
  rewrite IH; [done|]. intros. apply He. by right.
Qed.

Lemma iom_iter_from_app e o1 o2 :
  (forall k, k ∈ o1 -> is_Some (e !! k)) ->
  iom_iter_from e (o1 ++ o2) = iom_iter_from e o1 ++ iom_iter_from e o2.
Proof.
  induction o1 as [|k o1 IH]; intros He; cbn; [done|].
  destruct (He k (list_elem_of_here _ _)) as [[seq v] Hk]. rewrite Hk. cbn.
  rewrite IH; [done|]. intros. apply He. by right.
Qed.

Lemma iom_order_present m k : iom_wf m -> k ∈ btree_values (iom_order m) -> is_Some (iom_entries m !! k).
Proof.
  intros Hwf [seq Hseq]%elem_of_btree_values.
  destruct (iom_wf_order m Hwf _ _ Hseq) as [v ->]. by eexists.
Qed.

Lemma elem_of_iom_order m k :
  iom_wf m -> k ∈ btree_values (iom_order m) <-> is_Some (iom_entries m !! k).
Proof.
  intros Hwf. split; [by apply iom_order_present|]. intros [[seq v] Hk].
  apply elem_of_btree_values. exists seq. by eapply iom_wf_entry.
Qed.

(** Iteration yields exactly the pairs [get] finds. *)
Lemma elem_of_iom_iter m k v : iom_wf m -> (k, v) ∈ iom_iter m <-> iom_get m k = Some v.
Proof.
  intros Hwf. unfold iom_iter, iom_get.
  rewrite iom_iter_from_elem by (intros; by apply iom_order_present).
  rewrite elem_of_iom_order by done. destruct (iom_entries m !! k) as [[seq w]|]; cbn; naive_solver.
Qed.

Lemma iom_keys_order m : iom_wf m -> iom_keys m = btree_values (iom_order m).
Proof. intros Hwf. apply iom_iter_from_keys. intros. by apply iom_order_present. Qed.

Lemma NoDup_iom_keys m : iom_wf m -> NoDup (iom_keys m).
Proof.
  intros Hwf. rewrite iom_keys_order by done. unfold btree_values.
  assert (forall p, p ∈ btree_iter (iom_order m) -> iom_order m !! p.1 = Some p.2) as Hl
    by (intros [] ?; by apply elem_of_btree_iter).
  pose proof (NoDup_btree_keys (iom_order m)) as Hnd. unfold btree_keys in Hnd.
  induction (btree_iter (iom_order m)) as [|[seq k] l IH]; cbn in *; [constructor|].
  apply NoDup_cons in Hnd as [Hnin Hnd]. constructor; [|apply IH; [|done]; intros; apply Hl; by right].
  intros Hin. apply Hnin. apply list_elem_of_fmap in Hin as ([seq' k'] & Heq & Hin). cbn in Heq. subst k'.
  pose proof (Hl _ (list_elem_of_here _ _)) as H1. pose proof (Hl (seq', k) (list_elem_of_further _ _ _ Hin)) as H2.
  cbn in *. apply (iom_wf_order m Hwf) in H1 as [v1 H1], H2 as [v2 H2].
  assert (seq = seq') as -> by congruence. apply list_elem_of_fmap. by exists (seq', k).
Qed.

(** ** The invariant *)
Lemma iom_new_wf : iom_wf iom_new.
Proof. split; cbn; naive_solver. Qed.

Lemma iom_remove_wf m k : iom_wf m -> iom_wf (iom_remove m k).1.
Proof.
  intros [He Ho Hs]. unfold iom_remove. destruct (iom_entries m !! k) as [[seq v]|] eqn:Hk; [|by split].
  pose proof (He _ _ _ Hk) as Hseq. split; cbn.
  - intros k' seq' v' [Hne Hk']%lookup_delete_Some. apply lookup_delete_Some. split; [|eauto].
    intros ->. apply He in Hk'. congruence.
  - intros seq' k' [Hne Hk']%lookup_delete_Some. destruct (Ho _ _ Hk') as [v' Hv'].
    exists v'. apply lookup_delete_Some. split; [|done]. intros ->. congruence.
  - intros seq' k' [_ Hk']%lookup_delete_Some. eauto.
Qed.

Lemma iom_insert_remove m k v :
  iom_insert m k v =
    let m' := (iom_remove m k).1 in
    (mkIom (<[k := (iom_next_seq m', v)]> (iom_entries m'))
       (<[iom_next_seq m' := k]> (iom_order m')) (wadd (iom_next_seq m') 1),
     (iom_remove m k).2).
Proof. unfold iom_insert, iom_remove. by destruct (iom_entries m !! k) as [[]|]. Qed.

Lemma iom_remove_entries m k : iom_entries (iom_remove m k).1 = delete k (iom_entries m).
Proof.
  unfold iom_remove. destruct (iom_entries m !! k) as [[]|] eqn:Hk; [done|]. by rewrite delete_id.
Qed.

Lemma iom_remove_next_seq m k : iom_next_seq (iom_remove m k).1 = iom_next_seq m.
Proof. unfold iom_remove. by destruct (iom_entries m !! k) as [[]|]. Qed.

Lemma iom_remove_snd m k : (iom_remove m k).2 = iom_get m k.
Proof. unfold iom_remove, iom_get. by destruct (iom_entries m !! k) as [[]|]. Qed.

Lemma iom_next_seq_nonneg m : iom_wf m -> iom_entries m <> ∅ -> 0 <= iom_next_seq m.
Proof.
  intros Hwf Hne. destruct (map_choose _ Hne) as (k & [seq v] & Hk).
  pose proof (iom_wf_seq m Hwf _ _ (iom_wf_entry m Hwf _ _ _ Hk)). lia.
Qed.

Lemma iom_insert_wf m k v :
  iom_wf m -> 0 <= iom_next_seq m < u64_max -> iom_wf (iom_insert m k v).1.
Proof.
  intros Hwf Hseq. rewrite iom_insert_remove. cbn.
  pose proof (iom_remove_wf m k Hwf) as [He Ho Hs]. rewrite iom_remove_next_seq in *.
  unfold wadd. rewrite wrap64_small by (unfold is_u64, u64_modulus, u64_max in *; lia).
  pose proof (iom_remove_entries m k) as Hdel.
  set (m' := (iom_remove m k).1) in *. split; cbn.
  - intros k' seq' v' [[-> [= <- <-]]|[Hne Hk']]%lookup_insert_Some; [by rewrite lookup_insert_eq|].
    pose proof (He _ _ _ Hk') as Hord. rewrite lookup_insert_ne; [done|].
    pose proof (Hs _ _ Hord). lia.
  - intros seq' k' [[<- <-]|[Hne Hk']]%lookup_insert_Some; [exists v; by rewrite lookup_insert_eq|].
    destruct (Ho _ _ Hk') as [v' Hv']. exists v'. rewrite lookup_insert_ne; [done|].
    intros <-. by rewrite Hdel, lookup_delete_eq in Hv'.
  - intros seq' k' [[<- <-]|[Hne Hk']]%lookup_insert_Some; [lia|]. pose proof (Hs _ _ Hk'). lia.
Qed.

(** ** Refinement to association lists *)
Lemma iom_iter_remove m k :
  iom_wf m -> iom_iter (iom_remove m k).1 = filter (fun p => p.1 <> k) (iom_iter m).
Proof.
  intros Hwf. unfold iom_remove. destruct (iom_entries m !! k) as [[seq v]|] eqn:Hk; cbn.
  - unfold iom_iter, btree_values; cbn. rewrite btree_iter_delete.
    assert (forall p, p ∈ btree_iter (iom_order m) -> exists w, iom_entries m !! p.2 = Some (p.1, w)) as Hl.
    { intros [s k'] Hin. by apply (iom_wf_order m Hwf), elem_of_btree_iter. }
    induction (btree_iter (iom_order m)) as [|[s k'] l IH]; [done|].
    destruct (Hl (s, k') (list_elem_of_here _ _)) as [w Hw]. cbn in Hw.
    rewrite filter_cons. cbn [fmap list_fmap iom_iter_from snd fst]. rewrite Hw, filter_cons. cbn [fst].
    assert (s <> seq <-> k' <> k) as Hiff.
    { split; [intros Hne -> | intros Hne ->]; [congruence|].
      apply Hne. apply (iom_wf_entry m Hwf) in Hw, Hk. congruence. }
    specialize (IH (fun p Hp => Hl p (list_elem_of_further _ _ _ Hp))).
    destruct (decide (s <> seq)) as [Hs|Hs]; destruct (decide (k' <> k)) as [Hk'|Hk']; try tauto.
    cbn. rewrite lookup_delete_ne by done. rewrite Hw. by rewrite IH.
  - symmetry. apply filter_all. intros [k' v'] Hin%elem_of_iom_iter; [|done]. cbn. intros ->.
    unfold iom_get in Hin. by rewrite Hk in Hin.
Qed.

Lemma iom_iter_insert m k v :
  iom_wf m -> 0 <= iom_next_seq m < u64_max ->
  iom_iter (iom_insert m k v).1 = filter (fun p => p.1 <> k) (iom_iter m) ++ [(k, v)].
Proof.
  intros Hwf Hseq. rewrite <- iom_iter_remove by done.
  rewrite iom_insert_remove. cbn. pose proof (iom_remove_wf m k Hwf) as Hwf'.
  pose proof (iom_remove_entries m k) as Hdel. set (m' := (iom_remove m k).1) in *.
  unfold iom_iter, btree_values; cbn. rewrite btree_iter_insert_last.
  2: { intros s [k' Hs]. apply (iom_wf_seq m' Hwf') in Hs. lia. }
  rewrite fmap_app. cbn.
  assert (forall k', k' ∈ (btree_iter (iom_order m')).*2 -> k' <> k /\ is_Some (iom_entries m' !! k')) as Hin.
  { intros k' Hk'. assert (is_Some (iom_entries m' !! k')) as Hsome by (by apply iom_order_present).
    split; [|done]. intros ->. rewrite Hdel, lookup_delete_eq in Hsome. by destruct Hsome. }
  rewrite iom_iter_from_app by (intros k' Hk'; destruct (Hin _ Hk'); by rewrite lookup_insert_ne).
  cbn. rewrite lookup_insert_eq. f_equal.
  apply iom_iter_from_ext. intros k' Hk'. destruct (Hin _ Hk'). by rewrite lookup_insert_ne.
Qed.

Lemma iom_insert_get m k v k' :
  iom_get (iom_insert m k v).1 k' = if decide (k = k') then Some v else iom_get m k'.
Proof.
  rewrite iom_insert_remove. unfold iom_get; cbn. rewrite lookup_insert. case_decide; [done|].
  by rewrite iom_remove_entries, lookup_delete_ne.
Qed.

Lemma iom_remove_get m k k' :
  iom_get (iom_remove m k).1 k' = if decide (k = k') then None else iom_get m k'.
Proof.
  unfold iom_get. rewrite iom_remove_entries, lookup_delete. by case_decide.
Qed.

Lemma iom_insert_snd m k v : (iom_insert m k v).2 = iom_get m k.
Proof. rewrite iom_insert_remove. apply iom_remove_snd. Qed.

Lemma iom_contains_key_get m k : iom_contains_key m k = bool_decide (is_Some (iom_get m k)).
Proof. unfold iom_contains_key, iom_get. apply bool_decide_ext. by rewrite fmap_is_Some. Qed.

Lemma iom_new_get k : iom_get iom_new k = None.
Proof. done. Qed.

Lemma iom_iter_back_reverse m : iom_wf m -> iom_iter_back m = reverse (iom_iter m).
Proof.
  intros Hwf. unfold iom_iter_back, iom_iter.
  assert (forall k, k ∈ btree_values (iom_order m) -> is_Some (iom_entries m !! k)) as Hall by (intros; by apply iom_order_present).
  induction (btree_values (iom_order m)) as [|k order IH]; [done|]. rewrite reverse_cons, iom_iter_from_app.
  - rewrite IH by (intros; apply Hall; by right). cbn [iom_iter_from]. destruct (Hall k (list_elem_of_here _ _)) as [[seq v] ->]. by rewrite reverse_cons.
  - intros k' Hk'. apply Hall. right. by apply elem_of_reverse.
Qed.

Lemma iom_values_mut_wf write m : iom_wf m -> iom_wf (iom_values_mut write m).
Proof.
  intros [He Ho Hs]. split; cbn; [|intros seq k (v & Hv)%Ho; exists (write v); by rewrite lookup_fmap, Hv | done].
  intros k seq v. rewrite lookup_fmap, fmap_Some. intros ([seq' v'] & Hk & [= -> ->]). by eapply He.
Qed.

Lemma iom_iter_values_mut write m :
  iom_iter (iom_values_mut write m) = map (fun p => (p.1, write p.2)) (iom_iter m).
Proof.
  unfold iom_iter. cbn. induction (btree_values (iom_order m)) as [|k order IH]; [done|]. cbn. rewrite lookup_fmap.
  destruct (iom_entries m !! k) as [[seq v]|]; cbn; [by rewrite IH | done].
Qed.
End InsertionOrderedMap.
Arguments InsertionOrderedMap K V {_ _}.

(** A sequence of operations, and its reference semantics on association lists. *)
Inductive iom_op (K V : Type) : Type :=
  | IomInsert (k : K) (v : V)
  | IomRemove (k : K).
Arguments IomInsert {K V} k v.
Arguments IomRemove {K V} k.

Definition iom_run_op `{Countable K} {V} (m : InsertionOrderedMap K V) (op : iom_op K V)
    : InsertionOrderedMap K V * option V :=
  match op with IomInsert k v => iom_insert m k v | IomRemove k => iom_remove m k end.

Fixpoint assoc_get `{EqDecision K} {V} (l : list (K * V)) (k : K) : option V :=
  match l with
  | [] => None
  | (k', v) :: l => if decide (k' = k) then Some v else assoc_get l k
  end.

Definition assoc_run_op `{EqDecision K} {V} (l : list (K * V)) (op : iom_op K V)
    : list (K * V) * option V :=
  match op with
  | IomInsert k v => (filter (fun p => p.1 <> k) l ++ [(k, v)], assoc_get l k)
  | IomRemove k => (filter (fun p => p.1 <> k) l, assoc_get l k)
  end.

(** Runs operations one after the other, collecting what they return. *)
Fixpoint run_ops {S O R : Type} (step : S -> O -> S * R) (s : S) (ops : list O) : S * list R :=
  match ops with
  | [] => (s, [])
  | op :: ops => let '(s, r) := step s op in let '(s, rs) := run_ops step s ops in (s, r :: rs)
  end.

Lemma assoc_get_elem `{EqDecision K} {V} (l : list (K * V)) k v :
  NoDup l.*1 -> assoc_get l k = Some v <-> (k, v) ∈ l.
Proof.
  induction l as [|[k' v'] l IH]; cbn; intros Hnd; [by rewrite elem_of_nil|].
  apply NoDup_cons in Hnd as [Hnin Hnd]. rewrite elem_of_cons. case_decide as Hk.
  - subst. split; [naive_solver|]. intros [[= ->]|Hin]; [done|].
    destruct Hnin. apply list_elem_of_fmap. by exists (k, v).
  - rewrite IH by done. naive_solver.
Qed.

Lemma assoc_get_iom `{Countable K} {V} (m : InsertionOrderedMap K V) k :
  iom_wf m -> assoc_get (iom_iter m) k = iom_get m k.
Proof.
  intros Hwf. apply option_eq. intros v.
  rewrite assoc_get_elem by (by apply NoDup_iom_keys). by apply elem_of_iom_iter.
Qed.

(** ** Equality

    Maps with the same iteration are equal for the program, whatever their
    sequence numbers: no operation tells them apart. *)
Definition iom_same `{Countable K} {V} (m1 m2 : InsertionOrderedMap K V) : Prop :=
  iom_wf m1 /\ iom_wf m2 /\ iom_iter m1 = iom_iter m2.

#[export] Instance iom_same_per `{Countable K} {V} : RelationClasses.PER (@iom_same K _ _ V).
Proof. split; [intros m1 m2 (? & ? & ?); by split_and! | intros m1 m2 m3 (? & ? & ?) (? & ? & ?); split_and!; congruence]. Qed.

Lemma iom_eq_same `{Countable K} `{EqDecision V} (m1 m2 : InsertionOrderedMap K V) :
  iom_wf m1 -> iom_wf m2 -> iom_eq m1 m2 = true <-> iom_same m1 m2.
Proof. intros H1 H2. unfold iom_eq, iom_same. rewrite bool_decide_eq_true. tauto. Qed.

#[export] Instance iom_get_proper `{Countable K} {V} : Proper (iom_same ==> eq ==> eq) (@iom_get K V _ _).
Proof. intros m1 m2 (H1 & H2 & E) k _ <-. by rewrite <- !assoc_get_iom, E. Qed.

#[export] Instance iom_contains_key_proper `{Countable K} {V} : Proper (iom_same ==> eq ==> eq) (@iom_contains_key K V _ _).
Proof. intros m1 m2 Hm k _ <-. rewrite !iom_contains_key_get. by rewrite (iom_get_proper m1 m2 Hm k k eq_refl). Qed.

#[export] Instance iom_iter_back_proper `{Countable K} {V} : Proper (iom_same ==> eq) (@iom_iter_back K V _ _).
Proof. intros m1 m2 (H1 & H2 & E). by rewrite !iom_iter_back_reverse, E. Qed.

#[export] Instance iom_remove_proper `{Countable K} {V} :
  Proper (iom_same ==> eq ==> prod_relation iom_same eq) (@iom_remove K V _ _).
Proof.
  intros m1 m2 Hm k _ <-. split; [|rewrite !iom_remove_snd; by apply iom_get_proper]. destruct Hm as (H1 & H2 & E).
  split_and!; [by apply iom_remove_wf.. | by rewrite !iom_iter_remove, E].
Qed.

#[export] Instance iom_values_mut_proper `{Countable K} {V} write : Proper (iom_same ==> iom_same) (@iom_values_mut K V _ _ write).
Proof. intros m1 m2 (H1 & H2 & E). split_and!; [by apply iom_values_mut_wf.. | by rewrite !iom_iter_values_mut, E]. Qed.

Lemma iom_insert_same `{Countable K} {V} (m1 m2 : InsertionOrderedMap K V) k v :
  iom_same m1 m2 -> 0 <= iom_next_seq m1 < u64_max -> 0 <= iom_next_seq m2 < u64_max ->
  prod_relation iom_same eq (iom_insert m1 k v) (iom_insert m2 k v).
Proof.
  intros Hm Hs1 Hs2. split; [|rewrite !iom_insert_snd; by apply iom_get_proper]. destruct Hm as (H1 & H2 & E).
  split_and!; [by apply iom_insert_wf.. | by rewrite !iom_iter_insert, E].
Qed.

Lemma iom_run_op_refines `{Countable K} {V} (m : InsertionOrderedMap K V) op :
  iom_wf m -> 0 <= iom_next_seq m < u64_max ->
  let '(m', r) := iom_run_op m op in
  iom_wf m' /\ iom_next_seq m <= iom_next_seq m' <= iom_next_seq m + 1 /\
  assoc_run_op (iom_iter m) op = (iom_iter m', r).
Proof.
  intros Hwf Hseq. destruct op as [k v|k]; cbn.
  - destruct (iom_insert m k v) as [m' r] eqn:Hins.
    pose proof (iom_insert_wf m k v Hwf Hseq) as Hwf'. pose proof (iom_iter_insert m k v Hwf Hseq) as Hit.
    pose proof (iom_insert_snd m k v) as Hr. assert (iom_next_seq (iom_insert m k v).1 = iom_next_seq m + 1) as Hn.
    { rewrite iom_insert_remove; cbn. rewrite iom_remove_next_seq. apply wrap64_small.
      unfold is_u64, u64_modulus, u64_max in *. lia. }
    rewrite Hins in *; cbn in *. split_and!; [done | lia | lia|]. by rewrite Hit, Hr, assoc_get_iom.
  - destruct (iom_remove m k) as [m' r] eqn:Hrem.
    pose proof (iom_remove_wf m k Hwf) as Hwf'. pose proof (iom_iter_remove m k Hwf) as Hit.
    pose proof (iom_remove_snd m k) as Hr. pose proof (iom_remove_next_seq m k) as Hn.
    rewrite Hrem in *; cbn in *. split_and!; [done | lia | lia|]. by rewrite Hit, Hr, assoc_get_iom.
Qed.

Lemma iom_run_ops_refines `{Countable K} {V} (ops : list (iom_op K V)) : forall m,
  iom_wf m -> 0 <= iom_next_seq m -> iom_next_seq m + Z.of_nat (length ops) <= u64_max ->
  let '(m', rs) := run_ops iom_run_op m ops in
  iom_wf m' /\ run_ops assoc_run_op (iom_iter m) ops = (iom_iter m', rs).
Proof.
  induction ops as [|op ops IH]; intros m Hwf H0 Hlen; [done|].
  cbn [run_ops length] in *. pose proof (iom_run_op_refines m op Hwf ltac:(lia)) as Hstep.
  destruct (iom_run_op m op) as [m1 r]. destruct Hstep as (Hwf1 & Hn & ->).
  specialize (IH m1 Hwf1 ltac:(lia) ltac:(lia)).
  destruct (run_ops iom_run_op m1 ops) as [m2 rs]. destruct IH as [Hwf2 ->]. done.
Qed.

(** C36: Over any sequence of insertions and removals (fewer than 2^64, so the
    sequence counter does not wrap), the two-index map behaves like an
    association list in insertion order: same return values, same iteration,
    re-insertion moves a key to the end, no key twice, iteration from the back
    is the reverse one, and lookups agree with the iteration. *)
Theorem iom_refines_association_list `{Countable K} {V} (ops : list (iom_op K V)) :
  Z.of_nat (length ops) <= u64_max ->
  let '(m, rs) := run_ops iom_run_op iom_new ops in
  run_ops assoc_run_op [] ops = (iom_iter m, rs) /\
  NoDup (iom_keys m) /\ iom_iter_back m = reverse (iom_iter m) /\
  (forall k, iom_get m k = assoc_get (iom_iter m) k).
Proof.
  intros Hlen. pose proof (iom_run_ops_refines ops iom_new iom_new_wf ltac:(cbn; lia) Hlen) as Hr.
  destruct (run_ops iom_run_op iom_new ops) as [m rs]. destruct Hr as [Hwf Hrun].
  split_and!; [done | by apply NoDup_iom_keys | by apply iom_iter_back_reverse | intros k; by rewrite assoc_get_iom].
Qed.

Lemma iom_refines_association_list_witness :
  run_ops iom_run_op iom_new [IomInsert 7 1; IomInsert 3 2; IomInsert 7 5; IomRemove 9] =
    (mkIom {[7 := (2, 5); 3 := (1, 2)]} {[1 := 3; 2 := 7]} 3, [None; None; Some 1; None]) /\
  run_ops assoc_run_op [] [IomInsert 7 1; IomInsert 3 2; IomInsert 7 5; IomRemove 9] =
    ([(3, 2); (7, 5)], [None; None; Some 1; None]).
Proof.
  split; [vm_compute; reflexivity|].
  exact (proj1 (iom_refines_association_list
    [IomInsert 7 1; IomInsert 3 2; IomInsert 7 5; IomRemove 9] ltac:(vm_compute; discriminate))).
Defined.
