(* ===== verification/TimedSizedMap.v ===== *)
(** [TimedSizedMap] of minter/src/utils/timed_sized_map: a map of at most
    [capacity] entries, each living for at most [ttl], with an index of the
    keys by expiry. The invariant relates the index to the entries; on
    well-formed maps no operation panics. *)
From S2P Require Import Prelude Platform.

(** [Duration]s are numbers of nanoseconds. *)
Abbreviation Duration := Z (only parsing).

Definition nanos (duration : Duration) : Z :=
  if duration <? u64_modulus then duration else u64_max.
Definition timestamp_saturating_add (t : Timestamp) (duration : Duration) : Timestamp :=
  saturating_add t (nanos duration).
Definition timestamp_saturating_sub (t : Timestamp) (duration : Duration) : Timestamp :=
  saturating_sub t (nanos duration).

Definition is_expired (expires_at now : Timestamp) : bool := expires_at <? now.

Record Entry (V : Type) := mkEntry { entry_value : V; entry_expires_at : Timestamp }.
Arguments mkEntry {V}.
Arguments entry_value {V}.
Arguments entry_expires_at {V}.

Definition is_live {V} (e : Entry V) (now : Timestamp) : bool :=
  negb (is_expired (entry_expires_at e) now).

Inductive InsertError (K V : Type) : Type :=
  | AlreadyPresent (key : K) (value : V)
  | AtCapacity (key : K) (value : V).
Arguments AlreadyPresent {K V}.
Arguments AtCapacity {K V}.

Section TimedSizedMap.
Context {K V : Type} `{Countable K}.

Record TimedSizedMap := mkTsm {
  tsm_ttl : Duration;
  tsm_capacity : nat;
  tsm_entries : gmap K (Entry V);
  tsm_by_expiry : gmap Timestamp (list K)
}.

#[export] Instance Tsm_eta : Eta TimedSizedMap := fun m =>
  mkTsm (tsm_ttl m) (tsm_capacity m) (tsm_entries m) (tsm_by_expiry m).

Definition tsm_new (ttl : Duration) (capacity : nat) : TimedSizedMap := mkTsm ttl capacity ∅ ∅.

Definition tsm_expiry (m : TimedSizedMap) (now : Timestamp) : Timestamp :=
  timestamp_saturating_add now (tsm_ttl m).

Definition tsm_earliest_expiry (m : TimedSizedMap) : option Timestamp :=
  head (btree_keys (tsm_by_expiry m)).

(** [entry(expires_at).or_default().push_back(key)] *)
Definition tsm_enqueue_by_expiry (m : TimedSizedMap) (key : K) (expires_at : Timestamp)
    : TimedSizedMap :=
  m <| tsm_by_expiry ::= insert expires_at (default [] (tsm_by_expiry m !! expires_at) ++ [key]) |>.

Definition tsm_from_ordered_entries (ttl : Duration) (capacity : nat) (entries : list (K * Entry V))
    : outcome TimedSizedMap :=
  foreach (fun m '(key, entry) =>
    let m := tsm_enqueue_by_expiry m key (entry_expires_at entry) in
    assert_ (bool_decide (tsm_entries m !! key = None))
      "BUG: from_ordered_entries received a duplicate key";;
    Done (m <| tsm_entries ::= insert key entry |>))
    (tsm_new ttl capacity) entries.

Definition tsm_get_entry (m : TimedSizedMap) (now : Timestamp) (key : K) : option (Entry V) :=
  match tsm_entries m !! key with
  | Some e => if is_live e now then Some e else None
  | None => None
  end.

Definition tsm_get (m : TimedSizedMap) (now : Timestamp) (key : K) : option V :=
  entry_value <$> tsm_get_entry m now key.

(** [get_value_mut] followed by an update of the borrowed value; nothing
    happens when the key has no live entry. *)
Definition tsm_update_value (m : TimedSizedMap) (now : Timestamp) (key : K) (f : V -> V)
    : TimedSizedMap :=
  match tsm_get_entry m now key with
  | Some e => m <| tsm_entries ::= insert key (mkEntry (f (entry_value e)) (entry_expires_at e)) |>
  | None => m
  end.

(** The body of the [while let] loop of [evict_expired]: removes the bucket
    of the given expiry and the entries of its keys. *)
Definition tsm_evict_bucket (m : TimedSizedMap) (evicted : list (K * V)) (expires_at : Timestamp)
    : outcome (TimedSizedMap * list (K * V)) :=
  bucket ← expect (tsm_by_expiry m !! expires_at) "BUG: the earliest expiry has a bucket";
  foreach (fun '(m, evicted) key =>
    entry ← expect (tsm_entries m !! key) "BUG: every indexed key has an entry";
    Done (m <| tsm_entries ::= delete key |>, evicted ++ [(key, entry_value entry)]))
    (m <| tsm_by_expiry ::= delete expires_at |>, evicted) bucket.

Fixpoint tsm_evict_loop (fuel : nat) (m : TimedSizedMap) (now : Timestamp) (evicted : list (K * V))
    : outcome (TimedSizedMap * list (K * V)) :=
  match tsm_earliest_expiry m with
  | Some expires_at =>
      if is_expired expires_at now then
        match fuel with
        | O => Panic "out of fuel"
        | S fuel =>
            '(m, evicted) ← tsm_evict_bucket m evicted expires_at;
            tsm_evict_loop fuel m now evicted
        end
      else Done (m, evicted)
  | None => Done (m, evicted)
  end.

(** Every iteration removes one bucket, so [size by_expiry] iterations suffice. *)
Definition tsm_evict_expired (m : TimedSizedMap) (now : Timestamp)
    : outcome (TimedSizedMap * list (K * V)) :=
  tsm_evict_loop (size (tsm_by_expiry m)) m now [].

Definition tsm_insert_entry (m : TimedSizedMap) (now : Timestamp) (key : K) (entry : Entry V)
    : outcome (TimedSizedMap * result (list (K * V)) (InsertError K V)) :=
  if negb (is_live entry now) then Done (m, Ok [])
  else if bool_decide (is_Some (tsm_get m now key)) then
    Done (m, Err (AlreadyPresent key (entry_value entry)))
  else
    '(m, evicted) ← tsm_evict_expired m now;
    if bool_decide (tsm_capacity m <= size (tsm_entries m))%nat then
      Done (m, Err (AtCapacity key (entry_value entry)))
    else
      let entry := mkEntry (entry_value entry)
        (Z.min (entry_expires_at entry) (tsm_expiry m now)) in
      let m := tsm_enqueue_by_expiry m key (entry_expires_at entry) in
      Done (m <| tsm_entries ::= insert key entry |>, Ok evicted).

Definition tsm_insert (m : TimedSizedMap) (now : Timestamp) (key : K) (value : V)
    : outcome (TimedSizedMap * result (list (K * V)) (InsertError K V)) :=
  tsm_insert_entry m now key (mkEntry value (tsm_expiry m now)).

Definition tsm_remove (m : TimedSizedMap) (key : K) : outcome (TimedSizedMap * option (Entry V)) :=
  match tsm_entries m !! key with
  | None => Done (m, None)
  | Some entry =>
      let m := m <| tsm_entries ::= delete key |> in
      bucket ← expect (tsm_by_expiry m !! entry_expires_at entry)
        "BUG: every entry is indexed under its expiry";
      let bucket := filter (fun indexed => indexed <> key) bucket in
      Done (match bucket with
            | [] => m <| tsm_by_expiry ::= delete (entry_expires_at entry) |>
            | _ => m <| tsm_by_expiry ::= insert (entry_expires_at entry) bucket |>
            end, Some entry)
  end.

Definition tsm_iter_by_expiry (m : TimedSizedMap) : outcome (list (K * Entry V)) :=
  traverse (fun key =>
    entry ← expect (tsm_entries m !! key) "BUG: every indexed key has an entry";
    Done (key, entry)) (concat (btree_values (tsm_by_expiry m))).

Definition tsm_len (m : TimedSizedMap) : nat := size (tsm_entries m).

(** The well-formedness invariant. *)
Record tsm_wf (m : TimedSizedMap) : Prop := {
  tsm_wf_entry : forall k e, tsm_entries m !! k = Some e ->
    exists b, tsm_by_expiry m !! entry_expires_at e = Some b /\ k ∈ b;
  tsm_wf_bucket : forall t b, tsm_by_expiry m !! t = Some b -> b <> [] /\ NoDup b;
  tsm_wf_key : forall t b k, tsm_by_expiry m !! t = Some b -> k ∈ b ->
    exists e, tsm_entries m !! k = Some e /\ entry_expires_at e = t;
  tsm_wf_size : (size (tsm_entries m) <= tsm_capacity m)%nat
}.

(** ** Eviction *)
Lemma tsm_new_wf ttl capacity : tsm_wf (tsm_new ttl capacity).
Proof. split; cbn; try naive_solver. rewrite map_size_empty. lia. Qed.

Lemma evict_keys_spec b : forall m evicted,
  NoDup b -> (forall k, k ∈ b -> is_Some (tsm_entries m !! k)) ->
  exists entries l,
    foreach (fun '(m, evicted) key =>
      entry ← expect (tsm_entries m !! key) "BUG: every indexed key has an entry";
      Done (m <| tsm_entries ::= delete key |>, evicted ++ [(key, entry_value entry)]))
      (m, evicted) b
    = Done (m <| tsm_entries := entries |>, evicted ++ l) /\
    (forall k, entries !! k = if decide (k ∈ b) then None else tsm_entries m !! k) /\
    Forall2 (fun k p => exists e, tsm_entries m !! k = Some e /\ p = (k, entry_value e)) b l.
Proof.
  induction b as [|k b IH]; intros m evicted Hnd Hin; cbn [foreach].
  - exists (tsm_entries m), []. rewrite app_nil_r. split_and!; [by destruct m | | constructor].
    intros k. by rewrite decide_False by apply not_elem_of_nil.
  - apply NoDup_cons in Hnd as [Hnin Hnd].
    destruct (Hin k (list_elem_of_here _ _)) as [e He]. rewrite He. cbn [expect mbind outcome_bind].
    destruct (IH (m <| tsm_entries ::= delete k |>) (evicted ++ [(k, entry_value e)]) Hnd)
      as (entries & l & Hrun & Hlk & HF).
    { intros k' Hk'. cbn. rewrite lookup_delete_ne by (intros ->; done). apply Hin. by right. }
    exists entries, ((k, entry_value e) :: l). split_and!.
    + rewrite Hrun. f_equal. f_equal. rewrite <- app_assoc. done.
    + intros k'. rewrite Hlk. cbn. destruct (decide (k' = k)) as [->|Hne].
      * rewrite decide_False by done. rewrite decide_True by left. apply lookup_delete_eq.
      * rewrite lookup_delete_ne by done. apply decide_ext. rewrite elem_of_cons. naive_solver.
    + constructor; [by exists e|]. eapply Forall2_impl_strong; [exact HF|].
      intros k' p Hk' _ (e' & He' & ->). exists e'. split; [|done]. cbn in He'.
      by apply lookup_delete_Some in He' as [_ ?].
Qed.

(** The entries left once those with a given expiry are gone. *)
Definition not_expiring_at (t : Timestamp) (entries : gmap K (Entry V)) : gmap K (Entry V) :=
  filter (fun kv => entry_expires_at kv.2 <> t) entries.

Lemma tsm_evict_bucket_spec m evicted t b :
  tsm_wf m -> tsm_by_expiry m !! t = Some b ->
  exists l,
    tsm_evict_bucket m evicted t =
      Done (mkTsm (tsm_ttl m) (tsm_capacity m) (not_expiring_at t (tsm_entries m))
              (delete t (tsm_by_expiry m)), evicted ++ l) /\
    tsm_wf (mkTsm (tsm_ttl m) (tsm_capacity m) (not_expiring_at t (tsm_entries m))
              (delete t (tsm_by_expiry m))) /\
    Forall2 (fun k p => exists e, tsm_entries m !! k = Some e /\ entry_expires_at e = t /\
      p = (k, entry_value e)) b l.
Proof.
  intros Hwf Hb. pose proof Hwf as [He Hbk Hk Hsz]. unfold tsm_evict_bucket. rewrite Hb. cbn [expect mbind outcome_bind].
  destruct (Hbk _ _ Hb) as [Hne Hnd].
  destruct (evict_keys_spec b (m <| tsm_by_expiry ::= delete t |>) evicted Hnd) as (entries & l & -> & Hlk & HF).
  { intros k Hin. destruct (Hk _ _ _ Hb Hin) as (e & He' & _). by exists e. }
  assert (entries = not_expiring_at t (tsm_entries m)) as ->.
  { apply map_eq. intros k. rewrite Hlk. cbn. unfold not_expiring_at. case_decide as Hin.
    - symmetry. apply map_lookup_filter_None. right. intros e He' Hexp. cbn in Hexp.
      destruct (Hk _ _ _ Hb Hin) as (e' & He'' & Ht). congruence.
    - apply option_eq. intros e. rewrite map_lookup_filter_Some. cbn.
      split; [|naive_solver]. intros He'. split; [done|]. intros Ht. apply Hin.
      destruct (He _ _ He') as (b' & Hb' & ?). rewrite Ht, Hb in Hb'. naive_solver. }
  exists l. split_and!; [by destruct m | split; cbn |].
  - intros k e [He' Hne']%map_lookup_filter_Some. cbn in Hne'.
    destruct (He _ _ He') as (b' & ? & ?). exists b'. by rewrite lookup_delete_ne.
  - intros t' b' [_ Hb']%lookup_delete_Some. eauto.
  - intros t' b' k [Hne' Hb']%lookup_delete_Some Hin. destruct (Hk _ _ _ Hb' Hin) as (e & ? & ?).
    exists e. split; [|done]. apply map_lookup_filter_Some. naive_solver.
  - etrans; [|exact Hsz]. apply map_size_filter.
  - eapply Forall2_impl_strong; [exact HF|]. intros k p Hin _ (e & ? & ->).
    destruct (Hk _ _ _ Hb Hin) as (e' & He' & Ht). cbn in *. exists e. split_and!; congruence.
Qed.

Definition live_entries (now : Timestamp) (entries : gmap K (Entry V)) : gmap K (Entry V) :=
  filter (fun kv => is_live kv.2 now = true) entries.

Definition evicted_pairs (now : Timestamp) (m : TimedSizedMap) (l : list (K * V)) : Prop :=
  forall k v, (k, v) ∈ l <->
    exists e, tsm_entries m !! k = Some e /\ is_live e now = false /\ v = entry_value e.

Lemma is_live_true {W} (e : Entry W) now : is_live e now = true <-> now <= entry_expires_at e.
Proof. unfold is_live, is_expired. rewrite negb_true_iff, Z.ltb_ge. done. Qed.

Lemma is_live_false {W} (e : Entry W) now : is_live e now = false <-> entry_expires_at e < now.
Proof. unfold is_live, is_expired. rewrite negb_false_iff, Z.ltb_lt. done. Qed.

Lemma earliest_expiry_spec m t :
  tsm_earliest_expiry m = Some t ->
  is_Some (tsm_by_expiry m !! t) /\ forall t', is_Some (tsm_by_expiry m !! t') -> t <= t'.
Proof.
  unfold tsm_earliest_expiry, btree_keys. destruct (btree_iter (tsm_by_expiry m)) as [|[t0 b] l] eqn:Hi; [done|].
  cbn. intros [= ->]. apply btree_iter_cons in Hi as (Hb & _ & Hle). split; [by exists b | done].
Qed.

Lemma no_expired_live m now :
  tsm_wf m -> (forall t, is_Some (tsm_by_expiry m !! t) -> now <= t) ->
  live_entries now (tsm_entries m) = tsm_entries m /\ evicted_pairs now m [].
Proof.
  intros Hwf Hall. assert (forall k e, tsm_entries m !! k = Some e -> is_live e now = true) as Hlive.
  { intros k e He. destruct (tsm_wf_entry m Hwf _ _ He) as (b & Hb & _).
    apply is_live_true, Hall. by exists b. }
  split.
  - apply map_filter_id. intros k e He. cbn. eauto.
  - intros k v. rewrite elem_of_nil. split; [done|]. intros (e & He & Hx & _).
    rewrite (Hlive _ _ He) in Hx. done.
Qed.

Lemma tsm_evict_loop_spec now : forall fuel m evicted,
  tsm_wf m -> (size (tsm_by_expiry m) <= fuel)%nat ->
  exists m' l,
    tsm_evict_loop fuel m now evicted = Done (m', evicted ++ l) /\ tsm_wf m' /\
    tsm_ttl m' = tsm_ttl m /\ tsm_capacity m' = tsm_capacity m /\
    tsm_entries m' = live_entries now (tsm_entries m) /\ evicted_pairs now m l.
Proof.
  induction fuel as [|fuel IH]; intros m evicted Hwf Hfuel; cbn [tsm_evict_loop];
    destruct (tsm_earliest_expiry m) as [t|] eqn:Ht.
  1: { exfalso. destruct (earliest_expiry_spec _ _ Ht) as [[b Hb] _].
       assert (tsm_by_expiry m = ∅) as Hz by (apply map_size_empty_iff; lia). by rewrite Hz in Hb. }
  2: { destruct (earliest_expiry_spec _ _ Ht) as [[b Hb] Hle]. destruct (is_expired t now) eqn:Hexp.
    - destruct (tsm_evict_bucket_spec m evicted t b Hwf Hb) as (l & -> & Hwf' & HF). cbn [mbind outcome_bind].
      destruct (IH _ (evicted ++ l) Hwf') as (m' & l' & -> & Hwf'' & Httl & Hcap & Hent & Hev).
      { cbn. rewrite map_size_delete_Some by (by exists b). lia. }
      exists m', (l ++ l'). rewrite <- app_assoc. split_and!; try done; cbn in *.
      + rewrite Hent. unfold live_entries, not_expiring_at. rewrite map_filter_filter.
        apply map_filter_ext. intros k e He. cbn. rewrite is_live_true.
        unfold is_expired in Hexp. apply Z.ltb_lt in Hexp. naive_solver lia.
      + intros k v. rewrite elem_of_app, (Hev k v). cbn. unfold is_expired in Hexp. apply Z.ltb_lt in Hexp.
        setoid_rewrite map_lookup_filter_Some. setoid_rewrite is_live_false. split.
        * intros [Hin|(e & [? ?] & ? & ->)]; [|by exists e].
          apply list_elem_of_lookup in Hin as [i Hi].
          destruct (Forall2_lookup_r _ _ _ _ _ HF Hi) as (k' & _ & e & He & Hte & [= -> ->]).
          exists e. split_and!; [done | lia | done].
        * intros (e & He & Hx & ->). destruct (decide (entry_expires_at e = t)) as [Hte|Hte].
          -- left. destruct (tsm_wf_entry m Hwf _ _ He) as (b' & Hb' & Hin). rewrite Hte, Hb in Hb'.
             injection Hb' as <-. apply list_elem_of_lookup in Hin as [i Hi].
             destruct (Forall2_lookup_l _ _ _ _ _ HF Hi) as (p & Hp & e' & He' & _ & ->).
             apply list_elem_of_lookup. exists i. congruence.
          -- right. exists e. cbn. done.
    - destruct (no_expired_live m now Hwf) as [Hl Hev].
      { intros t' Ht'. specialize (Hle t' Ht'). unfold is_expired in Hexp. apply Z.ltb_ge in Hexp. lia. }
      exists m, []. rewrite app_nil_r, Hl. done. }
  all: destruct (no_expired_live m now Hwf) as [Hl Hev];
    [ intros t' [b Hb]; exfalso; unfold tsm_earliest_expiry, btree_keys in Ht;
      destruct (btree_iter (tsm_by_expiry m)) as [|[]] eqn:Hi; [|done];
      apply btree_iter_nil in Hi; by rewrite Hi in Hb
    | exists m, []; rewrite app_nil_r, Hl; done ].
Qed.

(** On a well-formed map eviction terminates without a panic, keeps exactly
    the live entries and returns exactly the expired ones. *)
Lemma tsm_evict_expired_spec m now :
  tsm_wf m ->
  exists m' l,
    tsm_evict_expired m now = Done (m', l) /\ tsm_wf m' /\
    tsm_ttl m' = tsm_ttl m /\ tsm_capacity m' = tsm_capacity m /\
    tsm_entries m' = live_entries now (tsm_entries m) /\ evicted_pairs now m l.
Proof. intros Hwf. by apply (tsm_evict_loop_spec now _ m [] Hwf). Qed.

(** ** Insertion, removal and update *)
Lemma enqueue_lookup m key t t' :
  tsm_by_expiry (tsm_enqueue_by_expiry m key t) !! t' =
  if decide (t = t') then Some (default [] (tsm_by_expiry m !! t) ++ [key]) else tsm_by_expiry m !! t'.
Proof. unfold tsm_enqueue_by_expiry. cbn. by rewrite lookup_insert. Qed.

Lemma elem_of_enqueued m key t t' b k :
  tsm_by_expiry (tsm_enqueue_by_expiry m key t) !! t' = Some b -> k ∈ b ->
  (k = key /\ t' = t) \/ exists b', tsm_by_expiry m !! t' = Some b' /\ k ∈ b'.
Proof.
  rewrite enqueue_lookup. case_decide as Ht; [|naive_solver]. subst t'. intros [= <-].
  rewrite elem_of_app, list_elem_of_singleton. intros [Hin| ->]; [right|by left].
  destruct (tsm_by_expiry m !! t) as [b'|]; [by exists b' | by apply not_elem_of_nil in Hin].
Qed.

Lemma tsm_admit_wf m key e :
  tsm_wf m -> tsm_entries m !! key = None -> (size (tsm_entries m) < tsm_capacity m)%nat ->
  tsm_wf ((tsm_enqueue_by_expiry m key (entry_expires_at e)) <| tsm_entries ::= insert key e |>).
Proof.
  intros Hwf Hnone Hsz. pose proof Hwf as [He Hb Hk _]. split; cbn [tsm_entries tsm_by_expiry field_upd].
  - intros k e' [[<- <-]|[Hne He']]%lookup_insert_Some.
    + rewrite enqueue_lookup, decide_True by done. eexists. split; [done|].
      apply elem_of_app. right. by left.
    + destruct (He _ _ He') as (b & Hb' & Hin). rewrite enqueue_lookup. case_decide as Ht; [|by exists b].
      rewrite <- Ht in Hb'. rewrite Hb'. eexists. split; [done|]. apply elem_of_app. by left.
  - intros t b. rewrite enqueue_lookup. case_decide as Ht; [|eauto]. intros [= <-].
    split; [by destruct (default [] _)|]. apply NoDup_app. split_and!.
    + destruct (tsm_by_expiry m !! _) as [b'|] eqn:Hb'; [|constructor]. by destruct (Hb _ _ Hb').
    + intros k Hin ->%list_elem_of_singleton. destruct (tsm_by_expiry m !! _) as [b'|] eqn:Hb'.
      * destruct (Hk _ _ _ Hb' Hin) as (? & ? & _). congruence.
      * by apply not_elem_of_nil in Hin.
    + apply NoDup_singleton.
  - intros t b k Hb' Hin. destruct (elem_of_enqueued _ _ _ _ _ _ Hb' Hin) as [[-> ->]|(b' & Hb'' & Hin')].
    + exists e. by rewrite lookup_insert_eq.
    + destruct (Hk _ _ _ Hb'' Hin') as (e' & ? & ?). exists e'. rewrite lookup_insert_ne by congruence. done.
  - rewrite map_size_insert_None; [|done]. cbn in *. lia.
Qed.

Lemma tsm_get_entry_live m now key e :
  tsm_get_entry m now key = Some e <-> live_entries now (tsm_entries m) !! key = Some e.
Proof.
  unfold tsm_get_entry, live_entries. rewrite map_lookup_filter_Some. cbn.
  destruct (tsm_entries m !! key) as [e'|]; [|naive_solver].
  destruct (is_live e' now) eqn:Hl; split; [intros [= <-]; done | by intros [[= <-] _] | done |].
  intros [[= <-] ?]; congruence.
Qed.

Lemma tsm_get_None m now key :
  tsm_get m now key = None <-> live_entries now (tsm_entries m) !! key = None.
Proof.
  unfold tsm_get. rewrite fmap_None, !eq_None_not_Some. unfold is_Some.
  setoid_rewrite tsm_get_entry_live. done.
Qed.

(** What [insert_entry] does on each branch; it never panics. *)
Lemma tsm_insert_entry_spec m now key entry :
  tsm_wf m ->
  exists m' r, tsm_insert_entry m now key entry = Done (m', r) /\ tsm_wf m' /\
    tsm_ttl m' = tsm_ttl m /\ tsm_capacity m' = tsm_capacity m /\
    ((is_live entry now = false /\ m' = m /\ r = Ok []) \/
     (is_live entry now = true /\ is_Some (tsm_get m now key) /\ m' = m /\
      r = Err (AlreadyPresent key (entry_value entry))) \/
     (is_live entry now = true /\ tsm_get m now key = None /\
      (tsm_capacity m <= size (live_entries now (tsm_entries m)))%nat /\
      tsm_entries m' = live_entries now (tsm_entries m) /\
      r = Err (AtCapacity key (entry_value entry))) \/
     (is_live entry now = true /\ tsm_get m now key = None /\
      (size (live_entries now (tsm_entries m)) < tsm_capacity m)%nat /\
      tsm_entries m' = <[key := mkEntry (entry_value entry)
        (Z.min (entry_expires_at entry) (tsm_expiry m now))]> (live_entries now (tsm_entries m)) /\
      exists evicted, r = Ok evicted /\ evicted_pairs now m evicted)).
Proof.
  intros Hwf. unfold tsm_insert_entry. destruct (is_live entry now) eqn:Hlive; cbn [negb].
  2: { eexists _, _. split; [done|]. naive_solver. }
  destruct (bool_decide _) eqn:Hget.
  { apply bool_decide_eq_true in Hget. eexists _, _. split; [done|]. naive_solver. }
  apply bool_decide_eq_false, eq_None_not_Some in Hget.
  destruct (tsm_evict_expired_spec m now Hwf) as (m' & l & -> & Hwf' & Httl & Hcap & Hent & Hev).
  cbn [mbind outcome_bind]. rewrite Hcap. unfold tsm_expiry. rewrite Httl.
  destruct (bool_decide _) eqn:Hfull.
  - apply bool_decide_eq_true in Hfull. rewrite Hent in Hfull.
    exists m', (Err (AtCapacity key (entry_value entry))). split_and!; [done..|].
    right; right; left. split_and!; done.
  - apply bool_decide_eq_false in Hfull. rewrite Hent in Hfull.
    eexists _, (Ok l). split_and!; [reflexivity | | done | done |].
    + apply (tsm_admit_wf m' key (mkEntry _ _)); [done | | rewrite Hent; lia].
      rewrite Hent. by apply tsm_get_None.
    + right; right; right. split_and!; [done | done | lia | cbn; by rewrite Hent | by exists l].
Qed.

Lemma tsm_remove_spec m key :
  tsm_wf m ->
  exists m', tsm_remove m key = Done (m', tsm_entries m !! key) /\ tsm_wf m' /\
    tsm_ttl m' = tsm_ttl m /\ tsm_capacity m' = tsm_capacity m /\
    tsm_entries m' = delete key (tsm_entries m).
Proof.
  intros Hwf. pose proof Hwf as [He Hb Hk Hsz]. unfold tsm_remove.
  destruct (tsm_entries m !! key) as [e|] eqn:Hkey; cbn [tsm_by_expiry field_upd].
  2: { exists m. rewrite delete_id by done. done. }
  destruct (He _ _ Hkey) as (b & Hbk & Hin). rewrite Hbk. cbn [expect mbind outcome_bind].
  set (t := entry_expires_at e) in *. set (b' := filter (fun i => i <> key) b).
  set (idx := match b' with [] => delete t (tsm_by_expiry m) | _ => <[t := b']> (tsm_by_expiry m) end).
  assert (forall t' c, idx !! t' = Some c -> c <> [] /\ exists c0, tsm_by_expiry m !! t' = Some c0 /\
    c = filter (fun i => i <> key) c0) as Hidx.
  { intros t' c Hc. assert (t' <> t -> tsm_by_expiry m !! t' = Some c -> exists c0,
      tsm_by_expiry m !! t' = Some c0 /\ c = filter (fun i => i <> key) c0) as Hother.
    { intros Hne Hc'. exists c. split; [done|]. symmetry. apply filter_all. intros k Hkin ->.
      destruct (Hk _ _ _ Hc' Hkin) as (e' & He' & Ht'). rewrite Hkey in He'. injection He' as <-. done. }
    unfold idx in Hc. destruct b' as [|x xs] eqn:Eb'.
    - apply lookup_delete_Some in Hc as [Hne Hc]. split; [by destruct (Hb _ _ Hc) | apply Hother; done].
    - apply lookup_insert_Some in Hc as [[<- <-]|[Hne Hc]]; [|split; [by destruct (Hb _ _ Hc) | apply Hother; done]].
      split; [done|]. exists b. by rewrite <- Eb'. }
  assert (forall k e', k <> key -> tsm_entries m !! k = Some e' ->
    exists c, idx !! entry_expires_at e' = Some c /\ k ∈ c) as Hstay.
  { intros k e' Hne He'. destruct (He _ _ He') as (c & Hc & Hkin).
    destruct (decide (entry_expires_at e' = t)) as [Ht|Ht].
    - rewrite Ht in *. rewrite Hbk in Hc. injection Hc as <-.
      assert (k ∈ b') as Hkb by (apply list_elem_of_filter; done).
      unfold idx. destruct b'; [by apply not_elem_of_nil in Hkb|]. rewrite lookup_insert_eq. by eexists.
    - exists c. split; [|done]. unfold idx. destruct b'; [by rewrite lookup_delete_ne | by rewrite lookup_insert_ne]. }
  exists (mkTsm (tsm_ttl m) (tsm_capacity m) (delete key (tsm_entries m)) idx).
  split_and!; [unfold idx; by destruct b' | split; cbn | done | done | done].
  - intros k e' [Hne He']%lookup_delete_Some. eapply Hstay; eauto.
  - intros t' c Hc. destruct (Hidx _ _ Hc) as (Hne & c0 & Hc0 & ->). split; [done|].
    apply list.NoDup_filter. by destruct (Hb _ _ Hc0).
  - intros t' c k Hc Hkin. destruct (Hidx _ _ Hc) as (_ & c0 & Hc0 & ->).
    apply list_elem_of_filter in Hkin as [Hne Hkin]. destruct (Hk _ _ _ Hc0 Hkin) as (e' & ? & ?).
    exists e'. by rewrite lookup_delete_ne.
  - rewrite map_size_delete_Some by (by exists e). lia.
Qed.

Lemma tsm_update_value_wf m now key f : tsm_wf m -> tsm_wf (tsm_update_value m now key f).
Proof.
  intros Hwf. pose proof Hwf as [He Hb Hk Hsz]. unfold tsm_update_value, tsm_get_entry.
  destruct (tsm_entries m !! key) as [e|] eqn:Hkey; [|done]. destruct (is_live e now); [|done].
  split; cbn.
  - intros k e' [[<- <-]|[_ He']]%lookup_insert_Some; cbn; eauto.
  - done.
  - intros t b k Hb' Hin. destruct (Hk _ _ _ Hb' Hin) as (e' & He' & Ht).
    destruct (decide (k = key)) as [->|Hne].
    + rewrite lookup_insert_eq. eexists. split; [done|]. cbn. congruence.
    + exists e'. by rewrite lookup_insert_ne.
  - by rewrite map_size_insert_Some by (by exists e).
Qed.

(** ** Snapshots *)
Lemma filter_concat_buckets (g : K -> option Z) (t : Z) (L : list (Z * list K)) :
  (forall t' b k, (t', b) ∈ L -> k ∈ b -> g k = Some t') -> NoDup L.*1 ->
  (forall b, (t, b) ∈ L -> filter (fun k => g k = Some t) (concat L.*2) = b) /\
  (t ∉ L.*1 -> filter (fun k => g k = Some t) (concat L.*2) = []).
Proof.
  induction L as [|[t0 b0] L IH]; intros Hg Hnd; cbn.
  { split; [by intros b ?%not_elem_of_nil | done]. }
  apply NoDup_cons in Hnd as [Hnin Hnd].
  destruct (IH (fun t' b k Hin => Hg t' b k (list_elem_of_further _ _ _ Hin)) Hnd) as [IH1 IH2].
  assert (forall k, k ∈ b0 -> g k = Some t0) as Hb0 by (intros; eapply Hg; [left | done]).
  rewrite filter_app. destruct (decide (t0 = t)) as [->|Hne].
  - assert (filter (fun k => g k = Some t) b0 = b0) as -> by (apply filter_all; done).
    rewrite IH2 by done. rewrite app_nil_r. split.
    + intros b [[= ->]|Hin]%elem_of_cons; [done|]. destruct Hnin.
      by apply (list_elem_of_fmap_2 fst) in Hin.
    + intros Hn. destruct Hn. by left.
  - assert (filter (fun k => g k = Some t) b0 = []) as ->.
    { apply filter_none. intros k Hin Hk. rewrite (Hb0 _ Hin) in Hk. congruence. }
    cbn. split.
    + intros b [[= -> ->]|Hin]%elem_of_cons; [done | by apply IH1].
    + intros Hn. apply IH2. intros Hin. apply Hn. by right.
Qed.

Definition expiry_of (m : TimedSizedMap) (k : K) : option Z := entry_expires_at <$> tsm_entries m !! k.

Lemma indexed_expiry m t b k :
  tsm_wf m -> (t, b) ∈ btree_iter (tsm_by_expiry m) -> k ∈ b -> expiry_of m k = Some t.
Proof.
  intros Hwf Hb%elem_of_btree_iter Hin. destruct (tsm_wf_key m Hwf _ _ _ Hb Hin) as (e & He & <-).
  unfold expiry_of. by rewrite He.
Qed.

Lemma elem_of_order m k :
  tsm_wf m -> k ∈ concat (btree_values (tsm_by_expiry m)) <-> is_Some (tsm_entries m !! k).
Proof.
  intros Hwf. rewrite elem_of_list_concat. split.
  - intros (b & Hin & [t Hb]%elem_of_btree_values). destruct (tsm_wf_key m Hwf _ _ _ Hb Hin) as (e & ? & _).
    by exists e.
  - intros [e He]. destruct (tsm_wf_entry m Hwf _ _ He) as (b & Hb & Hin). exists b.
    split; [done|]. apply elem_of_btree_values. by eexists.
Qed.

Lemma NoDup_order m : tsm_wf m -> NoDup (concat (btree_values (tsm_by_expiry m))).
Proof.
  intros Hwf. unfold btree_values.
  assert (forall t b k, (t, b) ∈ btree_iter (tsm_by_expiry m) -> k ∈ b -> expiry_of m k = Some t) as Hg
    by (intros; by eapply indexed_expiry).
  assert (forall t b, (t, b) ∈ btree_iter (tsm_by_expiry m) -> NoDup b) as Hb
    by (intros t b Hin%elem_of_btree_iter; by destruct (tsm_wf_bucket m Hwf _ _ Hin)).
  pose proof (NoDup_btree_keys (tsm_by_expiry m)) as Hnd. unfold btree_keys in Hnd.
  induction (btree_iter (tsm_by_expiry m)) as [|[t b] L IH]; cbn in *; [constructor|].
  apply NoDup_cons in Hnd as [Hnin Hnd]. apply NoDup_app. split_and!.
  - eapply Hb. left.
  - intros k Hk Hin. apply elem_of_list_concat in Hin as (b' & Hk' & Hb').
    apply list_elem_of_fmap in Hb' as ([t' b''] & -> & Hb'). cbn in *.
    pose proof (Hg t b k (list_elem_of_here _ _) Hk) as H1.
    pose proof (Hg t' b'' k (list_elem_of_further _ _ _ Hb') Hk') as H2.
    assert (t = t') as <- by congruence. apply Hnin. by apply (list_elem_of_fmap_2 fst) in Hb'.
  - apply IH; [intros; eapply Hg; [by right | done] | intros; eapply Hb; by right | done].
Qed.

Lemma tsm_iter_by_expiry_spec m :
  tsm_wf m -> exists l, tsm_iter_by_expiry m = Done l /\
    l.*1 = concat (btree_values (tsm_by_expiry m)) /\
    (forall k e, (k, e) ∈ l <-> tsm_entries m !! k = Some e).
Proof.
  intros Hwf. unfold tsm_iter_by_expiry.
  assert (forall order, (forall k, k ∈ order -> is_Some (tsm_entries m !! k)) ->
    exists l, traverse (fun key =>
      entry ← expect (tsm_entries m !! key) "BUG: every indexed key has an entry"; Done (key, entry)) order = Done l /\
      l.*1 = order /\ (forall k e, (k, e) ∈ l <-> k ∈ order /\ tsm_entries m !! k = Some e)) as Hgen.
  { induction order as [|k order IH]; intros Hall; cbn.
    - exists []. split_and!; [done..|]. intros. rewrite !elem_of_nil. naive_solver.
    - destruct (Hall k (list_elem_of_here _ _)) as [e He]. rewrite He. cbn.
      destruct IH as (l & -> & <- & Hl); [intros; apply Hall; by right|]. cbn.
      exists ((k, e) :: l). split_and!; [done..|]. intros k' e'. rewrite !elem_of_cons, Hl. naive_solver. }
  destruct (Hgen (concat (btree_values (tsm_by_expiry m)))) as (l & -> & Hk & Hl).
  { intros. by apply elem_of_order. }
  exists l. split_and!; [done..|]. intros k e. rewrite Hl, elem_of_order by done. naive_solver.
Qed.

(** The keys an ordered snapshot lists under one expiry. *)
Definition keys_expiring_at (t : Z) (l : list (K * Entry V)) : list K :=
  (filter (fun p => entry_expires_at p.2 = t) l).*1.

Lemma from_ordered_entries_loop (l : list (K * Entry V)) : forall m,
  NoDup l.*1 -> (forall k, k ∈ l.*1 -> tsm_entries m !! k = None) ->
  exists m', foreach (fun m '(key, entry) =>
      let m := tsm_enqueue_by_expiry m key (entry_expires_at entry) in
      assert_ (bool_decide (tsm_entries m !! key = None))
        "BUG: from_ordered_entries received a duplicate key";;
      Done (m <| tsm_entries ::= insert key entry |>)) m l = Done m' /\
    tsm_ttl m' = tsm_ttl m /\ tsm_capacity m' = tsm_capacity m /\
    (forall k e, tsm_entries m' !! k = Some e <-> (k, e) ∈ l \/ tsm_entries m !! k = Some e) /\
    (forall t, tsm_by_expiry m' !! t = match keys_expiring_at t l with
      | [] => tsm_by_expiry m !! t
      | ks => Some (default [] (tsm_by_expiry m !! t) ++ ks) end).
Proof.
  induction l as [|[k e] l IH]; intros m Hnd Hnone; cbn [foreach].
  { exists m. split_and!; try done. intros. rewrite elem_of_nil. naive_solver. }
  cbn in Hnd. apply NoDup_cons in Hnd as [Hnin Hnd]. cbn zeta.
  assert (tsm_entries m !! k = None) as Hk by (apply Hnone; left).
  unfold tsm_enqueue_by_expiry. cbn. rewrite bool_decide_true by done. cbn.
  destruct (IH (mkTsm (tsm_ttl m) (tsm_capacity m) (<[k:=e]> (tsm_entries m))
    (<[entry_expires_at e := default [] (tsm_by_expiry m !! entry_expires_at e) ++ [k]]> (tsm_by_expiry m))) Hnd)
    as (m' & Hrun & Httl & Hcap & Hent & Hidx).
  { intros k' Hk'. cbn. rewrite lookup_insert_ne by congruence. apply Hnone. by right. }
  exists m'. split_and!; [exact Hrun | done | done | |].
  - intros k' e'. rewrite Hent. cbn. rewrite elem_of_cons, lookup_insert_Some. split.
    + intros [?|[[<- <-]|[? ?]]]; auto.
    + intros [[[= -> ->]|?]|Hm]; auto. right. right. split; [|done]. intros ->. congruence.
  - intros t. rewrite Hidx. cbn [tsm_by_expiry]. unfold keys_expiring_at.
    destruct (decide (entry_expires_at e = t)) as [<-|Hne].
    + rewrite lookup_insert_eq. rewrite fmap_cons. cbn [fst].
      destruct ((filter _ l).*1); cbn; [done|]. by rewrite <- app_assoc.
    + by rewrite lookup_insert_ne.
Qed.

Lemma tsm_snapshot_roundtrip m :
  tsm_wf m -> exists l, tsm_iter_by_expiry m = Done l /\
    tsm_from_ordered_entries (tsm_ttl m) (tsm_capacity m) l = Done m.
Proof.
  intros Hwf. destruct (tsm_iter_by_expiry_spec m Hwf) as (l & -> & Hkeys & Hl). exists l. split; [done|].
  destruct (from_ordered_entries_loop l (tsm_new (tsm_ttl m) (tsm_capacity m)))
    as (m' & Hrun & Httl & Hcap & Hent & Hidx).
  { rewrite Hkeys. by apply NoDup_order. }
  { done. }
  etrans; [exact Hrun|]. f_equal. destruct m' as [ttl cap ents idx], m as [ttl0 cap0 ents0 idx0].
  cbn in *. subst. f_equal.
  - apply map_eq. intros k. apply option_eq. intros e. rewrite Hent, Hl, lookup_empty. naive_solver.
  - apply map_eq. intros t. rewrite Hidx.
    assert (keys_expiring_at t l = default [] (idx0 !! t)) as ->.
    2: { rewrite lookup_empty. destruct (idx0 !! t) as [b|] eqn:Hb; [|done]. cbn.
         destruct (tsm_wf_bucket _ Hwf t b Hb) as [Hne _]. by destruct b. }
    set (m := mkTsm ttl0 cap0 ents0 idx0) in *.
    assert (keys_expiring_at t l = filter (fun k => expiry_of m k = Some t) l.*1) as ->.
    { unfold keys_expiring_at. assert (forall p, p ∈ l -> expiry_of m p.1 = Some (entry_expires_at p.2)) as Hexp.
      { intros [k e] Hin%Hl. unfold expiry_of. cbn. by rewrite Hin. }
      clear -Hexp. induction l as [|p l IH]; [done|]. rewrite fmap_cons, !filter_cons.
      rewrite (Hexp p (list_elem_of_here _ _)).
      specialize (IH (fun p Hp => Hexp p (list_elem_of_further _ _ _ Hp))).
      destruct (decide (entry_expires_at p.2 = t)); destruct (decide (Some (entry_expires_at p.2) = Some t)); try congruence.
      cbn. by rewrite IH. }
    rewrite Hkeys. unfold btree_values.
    destruct (filter_concat_buckets (expiry_of m) t (btree_iter idx0)) as [Hsome Hnone].
    { intros t' b k Hin Hk. by eapply (indexed_expiry m). }
    { apply NoDup_btree_keys. }
    destruct (idx0 !! t) as [b|] eqn:Hb; cbn.
    + apply Hsome. by apply elem_of_btree_iter.
    + apply Hnone. intros Hin. apply elem_of_btree_keys in Hin as [? ?]. congruence.
Qed.
End TimedSizedMap.
Arguments TimedSizedMap K V {_ _}.

(** ** Claims *)

(** The mutating operations of the map, each with the time it is called at. *)
Inductive tsm_op (K V : Type) : Type :=
  | TsmInsert (now : Timestamp) (key : K) (value : V)
  | TsmInsertEntry (now : Timestamp) (key : K) (entry : Entry V)
  | TsmUpdate (now : Timestamp) (key : K) (f : V -> V)
  | TsmEvict (now : Timestamp)
  | TsmRemove (key : K).
Arguments TsmInsert {K V}.
Arguments TsmInsertEntry {K V}.
Arguments TsmUpdate {K V}.
Arguments TsmEvict {K V}.
Arguments TsmRemove {K V}.

Definition tsm_run_op `{Countable K} {V} (m : TimedSizedMap K V) (op : tsm_op K V)
    : outcome (TimedSizedMap K V) :=
  match op with
  | TsmInsert now key value => '(m, _) ← tsm_insert m now key value; Done m
  | TsmInsertEntry now key entry => '(m, _) ← tsm_insert_entry m now key entry; Done m
  | TsmUpdate now key f => Done (tsm_update_value m now key f)
  | TsmEvict now => '(m, _) ← tsm_evict_expired m now; Done m
  | TsmRemove key => '(m, _) ← tsm_remove m key; Done m
  end.

Lemma tsm_run_op_wf `{Countable K} {V} (m : TimedSizedMap K V) op :
  tsm_wf m -> exists m', tsm_run_op m op = Done m' /\ tsm_wf m' /\ tsm_capacity m' = tsm_capacity m.
Proof.
  intros Hwf. destruct op as [now k v|now k e|now k f|now|k]; cbn [tsm_run_op]; try unfold tsm_insert.
  - destruct (tsm_insert_entry_spec m now k (mkEntry v (tsm_expiry m now)) Hwf) as (m' & r & -> & ? & _ & ? & _). by exists m'.
  - destruct (tsm_insert_entry_spec m now k e Hwf) as (m' & r & -> & ? & _ & ? & _). by exists m'.
  - eexists. split_and!; [done | by apply tsm_update_value_wf |].
    unfold tsm_update_value. by destruct (tsm_get_entry m now k).
  - destruct (tsm_evict_expired_spec m now Hwf) as (m' & l & -> & ? & _ & ? & _). by exists m'.
  - destruct (tsm_remove_spec m k Hwf) as (m' & -> & ? & _ & ? & _). by exists m'.
Qed.

Lemma tsm_run_ops_wf `{Countable K} {V} (ops : list (tsm_op K V)) : forall m,
  tsm_wf m -> exists m', foreach tsm_run_op m ops = Done m' /\ tsm_wf m' /\ tsm_capacity m' = tsm_capacity m.
Proof.
  induction ops as [|op ops IH]; intros m Hwf; cbn; [by exists m|].
  destruct (tsm_run_op_wf m op Hwf) as (m1 & -> & Hwf1 & Hcap1). cbn.
  destruct (IH m1 Hwf1) as (m2 & ? & ? & ?). exists m2. split_and!; [done..|congruence].
Qed.

(** C37: No sequence of operations, at whatever times they are called, makes a
    timed map panic: none of its "BUG" expectations can fail, the eviction
    loop terminates, and the map never exceeds its capacity. *)
Theorem tsm_never_panics `{Countable K} {V} (ttl : Duration) (capacity : nat) (ops : list (tsm_op K V)) :
  exists m, foreach tsm_run_op (tsm_new ttl capacity) ops = Done m /\
    tsm_wf m /\ (tsm_len m <= capacity)%nat.
Proof.
  destruct (tsm_run_ops_wf ops _ (tsm_new_wf ttl capacity)) as (m & Hrun & Hwf & Hcap).
  exists m. split_and!; [done..|]. pose proof (tsm_wf_size m Hwf) as Hs. rewrite Hcap in Hs. exact Hs.
Qed.

(** Every branch of [insert_entry] on a well-formed map: an expired entry
    is ignored; a key with a live entry is rejected and the map left as it
    is; otherwise the expired entries are evicted and returned, and the entry
    is admitted, its expiry clamped to [ttl] from now, if and only if fewer
    than [capacity] live entries are left. A live entry is never evicted. *)
Theorem tsm_insert_entry_branches `{Countable K} {V} (m : TimedSizedMap K V) now key (entry : Entry V) :
  tsm_wf m ->
  exists m' r, tsm_insert_entry m now key entry = Done (m', r) /\
    (forall k, k <> key -> tsm_get_entry m' now k = tsm_get_entry m now k) /\
    match r with
    | Err (AlreadyPresent k v) =>
        k = key /\ v = entry_value entry /\ m' = m /\ is_Some (tsm_get m now key)
    | Err (AtCapacity k v) =>
        k = key /\ v = entry_value entry /\ tsm_get m now key = None /\
        (tsm_capacity m <= size (live_entries now (tsm_entries m)))%nat
    | Ok evicted =>
        if is_live entry now then
          evicted_pairs now m evicted /\ tsm_get m now key = None /\
          (size (live_entries now (tsm_entries m)) < tsm_capacity m)%nat /\
          tsm_entries m' !! key =
            Some (mkEntry (entry_value entry) (Z.min (entry_expires_at entry) (tsm_expiry m now)))
        else m' = m /\ evicted = []
    end.
Proof.
  intros Hwf. destruct (tsm_insert_entry_spec m now key entry Hwf)
    as (m' & r & Hrun & Hwf' & _ & _ & Hcases). exists m', r. split; [done|].
  assert (forall k, k <> key -> live_entries now (tsm_entries m') !! k = live_entries now (tsm_entries m) !! k) as Hother.
  { intros k Hne. assert (live_entries now (live_entries now (tsm_entries m)) = live_entries now (tsm_entries m)) as Hidem.
    { apply map_filter_id. by intros i x [_ ?]%map_lookup_filter_Some. }
    destruct Hcases as [(_ & -> & _)|[(_ & _ & -> & _)|[(_ & _ & _ & -> & _)|(_ & _ & _ & -> & _)]]]; [done|done|by rewrite Hidem|].
    rewrite <- Hidem at 2. unfold live_entries at 1 3. apply option_eq. intros e.
    by rewrite !map_lookup_filter_Some, lookup_insert_ne. }
  split.
  { intros k Hne. apply option_eq. intros e. by rewrite !tsm_get_entry_live, Hother. }
  destruct Hcases as [(-> & -> & ->)|[(-> & Hs & -> & ->)|[(-> & Hn & Hc & _ & ->)|(-> & Hn & Hc & Hm & ev & -> & Hev)]]].
  - done.
  - done.
  - done.
  - split_and!; [done..|]. by rewrite Hm, lookup_insert_eq.
Qed.

Lemma tsm_insert_entry_branches_witness :
  exists m' r, tsm_insert_entry (tsm_new 10 1 : TimedSizedMap Z Z) 5 1 (mkEntry 7 100) = Done (m', r) /\
    tsm_entries m' !! 1 = Some (mkEntry 7 15).
Proof.
  destruct (tsm_insert_entry_branches (tsm_new 10 1 : TimedSizedMap Z Z) 5 1 (mkEntry 7 100) (tsm_new_wf 10 1))
    as (m' & r & Hrun & _ & Hr).
  exists m', r. split; [exact Hrun|]. vm_compute in Hrun. injection Hrun as <- <-. reflexivity.
Defined.

(** Rebuilding a map from the entries listed by expiry gives back the very
    same map, index included, so a snapshot taken before an upgrade loses
    nothing. *)
Theorem tsm_ordered_entries_roundtrip `{Countable K} {V} (m : TimedSizedMap K V) :
  tsm_wf m ->
  exists l, tsm_iter_by_expiry m = Done l /\
    tsm_from_ordered_entries (tsm_ttl m) (tsm_capacity m) l = Done m.
Proof. apply tsm_snapshot_roundtrip. Qed.

Lemma tsm_ordered_entries_roundtrip_witness :
  exists m l, foreach tsm_run_op (tsm_new 10 3 : TimedSizedMap Z Z) [TsmInsert 5 2 7; TsmInsert 3 1 8; TsmInsert 5 0 9] = Done m /\
    tsm_iter_by_expiry m = Done l /\ l = [(1, mkEntry 8 13); (2, mkEntry 7 15); (0, mkEntry 9 15)] /\
    tsm_from_ordered_entries (tsm_ttl m) (tsm_capacity m) l = Done m.
Proof.
  destruct (tsm_run_ops_wf [TsmInsert 5 2 7; TsmInsert 3 1 8; TsmInsert 5 0 9] _ (tsm_new_wf 10 3)) as (m & Hrun & Hwf & _).
  destruct (tsm_ordered_entries_roundtrip m Hwf) as (l & Hl & Hback).
  exists m, l. split; [exact Hrun|]. vm_compute in Hrun. injection Hrun as <-. vm_compute in Hl. injection Hl as <-.
  repeat split; exact Hback.
Defined.
