(* ===== verification/Watchlist.v ===== *)
(** [Watchlist] of minter/src/state/watchlist: the deposit addresses
    registered for the automatic deposit flow, each watched for a window of
    24 hours and scanned on a fixed schedule of slots. *)
From S2P Require Import Prelude Platform TimedSizedMap.

Definition secs (n : Z) : Duration := n * 1000000000.

Definition WATCH_WINDOW : Duration := secs 86400.
Definition MAX_WATCHED_ADDRESSES : nat := 1000.
Definition BURST_SCAN_SLOTS : list Duration :=
  secs <$> [0; 60; 120; 240; 360; 600; 900; 1200; 1500; 1800].
Definition STEADY_SCAN_GAP : Duration := secs 3600.

Fixpoint take_while {A} (P : A -> bool) (l : list A) : list A :=
  match l with
  | [] => []
  | x :: l => if P x then x :: take_while P l else []
  end.

(** [(1..).map(|gaps| last_burst_slot + STEADY_SCAN_GAP * gaps)], cut after [n] items. *)
Fixpoint steady_slots (n : nat) (gaps : Z) : list Duration :=
  match n with
  | O => []
  | S n => secs 1800 + STEADY_SCAN_GAP * gaps :: steady_slots n (gaps + 1)
  end.

(** The steady slots are an infinite iterator; [scan_slots_stable] shows that
    cutting it after 24 items loses no slot of the window. *)
Definition scan_slots_upto (n : nat) : list Duration :=
  take_while (fun slot => slot <=? WATCH_WINDOW) (BURST_SCAN_SLOTS ++ steady_slots n 1).
Definition scan_slots : list Duration := scan_slots_upto 24.

Record ScanProgress := mkScanProgress {
  sp_address : Address;
  sp_scheduled_from : Timestamp;
  sp_scan_count : Z;
  sp_last_scanned_at : option Timestamp
}.

Definition sp_unscanned (address : Address) (scheduled_from : Timestamp) : ScanProgress :=
  mkScanProgress address scheduled_from 0 None.

Definition next_scan_at (p : ScanProgress) (valid_until : Timestamp) : option Timestamp :=
  let slots := take_while (fun slot_at => slot_at <=? valid_until)
    ((fun slot => timestamp_saturating_add (sp_scheduled_from p) slot) <$> scan_slots) in
  match sp_last_scanned_at p with
  | None => head slots
  | Some last_scanned_at => head (filter (fun slot_at => last_scanned_at < slot_at) slots)
  end.

Record WatchedAddress := mkWatchedAddress {
  wa_account : Account;
  wa_address : Address;
  wa_valid_until : Timestamp;
  wa_scan_count : Z;
  wa_last_scanned_at : option Timestamp;
  wa_next_scan_at : option Timestamp
}.

Inductive WatchlistFull : Type := watchlist_full.

Record Watchlist := mkWatchlist { wl_entries : TimedSizedMap Account ScanProgress }.

Definition watchlist_default : Watchlist :=
  mkWatchlist (tsm_new WATCH_WINDOW MAX_WATCHED_ADDRESSES).

Definition wl_watched (account : Account) (entry : Entry ScanProgress) : WatchedAddress :=
  let progress := entry_value entry in
  mkWatchedAddress account (sp_address progress) (entry_expires_at entry) (sp_scan_count progress)
    (sp_last_scanned_at progress) (next_scan_at progress (entry_expires_at entry)).

Definition wl_get (w : Watchlist) (now : Timestamp) (account : Account) : option WatchedAddress :=
  wl_watched account <$> tsm_get_entry (wl_entries w) now account.

Definition wl_register (w : Watchlist) (now : Timestamp) (account : Account) (address : Address)
    : outcome (Watchlist * result WatchedAddress WatchlistFull) :=
  '(entries, r) ← tsm_insert (wl_entries w) now account (sp_unscanned address now);
  let w := mkWatchlist entries in
  match r with
  | Ok _ | Err (AlreadyPresent _ _) =>
      watched ← expect (wl_get w now account) "BUG: a registration is live right after its insertion";
      Done (w, Ok watched)
  | Err (AtCapacity _ _) => Done (w, Err watchlist_full)
  end.

Definition wl_remove (w : Watchlist) (account : Account) : outcome Watchlist :=
  '(entries, _) ← tsm_remove (wl_entries w) account;
  Done (mkWatchlist entries).

Definition watched_list (entries : list (Account * Entry ScanProgress)) : list WatchedAddress :=
  (fun p => wl_watched p.1 p.2) <$> entries.

Definition live_list (now : Timestamp) (entries : list (Account * Entry ScanProgress))
    : list (Account * Entry ScanProgress) :=
  filter (fun p => is_live p.2 now = true) entries.

Definition wl_live (w : Watchlist) (now : Timestamp) : outcome (list WatchedAddress) :=
  entries ← tsm_iter_by_expiry (wl_entries w);
  Done (watched_list (live_list now entries)).

Definition is_due (now : Timestamp) (w : WatchedAddress) : bool :=
  match wa_next_scan_at w with Some due_at => due_at <=? now | None => false end.

Definition due_list (now : Timestamp) (live : list WatchedAddress) : list WatchedAddress :=
  filter (fun watched => is_due now watched = true) live.

Definition wl_due (w : Watchlist) (now : Timestamp) : outcome (list WatchedAddress) :=
  live ← wl_live w now;
  Done (due_list now live).

Definition wl_record_scan (w : Watchlist) (now : Timestamp) (account : Account) : Watchlist :=
  mkWatchlist (tsm_update_value (wl_entries w) now account (fun progress =>
    mkScanProgress (sp_address progress) (sp_scheduled_from progress)
      (Z.min u32_max (sp_scan_count progress + 1)) (Some now))).

Definition wl_evict_expired (w : Watchlist) (now : Timestamp) : outcome (Watchlist * nat) :=
  '(entries, evicted) ← tsm_evict_expired (wl_entries w) now;
  Done (mkWatchlist entries, length evicted).

Definition wl_iter (w : Watchlist) : outcome (list WatchedAddress) :=
  entries ← tsm_iter_by_expiry (wl_entries w);
  Done (watched_list entries).

Definition wl_len (w : Watchlist) : nat := tsm_len (wl_entries w).

Definition wl_live_len (w : Watchlist) (now : Timestamp) : outcome nat :=
  live ← wl_live w now; Done (length live).

Definition wl_registered_at (w : Watchlist) (valid_until : Timestamp) : Timestamp :=
  timestamp_saturating_sub valid_until (tsm_ttl (wl_entries w)).

Definition wl_oldest_registered_at (w : Watchlist) (now : Timestamp) : outcome (option Timestamp) :=
  live ← wl_live w now;
  Done (list_min (map (fun watched => wl_registered_at w (wa_valid_until watched)) live)).

Record wl_wf (w : Watchlist) : Prop := {
  wl_wf_map : tsm_wf (wl_entries w);
  wl_wf_ttl : tsm_ttl (wl_entries w) = WATCH_WINDOW;
  wl_wf_capacity : tsm_capacity (wl_entries w) = MAX_WATCHED_ADDRESSES
}.

(** ** The schedule *)
Lemma take_while_app_stop {A} (P : A -> bool) l x r :
  P x = false -> take_while P (l ++ x :: r) = take_while P l.
Proof. intros Hx. induction l as [|y l IH]; cbn; [by rewrite Hx|]. destruct (P y); [by rewrite IH | done]. Qed.

Lemma steady_slots_app n m gaps :
  steady_slots (n + m) gaps = steady_slots n gaps ++ steady_slots m (gaps + Z.of_nat n).
Proof.
  revert gaps; induction n as [|n IH]; intros gaps; cbn [plus steady_slots app].
  - f_equal. lia.
  - f_equal. rewrite IH. do 2 f_equal. lia.
Qed.

(** Cutting the infinite sequence of steady slots after 24 or more items
    gives the same schedule. *)
Lemma scan_slots_stable n : (24 <= n)%nat -> scan_slots_upto n = scan_slots.
Proof.
  intros Hn. replace n with (24 + (n - 24))%nat by lia. unfold scan_slots, scan_slots_upto.
  rewrite steady_slots_app. destruct (n - 24)%nat as [|k]; [by rewrite app_nil_r|].
  cbn [steady_slots]. rewrite app_assoc, take_while_app_stop; done.
Qed.

Lemma elem_of_take_while {A} (P : A -> bool) l x : x ∈ take_while P l -> x ∈ l /\ P x = true.
Proof.
  induction l as [|y l IH]; cbn; [by intros ?%not_elem_of_nil|].
  destruct (P y) eqn:Hy; [|by intros ?%not_elem_of_nil].
  intros [->|Hx]%elem_of_cons; [split; [left | done]|]. destruct (IH Hx). split; [by right | done].
Qed.

Lemma take_while_sorted_complete l x b :
  StronglySorted Z.le l -> x ∈ l -> x <= b -> x ∈ take_while (fun y => y <=? b) l.
Proof.
  induction 1 as [|y l Hl IH Hy]; cbn; [done|]. rewrite Forall_forall in Hy.
  intros [->|Hx]%elem_of_cons Hb.
  - rewrite (proj2 (Z.leb_le _ _)) by done. left.
  - specialize (Hy x Hx). rewrite (proj2 (Z.leb_le _ _)) by lia. right. by apply IH.
Qed.

Lemma take_while_sorted {A} (R : A -> A -> Prop) (P : A -> bool) l :
  StronglySorted R l -> StronglySorted R (take_while P l).
Proof.
  induction 1 as [|y l Hl IH Hy]; cbn; [constructor|]. destruct (P y); constructor; [done|].
  rewrite Forall_forall in *. intros x [Hx _]%elem_of_take_while. by apply Hy.
Qed.

(** The instants at which an address scheduled from [t] is to be scanned. *)
Definition schedule (t : Timestamp) : list Timestamp :=
  (fun slot => timestamp_saturating_add t slot) <$> scan_slots.

Lemma scan_slots_sorted : StronglySorted Z.lt scan_slots /\ Forall (fun s => 0 <= s <= WATCH_WINDOW) scan_slots /\
  length scan_slots = 33%nat.
Proof.
  split_and!; [|apply Forall_forall; intros x Hx|reflexivity].
  - vm_compute. repeat (constructor; [|repeat (constructor; [done|]); constructor]). constructor.
  - assert (forallb (fun s => (0 <=? s) && (s <=? WATCH_WINDOW)) scan_slots = true) as Hall by reflexivity.
    rewrite forallb_forall in Hall. apply list_elem_of_In, Hall in Hx. lia.
Qed.

Lemma nanos_small d : d <= WATCH_WINDOW -> nanos d = d.
Proof. unfold nanos, WATCH_WINDOW, secs, u64_modulus. intros. rewrite (proj2 (Z.ltb_lt _ _)); lia. Qed.

Lemma schedule_sorted t : StronglySorted Z.le (schedule t).
Proof.
  unfold schedule. destruct scan_slots_sorted as (Hs & Hr & _).
  induction Hs as [|x l Hl IH Hx]; cbn; [constructor|].
  inversion Hr as [|? ? Hx0 Hr']; subst. constructor; [by apply IH|].
  rewrite Forall_forall in *. intros y Hy. apply list_elem_of_fmap in Hy as (z & -> & Hz).
  specialize (Hx z Hz). specialize (Hr' z Hz). cbn in *.
  unfold timestamp_saturating_add, saturating_add. rewrite !nanos_small by lia. lia.
Qed.

Lemma head_filter_spec (P : Z -> Prop) `{!forall x, Decision (P x)} l x :
  StronglySorted Z.le l -> head (filter P l) = Some x ->
  x ∈ l /\ P x /\ forall y, y ∈ l -> P y -> x <= y.
Proof.
  induction 1 as [|z l Hl IH Hz]; [done|]. rewrite filter_cons. rewrite Forall_forall in Hz.
  case_decide as HP; cbn.
  - intros [= ->]. split_and!; [left | done|]. intros y [->|Hy]%elem_of_cons _; [lia | by apply Hz].
  - intros Hx. destruct (IH Hx) as (? & ? & Hmin). split_and!; [by right | done|].
    intros y [->|Hy]%elem_of_cons HPy; [done | by apply Hmin].
Qed.

Lemma head_filter_None {A} (P : A -> Prop) `{!forall x, Decision (P x)} l :
  head (filter P l) = None -> forall y, y ∈ l -> ~ P y.
Proof.
  induction l as [|z l IH]; [by intros _ y ?%not_elem_of_nil|]. rewrite filter_cons.
  case_decide; cbn; [done|]. intros Hh y [->|Hy]%elem_of_cons; [done | by apply IH].
Qed.

(** Whether an instant lies after the last scan. *)
Definition after_last_scan (p : ScanProgress) (t : Timestamp) : Prop :=
  match sp_last_scanned_at p with None => True | Some last => last < t end.

Lemma next_scan_at_Some p v t :
  next_scan_at p v = Some t ->
  t ∈ schedule (sp_scheduled_from p) /\ t <= v /\ after_last_scan p t /\
  forall t', t' ∈ schedule (sp_scheduled_from p) -> t' <= v -> after_last_scan p t' -> t <= t'.
Proof.
  unfold next_scan_at, after_last_scan. fold (schedule (sp_scheduled_from p)).
  pose proof (schedule_sorted (sp_scheduled_from p)) as Hs.
  set (l := take_while _ _). pose proof (take_while_sorted _ (fun s => s <=? v) _ Hs : StronglySorted Z.le l) as Hl.
  assert (forall t', t' ∈ schedule (sp_scheduled_from p) -> t' <= v -> t' ∈ l) as Hin
    by (intros; by apply take_while_sorted_complete).
  assert (forall t', t' ∈ l -> t' ∈ schedule (sp_scheduled_from p) /\ t' <= v) as Hout
    by (intros t' [? ?%Z.leb_le]%elem_of_take_while; done).
  destruct (sp_last_scanned_at p) as [last|].
  - intros (Hx & HP & Hmin)%head_filter_spec; [|done]. destruct (Hout _ Hx). split_and!; [done..|].
    intros t' Ht' Hv Hlast. apply Hmin; [by apply Hin | done].
  - intros Hh. destruct l as [|x l']; [done|]. injection Hh as ->. inversion Hl as [|? ? _ Hle]; subst.
    destruct (Hout t (list_elem_of_here _ _)). split_and!; [done..|].
    intros t' Ht' Hv _. specialize (Hin t' Ht' Hv). apply elem_of_cons in Hin as [->|Hin]; [lia|].
    rewrite Forall_forall in Hle. by apply Hle.
Qed.

Lemma next_scan_at_None p v :
  next_scan_at p v = None ->
  forall t, t ∈ schedule (sp_scheduled_from p) -> t <= v -> ~ after_last_scan p t.
Proof.
  unfold next_scan_at, after_last_scan. fold (schedule (sp_scheduled_from p)).
  intros Hn t Ht Hv. pose proof (take_while_sorted_complete _ _ _ (schedule_sorted _) Ht Hv) as Hin.
  destruct (sp_last_scanned_at p) as [last|].
  - by apply (head_filter_None _ _ Hn) in Hin.
  - intros _. destruct (take_while _ _); [by apply not_elem_of_nil in Hin | done].
Qed.

(** ** The operations *)
Lemma watchlist_default_wf : wl_wf watchlist_default.
Proof. split; [apply tsm_new_wf | done | done]. Qed.

Lemma window_expiry w now :
  wl_wf w -> is_u64 now ->
  tsm_expiry (wl_entries w) now = Z.min u64_max (now + WATCH_WINDOW) /\
  now <= tsm_expiry (wl_entries w) now.
Proof.
  intros Hwf [H0 Hmax]. unfold tsm_expiry, timestamp_saturating_add, saturating_add.
  rewrite (wl_wf_ttl w Hwf), nanos_small by done.
  unfold u64_max, u64_modulus, WATCH_WINDOW, secs in *. lia.
Qed.

Lemma next_scan_at_unscanned address now v :
  is_u64 now -> now <= v -> next_scan_at (sp_unscanned address now) v = Some now.
Proof.
  intros [H0 Hmax] Hv. unfold next_scan_at. cbn [sp_last_scanned_at sp_unscanned sp_scheduled_from].
  assert (exists l, scan_slots = 0 :: l) as [l ->] by (eexists; vm_compute; reflexivity).
  assert (timestamp_saturating_add now 0 = now) as Hz.
  { unfold timestamp_saturating_add, saturating_add. rewrite nanos_small by done.
    unfold u64_modulus, u64_max in *. lia. }
  cbn [fmap list_fmap take_while]. rewrite Hz, (proj2 (Z.leb_le _ _) Hv). done.
Qed.

(** The registration an account gets when it was not watched. *)
Definition fresh_registration (now : Timestamp) (account : Account) (address : Address)
    : WatchedAddress :=
  mkWatchedAddress account address (Z.min u64_max (now + WATCH_WINDOW)) 0 None (Some now).

Lemma wl_register_spec w now account address :
  wl_wf w -> is_u64 now ->
  exists w' r, wl_register w now account address = Done (w', r) /\ wl_wf w' /\
    (forall a, a <> account -> wl_get w' now a = wl_get w now a) /\
    match wl_get w now account with
    | Some watched => r = Ok watched /\ w' = w
    | None =>
        if bool_decide (size (live_entries now (tsm_entries (wl_entries w))) < MAX_WATCHED_ADDRESSES)%nat
        then r = Ok (fresh_registration now account address) /\
          wl_get w' now account = Some (fresh_registration now account address)
        else r = Err watchlist_full
    end.
Proof.
  intros Hwf Hnow. destruct (window_expiry w now Hwf Hnow) as [Hexp Hle]. destruct w as [m].
  pose proof Hwf as [Hm Httl Hcap]. cbn in *. unfold wl_register, tsm_insert, wl_get. cbn [wl_entries].
  destruct (tsm_insert_entry_spec m now account (mkEntry (sp_unscanned address now) (tsm_expiry m now)) Hm)
    as (m' & r & -> & Hwf' & Httl' & Hcap' & Hcases). cbn [mbind outcome_bind].
  rewrite Hcap in Hcases.
  assert (wl_wf (mkWatchlist m')) as Hww by (split; cbn; [done | congruence | congruence]).
  assert (is_live (mkEntry (sp_unscanned address now) (tsm_expiry m now)) now = true) as Hlive
    by (by apply is_live_true).
  destruct Hcases as [(Hd & _)|[(_ & Hs & -> & ->)|[(_ & Hn & Hc & Hent & ->)|(_ & Hn & Hc & Hent & ev & -> & Hev)]]].
  - congruence.
  - unfold tsm_get in Hs. destruct (tsm_get_entry m now account) as [e|] eqn:He; [|by destruct Hs].
    cbn. eexists _, _. split_and!; done.
  - assert (tsm_get_entry m now account = None) as -> by (unfold tsm_get in Hn; by apply fmap_None in Hn).
    cbn [fmap option_fmap option_map]. rewrite bool_decide_false by lia.
    eexists _, _. split_and!; [done | done | | done]. intros a Hne. f_equal. apply option_eq. intros e.
    cbn [wl_entries]. rewrite !tsm_get_entry_live, Hent. unfold live_entries.
    rewrite map_filter_filter, !map_lookup_filter_Some. naive_solver.
  - assert (tsm_get_entry m now account = None) as -> by (unfold tsm_get in Hn; by apply fmap_None in Hn).
    assert (tsm_get_entry m' now account = Some (mkEntry (sp_unscanned address now) (tsm_expiry m now))) as Hget.
    { unfold tsm_get_entry. rewrite Hent, lookup_insert_eq. cbn [entry_value entry_expires_at].
      rewrite Z.min_id, Hlive. done. }
    rewrite bool_decide_true by lia. cbn. rewrite Hget. cbn.
    assert (wl_watched account (mkEntry (sp_unscanned address now) (tsm_expiry m now)) =
      fresh_registration now account address) as Hfresh.
    { unfold wl_watched, fresh_registration. cbn [entry_value entry_expires_at sp_address sp_scan_count sp_last_scanned_at sp_unscanned].
      rewrite next_scan_at_unscanned by done. by rewrite Hexp. }
    rewrite Hfresh. eexists _, _. split_and!; [done | done | | done | cbn [wl_entries]; by rewrite Hget, <- Hfresh].
    intros a Hne. f_equal. apply option_eq. intros e. cbn [wl_entries]. rewrite !tsm_get_entry_live, Hent.
    unfold live_entries. rewrite !map_lookup_filter_Some, lookup_insert_ne, map_lookup_filter_Some by done. naive_solver.
Qed.

Lemma wl_remove_spec w account :
  wl_wf w -> exists w', wl_remove w account = Done w' /\ wl_wf w' /\
    tsm_entries (wl_entries w') = delete account (tsm_entries (wl_entries w)).
Proof.
  intros [Hm Httl Hcap]. unfold wl_remove.
  destruct (tsm_remove_spec (wl_entries w) account Hm) as (m' & -> & ? & ? & ? & ?). cbn.
  eexists. split_and!; [done | split; cbn; congruence | done].
Qed.

Lemma wl_record_scan_get w now account a :
  wl_get (wl_record_scan w now account) now a =
  if decide (a = account) then
    (fun e => wl_watched account (mkEntry
      (mkScanProgress (sp_address (entry_value e)) (sp_scheduled_from (entry_value e))
        (Z.min u32_max (sp_scan_count (entry_value e) + 1)) (Some now)) (entry_expires_at e)))
      <$> tsm_get_entry (wl_entries w) now account
  else wl_get w now a.
Proof.
  unfold wl_get, wl_record_scan, tsm_update_value. cbn [wl_entries].
  destruct (tsm_get_entry (wl_entries w) now account) as [e|] eqn:He; cbn [fmap option_fmap option_map].
  - unfold tsm_get_entry. cbn. rewrite lookup_insert. destruct (decide (account = a)) as [->|Hne].
    + rewrite decide_True by done. unfold is_live. cbn.
      assert (is_live e now = true) as Hl.
      { unfold tsm_get_entry in He. destruct (tsm_entries _ !! a) as [e'|]; [|done].
        destruct (is_live e' now) eqn:?; [|done]. by injection He as <-. }
      unfold is_live in Hl. rewrite Hl. done.
    + rewrite decide_False by done. done.
  - case_decide as Ha; [subst a; by rewrite He | done].
Qed.

(** ** Claims *)

(** The next scan of a watched address is the earliest slot of its fixed
    schedule that lies after its last scan and not after the end of its
    window; there is none exactly when no such slot is left. A late scan
    therefore neither shifts nor repeats a slot. *)
Theorem next_scan_at_is_earliest_slot p valid_until :
  match next_scan_at p valid_until with
  | Some t =>
      t ∈ schedule (sp_scheduled_from p) /\ t <= valid_until /\ after_last_scan p t /\
      forall t', t' ∈ schedule (sp_scheduled_from p) -> t' <= valid_until -> after_last_scan p t' -> t <= t'
  | None =>
      forall t, t ∈ schedule (sp_scheduled_from p) -> t <= valid_until -> ~ after_last_scan p t
  end.
Proof.
  destruct (next_scan_at p valid_until) as [t|] eqn:Hn;
    [by apply next_scan_at_Some | by apply next_scan_at_None].
Qed.

(** Registering an account never panics. A live registration is returned
    unchanged and not extended; otherwise a fresh one is made for 24 hours
    with its first scan due at once, unless 1000 live registrations are held
    already. No other account's registration is affected. *)
Theorem watchlist_register_behaviour w now account address :
  wl_wf w -> is_u64 now ->
  exists w' r, wl_register w now account address = Done (w', r) /\ wl_wf w' /\
    (forall a, a <> account -> wl_get w' now a = wl_get w now a) /\
    match wl_get w now account with
    | Some watched => r = Ok watched /\ w' = w
    | None =>
        if bool_decide (size (live_entries now (tsm_entries (wl_entries w))) < MAX_WATCHED_ADDRESSES)%nat
        then r = Ok (fresh_registration now account address) /\
          wl_get w' now account = Some (fresh_registration now account address)
        else r = Err watchlist_full
    end.
Proof. apply wl_register_spec. Qed.

Lemma watchlist_register_behaviour_witness :
  exists w', wl_register watchlist_default 1000 (mkAccount [7] []) 42 =
    Done (w', Ok (fresh_registration 1000 (mkAccount [7] []) 42)) /\ wl_wf w'.
Proof.
  destruct (watchlist_register_behaviour watchlist_default 1000 (mkAccount [7] []) 42
    watchlist_default_wf ltac:(unfold is_u64, u64_modulus; lia)) as (w' & r & Hrun & Hwf & _ & Hr).
  exists w'. vm_compute in Hr. destruct Hr as [-> _]. split; [exact Hrun | exact Hwf].
Defined.

(** A recorded scan counts once, leaves the window as it is and moves the
    account to a slot strictly after the scan, so that the account is no
    longer due at that instant; nothing happens to other accounts, nor to an
    account that is not watched any more. *)
Theorem watchlist_record_scan_behaviour w now account :
  wl_wf w ->
  wl_wf (wl_record_scan w now account) /\
  (forall a, a <> account -> wl_get (wl_record_scan w now account) now a = wl_get w now a) /\
  match wl_get w now account, wl_get (wl_record_scan w now account) now account with
  | Some before, Some after =>
      wa_scan_count after = Z.min u32_max (wa_scan_count before + 1) /\
      wa_last_scanned_at after = Some now /\
      wa_valid_until after = wa_valid_until before /\
      is_due now after = false
  | None, None => True
  | _, _ => False
  end.
Proof.
  intros [Hm Httl Hcap]. split_and!.
  - split; cbn; [by apply tsm_update_value_wf | |];
      unfold tsm_update_value; destruct (tsm_get_entry _ now account); cbn; congruence.
  - intros a Hne. by rewrite wl_record_scan_get, decide_False.
  - rewrite wl_record_scan_get, decide_True by done. unfold wl_get.
    destruct (tsm_get_entry (wl_entries w) now account) as [e|]; cbn [fmap option_fmap option_map]; [|done].
    split_and!; try done. unfold is_due, wl_watched. cbn [wa_next_scan_at entry_value entry_expires_at].
    destruct (next_scan_at _ _) as [t|] eqn:Hn; [|done].
    apply next_scan_at_Some in Hn as (_ & _ & Hafter & _). cbn in Hafter. lia.
Qed.

Lemma watchlist_record_scan_behaviour_witness :
  wl_wf (wl_record_scan watchlist_default 5 (mkAccount [7] [])).
Proof. exact (proj1 (watchlist_record_scan_behaviour watchlist_default 5 (mkAccount [7] []) watchlist_default_wf)). Defined.
