(* ===== verification/NoncePool.v ===== *)
(** [DurableNoncePool] of minter/src/state/nonce_pool: the durable nonce
    accounts reserved for withdrawal transactions, each free or bound to one
    in-flight transaction, with the nonce values ever bound to it. *)
From S2P Require Import Prelude Platform.

Inductive NonceAccountState : Type := Free | Bound.

#[export] Instance NonceAccountState_eq_dec : EqDecision NonceAccountState.
Proof. solve_decision. Defined.

Record NonceAccount := mkNonceAccount {
  na_state : NonceAccountState;
  na_seen_nonce_values : gset Hash
}.

Definition na_default : NonceAccount := mkNonceAccount Free ∅.
Definition na_is_free (account : NonceAccount) : bool := bool_decide (na_state account = Free).

Inductive NonceRead : Type := Unchanged | Stale | Advanced.

#[export] Instance NonceRead_eq_dec : EqDecision NonceRead.
Proof. solve_decision. Defined.

Inductive NoncePoolError : Type := DuplicateAccount (address : Address).

Record DurableNoncePool := mkNoncePool { np_accounts : gmap Address NonceAccount }.

Fixpoint np_additions (accounts additions : gmap Address NonceAccount) (addresses : list Address)
    : result (gmap Address NonceAccount) NoncePoolError :=
  match addresses with
  | [] => Ok additions
  | address :: rest =>
      if bool_decide (is_Some (accounts !! address)) || bool_decide (is_Some (additions !! address))
      then Err (DuplicateAccount address)
      else np_additions accounts (<[address := na_default]> additions) rest
  end.

Definition np_add_accounts (pool : DurableNoncePool) (addresses : list Address)
    : result DurableNoncePool NoncePoolError :=
  match np_additions (np_accounts pool) ∅ addresses with
  | Ok additions => Ok (mkNoncePool (additions ∪ np_accounts pool))
  | Err e => Err e
  end.

Definition np_new (addresses : list Address) : result DurableNoncePool NoncePoolError :=
  np_add_accounts (mkNoncePool ∅) addresses.

Definition np_account (pool : DurableNoncePool) (address : Address) : outcome NonceAccount :=
  expect (np_accounts pool !! address) "BUG: nonce account is not in the pool".

Definition np_bind (pool : DurableNoncePool) (address : Address) (nonce_value : Hash)
    : outcome DurableNoncePool :=
  account ← np_account pool address;
  (match na_state account with
   | Free => Done tt
   | Bound => Panic "BUG: nonce account is already bound to an in-flight transaction"
   end);;
  assert_ (bool_decide (nonce_value ∉ na_seen_nonce_values account))
    "BUG: nonce value was already seen";;
  Done (mkNoncePool (<[address := mkNonceAccount Bound
    ({[nonce_value]} ∪ na_seen_nonce_values account)]> (np_accounts pool))).

Definition np_free (pool : DurableNoncePool) (address : Address) : outcome DurableNoncePool :=
  account ← np_account pool address;
  match na_state account with
  | Bound => Done (mkNoncePool (<[address := mkNonceAccount Free (na_seen_nonce_values account)]>
      (np_accounts pool)))
  | Free => Panic "BUG: cannot free nonce account that is not bound"
  end.

Definition np_has_seen (pool : DurableNoncePool) (address : Address) (nonce_value : Hash) : bool :=
  match np_accounts pool !! address with
  | Some account => bool_decide (nonce_value ∈ na_seen_nonce_values account)
  | None => false
  end.

Definition np_classify_read (pool : DurableNoncePool) (address : Address)
    (bound_nonce_value read_nonce_value : Hash) : NonceRead :=
  if read_nonce_value =? bound_nonce_value then Unchanged
  else if np_has_seen pool address read_nonce_value then Stale
  else Advanced.

Definition np_addresses (pool : DurableNoncePool) : list Address := btree_keys (np_accounts pool).

Definition np_contains (pool : DurableNoncePool) (address : Address) : bool :=
  bool_decide (is_Some (np_accounts pool !! address)).

Definition np_is_empty (pool : DurableNoncePool) : bool := bool_decide (np_accounts pool = ∅).

Definition np_free_accounts (pool : DurableNoncePool) : list Address :=
  (filter (fun p => na_is_free p.2 = true) (btree_iter (np_accounts pool))).*1.

Definition np_num_free_accounts (pool : DurableNoncePool) : nat := length (np_free_accounts pool).

(** ** Adding accounts *)
Lemma np_additions_Ok accounts addresses : forall additions res,
  np_additions accounts additions addresses = Ok res <->
  NoDup addresses /\ (forall a, a ∈ addresses -> accounts !! a = None /\ additions !! a = None) /\
  res = fold_left (fun m a => <[a := na_default]> m) addresses additions.
Proof.
  induction addresses as [|a addresses IH]; intros additions res; cbn [np_additions fold_left].
  - split; [intros [= <-]; split_and!; [constructor | by intros ? ?%not_elem_of_nil | done] | naive_solver].
  - destruct (_ || _) eqn:Hdup.
    + split; [done|]. intros (_ & Hin & _). destruct (Hin a (list_elem_of_here _ _)) as [H1 H2].
      rewrite H1, H2, !bool_decide_false in Hdup by (by intros []). done.
    + apply orb_false_iff in Hdup as [H1%bool_decide_eq_false H2%bool_decide_eq_false].
      rewrite <- eq_None_not_Some in H1, H2. rewrite IH, NoDup_cons. split.
      * intros (Hnd & Hin & ->). split_and!; [|done| |done].
        -- intros Ha. destruct (Hin a Ha) as [_ He]. by rewrite lookup_insert_eq in He.
        -- intros a' [->|Ha']%elem_of_cons; [done|]. destruct (Hin a' Ha') as [? He]. split; [done|].
           by apply lookup_insert_None in He as [? _].
      * intros ([Hnin Hnd] & Hin & ->). split_and!; [done| |done]. intros a' Ha'.
        destruct (Hin a') as [? ?]; [by right|]. rewrite lookup_insert_ne by congruence. done.
Qed.

Lemma np_additions_Err accounts addresses : forall additions a,
  np_additions accounts additions addresses = Err (DuplicateAccount a) ->
  a ∈ addresses /\ (is_Some (accounts !! a) \/ is_Some (additions !! a) \/ ~ NoDup addresses).
Proof.
  induction addresses as [|x addresses IH]; intros additions a; cbn [np_additions]; [done|].
  destruct (_ || _) eqn:Hdup.
  - intros [= ->]. split; [left|].
    apply orb_true_iff in Hdup as [H%bool_decide_eq_true|H%bool_decide_eq_true]; eauto.
  - intros (Hin & Hwhy)%IH. split; [by right|]. rewrite NoDup_cons. destruct Hwhy as [?|[Hs|?]].
    + by left.
    + destruct (decide (a = x)) as [->|]; [|rewrite lookup_insert_ne in Hs by done; eauto].
      right; right. naive_solver.
    + right; right. naive_solver.
Qed.

Lemma fold_insert_default addresses : forall (m : gmap Address NonceAccount) a,
  fold_left (fun m a => <[a := na_default]> m) addresses m !! a =
  if decide (a ∈ addresses) then Some na_default else m !! a.
Proof.
  induction addresses as [|x addresses IH]; intros m a; cbn [fold_left].
  - by rewrite decide_False by apply not_elem_of_nil.
  - rewrite IH. destruct (decide (a ∈ addresses)) as [Hin|Hin].
    + rewrite decide_True by (by right). done.
    + rewrite lookup_insert. case_decide as Hx.
      * subst x. rewrite decide_True by left. done.
      * rewrite decide_False by (intros [?|?]%elem_of_cons; congruence). done.
Qed.

Lemma np_add_accounts_Ok pool addresses pool' :
  np_add_accounts pool addresses = Ok pool' <->
  NoDup addresses /\ (forall a, a ∈ addresses -> np_accounts pool !! a = None) /\
  (forall a, np_accounts pool' !! a =
    if decide (a ∈ addresses) then Some na_default else np_accounts pool !! a).
Proof.
  unfold np_add_accounts. destruct (np_additions _ _ _) as [res|e] eqn:Hadd.
  - apply np_additions_Ok in Hadd as (Hnd & Hin & ->). split.
    + intros [= <-]. split_and!; [done | intros; by apply Hin |]. intros a. cbn.
      rewrite lookup_union, fold_insert_default. case_decide; [by rewrite union_Some_l|].
      by rewrite lookup_empty, (left_id_L None (∪)).
    + intros (_ & _ & Hlk). f_equal. destruct pool' as [accs]. f_equal. apply map_eq. intros a. cbn in *.
      rewrite Hlk, lookup_union, fold_insert_default. case_decide; [by rewrite union_Some_l|].
      by rewrite lookup_empty, (left_id_L None (∪)).
  - split; [done|]. intros (Hnd & Hin & _). exfalso.
    assert (np_additions (np_accounts pool) ∅ addresses =
      Ok (fold_left (fun m a => <[a := na_default]> m) addresses ∅)) as Hok.
    { apply np_additions_Ok. split_and!; [done| |done]. intros a Ha. split; [by apply Hin | done]. }
    congruence.
Qed.

(** ** Binding and releasing *)
Lemma np_bind_Done pool a v pool' :
  np_bind pool a v = Done pool' <->
  exists acc, np_accounts pool !! a = Some acc /\ na_state acc = Free /\
    (v ∉ na_seen_nonce_values acc) /\
    pool' = mkNoncePool (<[a := mkNonceAccount Bound ({[v]} ∪ na_seen_nonce_values acc)]> (np_accounts pool)).
Proof.
  unfold np_bind, np_account. destruct (np_accounts pool !! a) as [[st seen]|]; cbn; [|naive_solver].
  destruct st; cbn; [|naive_solver].
  destruct (bool_decide (v ∉ seen)) eqn:Hs; cbn.
  - apply bool_decide_eq_true in Hs. naive_solver.
  - apply bool_decide_eq_false in Hs. naive_solver.
Qed.

Lemma np_free_Done pool a pool' :
  np_free pool a = Done pool' <->
  exists acc, np_accounts pool !! a = Some acc /\ na_state acc = Bound /\
    pool' = mkNoncePool (<[a := mkNonceAccount Free (na_seen_nonce_values acc)]> (np_accounts pool)).
Proof.
  unfold np_free, np_account. destruct (np_accounts pool !! a) as [[st seen]|]; cbn; [|naive_solver].
  destruct st; cbn; naive_solver.
Qed.

Lemma elem_of_np_free_accounts pool a :
  a ∈ np_free_accounts pool <-> exists acc, np_accounts pool !! a = Some acc /\ na_state acc = Free.
Proof.
  unfold np_free_accounts, na_is_free. rewrite list_elem_of_fmap. split.
  - intros ([a' acc] & -> & [Hf Hin]%list_elem_of_filter). apply elem_of_btree_iter in Hin. cbn in Hf.
    apply bool_decide_eq_true in Hf. by exists acc.
  - intros (acc & Hacc & Hf). exists (a, acc). split; [done|]. apply list_elem_of_filter.
    split; [by apply bool_decide_eq_true | by apply elem_of_btree_iter].
Qed.

Lemma NoDup_np_free_accounts pool : NoDup (np_free_accounts pool).
Proof. apply StronglySorted_lt_NoDup, StronglySorted_filter_fst, btree_keys_sorted. Qed.

(** ** Histories of the pool

    Every change of the pool after its creation is one of these operations. *)
Inductive NoncePoolOp : Type :=
  | OpAddAccounts (addresses : list Address)
  | OpBind (address : Address) (nonce_value : Hash)
  | OpFree (address : Address).

Definition np_apply (pool : DurableNoncePool) (op : NoncePoolOp) : outcome DurableNoncePool :=
  match op with
  | OpAddAccounts addresses =>
      match np_add_accounts pool addresses with
      | Ok pool' => Done pool'
      | Err _ => Done pool
      end
  | OpBind address nonce_value => np_bind pool address nonce_value
  | OpFree address => np_free pool address
  end.

(** The (account, nonce value) pairs a history binds. *)
Definition bindings (ops : list NoncePoolOp) : list (Address * Hash) :=
  omap (fun op => match op with OpBind a v => Some (a, v) | _ => None end) ops.

(** The values the pool remembers are the ones bound so far. *)
Definition np_history (past : list NoncePoolOp) (pool : DurableNoncePool) : Prop :=
  NoDup (bindings past) /\
  forall a v, (a, v) ∈ bindings past <-> np_has_seen pool a v = true.

Lemma np_has_seen_true pool a v :
  np_has_seen pool a v = true <->
  exists acc, np_accounts pool !! a = Some acc /\ v ∈ na_seen_nonce_values acc.
Proof.
  unfold np_has_seen. destruct (np_accounts pool !! a) as [acc|]; [|naive_solver].
  rewrite bool_decide_eq_true. naive_solver.
Qed.

Lemma bindings_snoc past op :
  bindings (past ++ [op]) =
  bindings past ++ match op with OpBind a v => [(a, v)] | _ => [] end.
Proof. unfold bindings. rewrite omap_app. by destruct op. Qed.

Lemma np_add_accounts_seen pool addresses pool' a v :
  np_add_accounts pool addresses = Ok pool' -> np_has_seen pool' a v = np_has_seen pool a v.
Proof.
  intros (_ & Hfresh & Hlk)%np_add_accounts_Ok. unfold np_has_seen. rewrite Hlk.
  case_decide as Hin; [|done]. rewrite (Hfresh _ Hin). cbn. by rewrite bool_decide_false.
Qed.

Lemma np_history_apply past pool op pool' :
  np_history past pool -> np_apply pool op = Done pool' -> np_history (past ++ [op]) pool'.
Proof.
  intros [Hnd Hseen] Hop. split.
  - rewrite bindings_snoc. destruct op as [l|a v|a]; rewrite ?app_nil_r; [done| |done].
    apply np_bind_Done in Hop as (acc & Hacc & _ & Hv & _). apply NoDup_app. split_and!.
    + done.
    + intros [a' v'] Hin [= -> ->]%list_elem_of_singleton.
      apply Hseen, np_has_seen_true in Hin as (acc' & ? & ?). congruence.
    + apply NoDup_singleton.
  - intros a' v'. rewrite bindings_snoc, elem_of_app, Hseen. destruct op as [l|a v|a]; cbn in Hop; cbv iota.
    + rewrite elem_of_nil. destruct (np_add_accounts pool l) eqn:Hadd; simplify_eq; [|naive_solver].
      rewrite (np_add_accounts_seen _ _ _ _ _ Hadd). naive_solver.
    + apply np_bind_Done in Hop as (acc & Hacc & _ & Hv & ->).
      rewrite !np_has_seen_true. setoid_rewrite list_elem_of_singleton. cbn. split.
      * intros [(acc' & Hacc' & Hin)|[= -> ->]].
        -- destruct (decide (a' = a)) as [->|]; simplify_eq.
           ++ rewrite lookup_insert_eq. eexists; split; [done|]. cbn. set_solver.
           ++ rewrite lookup_insert_ne by done. eauto.
        -- rewrite lookup_insert_eq. eexists; split; [done|]. cbn. set_solver.
      * intros (acc' & Hacc' & Hin). destruct (decide (a' = a)) as [->|].
        -- rewrite lookup_insert_eq in Hacc'. simplify_eq. cbn in Hin.
           apply elem_of_union in Hin as [->%elem_of_singleton|Hin]; [by right | left; eauto].
        -- rewrite lookup_insert_ne in Hacc' by done. left; eauto.
    + apply np_free_Done in Hop as (acc & Hacc & _ & ->).
      rewrite elem_of_nil, !np_has_seen_true. cbn. destruct (decide (a' = a)) as [->|].
      * rewrite lookup_insert_eq. naive_solver.
      * rewrite lookup_insert_ne by done. naive_solver.
Qed.

Lemma np_history_run ops : forall past pool pool',
  np_history past pool -> foreach np_apply pool ops = Done pool' -> np_history (past ++ ops) pool'.
Proof.
  induction ops as [|op ops IH]; intros past pool pool' Hh Hrun; cbn in Hrun.
  - simplify_eq. by rewrite app_nil_r.
  - apply bind_Done in Hrun as (pool1 & Hop & Hrun).
    rewrite (app_assoc past [op] ops : past ++ op :: ops = _). eapply IH; [|done]. by eapply np_history_apply.
Qed.

Lemma np_new_history addresses pool : np_new addresses = Ok pool -> np_history [] pool.
Proof.
  intros Hnew. split; [constructor|]. intros a v. cbn. rewrite (np_add_accounts_seen _ _ _ _ _ Hnew).
  rewrite elem_of_nil. done.
Qed.

(** C33: over the whole life of the pool no nonce value is bound twice to the
    same account, and a read classified as [Advanced] while the account is
    bound returned a value that no transaction of the account ever carried,
    whereas a [Stale] one returned the value of an earlier transaction. *)
Theorem nonce_values_bound_once addresses pool0 ops pool a bound_nonce_value read_nonce_value :
  np_new addresses = Ok pool0 ->
  foreach np_apply pool0 ops = Done pool ->
  NoDup (bindings ops) /\
  match np_classify_read pool a bound_nonce_value read_nonce_value with
  | Unchanged => read_nonce_value = bound_nonce_value
  | Stale => read_nonce_value <> bound_nonce_value /\ (a, read_nonce_value) ∈ bindings ops
  | Advanced => read_nonce_value <> bound_nonce_value /\ (a, read_nonce_value) ∉ bindings ops
  end.
Proof.
  intros Hnew%np_new_history Hrun. destruct (np_history_run _ _ _ _ Hnew Hrun) as [Hnd Hseen]. cbn in *.
  split; [done|]. unfold np_classify_read. destruct (Z.eqb_spec read_nonce_value bound_nonce_value); [done|].
  destruct (np_has_seen _ _ _) eqn:Hs; (split; [done|]); rewrite Hseen; congruence.
Qed.

Lemma nonce_values_bound_once_witness :
  NoDup (bindings [OpBind 7 100; OpFree 7; OpAddAccounts [8]; OpBind 7 101]) /\
  np_classify_read
    (mkNoncePool {[7 := mkNonceAccount Bound {[100; 101]}; 8 := na_default]}) 7 101 100 = Stale.
Proof.
  split; [|vm_compute; reflexivity].
  apply (nonce_values_bound_once [7] (mkNoncePool {[7 := na_default]})
    [OpBind 7 100; OpFree 7; OpAddAccounts [8]; OpBind 7 101]
    (mkNoncePool {[7 := mkNonceAccount Bound {[100; 101]}; 8 := na_default]}) 7 101 100);
    vm_compute; reflexivity.
Defined.

(** [add_accounts] is all or nothing. It succeeds exactly when the given
    addresses are pairwise distinct and none is already in the pool; then each
    of them is a free account that has seen no nonce value and every other
    account is as before; otherwise the reported address is a given one that
    is already pooled or given twice. *)
Theorem np_add_accounts_all_or_nothing pool addresses :
  match np_add_accounts pool addresses with
  | Ok pool' =>
      NoDup addresses /\ (forall a, a ∈ addresses -> np_contains pool a = false) /\
      (forall a, np_accounts pool' !! a =
        if decide (a ∈ addresses) then Some na_default else np_accounts pool !! a)
  | Err (DuplicateAccount a) =>
      a ∈ addresses /\ (np_contains pool a = true \/ ~ NoDup addresses)
  end.
Proof.
  destruct (np_add_accounts pool addresses) as [pool'|[a]] eqn:Hadd.
  - apply np_add_accounts_Ok in Hadd as (Hnd & Hfresh & Hlk). split_and!; [done| |done].
    intros a Ha. unfold np_contains. rewrite (Hfresh a Ha). by rewrite bool_decide_false by (by intros []).
  - unfold np_add_accounts in Hadd. destruct (np_additions _ _ _) as [|e] eqn:He; simplify_eq.
    apply np_additions_Err in He as (Hin & [Hacc|[[x Hx]|Hdup]]).
    + split; [done|]. left. by apply bool_decide_eq_true.
    + by rewrite lookup_empty in Hx.
    + split; [done|]. by right.
Qed.
