(* ===== verification/ConcretePlatform.v ===== *)
(** A concrete [Platform], in which theorems that quantify over the external
    code are instantiated: keys are numbers, a derived key encodes the master
    key and the path, and messages are compiled as [Message::new_with_blockhash]
    documents it (fee payer first, then the other signers, then the remaining
    accounts, then the programs, every key once). *)
From S2P Require Import Prelude Platform.

Definition encode_path (path : DerivationPath) : Z := Z.pos (encode path).

Fixpoint index_of (x : Z) (l : list Z) : nat :=
  match l with
  | [] => 0%nat
  | y :: l => if x =? y then 0%nat else S (index_of x l)
  end.

Definition metas (instrs : list Instruction) : list (Address * bool * bool) :=
  concat (map ins_accounts instrs).

Definition signers_of (instrs : list Instruction) (payer : option Address) : list Address :=
  remove_dups (option_list payer ++ map (fun m => m.1.1) (filter (fun m => m.1.2 = true) (metas instrs))).

Definition keys_of (instrs : list Instruction) (payer : option Address) : list Address :=
  let signers := signers_of instrs payer in
  signers ++ filter (fun k => k ∉ signers)
    (remove_dups (map (fun m => m.1.1) (metas instrs) ++ map ins_program_id instrs)).

Definition compile_instruction (keys : list Address) (i : Instruction) : CompiledInstruction :=
  mkCompiledInstruction (Z.of_nat (index_of (ins_program_id i) keys))
    (map (fun m => Z.of_nat (index_of m.1.1 keys)) (ins_accounts i)) (ins_data i).

Definition compile_message (instrs : list Instruction) (payer : option Address) (h : Hash) : Message :=
  let keys := keys_of instrs payer in
  mkMessage (mkMessageHeader (Z.of_nat (length (signers_of instrs payer))) 0 0) keys h
    (map (compile_instruction keys) instrs).

(** The system program is 0, the other ids are not used. *)
Definition concrete_id (id : SdkId) : Address :=
  match id with SystemProgram => 0 | _ => 2 ^ 255 end.

#[export] Instance concrete_platform : Platform := {|
  anonymous := [4];
  serialize_raw pk := pk;
  derive_subkey_with_chain_code pk path cc := (pk + encode_path path, cc);
  address_from_str str := if decide (str = EmptyString) then Err "empty" else Ok (Z.pos (encode str));
  sdk_id := concrete_id;
  address_to_string a := if a =? 0 then "system" else "other";
  nat_to_string n := "number";
  transfer_instruction from to amount :=
    mkInstruction 0 [((from, true), true); ((to, false), true)] [2; amount];
  advance_nonce_account n auth :=
    mkInstruction 0 [((n, false), true); ((auth, true), false)] [4];
  new_with_blockhash := compile_message;
  signer_keys m := take (Z.to_nat (num_required_signatures (msg_header m))) (msg_account_keys m);
  serialized_len m := 37 + 32 * Z.of_nat (length (msg_account_keys m))
                      + 17 * Z.of_nat (length (msg_instructions m));
  is_advance_nonce_data data := bool_decide (data = [4])
|}.

Lemma index_of_lookup x l : x ∈ l -> l !! index_of x l = Some x.
Proof.
  induction l as [|y l IH]; intros Hin; [by apply not_elem_of_nil in Hin|]. cbn.
  destruct (Z.eqb_spec x y) as [->|Hne]; [done|]. cbn. apply IH.
  apply elem_of_cons in Hin as [?|]; done.
Qed.

Lemma elem_of_keys_of instrs payer k :
  k ∈ map (fun m => m.1.1) (metas instrs) \/ k ∈ map ins_program_id instrs -> k ∈ keys_of instrs payer.
Proof.
  intros Hk. unfold keys_of. rewrite elem_of_app.
  destruct (decide (k ∈ signers_of instrs payer)); [by left|]. right.
  apply list_elem_of_filter. split; [done|]. apply elem_of_remove_dups, elem_of_app. done.
Qed.

#[export] Instance concrete_platform_laws : PlatformLaws.
Proof.
  split; [done|]. intros n auth instrs payer h. cbn.
  eexists _, _, _. split_and!; [done| | | done | done | |]; cbn; [lia| |lia|].
  - rewrite Nat2Z.id. apply index_of_lookup, elem_of_keys_of. right. left.
  - rewrite Nat2Z.id. apply index_of_lookup, elem_of_keys_of. left. left.
Qed.

#[export] Instance concrete_unique_signers : UniqueSigners.
Proof.
  intros instrs payer h. cbn. unfold keys_of. rewrite Nat2Z.id, take_app_length. apply NoDup_remove_dups.
Qed.
