(* ===== verification/Sweeps.v ===== *)
(** [Sweep] and [Sweeps] of minter/src/state/deposits/sweeps: the plan of a
    sweep transaction, its recovery from the submitted message, and the check
    of its outcome against the plan. *)
From S2P Require Import Prelude Platform Events ConcretePlatform.

Record Transfer := mkTransfer {
  tr_deposit_id : DepositSolId;
  tr_from : Address;
  tr_amount : Lamport
}.

Record Sweep := mkSweep {
  sw_deposits : gmap DepositSolId QueuedDeposit;
  sw_fee_payer : DepositSolId;
  sw_fee : Lamport;
  sw_minter_address : Address;
  sw_transfers : list Transfer;
  sw_expected_received : Lamport
}.

#[export] Instance Transfer_eq_dec : EqDecision Transfer.
Proof. solve_decision. Defined.
#[export] Instance Sweep_eq_dec : EqDecision Sweep.
Proof. solve_decision. Defined.

Definition deposit_count (sweep : Sweep) : nat := size (sw_deposits sweep).

(** ** Planning *)

(** [(deposit.sweepable_amount(), Reverse(deposit_id))], the key of [max_by_key]. *)
Definition fee_payer_leb (x y : DepositSolId * QueuedDeposit) : bool :=
  (sweepable_amount x.2 <? sweepable_amount y.2) ||
  ((sweepable_amount x.2 =? sweepable_amount y.2) && (y.1 <=? x.1)).

(** [(Reverse(deposit.sweepable_amount()), deposit_id)], the key of [sort_by_key]. *)
Definition others_leb (x y : DepositSolId * QueuedDeposit) : bool :=
  (sweepable_amount y.2 <? sweepable_amount x.2) ||
  ((sweepable_amount x.2 =? sweepable_amount y.2) && (x.1 <=? y.1)).

Definition plan_unique (deposits : list (DepositSolId * QueuedDeposit))
    : outcome (gmap DepositSolId QueuedDeposit) :=
  foreach (fun unique (entry : DepositSolId * QueuedDeposit) =>
    assert_ (bool_decide (unique !! entry.1 = None)) "Attempted to create a sweep with deposit twice";;
    Done (<[entry.1 := entry.2]> unique)) ∅ deposits.

Definition transfer_of (entry : DepositSolId * QueuedDeposit) : Transfer :=
  mkTransfer entry.1 (qd_address entry.2) (sweepable_amount entry.2).

Definition plan (deposits : list (DepositSolId * QueuedDeposit)) (minter_address : Address)
    : outcome Sweep :=
  unique ← plan_unique deposits;
  fee_payer ← expect (max_by fee_payer_leb (btree_iter unique))
    "Attempted to plan a sweep without deposits";
  let fee := FEE_PER_SIGNATURE *w Z.of_nat (size unique) in
  let others := sort_by others_leb (filter (fun e => e.1 <> fee_payer.1) (btree_iter unique)) in
  fee_payer_amount ← expect (checked_sub (sweepable_amount fee_payer.2) fee)
    "BUG: the minimum deposit amount covers the fee of a full sweep";
  let transfers := mkTransfer fee_payer.1 (qd_address fee_payer.2) fee_payer_amount
                   :: map transfer_of others in
  Done (mkSweep unique fee_payer.1 fee minter_address transfers (wsum (map tr_amount transfers))).

Section Messages.
Context `{Platform}.

Definition sweep_message (sweep : Sweep) (recent_blockhash : Hash) : Message :=
  new_with_blockhash
    (map (fun t => transfer_instruction (tr_from t) (sw_minter_address sweep) (tr_amount t))
      (sw_transfers sweep))
    (tr_from <$> head (sw_transfers sweep))
    recent_blockhash.

Inductive SweepRecoveryError : Type :=
  | RecoveryUnexpectedMessage (planned submitted : VersionedMessage).

Definition recover (deposits : list (DepositSolId * QueuedDeposit)) (minter_address : Address)
    (submitted : VersionedMessage) : outcome (result Sweep SweepRecoveryError) :=
  let 'Legacy message := submitted in
  sweep ← plan deposits minter_address;
  let planned := Legacy (sweep_message sweep (msg_recent_blockhash message)) in
  Done (if bool_decide (planned = submitted) then Ok sweep
        else Err (RecoveryUnexpectedMessage planned submitted)).

(** ** Mints *)
Inductive SweepMintError : Type :=
  | FeesExceedSweepableAmount (deposit_id : DepositSolId)
      (sweepable_amount fee_share deposit_fee : Lamport).

(** The number of deposits is positive, since [plan] panics on none. *)
Definition fee_share (sweep : Sweep) : Lamport :=
  div_ceil (sw_fee sweep) (Z.of_nat (deposit_count sweep)).

Definition mint_of (share : Lamport) (entry : DepositSolId * QueuedDeposit)
    : result CreditedDeposit SweepMintError :=
  match (amount ← checked_sub (sweepable_amount entry.2) share;
         checked_sub amount (deposit_fee entry.2)) with
  | Some amount_to_mint => Ok (mkCreditedDeposit entry.1 amount_to_mint)
  | None => Err (FeesExceedSweepableAmount entry.1 (sweepable_amount entry.2) share (deposit_fee entry.2))
  end.

Definition mints (sweep : Sweep) : result (list CreditedDeposit) SweepMintError :=
  collect_results (mint_of (fee_share sweep)) (btree_iter (sw_deposits sweep)).

Definition deposit_fees (sweep : Sweep) : Lamport :=
  wsum (map deposit_fee (btree_values (sw_deposits sweep))).

(** ** Settlement *)
Inductive UnreadableOutcome : Type := NoMetaField | IncompleteBalances.

Inductive SweepMismatch : Type :=
  | TransactionFailed (error : string)
  | UnexpectedMessage
  | UnexpectedFee (expected actual : Lamport)
  | UnexpectedBalanceChange (address : Address) (pre post expected_decrease : Lamport)
  | NotRentExempt (address : Address) (post : Lamport)
  | MainAccountDebited (pre post : Lamport)
  | UnexpectedAmountReceived (expected actual : Lamport)
  | MismatchMint (error : SweepMintError).

Inductive SweepSettlementError : Type :=
  | Unreadable (outcome : UnreadableOutcome)
  | Mismatch (mismatch : SweepMismatch).

Record SettledSweep := mkSettledSweep {
  amount_received : Lamport;
  settled_mints : list CreditedDeposit
}.

(** The message of a [solana_transaction::VersionedTransaction]; the minter
    reads nothing of a v0 message. *)
Inductive ExecutedMessage : Type := ExecutedLegacy (message : Message) | ExecutedV0.

(** The fields of [UiTransactionStatusMeta] the minter reads. *)
Record TransactionMeta := mkMeta {
  meta_err : option string;
  meta_fee : Lamport;
  pre_balances : list Lamport;
  post_balances : list Lamport
}.

Definition balance_of (balances : gmap Address (Lamport * Lamport)) (address : Address)
    : result (Lamport * Lamport) SweepSettlementError :=
  ok_or (balances !! address) (Mismatch UnexpectedMessage).

Definition fee_paid_by (sweep : Sweep) (fee : Lamport) (transfer : Transfer) : Lamport :=
  if tr_deposit_id transfer =? sw_fee_payer sweep then fee else 0.

Definition check_transfer (sweep : Sweep) (fee : Lamport)
    (balances : gmap Address (Lamport * Lamport)) (transfer : Transfer)
    : result unit SweepSettlementError :=
  result_bind (balance_of balances (tr_from transfer)) (fun '(pre, post) =>
  let expected_decrease := tr_amount transfer +w fee_paid_by sweep fee transfer in
  if negb (bool_decide (checked_sub pre post = Some expected_decrease)) then
    Err (Mismatch (UnexpectedBalanceChange (tr_from transfer) pre post expected_decrease))
  else if post <? RENT_EXEMPTION_THRESHOLD then
    Err (Mismatch (NotRentExempt (tr_from transfer) post))
  else Ok tt).

Definition settle (sweep : Sweep) (transaction : ExecutedMessage) (meta : option TransactionMeta)
    : result SettledSweep SweepSettlementError :=
  result_bind (ok_or meta (Unreadable NoMetaField)) (fun meta =>
  match meta_err meta with
  | Some error => Err (Mismatch (TransactionFailed error))
  | None =>
  match transaction with
  | ExecutedV0 => Err (Mismatch UnexpectedMessage)
  | ExecutedLegacy message =>
  if negb (bool_decide (message = sweep_message sweep (msg_recent_blockhash message))) then
    Err (Mismatch UnexpectedMessage)
  else if negb (length (pre_balances meta) =? length (msg_account_keys message))%nat
       || negb (length (post_balances meta) =? length (msg_account_keys message))%nat then
    Err (Unreadable IncompleteBalances)
  else if sw_fee sweep <? meta_fee meta then
    Err (Mismatch (UnexpectedFee (sw_fee sweep) (meta_fee meta)))
  else
    let balances := collect_map (zip (msg_account_keys message)
                                     (zip (pre_balances meta) (post_balances meta))) in
    result_bind (collect_results (check_transfer sweep (meta_fee meta) balances) (sw_transfers sweep))
      (fun _ =>
    result_bind (balance_of balances (sw_minter_address sweep)) (fun '(pre, post) =>
    result_bind (ok_or (checked_sub post pre) (Mismatch (MainAccountDebited pre post)))
      (fun received =>
    if negb (received =? sw_expected_received sweep) then
      Err (Mismatch (UnexpectedAmountReceived (sw_expected_received sweep) received))
    else
      result_bind (map_err (fun e => Mismatch (MismatchMint e)) (mints sweep)) (fun minted =>
      Ok (mkSettledSweep received minted)))))
  end
  end).
End Messages.

(** ** The sweeps of one stage *)
Record Sweeps := mkSweeps { by_signature : gmap Signature Sweep }.

Definition sweeps_default : Sweeps := mkSweeps ∅.

Definition sweeps_get (sweeps : Sweeps) (signature : Signature) : option Sweep :=
  by_signature sweeps !! signature.

Fixpoint find_deposit (l : list (Signature * Sweep)) (deposit_id : DepositSolId)
    : option (Signature * QueuedDeposit) :=
  match l with
  | [] => None
  | (signature, sweep) :: l =>
      match sw_deposits sweep !! deposit_id with
      | Some deposit => Some (signature, deposit)
      | None => find_deposit l deposit_id
      end
  end.

Definition sweeps_deposit (sweeps : Sweeps) (deposit_id : DepositSolId)
    : option (Signature * QueuedDeposit) :=
  find_deposit (btree_iter (by_signature sweeps)) deposit_id.

Definition sweeps_signatures (sweeps : Sweeps) : list Signature := btree_keys (by_signature sweeps).

Definition sweeps_len (sweeps : Sweeps) : nat := size (by_signature sweeps).

Definition sweeps_is_empty (sweeps : Sweeps) : bool := bool_decide (by_signature sweeps = ∅).

Definition sweeps_deposit_count (sweeps : Sweeps) : nat :=
  fold_left Nat.add (map deposit_count (btree_values (by_signature sweeps))) 0%nat.

Definition sweeps_insert (sweeps : Sweeps) (signature : Signature) (sweep : Sweep) : outcome Sweeps :=
  foreach (fun (_ : unit) deposit_id =>
    assert_ (bool_decide (sweeps_deposit sweeps deposit_id = None))
      "Attempted to record deposit in sweep while another sweep holds it")
    tt (btree_keys (sw_deposits sweep));;
  assert_ (bool_decide (by_signature sweeps !! signature = None)) "Attempted to record sweep twice";;
  Done (mkSweeps (<[signature := sweep]> (by_signature sweeps))).

Definition sweeps_remove (sweeps : Sweeps) (signature : Signature) : option (Sweep * Sweeps) :=
  sweep ← by_signature sweeps !! signature;
  Some (sweep, mkSweeps (delete signature (by_signature sweeps))).

(** ** Lemmas on planning *)
Lemma fee_payer_leb_total x y : fee_payer_leb x y = true \/ fee_payer_leb y x = true.
Proof. unfold fee_payer_leb. lia. Qed.

Lemma fee_payer_leb_trans x y z :
  fee_payer_leb x y = true -> fee_payer_leb y z = true -> fee_payer_leb x z = true.
Proof. unfold fee_payer_leb. lia. Qed.

Lemma others_leb_total x y : others_leb x y = true \/ others_leb y x = true.
Proof. unfold others_leb. lia. Qed.

Lemma others_leb_trans x y z :
  others_leb x y = true -> others_leb y z = true -> others_leb x z = true.
Proof. unfold others_leb. lia. Qed.

Lemma plan_unique_loop deposits : forall (m m' : gmap DepositSolId QueuedDeposit),
  foreach (fun unique (entry : DepositSolId * QueuedDeposit) =>
    assert_ (bool_decide (unique !! entry.1 = None)) "Attempted to create a sweep with deposit twice";;
    Done (<[entry.1 := entry.2]> unique)) m deposits = Done m' <->
  NoDup deposits.*1 /\ (forall k, k ∈ deposits.*1 -> m !! k = None) /\ m' = list_to_map deposits ∪ m.
Proof.
  induction deposits as [|[k d] l IH]; intros m m'; cbn [foreach].
  - cbn. rewrite Done_inj. rewrite (left_id_L ∅ (∪)). split.
    + intros ->. split_and!; [constructor | by intros ? ?%not_elem_of_nil | done].
    + by intros (_ & _ & ->).
  - cbn [fst snd fmap list_fmap]. rewrite NoDup_cons, list_to_map_cons. unfold assert_.
    case_bool_decide as Hk; cbn [mbind outcome_bind].
    + rewrite IH. split.
      * intros (Hnd & Hin & ->). split_and!.
        -- intros Hkl. specialize (Hin k Hkl). by rewrite lookup_insert_eq in Hin.
        -- done.
        -- intros k' [->|Hk']%elem_of_cons; [done|]. specialize (Hin k' Hk').
           by apply lookup_insert_None in Hin as [? _].
        -- rewrite <- insert_union_r; [|apply not_elem_of_list_to_map_1].
           ++ by rewrite <- insert_union_l.
           ++ intros Hkl. specialize (Hin k Hkl). by rewrite lookup_insert_eq in Hin.
      * intros ([Hnin Hnd] & Hin & ->). split_and!; [done| |].
        -- intros k' Hk'. rewrite lookup_insert_ne by (intros <-; done). apply Hin. by right.
        -- rewrite <- insert_union_r by (by apply not_elem_of_list_to_map_1). by rewrite <- insert_union_l.
    + split; [done|]. intros (_ & Hin & _). destruct Hk. apply Hin. left.
Qed.

(** The loop rejects a repeated deposit id and otherwise collects the deposits. *)
Lemma plan_unique_Done deposits m :
  plan_unique deposits = Done m <-> NoDup deposits.*1 /\ m = list_to_map deposits.
Proof.
  unfold plan_unique. rewrite plan_unique_loop, (right_id_L ∅ (∪)). split; [naive_solver|].
  intros [? ->]. split_and!; [done| |done]. intros. apply lookup_empty.
Qed.

Definition total_sweepable (deposits : gmap DepositSolId QueuedDeposit) : Z :=
  zsum (map sweepable_amount (btree_values deposits)).

Definition total_deposit_fees (deposits : gmap DepositSolId QueuedDeposit) : Z :=
  zsum (map deposit_fee (btree_values deposits)).

(** What a planned sweep guarantees. *)
Record sweep_wf (s : Sweep) : Prop := {
  swf_nonempty : sw_deposits s <> ∅;
  swf_fee : sw_fee s = FEE_PER_SIGNATURE *w Z.of_nat (size (sw_deposits s));
  swf_payer : exists d, sw_deposits s !! sw_fee_payer s = Some d /\
    sw_fee s <= sweepable_amount d /\
    forall k d', sw_deposits s !! k = Some d' -> sweepable_amount d' <= sweepable_amount d;
  swf_transfers : exists payer others,
    sw_transfers s = payer :: others /\ tr_deposit_id payer = sw_fee_payer s /\
    map tr_deposit_id (sw_transfers s) ≡ₚ btree_keys (sw_deposits s) /\
    StronglySorted (fun t u => tr_amount u <= tr_amount t) others;
  swf_amounts : forall t, t ∈ sw_transfers s ->
    exists d, sw_deposits s !! tr_deposit_id t = Some d /\ tr_from t = qd_address d /\
      tr_amount t + fee_paid_by s (sw_fee s) t = sweepable_amount d;
  swf_total : zsum (map tr_amount (sw_transfers s)) = total_sweepable (sw_deposits s) - sw_fee s;
  swf_expected : sw_expected_received s = wsum (map tr_amount (sw_transfers s))
}.

Lemma map_snd_total (l : list (DepositSolId * QueuedDeposit)) :
  map tr_amount (map transfer_of l) = map sweepable_amount l.*2.
Proof. induction l; cbn; by f_equal. Qed.

Lemma map_transfer_ids (l : list (DepositSolId * QueuedDeposit)) :
  map tr_deposit_id (map transfer_of l) = l.*1.
Proof. induction l; cbn; by f_equal. Qed.

Lemma zsum_map_perm {A} (f : A -> Z) l k : l ≡ₚ k -> zsum (map f l) = zsum (map f k).
Proof. intros Hp. apply zsum_perm. by rewrite Hp. Qed.

Lemma others_sorted l :
  StronglySorted (fun x y => others_leb x y = true) l ->
  StronglySorted (fun t u => tr_amount u <= tr_amount t) (map transfer_of l).
Proof.
  induction 1 as [|x l Hl IH Hx]; cbn; constructor; [done|].
  rewrite Forall_forall in Hx. apply Forall_forall. intros t (y & -> & Hy)%list_elem_of_fmap.
  specialize (Hx y Hy).
  unfold others_leb in Hx. cbn. lia.
Qed.

Lemma plan_Done deposits addr s :
  plan deposits addr = Done s ->
  NoDup deposits.*1 /\ sw_deposits s = list_to_map deposits /\ sw_minter_address s = addr /\ sweep_wf s.
Proof.
  unfold plan. intros Hp. inv_done. rename x into m, x0 into p, x1 into amt.
  apply plan_unique_Done in H as [Hnd ->]. subst s. cbn.
  apply max_by_Some in H0 as [Hin Hmax]; [|apply fee_payer_leb_total | apply fee_payer_leb_trans].
  destruct p as [pid pd]. pose proof Hin as Hpd. apply elem_of_btree_iter in Hpd.
  apply checked_sub_Some in H1 as [-> Hfee]. cbn [fst snd] in *. set (m := list_to_map deposits) in *.
  set (fee := FEE_PER_SIGNATURE *w Z.of_nat (size m)) in *.
  set (others := sort_by others_leb (filter (fun e => e.1 <> pid) (btree_iter m))).
  assert (btree_iter m ≡ₚ (pid, pd) :: others) as Hperm.
  { unfold others. rewrite sort_by_perm. by apply btree_iter_lookup_perm. }
  split_and!; [done..|]. constructor; cbn.
  - intros Hm. change (m = ∅) in Hm. rewrite Hm in Hpd. by rewrite lookup_empty in Hpd.
  - done.
  - exists pd. split_and!; [done..|]. intros k d Hd. rewrite Forall_forall in Hmax.
    specialize (Hmax (k, d) (proj2 (elem_of_btree_iter _ _ _) Hd)). unfold fee_payer_leb in Hmax. cbn in Hmax. lia.
  - eexists _, _. split_and!; [done..| |].
    + unfold btree_keys. rewrite Hperm. cbn. by rewrite map_transfer_ids.
    + apply others_sorted, sort_by_sorted; [apply others_leb_total | apply others_leb_trans].
  - intros t [->|Ht]%elem_of_cons; cbn.
    + exists pd. split_and!; [done..|]. unfold fee_paid_by. cbn. rewrite Z.eqb_refl. lia.
    + apply list_elem_of_fmap in Ht as ([k d] & -> & Hd). apply sort_by_elem in Hd.
      apply list_elem_of_filter in Hd as [Hne Hd]. apply elem_of_btree_iter in Hd. cbn in *.
      exists d. split_and!; [done..|]. unfold fee_paid_by. cbn. destruct (Z.eqb_spec k pid); [done | lia].
  - unfold total_sweepable, btree_values. rewrite (zsum_map_perm _ (btree_iter m).*2 ((pid, pd) :: others).*2)
      by (by rewrite Hperm). cbn. rewrite map_snd_total. unfold others. lia.
  - done.
Qed.

(** A plan does not depend on the order of the deposits. *)
Lemma plan_perm deposits deposits' addr s :
  plan deposits addr = Done s -> deposits' ≡ₚ deposits -> plan deposits' addr = Done s.
Proof.
  intros Hplan Hperm. pose proof (plan_Done _ _ _ Hplan) as (Hnd & _). unfold plan in *.
  rewrite (proj2 (plan_unique_Done deposits _) (conj Hnd eq_refl)) in Hplan.
  assert (NoDup deposits'.*1) as Hnd' by (by rewrite Hperm).
  rewrite (proj2 (plan_unique_Done deposits' _) (conj Hnd' eq_refl)).
  rewrite (list_to_map_proper deposits' deposits Hnd' Hperm). exact Hplan.
Qed.

Lemma size_list_to_map (l : list (DepositSolId * QueuedDeposit)) :
  NoDup l.*1 -> size (list_to_map l : gmap DepositSolId QueuedDeposit) = length l.
Proof. intros Hnd. rewrite <- length_map_to_list. by rewrite map_to_list_to_map. Qed.

(** Planning succeeds as soon as the largest deposit covers the fee. *)
Lemma plan_succeeds deposits addr :
  NoDup deposits.*1 -> deposits <> [] ->
  (forall k d, (k, d) ∈ deposits ->
    FEE_PER_SIGNATURE *w Z.of_nat (length deposits) <= sweepable_amount d) ->
  exists s, plan deposits addr = Done s.
Proof.
  intros Hnd Hne Hfee. unfold plan.
  rewrite (proj2 (plan_unique_Done deposits _) (conj Hnd eq_refl)). cbn [mbind outcome_bind].
  set (m := list_to_map deposits : gmap _ _).
  assert (btree_iter m <> []) as Hm.
  { intros Hnil. apply (f_equal length) in Hnil. rewrite btree_iter_length in Hnil.
    unfold m in Hnil. rewrite size_list_to_map in Hnil by done. by destruct deposits. }
  destruct (max_by_is_Some fee_payer_leb _ Hm) as [[pid pd] Hp]. rewrite Hp. cbn [expect mbind outcome_bind].
  apply max_by_Some in Hp as [Hin _]; [|apply fee_payer_leb_total | apply fee_payer_leb_trans].
  apply elem_of_btree_iter, elem_of_list_to_map in Hin; [|done].
  specialize (Hfee _ _ Hin). unfold m. rewrite size_list_to_map by done. cbv zeta. cbn [fst snd].
  rewrite (proj2 (checked_sub_Some (sweepable_amount pd) _ _) (conj eq_refl Hfee)).
  cbn. by eexists.
Qed.

(** ** Lemmas on mints *)
Section Mints.
Context (s : Sweep) (Hwf : sweep_wf s).

Lemma deposit_count_pos : 0 < Z.of_nat (deposit_count s).
Proof.
  unfold deposit_count. pose proof (swf_nonempty _ Hwf) as Hne.
  destruct (size (sw_deposits s)) eqn:Hs; [|lia]. by apply map_size_empty_inv in Hs.
Qed.

(** The shares of the deposits cover the fee. *)
Lemma fee_shares_cover : sw_fee s <= Z.of_nat (deposit_count s) * fee_share s.
Proof.
  unfold fee_share. apply (div_ceil_bounds (sw_fee s)); [|apply deposit_count_pos].
  rewrite (swf_fee _ Hwf). apply wrap64_range.
Qed.

Lemma fee_share_nonneg : 0 <= fee_share s.
Proof. pose proof fee_shares_cover. pose proof deposit_count_pos. rewrite (swf_fee _ Hwf) in H.
  pose proof (wrap64_range (FEE_PER_SIGNATURE * Z.of_nat (size (sw_deposits s)))) as [Hr _].
  unfold wmul in H. nia.
Qed.

Lemma mint_of_Ok share entry c :
  mint_of share entry = Ok c <->
  cd_deposit_id c = entry.1 /\ cd_amount_to_mint c = sweepable_amount entry.2 - share - deposit_fee entry.2 /\
  share <= sweepable_amount entry.2 /\ deposit_fee entry.2 <= sweepable_amount entry.2 - share.
Proof.
  unfold mint_of, checked_sub. destruct (Z.leb_spec share (sweepable_amount entry.2)); cbn.
  - destruct (Z.leb_spec (deposit_fee entry.2) (sweepable_amount entry.2 - share)); cbn.
    + destruct c as [i a]. cbn. split; [intros [= <- <-]; split_and!; done|]. intros (-> & -> & _). done.
    + split; [done | lia].
  - split; [done | lia].
Qed.

Lemma mints_Ok ms :
  mints s = Ok ms ->
  map cd_deposit_id ms = btree_keys (sw_deposits s) /\
  (forall c, c ∈ ms -> exists d, sw_deposits s !! cd_deposit_id c = Some d /\
     cd_amount_to_mint c = sweepable_amount d - fee_share s - deposit_fee d /\
     fee_share s <= sweepable_amount d /\ 0 <= cd_amount_to_mint c) /\
  zsum (map cd_amount_to_mint ms) =
    total_sweepable (sw_deposits s) - Z.of_nat (deposit_count s) * fee_share s
    - total_deposit_fees (sw_deposits s).
Proof.
  unfold mints. rewrite collect_results_Ok. intros HF.
  unfold total_sweepable, total_deposit_fees, deposit_count, btree_keys, btree_values.
  rewrite <- btree_iter_length.
  assert (forall k d, (k, d) ∈ btree_iter (sw_deposits s) -> sw_deposits s !! k = Some d) as Hlk
    by (intros; by apply elem_of_btree_iter).
  revert Hlk HF. generalize (btree_iter (sw_deposits s)) as l. intros l Hlk HF.
  induction HF as [|[k d] c l ms Hc HF IH]; cbn.
  - split_and!; [done | by intros ? ?%not_elem_of_nil | lia].
  - apply mint_of_Ok in Hc as (Hid & Hamt & Hs1 & Hs2). cbn in *.
    destruct IH as (IH1 & IH2 & IH3); [intros; apply Hlk; by right|]. split_and!.
    + by rewrite Hid, IH1.
    + intros c' [->|Hc']%elem_of_cons; [|by apply IH2]. exists d. rewrite Hid, Hamt.
      split_and!; [apply Hlk; left | done | done | lia].
    + lia.
Qed.

(** The mints and the deposit fees together never exceed what the sweep transfers. *)
Lemma mints_within_transfers ms :
  mints s = Ok ms ->
  zsum (map cd_amount_to_mint ms) + total_deposit_fees (sw_deposits s) <=
  zsum (map tr_amount (sw_transfers s)).
Proof.
  intros (_ & _ & ->)%mints_Ok. rewrite (swf_total _ Hwf). pose proof fee_shares_cover. lia.
Qed.

Lemma expected_received_exact :
  total_sweepable (sw_deposits s) < u64_modulus ->
  sw_expected_received s = total_sweepable (sw_deposits s) - sw_fee s.
Proof.
  intros Htot. rewrite (swf_expected _ Hwf), wsum_exact; [apply (swf_total _ Hwf)|].
  rewrite (swf_total _ Hwf). split.
  - rewrite <- (swf_total _ Hwf). apply zsum_nonneg. apply Forall_forall. intros a Ha.
    apply list_elem_of_fmap in Ha as (t & -> & Ht).
    destruct (swf_amounts _ Hwf t Ht) as (d & Hd & _ & Hamt).
    destruct (swf_payer _ Hwf) as (pd & Hpd & Hfee & _). unfold fee_paid_by in Hamt.
    pose proof (sweepable_range d). destruct (Z.eqb_spec (tr_deposit_id t) (sw_fee_payer s)) as [He|]; [|lia].
    rewrite He, Hpd in Hd. simplify_eq. lia.
  - rewrite (swf_fee _ Hwf). unfold wmul.
    pose proof (wrap64_range (FEE_PER_SIGNATURE * Z.of_nat (size (sw_deposits s)))) as [Hr _]. lia.
Qed.
End Mints.

Lemma total_sweepable_nonneg m : 0 <= total_sweepable m.
Proof.
  apply zsum_nonneg, Forall_forall. intros a (d & -> & _)%list_elem_of_fmap. apply sweepable_range.
Qed.

Lemma total_deposit_fees_nonneg m :
  (forall k d, m !! k = Some d -> 0 <= deposit_fee d) -> 0 <= total_deposit_fees m.
Proof.
  intros Hm. apply zsum_nonneg, Forall_forall. intros a (d & -> & Hd)%list_elem_of_fmap.
  apply elem_of_btree_values in Hd as [k Hd]. by eapply Hm.
Qed.

(** ** Lemmas on settlement *)
Section Settlement.
Context `{Platform}.

Lemma check_transfer_Ok s fee balances t u :
  check_transfer s fee balances t = Ok u <->
  exists pre post, balances !! tr_from t = Some (pre, post) /\
    pre - post = tr_amount t +w fee_paid_by s fee t /\ post <= pre /\ RENT_EXEMPTION_THRESHOLD <= post.
Proof.
  unfold check_transfer, balance_of, ok_or. destruct (balances !! tr_from t) as [[pre post]|]; cbn; [|naive_solver].
  case_bool_decide as Hdec; cbn.
  - apply checked_sub_Some in Hdec as [Hdec Hle]. destruct (Z.ltb_spec post RENT_EXEMPTION_THRESHOLD).
    + split; [done|]. intros (? & ? & [= <- <-] & ?). lia.
    + destruct u. split; [|done]. intros _. exists pre, post. split_and!; [done | lia..].
  - split; [done|]. intros (? & ? & [= <- <-] & Hd & ? & ?). destruct Hdec. apply checked_sub_Some. lia.
Qed.

Definition meta_balances (m : Message) (meta : TransactionMeta) : list (Address * (Lamport * Lamport)) :=
  zip (msg_account_keys m) (zip (pre_balances meta) (post_balances meta)).

(** The conditions under which a sweep settles. *)
Definition settles (s : Sweep) (m : Message) (meta : TransactionMeta) : Prop :=
  meta_err meta = None /\
  m = sweep_message s (msg_recent_blockhash m) /\
  length (pre_balances meta) = length (msg_account_keys m) /\
  length (post_balances meta) = length (msg_account_keys m) /\
  meta_fee meta <= sw_fee s /\
  (forall t, t ∈ sw_transfers s -> exists pre post,
     collect_map (meta_balances m meta) !! tr_from t = Some (pre, post) /\
     pre - post = tr_amount t +w fee_paid_by s (meta_fee meta) t /\ post <= pre /\
     RENT_EXEMPTION_THRESHOLD <= post) /\
  (exists pre post,
     collect_map (meta_balances m meta) !! sw_minter_address s = Some (pre, post) /\
     post - pre = sw_expected_received s /\ pre <= post).

Lemma check_transfers_Ok s fee balances :
  (exists us, collect_results (check_transfer s fee balances) (sw_transfers s) = Ok us) <->
  (forall t, t ∈ sw_transfers s -> exists pre post, balances !! tr_from t = Some (pre, post) /\
    pre - post = tr_amount t +w fee_paid_by s fee t /\ post <= pre /\ RENT_EXEMPTION_THRESHOLD <= post).
Proof.
  setoid_rewrite collect_results_Ok. split.
  - intros [us HF] t Ht. destruct (Forall2_elem_l _ _ _ _ HF Ht) as ([] & _ & Hc). by apply check_transfer_Ok in Hc.
  - intros Hall. exists (map (fun _ => tt) (sw_transfers s)). apply Forall2_fmap_r, Forall2_same_length_lookup.
    split; [done|]. intros i x y Hx Hy. rewrite Hx in Hy. simplify_eq.
    apply check_transfer_Ok, Hall. by eapply list_elem_of_lookup_2.
Qed.

Lemma settle_Ok s tx meta r :
  settle s tx meta = Ok r <->
  exists m mt, tx = ExecutedLegacy m /\ meta = Some mt /\ settles s m mt /\
    amount_received r = sw_expected_received s /\ mints s = Ok (settled_mints r).
Proof.
  split.
  - unfold settle, settles. intros Hs. destruct meta as [mt|]; cbn in Hs; [|done].
    destruct (meta_err mt) eqn:Herr; [done|]. destruct tx as [m|]; [|done].
    case_bool_decide as Hm; cbn in Hs; [|done].
    destruct (negb _ || negb _)%bool eqn:Hlen; [done|].
    apply orb_false_iff in Hlen as [H1%negb_false_iff%Nat.eqb_eq H2%negb_false_iff%Nat.eqb_eq].
    destruct (Z.ltb_spec (sw_fee s) (meta_fee mt)); [done|].
    destruct (collect_results _ _) as [us|] eqn:Hus; cbn in Hs; [|done].
    pose proof (proj1 (check_transfers_Ok _ _ _) (ex_intro _ us Hus)) as Hchk.
    unfold balance_of, ok_or in Hs.
    destruct (collect_map _ !! sw_minter_address s) as [[pre post]|] eqn:Hb; cbn in Hs; [|done].
    destruct (checked_sub post pre) as [rcv|] eqn:Hsub; cbn in Hs; [|done].
    apply checked_sub_Some in Hsub as [-> Hle].
    destruct (Z.eqb_spec (post - pre) (sw_expected_received s)) as [Heq|]; cbn in Hs; [|done].
    destruct (mints s) as [ms|] eqn:Hms; cbn in Hs; [|done]. simplify_eq. cbn.
    exists m, mt. split_and!; try done. by exists pre, post.
  - intros (m & mt & -> & -> & (Herr & Hm & H1 & H2 & Hfee & Hall & pre & post & Hb & Heq & Hle) & Hr & Hms).
    unfold settle. cbn. rewrite Herr. rewrite bool_decide_true by done. cbn.
    rewrite H1, H2, !Nat.eqb_refl. cbn. destruct (Z.ltb_spec (sw_fee s) (meta_fee mt)); [lia|].
    apply (proj2 (check_transfers_Ok _ _ _)) in Hall as [us Hus]. unfold meta_balances in Hus, Hb. rewrite Hus. cbn.
    unfold balance_of. rewrite Hb. cbn. rewrite (proj2 (checked_sub_Some post pre _) (conj eq_refl Hle)). cbn.
    rewrite Heq, Z.eqb_refl. cbn. rewrite Hms. cbn. destruct r. cbn in *. by subst.
Qed.

(** A transfer never exceeds 64 bits together with the fee, so the unchecked
    addition of [settle] is exact. *)
Lemma expected_decrease_exact s t fee :
  sweep_wf s -> t ∈ sw_transfers s -> 0 <= fee <= sw_fee s ->
  tr_amount t +w fee_paid_by s fee t = tr_amount t + fee_paid_by s fee t.
Proof.
  intros Hwf Ht Hfee. destruct (swf_amounts _ Hwf t Ht) as (d & Hd & _ & Hamt).
  destruct (swf_payer _ Hwf) as (pd & Hpd & Hpfee & _).
  pose proof (sweepable_range d). unfold wadd. apply wrap64_small. unfold is_u64, fee_paid_by in *.
  destruct (Z.eqb_spec (tr_deposit_id t) (sw_fee_payer s)) as [He|]; [|lia].
  rewrite He, Hpd in Hd. simplify_eq. lia.
Qed.
End Settlement.

(** ** Lemmas on the sweeps of a stage *)
Lemma find_deposit_None l i :
  find_deposit l i = None <-> forall sig s, (sig, s) ∈ l -> sw_deposits s !! i = None.
Proof.
  induction l as [|[sig s] l IH]; cbn.
  - split; [by intros _ ? ? ?%not_elem_of_nil | done].
  - destruct (sw_deposits s !! i) eqn:Hi.
    + split; [done|]. intros Hall. specialize (Hall sig s (list_elem_of_here _ _)). congruence.
    + rewrite IH. split.
      * intros Hall sig' s' [[= -> ->]|Hin]%elem_of_cons; eauto.
      * intros Hall sig' s' Hin. eapply Hall. by right.
Qed.

Lemma find_deposit_Some l i sig d :
  find_deposit l i = Some (sig, d) -> exists s, (sig, s) ∈ l /\ sw_deposits s !! i = Some d.
Proof.
  induction l as [|[sig' s'] l IH]; cbn; [done|]. destruct (sw_deposits s' !! i) eqn:Hi.
  - intros [= <- <-]. exists s'. split; [left | done].
  - intros (s & Hin & Hd)%IH. exists s. split; [by right | done].
Qed.

Lemma sweeps_deposit_None sweeps i :
  sweeps_deposit sweeps i = None <->
  forall sig s, by_signature sweeps !! sig = Some s -> sw_deposits s !! i = None.
Proof.
  unfold sweeps_deposit. rewrite find_deposit_None. by setoid_rewrite elem_of_btree_iter.
Qed.

Lemma sweeps_deposit_Some sweeps i sig d :
  sweeps_deposit sweeps i = Some (sig, d) ->
  exists s, by_signature sweeps !! sig = Some s /\ sw_deposits s !! i = Some d.
Proof.
  unfold sweeps_deposit. intros (s & Hin & Hd)%find_deposit_Some. exists s.
  by rewrite <- elem_of_btree_iter.
Qed.

Lemma sweeps_insert_Done sweeps sig s sweeps' :
  sweeps_insert sweeps sig s = Done sweeps' <->
  (forall i, is_Some (sw_deposits s !! i) -> sweeps_deposit sweeps i = None) /\
  by_signature sweeps !! sig = None /\
  sweeps' = mkSweeps (<[sig := s]> (by_signature sweeps)).
Proof.
  assert (forall l u, foreach (fun (_ : unit) deposit_id =>
    assert_ (bool_decide (sweeps_deposit sweeps deposit_id = None))
      "Attempted to record deposit in sweep while another sweep holds it") tt l = Done u <->
    forall i, i ∈ l -> sweeps_deposit sweeps i = None) as Hloop.
  { induction l as [|i l IH]; intros []; cbn.
    - split; [by intros _ ? ?%not_elem_of_nil | done].
    - unfold assert_. case_bool_decide as Hi; cbn.
      + rewrite IH. setoid_rewrite elem_of_cons. naive_solver.
      + split; [done|]. intros Hall. destruct Hi. apply Hall. left. }
  unfold sweeps_insert. setoid_rewrite <- elem_of_btree_keys. split.
  - intros Hi. inv_done. rename select (foreach _ _ _ = _) into Hl. pose proof (proj1 (Hloop _ _) Hl).
    rename select (bool_decide _ = true) into Hb. apply bool_decide_eq_true in Hb. naive_solver.
  - intros (Hall & Hsig & ->). rewrite (proj2 (Hloop _ tt) Hall). cbn.
    by rewrite bool_decide_true by done.
Qed.

Lemma sweeps_remove_Some sweeps sig s sweeps' :
  sweeps_remove sweeps sig = Some (s, sweeps') <->
  by_signature sweeps !! sig = Some s /\ sweeps' = mkSweeps (delete sig (by_signature sweeps)).
Proof. unfold sweeps_remove. destruct (by_signature sweeps !! sig); cbn; naive_solver. Qed.

(** ** Properties *)

(** The deposits of one sweep in the concrete instances below. *)
Definition example_deposit (owner address balance : Z) (fee : option Lamport) : QueuedDeposit :=
  mkQueuedDeposit (mkAccount [owner] []) address
    (default (mkDepositBalance RENT_EXEMPTION_THRESHOLD eq_refl) (DepositBalance_new balance)) fee.

Definition example_deposits : list (DepositSolId * QueuedDeposit) :=
  [(0, example_deposit 1 101 2000000 None); (1, example_deposit 2 102 9000000 (Some 10000));
   (2, example_deposit 3 103 9000000 None)].

Definition example_sweep : Sweep :=
  match plan example_deposits 500 with Done s => s | Panic _ => mkSweep ∅ 0 0 0 [] 0 end.

(** C27: a planned sweep transfers from every deposit address exactly once, to
    the given minter address; a deposit with the largest sweepable amount pays
    the fee of one signature per deposit; each address is left with exactly
    the rent exemption threshold; the other transfers follow by decreasing
    amount; and the minter address receives the sweepable amounts minus the
    fee. The only bound assumed is that the swept lamports fit in 64 bits. *)
Theorem sweep_plan_correct deposits addr s :
  plan deposits addr = Done s ->
  total_sweepable (sw_deposits s) < u64_modulus ->
  sw_deposits s = list_to_map deposits /\ sw_minter_address s = addr /\
  map tr_deposit_id (sw_transfers s) ≡ₚ deposits.*1 /\
  (forall t, t ∈ sw_transfers s -> exists d, (tr_deposit_id t, d) ∈ deposits /\
     tr_from t = qd_address d /\
     balance_lamports (qd_balance d) - tr_amount t - fee_paid_by s (sw_fee s) t
       = RENT_EXEMPTION_THRESHOLD) /\
  (exists payer others, sw_transfers s = payer :: others /\ tr_deposit_id payer = sw_fee_payer s /\
     StronglySorted (fun t u => tr_amount u <= tr_amount t) others) /\
  (exists d, (sw_fee_payer s, d) ∈ deposits /\
     forall k d', (k, d') ∈ deposits -> sweepable_amount d' <= sweepable_amount d) /\
  sw_fee s = FEE_PER_SIGNATURE *w Z.of_nat (length deposits) /\
  sw_expected_received s = total_sweepable (sw_deposits s) - sw_fee s /\
  sw_expected_received s = zsum (map tr_amount (sw_transfers s)).
Proof.
  intros (Hnd & Hdep & Haddr & Hwf)%plan_Done Htot.
  assert (forall k d, (k, d) ∈ deposits <-> sw_deposits s !! k = Some d) as Hin
    by (intros; rewrite Hdep; by rewrite elem_of_list_to_map).
  pose proof (expected_received_exact _ Hwf Htot) as Hexp.
  destruct (swf_transfers _ Hwf) as (payer & others & Htr & Hpid & Hperm & Hsorted).
  split_and!; [done | done | | | by exists payer, others | | | done | by rewrite (swf_total _ Hwf)].
  - rewrite Hperm. unfold btree_keys. rewrite btree_iter_perm, Hdep. by rewrite map_to_list_to_map.
  - intros t Ht. destruct (swf_amounts _ Hwf t Ht) as (d & Hd & Hfrom & Hamt). exists d. rewrite Hin.
    split_and!; [done..|]. unfold sweepable_amount, balance_sweepable_amount in Hamt. lia.
  - destruct (swf_payer _ Hwf) as (d & Hd & _ & Hmax). exists d. setoid_rewrite Hin. done.
  - rewrite (swf_fee _ Hwf), Hdep. by rewrite size_list_to_map.
Qed.

Lemma sweep_plan_correct_witness :
  sw_fee_payer example_sweep = 1 /\ sw_expected_received example_sweep = 17312360 /\
  sw_fee example_sweep = FEE_PER_SIGNATURE *w Z.of_nat (length example_deposits).
Proof.
  split; [vm_compute; reflexivity|]. split; [vm_compute; reflexivity|].
  apply (sweep_plan_correct example_deposits 500 example_sweep); vm_compute; reflexivity.
Defined.

(** C28: a sweep of up to [MAX_SIGNATURES] distinct deposits, each of at least a
    minimum amount that covers the largest sweep fee on top of the rent
    exemption threshold, is always planned, and when no deposit fee exceeds
    the minimum amount minus the threshold, one signature fee and one lamport,
    every deposit of the plan has a positive amount to mint. *)
Theorem sweep_plan_and_mints_succeed deposits addr minimum_deposit_amount :
  NoDup deposits.*1 -> deposits <> [] -> Z.of_nat (length deposits) <= MAX_SIGNATURES ->
  MAX_SIGNATURES * FEE_PER_SIGNATURE + RENT_EXEMPTION_THRESHOLD <= minimum_deposit_amount ->
  (forall k d, (k, d) ∈ deposits -> minimum_deposit_amount <= balance_lamports (qd_balance d)) ->
  (forall k d, (k, d) ∈ deposits ->
    deposit_fee d <= minimum_deposit_amount - RENT_EXEMPTION_THRESHOLD - FEE_PER_SIGNATURE - 1) ->
  exists s ms, plan deposits addr = Done s /\ mints s = Ok ms /\
    forall c, c ∈ ms -> 0 < cd_amount_to_mint c.
Proof.
  intros Hnd Hne Hlen Hmin Hbal Hfee.
  assert (forall n, 0 <= n <= 10 -> FEE_PER_SIGNATURE *w n = 5000 * n) as Hwmul.
  { intros n Hn. unfold wmul. apply wrap64_small. unfold is_u64, FEE_PER_SIGNATURE, u64_modulus. lia. }
  assert (forall k d, (k, d) ∈ deposits -> minimum_deposit_amount - RENT_EXEMPTION_THRESHOLD <= sweepable_amount d) as Hsw.
  { intros k d Hd. specialize (Hbal k d Hd). unfold sweepable_amount, balance_sweepable_amount. lia. }
  unfold MAX_SIGNATURES in Hlen, Hmin.
  destruct (plan_succeeds deposits addr Hnd Hne) as [s Hs].
  { intros k d Hd. specialize (Hsw k d Hd). rewrite Hwmul by lia.
    unfold FEE_PER_SIGNATURE in *. lia. }
  destruct (plan_Done _ _ _ Hs) as (_ & Hdep & _ & Hwf).
  assert (fee_share s <= FEE_PER_SIGNATURE) as Hshare.
  { pose proof (deposit_count_pos _ Hwf) as Hpos. unfold fee_share.
    pose proof (div_ceil_bounds (sw_fee s) (Z.of_nat (deposit_count s))) as Hb.
    rewrite (swf_fee _ Hwf) in *. fold (deposit_count s) in *.
    assert (Z.of_nat (deposit_count s) <= 10).
    { unfold deposit_count. rewrite Hdep, size_list_to_map by done. lia. }
    rewrite Hwmul in * by lia. unfold FEE_PER_SIGNATURE. nia. }
  assert (forall e, e ∈ btree_iter (sw_deposits s) -> exists c, mint_of (fee_share s) e = Ok c /\ 0 < cd_amount_to_mint c) as Hmint.
  { intros [k d] Hd. apply elem_of_btree_iter in Hd. rewrite Hdep in Hd. apply elem_of_list_to_map in Hd; [|done].
    specialize (Hsw k d Hd). specialize (Hfee k d Hd).
    exists (mkCreditedDeposit k (sweepable_amount d - fee_share s - deposit_fee d)).
    rewrite mint_of_Ok. cbn. unfold FEE_PER_SIGNATURE, RENT_EXEMPTION_THRESHOLD in *. lia. }
  exists s. unfold mints. revert Hmint. generalize (btree_iter (sw_deposits s)) as l. intros l Hmint.
  assert (exists ms, collect_results (mint_of (fee_share s)) l = Ok ms /\
    forall c, c ∈ ms -> 0 < cd_amount_to_mint c) as (ms & Hms & Hpos); [|by exists ms].
  clear - Hmint. induction l as [|e l IH]; cbn.
  - eexists. split; [done|]. by intros ? ?%not_elem_of_nil.
  - destruct (Hmint e (list_elem_of_here _ _)) as (c & Hc & Hpos). rewrite Hc. cbn.
    destruct IH as (ms & Hms & Hall); [intros; apply Hmint; by right|]. rewrite Hms. cbn.
    eexists. split; [done|]. intros c' [->|]%elem_of_cons; auto.
Qed.

Lemma sweep_plan_and_mints_succeed_witness :
  exists s ms, plan example_deposits 500 = Done s /\ mints s = Ok ms /\
    forall c, c ∈ ms -> 0 < cd_amount_to_mint c.
Proof.
  apply (sweep_plan_and_mints_succeed example_deposits 500 2000000).
  - apply (bool_decide_unpack _). vm_compute. exact I.
  - discriminate.
  - vm_compute. discriminate.
  - vm_compute. discriminate.
  - intros k d Hin. assert (Forall (fun e : Z * QueuedDeposit => 2000000 <= balance_lamports (qd_balance e.2))
      example_deposits) as HF by (repeat constructor; vm_compute; discriminate).
    rewrite Forall_forall in HF. exact (HF _ Hin).
  - intros k d Hin. assert (Forall (fun e : Z * QueuedDeposit => deposit_fee e.2 <=
      2000000 - RENT_EXEMPTION_THRESHOLD - FEE_PER_SIGNATURE - 1)
      example_deposits) as HF by (repeat constructor; vm_compute; discriminate).
    rewrite Forall_forall in HF. exact (HF _ Hin).
Defined.

(** C29: the plan is a function of the set of deposits, not of the order in
    which they are given, so the plan recovered from the deposit ids recorded
    in a [SubmittedTransaction] event is the plan the transaction was built
    from; and it is recovered exactly when the submitted message is the one
    the plan builds with the blockhash it carries. *)
Theorem sweep_recovered_from_message `{!Platform, !PlatformLaws} deposits deposits' addr s h m :
  plan deposits addr = Done s -> deposits' ≡ₚ deposits ->
  recover deposits' addr (Legacy (sweep_message s h)) = Done (Ok s) /\
  (recover deposits' addr (Legacy m) = Done (Ok s) <-> m = sweep_message s (msg_recent_blockhash m)).
Proof.
  intros Hplan Hperm.
  pose proof (plan_perm _ _ _ _ Hplan Hperm) as Hplan'.
  assert (forall m, recover deposits' addr (Legacy m) = Done (Ok s) <->
    m = sweep_message s (msg_recent_blockhash m)) as Hiff.
  { intros m'. unfold recover. rewrite Hplan'. cbn. case_bool_decide as He.
    - split; [intros _; by injection He | done].
    - split; [done|]. intros Hm. destruct He. by rewrite <- Hm. }
  split; [|apply Hiff]. apply Hiff. unfold sweep_message at 3. by rewrite new_with_blockhash_hash.
Qed.

Lemma sweep_recovered_from_message_witness :
  recover (reverse example_deposits) 500 (Legacy (sweep_message example_sweep 77)) = Done (Ok example_sweep).
Proof.
  refine (proj1 (sweep_recovered_from_message example_deposits (reverse example_deposits) 500
    example_sweep 77 (sweep_message example_sweep 77) _ _)).
  - vm_compute. reflexivity.
  - apply reverse_Permutation.
Defined.

(** C26: a sweep settles only when the executed message is the planned one and
    the reported balances agree with the plan: every deposit address paid its
    transfer (and the fee payer the charged fee) and stays rent-exempt, and
    the minter address received the reported amount. Every deposit then gets
    exactly one mint, of at most its sweepable amount, and the mints and the
    collected deposit fees together never exceed the amount received. *)
Theorem settle_credits_at_most_received `{!Platform} deposits addr s tx meta settled :
  plan deposits addr = Done s ->
  (forall k d, (k, d) ∈ deposits -> 0 <= deposit_fee d) ->
  (forall mt, meta = Some mt -> 0 <= meta_fee mt) ->
  total_sweepable (sw_deposits s) < u64_modulus ->
  settle s tx meta = Ok settled ->
  exists m mt, tx = ExecutedLegacy m /\ meta = Some mt /\ meta_err mt = None /\
    m = sweep_message s (msg_recent_blockhash m) /\
    (forall t, t ∈ sw_transfers s -> exists pre post, (tr_from t, (pre, post)) ∈ meta_balances m mt /\
       pre - post = tr_amount t + fee_paid_by s (meta_fee mt) t /\ RENT_EXEMPTION_THRESHOLD <= post) /\
    (exists pre post, (addr, (pre, post)) ∈ meta_balances m mt /\ post - pre = amount_received settled) /\
    map cd_deposit_id (settled_mints settled) ≡ₚ deposits.*1 /\
    (forall c, c ∈ settled_mints settled -> exists d, (cd_deposit_id c, d) ∈ deposits /\
       0 <= cd_amount_to_mint c <= sweepable_amount d) /\
    zsum (map cd_amount_to_mint (settled_mints settled)) + total_deposit_fees (sw_deposits s)
      <= amount_received settled.
Proof.
  intros (Hnd & Hdep & Haddr & Hwf)%plan_Done Hfees Hmeta Htot (m & mt & -> & -> & Hset & Hrcv & Hms)%settle_Ok.
  assert (forall k d, (k, d) ∈ deposits <-> sw_deposits s !! k = Some d) as Hin
    by (intros; rewrite Hdep; by rewrite elem_of_list_to_map).
  destruct Hset as (Herr & Hm & _ & _ & Hfee & Htr & pre & post & Hb & Hdiff & _).
  specialize (Hmeta mt eq_refl). pose proof (mints_Ok s _ Hms) as (Hids & Hamts & _).
  exists m, mt. split_and!; [done.. | | | | |].
  - intros t Ht. destruct (Htr t Ht) as (pre' & post' & Hb' & Hd & _ & Hrent). exists pre', post'.
    rewrite <- (expected_decrease_exact s t (meta_fee mt)) by done.
    split_and!; [by apply collect_map_lookup | done | done].
  - exists pre, post. rewrite <- Haddr. split; [by apply collect_map_lookup | congruence].
  - rewrite Hids. unfold btree_keys. rewrite btree_iter_perm, Hdep. by rewrite map_to_list_to_map.
  - intros c Hc. destruct (Hamts c Hc) as (d & Hd & Ha & Hs & Hpos). exists d. rewrite Hin.
    pose proof (fee_share_nonneg s Hwf). specialize (Hfees _ _ (proj2 (Hin _ _) Hd)). split; [done | lia].
  - pose proof (mints_within_transfers s Hwf _ Hms). rewrite Hrcv.
    rewrite (expected_received_exact s Hwf Htot), <- (swf_total _ Hwf). done.
Qed.

Definition example_meta : TransactionMeta :=
  mkMeta None 15000 [9000000; 9000000; 2000000; 1000; 1] [890880; 890880; 890880; 17313360; 1].

Definition example_settled : SettledSweep :=
  mkSettledSweep 17312360 [mkCreditedDeposit 0 1104120; mkCreditedDeposit 1 8094120;
                           mkCreditedDeposit 2 8104120].

Lemma settle_credits_at_most_received_witness :
  settle example_sweep (ExecutedLegacy (sweep_message example_sweep 77)) (Some example_meta)
    = Ok example_settled /\
  exists m mt, ExecutedLegacy (sweep_message example_sweep 77) = ExecutedLegacy m /\
    Some example_meta = Some mt /\ meta_err mt = None.
Proof.
  split; [vm_compute; reflexivity|].
  destruct (settle_credits_at_most_received example_deposits 500 example_sweep
    (ExecutedLegacy (sweep_message example_sweep 77)) (Some example_meta) example_settled)
    as (m & mt & H1 & H2 & H3 & _).
  - vm_compute. reflexivity.
  - intros k d Hin. assert (Forall (fun e : Z * QueuedDeposit => 0 <= deposit_fee e.2) example_deposits)
      as HF by (repeat constructor; vm_compute; discriminate).
    rewrite Forall_forall in HF. exact (HF _ Hin).
  - intros mt [= <-]. vm_compute. discriminate.
  - vm_compute. reflexivity.
  - vm_compute. reflexivity.
  - exists m, mt. split; [exact H1|]. split; [exact H2 | exact H3].
Defined.
