(* ===== verification/Deposits.v ===== *)
(** [Deposits] of minter/src/state/deposits: the deposits grouped by their
    progress towards a ckSOL mint, and the abstract lifecycle they implement. *)
From S2P Require Import Prelude Platform Events ConcretePlatform TimedSizedMap Watchlist Sweeps.

Record SweptDeposit := mkSweptDeposit { sd_deposit : QueuedDeposit; sd_signature : Signature }.

Record PendingMint := mkPendingMint {
  pm_deposit : SweptDeposit;
  pm_amount_to_mint : Lamport;
  pm_created_at_time : Timestamp
}.

Inductive QuarantineCause : Type :=
  | SweepUnreadable
  | MintUnresolved (amount_to_mint : Lamport) (created_at_time : Timestamp).

Record QuarantinedDeposit := mkQuarantinedDeposit {
  qn_deposit : SweptDeposit;
  qn_cause : QuarantineCause
}.

Record MintedSweep := mkMintedSweep {
  mt_deposit : SweptDeposit;
  mt_minted_amount : Lamport;
  mt_mint_block_index : LedgerMintIndex
}.

Definition pm_account (p : PendingMint) : Account := qd_account (sd_deposit (pm_deposit p)).
Definition pm_sweep_signature (p : PendingMint) : Signature := sd_signature (pm_deposit p).

(** [DepositSolStatus] of libs/types. *)
Inductive DepositSolStatus : Type :=
  | StatusNotFound
  | StatusQueued (sweepable_amount : Lamport)
  | StatusSwept (signature : Signature)
  | StatusFinalized (signature : Signature)
  | StatusMinted (block_index : LedgerMintIndex) (minted_amount : Lamport)
  | StatusDropped (signature : Signature)
  | StatusQuarantined (signature : Signature).

Inductive InFlightDeposit : Type :=
  | Processing (deposit_id : DepositSolId)
  | InFlightQuarantined (deposit_id : DepositSolId).

Record Deposits := mkDeposits {
  next_id : DepositSolId;
  queued : gmap DepositSolId QueuedDeposit;
  swept : Sweeps;
  finalized : Sweeps;
  pending_mints : gmap DepositSolId PendingMint;
  minted : gmap DepositSolId MintedSweep;
  dropped : gmap DepositSolId SweptDeposit;
  quarantined : gmap DepositSolId QuarantinedDeposit;
  in_flight_ids : gmap Account DepositSolId;
  latest_ids : gmap Account DepositSolId;
  queued_at_by_id : gmap DepositSolId Timestamp;
  watchlist : Watchlist
}.

#[export] Instance Deposits_eta : Eta Deposits := fun d =>
  mkDeposits (next_id d) (queued d) (swept d) (finalized d) (pending_mints d) (minted d) (dropped d)
    (quarantined d) (in_flight_ids d) (latest_ids d) (queued_at_by_id d) (watchlist d).

Definition deposits_default : Deposits :=
  mkDeposits 0 ∅ sweeps_default sweeps_default ∅ ∅ ∅ ∅ ∅ ∅ ∅ watchlist_default.

(** ** Queries *)
Definition in_flight_id (d : Deposits) (account : Account) : option DepositSolId :=
  in_flight_ids d !! account.

Definition latest_id (d : Deposits) (account : Account) : option DepositSolId :=
  latest_ids d !! account.

Definition oldest_in_flight_queued_at (d : Deposits) : option Timestamp :=
  list_min (btree_values (queued_at_by_id d)).

Definition oldest_pending_mint_created_at (d : Deposits) : option Timestamp :=
  list_min (map pm_created_at_time (btree_values (pending_mints d))).

Definition status (d : Deposits) (deposit_id : DepositSolId) : DepositSolStatus :=
  match queued d !! deposit_id with
  | Some deposit => StatusQueued (sweepable_amount deposit)
  | None =>
  match sweeps_deposit (swept d) deposit_id with
  | Some (signature, _) => StatusSwept signature
  | None =>
  match sweeps_deposit (finalized d) deposit_id with
  | Some (signature, _) => StatusFinalized signature
  | None =>
  match pending_mints d !! deposit_id with
  | Some pending => StatusFinalized (pm_sweep_signature pending)
  | None =>
  match minted d !! deposit_id with
  | Some minted => StatusMinted (mt_mint_block_index minted) (mt_minted_amount minted)
  | None =>
  match dropped d !! deposit_id with
  | Some dropped => StatusDropped (sd_signature dropped)
  | None =>
  match quarantined d !! deposit_id with
  | Some quarantined => StatusQuarantined (sd_signature (qn_deposit quarantined))
  | None => StatusNotFound
  end end end end end end end.

Definition in_flight (d : Deposits) (account : Account) : outcome (option InFlightDeposit) :=
  match in_flight_id d account with
  | None => Done None
  | Some deposit_id =>
      match status d deposit_id with
      | StatusQueued _ | StatusSwept _ | StatusFinalized _ => Done (Some (Processing deposit_id))
      | StatusQuarantined _ => Done (Some (InFlightQuarantined deposit_id))
      | StatusDropped _ | StatusMinted _ _ | StatusNotFound =>
          Panic "BUG: in-flight deposit has an unexpected status"
      end
  end.

(** ** Operations *)
Definition queue (d : Deposits) (deposit_id : DepositSolId) (deposit : QueuedDeposit)
    (queued_at : Timestamp) : outcome Deposits :=
  assert_ (deposit_id =? next_id d) "Attempted to queue deposit out of sequence";;
  assert_ (bool_decide (in_flight_ids d !! qd_account deposit = None))
    "Attempted to queue a deposit for an account that already has one in flight";;
  watchlist' ← wl_remove (watchlist d) (qd_account deposit);
  Done (d <| in_flight_ids ::= <[qd_account deposit := deposit_id]> |>
          <| latest_ids ::= <[qd_account deposit := deposit_id]> |>
          <| watchlist := watchlist' |>
          <| queued ::= <[deposit_id := deposit]> |>
          <| queued_at_by_id ::= <[deposit_id := queued_at]> |>
          <| next_id := next_id d +w 1 |>).

(** The ids leave [queued] one by one, so a repeated id is an unknown one. *)
Fixpoint take_queued (queued : gmap DepositSolId QueuedDeposit) (ids : list DepositSolId)
    : outcome (gmap DepositSolId QueuedDeposit * list (DepositSolId * QueuedDeposit)) :=
  match ids with
  | [] => Done (queued, [])
  | deposit_id :: ids =>
      deposit ← expect (queued !! deposit_id) "Attempted to sweep unknown or already swept deposit";
      '(rest, deposits) ← take_queued (delete deposit_id queued) ids;
      Done (rest, (deposit_id, deposit) :: deposits)
  end.

Definition sweep `{Platform} (d : Deposits) (deposit_ids : list DepositSolId) (minter_address : Address)
    (message : VersionedMessage) (signature : Signature) : outcome (Deposits * Lamport) :=
  assert_ (negb (bool_decide (deposit_ids = []))) "Attempted to sweep no deposits";;
  '(queued', deposits) ← take_queued (queued d) deposit_ids;
  recovered ← recover deposits minter_address message;
  match recovered with
  | Err _ => Panic "Attempted to sweep with an unexpected transaction"
  | Ok sweep =>
      swept' ← sweeps_insert (swept d) signature sweep;
      Done (d <| queued := queued' |> <| swept := swept' |>, sw_expected_received sweep)
  end.

Definition release_in_flight (d : Deposits) (deposit_id : DepositSolId) (account : Account)
    : outcome Deposits :=
  assert_ (bool_decide (in_flight_ids d !! account = Some deposit_id))
    "BUG: deposit is not the in-flight deposit of account";;
  Done (d <| in_flight_ids ::= delete account |>).

Definition drop_one (signature : Signature) (d : Deposits) (entry : DepositSolId * QueuedDeposit)
    : outcome Deposits :=
  let '(deposit_id, deposit) := entry in
  d ← release_in_flight d deposit_id (qd_account deposit);
  Done (d <| queued_at_by_id ::= delete deposit_id |>
          <| dropped ::= <[deposit_id := mkSweptDeposit deposit signature]> |>).

Definition drop_swept (d : Deposits) (signature : Signature) : outcome Deposits :=
  '(sweep, swept') ← expect (sweeps_remove (swept d) signature)
    "Attempted to drop sweep that is not swept";
  foreach (drop_one signature) (d <| swept := swept' |>) (btree_iter (sw_deposits sweep)).

Definition quarantined_of (signature : Signature) (deposit : QueuedDeposit) : QuarantinedDeposit :=
  mkQuarantinedDeposit (mkSweptDeposit deposit signature) SweepUnreadable.

Definition quarantine_sweep (d : Deposits) (signature : Signature) : outcome Deposits :=
  '(sweep, finalized') ← expect (sweeps_remove (finalized d) signature)
    "Attempted to quarantine sweep that is not finalized";
  Done (d <| finalized := finalized' |>
          <| quarantined ::= fun m => fold_left (fun m (e : DepositSolId * QueuedDeposit) =>
               <[e.1 := quarantined_of signature e.2]> m) (btree_iter (sw_deposits sweep)) m |>
          <| queued_at_by_id ::= fun m => fold_left (fun m deposit_id => delete deposit_id m)
               (btree_keys (sw_deposits sweep)) m |>).

Definition finalize_swept (d : Deposits) (signature : Signature) : outcome Deposits :=
  '(sweep, swept') ← expect (sweeps_remove (swept d) signature)
    "Attempted to finalize sweep that is not swept";
  finalized' ← sweeps_insert (finalized d) signature sweep;
  Done (d <| swept := swept' |> <| finalized := finalized' |>).

Definition credit_one (sweep : Sweep) (signature : Signature) (timestamp : Timestamp)
    (pending : gmap DepositSolId PendingMint) (mint : CreditedDeposit)
    : outcome (gmap DepositSolId PendingMint) :=
  deposit ← expect (sw_deposits sweep !! cd_deposit_id mint)
    "Attempted to credit deposit that is not part of sweep";
  assert_ (cd_amount_to_mint mint <=? sweepable_amount deposit)
    "Attempted to mint beyond the sweepable amount";;
  assert_ (bool_decide (pending !! cd_deposit_id mint = None))
    "Attempted to credit deposit twice in sweep";;
  Done (<[cd_deposit_id mint :=
    mkPendingMint (mkSweptDeposit deposit signature) (cd_amount_to_mint mint) timestamp]> pending).

Definition credit_sweep (d : Deposits) (signature : Signature) (mints : list CreditedDeposit)
    (timestamp : Timestamp) : outcome (Deposits * Sweep) :=
  '(sweep, finalized') ← expect (sweeps_remove (finalized d) signature)
    "Attempted to credit sweep that is not finalized";
  assert_ (length mints =? deposit_count sweep)%nat
    "Attempted to credit sweep with another number of mints than deposits";;
  pending ← foreach (credit_one sweep signature timestamp) (pending_mints d) mints;
  Done (d <| finalized := finalized' |> <| pending_mints := pending |>, sweep).

Definition mint (d : Deposits) (deposit_id : DepositSolId) (mint_block_index : LedgerMintIndex)
    : outcome Deposits :=
  pending ← expect (pending_mints d !! deposit_id) "Attempted to mint deposit that has no pending mint";
  d ← release_in_flight (d <| pending_mints ::= delete deposit_id |>) deposit_id (pm_account pending);
  Done (d <| queued_at_by_id ::= delete deposit_id |>
          <| minted ::= <[deposit_id :=
               mkMintedSweep (pm_deposit pending) (pm_amount_to_mint pending) mint_block_index]> |>).

Definition quarantine_pending_mint (d : Deposits) (deposit_id : DepositSolId) : outcome Deposits :=
  pending ← expect (pending_mints d !! deposit_id)
    "Attempted to quarantine deposit that has no pending mint";
  Done (d <| pending_mints ::= delete deposit_id |>
          <| queued_at_by_id ::= delete deposit_id |>
          <| quarantined ::= <[deposit_id := mkQuarantinedDeposit (pm_deposit pending)
               (MintUnresolved (pm_amount_to_mint pending) (pm_created_at_time pending))]> |>).

(** ** The abstract lifecycle

    Abstractly the deposits are one map from the id to the deposit as it was
    queued and the stage it has reached. Every operation relabels stages of
    existing deposits, except [queue], which adds one. *)
Inductive Stage : Type :=
  | StQueued
  | StSwept (signature : Signature)
  | StFinalized (signature : Signature)
  | StPending (signature : Signature) (amount_to_mint : Lamport) (created_at_time : Timestamp)
  | StMinted (signature : Signature) (minted_amount : Lamport) (mint_block_index : LedgerMintIndex)
  | StDropped (signature : Signature)
  | StQuarantined (signature : Signature) (cause : QuarantineCause).

#[export] Instance QuarantineCause_eq_dec : EqDecision QuarantineCause.
Proof. solve_decision. Defined.
#[export] Instance Stage_eq_dec : EqDecision Stage.
Proof. solve_decision. Defined.

Abbreviation Lifecycle := (gmap DepositSolId (QueuedDeposit * Stage)) (only parsing).

(** A deposit that is still processed. *)
Definition processing (st : Stage) : bool :=
  match st with
  | StQueued | StSwept _ | StFinalized _ | StPending _ _ _ => true
  | StMinted _ _ _ | StDropped _ | StQuarantined _ _ => false
  end.

(** A deposit that reserves its account. *)
Definition reserves_account (st : Stage) : bool :=
  match st with
  | StMinted _ _ _ | StDropped _ => false
  | _ => true
  end.

(** The position of a stage in the lifecycle; the last three are final. *)
Definition rank (st : Stage) : Z :=
  match st with
  | StQueued => 0
  | StSwept _ => 1
  | StFinalized _ => 2
  | StPending _ _ _ => 3
  | StMinted _ _ _ | StDropped _ | StQuarantined _ _ => 4
  end.

(** The ckSOL a deposit is credited with at a stage. *)
Definition stage_amount (st : Stage) : Lamport :=
  match st with
  | StPending _ amount _ | StMinted _ amount _ | StQuarantined _ (MintUnresolved amount _) => amount
  | _ => 0
  end.

Definition stage_status (deposit : QueuedDeposit) (st : Stage) : DepositSolStatus :=
  match st with
  | StQueued => StatusQueued (sweepable_amount deposit)
  | StSwept sig => StatusSwept sig
  | StFinalized sig => StatusFinalized sig
  | StPending sig _ _ => StatusFinalized sig
  | StMinted _ amount ix => StatusMinted ix amount
  | StDropped sig => StatusDropped sig
  | StQuarantined sig _ => StatusQuarantined sig
  end.

(** The concrete record keeps the deposit [i] at stage [st]. *)
Definition holds (d : Deposits) (i : DepositSolId) (dep : QueuedDeposit) (st : Stage) : Prop :=
  match st with
  | StQueued => queued d !! i = Some dep
  | StSwept sig => exists s, by_signature (swept d) !! sig = Some s /\ sw_deposits s !! i = Some dep
  | StFinalized sig => exists s, by_signature (finalized d) !! sig = Some s /\ sw_deposits s !! i = Some dep
  | StPending sig amount t => pending_mints d !! i = Some (mkPendingMint (mkSweptDeposit dep sig) amount t)
  | StMinted sig amount ix => minted d !! i = Some (mkMintedSweep (mkSweptDeposit dep sig) amount ix)
  | StDropped sig => dropped d !! i = Some (mkSweptDeposit dep sig)
  | StQuarantined sig cause => quarantined d !! i = Some (mkQuarantinedDeposit (mkSweptDeposit dep sig) cause)
  end.

(** The concrete deposits implement the abstract lifecycle. Since the
    abstract map gives every id one stage, a deposit is in exactly one of the
    concrete maps. *)
Record implements (d : Deposits) (L : Lifecycle) : Prop := {
  im_holds : forall i dep st, holds d i dep st <-> L !! i = Some (dep, st);
  im_ids : forall i, is_Some (L !! i) <-> 0 <= i < next_id d;
  im_next : 0 <= next_id d < u64_modulus;
  im_amounts : forall i dep st, L !! i = Some (dep, st) -> stage_amount st <= sweepable_amount dep;
  im_in_flight : forall acc i, in_flight_ids d !! acc = Some i <->
    exists dep st, L !! i = Some (dep, st) /\ qd_account dep = acc /\ reserves_account st = true;
  im_queued_at : forall i, is_Some (queued_at_by_id d !! i) <->
    exists dep st, L !! i = Some (dep, st) /\ processing st = true;
  im_latest : forall acc i, latest_ids d !! acc = Some i <->
    (exists dep st, L !! i = Some (dep, st) /\ qd_account dep = acc) /\
    (forall j dep st, L !! j = Some (dep, st) -> qd_account dep = acc -> j <= i);
  im_swept_wf : forall sig s, by_signature (swept d) !! sig = Some s -> sweep_wf s;
  im_finalized_wf : forall sig s, by_signature (finalized d) !! sig = Some s -> sweep_wf s;
  im_watchlist : wl_wf (watchlist d)
}.

(** Moves the stage of every deposit. *)
Definition relabel (f : DepositSolId -> Stage -> Stage) (L : Lifecycle) : Lifecycle :=
  map_imap (fun i p => Some (p.1, f i p.2)) L.

Definition to_swept (ids : list DepositSolId) (sig : Signature) (i : DepositSolId) (st : Stage) : Stage :=
  match st with
  | StQueued => if bool_decide (i ∈ ids) then StSwept sig else st
  | _ => st
  end.
Definition to_dropped (sig : Signature) (_ : DepositSolId) (st : Stage) : Stage :=
  match st with
  | StSwept sig' => if sig' =? sig then StDropped sig else st
  | _ => st
  end.
Definition to_finalized (sig : Signature) (_ : DepositSolId) (st : Stage) : Stage :=
  match st with
  | StSwept sig' => if sig' =? sig then StFinalized sig else st
  | _ => st
  end.
Definition to_unreadable (sig : Signature) (_ : DepositSolId) (st : Stage) : Stage :=
  match st with
  | StFinalized sig' => if sig' =? sig then StQuarantined sig SweepUnreadable else st
  | _ => st
  end.
Definition mint_amount (mints : list CreditedDeposit) (i : DepositSolId) : Lamport :=
  default 0 (collect_map (map (fun c => (cd_deposit_id c, cd_amount_to_mint c)) mints) !! i).
Definition to_pending (sig : Signature) (mints : list CreditedDeposit) (t : Timestamp)
    (i : DepositSolId) (st : Stage) : Stage :=
  match st with
  | StFinalized sig' => if sig' =? sig then StPending sig (mint_amount mints i) t else st
  | _ => st
  end.
Definition to_minted (id : DepositSolId) (ix : LedgerMintIndex) (i : DepositSolId) (st : Stage) : Stage :=
  match st with
  | StPending sig amount _ => if i =? id then StMinted sig amount ix else st
  | _ => st
  end.
Definition to_unresolved (id : DepositSolId) (i : DepositSolId) (st : Stage) : Stage :=
  match st with
  | StPending sig amount t => if i =? id then StQuarantined sig (MintUnresolved amount t) else st
  | _ => st
  end.

(** ** Generic lemmas on the lifecycle *)
Lemma and_iff_compat_l_weak (A B C : Prop) : (A -> (B <-> C)) -> (A /\ B <-> A /\ C).
Proof. tauto. Qed.

Lemma relabel_lookup f L i :
  relabel f L !! i = (fun p => (p.1, f i p.2)) <$> L !! i.
Proof. unfold relabel. rewrite map_lookup_imap. by destruct (L !! i). Qed.

Lemma relabel_Some f L i dep st :
  relabel f L !! i = Some (dep, st) <-> exists st0, L !! i = Some (dep, st0) /\ st = f i st0.
Proof.
  rewrite relabel_lookup. destruct (L !! i) as [[dep0 st0]|]; cbn; naive_solver.
Qed.

Lemma relabel_is_Some f L i : is_Some (relabel f L !! i) <-> is_Some (L !! i).
Proof. rewrite relabel_lookup. by rewrite fmap_is_Some. Qed.

(** A relabelling only moves deposits forward. *)
Definition forward (f : DepositSolId -> Stage -> Stage) : Prop :=
  forall i st, f i st = st \/ rank st < rank (f i st).

Lemma rank_le st : 0 <= rank st <= 4.
Proof. destruct st; cbn; lia. Qed.

Lemma rank_processing st : processing st = true <-> rank st < 4.
Proof. destruct st; cbn; split; (done || lia). Qed.

Lemma processing_reserves st : processing st = true -> reserves_account st = true.
Proof. by destruct st. Qed.

Lemma forward_reserves f i st : forward f -> reserves_account (f i st) = true -> reserves_account st = true.
Proof.
  intros Hf Hr. destruct (Hf i st) as [He|Hlt]; [by rewrite He in Hr|].
  apply processing_reserves, rank_processing. pose proof (rank_le (f i st)). lia.
Qed.

Lemma forward_processing f i st : forward f -> processing (f i st) = true -> processing st = true.
Proof.
  intros Hf Hr. destruct (Hf i st) as [He|Hlt]; [by rewrite He in Hr|].
  apply rank_processing. pose proof (rank_le (f i st)). lia.
Qed.

Lemma to_swept_forward ids sig : forward (to_swept ids sig).
Proof. intros i st. unfold to_swept. destruct st; auto. case_bool_decide; [right; cbn; lia | by left]. Qed.
Lemma to_dropped_forward sig : forward (to_dropped sig).
Proof. intros i st. unfold to_dropped. destruct st as [|sig'|sig'| | | |]; auto. destruct (sig' =? sig); [right; cbn; lia | by left]. Qed.
Lemma to_finalized_forward sig : forward (to_finalized sig).
Proof. intros i st. unfold to_finalized. destruct st as [|sig'|sig'| | | |]; auto. destruct (sig' =? sig); [right; cbn; lia | by left]. Qed.
Lemma to_unreadable_forward sig : forward (to_unreadable sig).
Proof. intros i st. unfold to_unreadable. destruct st as [|sig'|sig'| | | |]; auto. destruct (sig' =? sig); [right; cbn; lia | by left]. Qed.
Lemma to_pending_forward sig mints t : forward (to_pending sig mints t).
Proof. intros i st. unfold to_pending. destruct st as [|sig'|sig'| | | |]; auto. destruct (sig' =? sig); [right; cbn; lia | by left]. Qed.
Lemma to_minted_forward id ix : forward (to_minted id ix).
Proof. intros i st. unfold to_minted. destruct st; auto. destruct (i =? id); [right; cbn; lia | by left]. Qed.
Lemma to_unresolved_forward id : forward (to_unresolved id).
Proof. intros i st. unfold to_unresolved. destruct st; auto. destruct (i =? id); [right; cbn; lia | by left]. Qed.

(** The deposits of a kept sweep are the ones at its stage. *)
Lemma swept_deposits d L sig s i dep :
  implements d L -> by_signature (swept d) !! sig = Some s ->
  sw_deposits s !! i = Some dep <-> L !! i = Some (dep, StSwept sig).
Proof.
  intros HI Hs. rewrite <- (im_holds _ _ HI). cbn. split; [by exists s|].
  intros (s' & Hs' & Hd). congruence.
Qed.

Lemma finalized_deposits d L sig s i dep :
  implements d L -> by_signature (finalized d) !! sig = Some s ->
  sw_deposits s !! i = Some dep <-> L !! i = Some (dep, StFinalized sig).
Proof.
  intros HI Hs. rewrite <- (im_holds _ _ HI). cbn. split; [by exists s|].
  intros (s' & Hs' & Hd). congruence.
Qed.

(** Preservation of [implements] by an operation that relabels stages: what
    remains per operation is how it moves the deposits between the maps. *)
Lemma implements_relabel d L d' f :
  implements d L -> forward f ->
  (forall i dep st, L !! i = Some (dep, st) -> stage_amount st <= sweepable_amount dep ->
     stage_amount (f i st) <= sweepable_amount dep) ->
  (forall i dep st, holds d i dep st -> holds d' i dep (f i st)) ->
  (forall i dep st, holds d' i dep st -> exists st0, holds d i dep st0 /\ st = f i st0) ->
  next_id d' = next_id d -> latest_ids d' = latest_ids d -> wl_wf (watchlist d') ->
  (forall acc i, in_flight_ids d' !! acc = Some i <-> in_flight_ids d !! acc = Some i /\
     forall dep st, L !! i = Some (dep, st) -> reserves_account (f i st) = true) ->
  (forall i, is_Some (queued_at_by_id d' !! i) <-> is_Some (queued_at_by_id d !! i) /\
     forall dep st, L !! i = Some (dep, st) -> processing (f i st) = true) ->
  (forall sig s, by_signature (swept d') !! sig = Some s -> sweep_wf s) ->
  (forall sig s, by_signature (finalized d') !! sig = Some s -> sweep_wf s) ->
  implements d' (relabel f L).
Proof.
  intros HI Hf Hamt Hto Hfrom Hnext Hlatest Hwl Hfl Hqa Hsw Hfin. constructor; [| | | | | | |done..].
  - intros i dep st. rewrite relabel_Some. setoid_rewrite <- (im_holds _ _ HI). naive_solver.
  - intros. rewrite relabel_is_Some, Hnext. apply (im_ids _ _ HI).
  - rewrite Hnext. apply (im_next _ _ HI).
  - intros i dep st (st0 & HL & ->)%relabel_Some. eapply Hamt; [done|]. by eapply (im_amounts _ _ HI).
  - intros acc i. rewrite Hfl, (im_in_flight _ _ HI). setoid_rewrite relabel_Some. split.
    + intros [(dep & st & HL & Hacc & Hr) Hkeep]. exists dep, (f i st). naive_solver.
    + intros (dep & st & (st0 & HL & ->) & Hacc & Hr). split.
      * exists dep, st0. split_and!; [done..|]. by eapply forward_reserves.
      * intros dep' st' HL'. simplify_eq. done.
  - intros i. rewrite Hqa, (im_queued_at _ _ HI). setoid_rewrite relabel_Some. split.
    + intros [(dep & st & HL & Hr) Hkeep]. exists dep, (f i st). naive_solver.
    + intros (dep & st & (st0 & HL & ->) & Hr). split.
      * exists dep, st0. split_and!; [done..|]. by eapply forward_processing.
      * intros dep' st' HL'. simplify_eq. done.
  - intros acc i. rewrite Hlatest, (im_latest _ _ HI). setoid_rewrite relabel_Some. split.
    + intros [(dep & st & HL & Hacc) Hmax]. split; [naive_solver|].
      intros j dep' st' (st0 & HL' & ->). by eapply Hmax.
    + intros [(dep & st & (st0 & HL & ->) & Hacc) Hmax]. split; [naive_solver|].
      intros j dep' st' HL'. eapply Hmax. eauto.
Qed.

(** ** Queueing *)
Lemma implements_default : implements deposits_default ∅.
Proof.
  constructor; cbn.
  - intros i dep st. rewrite lookup_empty. split; [|done].
    destruct st; cbn; rewrite ?lookup_empty; try done; by intros (s & Hs & _).
  - intros i. rewrite lookup_empty. split; [by intros [] | lia].
  - unfold u64_modulus; lia.
  - intros i dep st HL. by rewrite lookup_empty in HL.
  - intros. rewrite lookup_empty. split; [done|]. intros (? & ? & HL & _). by rewrite lookup_empty in HL.
  - intros. rewrite lookup_empty. split; [by intros []|]. intros (? & ? & HL & _). by rewrite lookup_empty in HL.
  - intros. rewrite lookup_empty. split; [done|]. intros ((? & ? & HL & _) & _). by rewrite lookup_empty in HL.
  - intros ? ? Hs. by rewrite lookup_empty in Hs.
  - intros ? ? Hs. by rewrite lookup_empty in Hs.
  - apply watchlist_default_wf.
Qed.

Lemma holds_fresh d L i dep st : implements d L -> holds d i dep st -> i <> next_id d.
Proof.
  intros HI HL%(im_holds _ _ HI). assert (is_Some (L !! i)) as Hi by eauto.
  apply (im_ids _ _ HI) in Hi. lia.
Qed.

Lemma queue_Done d id dep t d' :
  queue d id dep t = Done d' <->
  id = next_id d /\ in_flight_ids d !! qd_account dep = None /\
  exists w, wl_remove (watchlist d) (qd_account dep) = Done w /\
    d' = mkDeposits (next_id d +w 1) (<[id := dep]> (queued d)) (swept d) (finalized d) (pending_mints d)
      (minted d) (dropped d) (quarantined d) (<[qd_account dep := id]> (in_flight_ids d))
      (<[qd_account dep := id]> (latest_ids d)) (<[id := t]> (queued_at_by_id d)) w.
Proof.
  unfold queue. split.
  - intros Hq. inv_done. apply Z.eqb_eq in H. apply bool_decide_eq_true in H0. naive_solver.
  - intros (-> & Hfl & w & Hw & ->). rewrite Z.eqb_refl. cbn. rewrite bool_decide_true by done. cbn.
    rewrite Hw. done.
Qed.

Lemma holds_queue d d' L id dep :
  implements d L -> id = next_id d -> queued d' = <[id := dep]> (queued d) ->
  swept d' = swept d -> finalized d' = finalized d -> pending_mints d' = pending_mints d ->
  minted d' = minted d -> dropped d' = dropped d -> quarantined d' = quarantined d ->
  forall i dp st, holds d' i dp st <-> <[id := (dep, StQueued)]> L !! i = Some (dp, st).
Proof.
  intros HI -> Hq Hs Hf Hp Hm Hd Hqn i dp st. rewrite lookup_insert_Some.
  assert (L !! next_id d = None) as Hnone.
  { apply eq_None_not_Some. rewrite (im_ids _ _ HI). lia. }
  assert (st = StQueued \/ (st <> StQueued /\ (holds d' i dp st <-> holds d i dp st))) as [->|[Hne Hsame]].
  { destruct st; [by left|..]; right; (split; [done|]); cbn; by rewrite ?Hs, ?Hf, ?Hp, ?Hm, ?Hd, ?Hqn. }
  - cbn. rewrite Hq, lookup_insert_Some, <- (im_holds _ _ HI). cbn. naive_solver.
  - rewrite Hsame. split.
    + intros Hh. right. split; [|by apply (im_holds _ _ HI)]. symmetry. by eapply holds_fresh.
    + intros [[_ [= _ Hst]]|[_ HL]]; [congruence | by apply (im_holds _ _ HI)].
Qed.

Lemma queue_implements d L id dep t d' :
  implements d L -> next_id d < u64_max -> queue d id dep t = Done d' ->
  implements d' (<[id := (dep, StQueued)]> L).
Proof.
  intros HI Hlt (-> & Hfl & w & Hw & ->)%queue_Done. pose proof (im_next _ _ HI) as Hnext.
  assert (next_id d +w 1 = next_id d + 1) as Hsucc.
  { apply wrap64_small. unfold is_u64, u64_max, u64_modulus in *. lia. }
  assert (L !! next_id d = None) as Hnone.
  { apply eq_None_not_Some. rewrite (im_ids _ _ HI). lia. }
  constructor; cbn [next_id queued swept finalized pending_mints minted dropped quarantined in_flight_ids latest_ids queued_at_by_id watchlist].
  - by apply (holds_queue d).
  - intros i. rewrite Hsucc, lookup_insert_is_Some, (im_ids _ _ HI). lia.
  - rewrite Hsucc. unfold u64_max, u64_modulus in *. lia.
  - intros i dp st [[<- [= <- <-]]|[_ HL]]%lookup_insert_Some; [apply sweepable_range | by eapply (im_amounts _ _ HI)].
  - intros acc i. rewrite !lookup_insert_Some, (im_in_flight _ _ HI). setoid_rewrite lookup_insert_Some. split.
    + intros [[<- <-]|[Hne (dp & st & HL & Hacc & Hr)]]; [naive_solver|].
      exists dp, st. split_and!; [|done..]. right. split; [congruence | done].
    + intros (dp & st & [[<- [= <- <-]]|[Hne HL]] & Hacc & Hr); [by left|]. right. split; [|naive_solver].
      intros He. assert (in_flight_ids d !! acc = Some i) as Hi by (apply (im_in_flight _ _ HI); naive_solver).
      congruence.
  - intros i. rewrite lookup_insert_is_Some, (im_queued_at _ _ HI). setoid_rewrite lookup_insert_Some. split.
    + intros [<-|[Hne (dp & st & HL & Hp)]]; [naive_solver|]. exists dp, st. naive_solver.
    + intros (dp & st & [[<- _]|[Hne HL]] & Hp); [by left | right; naive_solver].
  - assert (forall j x, L !! j = Some x -> j < next_id d) as Hlast.
    { intros j x Hj. assert (is_Some (L !! j)) as Hs by eauto. apply (im_ids _ _ HI) in Hs. lia. }
    intros acc i. rewrite lookup_insert_Some, (im_latest _ _ HI). setoid_rewrite lookup_insert_Some. split.
    + intros [[<- <-]|[Hne [(dp & st & HL & Hacc) Hmax]]].
      * split; [naive_solver|]. intros j dp st [[<- _]|[_ HL]] _; [lia|]. specialize (Hlast _ _ HL). lia.
      * split; [exists dp, st; split; [right; split; [congruence | done] | done]|].
        intros j dp' st' [[<- [= <- <-]]|[_ HL']] Hacc'; [done | by eapply Hmax].
    + intros [(dp & st & [[<- [= <- <-]]|[Hne HL]] & Hacc) Hmax]; [by left|]. right. split.
      * intros He. specialize (Hmax (next_id d) dep StQueued (or_introl (conj eq_refl eq_refl)) He).
        specialize (Hlast _ _ HL). lia.
      * split; [naive_solver|]. intros j dp' st' HL'. eapply Hmax. right. split; [|done]. intros <-. congruence.
  - apply (im_swept_wf _ _ HI).
  - apply (im_finalized_wf _ _ HI).
  - destruct (wl_remove_spec (watchlist d) (qd_account dep) (im_watchlist _ _ HI)) as (w' & Hw' & Hwf & _). congruence.
Qed.

Lemma in_flight_kept d L f :
  implements d L -> (forall i st, reserves_account st = true -> reserves_account (f i st) = true) ->
  forall acc i, in_flight_ids d !! acc = Some i <-> in_flight_ids d !! acc = Some i /\
    forall dep st, L !! i = Some (dep, st) -> reserves_account (f i st) = true.
Proof.
  intros HI Hf acc i. split; [|by intros [? _]]. intros Hacc. split; [done|]. intros dep st HL.
  apply (im_in_flight _ _ HI) in Hacc as (dep' & st' & HL' & _ & Hr). simplify_eq. by apply Hf.
Qed.

Lemma queued_at_kept d L f :
  implements d L -> (forall i st, processing st = true -> processing (f i st) = true) ->
  forall i, is_Some (queued_at_by_id d !! i) <-> is_Some (queued_at_by_id d !! i) /\
    forall dep st, L !! i = Some (dep, st) -> processing (f i st) = true.
Proof.
  intros HI Hf i. split; [|by intros [? _]]. intros Hqa. split; [done|]. intros dep st HL.
  apply (im_queued_at _ _ HI) in Hqa as (dep' & st' & HL' & Hr). simplify_eq. by apply Hf.
Qed.

(** The credited amount is not changed by the operation, or is zero. *)
Ltac solve_amount :=
  intros ? dep [] _; cbn; try case_match; cbn; try done; pose proof (sweepable_range dep); lia.

(** A stage the operation does not touch. *)
Ltac stage_same Hh :=
  match goal with
  | |- exists st0, holds _ _ _ st0 /\ ?st = _ => exists st; split; [exact Hh | done]
  end.

(** ** Sweeping *)
Lemma take_queued_Done ids : forall q q' l,
  take_queued q ids = Done (q', l) <->
  NoDup ids /\ l.*1 = ids /\ (forall i dep, (i, dep) ∈ l -> q !! i = Some dep) /\
  (forall i, q' !! i = if decide (i ∈ ids) then None else q !! i).
Proof.
  induction ids as [|i ids IH]; intros q q' l; cbn [take_queued].
  - split.
    + intros [= <- <-]. split_and!; [constructor | done | by intros ? ? ?%not_elem_of_nil|].
      intros. by rewrite decide_False by apply not_elem_of_nil.
    + intros (_ & Hl & _ & Hq). apply fmap_nil_inv in Hl as ->. f_equal. f_equal. apply map_eq. intros i.
      by rewrite Hq, decide_False by apply not_elem_of_nil.
  - destruct (q !! i) as [dep|] eqn:Hi; cbn.
    + rewrite bind_Done. setoid_rewrite surjective_pairing. split.
      * intros ([q1 l1] & (Hnd & Hl & Hin & Hq)%IH & [= <- <-]). cbn in *. subst ids.
        assert (i ∉ l1.*1) as Hnin.
        { intros ([i' d'] & -> & He)%list_elem_of_fmap. specialize (Hin _ _ He). by rewrite lookup_delete_eq in Hin. }
        split_and!; [by constructor | done | |].
        -- intros j dj [[= -> ->]|Hj]%elem_of_cons; [done|]. apply Hin in Hj. by apply lookup_delete_Some in Hj as [_ ?].
        -- intros j. rewrite Hq. destruct (decide (j ∈ l1.*1)).
           ++ by rewrite decide_True by (by right).
           ++ destruct (decide (i = j)) as [<-|Hne].
              ** rewrite lookup_delete_eq. by rewrite decide_True by left.
              ** rewrite lookup_delete_ne by done. rewrite decide_False; [done|]. by intros [->|]%elem_of_cons.
      * intros (Hnd & Hl & Hin & Hq). apply NoDup_cons in Hnd as [Hnin Hnd].
        destruct l as [|[i' d'] l]; [done|]. injection Hl as -> Hl.
        assert (d' = dep) as -> by (specialize (Hin i d' (list_elem_of_here _ _)); congruence).
        exists (q', l). split; [|done]. apply IH. split_and!; [done..| |].
        -- intros j dj Hj. rewrite lookup_delete_ne; [apply Hin; by right|]. intros <-. apply Hnin.
           rewrite <- Hl. by apply (list_elem_of_fmap_2 fst) in Hj.
        -- intros j. rewrite Hq. destruct (decide (j ∈ ids)).
           ++ by rewrite decide_True by (by right).
           ++ destruct (decide (i = j)) as [<-|Hne].
              ** rewrite lookup_delete_eq. by rewrite decide_True by left.
              ** rewrite lookup_delete_ne by done. rewrite decide_False; [done|]. by intros [->|]%elem_of_cons.
    + split; [done|]. intros (_ & Hl & Hin & _). destruct l as [|[i' d'] l]; [done|]. injection Hl as -> _.
      specialize (Hin i d' (list_elem_of_here _ _)). congruence.
Qed.

Lemma recover_Ok `{Platform} deposits addr m s :
  recover deposits addr (Legacy m) = Done (Ok s) <->
  plan deposits addr = Done s /\ m = sweep_message s (msg_recent_blockhash m).
Proof.
  unfold recover. rewrite bind_Done. split.
  - intros (s' & Hp & Hr). case_bool_decide as He; simplify_eq. split; [done|]. congruence.
  - intros [Hp Hm]. exists s. split; [done|]. rewrite bool_decide_true; [done|]. by rewrite <- Hm.
Qed.

(** A successful [sweep] in terms of its parts. *)
Lemma sweep_Done `{Platform} d ids addr m sig d' r :
  sweep d ids addr (Legacy m) sig = Done (d', r) <->
  ids <> [] /\ exists q l s, take_queued (queued d) ids = Done (q, l) /\ plan l addr = Done s /\
    m = sweep_message s (msg_recent_blockhash m) /\
    (forall i, is_Some (sw_deposits s !! i) -> sweeps_deposit (swept d) i = None) /\
    by_signature (swept d) !! sig = None /\ r = sw_expected_received s /\
    d' = d <| queued := q |> <| swept := mkSweeps (<[sig := s]> (by_signature (swept d))) |>.
Proof.
  unfold sweep. split.
  - intros Hs. apply bind_Done in Hs as (? & Hne%assert_Done & Hs). apply bind_Done in Hs as ([q l] & Hq & Hs).
    apply bind_Done in Hs as ([s|] & Hr & Hs); [|done]. apply recover_Ok in Hr as [Hp Hm]. apply bind_Done in Hs as (sw & Hi & [= <- <-]).
    apply sweeps_insert_Done in Hi as (Hi & Hsig & ->). apply negb_true_iff, bool_decide_eq_false in Hne.
    split; [done|]. by exists q, l, s.
  - intros (Hne & q & l & s & Hq & Hp & Hm & Hi & Hsig & -> & ->). rewrite bool_decide_false by done. cbn [negb assert_ mbind outcome_bind].
    rewrite Hq. cbn [mbind outcome_bind]. rewrite (proj2 (recover_Ok _ _ _ _) (conj Hp Hm)). cbn [mbind outcome_bind].
    rewrite (proj2 (sweeps_insert_Done (swept d) sig s _) (conj Hi (conj Hsig eq_refl))). done.
Qed.

Lemma sweep_implements `{Platform} d L ids addr m sig d' r :
  implements d L -> sweep d ids addr (Legacy m) sig = Done (d', r) ->
  (forall i, i ∈ ids -> exists dep, L !! i = Some (dep, StQueued)) /\
  implements d' (relabel (to_swept ids sig) L).
Proof.
  intros HI (_ & q & l & s & (Hnd & Hl & Hin & Hq)%take_queued_Done & Hp & Hm & Hi & Hsig & -> & ->)%sweep_Done.
  destruct (plan_Done _ _ _ Hp) as (Hnd' & Hdep & _ & Hwf).
  assert (forall i dep, sw_deposits s !! i = Some dep <-> i ∈ ids /\ L !! i = Some (dep, StQueued)) as Hs.
  { intros i dep. rewrite Hdep, <- elem_of_list_to_map by done. rewrite <- (im_holds _ _ HI). cbn. split.
    - intros Hi'. split; [|by apply Hin]. subst ids. by apply (list_elem_of_fmap_2 fst) in Hi'.
    - subst ids. intros [([i' d'] & -> & Hi')%list_elem_of_fmap Hqi]. specialize (Hin _ _ Hi'). cbn in *. congruence. }
  split.
  { intros i Hii. subst ids. apply list_elem_of_fmap in Hii as ([i' dep] & -> & Hii). exists dep.
    apply (im_holds _ _ HI). by apply Hin. }
  apply (implements_relabel d L); cbn; [done | apply to_swept_forward | solve_amount | | | done | done | apply (im_watchlist _ _ HI) | | | |].
  - intros i dep st. destruct st as [|sig'| | | | |]; cbn; try done.
    + case_bool_decide as Hii; cbn.
      * intros HL. exists s. rewrite lookup_insert_eq. split; [done|]. apply Hs. split; [done|].
        by apply (im_holds _ _ HI).
      * intros HL. by rewrite Hq, decide_False.
    + intros (s' & Hs' & Hd). exists s'. rewrite lookup_insert_ne by congruence. done.
  - intros i dep st Hh. destruct st as [|sig'| | | | |]; cbn in Hh; try stage_same Hh.
    + rewrite Hq in Hh. case_decide; [done|]. exists StQueued. split; [done|]. cbn. by rewrite bool_decide_false.
    + destruct Hh as (s' & [[<- <-]|[Hne Hs']]%lookup_insert_Some & Hd).
      * apply Hs in Hd as [Hii HL]. exists StQueued. split; [by apply (im_holds _ _ HI)|]. cbn. by rewrite bool_decide_true.
      * exists (StSwept sig'). split; [by exists s' | done].
  - apply (in_flight_kept d L (to_swept ids sig)); [done|]. intros i []; cbn; try done. by case_bool_decide.
  - apply (queued_at_kept d L (to_swept ids sig)); [done|]. intros i []; cbn; try done. by case_bool_decide.
  - intros sig' s' [[<- <-]|[_ Hs']]%lookup_insert_Some; [done | by eapply (im_swept_wf _ _ HI)].
  - apply (im_finalized_wf _ _ HI).
Qed.

(** ** Finalization, quarantine and drop of a sweep *)
Lemma finalize_swept_Done d sig d' :
  finalize_swept d sig = Done d' <->
  exists s, by_signature (swept d) !! sig = Some s /\
    (forall i, is_Some (sw_deposits s !! i) -> sweeps_deposit (finalized d) i = None) /\
    by_signature (finalized d) !! sig = None /\
    d' = d <| swept := mkSweeps (delete sig (by_signature (swept d))) |>
           <| finalized := mkSweeps (<[sig := s]> (by_signature (finalized d))) |>.
Proof.
  unfold finalize_swept. split.
  - intros Hf. apply bind_Done in Hf as ([s sw] & Hr%expect_Done & Hf).
    apply sweeps_remove_Some in Hr as [Hs ->]. apply bind_Done in Hf as (fin & Hi & [= <-]).
    apply sweeps_insert_Done in Hi as (Hi & Hsig & ->). by exists s.
  - intros (s & Hs & Hi & Hsig & ->).
    rewrite (proj2 (sweeps_remove_Some (swept d) sig s _) (conj Hs eq_refl)). cbn [expect mbind outcome_bind].
    rewrite (proj2 (sweeps_insert_Done (finalized d) sig s _) (conj Hi (conj Hsig eq_refl))). done.
Qed.

Lemma finalize_implements d L sig d' :
  implements d L -> finalize_swept d sig = Done d' -> implements d' (relabel (to_finalized sig) L).
Proof.
  intros HI (s & Hs & Hi & Hsig & ->)%finalize_swept_Done.
  apply (implements_relabel d L); cbn; [done | apply to_finalized_forward | solve_amount | | | done | done | apply (im_watchlist _ _ HI) | | | |].
  - intros i dep st. destruct st as [|sig'|sig'| | | |]; cbn; try done.
    + intros (s' & Hs' & Hd). destruct (Z.eqb_spec sig' sig) as [->|Hne]; cbn.
      * exists s. rewrite lookup_insert_eq. split; [done | congruence].
      * exists s'. by rewrite lookup_delete_ne by congruence.
    + intros (s' & Hs' & Hd). exists s'. by rewrite lookup_insert_ne by congruence.
  - intros i dep st Hh. destruct st as [|sig'|sig'| | | |]; cbn in Hh; try stage_same Hh.
    + destruct Hh as (s' & [Hne Hs']%lookup_delete_Some & Hd). exists (StSwept sig').
      split; [by exists s'|]. cbn. by rewrite (proj2 (Z.eqb_neq sig' sig)) by congruence.
    + destruct Hh as (s' & [[<- <-]|[Hne Hs']]%lookup_insert_Some & Hd).
      * exists (StSwept sig). split; [by exists s|]. cbn. by rewrite Z.eqb_refl.
      * exists (StFinalized sig'). split; [by exists s' | done].
  - apply (in_flight_kept d L (to_finalized sig)); [done|]. intros i []; cbn; try done. by case_match.
  - apply (queued_at_kept d L (to_finalized sig)); [done|]. intros i []; cbn; try done. by case_match.
  - intros sig' s' [_ Hs']%lookup_delete_Some. by eapply (im_swept_wf _ _ HI).
  - intros sig' s' [[<- <-]|[_ Hs']]%lookup_insert_Some; [by eapply (im_swept_wf _ _ HI)|].
    by eapply (im_finalized_wf _ _ HI).
Qed.

Lemma finalize_succeeds d L sig s :
  implements d L -> by_signature (swept d) !! sig = Some s -> by_signature (finalized d) !! sig = None ->
  exists d', finalize_swept d sig = Done d'.
Proof.
  intros HI Hs Hf. eexists. apply finalize_swept_Done. exists s. split_and!; [done | | done | done].
  intros i [dep Hd]. apply sweeps_deposit_None. intros sig' s' Hs'.
  apply (swept_deposits _ _ _ _ _ _ HI Hs) in Hd. apply eq_None_not_Some. intros [dep' Hd'].
  apply (finalized_deposits _ _ _ _ _ _ HI Hs') in Hd'. congruence.
Qed.

Lemma fold_delete_ids {A} (D : gmap DepositSolId A) (m : gmap DepositSolId Timestamp) i :
  is_Some (fold_left (fun m k => delete k m) (btree_keys D) m !! i) <-> is_Some (m !! i) /\ D !! i = None.
Proof.
  rewrite (fold_delete_lookup (fun k => k)). replace (map (fun k => k) (btree_keys D)) with (btree_keys D).
  2:{ induction (btree_keys D); cbn; congruence. }
  case_decide as Hi; rewrite elem_of_btree_keys in Hi.
  - split; [by intros []|]. intros [_ He]. rewrite He in Hi. by destruct Hi.
  - rewrite <- eq_None_not_Some in Hi. tauto.
Qed.

Lemma quarantine_sweep_Done d sig d' :
  quarantine_sweep d sig = Done d' <->
  exists s, by_signature (finalized d) !! sig = Some s /\
    d' = d <| finalized := mkSweeps (delete sig (by_signature (finalized d))) |>
           <| quarantined := fold_left (fun m (e : DepositSolId * QueuedDeposit) =>
                <[e.1 := quarantined_of sig e.2]> m) (btree_iter (sw_deposits s)) (quarantined d) |>
           <| queued_at_by_id := fold_left (fun m deposit_id => delete deposit_id m)
                (btree_keys (sw_deposits s)) (queued_at_by_id d) |>.
Proof.
  unfold quarantine_sweep. split.
  - intros Hf. apply bind_Done in Hf as ([s fin] & Hr%expect_Done & [= <-]).
    apply sweeps_remove_Some in Hr as [Hs ->]. by exists s.
  - intros (s & Hs & ->). by rewrite (proj2 (sweeps_remove_Some (finalized d) sig s _) (conj Hs eq_refl)).
Qed.

Lemma quarantine_sweep_implements d L sig d' :
  implements d L -> quarantine_sweep d sig = Done d' -> implements d' (relabel (to_unreadable sig) L).
Proof.
  intros HI (s & Hs & ->)%quarantine_sweep_Done.
  pose proof (fun i dep => finalized_deposits d L sig s i dep HI Hs) as HD.
  apply (implements_relabel d L); cbn; [done | apply to_unreadable_forward | solve_amount | | | done | done | apply (im_watchlist _ _ HI) | | | |].
  - intros i dep st Hh. destruct st as [|sig'|sig'| | | |]; cbn; try exact Hh.
    + destruct Hh as (s' & Hs' & Hd). destruct (Z.eqb_spec sig' sig) as [->|Hne]; cbn.
      * rewrite fold_insert_btree. simplify_eq. by rewrite Hd.
      * exists s'. by rewrite lookup_delete_ne by congruence.
    + rewrite fold_insert_btree. destruct (sw_deposits s !! i) as [dep'|] eqn:Hd; [|exact Hh].
      apply HD in Hd. apply (im_holds _ _ HI) in Hh. congruence.
  - intros i dep st Hh. destruct st as [|sig'|sig'| | | |sig' c]; cbn in Hh; try stage_same Hh.
    + destruct Hh as (s' & [Hne Hs']%lookup_delete_Some & Hd). exists (StFinalized sig').
      split; [by exists s'|]. cbn. by rewrite (proj2 (Z.eqb_neq sig' sig)) by congruence.
    + rewrite fold_insert_btree in Hh. destruct (sw_deposits s !! i) as [dep'|] eqn:Hd; [|stage_same Hh].
      unfold quarantined_of in Hh. simplify_eq. exists (StFinalized sig'). split; [by exists s|].
      cbn. by rewrite Z.eqb_refl.
  - apply (in_flight_kept d L (to_unreadable sig)); [done|]. intros i []; cbn; try done. by case_match.
  - intros i. rewrite fold_delete_ids. apply and_iff_compat_l_weak. intros Hqa.
    apply (im_queued_at _ _ HI) in Hqa as (dep & st & HL & Hp). rewrite HL. split.
    + intros Hno dep' st' [= <- <-]. destruct st as [|sig'|sig'| | | |]; try done. cbn.
      destruct (Z.eqb_spec sig' sig) as [->|]; [|done]. apply HD in HL. congruence.
    + intros Hall. specialize (Hall dep st eq_refl). apply eq_None_not_Some. intros [dep' Hd%HD].
      simplify_eq. cbn in Hall. by rewrite Z.eqb_refl in Hall.
  - apply (im_swept_wf _ _ HI).
  - intros sig' s' [_ Hs']%lookup_delete_Some. by eapply (im_finalized_wf _ _ HI).
Qed.

Lemma drop_loop sig l : forall d d',
  NoDup l.*1 ->
  foreach (drop_one sig) d l = Done d' <->
  (forall i dep, (i, dep) ∈ l -> in_flight_ids d !! qd_account dep = Some i) /\
  d' = d <| in_flight_ids := fold_left (fun m (e : DepositSolId * QueuedDeposit) => delete (qd_account e.2) m) l (in_flight_ids d) |>
         <| queued_at_by_id := fold_left (fun m (e : DepositSolId * QueuedDeposit) => delete e.1 m) l (queued_at_by_id d) |>
         <| dropped := fold_left (fun m (e : DepositSolId * QueuedDeposit) =>
              <[e.1 := mkSweptDeposit e.2 sig]> m) l (dropped d) |>.
Proof.
  induction l as [|[i dep] l IH]; intros d d' Hnd; cbn [foreach fold_left].
  - rewrite Done_inj. split; [intros <-; split; [by intros ? ? ?%not_elem_of_nil | by destruct d]|].
    intros [_ ->]. by destruct d.
  - apply NoDup_cons in Hnd as [Hnin Hnd]. cbn [drop_one fst snd]. unfold release_in_flight, assert_.
    case_bool_decide as Hi; cbn [mbind outcome_bind].
    + rewrite IH by done. cbn. split.
      * intros [Hall ->]. split; [|done]. intros j dj [[= -> ->]|Hj]%elem_of_cons; [done|].
        by apply Hall, lookup_delete_Some in Hj as [_ ?].
      * intros [Hall ->]. split; [|done]. intros j dj Hj.
        assert (in_flight_ids d !! qd_account dj = Some j) as Hdj by (apply Hall; by right).
        apply lookup_delete_Some. split; [|done]. intros He. rewrite <- He, Hi in Hdj. simplify_eq.
        apply Hnin. by apply (list_elem_of_fmap_2 fst) in Hj.
    + split; [done|]. intros [Hall _]. destruct Hi. apply Hall. left.
Qed.

Lemma drop_swept_Done d sig d' :
  drop_swept d sig = Done d' <->
  exists s, by_signature (swept d) !! sig = Some s /\
    (forall i dep, sw_deposits s !! i = Some dep -> in_flight_ids d !! qd_account dep = Some i) /\
    d' = d <| swept := mkSweeps (delete sig (by_signature (swept d))) |>
           <| in_flight_ids := fold_left (fun m (e : DepositSolId * QueuedDeposit) => delete (qd_account e.2) m)
                (btree_iter (sw_deposits s)) (in_flight_ids d) |>
           <| queued_at_by_id := fold_left (fun m (e : DepositSolId * QueuedDeposit) => delete e.1 m)
                (btree_iter (sw_deposits s)) (queued_at_by_id d) |>
           <| dropped := fold_left (fun m (e : DepositSolId * QueuedDeposit) =>
                <[e.1 := mkSweptDeposit e.2 sig]> m) (btree_iter (sw_deposits s)) (dropped d) |>.
Proof.
  unfold drop_swept. split.
  - intros Hf. apply bind_Done in Hf as ([s sw] & Hr%expect_Done & Hf).
    apply sweeps_remove_Some in Hr as [Hs ->]. apply drop_loop in Hf as [Hall ->]; [|apply NoDup_btree_keys].
    exists s. split_and!; [done| |done]. intros. by apply Hall, elem_of_btree_iter.
  - intros (s & Hs & Hall & ->). rewrite (proj2 (sweeps_remove_Some (swept d) sig s _) (conj Hs eq_refl)).
    cbn [expect mbind outcome_bind]. apply drop_loop; [apply NoDup_btree_keys|]. split; [|done].
    intros i dep Hd. cbn. by apply Hall, elem_of_btree_iter.
Qed.

Lemma drop_implements d L sig d' :
  implements d L -> drop_swept d sig = Done d' -> implements d' (relabel (to_dropped sig) L).
Proof.
  intros HI (s & Hs & Hfl & ->)%drop_swept_Done.
  pose proof (fun i dep => swept_deposits d L sig s i dep HI Hs) as HD.
  apply (implements_relabel d L); cbn; [done | apply to_dropped_forward | solve_amount | | | done | done | apply (im_watchlist _ _ HI) | | | |].
  - intros i dep st Hh. destruct st as [|sig'|sig'| | | |]; cbn; try exact Hh.
    + destruct Hh as (s' & Hs' & Hd). destruct (Z.eqb_spec sig' sig) as [->|Hne]; cbn.
      * rewrite (fold_insert_btree (fun a => mkSweptDeposit a sig)). simplify_eq. by rewrite Hd.
      * exists s'. by rewrite lookup_delete_ne by congruence.
    + rewrite (fold_insert_btree (fun a => mkSweptDeposit a sig)).
      destruct (sw_deposits s !! i) as [dep'|] eqn:Hd; [|exact Hh].
      apply HD in Hd. apply (im_holds _ _ HI) in Hh. congruence.
  - intros i dep st Hh. destruct st as [|sig'|sig'| | |sig'|sig' c]; cbn in Hh; try stage_same Hh.
    + destruct Hh as (s' & [Hne Hs']%lookup_delete_Some & Hd). exists (StSwept sig').
      split; [by exists s'|]. cbn. by rewrite (proj2 (Z.eqb_neq sig' sig)) by congruence.
    + rewrite (fold_insert_btree (fun a => mkSweptDeposit a sig)) in Hh.
      destruct (sw_deposits s !! i) as [dep'|] eqn:Hd; [|stage_same Hh].
      simplify_eq. exists (StSwept sig'). split; [by exists s|]. cbn. by rewrite Z.eqb_refl.
  - intros acc i. rewrite (fold_delete_lookup (fun e : DepositSolId * QueuedDeposit => qd_account e.2)).
    assert (acc ∈ map (fun e : DepositSolId * QueuedDeposit => qd_account e.2) (btree_iter (sw_deposits s)) <->
      exists j dep, sw_deposits s !! j = Some dep /\ qd_account dep = acc) as Hacc.
    { rewrite list_elem_of_fmap. split.
      - intros ([j dep] & -> & Hj%elem_of_btree_iter). by exists j, dep.
      - intros (j & dep & Hj & <-). exists (j, dep). split; [done | by apply elem_of_btree_iter]. }
    case_decide as Hin; rewrite Hacc in Hin.
    + split; [done|]. intros [Hi Hall]. destruct Hin as (j & dep & Hj & <-).
      pose proof (Hfl _ _ Hj). simplify_eq. apply HD in Hj. specialize (Hall _ _ Hj). cbn in Hall.
      by rewrite Z.eqb_refl in Hall.
    + split; [|by intros [? _]]. intros Hi. split; [done|]. intros dep st HL.
      pose proof Hi as (dep' & st' & HL' & Hac & Hr)%(im_in_flight _ _ HI).
      rewrite HL in HL'. injection HL' as <- <-. subst acc.
      destruct st as [|sig'| | | | |]; try done. cbn. destruct (Z.eqb_spec sig' sig) as [->|]; [|done].
      apply HD in HL. destruct Hin. by exists i, dep.
  - intros i. rewrite (fold_delete_lookup (fun e : DepositSolId * QueuedDeposit => e.1)).
    change (map (fun e : DepositSolId * QueuedDeposit => e.1) (btree_iter (sw_deposits s))) with (btree_keys (sw_deposits s)).
    case_decide as Hin; rewrite elem_of_btree_keys in Hin.
    + split; [by intros []|]. intros [_ Hall]. destruct Hin as [dep HL%HD]. specialize (Hall _ _ HL). cbn in Hall.
      by rewrite Z.eqb_refl in Hall.
    + split; [|by intros [? _]]. intros Hqa. split; [done|]. intros dep st HL.
      apply (im_queued_at _ _ HI) in Hqa as (dep' & st' & HL' & Hp).
      rewrite HL in HL'. injection HL' as <- <-. destruct st as [|sig'| | | | |]; try done. cbn. destruct (Z.eqb_spec sig' sig) as [->|]; [|done].
      apply HD in HL. destruct Hin. by eexists.
  - intros sig' s' [_ Hs']%lookup_delete_Some. by eapply (im_swept_wf _ _ HI).
  - apply (im_finalized_wf _ _ HI).
Qed.

(** Dropping a swept sweep never panics. *)
Lemma drop_succeeds d L sig s :
  implements d L -> by_signature (swept d) !! sig = Some s -> exists d', drop_swept d sig = Done d'.
Proof.
  intros HI Hs. eexists. apply drop_swept_Done. exists s. split_and!; [done| |done].
  intros i dep Hd. apply (im_in_flight _ _ HI). exists dep, (StSwept sig).
  split_and!; [|done..]. by apply (swept_deposits _ _ _ _ _ _ HI Hs).
Qed.

(** ** Crediting a sweep *)
Definition creditable (s : Sweep) (c : CreditedDeposit) : Prop :=
  exists dep, sw_deposits s !! cd_deposit_id c = Some dep /\ cd_amount_to_mint c <= sweepable_amount dep.

Lemma credit_one_Done s sig t p c p' :
  credit_one s sig t p c = Done p' <->
  exists dep, sw_deposits s !! cd_deposit_id c = Some dep /\ cd_amount_to_mint c <= sweepable_amount dep /\
    p !! cd_deposit_id c = None /\
    p' = <[cd_deposit_id c := mkPendingMint (mkSweptDeposit dep sig) (cd_amount_to_mint c) t]> p.
Proof.
  unfold credit_one. split.
  - intros Hc. apply bind_Done in Hc as (dep & Hd%expect_Done & Hc).
    apply bind_Done in Hc as ([] & Hle%assert_Done & Hc). apply bind_Done in Hc as ([] & Hn%assert_Done & [= <-]).
    apply Z.leb_le in Hle. apply bool_decide_eq_true in Hn. by exists dep.
  - intros (dep & -> & Hle & Hn & ->). cbn. rewrite (proj2 (Z.leb_le _ _) Hle). cbn.
    by rewrite bool_decide_true.
Qed.

Lemma credit_loop s sig t ms : forall p p',
  foreach (credit_one s sig t) p ms = Done p' ->
  NoDup (map cd_deposit_id ms) /\ Forall (creditable s) ms /\
  (forall c, c ∈ ms -> p !! cd_deposit_id c = None) /\
  (forall c dep, c ∈ ms -> sw_deposits s !! cd_deposit_id c = Some dep ->
     p' !! cd_deposit_id c = Some (mkPendingMint (mkSweptDeposit dep sig) (cd_amount_to_mint c) t)) /\
  (forall i, i ∉ map cd_deposit_id ms -> p' !! i = p !! i).
Proof.
  induction ms as [|c ms IH]; intros p p' Hrun; cbn [foreach map] in *.
  - apply Done_inv in Hrun as <-. split_and!; try constructor; try done;
      intros; exfalso; by eapply not_elem_of_nil.
  - apply bind_Done in Hrun as (p1 & (dep & Hd & Hle & Hn & ->)%credit_one_Done & Hrun).
    apply IH in Hrun as (Hnd & HF & Hfresh & Hnew & Hold).
    assert (cd_deposit_id c ∉ map cd_deposit_id ms) as Hnin.
    { intros (c' & He & Hc')%list_elem_of_fmap. specialize (Hfresh c' Hc'). rewrite <- He in Hfresh.
      by rewrite lookup_insert_eq in Hfresh. }
    split_and!.
    + by constructor.
    + constructor; [by exists dep | done].
    + intros c' [->|Hc']%elem_of_cons; [done|]. specialize (Hfresh c' Hc').
      by apply lookup_insert_None in Hfresh as [? _].
    + intros c' dep' [->|Hc']%elem_of_cons Hd'; [|by apply Hnew]. rewrite Hold by done.
      rewrite lookup_insert_eq. congruence.
    + intros i [Hne Hi]%not_elem_of_cons. rewrite Hold by done. by rewrite lookup_insert_ne.
Qed.

Lemma credit_loop_succeeds s sig t ms : forall p,
  NoDup (map cd_deposit_id ms) -> Forall (creditable s) ms -> (forall c, c ∈ ms -> p !! cd_deposit_id c = None) ->
  exists p', foreach (credit_one s sig t) p ms = Done p'.
Proof.
  induction ms as [|c ms IH]; intros p Hnd HF Hfresh; cbn [foreach map] in *; [by eexists|].
  apply NoDup_cons in Hnd as [Hnin Hnd]. apply Forall_cons in HF as [(dep & Hd & Hle) HF].
  rewrite (proj2 (credit_one_Done s sig t p c _) (ex_intro _ dep (conj Hd (conj Hle (conj (Hfresh c (list_elem_of_here _ _)) eq_refl))))).
  cbn [mbind outcome_bind]. apply IH; [done..|]. intros c' Hc'. rewrite lookup_insert_ne.
  - apply Hfresh. by right.
  - intros He. apply Hnin. rewrite He. by apply list_elem_of_fmap_2.
Qed.

Lemma credit_sweep_Done d sig ms t d' s :
  credit_sweep d sig ms t = Done (d', s) <->
  by_signature (finalized d) !! sig = Some s /\ length ms = deposit_count s /\
  exists p, foreach (credit_one s sig t) (pending_mints d) ms = Done p /\
    d' = d <| finalized := mkSweeps (delete sig (by_signature (finalized d))) |> <| pending_mints := p |>.
Proof.
  unfold credit_sweep. split.
  - intros Hc. apply bind_Done in Hc as ([s0 fin] & Hr%expect_Done & Hc).
    apply sweeps_remove_Some in Hr as [Hs ->]. apply bind_Done in Hc as ([] & Hlen%assert_Done & Hc).
    apply bind_Done in Hc as (p & Hp & [= <- <-]). apply Nat.eqb_eq in Hlen. split_and!; [done..|]. by exists p.
  - intros (Hs & Hlen & p & Hp & ->).
    rewrite (proj2 (sweeps_remove_Some (finalized d) sig s _) (conj Hs eq_refl)). cbn [expect mbind outcome_bind].
    rewrite Hlen, Nat.eqb_refl. cbn [assert_ mbind outcome_bind]. rewrite Hp. done.
Qed.

(** As many distinct credited deposits as the sweep has are all of them. *)
Lemma credited_ids_perm s ms :
  NoDup (map cd_deposit_id ms) -> Forall (creditable s) ms -> length ms = deposit_count s ->
  map cd_deposit_id ms ≡ₚ btree_keys (sw_deposits s).
Proof.
  intros Hnd HF Hlen. apply submseteq_length_Permutation.
  - apply NoDup_submseteq; [done|]. intros i (c & -> & Hc)%list_elem_of_fmap.
    rewrite Forall_forall in HF. destruct (HF c Hc) as (dep & Hd & _). apply elem_of_btree_keys. by eexists.
  - unfold btree_keys. rewrite length_fmap, length_map, btree_iter_length. unfold deposit_count in Hlen. lia.
Qed.

Lemma mint_amount_elem ms c :
  NoDup (map cd_deposit_id ms) -> c ∈ ms -> mint_amount ms (cd_deposit_id c) = cd_amount_to_mint c.
Proof.
  intros Hnd Hc. unfold mint_amount. set (l := map (fun c => (cd_deposit_id c, cd_amount_to_mint c)) ms).
  assert (NoDup l.*1) as Hnd' by (unfold l; rewrite <- list_fmap_compose; exact Hnd).
  rewrite (proj2 (collect_map_NoDup l Hnd' (cd_deposit_id c) (cd_amount_to_mint c))); [done|].
  by apply (list_elem_of_fmap_2 (fun c => (cd_deposit_id c, cd_amount_to_mint c))).
Qed.

Lemma credit_implements d L sig ms t d' s :
  implements d L -> credit_sweep d sig ms t = Done (d', s) ->
  by_signature (finalized d) !! sig = Some s /\ map cd_deposit_id ms ≡ₚ btree_keys (sw_deposits s) /\
  Forall (creditable s) ms /\ implements d' (relabel (to_pending sig ms t) L).
Proof.
  intros HI (Hs & Hlen & p & Hp & ->)%credit_sweep_Done.
  apply credit_loop in Hp as (Hnd & HF & Hfresh & Hnew & Hold).
  pose proof (credited_ids_perm s ms Hnd HF Hlen) as Hperm.
  pose proof (fun i dep => finalized_deposits d L sig s i dep HI Hs) as HD.
  assert (forall i dep, sw_deposits s !! i = Some dep -> exists c, c ∈ ms /\ cd_deposit_id c = i) as Hall.
  { intros i dep Hd. assert (i ∈ map cd_deposit_id ms) as (c & -> & Hc)%list_elem_of_fmap; [|by exists c].
    rewrite Hperm. apply elem_of_btree_keys. by eexists. }
  assert (forall c, c ∈ ms -> exists dep, sw_deposits s !! cd_deposit_id c = Some dep) as Hin.
  { intros c Hc. rewrite Forall_forall in HF. destruct (HF c Hc) as (dep & Hd & _). by exists dep. }
  split_and!; [done..|].
  apply (implements_relabel d L); cbn; [done | apply to_pending_forward | | | | done | done | apply (im_watchlist _ _ HI) | | | |].
  - intros i dep st HL. destruct st as [| |sig'| | | |]; try done. cbn.
    destruct (Z.eqb_spec sig' sig) as [->|]; [|done]. intros _. cbn. apply HD in HL.
    destruct (Hall _ _ HL) as (c & Hc & <-). rewrite mint_amount_elem by done.
    rewrite Forall_forall in HF. destruct (HF c Hc) as (dep' & Hd' & Hle). by simplify_eq.
  - intros i dep st Hh. destruct st as [|sig'|sig'|sig' a t'| | |]; cbn; try exact Hh.
    + destruct Hh as (s' & Hs' & Hd). destruct (Z.eqb_spec sig' sig) as [->|Hne]; cbn.
      * simplify_eq. destruct (Hall _ _ Hd) as (c & Hc & <-). rewrite mint_amount_elem by done. by apply Hnew.
      * exists s'. by rewrite lookup_delete_ne by congruence.
    + rewrite Hold; [exact Hh|]. intros (c & -> & Hc)%list_elem_of_fmap. cbn in Hh. rewrite Hfresh in Hh; done.
  - intros i dep st Hh. destruct st as [|sig'|sig'|sig' a t'| | |]; cbn in Hh; try stage_same Hh.
    + destruct Hh as (s' & [Hne Hs']%lookup_delete_Some & Hd). exists (StFinalized sig').
      split; [by exists s'|]. cbn. by rewrite (proj2 (Z.eqb_neq sig' sig)) by congruence.
    + destruct (decide (i ∈ map cd_deposit_id ms)) as [Hi|Hi].
      * apply list_elem_of_fmap in Hi as (c & -> & Hc). destruct (Hin c Hc) as [dep' Hd'].
        rewrite (Hnew c dep' Hc Hd') in Hh. simplify_eq. exists (StFinalized sig'). split; [by exists s|].
        cbn. by rewrite Z.eqb_refl, mint_amount_elem.
      * rewrite Hold in Hh by done. stage_same Hh.
  - apply (in_flight_kept d L (to_pending sig ms t)); [done|]. intros i []; cbn; try done. by case_match.
  - apply (queued_at_kept d L (to_pending sig ms t)); [done|]. intros i []; cbn; try done. by case_match.
  - apply (im_swept_wf _ _ HI).
  - intros sig' s' [_ Hs']%lookup_delete_Some. by eapply (im_finalized_wf _ _ HI).
Qed.

(** Crediting a finalized sweep with one mint per deposit, none beyond the
    sweepable amount, never panics. *)
Lemma credit_succeeds d L sig s ms t :
  implements d L -> by_signature (finalized d) !! sig = Some s ->
  map cd_deposit_id ms ≡ₚ btree_keys (sw_deposits s) -> Forall (creditable s) ms ->
  exists d', credit_sweep d sig ms t = Done (d', s).
Proof.
  intros HI Hs Hperm HF.
  assert (NoDup (map cd_deposit_id ms)) as Hnd by (rewrite Hperm; apply NoDup_btree_keys).
  destruct (credit_loop_succeeds s sig t ms (pending_mints d) Hnd HF) as [p Hp].
  - intros c Hc. rewrite Forall_forall in HF. destruct (HF c Hc) as (dep & Hd & _).
    apply (finalized_deposits _ _ _ _ _ _ HI Hs) in Hd. apply eq_None_not_Some. intros [[[dp sg] a t'] Hp].
    assert (holds d (cd_deposit_id c) dp (StPending sg a t')) as Hh%(im_holds _ _ HI) by done. congruence.
  - eexists. apply credit_sweep_Done. split_and!; [done | | by exists p].
    rewrite <- (length_map cd_deposit_id ms), Hperm. unfold btree_keys, deposit_count.
    by rewrite length_fmap, btree_iter_length.
Qed.

(** ** Minting *)
Lemma mint_Done d i ix d' :
  mint d i ix = Done d' <->
  exists p, pending_mints d !! i = Some p /\ in_flight_ids d !! pm_account p = Some i /\
    d' = d <| pending_mints ::= delete i |> <| in_flight_ids ::= delete (pm_account p) |>
           <| queued_at_by_id ::= delete i |>
           <| minted ::= <[i := mkMintedSweep (pm_deposit p) (pm_amount_to_mint p) ix]> |>.
Proof.
  unfold mint, release_in_flight. split.
  - intros Hm. apply bind_Done in Hm as (p & Hp%expect_Done & Hm). apply bind_Done in Hm as (d1 & Hr & [= <-]).
    apply bind_Done in Hr as ([] & Hb%assert_Done & [= <-]). apply bool_decide_eq_true in Hb. by exists p.
  - intros (p & Hp & Hfl & ->). rewrite Hp. cbn. by rewrite bool_decide_true.
Qed.

Lemma pending_holds d L i p :
  implements d L -> pending_mints d !! i = Some p ->
  L !! i = Some (sd_deposit (pm_deposit p), StPending (pm_sweep_signature p) (pm_amount_to_mint p) (pm_created_at_time p)).
Proof. intros HI Hp. apply (im_holds _ _ HI). cbn. rewrite Hp. by destruct p as [[]]. Qed.

Lemma mint_implements d L i ix d' :
  implements d L -> mint d i ix = Done d' -> implements d' (relabel (to_minted i ix) L).
Proof.
  intros HI (p & Hp & Hfl & ->)%mint_Done. pose proof (pending_holds _ _ _ _ HI Hp) as HL.
  apply (implements_relabel d L); cbn; [done | apply to_minted_forward | solve_amount | | | done | done | apply (im_watchlist _ _ HI) | | | |].
  - intros j dep st Hh. destruct st as [| | |sg a t|sg a t| |]; cbn; try exact Hh; cbn in Hh.
    + destruct (Z.eqb_spec j i) as [->|Hne]; cbn.
      * rewrite lookup_insert_eq. rewrite Hh in Hp. by injection Hp as <-.
      * by rewrite lookup_delete_ne.
    + rewrite lookup_insert_ne; [exact Hh|]. intros <-. apply (im_holds _ _ HI _ _ (StMinted _ _ _)) in Hh. congruence.
  - intros j dep st Hh. destruct st as [| | |sg a t|sg a t| |]; cbn in Hh; try stage_same Hh.
    + apply lookup_delete_Some in Hh as [Hne Hh]. exists (StPending sg a t). split; [exact Hh|].
      cbn. by rewrite (proj2 (Z.eqb_neq j i)) by congruence.
    + apply lookup_insert_Some in Hh as [[<- Hm]|[Hne Hh]]; [|stage_same Hh].
      exists (StPending sg a (pm_created_at_time p)). split.
      * cbn. rewrite Hp. destruct p as [[]]. cbn in *. congruence.
      * cbn. rewrite Z.eqb_refl. congruence.
  - intros acc j. rewrite lookup_delete_Some. split.
    + intros [Hne Hj]. split; [done|]. intros dep st HLj.
      apply (im_in_flight _ _ HI) in Hj as (dep' & st' & HL' & Hac & Hr). rewrite HLj in HL'. injection HL' as <- <-.
      destruct st; try done. cbn. destruct (Z.eqb_spec j i) as [->|]; [|done]. exfalso. apply Hne.
      rewrite HL in HLj. injection HLj as <- _ _ _. done.
    + intros [Hj Hall]. split; [|done]. intros <-. rewrite Hfl in Hj. injection Hj as <-.
      specialize (Hall _ _ HL). cbn in Hall. by rewrite Z.eqb_refl in Hall.
  - intros j. rewrite lookup_delete_is_Some. split.
    + intros [Hne Hj]. split; [done|]. intros dep st HLj.
      apply (im_queued_at _ _ HI) in Hj as (dep' & st' & HL' & Hr). rewrite HLj in HL'. injection HL' as <- <-.
      destruct st; try done. cbn. by rewrite (proj2 (Z.eqb_neq j i)) by congruence.
    + intros [Hj Hall]. split; [|done]. intros <-. specialize (Hall _ _ HL). cbn in Hall. by rewrite Z.eqb_refl in Hall.
  - apply (im_swept_wf _ _ HI).
  - apply (im_finalized_wf _ _ HI).
Qed.

(** A pending mint can always be recorded as minted. *)
Lemma mint_succeeds d L i p ix :
  implements d L -> pending_mints d !! i = Some p -> exists d', mint d i ix = Done d'.
Proof.
  intros HI Hp. eexists. apply mint_Done. exists p. split_and!; [done| |done].
  apply (im_in_flight _ _ HI). eexists _, _. split_and!; [by eapply pending_holds | done | done].
Qed.

Lemma quarantine_pending_mint_Done d i d' :
  quarantine_pending_mint d i = Done d' <->
  exists p, pending_mints d !! i = Some p /\
    d' = d <| pending_mints ::= delete i |> <| queued_at_by_id ::= delete i |>
           <| quarantined ::= <[i := mkQuarantinedDeposit (pm_deposit p)
                (MintUnresolved (pm_amount_to_mint p) (pm_created_at_time p))]> |>.
Proof.
  unfold quarantine_pending_mint. destruct (pending_mints d !! i) as [p|]; cbn.
  - rewrite Done_inj. split; [intros <-; by exists p|]. by intros (? & [= <-] & ->).
  - split; [done|]. by intros (? & ? & _).
Qed.

Lemma quarantine_pending_mint_implements d L i d' :
  implements d L -> quarantine_pending_mint d i = Done d' -> implements d' (relabel (to_unresolved i) L).
Proof.
  intros HI (p & Hp & ->)%quarantine_pending_mint_Done. pose proof (pending_holds _ _ _ _ HI Hp) as HL.
  apply (implements_relabel d L); cbn; [done | apply to_unresolved_forward | solve_amount | | | done | done | apply (im_watchlist _ _ HI) | | | |].
  - intros j dep st Hh. destruct st as [| | |sg a t| | |sg c]; cbn; try exact Hh; cbn in Hh.
    + destruct (Z.eqb_spec j i) as [->|Hne]; cbn.
      * rewrite lookup_insert_eq. rewrite Hh in Hp. by injection Hp as <-.
      * by rewrite lookup_delete_ne.
    + rewrite lookup_insert_ne; [exact Hh|]. intros <-. apply (im_holds _ _ HI _ _ (StQuarantined _ _)) in Hh. congruence.
  - intros j dep st Hh. destruct st as [| | |sg a t| | |sg c]; cbn in Hh; try stage_same Hh.
    + apply lookup_delete_Some in Hh as [Hne Hh]. exists (StPending sg a t). split; [exact Hh|].
      cbn. by rewrite (proj2 (Z.eqb_neq j i)) by congruence.
    + apply lookup_insert_Some in Hh as [[<- Hm]|[Hne Hh]]; [|stage_same Hh].
      exists (StPending sg (pm_amount_to_mint p) (pm_created_at_time p)). split.
      * cbn. rewrite Hp. destruct p as [[]]. cbn in *. congruence.
      * cbn. rewrite Z.eqb_refl. congruence.
  - apply (in_flight_kept d L (to_unresolved i)); [done|]. intros j []; cbn; try done. by case_match.
  - intros j. rewrite lookup_delete_is_Some. split.
    + intros [Hne Hj]. split; [done|]. intros dep st HLj.
      apply (im_queued_at _ _ HI) in Hj as (dep' & st' & HL' & Hr). rewrite HLj in HL'. injection HL' as <- <-.
      destruct st; try done. cbn. by rewrite (proj2 (Z.eqb_neq j i)) by congruence.
    + intros [Hj Hall]. split; [|done]. intros <-. specialize (Hall _ _ HL). cbn in Hall. by rewrite Z.eqb_refl in Hall.
  - apply (im_swept_wf _ _ HI).
  - apply (im_finalized_wf _ _ HI).
Qed.

(** ** Status *)
Lemma status_stage d L i :
  implements d L ->
  status d i = match L !! i with Some (dep, st) => stage_status dep st | None => StatusNotFound end.
Proof.
  intros HI. pose proof (fun dep st => im_holds _ _ HI i dep st) as Hh. unfold status.
  destruct (queued d !! i) as [dep|] eqn:H1; [by rewrite (proj1 (Hh dep StQueued) H1)|].
  destruct (sweeps_deposit (swept d) i) as [[sig dep]|] eqn:H2.
  { apply sweeps_deposit_Some in H2 as (s & Hs & Hd). by rewrite (proj1 (Hh dep (StSwept sig)) (ex_intro _ s (conj Hs Hd))). }
  destruct (sweeps_deposit (finalized d) i) as [[sig dep]|] eqn:H3.
  { apply sweeps_deposit_Some in H3 as (s & Hs & Hd). by rewrite (proj1 (Hh dep (StFinalized sig)) (ex_intro _ s (conj Hs Hd))). }
  destruct (pending_mints d !! i) as [[[dep sig] a t]|] eqn:H4; [by rewrite (proj1 (Hh dep (StPending sig a t)) H4)|].
  destruct (minted d !! i) as [[[dep sig] a ix]|] eqn:H5; [by rewrite (proj1 (Hh dep (StMinted sig a ix)) H5)|].
  destruct (dropped d !! i) as [[dep sig]|] eqn:H6; [by rewrite (proj1 (Hh dep (StDropped sig)) H6)|].
  destruct (quarantined d !! i) as [[[dep sig] c]|] eqn:H7; [by rewrite (proj1 (Hh dep (StQuarantined sig c)) H7)|].
  destruct (L !! i) as [[dep st]|] eqn:Hst; [|done]. exfalso.
  pose proof (proj2 (im_holds _ _ HI i dep st) Hst) as HL.
  rewrite sweeps_deposit_None in H2, H3. destruct st; cbn in HL; try congruence.
  - destruct HL as (s & Hs & Hd). by rewrite (H2 _ _ Hs) in Hd.
  - destruct HL as (s & Hs & Hd). by rewrite (H3 _ _ Hs) in Hd.
Qed.

Lemma in_flight_spec d L acc :
  implements d L ->
  match in_flight_id d acc with
  | None => in_flight d acc = Done None
  | Some i => in_flight d acc = Done (Some (Processing i)) \/ in_flight d acc = Done (Some (InFlightQuarantined i))
  end.
Proof.
  intros HI. unfold in_flight. destruct (in_flight_id d acc) as [i|] eqn:Hi; [|done].
  apply (im_in_flight _ _ HI) in Hi as (dep & st & HL & _ & Hr). rewrite (status_stage _ _ _ HI), HL.
  destruct st; cbn in *; auto; done.
Qed.

(** ** Histories

    The operations through which the state changes the deposits, and their
    effect on the abstract lifecycle. *)
Inductive DepositOp : Type :=
  | OpQueue (deposit_id : DepositSolId) (deposit : QueuedDeposit) (queued_at : Timestamp)
  | OpSweep (deposit_ids : list DepositSolId) (minter_address : Address) (message : Message) (signature : Signature)
  | OpDropSwept (signature : Signature)
  | OpFinalizeSwept (signature : Signature)
  | OpCreditSweep (signature : Signature) (mints : list CreditedDeposit) (timestamp : Timestamp)
  | OpQuarantineSweep (signature : Signature)
  | OpMint (deposit_id : DepositSolId) (mint_block_index : LedgerMintIndex)
  | OpQuarantinePendingMint (deposit_id : DepositSolId).

Definition deposit_op `{Platform} (d : Deposits) (op : DepositOp) : outcome Deposits :=
  match op with
  | OpQueue i dep t => queue d i dep t
  | OpSweep ids addr m sig => p ← sweep d ids addr (Legacy m) sig; Done p.1
  | OpDropSwept sig => drop_swept d sig
  | OpFinalizeSwept sig => finalize_swept d sig
  | OpCreditSweep sig ms t => p ← credit_sweep d sig ms t; Done p.1
  | OpQuarantineSweep sig => quarantine_sweep d sig
  | OpMint i ix => mint d i ix
  | OpQuarantinePendingMint i => quarantine_pending_mint d i
  end.

Definition lifecycle_op (L : Lifecycle) (op : DepositOp) : Lifecycle :=
  match op with
  | OpQueue i dep _ => <[i := (dep, StQueued)]> L
  | OpSweep ids _ _ sig => relabel (to_swept ids sig) L
  | OpDropSwept sig => relabel (to_dropped sig) L
  | OpFinalizeSwept sig => relabel (to_finalized sig) L
  | OpCreditSweep sig ms t => relabel (to_pending sig ms t) L
  | OpQuarantineSweep sig => relabel (to_unreadable sig) L
  | OpMint i ix => relabel (to_minted i ix) L
  | OpQuarantinePendingMint i => relabel (to_unresolved i) L
  end.

Lemma deposit_op_implements `{Platform} d L op d' :
  implements d L -> next_id d < u64_max -> deposit_op d op = Done d' -> implements d' (lifecycle_op L op).
Proof.
  intros HI Hn. destruct op; cbn.
  - by apply queue_implements.
  - intros ([d1 r] & Hs & [= <-])%bind_Done. by eapply sweep_implements.
  - by apply drop_implements.
  - by apply finalize_implements.
  - intros ([d1 s] & Hc & [= <-])%bind_Done. by eapply credit_implements.
  - by apply quarantine_sweep_implements.
  - by apply mint_implements.
  - by apply quarantine_pending_mint_implements.
Qed.

Lemma drop_next_id d sig d' : drop_swept d sig = Done d' -> next_id d' = next_id d.
Proof. by intros (s & _ & _ & ->)%drop_swept_Done. Qed.

(** Each operation advances the sequence number by at most one. *)
Lemma deposit_op_next_id `{Platform} d op d' :
  0 <= next_id d -> deposit_op d op = Done d' -> next_id d' <= next_id d + 1.
Proof.
  intros Hpos. destruct op; cbn.
  - intros (_ & _ & w & _ & ->)%queue_Done. cbn. unfold wadd, wrap64. apply Z.mod_le; [lia | done].
  - intros ([d1 r] & (_ & q & l & s & _ & _ & _ & _ & _ & _ & ->)%sweep_Done & [= <-])%bind_Done. cbn. lia.
  - intros ->%drop_next_id. lia.
  - intros (s & _ & _ & _ & ->)%finalize_swept_Done. cbn. lia.
  - intros ([d1 s] & (_ & _ & p & _ & ->)%credit_sweep_Done & [= <-])%bind_Done. cbn. lia.
  - intros (s & _ & ->)%quarantine_sweep_Done. cbn. lia.
  - intros (p & _ & _ & ->)%mint_Done. cbn. lia.
  - intros (p & _ & ->)%quarantine_pending_mint_Done. cbn. lia.
Qed.

Lemma deposit_ops_implement `{Platform} ops : forall d L d',
  implements d L -> next_id d + Z.of_nat (length ops) <= u64_max ->
  foreach deposit_op d ops = Done d' -> implements d' (fold_left lifecycle_op ops L).
Proof.
  induction ops as [|op ops IH]; intros d L d' HI Hlen Hrun; cbn in *; [by simplify_eq|].
  apply bind_Done in Hrun as (d1 & Hop & Hrun). pose proof (im_next _ _ HI) as [Hpos _].
  pose proof (deposit_op_next_id _ _ _ Hpos Hop).
  apply (IH d1); [apply (deposit_op_implements d L); [done | lia | done] | lia | done].
Qed.

Lemma lifecycle_op_forward L op i dep st :
  L !! i = Some (dep, st) -> (forall dp t, op <> OpQueue i dp t) ->
  exists st', lifecycle_op L op !! i = Some (dep, st') /\ (st' = st \/ rank st < rank st').
Proof.
  intros HL Hq. destruct op; cbn.
  1: { exists st. rewrite lookup_insert_ne by (intros ->; by eapply Hq). auto. }
  all: setoid_rewrite relabel_Some.
  all: eexists; split; [by exists st|].
  - apply to_swept_forward.
  - apply to_dropped_forward.
  - apply to_finalized_forward.
  - apply to_pending_forward.
  - apply to_unreadable_forward.
  - apply to_minted_forward.
  - apply to_unresolved_forward.
Qed.

(** The deposits a history mints. *)
Definition minted_ids (ops : list DepositOp) : list DepositSolId :=
  omap (fun op => match op with OpMint i _ => Some i | _ => None end) ops.

Lemma minted_ids_run `{Platform} ops : forall d L d',
  implements d L -> next_id d + Z.of_nat (length ops) <= u64_max ->
  foreach deposit_op d ops = Done d' ->
  NoDup (minted_ids ops) /\
  forall i dep st, i ∈ minted_ids ops -> L !! i = Some (dep, st) -> processing st = true.
Proof.
  induction ops as [|op ops IH]; intros d L d' HI Hlen Hrun; cbn in Hrun, Hlen.
  { split; [constructor | by intros ? ? ? ?%not_elem_of_nil]. }
  apply bind_Done in Hrun as (d1 & Hop & Hrun). pose proof (im_next _ _ HI) as [Hpos _].
  pose proof (deposit_op_next_id _ _ _ Hpos Hop).
  assert (implements d1 (lifecycle_op L op)) as HI1 by (apply (deposit_op_implements d L); [done | lia | done]).
  destruct (IH d1 _ _ HI1 ltac:(lia) Hrun) as [Hnd Hproc].
  assert (forall i dep st, i ∈ minted_ids ops -> L !! i = Some (dep, st) -> processing st = true) as Hlater.
  { intros i dep st Hi HL. destruct (lifecycle_op_forward L op i dep st HL) as (st' & HL' & Hrank).
    - intros dp t ->. cbn in Hop. apply queue_Done in Hop as (-> & _).
      assert (is_Some (L !! next_id d)) as Hs by eauto. apply (im_ids _ _ HI) in Hs. lia.
    - specialize (Hproc _ _ _ Hi HL'). rewrite rank_processing in *. destruct Hrank as [->|]; lia. }
  destruct op as [ | | | | | |i0 ix| ]; try (split; assumption).
  cbn [minted_ids omap list_omap] in *. fold (minted_ids ops) in *. cbn in Hop.
  apply mint_Done in Hop as (p & Hp & _). pose proof (pending_holds _ _ _ _ HI Hp) as HL.
  assert (i0 ∉ minted_ids ops) as Hnin.
  { intros Hi. specialize (Hproc i0 (sd_deposit (pm_deposit p)) (StMinted (pm_sweep_signature p) (pm_amount_to_mint p) ix) Hi).
    discriminate Hproc. cbn. apply relabel_Some. eexists. split; [exact HL|]. cbn. by rewrite Z.eqb_refl. }
  split; [by constructor|]. intros i dep st [->|Hi]%elem_of_cons HL'; [|by eapply Hlater]. by simplify_eq.
Qed.

(** ** Properties *)
Definition example_sweep_ops : list DepositOp :=
  [OpQueue 0 (example_deposit 1 101 2000000 None) 10;
   OpQueue 1 (example_deposit 2 102 9000000 (Some 10000)) 11;
   OpQueue 2 (example_deposit 3 103 9000000 None) 12;
   OpQueue 3 (example_deposit 4 104 9000000 None) 13;
   OpSweep [0; 1; 2] 500 (sweep_message example_sweep 77) 900;
   OpFinalizeSwept 900;
   OpCreditSweep 900 (settled_mints example_settled) 20;
   OpMint 1 7;
   OpQuarantinePendingMint 2].

Definition run_deposits (ops : list DepositOp) : Deposits :=
  match foreach deposit_op deposits_default ops with Done d => d | Panic _ => deposits_default end.

(** C10: whatever operations brought the deposits to their current state, they
    implement the abstract lifecycle: every queued deposit is at exactly one
    stage, the ids are the sequence numbers given out so far, an account is
    reserved by exactly the deposit that is neither minted nor dropped, and
    [status] reports the stage of each deposit; looking up the in-flight
    deposit of an account never panics. *)
Theorem deposits_implement_lifecycle `{!Platform} ops d :
  foreach deposit_op deposits_default ops = Done d ->
  Z.of_nat (length ops) <= u64_max ->
  let L := fold_left lifecycle_op ops ∅ in
  implements d L /\
  (forall i, status d i =
     match L !! i with Some (dep, st) => stage_status dep st | None => StatusNotFound end) /\
  (forall acc, exists r, in_flight d acc = Done r).
Proof.
  intros Hrun Hlen L.
  assert (implements d L) as HI by (apply (deposit_ops_implement ops deposits_default); [apply implements_default | done..]).
  split_and!; [done | intros; by apply status_stage|]. intros acc. pose proof (in_flight_spec d L acc HI) as Hfl.
  destruct (in_flight_id d acc); [destruct Hfl|]; eauto.
Qed.

Lemma deposits_implement_lifecycle_witness :
  implements (run_deposits example_sweep_ops) (fold_left lifecycle_op example_sweep_ops ∅) /\
  status (run_deposits example_sweep_ops) 0 = StatusFinalized 900 /\
  status (run_deposits example_sweep_ops) 1 = StatusMinted 7 8094120 /\
  status (run_deposits example_sweep_ops) 2 = StatusQuarantined 900.
Proof.
  split; [|vm_compute; auto].
  refine (proj1 (deposits_implement_lifecycle example_sweep_ops (run_deposits example_sweep_ops) _ _)).
  - vm_compute. reflexivity.
  - vm_compute. discriminate.
Defined.

(** In any history of the deposits a deposit is minted at most once, and
    the minted deposits are the recorded ones, each with an amount that does
    not exceed its sweepable amount. *)
Theorem deposit_minted_at_most_once `{!Platform} ops d :
  foreach deposit_op deposits_default ops = Done d ->
  Z.of_nat (length ops) <= u64_max ->
  NoDup (minted_ids ops) /\
  (forall i, i ∈ minted_ids ops <-> exists m, minted d !! i = Some m) /\
  (forall i m, minted d !! i = Some m ->
     mt_minted_amount m <= sweepable_amount (sd_deposit (mt_deposit m))).
Proof.
  intros Hrun Hlen.
  assert (implements d (fold_left lifecycle_op ops ∅)) as HI
    by (apply (deposit_ops_implement ops deposits_default); [apply implements_default | done..]).
  destruct (minted_ids_run ops _ _ _ implements_default Hlen Hrun) as [Hnd _]. split; [done|].
  assert (forall d0, foreach deposit_op d0 ops = Done d ->
    (forall i, (exists m, minted d0 !! i = Some m) \/ i ∈ minted_ids ops <-> exists m, minted d !! i = Some m)) as Hiff.
  { clear. induction ops as [|op ops IH]; intros d0 Hrun i; cbn in Hrun.
    - simplify_eq. split; [intros [?|?%not_elem_of_nil]; done | auto].
    - apply bind_Done in Hrun as (d1 & Hop & Hrun). rewrite <- (IH d1 Hrun i). clear IH Hrun.
      destruct op as [| | | | | |i0 ix|]; cbn in Hop.
      + apply queue_Done in Hop as (_ & _ & w & _ & ->). done.
      + apply bind_Done in Hop as ([d2 r] & (_ & q & l & s & _ & _ & _ & _ & _ & _ & ->)%sweep_Done & [= <-]). done.
      + apply drop_swept_Done in Hop as (s & _ & _ & ->). done.
      + apply finalize_swept_Done in Hop as (s & _ & _ & _ & ->). done.
      + apply bind_Done in Hop as ([d2 s] & (_ & _ & p & _ & ->)%credit_sweep_Done & [= <-]). done.
      + apply quarantine_sweep_Done in Hop as (s & _ & ->). done.
      + apply mint_Done in Hop as (p & _ & _ & ->). cbn. rewrite elem_of_cons. setoid_rewrite lookup_insert_Some.
        destruct (decide (i0 = i)); naive_solver.
      + apply quarantine_pending_mint_Done in Hop as (p & _ & ->). done. }
  split.
  - intros i. rewrite <- (Hiff _ Hrun i). split; [auto|]. intros [[m' Hm']|]; [|done].
    cbn in Hm'. by rewrite lookup_empty in Hm'.
  - intros i [[dep sig] a ix] Hm. cbn. apply (im_amounts _ _ HI i dep (StMinted sig a ix)).
    by apply (im_holds _ _ HI).
Qed.

Lemma deposit_minted_at_most_once_witness :
  NoDup (minted_ids example_sweep_ops) /\ minted_ids example_sweep_ops = [1].
Proof.
  split; [|reflexivity].
  refine (proj1 (deposit_minted_at_most_once example_sweep_ops (run_deposits example_sweep_ops) _ _)).
  - vm_compute. reflexivity.
  - vm_compute. discriminate.
Defined.

(** A deposit only moves forward: an operation keeps the recorded deposit
    and leaves its stage unchanged or replaces it by a later one, so a minted,
    dropped or quarantined deposit keeps its final stage forever. *)
Theorem deposits_move_forward `{!Platform} ops op d d' i dep st :
  foreach deposit_op deposits_default ops = Done d ->
  deposit_op d op = Done d' ->
  Z.of_nat (length ops) < u64_max ->
  holds d i dep st ->
  exists st', holds d' i dep st' /\ (st' = st \/ (rank st < rank st' /\ processing st = true)).
Proof.
  intros Hrun Hop Hlen Hh.
  assert (implements d (fold_left lifecycle_op ops ∅)) as HI
    by (apply (deposit_ops_implement ops deposits_default); [apply implements_default | cbn; lia | done]).
  assert (implements d' (lifecycle_op (fold_left lifecycle_op ops ∅) op)) as HI'.
  { change (lifecycle_op (fold_left lifecycle_op ops ∅) op) with (fold_left lifecycle_op [op] (fold_left lifecycle_op ops ∅)).
    rewrite <- fold_left_app. apply (deposit_ops_implement (ops ++ [op]) deposits_default); [apply implements_default | |].
    - rewrite length_app. cbn. lia.
    - rewrite foreach_app, Hrun. cbn. by rewrite Hop. }
  pose proof Hh as HL%(im_holds _ _ HI). destruct (lifecycle_op_forward _ op _ _ _ HL) as (st' & HL' & Hrank).
  - intros dp t ->. cbn in Hop. apply queue_Done in Hop as (-> & _). by apply (holds_fresh _ _ _ _ _ HI) in Hh.
  - exists st'. split; [by apply (im_holds _ _ HI')|]. destruct Hrank as [->|Hlt]; [by left|]. right.
    split; [done|]. apply rank_processing. pose proof (rank_le st'). lia.
Qed.

Lemma deposits_move_forward_witness :
  exists st', holds (run_deposits (example_sweep_ops ++ [OpMint 0 8])) 0 (example_deposit 1 101 2000000 None) st' /\
    (st' = StPending 900 1104120 20 \/ (rank (StPending 900 1104120 20) < rank st' /\ processing (StPending 900 1104120 20) = true)).
Proof.
  apply (deposits_move_forward example_sweep_ops (OpMint 0 8) (run_deposits example_sweep_ops));
    vm_compute; reflexivity.
Defined.

(** No reachable deposit is stuck behind a panic: a swept sweep can be
    dropped, and finalized unless its signature is already a finalized one; a
    finalized sweep can be quarantined, and credited with one mint per deposit
    within the sweepable amounts; a pending mint can be minted and quarantined. *)
Theorem deposit_steps_available `{!Platform} ops d sig i :
  foreach deposit_op deposits_default ops = Done d ->
  Z.of_nat (length ops) <= u64_max ->
  (is_Some (sweeps_get (swept d) sig) -> exists d', drop_swept d sig = Done d') /\
  (is_Some (sweeps_get (swept d) sig) -> sweeps_get (finalized d) sig = None ->
     exists d', finalize_swept d sig = Done d') /\
  (forall s, sweeps_get (finalized d) sig = Some s -> exists d', quarantine_sweep d sig = Done d') /\
  (forall s ms t, sweeps_get (finalized d) sig = Some s ->
     map cd_deposit_id ms ≡ₚ btree_keys (sw_deposits s) -> Forall (creditable s) ms ->
     exists d', credit_sweep d sig ms t = Done (d', s)) /\
  (forall ix, is_Some (pending_mints d !! i) -> exists d', mint d i ix = Done d') /\
  (is_Some (pending_mints d !! i) -> exists d', quarantine_pending_mint d i = Done d').
Proof.
  intros Hrun Hlen.
  assert (implements d (fold_left lifecycle_op ops ∅)) as HI
    by (apply (deposit_ops_implement ops deposits_default); [apply implements_default | done..]).
  split_and!.
  - intros [s Hs]. by eapply drop_succeeds.
  - intros [s Hs] Hf. by eapply finalize_succeeds.
  - intros s Hs. eexists. apply quarantine_sweep_Done. by exists s.
  - intros s ms t Hs Hperm HF. by eapply credit_succeeds.
  - intros ix [p Hp]. by eapply mint_succeeds.
  - intros [p Hp]. eexists. apply quarantine_pending_mint_Done. by exists p.
Qed.

Lemma deposit_steps_available_witness :
  exists d', mint (run_deposits example_sweep_ops) 0 8 = Done d'.
Proof.
  refine (proj1 (proj2 (proj2 (proj2 (proj2
    (deposit_steps_available example_sweep_ops (run_deposits example_sweep_ops) 900 0 _ _))))) 8 _).
  - vm_compute. reflexivity.
  - vm_compute. discriminate.
  - vm_compute. eexists. reflexivity.
Defined.
