(* ===== verification/SolTransfer.v ===== *)
(** minter/src/sol_transfer and minter/src/signer: the messages the minter
    signs, their size limit, and who signs them. The threshold signature of
    the management canister is an argument, [sign], of the signing functions. *)
From S2P Require Import Prelude Platform Events Sweeps ConcretePlatform.

Inductive CreateTransferError : Type :=
  | TransactionTooLarge (max got : Z)
  | SigningFailed (error : string).

(** [solana_transaction::Transaction] *)
Record Transaction := mkTransaction { tx_signatures : list Signature; tx_message : Message }.

Section Transfers.
Context `{Platform}.

Definition ensure_within_transaction_size (message : Message) : result unit CreateTransferError :=
  let tx_size := 1 + serialized_len message
    + num_required_signatures (msg_header message) * BYTES_PER_SIGNATURE in
  if MAX_TX_SIZE <? tx_size then Err (TransactionTooLarge MAX_TX_SIZE tx_size) else Ok tt.

Definition batch_withdrawal_instructions (minter_address nonce_account : Address)
    (transfers : list (Address * Lamport)) : list Instruction :=
  advance_nonce_account nonce_account minter_address
  :: map (fun t => transfer_instruction minter_address t.1 t.2) transfers.

Definition build_batch_withdrawal_message (minter_address nonce_account : Address) (nonce_value : Hash)
    (transfers : list (Address * Lamport)) : result Message CreateTransferError :=
  let message := new_with_blockhash
    (batch_withdrawal_instructions minter_address nonce_account transfers)
    (Some minter_address) nonce_value in
  result_bind (ensure_within_transaction_size message) (fun _ => Ok message).

Definition signature_from_bytes (bs : bytes) : outcome Signature :=
  assert_ (length bs =? 64)%nat "BUG: expected 64-byte signature";;
  Done (be_value bs).

(** [sign_bytes]: one signature per derivation path, in the order of the
    paths. [sign] gives the answers of the calls of the [try_join_all]; the
    first call to fail, in the order of the answers, fails the whole request
    and the calls still pending are dropped. Their answers are not used, so
    an execution in which the call of a later path fails first is the one of
    a [sign] that gives its error to the paths before it. *)
Definition sign_bytes (sign : Message -> DerivationPath -> result bytes string)
    (derivation_paths : list DerivationPath) (message : Message) : outcome (result (list Signature) string) :=
  match collect_results (sign message) derivation_paths with
  | Err e => Done (Err e)
  | Ok raw => signatures ← traverse signature_from_bytes raw; Done (Ok signatures)
  end.

Definition sign_transaction (sign : Message -> DerivationPath -> result bytes string)
    (message : Message) (derivation_paths : list DerivationPath)
    : outcome (result Transaction CreateTransferError) :=
  match ensure_within_transaction_size message with
  | Err e => Done (Err e)
  | Ok _ =>
      signed ← sign_bytes sign derivation_paths message;
      Done (result_bind (map_err SigningFailed signed) (fun signatures =>
        Ok (mkTransaction signatures message)))
  end.

Definition accounts_by_address (sweep : Sweep) : gmap Address Account :=
  collect_map (map (fun d => (qd_address d, qd_account d)) (btree_values (sw_deposits sweep))).

Definition sweep_signers (sweep : Sweep) (message : Message) : outcome (list Signer) :=
  traverse (fun key =>
    account ← expect (accounts_by_address sweep !! key) "BUG: signer is not a deposit address of the sweep";
    Done (SignerAccount account)) (signer_keys message).

Definition sign_sweep_transaction (sign : Message -> DerivationPath -> result bytes string)
    (sweep : Sweep) (recent_blockhash : Hash)
    : outcome (result (Transaction * list Signer) CreateTransferError) :=
  let message := sweep_message sweep recent_blockhash in
  signers ← sweep_signers sweep message;
  transaction ← sign_transaction sign message (map signer_derivation_path signers);
  Done (result_bind transaction (fun transaction => Ok (transaction, signers))).

Definition sign_batch_withdrawal_message (sign : Message -> DerivationPath -> result bytes string)
    (message : Message) : outcome (result Transaction CreateTransferError) :=
  sign_transaction sign message [MINTER_DERIVATION_PATH].

(** ** Lemmas *)
Lemma ensure_size_Ok m u :
  ensure_within_transaction_size m = Ok u <->
  1 + serialized_len m + num_required_signatures (msg_header m) * BYTES_PER_SIGNATURE <= MAX_TX_SIZE.
Proof.
  unfold ensure_within_transaction_size. destruct (Z.ltb_spec MAX_TX_SIZE
    (1 + serialized_len m + num_required_signatures (msg_header m) * BYTES_PER_SIGNATURE)), u; split; (done || lia).
Qed.

Lemma build_batch_Ok addr n v ts m :
  build_batch_withdrawal_message addr n v ts = Ok m <->
  m = new_with_blockhash (batch_withdrawal_instructions addr n ts) (Some addr) v /\
  1 + serialized_len m + num_required_signatures (msg_header m) * BYTES_PER_SIGNATURE <= MAX_TX_SIZE.
Proof.
  unfold build_batch_withdrawal_message, result_bind. destruct (ensure_within_transaction_size _) as [u|] eqn:He.
  - apply ensure_size_Ok in He. naive_solver.
  - split; [done|]. intros [-> Hs]. by rewrite (proj2 (ensure_size_Ok _ tt) Hs) in He.
Qed.

(** The nonce account of a batch withdrawal message can be read back from it,
    and so can the nonce value. *)
Lemma build_batch_nonce `{!PlatformLaws} addr n v ts m :
  build_batch_withdrawal_message addr n v ts = Ok m ->
  advanced_nonce_account (Legacy m) = Some n /\ msg_recent_blockhash m = v.
Proof.
  intros [-> _]%build_batch_Ok. split; [|apply new_with_blockhash_hash].
  apply advanced_nonce_account_spec, new_with_blockhash_advance.
Qed.

Lemma sign_transaction_Ok sign m paths tx :
  sign_transaction sign m paths = Done (Ok tx) ->
  tx_message tx = m /\
  1 + serialized_len m + num_required_signatures (msg_header m) * BYTES_PER_SIGNATURE <= MAX_TX_SIZE /\
  Forall2 (fun path sig => exists raw, sign m path = Ok raw /\ signature_from_bytes raw = Done sig)
    paths (tx_signatures tx).
Proof.
  unfold sign_transaction. destruct (ensure_within_transaction_size m) as [u|] eqn:He; [|done].
  apply ensure_size_Ok in He. intros ([sigs|] & Hs & Htx)%bind_Done; cbn in Htx; simplify_eq. cbn.
  split_and!; [done..|]. unfold sign_bytes in Hs.
  destruct (collect_results (sign m) paths) as [raws|] eqn:Hr; [|done].
  apply bind_Done in Hs as (sigs' & Hsig & [= <-]). apply traverse_Done in Hsig. apply collect_results_Ok in Hr.
  revert sigs' Hsig. induction Hr as [|p r ps rs Hp Hr IH]; intros sigs Hsig; inversion Hsig; subst; constructor; eauto.
Qed.

Lemma accounts_by_address_lookup s k acc :
  accounts_by_address s !! k = Some acc ->
  exists i d, sw_deposits s !! i = Some d /\ qd_address d = k /\ qd_account d = acc.
Proof.
  unfold accounts_by_address. intros Hl%collect_map_lookup. apply list_elem_of_fmap in Hl as (d & [= -> ->] & Hd).
  apply elem_of_btree_values in Hd as [i Hd]. by exists i, d.
Qed.
End Transfers.

(** ** Properties *)

(** C35: a signed sweep transaction carries the planned message within the
    size limit, and each of its signatures is made, in the order of the
    message's signer keys, with the derivation path of the account whose
    deposit address that signer key is. *)
Theorem sweep_signed_by_deposit_owners `{!Platform} sign mk s h tx signers :
  (forall i d, sw_deposits s !! i = Some d -> qd_address d = account_address mk (qd_account d)) ->
  sign_sweep_transaction sign s h = Done (Ok (tx, signers)) ->
  tx_message tx = sweep_message s h /\
  1 + serialized_len (tx_message tx)
    + num_required_signatures (msg_header (tx_message tx)) * BYTES_PER_SIGNATURE <= MAX_TX_SIZE /\
  Forall2 (fun key signer => exists acc, signer = SignerAccount acc /\ account_address mk acc = key /\
    exists i d, sw_deposits s !! i = Some d /\ qd_account d = acc)
    (signer_keys (tx_message tx)) signers /\
  Forall2 (fun signer sig => exists raw, sign (tx_message tx) (signer_derivation_path signer) = Ok raw /\
    signature_from_bytes raw = Done sig) signers (tx_signatures tx).
Proof.
  intros Haddr (sgs & Hsig & Hs)%bind_Done. apply bind_Done in Hs as ([tx'|] & Htx & Hr); cbn in Hr; simplify_eq.
  apply sign_transaction_Ok in Htx as (-> & Hsize & HF). split_and!; [done..| |].
  - apply traverse_Done in Hsig. eapply Forall2_impl; [exact Hsig|]. cbn. intros k signer Hk.
    apply bind_Done in Hk as (acc & Hacc%expect_Done & [= <-]).
    apply accounts_by_address_lookup in Hacc as (i & d & Hd & <- & <-). exists (qd_account d).
    split_and!; [done | by rewrite <- (Haddr i d Hd) | by exists i, d].
  - by apply Forall2_fmap_l in HF.
Qed.

Lemma sweep_signed_by_deposit_owners_witness :
  let mk := mkSchnorrPublicKey 5 [] in
  let acc := mkAccount [1] [] in
  let d := mkQueuedDeposit acc (account_address mk acc)
             (default (mkDepositBalance RENT_EXEMPTION_THRESHOLD eq_refl) (DepositBalance_new 2000000)) None in
  let raw := replicate 64 1 in
  let s := match plan [(0, d)] 500 with Done s => s | Panic _ => mkSweep ∅ 0 0 0 [] 0 end in
  exists tx signers,
    sign_sweep_transaction (fun _ _ => Ok raw) s 77 = Done (Ok (tx, signers)) /\
    signers = [SignerAccount acc] /\ tx_message tx = sweep_message s 77.
Proof.
  intros mk acc d raw s. eexists _, _.
  split; [vm_compute; reflexivity|]. split; [reflexivity|].
  apply (sweep_signed_by_deposit_owners (fun _ _ => Ok raw) mk s 77 _ [SignerAccount acc]).
  - intros i d'. assert (sw_deposits s = {[0 := d]}) as -> by (vm_compute; reflexivity).
    rewrite lookup_singleton_Some. intros [_ <-]. reflexivity.
  - vm_compute. reflexivity.
Defined.
