(* ===== verification/MinterState.v ===== *)
(** [State] of minter/src/state/mod.rs: the state of the minter, the
    validation of its parameters, and the operations an event applies. *)
From S2P Require Import Prelude Platform InsertionOrderedMap TimedSizedMap Watchlist NoncePool Events Sweeps Deposits SolTransfer ConcretePlatform.

Inductive TaskType : Type := SweepDeposits | TaskMint | FinalizeTransactions | WithdrawalProcessing.

#[export] Instance TaskType_eq_dec : EqDecision TaskType.
Proof. solve_decision. Defined.
#[export] Instance TaskType_countable : Countable TaskType.
Proof.
  refine (inj_countable'
    (fun t => match t with SweepDeposits => 0%nat | TaskMint => 1%nat | FinalizeTransactions => 2%nat | WithdrawalProcessing => 3%nat end)
    (fun n => match n with 0%nat => SweepDeposits | 1%nat => TaskMint | 2%nat => FinalizeTransactions | _ => WithdrawalProcessing end) _).
  by intros [].
Defined.

Record PendingWithdrawalRequest := mkPendingWithdrawal {
  pw_request : WithdrawalRequest;
  pw_created_at : Timestamp
}.

Record SentWithdrawalRequest := mkSentWithdrawal {
  sent_request : WithdrawalRequest;
  sent_signature : Signature;
  sent_created_at : Timestamp
}.

Record CreatedWithdrawalTransaction := mkCreatedTx {
  ctx_nonce_value : Hash;
  ctx_burn_indices : list LedgerBurnIndex
}.

Inductive MinterTransaction : Type :=
  | TxSweepDeposit (block_height : BlockHeight)
  | TxWithdrawal (message : VersionedMessage) (nonce_account : Address) (nonce_value : Hash)
      (submitted_at : Timestamp).

Record State := mkState {
  minter_public_key : option SchnorrPublicKey;
  master_key_name : Ed25519KeyName;
  ledger_canister_id : Principal;
  sol_rpc_canister_id : Principal;
  solana_network : SolanaNetwork;
  withdrawal_fee : Lamport;
  minimum_withdrawal_amount : Lamport;
  minimum_deposit_amount : Lamport;
  deposit_sol_required_cycles : Z;
  deposit_sol_fee : Z;
  automatic_deposit_fee : option Lamport;
  collected_automatic_deposit_fees : Lamport;
  pending_deposit_sol_request_guards : gset Account;
  pending_withdrawal_request_guards : gset Account;
  deposits : Deposits;
  pending_withdrawal_requests : gmap LedgerBurnIndex PendingWithdrawalRequest;
  created_withdrawal_requests : gmap LedgerBurnIndex PendingWithdrawalRequest;
  sent_withdrawal_requests : gmap LedgerBurnIndex SentWithdrawalRequest;
  successful_withdrawal_requests : gmap LedgerBurnIndex SentWithdrawalRequest;
  failed_withdrawal_requests : gmap LedgerBurnIndex SentWithdrawalRequest;
  submitted_transactions : InsertionOrderedMap Signature MinterTransaction;
  created_withdrawal_txs : gmap Address CreatedWithdrawalTransaction;
  succeeded_transactions : gset Signature;
  failed_transactions : InsertionOrderedMap Signature MinterTransaction;
  nonce_pool : DurableNoncePool;
  active_tasks : gset TaskType;
  balance : Lamport
}.

#[export] Instance State_eta : Eta State := fun s =>
  mkState (minter_public_key s) (master_key_name s) (ledger_canister_id s) (sol_rpc_canister_id s)
    (solana_network s) (withdrawal_fee s) (minimum_withdrawal_amount s) (minimum_deposit_amount s)
    (deposit_sol_required_cycles s) (deposit_sol_fee s) (automatic_deposit_fee s)
    (collected_automatic_deposit_fees s) (pending_deposit_sol_request_guards s)
    (pending_withdrawal_request_guards s) (deposits s) (pending_withdrawal_requests s)
    (created_withdrawal_requests s) (sent_withdrawal_requests s) (successful_withdrawal_requests s)
    (failed_withdrawal_requests s) (submitted_transactions s) (created_withdrawal_txs s)
    (succeeded_transactions s) (failed_transactions s) (nonce_pool s) (active_tasks s) (balance s).

(** ** Parameters *)
Inductive InvalidStateError : Type :=
  | InvalidCanisterId (message : string)
  | InvalidMinimumDepositAmount (minimum_deposit_amount maximum_sweep_fee rent_exemption_threshold : Z)
  | MinimumDepositAmountLeavesMainAddressBelowRent
      (minimum_deposit_amount rent_exemption_threshold fee_per_signature : Z)
  | InvalidMinimumWithdrawalAmount (minimum_withdrawal_amount withdrawal_fee rent_exemption_threshold : Z)
  | DepositSolRequiredCyclesTooLow (required_cycles get_balance_cycles deposit_sol_fee : Z)
  | AutomaticDepositFeeTooHigh (automatic_deposit_fee max_automatic_deposit_fee : Lamport)
  | InvalidNonceAccount (message : string)
  | DuplicateNonceAccount (address : Address)
  | NonceAccountIsWithdrawalDestination (address : Address).

Definition from_nonce_pool_error (error : NoncePoolError) : InvalidStateError :=
  match error with DuplicateAccount address => DuplicateNonceAccount address end.

Definition max_automatic_deposit_fee (s : State) : Lamport :=
  saturating_sub (saturating_sub (saturating_sub (minimum_deposit_amount s) RENT_EXEMPTION_THRESHOLD)
    FEE_PER_SIGNATURE) 1.

Section Parameters.
Context `{Platform}.

Definition validate (s : State) : result unit InvalidStateError :=
  let canister_ids : gset Principal := {[sol_rpc_canister_id s]} ∪ {[ledger_canister_id s]} in
  if bool_decide (anonymous ∈ canister_ids) then
    Err (InvalidCanisterId "ERROR: anonymous principal is not accepted!")
  else if (size canister_ids <? 2)%nat then
    Err (InvalidCanisterId "ERROR: provided canister IDs are not distinct!")
  else
  let maximum_sweep_fee := MAX_SIGNATURES *w FEE_PER_SIGNATURE in
  if minimum_deposit_amount s <? maximum_sweep_fee +w RENT_EXEMPTION_THRESHOLD then
    Err (InvalidMinimumDepositAmount (minimum_deposit_amount s) maximum_sweep_fee RENT_EXEMPTION_THRESHOLD)
  else if minimum_deposit_amount s <? (2 *w RENT_EXEMPTION_THRESHOLD) +w FEE_PER_SIGNATURE then
    Err (MinimumDepositAmountLeavesMainAddressBelowRent (minimum_deposit_amount s)
      RENT_EXEMPTION_THRESHOLD FEE_PER_SIGNATURE)
  else if minimum_withdrawal_amount s <? withdrawal_fee s +w RENT_EXEMPTION_THRESHOLD then
    Err (InvalidMinimumWithdrawalAmount (minimum_withdrawal_amount s) (withdrawal_fee s)
      RENT_EXEMPTION_THRESHOLD)
  else if deposit_sol_required_cycles s <? wadd128 GET_BALANCE_CYCLES (deposit_sol_fee s) then
    Err (DepositSolRequiredCyclesTooLow (deposit_sol_required_cycles s) GET_BALANCE_CYCLES (deposit_sol_fee s))
  else
  match automatic_deposit_fee s with
  | Some fee =>
      if max_automatic_deposit_fee s <? fee
      then Err (AutomaticDepositFeeTooHigh fee (max_automatic_deposit_fee s))
      else Ok tt
  | None => Ok tt
  end.

Definition parse_nonce_accounts (addresses : list string) : result (list Address) InvalidStateError :=
  collect_results (fun address =>
    map_err (fun error => InvalidNonceAccount (String.concat "" ["ERROR: failed to parse nonce account "; address; ": "; error]))
      (address_from_str address)) addresses.

Definition incomplete_destinations (s : State) : gset Address :=
  list_to_set (map wr_solana_address
    (map pw_request (btree_values (pending_withdrawal_requests s) ++ btree_values (created_withdrawal_requests s))
     ++ map sent_request (btree_values (sent_withdrawal_requests s)))).

Definition ensure_no_incomplete_withdrawal_to (s : State) (nonce_accounts : list Address)
    : result unit InvalidStateError :=
  match head (filter (fun a => a ∈ incomplete_destinations s) nonce_accounts) with
  | Some address => Err (NonceAccountIsWithdrawalDestination address)
  | None => Ok tt
  end.

Definition upgrade (s : State) (args : UpgradeArgs) : result State InvalidStateError :=
  let s := match ua_sol_rpc_canister_id args with Some v => s <| sol_rpc_canister_id := v |> | None => s end in
  let s := match ua_withdrawal_fee args with Some v => s <| withdrawal_fee := v |> | None => s end in
  let s := match ua_minimum_withdrawal_amount args with Some v => s <| minimum_withdrawal_amount := v |> | None => s end in
  let s := match ua_minimum_deposit_amount args with Some v => s <| minimum_deposit_amount := v |> | None => s end in
  let s := match ua_deposit_sol_required_cycles args with Some v => s <| deposit_sol_required_cycles := v |> | None => s end in
  let s := match ua_deposit_sol_fee args with Some v => s <| deposit_sol_fee := v |> | None => s end in
  let s := match ua_automatic_deposit_fee args with Some v => s <| automatic_deposit_fee := Some v |> | None => s end in
  result_bind
    (match ua_nonce_accounts_to_add args with
     | Some nonce_accounts =>
         result_bind (parse_nonce_accounts nonce_accounts) (fun nonce_accounts =>
         result_bind (ensure_no_incomplete_withdrawal_to s nonce_accounts) (fun _ =>
         result_bind (map_err from_nonce_pool_error (np_add_accounts (nonce_pool s) nonce_accounts)) (fun pool =>
         Ok (s <| nonce_pool := pool |>))))
     | None => Ok s
     end) (fun s =>
  result_bind (validate s) (fun _ => Ok s)).

(** [TryFrom<InitArgs> for State] *)
Definition state_try_from (args : InitArgs) : result State InvalidStateError :=
  result_bind (parse_nonce_accounts (ia_nonce_accounts args)) (fun addresses =>
  result_bind (map_err from_nonce_pool_error (np_new addresses)) (fun pool =>
  let s := mkState None (ia_master_key_name args) (ia_ledger_canister_id args) (ia_sol_rpc_canister_id args)
    (ia_solana_network args) (ia_withdrawal_fee args) (ia_minimum_withdrawal_amount args)
    (ia_minimum_deposit_amount args) (ia_deposit_sol_required_cycles args) (ia_deposit_sol_fee args)
    (ia_automatic_deposit_fee args) 0 ∅ ∅ deposits_default ∅ ∅ ∅ ∅ ∅ iom_new ∅ ∅ iom_new pool ∅ 0 in
  result_bind (validate s) (fun _ => Ok s))).
End Parameters.

(** ** Queries *)

(** [WithdrawSolStatus] and [TxFinalizedStatus] of libs/types. *)
Inductive WithdrawSolStatus : Type :=
  | WithdrawalNotFound
  | WithdrawalPending
  | WithdrawalTxSent (transaction_id : Signature)
  | WithdrawalTxSuccess (transaction_id : Signature)
  | WithdrawalTxFailure (transaction_id : Signature).

Definition withdrawal_status (s : State) (burn_index : LedgerBurnIndex) : WithdrawSolStatus :=
  if bool_decide (is_Some (pending_withdrawal_requests s !! burn_index))
     || bool_decide (is_Some (created_withdrawal_requests s !! burn_index))
  then WithdrawalPending
  else
  match sent_withdrawal_requests s !! burn_index with
  | Some sent => WithdrawalTxSent (sent_signature sent)
  | None =>
  match successful_withdrawal_requests s !! burn_index with
  | Some sent => WithdrawalTxSuccess (sent_signature sent)
  | None =>
  match failed_withdrawal_requests s !! burn_index with
  | Some sent => WithdrawalTxFailure (sent_signature sent)
  | None => WithdrawalNotFound
  end end end.

Definition oldest_incomplete_withdrawal_created_at (s : State) : option Timestamp :=
  list_min (map pw_created_at (btree_values (pending_withdrawal_requests s))
            ++ map pw_created_at (btree_values (created_withdrawal_requests s))
            ++ map sent_created_at (btree_values (sent_withdrawal_requests s))).

(** [WithdrawalBatches]: the iterator's state is the list of requests not yet
    taken and the balance still available. One call of [next] fills one batch;
    [room] is the number of requests it may still take. *)
Fixpoint next_batch (room : nat) (batch : list WithdrawalRequest) (requests : list WithdrawalRequest)
    (available_balance : Lamport) : list WithdrawalRequest * list WithdrawalRequest * Lamport :=
  match room, requests with
  | S room, request :: rest =>
      let reserved_fee := match batch with [] => BATCH_WITHDRAWAL_TX_FEE | _ => 0 end in
      match (cost ← checked_add (wr_amount_to_transfer request) reserved_fee;
             checked_sub available_balance cost) with
      | Some remaining => next_batch room (batch ++ [request]) rest remaining
      | None => (batch, requests, available_balance)
      end
  | _, _ => (batch, requests, available_balance)
  end.

(** All the batches of the iterator; the fuel, the number of requests, is
    enough since every batch takes at least one. *)
Fixpoint batches_fuel (fuel : nat) (requests : list WithdrawalRequest) (available_balance : Lamport)
    : list (list WithdrawalRequest) :=
  match fuel with
  | O => []
  | S fuel =>
      let '(batch, rest, available) :=
        next_batch MAX_WITHDRAWALS_PER_NONCE_TX [] requests available_balance in
      match batch with
      | [] => []
      | _ => batch :: batches_fuel fuel rest available
      end
  end.

Definition pending_requests_in_order (s : State) : list WithdrawalRequest :=
  map pw_request (btree_values (pending_withdrawal_requests s)).

Definition available_balance (s : State) : Lamport := saturating_sub (balance s) RENT_EXEMPTION_THRESHOLD.

Definition withdrawal_batches (s : State) : list (list WithdrawalRequest) :=
  batches_fuel (length (pending_requests_in_order s)) (pending_requests_in_order s) (available_balance s).

Definition can_create_withdrawal_transaction (s : State) : bool :=
  (0 <? np_num_free_accounts (nonce_pool s))%nat
  && match withdrawal_batches s with [] => false | _ => true end.

Definition has_unsigned_withdrawal_transaction (s : State) : bool :=
  negb (bool_decide (created_withdrawal_txs s = ∅)).

(** ** Transitions *)
Definition cache_minter_public_key (s : State) (key : SchnorrPublicKey) : outcome State :=
  match minter_public_key s with
  | None => Done (s <| minter_public_key := Some key |>)
  | Some cached =>
      if bool_decide (cached = key) then Done s
      else Panic "BUG: attempt to overwrite the minter public key"
  end.

(** In a release build the check of the deposit address is compiled out. *)
Definition process_queued_deposit (s : State) (deposit_id : DepositSolId) (deposit : QueuedDeposit)
    (queued_at : Timestamp) : outcome State :=
  d ← queue (deposits s) deposit_id deposit queued_at;
  Done (s <| deposits := d |>).

Definition process_credited_sweep (s : State) (signature : Signature) (received : Lamport)
    (mints : list CreditedDeposit) (timestamp : Timestamp) : outcome State :=
  let amount_to_mint := wsum (map cd_amount_to_mint mints) in
  '(d, sweep) ← credit_sweep (deposits s) signature mints timestamp;
  let fees := deposit_fees sweep in
  assert_ (match checked_add amount_to_mint fees with Some total => total <=? received | None => false end)
    "Attempted to credit sweep with mints and deposit fees exceeding the amount received";;
  Done (s <| deposits := d |>
          <| collected_automatic_deposit_fees := collected_automatic_deposit_fees s +w fees |>
          <| balance := balance s +w received |>).

Definition process_minted_swept_deposit (s : State) (deposit_id : DepositSolId)
    (mint_block_index : LedgerMintIndex) : outcome State :=
  d ← mint (deposits s) deposit_id mint_block_index;
  Done (s <| deposits := d |>).

Definition process_quarantined_pending_mint (s : State) (deposit_id : DepositSolId) : outcome State :=
  d ← quarantine_pending_mint (deposits s) deposit_id;
  Done (s <| deposits := d |>).

Definition process_quarantined_sweep (s : State) (signature : Signature) : outcome State :=
  d ← quarantine_sweep (deposits s) signature;
  Done (s <| deposits := d |>).

Definition process_accepted_withdrawal (s : State) (request : WithdrawalRequest) (created_at : Timestamp)
    : outcome State :=
  assert_ (bool_decide (pending_withdrawal_requests s !! wr_burn_block_index request = None))
    "Attempted to accept an already accepted withdrawal request";;
  Done (s <| pending_withdrawal_requests ::=
    <[wr_burn_block_index request := mkPendingWithdrawal request created_at]> |>).

(** The loop of [process_transaction_created]: the requests move from the
    pending to the created bucket while their amounts are added up. *)
Definition create_one
    (acc : gmap LedgerBurnIndex PendingWithdrawalRequest * gmap LedgerBurnIndex PendingWithdrawalRequest * Lamport)
    (burn_index : LedgerBurnIndex)
    : outcome (gmap LedgerBurnIndex PendingWithdrawalRequest * gmap LedgerBurnIndex PendingWithdrawalRequest * Lamport) :=
  let '(pending, created, total) := acc in
  request ← expect (pending !! burn_index) "Attempted to create transaction for unknown withdrawal request";
  total' ← expect (checked_add total (wr_amount_to_transfer (pw_request request)))
    "BUG: total amount of a withdrawal transaction overflows";
  assert_ (bool_decide (created !! burn_index = None))
    "Attempted to create transaction for already created withdrawal request";;
  Done (delete burn_index pending, <[burn_index := request]> created, total').

Definition process_transaction_created (s : State) (burn_indices : list LedgerBurnIndex)
    (nonce_account : Address) (nonce_value : Hash) : outcome State :=
  pool ← np_bind (nonce_pool s) nonce_account nonce_value;
  '(pending, created, total) ← foreach create_one
    (pending_withdrawal_requests s, created_withdrawal_requests s, 0) burn_indices;
  balance' ← expect (checked_sub (balance s) (total +w BATCH_WITHDRAWAL_TX_FEE))
    "BUG: insufficient minter balance for withdrawal";
  assert_ (bool_decide (created_withdrawal_txs s !! nonce_account = None))
    "BUG: nonce account already has a created transaction";;
  Done (s <| nonce_pool := pool |>
          <| pending_withdrawal_requests := pending |>
          <| created_withdrawal_requests := created |>
          <| balance := balance' |>
          <| created_withdrawal_txs ::= <[nonce_account := mkCreatedTx nonce_value burn_indices]> |>).

Section Transitions.
Context `{Platform}.

Definition bound_transfers (s : State) (created : CreatedWithdrawalTransaction)
    : outcome (list (Address * Lamport)) :=
  traverse (fun burn_index =>
    request ← expect (created_withdrawal_requests s !! burn_index)
      "BUG: withdrawal request of a created transaction is not in the created bucket";
    Done (wr_solana_address (pw_request request), wr_amount_to_transfer (pw_request request)))
    (ctx_burn_indices created).

Definition bound_withdrawal_message (s : State) (nonce_account : Address)
    (created : CreatedWithdrawalTransaction) : outcome Message :=
  key ← expect (minter_public_key s)
    "BUG: a withdrawal was submitted before the minter public key was recorded";
  transfers ← bound_transfers s created;
  match build_batch_withdrawal_message (minter_address key) nonce_account (ctx_nonce_value created) transfers with
  | Ok message => Done message
  | Err _ => Panic "BUG: cannot rebuild the withdrawal message bound to nonce account"
  end.

Definition send_one (signature : Signature)
    (acc : gmap LedgerBurnIndex PendingWithdrawalRequest * gmap LedgerBurnIndex SentWithdrawalRequest)
    (burn_index : LedgerBurnIndex)
    : outcome (gmap LedgerBurnIndex PendingWithdrawalRequest * gmap LedgerBurnIndex SentWithdrawalRequest) :=
  let '(created, sent) := acc in
  pending ← expect (created !! burn_index)
    "BUG: withdrawal request of a created transaction is not in the created bucket";
  assert_ (bool_decide (sent !! burn_index = None))
    "Attempted to send transaction for already sent withdrawal request";;
  Done (delete burn_index created,
        <[burn_index := mkSentWithdrawal (pw_request pending) signature (pw_created_at pending)]> sent).

Definition send_nonce_withdrawal (s : State) (signature : Signature) (message : VersionedMessage)
    (signers : list Signer) (burn_indices : list LedgerBurnIndex) (submitted_at : Timestamp)
    : outcome (State * MinterTransaction) :=
  nonce_account ← expect (advanced_nonce_account message)
    "BUG: withdrawal transaction does not start with an AdvanceNonceAccount instruction";
  created ← expect (created_withdrawal_txs s !! nonce_account)
    "BUG: no withdrawal transaction was created for nonce account";
  let s := s <| created_withdrawal_txs ::= delete nonce_account |> in
  assert_ (bool_decide (burn_indices = ctx_burn_indices created))
    "BUG: withdrawal transaction does not serve the withdrawal requests bound to nonce account";;
  bound ← bound_withdrawal_message s nonce_account created;
  assert_ (bool_decide (message = Legacy bound))
    "BUG: withdrawal transaction does not carry the message bound to nonce account";;
  assert_ (bool_decide (signers = [SignerMinter]))
    "BUG: withdrawal transaction must be signed by the minter only";;
  '(created_requests, sent) ← foreach (send_one signature)
    (created_withdrawal_requests s, sent_withdrawal_requests s) (ctx_burn_indices created);
  Done (s <| created_withdrawal_requests := created_requests |> <| sent_withdrawal_requests := sent |>,
        TxWithdrawal message nonce_account (ctx_nonce_value created) submitted_at).

Definition insert_submitted (s : State) (signature : Signature) (tx : MinterTransaction) : outcome State :=
  let '(submitted, previous) := iom_insert (submitted_transactions s) signature tx in
  match previous with
  | None => Done (s <| submitted_transactions := submitted |>)
  | Some _ => Panic "Attempted to submit transaction with signature twice"
  end.

Definition process_transaction_submitted (s : State) (signature : Signature) (transaction : VersionedMessage)
    (signers : list Signer) (purpose : TransactionPurpose) (timestamp : Timestamp) : outcome State :=
  assert_ (negb (bool_decide (signature ∈ succeeded_transactions s)))
    "Attempted to submit already succeeded transaction";;
  assert_ (negb (iom_contains_key (failed_transactions s) signature))
    "Attempted to submit already failed transaction";;
  '(s, tx) ←
    match purpose with
    | PurposeWithdrawal burn_indices =>
        send_nonce_withdrawal s signature transaction signers burn_indices timestamp
    | PurposeSweepDeposit deposit_ids block_height =>
        key ← expect (minter_public_key s)
          "BUG: a sweep was submitted before the minter public key was recorded";
        '(d, _) ← sweep (deposits s) deposit_ids (minter_address key) transaction signature;
        Done (s <| deposits := d |>, TxSweepDeposit block_height)
    end;
  insert_submitted s signature tx.
End Transitions.

Definition take_submitted (s : State) (signature : Signature) (why : string)
    : outcome (State * MinterTransaction) :=
  let '(submitted, removed) := iom_remove (submitted_transactions s) signature in
  tx ← expect removed why;
  Done (s <| submitted_transactions := submitted |>, tx).

Definition process_transaction_expired (s : State) (signature : Signature) : outcome State :=
  assert_ (negb (bool_decide (signature ∈ succeeded_transactions s)))
    "BUG: cannot mark already succeeded transaction as expired";;
  assert_ (negb (iom_contains_key (failed_transactions s) signature))
    "BUG: cannot mark already failed transaction as expired";;
  '(s, transaction) ← take_submitted s signature
    "BUG: cannot mark non-submitted transaction as expired";
  match transaction with
  | TxSweepDeposit _ => d ← drop_swept (deposits s) signature; Done (s <| deposits := d |>)
  | TxWithdrawal _ _ _ _ => Panic "BUG: durable-nonce withdrawal transaction cannot expire"
  end.

(** The requests sent with the given transaction. *)
Definition sent_with (signature : Signature) (sent : gmap LedgerBurnIndex SentWithdrawalRequest)
    : gmap LedgerBurnIndex SentWithdrawalRequest :=
  filter (fun p => sent_signature p.2 = signature) sent.
Definition not_sent_with (signature : Signature) (sent : gmap LedgerBurnIndex SentWithdrawalRequest)
    : gmap LedgerBurnIndex SentWithdrawalRequest :=
  filter (fun p => sent_signature p.2 <> signature) sent.

Definition process_transaction_succeeded (s : State) (signature : Signature) : outcome State :=
  assert_ (negb (iom_contains_key (failed_transactions s) signature))
    "Attempted to mark already failed transaction as succeeded";;
  '(s, transaction) ← take_submitted s signature "Attempted to mark unknown transaction as succeeded";
  s ←
    match transaction with
    | TxSweepDeposit _ => d ← finalize_swept (deposits s) signature; Done (s <| deposits := d |>)
    | TxWithdrawal _ nonce_account _ _ => pool ← np_free (nonce_pool s) nonce_account; Done (s <| nonce_pool := pool |>)
    end;
  assert_ (negb (bool_decide (signature ∈ succeeded_transactions s)))
    "Attempted to mark transaction as succeeded twice";;
  Done (s <| succeeded_transactions := {[signature]} ∪ succeeded_transactions s |>
          <| successful_withdrawal_requests :=
               sent_with signature (sent_withdrawal_requests s) ∪ successful_withdrawal_requests s |>
          <| sent_withdrawal_requests := not_sent_with signature (sent_withdrawal_requests s) |>).

Definition process_transaction_failed (s : State) (signature : Signature) : outcome State :=
  assert_ (negb (bool_decide (signature ∈ succeeded_transactions s)))
    "Attempted to mark already succeeded transaction as failed";;
  '(s, transaction) ← take_submitted s signature "Attempted to mark unknown transaction as failed";
  s ←
    match transaction with
    | TxSweepDeposit _ => d ← drop_swept (deposits s) signature; Done (s <| deposits := d |>)
    | TxWithdrawal _ nonce_account _ _ => pool ← np_free (nonce_pool s) nonce_account; Done (s <| nonce_pool := pool |>)
    end;
  let '(failed, previous) := iom_insert (failed_transactions s) signature transaction in
  match previous with
  | Some _ => Panic "Attempted to fail transaction twice"
  | None =>
      Done (s <| failed_transactions := failed |>
              <| failed_withdrawal_requests :=
                   sent_with signature (sent_withdrawal_requests s) ∪ failed_withdrawal_requests s |>
              <| sent_withdrawal_requests := not_sent_with signature (sent_withdrawal_requests s) |>)
  end.

(** ** Successful transitions

    Each lemma states when a transition succeeds and the state it leads to. *)
Lemma take_submitted_Done s sig why p :
  take_submitted s sig why = Done p <->
  iom_get (submitted_transactions s) sig = Some p.2 /\
  p.1 = s <| submitted_transactions := (iom_remove (submitted_transactions s) sig).1 |>.
Proof.
  unfold take_submitted. rewrite <- iom_remove_snd. destruct (iom_remove _ sig) as [m [tx|]], p; cbn; naive_solver.
Qed.

Lemma contains_failed_false s sig :
  negb (iom_contains_key (failed_transactions s) sig) = true <-> iom_get (failed_transactions s) sig = None.
Proof.
  rewrite iom_contains_key_get, negb_true_iff, bool_decide_eq_false, eq_None_not_Some. done.
Qed.

Lemma not_succeeded_true s sig :
  negb (bool_decide (sig ∈ succeeded_transactions s)) = true <-> sig ∉ succeeded_transactions s.
Proof. by rewrite negb_true_iff, bool_decide_eq_false. Qed.

Definition finalizes (s : State) (sig : Signature) (tx : MinterTransaction) (d : Deposits) (pool : DurableNoncePool) : Prop :=
  match tx with
  | TxSweepDeposit _ => finalize_swept (deposits s) sig = Done d /\ pool = nonce_pool s
  | TxWithdrawal _ a _ _ => np_free (nonce_pool s) a = Done pool /\ d = deposits s
  end.

Lemma process_succeeded_Done s sig s' :
  process_transaction_succeeded s sig = Done s' <->
  exists tx d pool,
    iom_get (failed_transactions s) sig = None /\ iom_get (submitted_transactions s) sig = Some tx /\
    (sig ∉ succeeded_transactions s) /\ finalizes s sig tx d pool /\
    s' = s <| submitted_transactions := (iom_remove (submitted_transactions s) sig).1 |>
           <| deposits := d |> <| nonce_pool := pool |>
           <| succeeded_transactions := {[sig]} ∪ succeeded_transactions s |>
           <| successful_withdrawal_requests :=
                sent_with sig (sent_withdrawal_requests s) ∪ successful_withdrawal_requests s |>
           <| sent_withdrawal_requests := not_sent_with sig (sent_withdrawal_requests s) |>.
Proof.
  unfold process_transaction_succeeded. split.
  - intros Hp. apply bind_Done in Hp as ([] & H1%assert_Done%contains_failed_false & Hp).
    apply bind_Done in Hp as ([s1 tx] & [H2 Hs1]%take_submitted_Done & Hp). cbn [fst snd] in H2, Hs1. subst s1.
    apply bind_Done in Hp as (s2 & H3 & Hp). apply bind_Done in Hp as ([] & H4%assert_Done%not_succeeded_true & Hp).
    apply Done_inv in Hp. exists tx. destruct tx as [h|m a v t].
    + apply bind_Done in H3 as (d & Hd & Hs2). apply Done_inv in Hs2. subst s2 s'. by exists d, (nonce_pool s).
    + apply bind_Done in H3 as (pool & Hd & Hs2). apply Done_inv in Hs2. subst s2 s'. by exists (deposits s), pool.
  - intros (tx & d & pool & H1 & H2 & H3 & H4 & ->).
    rewrite (proj2 (contains_failed_false s sig) H1). cbn [assert_ mbind outcome_bind].
    rewrite (proj2 (take_submitted_Done s sig _ (_, tx)) (conj H2 eq_refl)). cbn [mbind outcome_bind].
    apply not_succeeded_true in H3.
    destruct tx as [h|m a v t]; destruct H4 as [H4 ->]; read_upd; rewrite H4; cbn [mbind outcome_bind];
      read_upd; rewrite H3; reflexivity.
Qed.

Definition drops (s : State) (sig : Signature) (tx : MinterTransaction) (d : Deposits) (pool : DurableNoncePool) : Prop :=
  match tx with
  | TxSweepDeposit _ => drop_swept (deposits s) sig = Done d /\ pool = nonce_pool s
  | TxWithdrawal _ a _ _ => np_free (nonce_pool s) a = Done pool /\ d = deposits s
  end.

Lemma process_failed_Done s sig s' :
  process_transaction_failed s sig = Done s' <->
  exists tx d pool,
    (sig ∉ succeeded_transactions s) /\ iom_get (submitted_transactions s) sig = Some tx /\
    iom_get (failed_transactions s) sig = None /\ drops s sig tx d pool /\
    s' = s <| submitted_transactions := (iom_remove (submitted_transactions s) sig).1 |>
           <| deposits := d |> <| nonce_pool := pool |>
           <| failed_transactions := (iom_insert (failed_transactions s) sig tx).1 |>
           <| failed_withdrawal_requests :=
                sent_with sig (sent_withdrawal_requests s) ∪ failed_withdrawal_requests s |>
           <| sent_withdrawal_requests := not_sent_with sig (sent_withdrawal_requests s) |>.
Proof.
  unfold process_transaction_failed. split.
  - intros Hp. apply bind_Done in Hp as ([] & H1%assert_Done%not_succeeded_true & Hp).
    apply bind_Done in Hp as ([s1 tx] & [H2 Hs1]%take_submitted_Done & Hp). cbn [fst snd] in H2, Hs1. subst s1.
    apply bind_Done in Hp as (s2 & H3 & Hp). exists tx. destruct tx as [h|m a v t].
    + apply bind_Done in H3 as (d & Hd & Hs2). apply Done_inv in Hs2. subst s2. exists d, (nonce_pool s).
      read_upd_in Hp.
      destruct (iom_insert (failed_transactions s) sig _) as [f [o|]] eqn:Hf; [done|]. apply Done_inv in Hp. subst s'.
      split_and!; try done. by rewrite <- (iom_insert_snd (failed_transactions s) sig (TxSweepDeposit h)), Hf.
    + apply bind_Done in H3 as (pool & Hd & Hs2). apply Done_inv in Hs2. subst s2. exists (deposits s), pool.
      read_upd_in Hp.
      destruct (iom_insert (failed_transactions s) sig _) as [f [o|]] eqn:Hf; [done|]. apply Done_inv in Hp. subst s'.
      split_and!; try done. by rewrite <- (iom_insert_snd (failed_transactions s) sig (TxWithdrawal m a v t)), Hf.
  - intros (tx & d & pool & H1 & H2 & H3 & H4 & ->).
    rewrite (proj2 (not_succeeded_true s sig) H1). cbn [assert_ mbind outcome_bind].
    rewrite (proj2 (take_submitted_Done s sig _ (_, tx)) (conj H2 eq_refl)). cbn [mbind outcome_bind].
    rewrite <- (iom_insert_snd _ _ tx) in H3.
    destruct tx as [h|m a v t]; destruct H4 as [H4 ->]; read_upd; rewrite H4; cbn [mbind outcome_bind];
      read_upd; destruct (iom_insert (failed_transactions s) sig _) as [f [o|]]; (discriminate H3 || reflexivity).
Qed.

Lemma process_expired_Done s sig s' :
  process_transaction_expired s sig = Done s' <->
  exists h d,
    (sig ∉ succeeded_transactions s) /\ iom_get (failed_transactions s) sig = None /\
    iom_get (submitted_transactions s) sig = Some (TxSweepDeposit h) /\ drop_swept (deposits s) sig = Done d /\
    s' = s <| submitted_transactions := (iom_remove (submitted_transactions s) sig).1 |> <| deposits := d |>.
Proof.
  unfold process_transaction_expired. split.
  - intros Hp. apply bind_Done in Hp as ([] & H1%assert_Done%not_succeeded_true & Hp).
    apply bind_Done in Hp as ([] & H2%assert_Done%contains_failed_false & Hp).
    apply bind_Done in Hp as ([s1 tx] & [H3 Hs1]%take_submitted_Done & Hp). cbn [fst snd] in H3, Hs1. subst s1.
    destruct tx as [h|]; [|done]. apply bind_Done in Hp as (d & Hd & Hp). apply Done_inv in Hp. subst s'. by exists h, d.
  - intros (h & d & H1 & H2 & H3 & H4 & ->).
    rewrite (proj2 (not_succeeded_true s sig) H1), (proj2 (contains_failed_false s sig) H2). cbn [assert_ mbind outcome_bind].
    rewrite (proj2 (take_submitted_Done s sig _ (_, TxSweepDeposit h)) (conj H3 eq_refl)). cbn [mbind outcome_bind].
    read_upd. rewrite H4. reflexivity.
Qed.

Definition request_amount (m : gmap LedgerBurnIndex PendingWithdrawalRequest) (b : LedgerBurnIndex) : Lamport :=
  default 0 ((fun r => wr_amount_to_transfer (pw_request r)) <$> m !! b).

Definition batch_amount (m : gmap LedgerBurnIndex PendingWithdrawalRequest) (ixs : list LedgerBurnIndex) : Z :=
  zsum (map (request_amount m) ixs).

Lemma batch_amount_cons m b ixs : batch_amount m (b :: ixs) = request_amount m b + batch_amount m ixs.
Proof. done. Qed.

Lemma batch_amount_delete m b ixs : b ∉ ixs -> batch_amount (delete b m) ixs = batch_amount m ixs.
Proof.
  intros Hb. unfold batch_amount. f_equal. apply map_ext_in. intros b' Hin%list_elem_of_In.
  unfold request_amount. rewrite lookup_delete_ne; [done|]. by intros ->.
Qed.

Lemma create_loop ixs : forall p c tot p' c' tot',
  foreach create_one (p, c, tot) ixs = Done (p', c', tot') ->
  NoDup ixs /\ (forall b, b ∈ ixs -> is_Some (p !! b) /\ c !! b = None) /\
  tot' = tot + batch_amount p ixs /\ (tot < u64_modulus -> tot' < u64_modulus) /\
  (forall b, p' !! b = if decide (b ∈ ixs) then None else p !! b) /\
  (forall b, c' !! b = if decide (b ∈ ixs) then p !! b else c !! b).
Proof.
  induction ixs as [|x ixs IH]; intros p c tot p' c' tot' Hrun; cbn [foreach] in Hrun.
  - apply Done_inv in Hrun as [= <- <- <-]. split_and!; [constructor | by intros ? ?%not_elem_of_nil | cbn; lia | done | |];
      intros; by rewrite decide_False by apply not_elem_of_nil.
  - apply bind_Done in Hrun as ([[p1 c1] tot1] & Hone & Hrun). unfold create_one in Hone.
    apply bind_Done in Hone as (r & Hr%expect_Done & Hone). apply bind_Done in Hone as (t1 & Ht%expect_Done & Hone).
    apply bind_Done in Hone as ([] & Hc%assert_Done%bool_decide_eq_true & [= <- <- <-]).
    apply checked_add_Some in Ht as [-> Hlt].
    apply IH in Hrun as (Hnd & Hin & -> & Hb & Hp' & Hc'). clear IH.
    assert (x ∉ ixs) as Hx.
    { intros Hx. apply Hin in Hx as [[? Hx] _]. by rewrite lookup_delete_eq in Hx. }
    split_and!.
    + by constructor.
    + intros b [->|Hb']%elem_of_cons; [by split|]. apply Hin in Hb' as [H1 H2].
      apply lookup_delete_is_Some in H1 as [_ ?]. by apply lookup_insert_None in H2 as [? _].
    + rewrite batch_amount_delete by done. unfold batch_amount. cbn. unfold request_amount at 2. rewrite Hr. cbn. lia.
    + intros _. by apply Hb.
    + intros b. rewrite Hp'. destruct (decide (b ∈ ixs)).
      * by rewrite decide_True by (by right).
      * destruct (decide (x = b)) as [<-|Hne].
        -- rewrite lookup_delete_eq. by rewrite decide_True by left.
        -- rewrite lookup_delete_ne by done. by rewrite decide_False by (by intros [->|]%elem_of_cons).
    + intros b. rewrite Hc'. destruct (decide (b ∈ ixs)) as [Hb'|Hb'].
      * rewrite decide_True by (by right). rewrite lookup_delete_ne; [done|]. by intros ->.
      * destruct (decide (x = b)) as [<-|Hne].
        -- rewrite lookup_insert_eq. by rewrite decide_True by left.
        -- rewrite lookup_insert_ne by done. by rewrite decide_False by (by intros [->|]%elem_of_cons).
Qed.

Lemma create_loop_succeeds ixs : forall p c tot,
  NoDup ixs -> (forall b, b ∈ ixs -> is_Some (p !! b) /\ c !! b = None) ->
  (forall b, b ∈ ixs -> 0 <= request_amount p b) -> tot + batch_amount p ixs < u64_modulus ->
  exists r, foreach create_one (p, c, tot) ixs = Done r.
Proof.
  induction ixs as [|x ixs IH]; intros p c tot Hnd Hin Hpos Htot; cbn [foreach]; [by eexists|].
  apply NoDup_cons in Hnd as [Hx Hnd]. destruct (Hin x (list_elem_of_here _ _)) as [[r Hr] Hc].
  assert (forall b, b ∈ ixs -> b <> x) as Hne by (by intros b Hb ->).
  assert (0 <= batch_amount p ixs) as Hrest.
  { apply zsum_nonneg, Forall_forall. intros a (b & -> & Hb)%list_elem_of_fmap. apply Hpos. by right. }
  assert (request_amount p x = wr_amount_to_transfer (pw_request r)) as Hamt by (unfold request_amount; by rewrite Hr).
  rewrite batch_amount_cons, Hamt in Htot.
  assert (create_one (p, c, tot) x = Done (delete x p, <[x := r]> c, tot + wr_amount_to_transfer (pw_request r))) as ->.
  { unfold create_one. rewrite Hr. cbn [expect mbind outcome_bind].
    assert (tot + wr_amount_to_transfer (pw_request r) < u64_modulus) as Hlt by lia.
    rewrite (proj2 (checked_add_Some tot _ _) (conj eq_refl Hlt)). cbn [expect mbind outcome_bind].
    by rewrite bool_decide_true. }
  cbn [mbind outcome_bind]. apply IH; [done| | |].
  - intros b Hb. rewrite lookup_delete_ne, lookup_insert_ne by (apply not_eq_sym; by apply Hne). apply Hin. by right.
  - intros b Hb. unfold request_amount. rewrite lookup_delete_ne by (apply not_eq_sym; by apply Hne). apply Hpos. by right.
  - rewrite batch_amount_delete by done. lia.
Qed.

Lemma process_created_Done s ixs a v s' :
  process_transaction_created s ixs a v = Done s' <->
  exists pool p c tot,
    np_bind (nonce_pool s) a v = Done pool /\
    foreach create_one (pending_withdrawal_requests s, created_withdrawal_requests s, 0) ixs = Done (p, c, tot) /\
    (tot +w BATCH_WITHDRAWAL_TX_FEE <= balance s) /\ created_withdrawal_txs s !! a = None /\
    s' = s <| nonce_pool := pool |> <| pending_withdrawal_requests := p |> <| created_withdrawal_requests := c |>
           <| balance := balance s - (tot +w BATCH_WITHDRAWAL_TX_FEE) |>
           <| created_withdrawal_txs ::= <[a := mkCreatedTx v ixs]> |>.
Proof.
  unfold process_transaction_created. split.
  - intros Hp. apply bind_Done in Hp as (pool & Hb & Hp). apply bind_Done in Hp as ([[p c] tot] & Hl & Hp).
    apply bind_Done in Hp as (bal & [-> Hle]%expect_Done%checked_sub_Some & Hp).
    apply bind_Done in Hp as ([] & Ha%assert_Done%bool_decide_eq_true & Hp). apply Done_inv in Hp. by exists pool, p, c, tot.
  - intros (pool & p & c & tot & Hb & Hl & Hle & Ha & ->). rewrite Hb. cbn [mbind outcome_bind]. rewrite Hl.
    cbn [mbind outcome_bind]. rewrite (proj2 (checked_sub_Some (balance s) _ _) (conj eq_refl Hle)).
    cbn [expect mbind outcome_bind]. rewrite bool_decide_true by done. reflexivity.
Qed.

Lemma send_loop sig ixs : forall c st c' st',
  foreach (send_one sig) (c, st) ixs = Done (c', st') ->
  NoDup ixs /\ (forall b, b ∈ ixs -> is_Some (c !! b) /\ st !! b = None) /\
  (forall b, c' !! b = if decide (b ∈ ixs) then None else c !! b) /\
  (forall b, st' !! b = if decide (b ∈ ixs)
     then (fun r => mkSentWithdrawal (pw_request r) sig (pw_created_at r)) <$> c !! b else st !! b).
Proof.
  induction ixs as [|x ixs IH]; intros c st c' st' Hrun; cbn [foreach] in Hrun.
  - apply Done_inv in Hrun as [= <- <-]. split_and!; [constructor | by intros ? ?%not_elem_of_nil | |];
      intros; by rewrite decide_False by apply not_elem_of_nil.
  - apply bind_Done in Hrun as ([c1 st1] & Hone & Hrun). unfold send_one in Hone.
    apply bind_Done in Hone as (r & Hr%expect_Done & Hone).
    apply bind_Done in Hone as ([] & Hs%assert_Done%bool_decide_eq_true & [= <- <-]).
    apply IH in Hrun as (Hnd & Hin & Hc' & Hs'). clear IH.
    assert (x ∉ ixs) as Hx.
    { intros Hx. apply Hin in Hx as [[? Hx] _]. by rewrite lookup_delete_eq in Hx. }
    split_and!.
    + by constructor.
    + intros b [->|Hb']%elem_of_cons; [by split|]. apply Hin in Hb' as [H1 H2].
      apply lookup_delete_is_Some in H1 as [_ ?]. by apply lookup_insert_None in H2 as [? _].
    + intros b. rewrite Hc'. destruct (decide (b ∈ ixs)).
      * by rewrite decide_True by (by right).
      * destruct (decide (x = b)) as [<-|Hne].
        -- rewrite lookup_delete_eq. by rewrite decide_True by left.
        -- rewrite lookup_delete_ne by done. by rewrite decide_False by (by intros [->|]%elem_of_cons).
    + intros b. rewrite Hs'. destruct (decide (b ∈ ixs)) as [Hb'|Hb'].
      * rewrite decide_True by (by right). rewrite lookup_delete_ne; [done|]. by intros ->.
      * destruct (decide (x = b)) as [<-|Hne].
        -- rewrite lookup_insert_eq. rewrite decide_True by left. by rewrite Hr.
        -- rewrite lookup_insert_ne by done. by rewrite decide_False by (by intros [->|]%elem_of_cons).
Qed.

Lemma send_loop_succeeds sig ixs : forall c st,
  NoDup ixs -> (forall b, b ∈ ixs -> is_Some (c !! b) /\ st !! b = None) ->
  exists r, foreach (send_one sig) (c, st) ixs = Done r.
Proof.
  induction ixs as [|x ixs IH]; intros c st Hnd Hin; cbn [foreach]; [by eexists|].
  apply NoDup_cons in Hnd as [Hx Hnd]. destruct (Hin x (list_elem_of_here _ _)) as [[r Hr] Hs].
  assert (send_one sig (c, st) x = Done (delete x c, <[x := mkSentWithdrawal (pw_request r) sig (pw_created_at r)]> st)) as ->.
  { unfold send_one. rewrite Hr. cbn [expect mbind outcome_bind]. by rewrite bool_decide_true. }
  cbn [mbind outcome_bind]. apply IH; [done|]. intros b Hb.
  assert (x <> b) by (by intros ->). rewrite lookup_delete_ne, lookup_insert_ne by done. apply Hin. by right.
Qed.

Section Submitted.
Context `{Platform}.

Lemma send_nonce_withdrawal_Done s sig m signers ixs t s' tx :
  send_nonce_withdrawal s sig m signers ixs t = Done (s', tx) <->
  exists a created bound c st,
    advanced_nonce_account m = Some a /\ created_withdrawal_txs s !! a = Some created /\
    ixs = ctx_burn_indices created /\ bound_withdrawal_message s a created = Done bound /\
    m = Legacy bound /\ signers = [SignerMinter] /\
    foreach (send_one sig) (created_withdrawal_requests s, sent_withdrawal_requests s)
      (ctx_burn_indices created) = Done (c, st) /\
    tx = TxWithdrawal m a (ctx_nonce_value created) t /\
    s' = s <| created_withdrawal_txs ::= delete a |> <| created_withdrawal_requests := c |>
           <| sent_withdrawal_requests := st |>.
Proof.
  unfold send_nonce_withdrawal. split.
  - intros Hp. apply bind_Done in Hp as (a & Ha%expect_Done & Hp). apply bind_Done in Hp as (cr & Hc%expect_Done & Hp).
    cbv zeta in Hp. apply bind_Done in Hp as ([] & H1%assert_Done%bool_decide_eq_true & Hp).
    apply bind_Done in Hp as (bound & H2 & Hp). apply bind_Done in Hp as ([] & H3%assert_Done%bool_decide_eq_true & Hp).
    apply bind_Done in Hp as ([] & H4%assert_Done%bool_decide_eq_true & Hp).
    apply bind_Done in Hp as ([c st] & H5 & Hp). apply Done_inv in Hp. injection Hp as Hs' Htx.
    exists a, cr, bound, c, st. split_and!; [exact Ha | exact Hc | exact H1 | exact H2 | exact H3 | exact H4 | exact H5 | |];
      by symmetry.
  - intros (a & cr & bound & c & st & Ha & Hc & H1 & H2 & H3 & H4 & H5 & -> & ->). rewrite Ha. cbn [expect mbind outcome_bind].
    rewrite Hc. cbn [expect mbind outcome_bind]. rewrite (bool_decide_true _ H1). cbn [assert_ mbind outcome_bind].
    change (bound_withdrawal_message (s <| created_withdrawal_txs ::= delete a |>) a cr) with (bound_withdrawal_message s a cr).
    rewrite H2. cbn [mbind outcome_bind]. rewrite (bool_decide_true _ H3), (bool_decide_true _ H4). cbn [assert_ mbind outcome_bind].
    read_upd. rewrite H5. reflexivity.
Qed.

Lemma insert_submitted_Done s sig tx s' :
  insert_submitted s sig tx = Done s' <->
  iom_get (submitted_transactions s) sig = None /\
  s' = s <| submitted_transactions := (iom_insert (submitted_transactions s) sig tx).1 |>.
Proof.
  unfold insert_submitted. rewrite <- (iom_insert_snd _ _ tx). destruct (iom_insert _ sig tx) as [m [o|]]; cbn [fst snd].
  - split; [done|]. by intros [? _].
  - rewrite Done_inj. split; [by intros <- | by intros [_ ->]].
Qed.

Lemma process_submitted_sweep_Done s sig m signers ids h t s' :
  process_transaction_submitted s sig (Legacy m) signers (PurposeSweepDeposit ids h) t = Done s' <->
  exists key d r,
    (sig ∉ succeeded_transactions s) /\ iom_get (failed_transactions s) sig = None /\
    iom_get (submitted_transactions s) sig = None /\ minter_public_key s = Some key /\
    sweep (deposits s) ids (minter_address key) (Legacy m) sig = Done (d, r) /\
    s' = s <| deposits := d |>
           <| submitted_transactions := (iom_insert (submitted_transactions s) sig (TxSweepDeposit h)).1 |>.
Proof.
  unfold process_transaction_submitted. split.
  - intros Hp. apply bind_Done in Hp as ([] & H1%assert_Done%not_succeeded_true & Hp).
    apply bind_Done in Hp as ([] & H2%assert_Done%contains_failed_false & Hp).
    apply bind_Done in Hp as ([s1 tx] & H3 & [H4 H5]%insert_submitted_Done).
    apply bind_Done in H3 as (key & Hk%expect_Done & H3). apply bind_Done in H3 as ([d r] & Hs & H3).
    apply Done_inv in H3. injection H3 as Hs1 Htx. subst s1 tx. by exists key, d, r.
  - intros (key & d & r & H1 & H2 & H3 & Hk & Hs & ->).
    rewrite (proj2 (not_succeeded_true s sig) H1), (proj2 (contains_failed_false s sig) H2). cbn [assert_ mbind outcome_bind].
    rewrite Hk. cbn [expect mbind outcome_bind]. rewrite Hs. cbn [mbind outcome_bind].
    by apply insert_submitted_Done.
Qed.

Lemma process_submitted_withdrawal_Done s sig m signers ixs t s' :
  process_transaction_submitted s sig m signers (PurposeWithdrawal ixs) t = Done s' <->
  exists s1 tx,
    (sig ∉ succeeded_transactions s) /\ iom_get (failed_transactions s) sig = None /\
    iom_get (submitted_transactions s) sig = None /\
    send_nonce_withdrawal s sig m signers ixs t = Done (s1, tx) /\
    s' = s1 <| submitted_transactions := (iom_insert (submitted_transactions s) sig tx).1 |>.
Proof.
  unfold process_transaction_submitted. split.
  - intros Hp. apply bind_Done in Hp as ([] & H1%assert_Done%not_succeeded_true & Hp).
    apply bind_Done in Hp as ([] & H2%assert_Done%contains_failed_false & Hp).
    apply bind_Done in Hp as ([s1 tx] & H3 & [H4 H5]%insert_submitted_Done).
    exists s1, tx. pose proof H3 as (a & cr & bound & c & st & _ & _ & _ & _ & _ & _ & _ & _ & Hs1)%send_nonce_withdrawal_Done.
    subst s1. by split_and!.
  - intros (s1 & tx & H1 & H2 & H3 & H4 & ->).
    rewrite (proj2 (not_succeeded_true s sig) H1), (proj2 (contains_failed_false s sig) H2). cbn [assert_ mbind outcome_bind].
    rewrite H4. cbn [mbind outcome_bind]. apply insert_submitted_Done.
    pose proof H4 as (a & cr & bound & c & st & _ & _ & _ & _ & _ & _ & _ & _ & Hs1)%send_nonce_withdrawal_Done. by subst s1.
Qed.
End Submitted.

Lemma process_credited_Done s sig received ms t s' :
  process_credited_sweep s sig received ms t = Done s' <->
  exists d sweep, credit_sweep (deposits s) sig ms t = Done (d, sweep) /\
    wsum (map cd_amount_to_mint ms) + deposit_fees sweep < u64_modulus /\
    wsum (map cd_amount_to_mint ms) + deposit_fees sweep <= received /\
    s' = s <| deposits := d |>
           <| collected_automatic_deposit_fees := collected_automatic_deposit_fees s +w deposit_fees sweep |>
           <| balance := balance s +w received |>.
Proof.
  unfold process_credited_sweep. split.
  - intros Hp. apply bind_Done in Hp as ([d sw] & Hc & Hp). apply bind_Done in Hp as ([] & Ha%assert_Done & Hp).
    apply Done_inv in Hp. exists d, sw. destruct (checked_add _ _) as [tot|] eqn:Ht; [|done].
    apply checked_add_Some in Ht as [-> Hlt]. apply Z.leb_le in Ha. split_and!; [done | done | done | by symmetry].
  - intros (d & sw & Hc & Hlt & Hle & ->). rewrite Hc. cbn [mbind outcome_bind].
    rewrite (proj2 (checked_add_Some _ (deposit_fees sw) _) (conj eq_refl Hlt)), (proj2 (Z.leb_le _ _) Hle). reflexivity.
Qed.

Lemma process_accepted_Done s r t s' :
  process_accepted_withdrawal s r t = Done s' <->
  pending_withdrawal_requests s !! wr_burn_block_index r = None /\
  s' = s <| pending_withdrawal_requests ::= <[wr_burn_block_index r := mkPendingWithdrawal r t]> |>.
Proof.
  unfold process_accepted_withdrawal, assert_. case_bool_decide as Hb; cbn [mbind outcome_bind].
  - rewrite Done_inj. split; [by intros <- | by intros [_ ->]].
  - split; [done|]. by intros [? _].
Qed.

Lemma cache_key_Done s key s' :
  cache_minter_public_key s key = Done s' <->
  (minter_public_key s = None /\ s' = s <| minter_public_key := Some key |>) \/
  (minter_public_key s = Some key /\ s' = s).
Proof.
  unfold cache_minter_public_key. destruct (minter_public_key s) as [k|]; [case_bool_decide|]; rewrite ?Done_inj; naive_solver.
Qed.

Lemma deposit_update_Done s (m : outcome Deposits) s' :
  (d ← m; Done (s <| deposits := d |>)) = Done s' <-> exists d, m = Done d /\ s' = s <| deposits := d |>.
Proof. rewrite bind_Done. setoid_rewrite Done_inj. naive_solver. Qed.

(** ** Upgrades *)
Definition set_params (s : State) (args : UpgradeArgs) : State :=
  let s := s <| sol_rpc_canister_id := default (sol_rpc_canister_id s) (ua_sol_rpc_canister_id args) |> in
  let s := s <| withdrawal_fee := default (withdrawal_fee s) (ua_withdrawal_fee args) |> in
  let s := s <| minimum_withdrawal_amount := default (minimum_withdrawal_amount s) (ua_minimum_withdrawal_amount args) |> in
  let s := s <| minimum_deposit_amount := default (minimum_deposit_amount s) (ua_minimum_deposit_amount args) |> in
  let s := s <| deposit_sol_required_cycles := default (deposit_sol_required_cycles s) (ua_deposit_sol_required_cycles args) |> in
  let s := s <| deposit_sol_fee := default (deposit_sol_fee s) (ua_deposit_sol_fee args) |> in
  s <| automatic_deposit_fee :=
         match ua_automatic_deposit_fee args with Some v => Some v | None => automatic_deposit_fee s end |>.

Lemma if_upd {R T} (f : R -> T) (i : FieldUpd f) (r : R) (o : option T) :
  field_upd f (fun _ => f r) r = r ->
  match o with Some v => r <| f := v |> | None => r end = r <| f := default (f r) o |>.
Proof. intros Heta. destruct o; [done|]. exact (eq_sym Heta). Qed.

Lemma if_upd_opt {R T} (f : R -> option T) (i : FieldUpd f) (r : R) (o : option T) :
  field_upd f (fun _ => f r) r = r ->
  match o with Some v => r <| f := Some v |> | None => r end =
  r <| f := match o with Some v => Some v | None => f r end |>.
Proof. intros Heta. destruct o; [done|]. exact (eq_sym Heta). Qed.

Section Upgrade.
Context `{Platform}.

Definition adds_accounts (s : State) (o : option (list string)) (pool : DurableNoncePool) : Prop :=
  match o with
  | None => pool = nonce_pool s
  | Some strs => exists addresses, parse_nonce_accounts strs = Ok addresses /\
      ensure_no_incomplete_withdrawal_to s addresses = Ok tt /\
      np_add_accounts (nonce_pool s) addresses = Ok pool
  end.

Lemma upgrade_Ok s args s' :
  upgrade s args = Ok s' <->
  exists pool, adds_accounts s (ua_nonce_accounts_to_add args) pool /\
    s' = (set_params s args) <| nonce_pool := pool |> /\ validate s' = Ok tt.
Proof.
  unfold upgrade. cbv zeta.
  rewrite (if_upd sol_rpc_canister_id _ s) by (generalize s; by intros []).
  set (s1 := s <| sol_rpc_canister_id := _ |>).
  rewrite (if_upd withdrawal_fee _ s1) by (generalize s1; by intros []). set (s2 := s1 <| withdrawal_fee := _ |>).
  rewrite (if_upd minimum_withdrawal_amount _ s2) by (generalize s2; by intros []).
  set (s3 := s2 <| minimum_withdrawal_amount := _ |>).
  rewrite (if_upd minimum_deposit_amount _ s3) by (generalize s3; by intros []).
  set (s4 := s3 <| minimum_deposit_amount := _ |>).
  rewrite (if_upd deposit_sol_required_cycles _ s4) by (generalize s4; by intros []).
  set (s5 := s4 <| deposit_sol_required_cycles := _ |>).
  rewrite (if_upd deposit_sol_fee _ s5) by (generalize s5; by intros []). set (s6 := s5 <| deposit_sol_fee := _ |>).
  rewrite (if_upd_opt automatic_deposit_fee _ s6) by (generalize s6; by intros []).
  assert (s6 <| automatic_deposit_fee := match ua_automatic_deposit_fee args with
    | Some v => Some v | None => automatic_deposit_fee s6 end |> = set_params s args) as -> by reflexivity.
  assert (forall st, result_bind (validate st) (fun _ => Ok st) = Ok s' <-> s' = st /\ validate st = Ok tt) as Hv.
  { intros st. destruct (validate st) as [[]|]; cbn; naive_solver. }
  unfold adds_accounts.
  destruct (ua_nonce_accounts_to_add args) as [strs|]; cbn [result_bind].
  - destruct (parse_nonce_accounts strs) as [addresses|] eqn:Hparse; cbn [result_bind].
    2:{ split; [discriminate|]. intros (pool & (l & ? & ? & ?) & _). discriminate. }
    change (ensure_no_incomplete_withdrawal_to (set_params s args) addresses)
      with (ensure_no_incomplete_withdrawal_to s addresses).
    destruct (ensure_no_incomplete_withdrawal_to s addresses) as [[]|] eqn:Hens; cbn [result_bind].
    2:{ split; [discriminate|]. intros (pool & (l & Hl & ? & ?) & _). injection Hl as <-. congruence. }
    change (nonce_pool (set_params s args)) with (nonce_pool s).
    destruct (np_add_accounts (nonce_pool s) addresses) as [pool|] eqn:Hadd; cbn [map_err result_bind].
    2:{ split; [discriminate|]. intros (pool & (l & Hl & ? & ?) & _). injection Hl as <-. congruence. }
    rewrite Hv. split.
    + intros [-> Hval]. exists pool. split; [by exists addresses | done].
    + intros (pool' & (l & Hl & _ & Hp) & -> & Hval). injection Hl as <-. rewrite Hadd in Hp. by injection Hp as <-.
  - rewrite Hv. assert (set_params s args = (set_params s args) <| nonce_pool := nonce_pool s |>) as Heta
      by (change (nonce_pool s) with (nonce_pool (set_params s args)); generalize (set_params s args); by intros []).
    split.
    + intros [-> Hval]. exists (nonce_pool s). split; [done|]. split; [exact Heta | exact Hval].
    + intros (pool & -> & -> & Hval). rewrite <- Heta in *. done.
Qed.
End Upgrade.
