(* ===== verification/Replay.v ===== *)
(** minter/src/state/audit.rs, the event log of minter/src/storage and
    minter/src/lifecycle.rs: how an event changes the state, how the state is
    rebuilt from the log, and init and upgrade. *)
From S2P Require Import Prelude Platform ConcretePlatform InsertionOrderedMap TimedSizedMap Watchlist NoncePool Events Sweeps Deposits SolTransfer MinterState.

Section Audit.
Context `{Platform}.

Definition apply_state_transition (s : State) (payload : EventType) (timestamp : Timestamp) : outcome State :=
  match payload with
  | Init _ => Panic "BUG: state re-initialization is not allowed"
  | Upgrade args =>
      match upgrade s args with
      | Ok s => Done s
      | Err _ => Panic "applying upgrade event should succeed"
      end
  | AcceptedWithdrawalRequest request => process_accepted_withdrawal s request timestamp
  | SubmittedTransaction signature message signers purpose =>
      process_transaction_submitted s signature message signers purpose timestamp
  | SucceededTransaction signature => process_transaction_succeeded s signature
  | FailedTransaction signature => process_transaction_failed s signature
  | ExpiredTransaction signature => process_transaction_expired s signature
  | QueuedDepositEvent deposit_id account address balance deposit_fee =>
      process_queued_deposit s deposit_id (mkQueuedDeposit account address balance deposit_fee) timestamp
  | CreditedSweep signature amount_received mints =>
      process_credited_sweep s signature amount_received mints timestamp
  | QuarantinedSweep signature => process_quarantined_sweep s signature
  | MinterPublicKeyFetched public_key chain_code =>
      cache_minter_public_key s (mkSchnorrPublicKey public_key chain_code)
  | MintedSweptDeposit deposit_id mint_block_index =>
      process_minted_swept_deposit s deposit_id mint_block_index
  | QuarantinedPendingMint deposit_id => process_quarantined_pending_mint s deposit_id
  | CreatedWithdrawalTransactionEvent burn_indices nonce_account nonce_value =>
      process_transaction_created s burn_indices nonce_account nonce_value
  end.

(** [storage::record_event] *)
Definition record_event (log : list Event) (payload : EventType) (now : Timestamp) : list Event :=
  log ++ [mkEvent now payload].

Definition process_event (s : State) (log : list Event) (payload : EventType) (now : Timestamp)
    : outcome (State * list Event) :=
  s ← apply_state_transition s payload now;
  Done (s, record_event log payload now).

Definition replay_events (events : list Event) : outcome State :=
  match events with
  | [] => Panic "the event log should not be empty"
  | first :: rest =>
      s ← match ev_payload first with
          | Init args =>
              match state_try_from args with
              | Ok s => Done s
              | Err _ => Panic "BUG: state initialization should succeed"
              end
          | _ => Panic "ERROR: the first event must be an Init event"
          end;
      foreach (fun s event => apply_state_transition s (ev_payload event) (ev_timestamp event)) s rest
  end.

(** [lifecycle::init] *)
Definition init (args : InitArgs) (now : Timestamp) : outcome (State * list Event) :=
  match state_try_from args with
  | Ok s => Done (s, record_event [] (Init args) now)
  | Err _ => Panic "ERROR: invalid init args"
  end.

(** [lifecycle::post_upgrade] *)
Definition post_upgrade (log : list Event) (args : option UpgradeArgs) (now : Timestamp)
    : outcome (State * list Event) :=
  s ← replay_events log;
  match args with
  | Some args => process_event s log (Upgrade args) now
  | None => Done (s, log)
  end.
End Audit.

(** ** Transient state

    The watchlist, the request guards and the active tasks are changed
    without an event. *)
Definition erase_deposits (d : Deposits) : Deposits := d <| watchlist := watchlist_default |>.
Definition erase (s : State) : State :=
  s <| pending_deposit_sol_request_guards := ∅ |> <| pending_withdrawal_request_guards := ∅ |>
    <| active_tasks := ∅ |> <| deposits ::= erase_deposits |>.

(** Executions of the minter: events are processed, transient state changes
    at any time (the watchlist by its own operations, which keep it
    well-formed), and the canister is upgraded. *)
Inductive minter_step `{Platform} : State * list Event -> State * list Event -> Prop :=
  | step_event s log payload now s' log' :
      process_event s log payload now = Done (s', log') -> minter_step (s, log) (s', log')
  | step_transient s log s' :
      erase s' = erase s -> wl_wf (watchlist (deposits s')) -> minter_step (s, log) (s', log)
  | step_upgrade s log args now s' log' :
      post_upgrade log args now = Done (s', log') -> minter_step (s, log) (s', log').

Inductive minter_run `{Platform} : State * list Event -> Prop :=
  | run_init args now c : init args now = Done c -> minter_run c
  | run_step c c' : minter_run c -> minter_step c c' -> minter_run c'.

(** ** Lemmas *)
Lemma wl_remove_default acc : wl_remove watchlist_default acc = Done watchlist_default.
Proof. reflexivity. Qed.

Lemma erase_idem s : erase (erase s) = erase s.
Proof. done. Qed.

(** The operations of the deposits commute with erasing the watchlist. *)
Lemma queue_erase d i dep t d' :
  queue d i dep t = Done d' -> queue (erase_deposits d) i dep t = Done (erase_deposits d').
Proof.
  intros (-> & Hfl & w & Hw & ->)%queue_Done. apply queue_Done. split_and!; [done..|].
  exists watchlist_default. split; [apply wl_remove_default | done].
Qed.

Lemma sweep_erase `{Platform} d ids addr m sig d' r :
  sweep d ids addr (Legacy m) sig = Done (d', r) ->
  sweep (erase_deposits d) ids addr (Legacy m) sig = Done (erase_deposits d', r).
Proof.
  intros (Hne & q & l & s & Hq & Hp & Hm & Hi & Hsig & -> & ->)%sweep_Done. apply sweep_Done.
  split; [done|]. by exists q, l, s.
Qed.

Lemma drop_erase d sig d' :
  drop_swept d sig = Done d' -> drop_swept (erase_deposits d) sig = Done (erase_deposits d').
Proof. intros (s & Hs & Hfl & ->)%drop_swept_Done. apply drop_swept_Done. by exists s. Qed.

Lemma finalize_erase d sig d' :
  finalize_swept d sig = Done d' -> finalize_swept (erase_deposits d) sig = Done (erase_deposits d').
Proof. intros (s & Hs & Hi & Hsig & ->)%finalize_swept_Done. apply finalize_swept_Done. by exists s. Qed.

Lemma quarantine_sweep_erase d sig d' :
  quarantine_sweep d sig = Done d' -> quarantine_sweep (erase_deposits d) sig = Done (erase_deposits d').
Proof. intros (s & Hs & ->)%quarantine_sweep_Done. apply quarantine_sweep_Done. by exists s. Qed.

Lemma credit_erase d sig ms t d' s :
  credit_sweep d sig ms t = Done (d', s) ->
  credit_sweep (erase_deposits d) sig ms t = Done (erase_deposits d', s).
Proof.
  intros (Hs & Hlen & p & Hp & ->)%credit_sweep_Done. apply credit_sweep_Done. split_and!; [done..|]. by exists p.
Qed.

Lemma mint_erase d i ix d' : mint d i ix = Done d' -> mint (erase_deposits d) i ix = Done (erase_deposits d').
Proof. intros (p & Hp & Hfl & ->)%mint_Done. apply mint_Done. by exists p. Qed.

Lemma quarantine_pending_mint_erase d i d' :
  quarantine_pending_mint d i = Done d' -> quarantine_pending_mint (erase_deposits d) i = Done (erase_deposits d').
Proof. intros (p & Hp & ->)%quarantine_pending_mint_Done. apply quarantine_pending_mint_Done. by exists p. Qed.

(** Every transition commutes with erasing the transient state. *)
Lemma process_submitted_erase `{Platform} s sig m signers purpose t s' :
  process_transaction_submitted s sig m signers purpose t = Done s' ->
  process_transaction_submitted (erase s) sig m signers purpose t = Done (erase s').
Proof.
  destruct purpose as [ids h|ixs]; destruct m as [m].
  - intros (key & d & r & H1 & H2 & H3 & Hk & Hs & ->)%process_submitted_sweep_Done.
    apply process_submitted_sweep_Done. exists key, (erase_deposits d), r.
    split_and!; [exact H1 | exact H2 | exact H3 | exact Hk | exact (sweep_erase _ _ _ _ _ _ _ Hs) | reflexivity].
  - intros (s1 & tx & H1 & H2 & H3 & Hs & ->)%process_submitted_withdrawal_Done.
    apply send_nonce_withdrawal_Done in Hs as (a & cr & bound & c & st & Ha & Hc & H4 & H5 & H6 & H7 & H8 & -> & ->).
    apply process_submitted_withdrawal_Done.
    exists (erase (s <| created_withdrawal_txs ::= delete a |> <| created_withdrawal_requests := c |>
                     <| sent_withdrawal_requests := st |>)), (TxWithdrawal (Legacy m) a (ctx_nonce_value cr) t).
    split_and!; [exact H1 | exact H2 | exact H3 | apply send_nonce_withdrawal_Done | reflexivity].
    exists a, cr, bound, c, st. split_and!; [exact Ha | exact Hc | exact H4 | exact H5 | exact H6 | exact H7 | exact H8 | reflexivity | reflexivity].
Qed.

Lemma process_succeeded_erase s sig s' :
  process_transaction_succeeded s sig = Done s' -> process_transaction_succeeded (erase s) sig = Done (erase s').
Proof.
  intros (tx & d & pool & H1 & H2 & H3 & H4 & ->)%process_succeeded_Done. apply process_succeeded_Done.
  exists tx, (erase_deposits d), pool. split_and!; [exact H1 | exact H2 | exact H3 | | reflexivity].
  destruct tx; destruct H4 as [H4 ->]; split; try reflexivity; [exact (finalize_erase _ _ _ H4) | exact H4].
Qed.

Lemma process_failed_erase s sig s' :
  process_transaction_failed s sig = Done s' -> process_transaction_failed (erase s) sig = Done (erase s').
Proof.
  intros (tx & d & pool & H1 & H2 & H3 & H4 & ->)%process_failed_Done. apply process_failed_Done.
  exists tx, (erase_deposits d), pool. split_and!; [exact H1 | exact H2 | exact H3 | | reflexivity].
  destruct tx; destruct H4 as [H4 ->]; split; try reflexivity; [exact (drop_erase _ _ _ H4) | exact H4].
Qed.

Lemma process_expired_erase s sig s' :
  process_transaction_expired s sig = Done s' -> process_transaction_expired (erase s) sig = Done (erase s').
Proof.
  intros (h & d & H1 & H2 & H3 & H4 & ->)%process_expired_Done. apply process_expired_Done.
  exists h, (erase_deposits d). split_and!; [exact H1 | exact H2 | exact H3 | exact (drop_erase _ _ _ H4) | reflexivity].
Qed.

Lemma process_created_erase s ixs a v s' :
  process_transaction_created s ixs a v = Done s' -> process_transaction_created (erase s) ixs a v = Done (erase s').
Proof.
  intros (pool & p & c & tot & H1 & H2 & H3 & H4 & ->)%process_created_Done. apply process_created_Done.
  exists pool, p, c, tot. split_and!; [exact H1 | exact H2 | exact H3 | exact H4 | reflexivity].
Qed.

Lemma process_credited_erase s sig r ms t s' :
  process_credited_sweep s sig r ms t = Done s' -> process_credited_sweep (erase s) sig r ms t = Done (erase s').
Proof.
  intros (d & sw & H1 & H2 & H3 & ->)%process_credited_Done. apply process_credited_Done.
  exists (erase_deposits d), sw. split_and!; [exact (credit_erase _ _ _ _ _ _ H1) | exact H2 | exact H3 | reflexivity].
Qed.

Lemma validate_erase `{Platform} s : validate (erase s) = validate s.
Proof. reflexivity. Qed.

Lemma upgrade_erase `{Platform} s args s' :
  upgrade s args = Ok s' -> upgrade (erase s) args = Ok (erase s').
Proof.
  intros (pool & H1 & -> & H2)%upgrade_Ok. apply upgrade_Ok. exists pool.
  split_and!; [exact H1 | reflexivity | by rewrite validate_erase].
Qed.

Lemma apply_erase `{Platform} s ev t s' :
  apply_state_transition s ev t = Done s' -> apply_state_transition (erase s) ev t = Done (erase s').
Proof.
  destruct ev; cbn [apply_state_transition].
  - done.
  - destruct (upgrade s args) as [s1|] eqn:Hu; [|done]. intros [= <-]. by rewrite (upgrade_erase _ _ _ Hu).
  - intros [H1 ->]%process_accepted_Done. apply process_accepted_Done. split; [exact H1 | reflexivity].
  - apply process_submitted_erase.
  - apply process_succeeded_erase.
  - apply process_failed_erase.
  - apply process_expired_erase.
  - intros (d & Hd & ->)%deposit_update_Done. apply deposit_update_Done. eexists. split; [exact (queue_erase _ _ _ _ _ Hd) | reflexivity].
  - apply process_credited_erase.
  - intros (d & Hd & ->)%deposit_update_Done. apply deposit_update_Done. eexists. split; [exact (quarantine_sweep_erase _ _ _ Hd) | reflexivity].
  - intros [[Hk ->]|[Hk ->]]%cache_key_Done; apply cache_key_Done; [left | right]; (split; [exact Hk | reflexivity]).
  - intros (d & Hd & ->)%deposit_update_Done. apply deposit_update_Done. eexists. split; [exact (mint_erase _ _ _ _ Hd) | reflexivity].
  - intros (d & Hd & ->)%deposit_update_Done. apply deposit_update_Done. eexists. split; [exact (quarantine_pending_mint_erase _ _ _ Hd) | reflexivity].
  - apply process_created_erase.
Qed.

Lemma replay_snoc `{Platform} log s ev s' :
  replay_events log = Done s -> apply_state_transition s (ev_payload ev) (ev_timestamp ev) = Done s' ->
  replay_events (log ++ [ev]) = Done s'.
Proof.
  intros Hr Hev. destruct log as [|first rest]; [done|]. cbn in *.
  apply bind_Done in Hr as (s0 & H0 & Hr). rewrite H0. cbn [mbind outcome_bind]. rewrite foreach_app, Hr. cbn.
  by rewrite Hev.
Qed.

Lemma state_try_from_erase `{Platform} args s : state_try_from args = Ok s -> erase s = s.
Proof.
  unfold state_try_from. destruct (parse_nonce_accounts _); cbn [result_bind]; [|done].
  destruct (np_new _); cbn [map_err result_bind]; [|done].
  match goal with |- context [validate ?s0] => destruct (validate s0) end; cbn [result_bind]; [|done].
  by intros [= <-].
Qed.

(** The invariant of executions: the log rebuilds the recorded state. *)
Lemma minter_run_replay `{Platform} c : minter_run c -> replay_events c.2 = Done (erase c.1).
Proof.
  induction 1 as [args now c Hinit | c c' Hrun IH Hstep].
  - unfold init in Hinit. destruct (state_try_from args) as [s|] eqn:Hs; [|done]. apply Done_inv in Hinit. subst c. cbn.
    rewrite Hs. cbn. by rewrite (state_try_from_erase _ _ Hs).
  - destruct Hstep as [s log ev now s' log' Hev | s log s' He Hwf | s log args now s' log' Hup]; cbn [fst snd] in *.
    + apply bind_Done in Hev as (s1 & Hs1 & Hlog). apply Done_inv in Hlog. injection Hlog as <- <-.
      eapply replay_snoc; [exact IH|]. cbn. by apply apply_erase.
    + by rewrite He.
    + unfold post_upgrade in Hup. rewrite IH in Hup. cbn [mbind outcome_bind] in Hup. destruct args as [args|].
      * apply bind_Done in Hup as (s1 & Hs1 & Hlog). apply Done_inv in Hlog. injection Hlog as <- <-.
        eapply replay_snoc; [exact IH|]. cbn [ev_payload ev_timestamp]. apply apply_erase in Hs1. exact Hs1.
      * apply Done_inv in Hup. injection Hup as <- <-. exact IH.
Qed.

(** ** Properties *)

(** A minter with two nonce accounts, and the events of a withdrawal and of a
    sweep, used as concrete instances. *)
Definition example_key : SchnorrPublicKey := mkSchnorrPublicKey 5 [].
Definition example_init : InitArgs :=
  mkInitArgs [7] [8] MainnetProdKey1 900000 2000000 9000 20000000000 Mainnet 0 ["n1"; "n2"] (Some 10000).
Definition nonce1 : Address := match address_from_str "n1" with Ok a => a | Err _ => 0 end.

Definition sweep_of (l : list (DepositSolId * QueuedDeposit)) (addr : Address) : Sweep :=
  match plan l addr with Done s => s | Panic _ => mkSweep ∅ 0 0 0 [] 0 end.
Definition mints_of (s : Sweep) : list CreditedDeposit :=
  match mints s with Ok ms => ms | Err _ => [] end.
Definition example_plan : Sweep := sweep_of example_deposits (minter_address example_key).
Definition example_request (b : LedgerBurnIndex) (amount : Lamport) : WithdrawalRequest :=
  mkWithdrawalRequest (mkAccount [1] []) 777 b (amount + 9000) amount.
Definition example_withdrawal_message : Message :=
  new_with_blockhash (batch_withdrawal_instructions (minter_address example_key) nonce1
    [(777, 1000000); (777, 2000000)]) (Some (minter_address example_key)) 321.

Definition queued_event (entry : DepositSolId * QueuedDeposit) : EventType :=
  QueuedDepositEvent entry.1 (qd_account entry.2) (qd_address entry.2) (qd_balance entry.2) (qd_deposit_fee entry.2).

Definition example_events : list EventType :=
  [MinterPublicKeyFetched 5 []] ++ map queued_event example_deposits ++
  [SubmittedTransaction 900 (Legacy (sweep_message example_plan 77)) [] (PurposeSweepDeposit [0; 1; 2] 1000);
   SucceededTransaction 900;
   CreditedSweep 900 (sw_expected_received example_plan) (mints_of example_plan);
   MintedSweptDeposit 0 3;
   AcceptedWithdrawalRequest (example_request 10 1000000);
   AcceptedWithdrawalRequest (example_request 11 2000000);
   CreatedWithdrawalTransactionEvent [10; 11] nonce1 321;
   SubmittedTransaction 901 (Legacy example_withdrawal_message) [SignerMinter] (PurposeWithdrawal [10; 11]);
   SucceededTransaction 901].

Definition example_log : list Event :=
  mkEvent 1 (Init example_init) :: map (mkEvent 2) example_events.
Definition example_state : State :=
  match replay_events example_log with
  | Done s => s
  | Panic _ => mkState None MainnetProdKey1 [] [] Mainnet 0 0 0 0 0 None 0 ∅ ∅ deposits_default ∅ ∅ ∅ ∅ ∅ iom_new ∅ ∅ iom_new (mkNoncePool ∅) ∅ 0
  end.


(** Every log that replays is the log of an execution. *)
Lemma replay_run `{Platform} log s : replay_events log = Done s -> minter_run (s, log).
Proof.
  destruct log as [|[t0 ev0] rest]; [done|]. intros Hr. cbn in Hr. apply bind_Done in Hr as (s0 & H0 & Hr).
  destruct ev0; try done. destruct (state_try_from args) as [s1|] eqn:Hs; [|done]. apply Done_inv in H0. subst s1.
  assert (minter_run (s0, [mkEvent t0 (Init args)])) as Hrun.
  { apply (run_init args t0). unfold init. by rewrite Hs. }
  change (mkEvent t0 (Init args) :: rest) with ([mkEvent t0 (Init args)] ++ rest).
  revert Hrun Hr. generalize [mkEvent t0 (Init args)]. intros log Hrun Hr. clear Hs. revert s0 log Hrun Hr.
  induction rest as [|[t ev] rest IH]; intros s0 log Hrun Hr; cbn [foreach] in Hr.
  - apply Done_inv in Hr. subst. by rewrite app_nil_r.
  - apply bind_Done in Hr as (s1 & Hs1 & Hr). change (mkEvent t ev :: rest) with ([mkEvent t ev] ++ rest). rewrite app_assoc.
    apply (IH s1); [|done]. eapply run_step; [exact Hrun|]. apply (step_event s0 log ev t). unfold process_event. cbn in Hs1. by rewrite Hs1.
Qed.

(** The example execution up to its [n]-th event. *)
Definition example_take (n : nat) : list Event := take n example_log.
Definition example_state_at (n : nat) : State :=
  match replay_events (example_take n) with Done s => s | Panic _ => example_state end.

Lemma example_run : minter_run (example_state, example_log).
Proof. apply replay_run. vm_compute. reflexivity. Qed.

(** C12: at every point of an execution of the minter, whatever events it
    processed, however its transient state changed and however often it was
    upgraded, replaying the event log succeeds and rebuilds the current state
    up to the transient data (watchlist, request guards, active tasks); so an
    upgrade without arguments never traps and resumes from that state. *)
Theorem replay_recovers_state `{!Platform} s log now :
  minter_run (s, log) ->
  replay_events log = Done (erase s) /\ post_upgrade log None now = Done (erase s, log).
Proof.
  intros Hr%minter_run_replay. cbn [fst snd] in Hr. split; [done|]. unfold post_upgrade. by rewrite Hr.
Qed.

Lemma replay_recovers_state_witness :
  replay_events example_log = Done (erase example_state) /\ balance example_state = 14307360.
Proof.
  split; [|vm_compute; reflexivity].
  refine (proj1 (replay_recovers_state example_state example_log 5 _)). exact example_run.
Defined.

(** The watchlist does not survive an upgrade: after any upgrade of a
    running minter no address is watched, whatever was registered before. *)
Theorem upgrade_clears_watchlist `{!Platform} s log args now s' log' :
  minter_run (s, log) -> post_upgrade log args now = Done (s', log') ->
  watchlist (deposits s') = watchlist_default.
Proof.
  intros Hr%minter_run_replay Hup. cbn [fst snd] in Hr. unfold post_upgrade in Hup. rewrite Hr in Hup.
  cbn [mbind outcome_bind] in Hup. destruct args as [args|].
  - apply bind_Done in Hup as (s1 & Hs1 & Hlog). apply Done_inv in Hlog. injection Hlog as <- <-.
    cbn [apply_state_transition] in Hs1. destruct (upgrade (erase s) args) as [s2|] eqn:Hu; [|done].
    apply Done_inv in Hs1. subst s2. apply upgrade_Ok in Hu as (pool & _ & -> & _). reflexivity.
  - apply Done_inv in Hup. injection Hup as <- <-. reflexivity.
Qed.

Definition set_watchlist (s : State) (w : Watchlist) : State :=
  s <| deposits := (deposits s) <| watchlist := w |> |>.
Lemma set_watchlist_spec s w :
  watchlist (deposits (set_watchlist s w)) = w /\ erase (set_watchlist s w) = erase s.
Proof. split; reflexivity. Qed.

Definition registered_watchlist : Watchlist :=
  match wl_register watchlist_default 50 (mkAccount [9] []) 888 with Done (w, _) => w | Panic _ => watchlist_default end.
Definition registered_state : State :=
  set_watchlist example_state registered_watchlist.

Lemma registered_watchlist_wf : wl_wf registered_watchlist.
Proof.
  destruct (wl_register_spec watchlist_default 50 (mkAccount [9] []) 888 watchlist_default_wf
    ltac:(unfold is_u64, u64_modulus; lia)) as (w & r & Hw & Hwf & _).
  unfold registered_watchlist. by rewrite Hw.
Qed.

Lemma upgrade_clears_watchlist_witness :
  wl_len (watchlist (deposits registered_state)) = 1%nat /\
  exists s', post_upgrade example_log None 60 = Done (s', example_log) /\
    watchlist (deposits s') = watchlist_default.
Proof.
  split; [vm_compute; reflexivity|]. exists (erase example_state).
  assert (post_upgrade example_log None 60 = Done (erase example_state, example_log)) as Hup
    by (vm_compute; reflexivity).
  split; [exact Hup|].
  apply (upgrade_clears_watchlist registered_state example_log None 60 (erase example_state) example_log); [|exact Hup].
  apply (run_step (example_state, example_log)); [exact example_run|]. apply step_transient; [apply (proj2 (set_watchlist_spec _ _))|].
  unfold registered_state. rewrite (proj1 (set_watchlist_spec example_state registered_watchlist)). exact registered_watchlist_wf.
Defined.
