(* ===== verification/Invariants.v ===== *)
(** The invariants of the minter state, preserved by every event, and what
    they give: recorded transactions can always be finalized without a panic,
    nonce accounts are bound to one transaction at a time, every accepted
    withdrawal is in exactly one bucket, and the balance accounts for every
    lamport received and sent. *)
From S2P Require Import Prelude Platform ConcretePlatform InsertionOrderedMap TimedSizedMap Watchlist NoncePool Events Sweeps Deposits SolTransfer MinterState Replay.

Abbreviation Submitted := (InsertionOrderedMap Signature MinterTransaction) (only parsing).
Abbreviation Created := (gmap Address CreatedWithdrawalTransaction) (only parsing).

(** ** The transaction registry *)
Record txs_inv (sub : Submitted) (succ : gset Signature) (fail : Submitted) : Prop := {
  tx_fresh : forall sig, is_Some (iom_get sub sig) -> (sig ∉ succ) /\ iom_get fail sig = None;
  tx_excl : forall sig, sig ∈ succ -> iom_get fail sig = None
}.

Lemma txs_insert sub succ fail sig tx :
  txs_inv sub succ fail -> sig ∉ succ -> iom_get fail sig = None -> txs_inv (iom_insert sub sig tx).1 succ fail.
Proof.
  intros [Hf He] Hs Hfail. split; [|done]. intros sig'. rewrite iom_insert_get. case_decide; [by subst | apply Hf].
Qed.

Lemma txs_remove sub succ fail sig : txs_inv sub succ fail -> txs_inv (iom_remove sub sig).1 succ fail.
Proof.
  intros [Hf He]. split; [|done]. intros sig'. rewrite iom_remove_get. case_decide; [by intros [] | apply Hf].
Qed.

Lemma txs_succeed sub succ fail sig tx :
  txs_inv sub succ fail -> iom_get sub sig = Some tx -> txs_inv (iom_remove sub sig).1 ({[sig]} ∪ succ) fail.
Proof.
  intros [Hf He] Hsig. destruct (Hf sig (mk_is_Some _ _ Hsig)) as [Hns Hnf]. split.
  - intros sig'. rewrite iom_remove_get. case_decide as Hd; [by intros []|]. intros Hs%Hf. set_solver.
  - intros sig' [->%elem_of_singleton|Hin]%elem_of_union; auto.
Qed.

Lemma txs_fail sub succ fail sig tx :
  txs_inv sub succ fail -> iom_get sub sig = Some tx ->
  txs_inv (iom_remove sub sig).1 succ (iom_insert fail sig tx).1.
Proof.
  intros [Hf He] Hsig. destruct (Hf sig (mk_is_Some _ _ Hsig)) as [Hns Hnf]. split.
  - intros sig'. rewrite iom_remove_get, iom_insert_get. case_decide as Hd; [by intros [] | apply Hf].
  - intros sig' Hin. rewrite iom_insert_get. case_decide as Hd; [by subst | by apply He].
Qed.

(** ** Sweeps and their transactions *)
Record sweeps_inv (d : Deposits) (sub : Submitted) (succ : gset Signature) : Prop := {
  sv_swept : forall sig, is_Some (by_signature (swept d) !! sig) <->
    exists h, iom_get sub sig = Some (TxSweepDeposit h);
  sv_finalized : forall sig, is_Some (by_signature (finalized d) !! sig) -> sig ∈ succ
}.

(** ** Nonce accounts and the transactions bound to them *)
Record nonce_inv (pool : DurableNoncePool) (ctxs : Created) (sub : Submitted) : Prop := {
  nv_bound : forall a, (exists acc, np_accounts pool !! a = Some acc /\ na_state acc = Bound) <->
    is_Some (ctxs !! a) \/ exists sig m v t, iom_get sub sig = Some (TxWithdrawal m a v t);
  nv_excl : forall sig m a v t, iom_get sub sig = Some (TxWithdrawal m a v t) -> ctxs !! a = None;
  nv_unique : forall sig m a v t sig' m' v' t', iom_get sub sig = Some (TxWithdrawal m a v t) ->
    iom_get sub sig' = Some (TxWithdrawal m' a v' t') -> sig = sig';
  nv_created_seen : forall a c, ctxs !! a = Some c -> np_has_seen pool a (ctx_nonce_value c) = true;
  nv_submitted_seen : forall sig m a v t, iom_get sub sig = Some (TxWithdrawal m a v t) ->
    np_has_seen pool a v = true
}.

Lemma bind_seen pool a v pool' a' v' :
  np_bind pool a v = Done pool' -> np_has_seen pool a' v' = true -> np_has_seen pool' a' v' = true.
Proof.
  intros (acc & Hacc & _ & _ & ->)%np_bind_Done. rewrite !np_has_seen_true. cbn. intros (acc' & Hacc' & Hin).
  destruct (decide (a = a')) as [->|Hne].
  - rewrite lookup_insert_eq. eexists. split; [done|]. cbn. simplify_eq. set_solver.
  - rewrite lookup_insert_ne by done. by exists acc'.
Qed.

Lemma free_seen pool a pool' a' v' :
  np_free pool a = Done pool' -> np_has_seen pool' a' v' = np_has_seen pool a' v'.
Proof.
  intros (acc & Hacc & _ & ->)%np_free_Done. unfold np_has_seen. cbn.
  destruct (decide (a = a')) as [->|Hne]; [by rewrite lookup_insert_eq, Hacc | by rewrite lookup_insert_ne].
Qed.

(** A transition that adds or removes no withdrawal keeps the nonce invariant. *)
Lemma nonce_inv_ext pool ctxs sub sub' :
  nonce_inv pool ctxs sub ->
  (forall sig m a v t, iom_get sub' sig = Some (TxWithdrawal m a v t) <-> iom_get sub sig = Some (TxWithdrawal m a v t)) ->
  nonce_inv pool ctxs sub'.
Proof.
  intros [Hb He Hu Hc Hs] Hext. split.
  - intros a. rewrite Hb. by setoid_rewrite Hext.
  - intros sig m a v t. rewrite Hext. apply He.
  - intros sig m a v t sig' m' v' t'. rewrite !Hext. apply Hu.
  - done.
  - intros sig m a v t. rewrite Hext. apply Hs.
Qed.

Lemma nonce_bind pool ctxs sub a v ixs pool' :
  nonce_inv pool ctxs sub -> np_bind pool a v = Done pool' ->
  nonce_inv pool' (<[a := mkCreatedTx v ixs]> ctxs) sub.
Proof.
  intros [Hb He Hu Hc Hs] Hbind. pose proof Hbind as (acc & Hacc & Hfree & Hv & ->)%np_bind_Done. cbn in *.
  assert (~ (is_Some (ctxs !! a) \/ exists sig m v t, iom_get sub sig = Some (TxWithdrawal m a v t))) as Hno.
  { rewrite <- Hb. intros (acc' & Hacc' & Hbd). congruence. }
  split; cbn.
  - intros a'. rewrite lookup_insert_is_Some. destruct (decide (a = a')) as [<-|Hne].
    + rewrite lookup_insert_eq. split; [auto|]. intros _. by eexists.
    + rewrite lookup_insert_ne by done. rewrite Hb. naive_solver.
  - intros sig m a' v' t Hsub. rewrite lookup_insert_ne; [by eapply He|]. intros ->. apply Hno. right. eauto.
  - done.
  - intros a' c. rewrite lookup_insert_Some. intros [[<- <-]|[Hne Hc']].
    + apply np_has_seen_true. cbn. rewrite lookup_insert_eq. eexists. split; [done|]. cbn. set_solver.
    + eapply bind_seen; [done|]. by apply Hc.
  - intros sig m a' v' t Hsub. eapply bind_seen; [done|]. by eapply Hs.
Qed.

Lemma nonce_send pool ctxs sub sig m a c t :
  nonce_inv pool ctxs sub -> ctxs !! a = Some c -> iom_get sub sig = None ->
  nonce_inv pool (delete a ctxs) (iom_insert sub sig (TxWithdrawal m a (ctx_nonce_value c) t)).1.
Proof.
  intros [Hb He Hu Hc Hs] Ha Hsig.
  assert (forall sig' m' a' v' t', iom_get (iom_insert sub sig (TxWithdrawal m a (ctx_nonce_value c) t)).1 sig' = Some (TxWithdrawal m' a' v' t') <->
    (sig' = sig /\ m' = m /\ a' = a /\ v' = ctx_nonce_value c /\ t' = t) \/ iom_get sub sig' = Some (TxWithdrawal m' a' v' t')) as Hget.
  { intros. rewrite iom_insert_get. case_decide as Hd; [subst; rewrite Hsig|]; naive_solver. }
  split.
  - intros a'. rewrite Hb, lookup_delete_is_Some. setoid_rewrite Hget.
    destruct (decide (a = a')) as [<-|Hne]; [|naive_solver].
    split; [|by eauto]. intros _. right. exists sig, m, (ctx_nonce_value c), t. by left.
  - intros sig' m' a' v' t' [(-> & -> & -> & -> & ->)|Hold]%Hget; [by rewrite lookup_delete_eq|].
    apply lookup_delete_None. right. by eapply He.
  - intros sig1 m1 a1 v1 t1 sig2 m2 v2 t2 [(-> & -> & -> & -> & ->)|H1]%Hget [(-> & -> & He2 & -> & ->)|H2]%Hget.
    + done.
    + apply He in H2. congruence.
    + subst. apply He in H1. congruence.
    + by eapply Hu.
  - intros a' c' [_ Hc']%lookup_delete_Some. by apply Hc.
  - intros sig' m' a' v' t' [(-> & -> & -> & -> & ->)|Hold]%Hget; [by apply Hc | by eapply Hs].
Qed.

Lemma nonce_free pool ctxs sub sig m a v t pool' :
  nonce_inv pool ctxs sub -> iom_get sub sig = Some (TxWithdrawal m a v t) -> np_free pool a = Done pool' ->
  nonce_inv pool' ctxs (iom_remove sub sig).1.
Proof.
  intros [Hb He Hu Hc Hs] Hsig Hfree. pose proof Hfree as (acc & Hacc & _ & ->)%np_free_Done. cbn in *.
  assert (forall sig' m' a' v' t', iom_get (iom_remove sub sig).1 sig' = Some (TxWithdrawal m' a' v' t') <->
    sig' <> sig /\ iom_get sub sig' = Some (TxWithdrawal m' a' v' t')) as Hget.
  { intros. rewrite iom_remove_get. case_decide as Hd; naive_solver. }
  split; cbn.
  - intros a'. setoid_rewrite Hget. destruct (decide (a = a')) as [<-|Hne].
    + rewrite lookup_insert_eq. split; [intros (? & [= <-] & ?); done|].
      intros [Hctx|(sig' & m' & v' & t' & Hd & Hsig')].
      * apply He in Hsig. rewrite Hsig in Hctx. by destruct Hctx.
      * destruct Hd. symmetry. by eapply Hu.
    + rewrite lookup_insert_ne by done. rewrite Hb. split.
      * intros [?|(sig' & m' & v' & t' & Hsig')]; [by left|]. right. exists sig', m', v', t'. split; [|done].
        intros ->. rewrite Hsig in Hsig'. congruence.
      * intros [?|(sig' & m' & v' & t' & _ & Hsig')]; [by left | right; eauto].
  - intros sig' m' a' v' t' [_ Ho]%Hget. by eapply He.
  - intros sig1 m1 a1 v1 t1 sig2 m2 v2 t2 [_ H1]%Hget [_ H2]%Hget. by eapply Hu.
  - intros a' c Hc'. rewrite (free_seen _ _ _ _ _ Hfree). by apply Hc.
  - intros sig' m' a' v' t' [_ Ho]%Hget. rewrite (free_seen _ _ _ _ _ Hfree). by eapply Hs.
Qed.

Lemma nonce_add pool ctxs sub addresses pool' :
  nonce_inv pool ctxs sub -> np_add_accounts pool addresses = Ok pool' -> nonce_inv pool' ctxs sub.
Proof.
  intros [Hb He Hu Hc Hs] Hadd. pose proof Hadd as (_ & Hfresh & Hlk)%np_add_accounts_Ok. split; [|done|done| |].
  - intros a. rewrite <- Hb, Hlk. case_decide as Hin; [|done]. rewrite (Hfresh a Hin). split.
    + by intros (acc & [= <-] & ?).
    + by intros (acc & ? & _).
  - intros a c Ha. rewrite (np_add_accounts_seen _ _ _ _ _ Hadd). by apply Hc.
  - intros sig m a v t Ha. rewrite (np_add_accounts_seen _ _ _ _ _ Hadd). by eapply Hs.
Qed.

(** ** Withdrawal requests *)
Abbreviation Pending := (gmap LedgerBurnIndex PendingWithdrawalRequest) (only parsing).
Abbreviation Sent := (gmap LedgerBurnIndex SentWithdrawalRequest) (only parsing).

Record requests_inv (ctxs : Created) (created : Pending) (sent : Sent) (sub : Submitted) : Prop := {
  rq_created : forall b, is_Some (created !! b) <-> exists a c, ctxs !! a = Some c /\ b ∈ ctx_burn_indices c;
  rq_nodup : forall a c, ctxs !! a = Some c -> NoDup (ctx_burn_indices c);
  rq_disjoint : forall a c a' c' b, ctxs !! a = Some c -> ctxs !! a' = Some c' ->
    b ∈ ctx_burn_indices c -> b ∈ ctx_burn_indices c' -> a = a';
  rq_sent : forall b r, sent !! b = Some r ->
    exists m a v t, iom_get sub (sent_signature r) = Some (TxWithdrawal m a v t)
}.

Lemma requests_create ctxs created sent sub a v ixs (c : Pending) (p : Pending) :
  requests_inv ctxs created sent sub -> ctxs !! a = None -> NoDup ixs ->
  (forall b, b ∈ ixs -> is_Some (p !! b) /\ created !! b = None) ->
  (forall b, c !! b = if decide (b ∈ ixs) then p !! b else created !! b) ->
  requests_inv (<[a := mkCreatedTx v ixs]> ctxs) c sent sub.
Proof.
  intros [Hc Hn Hd Hs] Ha Hnd Hin Hlk.
  assert (forall a' c' b, ctxs !! a' = Some c' -> b ∈ ctx_burn_indices c' -> b ∉ ixs) as Hold.
  { intros a' c' b Ha' Hb Hi. apply Hin in Hi as [_ Hnone].
    assert (is_Some (created !! b)) as [? ?] by (apply Hc; eauto). congruence. }
  split; [| | |done].
  - intros b. rewrite Hlk. setoid_rewrite lookup_insert_Some. case_decide as Hb.
    + split; [|intros _; by apply Hin]. intros _. exists a, (mkCreatedTx v ixs). auto.
    + rewrite Hc. split.
      * intros (a' & c' & Ha' & Hb'). exists a', c'. split; [right; split; [congruence | done] | done].
      * intros (a' & c' & [[<- <-]|[_ Ha']] & Hb'); [done | eauto].
  - intros a' c' [[<- <-]|[_ Ha']]%lookup_insert_Some; [done | by eapply Hn].
  - intros a1 c1 a2 c2 b [[<- <-]|[_ H1]]%lookup_insert_Some [[<- <-]|[_ H2]]%lookup_insert_Some Hb1 Hb2; try done.
    + by destruct (Hold _ _ _ H2 Hb2).
    + by destruct (Hold _ _ _ H1 Hb1).
    + by eapply Hd.
Qed.

Lemma requests_send ctxs created sent sub sig m a cr t c (st : Sent) :
  requests_inv ctxs created sent sub -> ctxs !! a = Some cr -> iom_get sub sig = None ->
  (forall b, c !! b = if decide (b ∈ ctx_burn_indices cr) then None else created !! b) ->
  (forall b, st !! b = if decide (b ∈ ctx_burn_indices cr)
     then (fun r => mkSentWithdrawal (pw_request r) sig (pw_created_at r)) <$> created !! b else sent !! b) ->
  requests_inv (delete a ctxs) c st (iom_insert sub sig (TxWithdrawal m a (ctx_nonce_value cr) t)).1.
Proof.
  intros [Hc Hn Hd Hs] Ha Hsig Hlc Hls. split.
  - intros b. rewrite Hlc. setoid_rewrite lookup_delete_Some. case_decide as Hb.
    + split; [by intros []|]. intros (a' & c' & [Hne Ha'] & Hb'). destruct Hne. by eapply Hd.
    + rewrite Hc. split; [|naive_solver]. intros (a' & c' & Ha' & Hb'). exists a', c'.
      split; [|done]. split; [|done]. intros <-. congruence.
  - intros a' c' [_ Ha']%lookup_delete_Some. by eapply Hn.
  - intros a1 c1 a2 c2 b [_ H1]%lookup_delete_Some [_ H2]%lookup_delete_Some. by eapply Hd.
  - intros b r. rewrite Hls. case_decide as Hb.
    + intros (p & Hp & ->)%fmap_Some_1. cbn. eexists _, _, _, _. by rewrite iom_insert_get, decide_True.
    + intros Hr. destruct (Hs b r Hr) as (m' & a' & v' & t' & Hg). exists m', a', v', t'.
      rewrite iom_insert_get, decide_False; [done|]. intros Heq. rewrite <- Heq in Hg. congruence.
Qed.

Lemma requests_sub_ext ctxs created sent sub sub' :
  requests_inv ctxs created sent sub ->
  (forall sig m a v t, iom_get sub' sig = Some (TxWithdrawal m a v t) <-> iom_get sub sig = Some (TxWithdrawal m a v t)) ->
  requests_inv ctxs created sent sub'.
Proof. intros [Hc Hn Hd Hs] Hext. split; [done..|]. intros b r Hr. setoid_rewrite Hext. by apply (Hs b). Qed.

Lemma not_sent_with_Some sig sent b r :
  not_sent_with sig sent !! b = Some r <-> sent !! b = Some r /\ sent_signature r <> sig.
Proof. unfold not_sent_with. by rewrite map_lookup_filter_Some. Qed.

Lemma sent_with_Some sig sent b r :
  sent_with sig sent !! b = Some r <-> sent !! b = Some r /\ sent_signature r = sig.
Proof. unfold sent_with. by rewrite map_lookup_filter_Some. Qed.

Lemma requests_finalize ctxs created sent sub sig :
  requests_inv ctxs created sent sub -> requests_inv ctxs created (not_sent_with sig sent) (iom_remove sub sig).1.
Proof.
  intros [Hc Hn Hd Hs]. split; [done..|]. intros b r [Hr Hne]%not_sent_with_Some.
  destruct (Hs b r Hr) as (m & a & v & t & Hg). exists m, a, v, t. by rewrite iom_remove_get, decide_False.
Qed.

(** ** Buckets *)
Definition one {V} (_ : V) : Z := 1.

Definition bucket_count (p c : Pending) (st su fa : Sent) (b : LedgerBurnIndex) : Z :=
  value_at one p b + value_at one c b + value_at one st b + value_at one su b + value_at one fa b.

(** Every accepted withdrawal request is in exactly one bucket. *)
Definition buckets_inv (accepted : list LedgerBurnIndex) (p c : Pending) (st su fa : Sent) : Prop :=
  forall b, bucket_count p c st su fa b = if decide (b ∈ accepted) then 1 else 0.

Lemma value_at_one_Some {V} (m : gmap Z V) b x : m !! b = Some x -> value_at one m b = 1.
Proof. intros Hb. unfold value_at. by rewrite Hb. Qed.
Lemma value_at_None {V} (f : V -> Z) (m : gmap Z V) b : m !! b = None -> value_at f m b = 0.
Proof. intros Hb. unfold value_at. by rewrite Hb. Qed.
Lemma value_at_one_range {V} (m : gmap Z V) b : 0 <= value_at one m b <= 1.
Proof. unfold value_at, one. destruct (m !! b); cbn; lia. Qed.
Lemma value_at_one_0 {V} (m : gmap Z V) b : value_at one m b = 0 <-> m !! b = None.
Proof. unfold value_at, one. destruct (m !! b); cbn; split; (done || lia). Qed.

(** The final buckets after the transaction [sig] is finalized. *)
Lemma finalize_value {f : SentWithdrawalRequest -> Z} sig (st su : Sent) b :
  (is_Some (st !! b) -> su !! b = None) ->
  value_at f (not_sent_with sig st) b + value_at f (sent_with sig st ∪ su) b = value_at f st b + value_at f su b.
Proof.
  intros Hdisj. unfold value_at. rewrite lookup_union.
  destruct (st !! b) as [r|] eqn:Hb.
  - rewrite (Hdisj ltac:(eauto)). destruct (decide (sent_signature r = sig)) as [Hs|Hs].
    + rewrite (proj2 (sent_with_Some sig st b r)) by done.
      assert (not_sent_with sig st !! b = None) as ->.
      { apply eq_None_not_Some. intros [r' Hr']. apply not_sent_with_Some in Hr' as [? ?]. congruence. }
      cbn. lia.
    + rewrite (proj2 (not_sent_with_Some sig st b r)) by done.
      assert (sent_with sig st !! b = None) as ->.
      { apply eq_None_not_Some. intros [r' Hr']. apply sent_with_Some in Hr' as [? ?]. congruence. }
      cbn. lia.
  - assert (not_sent_with sig st !! b = None) as ->.
    { apply eq_None_not_Some. intros [r' Hr']. apply not_sent_with_Some in Hr' as [? ?]. congruence. }
    assert (sent_with sig st !! b = None) as ->.
    { apply eq_None_not_Some. intros [r' Hr']. apply sent_with_Some in Hr' as [? ?]. congruence. }
    by destruct (su !! b).
Qed.

(** At most one bucket holds a request. *)
Lemma buckets_disjoint acc p c st su fa b :
  buckets_inv acc p c st su fa ->
  (is_Some (st !! b) -> su !! b = None /\ fa !! b = None /\ c !! b = None /\ p !! b = None) /\
  (is_Some (c !! b) -> st !! b = None /\ su !! b = None /\ fa !! b = None /\ p !! b = None) /\
  (is_Some (p !! b) -> c !! b = None /\ st !! b = None /\ su !! b = None /\ fa !! b = None) /\
  (is_Some (su !! b) -> p !! b = None /\ c !! b = None /\ st !! b = None /\ fa !! b = None).
Proof.
  intros Hinv. specialize (Hinv b). unfold bucket_count in Hinv.
  pose proof (value_at_one_range p b). pose proof (value_at_one_range c b). pose proof (value_at_one_range st b).
  pose proof (value_at_one_range su b). pose proof (value_at_one_range fa b).
  rewrite <- !value_at_one_0.
  split_and!; intros [x Hx]; rewrite (value_at_one_Some _ _ _ Hx) in *; case_decide; lia.
Qed.

Lemma buckets_accept acc p c st su fa b r :
  buckets_inv acc p c st su fa -> b ∉ acc -> buckets_inv (b :: acc) (<[b := r]> p) c st su fa.
Proof.
  intros Hinv Hb b'. specialize (Hinv b'). unfold bucket_count in *.
  destruct (decide (b = b')) as [<-|Hne].
  - rewrite decide_True by left. rewrite decide_False in Hinv by done.
    rewrite (value_at_one_Some _ b r) by apply lookup_insert_eq.
    pose proof (value_at_one_range p b). pose proof (value_at_one_range c b). pose proof (value_at_one_range st b).
    pose proof (value_at_one_range su b). pose proof (value_at_one_range fa b). lia.
  - assert (value_at one (<[b := r]> p) b' = value_at one p b') as -> by (unfold value_at; by rewrite lookup_insert_ne).
    rewrite Hinv. destruct (decide (b' ∈ acc)).
    + by rewrite decide_True by (by right).
    + by rewrite decide_False by (by intros [->|]%elem_of_cons).
Qed.

Lemma move_value {f : PendingWithdrawalRequest -> Z} (p c p' c' : Pending) (ixs : list LedgerBurnIndex) b :
  (forall b, b ∈ ixs -> is_Some (p !! b) /\ c !! b = None) ->
  (forall b, p' !! b = if decide (b ∈ ixs) then None else p !! b) ->
  (forall b, c' !! b = if decide (b ∈ ixs) then p !! b else c !! b) ->
  value_at f p' b + value_at f c' b = value_at f p b + value_at f c b.
Proof.
  intros Hin Hp Hc. unfold value_at. rewrite Hp, Hc. case_decide as Hb; [|done].
  destruct (Hin b Hb) as [_ ->]. cbn. lia.
Qed.

Lemma buckets_create acc p c st su fa (ixs : list LedgerBurnIndex) p' c' :
  buckets_inv acc p c st su fa ->
  (forall b, b ∈ ixs -> is_Some (p !! b) /\ c !! b = None) ->
  (forall b, p' !! b = if decide (b ∈ ixs) then None else p !! b) ->
  (forall b, c' !! b = if decide (b ∈ ixs) then p !! b else c !! b) ->
  buckets_inv acc p' c' st su fa.
Proof.
  intros Hinv Hin Hp Hc b. rewrite <- (Hinv b). unfold bucket_count.
  pose proof (move_value (f := one) p c p' c' ixs b Hin Hp Hc). lia.
Qed.

Lemma send_value {f : WithdrawalRequest -> Z} sig (c : Pending) (st : Sent) (c' : Pending) (st' : Sent) (ixs : list LedgerBurnIndex) b :
  (forall b, b ∈ ixs -> is_Some (c !! b) /\ st !! b = None) ->
  (forall b, c' !! b = if decide (b ∈ ixs) then None else c !! b) ->
  (forall b, st' !! b = if decide (b ∈ ixs)
     then (fun r => mkSentWithdrawal (pw_request r) sig (pw_created_at r)) <$> c !! b else st !! b) ->
  value_at (fun r => f (pw_request r)) c' b + value_at (fun r => f (sent_request r)) st' b =
  value_at (fun r => f (pw_request r)) c b + value_at (fun r => f (sent_request r)) st b.
Proof.
  intros Hin Hc Hs. unfold value_at. rewrite Hc, Hs. case_decide as Hb; [|done].
  destruct (Hin b Hb) as [[r ->] ->]. cbn. lia.
Qed.

Lemma buckets_send acc sig p c st su fa (ixs : list LedgerBurnIndex) c' st' :
  buckets_inv acc p c st su fa ->
  (forall b, b ∈ ixs -> is_Some (c !! b) /\ st !! b = None) ->
  (forall b, c' !! b = if decide (b ∈ ixs) then None else c !! b) ->
  (forall b, st' !! b = if decide (b ∈ ixs)
     then (fun r => mkSentWithdrawal (pw_request r) sig (pw_created_at r)) <$> c !! b else st !! b) ->
  buckets_inv acc p c' st' su fa.
Proof.
  intros Hinv Hin Hc Hs b. rewrite <- (Hinv b). unfold bucket_count.
  pose proof (send_value (f := one) sig c st c' st' ixs b Hin Hc Hs). cbn in *. unfold one in *. lia.
Qed.

Lemma buckets_succeed acc sig p c st su fa :
  buckets_inv acc p c st su fa -> buckets_inv acc p c (not_sent_with sig st) (sent_with sig st ∪ su) fa.
Proof.
  intros Hinv b. rewrite <- (Hinv b). unfold bucket_count.
  pose proof (finalize_value (f := one) sig st su b
    (fun Hs => proj1 (proj1 (buckets_disjoint _ _ _ _ _ _ b Hinv) Hs))). lia.
Qed.

Lemma buckets_fail acc sig p c st su fa :
  buckets_inv acc p c st su fa -> buckets_inv acc p c (not_sent_with sig st) su (sent_with sig st ∪ fa).
Proof.
  intros Hinv b. rewrite <- (Hinv b). unfold bucket_count.
  pose proof (finalize_value (f := one) sig st fa b
    (fun Hs => proj1 (proj2 (proj1 (buckets_disjoint _ _ _ _ _ _ b Hinv) Hs)))). lia.
Qed.

(** ** The invariant of the state

    [L] is the abstract lifecycle of the deposits and [accepted] the burn
    indices of the withdrawal requests accepted so far. *)
Record min_inv (s : State) (L : Lifecycle) (accepted : list LedgerBurnIndex) : Prop := {
  mi_deposits : implements (deposits s) L;
  mi_txs : txs_inv (submitted_transactions s) (succeeded_transactions s) (failed_transactions s);
  mi_sweeps : sweeps_inv (deposits s) (submitted_transactions s) (succeeded_transactions s);
  mi_nonce : nonce_inv (nonce_pool s) (created_withdrawal_txs s) (submitted_transactions s);
  mi_requests : requests_inv (created_withdrawal_txs s) (created_withdrawal_requests s)
    (sent_withdrawal_requests s) (submitted_transactions s);
  mi_buckets : buckets_inv accepted (pending_withdrawal_requests s) (created_withdrawal_requests s)
    (sent_withdrawal_requests s) (successful_withdrawal_requests s) (failed_withdrawal_requests s)
}.

(** ** Accounting *)
Definition lsum (L : Lifecycle) : Z := map_sum (fun p => stage_amount p.2) L.

Definition pending_amount (r : PendingWithdrawalRequest) : Lamport := wr_amount_to_transfer (pw_request r).
Definition sent_amount (r : SentWithdrawalRequest) : Lamport := wr_amount_to_transfer (sent_request r).

(** The lamports of the withdrawals for which a transaction was created. *)
Definition outgoing (s : State) : Z :=
  map_sum pending_amount (created_withdrawal_requests s) + map_sum sent_amount (sent_withdrawal_requests s)
  + map_sum sent_amount (successful_withdrawal_requests s) + map_sum sent_amount (failed_withdrawal_requests s).

Record acct_inv (s : State) (L : Lifecycle) (received created : Z) : Prop := {
  ai_balance : balance s = received - outgoing s - BATCH_WITHDRAWAL_TX_FEE * created;
  ai_credited : lsum L + collected_automatic_deposit_fees s <= received;
  ai_range : 0 <= balance s /\ 0 <= collected_automatic_deposit_fees s
}.

(** Lamports reported by Solana fit in 64 bits. *)
Definition event_fits (s : State) (ev : EventType) : Prop :=
  match ev with
  | CreditedSweep _ amount_received mints =>
      0 <= amount_received /\ balance s + amount_received < u64_modulus /\
      Forall (fun c => 0 <= cd_amount_to_mint c) mints /\ zsum (map cd_amount_to_mint mints) < u64_modulus
  | CreatedWithdrawalTransactionEvent burn_indices _ _ =>
      0 <= batch_amount (pending_withdrawal_requests s) burn_indices /\
      batch_amount (pending_withdrawal_requests s) burn_indices + BATCH_WITHDRAWAL_TX_FEE < u64_modulus
  | _ => True
  end.

Definition received_of (ev : EventType) : Z :=
  match ev with CreditedSweep _ amount_received _ => amount_received | _ => 0 end.
Definition created_of (ev : EventType) : Z :=
  match ev with CreatedWithdrawalTransactionEvent _ _ _ => 1 | _ => 0 end.
Definition accepted_of (ev : EventType) : list LedgerBurnIndex :=
  match ev with AcceptedWithdrawalRequest r => [wr_burn_block_index r] | _ => [] end.

Lemma lsum_relabel_same f L :
  (forall i dep st, L !! i = Some (dep, st) -> stage_amount (f i st) = stage_amount st) ->
  lsum (relabel f L) = lsum L.
Proof.
  intros Hf. apply map_sum_ext. intros k. unfold value_at. rewrite relabel_lookup.
  destruct (L !! k) as [[dep st]|] eqn:HL; [|done]. cbn. by apply (Hf k dep).
Qed.

Ltac solve_same_amount := apply lsum_relabel_same; intros ? ? [] _; cbn; try case_match; done.

Lemma lsum_credit d L sig ms t d' s :
  implements d L -> credit_sweep d sig ms t = Done (d', s) ->
  lsum (relabel (to_pending sig ms t) L) = lsum L + zsum (map cd_amount_to_mint ms).
Proof.
  intros HI Hc. destruct (credit_implements _ _ _ _ _ _ _ HI Hc) as (Hs & Hperm & HF & _).
  assert (NoDup (map cd_deposit_id ms)) as Hnd by (rewrite Hperm; apply NoDup_btree_keys).
  replace (zsum (map cd_amount_to_mint ms)) with (zsum (map (mint_amount ms) (map cd_deposit_id ms))).
  2:{ rewrite <- list_fmap_compose. apply zsum_map_ext. intros c Hcin. cbn. by apply mint_amount_elem. }
  apply map_sum_plus; [done|]. intros k. unfold value_at. rewrite relabel_lookup.
  assert (k ∈ map cd_deposit_id ms <-> exists dep, L !! k = Some (dep, StFinalized sig)) as Hk.
  { rewrite Hperm, elem_of_btree_keys. split.
    - intros [dep Hd]. exists dep. by apply (finalized_deposits _ _ _ _ _ _ HI Hs).
    - intros [dep HL]. exists dep. by apply (finalized_deposits _ _ _ _ _ _ HI Hs). }
  case_decide as Hin; rewrite Hk in Hin.
  - destruct Hin as [dep ->]. cbn. by rewrite Z.eqb_refl.
  - destruct (L !! k) as [[dep st]|] eqn:HL; [|done]. cbn. unfold to_pending.
    destruct st as [| |sig'| | | |]; cbn; try lia. destruct (Z.eqb_spec sig' sig) as [->|]; cbn; [|lia].
    destruct Hin. by exists dep.
Qed.

(** ** Preservation, event by event *)
Lemma min_inv_set_deposits s L acc d L' :
  min_inv s L acc -> implements d L' -> swept d = swept (deposits s) ->
  (forall sig, is_Some (by_signature (finalized d) !! sig) -> is_Some (by_signature (finalized (deposits s)) !! sig)) ->
  min_inv (s <| deposits := d |>) L' acc.
Proof.
  intros [H1 H2 [H3 H3'] H4 H5 H6] HI Hs Hf. split; [exact HI | exact H2 | | exact H4 | exact H5 | exact H6].
  split; read_upd; [intros sig; rewrite Hs; apply H3 | intros sig Hsig; apply H3'; by apply Hf].
Qed.

Lemma acct_set_deposits s L d L' rcv n :
  acct_inv s L rcv n -> lsum L' = lsum L -> acct_inv (s <| deposits := d |>) L' rcv n.
Proof. intros [H1 H2 H3] HL. split; [exact H1 | rewrite HL; exact H2 | exact H3]. Qed.

Lemma delete_finalized d sig sig' :
  is_Some (by_signature (mkSweeps (delete sig (by_signature (finalized d)))) !! sig') ->
  is_Some (by_signature (finalized d) !! sig').
Proof. cbn. rewrite lookup_delete_is_Some. tauto. Qed.

Lemma no_withdrawal_insert (sub : Submitted) sig h :
  iom_get sub sig = None -> forall sig' m a v t,
  iom_get (iom_insert sub sig (TxSweepDeposit h)).1 sig' = Some (TxWithdrawal m a v t) <->
  iom_get sub sig' = Some (TxWithdrawal m a v t).
Proof. intros Hs sig' m a v t. rewrite iom_insert_get. case_decide; [subst; rewrite Hs; done | done]. Qed.

Lemma no_withdrawal_remove (sub : Submitted) sig h :
  iom_get sub sig = Some (TxSweepDeposit h) -> forall sig' m a v t,
  iom_get (iom_remove sub sig).1 sig' = Some (TxWithdrawal m a v t) <->
  iom_get sub sig' = Some (TxWithdrawal m a v t).
Proof. intros Hs sig' m a v t. rewrite iom_remove_get. case_decide; [subst; rewrite Hs; done | done]. Qed.

Lemma sweeps_inv_sweep `{Platform} d sub succ ids addr m sig d' r h :
  sweeps_inv d sub succ -> sweep d ids addr (Legacy m) sig = Done (d', r) ->
  sweeps_inv d' (iom_insert sub sig (TxSweepDeposit h)).1 succ.
Proof.
  intros [H1 H2] (_ & q & l & s & _ & _ & _ & _ & _ & _ & ->)%sweep_Done. split; cbn; [|done].
  intros sig'. rewrite iom_insert_get, lookup_insert_is_Some, H1. case_decide as Hd; naive_solver.
Qed.

Lemma sweeps_inv_drop d sub succ sig d' :
  sweeps_inv d sub succ -> drop_swept d sig = Done d' -> sweeps_inv d' (iom_remove sub sig).1 succ.
Proof.
  intros [H1 H2] (s & _ & _ & ->)%drop_swept_Done. split; cbn; [|done].
  intros sig'. rewrite iom_remove_get, lookup_delete_is_Some, H1. case_decide as Hd; naive_solver.
Qed.

Lemma sweeps_inv_finalize d sub succ sig d' :
  sweeps_inv d sub succ -> finalize_swept d sig = Done d' ->
  sweeps_inv d' (iom_remove sub sig).1 ({[sig]} ∪ succ).
Proof.
  intros [H1 H2] (s & _ & _ & _ & ->)%finalize_swept_Done. split; cbn.
  - intros sig'. rewrite iom_remove_get, lookup_delete_is_Some, H1. case_decide as Hd; naive_solver.
  - intros sig'. rewrite lookup_insert_is_Some. intros [<-|[_ Hs%H2]]; set_solver.
Qed.

(** Withdrawal transactions do not touch the sweeps. *)
Lemma sweeps_inv_withdrawal d sub succ sig tx m a v t :
  sweeps_inv d sub succ -> tx = TxWithdrawal m a v t -> iom_get sub sig = None ->
  sweeps_inv d (iom_insert sub sig tx).1 succ.
Proof.
  intros [H1 H2] -> Hsig. split; [|done]. intros sig'. rewrite H1, iom_insert_get.
  case_decide as Hd; [subst; rewrite Hsig|done]. naive_solver.
Qed.

Lemma sweeps_inv_settle d sub succ succ' sig m a v t :
  sweeps_inv d sub succ -> iom_get sub sig = Some (TxWithdrawal m a v t) -> succ ⊆ succ' ->
  sweeps_inv d (iom_remove sub sig).1 succ'.
Proof.
  intros [H1 H2] Hsig Hsub. split; [|intros sig' Hs%H2; set_solver]. intros sig'. rewrite H1, iom_remove_get.
  case_decide as Hd; [subst; rewrite Hsig|done]. naive_solver.
Qed.

Section Steps.
Context `{Platform}.

(** What one event preserves. *)
Definition step_ok (s : State) (L : Lifecycle) (acc : list LedgerBurnIndex) (ev : EventType) (s' : State) : Prop :=
  exists L', min_inv s' L' (accepted_of ev ++ acc) /\
    next_id (deposits s') <= next_id (deposits s) + 1 /\
    forall rcv n, acct_inv s L rcv n -> event_fits s ev ->
      acct_inv s' L' (rcv + received_of ev) (n + created_of ev).

(** An event that changes the deposits only. *)
Lemma step_deposits s L acc ev op d :
  min_inv s L acc -> next_id (deposits s) < u64_max -> deposit_op (deposits s) op = Done d ->
  accepted_of ev = [] -> received_of ev = 0 -> created_of ev = 0 ->
  swept d = swept (deposits s) ->
  (forall sig, is_Some (by_signature (finalized d) !! sig) -> is_Some (by_signature (finalized (deposits s)) !! sig)) ->
  lsum (lifecycle_op L op) = lsum L ->
  step_ok s L acc ev (s <| deposits := d |>).
Proof.
  intros HI Hn Hop Ha Hr Hc Hs Hf Hl. exists (lifecycle_op L op). rewrite Ha, Hr, Hc. cbn [app]. split_and!.
  - apply (min_inv_set_deposits s L); [done | | done | done].
    by apply (deposit_op_implements (deposits s)); [apply (mi_deposits _ _ _ HI) | |].
  - read_upd. eapply deposit_op_next_id; [|done]. apply (im_next _ _ (mi_deposits _ _ _ HI)).
  - intros rcv n HA _. rewrite !Z.add_0_r. by eapply acct_set_deposits.
Qed.

Lemma lsum_queue d L i dep : implements d L -> i = next_id d -> lsum (<[i := (dep, StQueued)]> L) = lsum L.
Proof.
  intros HI ->. unfold lsum. rewrite map_sum_insert; [cbn; lia|]. apply eq_None_not_Some. rewrite (im_ids _ _ HI). lia.
Qed.

Lemma step_queued s L acc i dep t s' ev :
  ev = QueuedDepositEvent i (qd_account dep) (qd_address dep) (qd_balance dep) (qd_deposit_fee dep) ->
  min_inv s L acc -> next_id (deposits s) < u64_max -> process_queued_deposit s i dep t = Done s' ->
  step_ok s L acc ev s'.
Proof.
  intros -> HI Hn (d & Hd & ->)%deposit_update_Done. apply (step_deposits s L acc _ (OpQueue i dep t)); try done.
  - apply queue_Done in Hd as (_ & _ & w & _ & ->). done.
  - apply queue_Done in Hd as (_ & _ & w & _ & ->). done.
  - apply queue_Done in Hd as (-> & _). by apply (lsum_queue (deposits s)); [apply (mi_deposits _ _ _ HI)|].
Qed.

Lemma step_minted s L acc i ix s' :
  min_inv s L acc -> next_id (deposits s) < u64_max -> process_minted_swept_deposit s i ix = Done s' ->
  step_ok s L acc (MintedSweptDeposit i ix) s'.
Proof.
  intros HI Hn (d & Hd & ->)%deposit_update_Done. apply (step_deposits s L acc _ (OpMint i ix)); try done;
    try (apply mint_Done in Hd as (p & _ & _ & ->); done). solve_same_amount.
Qed.

Lemma step_quarantined_mint s L acc i s' :
  min_inv s L acc -> next_id (deposits s) < u64_max -> process_quarantined_pending_mint s i = Done s' ->
  step_ok s L acc (QuarantinedPendingMint i) s'.
Proof.
  intros HI Hn (d & Hd & ->)%deposit_update_Done. apply (step_deposits s L acc _ (OpQuarantinePendingMint i)); try done;
    try (apply quarantine_pending_mint_Done in Hd as (p & _ & ->); done). solve_same_amount.
Qed.

Lemma step_quarantined_sweep s L acc sig s' :
  min_inv s L acc -> next_id (deposits s) < u64_max -> process_quarantined_sweep s sig = Done s' ->
  step_ok s L acc (QuarantinedSweep sig) s'.
Proof.
  intros HI Hn (d & Hd & ->)%deposit_update_Done. apply (step_deposits s L acc _ (OpQuarantineSweep sig)); try done.
  - apply quarantine_sweep_Done in Hd as (sw & _ & ->). done.
  - apply quarantine_sweep_Done in Hd as (sw & _ & ->). apply delete_finalized.
  - solve_same_amount.
Qed.

(** The mints and the fees of a credited sweep are covered by the amount received. *)
Lemma step_credited s L acc sig received ms t s' :
  min_inv s L acc -> next_id (deposits s) < u64_max -> process_credited_sweep s sig received ms t = Done s' ->
  step_ok s L acc (CreditedSweep sig received ms) s'.
Proof.
  intros HI Hn (d & sw & Hc & Hlt & Hle & ->)%process_credited_Done.
  pose proof (credit_implements _ _ _ _ _ _ _ (mi_deposits _ _ _ HI) Hc) as (Hs & _ & _ & HI').
  exists (relabel (to_pending sig ms t) L). cbn [accepted_of received_of created_of app].
  pose proof Hc as (_ & _ & p & _ & Hd)%credit_sweep_Done. split_and!.
  - destruct (min_inv_set_deposits s L acc d (relabel (to_pending sig ms t) L) HI HI') as [A1 A2 A3 A4 A5 A6];
      [by subst d | subst d; apply delete_finalized|].
    split; [exact A1 | exact A2 | exact A3 | exact A4 | exact A5 | exact A6].
  - read_upd. subst d. read_upd. lia.
  - intros rcv n [B1 B2 [B3 B4]] (Hr & Hfit & Hpos & Hsum).
    assert (wsum (map cd_amount_to_mint ms) = zsum (map cd_amount_to_mint ms)) as Hw.
    { apply wsum_exact. split; [|done]. apply zsum_nonneg. by apply Forall_fmap. }
    assert (0 <= deposit_fees sw) as Hfees.
    { unfold deposit_fees. rewrite wsum_wrap. apply wrap64_range. }
    assert (balance s +w received = balance s + received) as Hbal by (apply wrap64_small; split; lia).
    pose proof (wrap64_range (collected_automatic_deposit_fees s + deposit_fees sw)) as [Hc0 _].
    assert (collected_automatic_deposit_fees s +w deposit_fees sw <= collected_automatic_deposit_fees s + deposit_fees sw) as Hcf.
    { apply Z.mod_le; [lia | done]. }
    rewrite Hw in Hle. split; read_upd.
    + change (outgoing _) with (outgoing s). rewrite Hbal, B1. lia.
    + rewrite (lsum_credit _ _ _ _ _ _ _ (mi_deposits _ _ _ HI) Hc). lia.
    + rewrite Hbal. split; [lia | exact Hc0].
Qed.

Lemma step_accepted s L acc r t s' :
  min_inv s L acc -> wr_burn_block_index r ∉ acc -> process_accepted_withdrawal s r t = Done s' ->
  step_ok s L acc (AcceptedWithdrawalRequest r) s'.
Proof.
  intros [H1 H2 H3 H4 H5 H6] Hfresh [_ ->]%process_accepted_Done. exists L. split_and!.
  - split; [exact H1 | exact H2 | exact H3 | exact H4 | exact H5 |].
    exact (buckets_accept _ _ _ _ _ _ _ _ H6 Hfresh).
  - read_upd. lia.
  - intros rcv n [B1 B2 B3] _. cbn [received_of created_of]. rewrite !Z.add_0_r. split; [exact B1 | exact B2 | exact B3].
Qed.

(** The amount of the created bucket grows by the amount of the batch. *)
Lemma created_sum (p c p' c' : Pending) ixs :
  NoDup ixs -> (forall b, b ∈ ixs -> is_Some (p !! b) /\ c !! b = None) ->
  (forall b, c' !! b = if decide (b ∈ ixs) then p !! b else c !! b) ->
  map_sum pending_amount c' = map_sum pending_amount c + batch_amount p ixs.
Proof.
  intros Hnd Hin Hc. apply map_sum_plus; [done|]. intros k. unfold value_at, request_amount. rewrite Hc.
  case_decide as Hk; [|lia]. destruct (Hin k Hk) as [[r ->] ->]. cbn. unfold pending_amount. lia.
Qed.

Lemma step_created s L acc ixs a v s' :
  min_inv s L acc -> process_transaction_created s ixs a v = Done s' ->
  step_ok s L acc (CreatedWithdrawalTransactionEvent ixs a v) s'.
Proof.
  intros [H1 H2 H3 H4 H5 H6] (pool & p & c & tot & Hb & Hl & Hle & Ha & ->)%process_created_Done.
  apply create_loop in Hl as (Hnd & Hin & -> & Hlt & Hp & Hc). rewrite Z.add_0_l in *.
  exists L. split_and!.
  - split; [exact H1 | exact H2 | exact H3 | | |].
    + exact (nonce_bind _ _ _ _ _ ixs _ H4 Hb).
    + exact (requests_create _ _ _ _ a v ixs c _ H5 Ha Hnd Hin Hc).
    + exact (buckets_create _ _ _ _ _ _ _ _ _ H6 Hin Hp Hc).
  - read_upd. lia.
  - intros rcv n [B1 B2 [B3 B4]] [Hpos Hfit]. cbn [received_of created_of]. rewrite Z.add_0_r.
    set (tot := batch_amount (pending_withdrawal_requests s) ixs) in *.
    assert (tot +w BATCH_WITHDRAWAL_TX_FEE = tot + BATCH_WITHDRAWAL_TX_FEE) as Hw.
    { apply wrap64_small. unfold is_u64. unfold BATCH_WITHDRAWAL_TX_FEE, FEE_PER_SIGNATURE in *. lia. }
    split; [| exact B2 | split; [read_upd; lia | exact B4]].
    change (balance s - (tot +w BATCH_WITHDRAWAL_TX_FEE) = rcv - (map_sum pending_amount c
      + map_sum sent_amount (sent_withdrawal_requests s) + map_sum sent_amount (successful_withdrawal_requests s)
      + map_sum sent_amount (failed_withdrawal_requests s)) - BATCH_WITHDRAWAL_TX_FEE * (n + 1)).
    rewrite Hw, (created_sum _ _ p c ixs Hnd Hin Hc). unfold outgoing in B1. fold tot. lia.
Qed.

Lemma step_submitted_sweep s L acc sig m signers ids h t s' :
  min_inv s L acc -> next_id (deposits s) < u64_max ->
  process_transaction_submitted s sig (Legacy m) signers (PurposeSweepDeposit ids h) t = Done s' ->
  step_ok s L acc (SubmittedTransaction sig (Legacy m) signers (PurposeSweepDeposit ids h)) s'.
Proof.
  intros [H1 H2 H3 H4 H5 H6] Hn (key & d & r & Hns & Hnf & Hsub & Hk & Hsw & ->)%process_submitted_sweep_Done.
  exists (relabel (to_swept ids sig) L). split_and!.
  - split.
    + exact (proj2 (sweep_implements _ _ _ _ _ _ _ _ H1 Hsw)).
    + exact (txs_insert _ _ _ _ _ H2 Hns Hnf).
    + exact (sweeps_inv_sweep _ _ _ _ _ _ _ _ _ h H3 Hsw).
    + exact (nonce_inv_ext _ _ _ _ H4 (no_withdrawal_insert _ sig h Hsub)).
    + exact (requests_sub_ext _ _ _ _ _ H5 (no_withdrawal_insert _ sig h Hsub)).
    + exact H6.
  - read_upd. apply sweep_Done in Hsw as (_ & q & l & sw & _ & _ & _ & _ & _ & _ & ->). read_upd. lia.
  - intros rcv n [B1 B2 B3] _. cbn [received_of created_of]. rewrite !Z.add_0_r. split; [exact B1 | | exact B3].
    read_upd. replace (lsum (relabel (to_swept ids sig) L)) with (lsum L); [exact B2|]. symmetry. solve_same_amount.
Qed.

Lemma sum_send sig (c : Pending) (st : Sent) (c' : Pending) (st' : Sent) (ixs : list LedgerBurnIndex) :
  (forall b, b ∈ ixs -> is_Some (c !! b) /\ st !! b = None) ->
  (forall b, c' !! b = if decide (b ∈ ixs) then None else c !! b) ->
  (forall b, st' !! b = if decide (b ∈ ixs)
     then (fun r => mkSentWithdrawal (pw_request r) sig (pw_created_at r)) <$> c !! b else st !! b) ->
  map_sum pending_amount c' + map_sum sent_amount st' = map_sum pending_amount c + map_sum sent_amount st.
Proof. intros Hin Hc Hs. apply map_sum_move. intros k. by apply (send_value (f := wr_amount_to_transfer) sig _ _ _ _ ixs). Qed.

Lemma step_submitted_withdrawal s L acc sig m signers ixs t s' :
  min_inv s L acc ->
  process_transaction_submitted s sig m signers (PurposeWithdrawal ixs) t = Done s' ->
  step_ok s L acc (SubmittedTransaction sig m signers (PurposeWithdrawal ixs)) s'.
Proof.
  intros [H1 H2 H3 H4 H5 H6] (s1 & tx & Hns & Hnf & Hsub & Hsend & ->)%process_submitted_withdrawal_Done.
  apply send_nonce_withdrawal_Done in Hsend as (a & cr & bound & c & st & Ha & Hcr & -> & Hbd & _ & _ & Hl & -> & ->).
  apply send_loop in Hl as (Hnd & Hin & Hc & Hst). exists L. split_and!.
  - split; [exact H1 | exact (txs_insert _ _ _ _ _ H2 Hns Hnf) | | | |].
    + exact (sweeps_inv_withdrawal _ _ _ sig _ m a (ctx_nonce_value cr) t H3 eq_refl Hsub).
    + exact (nonce_send _ _ _ _ m _ _ t H4 Hcr Hsub).
    + exact (requests_send _ _ _ _ _ m _ _ t _ _ H5 Hcr Hsub Hc Hst).
    + exact (buckets_send _ sig _ _ _ _ _ _ _ _ H6 Hin Hc Hst).
  - read_upd. lia.
  - intros rcv n [B1 B2 B3] _. cbn [received_of created_of]. rewrite !Z.add_0_r. split; [|exact B2 | exact B3].
    read_upd. unfold outgoing in *. read_upd. pose proof (sum_send sig _ _ _ _ _ Hin Hc Hst). lia.
Qed.

Lemma sum_finalize sig (st su : Sent) :
  (forall b, is_Some (st !! b) -> su !! b = None) ->
  map_sum sent_amount (not_sent_with sig st) + map_sum sent_amount (sent_with sig st ∪ su) =
  map_sum sent_amount st + map_sum sent_amount su.
Proof. intros Hd. apply map_sum_move. intros k. apply finalize_value, Hd. Qed.

Lemma step_succeeded s L acc sig s' :
  min_inv s L acc -> next_id (deposits s) < u64_max -> process_transaction_succeeded s sig = Done s' ->
  step_ok s L acc (SucceededTransaction sig) s'.
Proof.
  intros [H1 H2 H3 H4 H5 H6] Hn (tx & d & pool & Hnf & Hsub & Hns & Hf & ->)%process_succeeded_Done.
  assert (forall rcv n L' d', lsum L' = lsum L -> acct_inv s L rcv n ->
    acct_inv (s <| submitted_transactions := (iom_remove (submitted_transactions s) sig).1 |>
           <| deposits := d' |> <| nonce_pool := pool |>
           <| succeeded_transactions := {[sig]} ∪ succeeded_transactions s |>
           <| successful_withdrawal_requests :=
                sent_with sig (sent_withdrawal_requests s) ∪ successful_withdrawal_requests s |>
           <| sent_withdrawal_requests := not_sent_with sig (sent_withdrawal_requests s) |>) L' rcv n) as Hacct.
  { intros rcv n L' d' HL [B1 B2 B3]. split; [|rewrite HL; exact B2 | exact B3]. unfold outgoing in B1.
    change (balance s = rcv - (map_sum pending_amount (created_withdrawal_requests s)
      + map_sum sent_amount (not_sent_with sig (sent_withdrawal_requests s))
      + map_sum sent_amount (sent_with sig (sent_withdrawal_requests s) ∪ successful_withdrawal_requests s)
      + map_sum sent_amount (failed_withdrawal_requests s)) - BATCH_WITHDRAWAL_TX_FEE * n).
    pose proof (sum_finalize sig (sent_withdrawal_requests s) (successful_withdrawal_requests s)
      (fun b Hs => proj1 (proj1 (buckets_disjoint _ _ _ _ _ _ b H6) Hs))). lia. }
  destruct tx as [h|m a v t]; destruct Hf as [Hf ->].
  - exists (relabel (to_finalized sig) L). split_and!.
    + split.
      * exact (finalize_implements _ _ _ _ H1 Hf).
      * exact (txs_succeed _ _ _ _ _ H2 Hsub).
      * exact (sweeps_inv_finalize _ _ _ _ _ H3 Hf).
      * exact (nonce_inv_ext _ _ _ _ H4 (no_withdrawal_remove _ _ _ Hsub)).
      * exact (requests_finalize _ _ _ _ _ H5).
      * exact (buckets_succeed _ _ _ _ _ _ _ H6).
    + read_upd. apply finalize_swept_Done in Hf as (sw & _ & _ & _ & ->). read_upd. lia.
    + intros rcv n HA _. cbn [received_of created_of]. rewrite !Z.add_0_r. apply Hacct; [solve_same_amount | done].
  - exists L. split_and!.
    + split.
      * exact H1.
      * exact (txs_succeed _ _ _ _ _ H2 Hsub).
      * exact (sweeps_inv_settle _ _ _ _ _ _ _ _ _ H3 Hsub (union_subseteq_r _ _)).
      * exact (nonce_free _ _ _ _ _ _ _ _ _ H4 Hsub Hf).
      * exact (requests_finalize _ _ _ _ _ H5).
      * exact (buckets_succeed _ _ _ _ _ _ _ H6).
    + read_upd. lia.
    + intros rcv n HA _. cbn [received_of created_of]. rewrite !Z.add_0_r. by apply Hacct.
Qed.

Lemma step_failed s L acc sig s' :
  min_inv s L acc -> next_id (deposits s) < u64_max -> process_transaction_failed s sig = Done s' ->
  step_ok s L acc (FailedTransaction sig) s'.
Proof.
  intros [H1 H2 H3 H4 H5 H6] Hn (tx & d & pool & Hns & Hsub & Hnf & Hf & ->)%process_failed_Done.
  assert (forall rcv n L' d', lsum L' = lsum L -> acct_inv s L rcv n ->
    acct_inv (s <| submitted_transactions := (iom_remove (submitted_transactions s) sig).1 |>
           <| deposits := d' |> <| nonce_pool := pool |>
           <| failed_transactions := (iom_insert (failed_transactions s) sig tx).1 |>
           <| failed_withdrawal_requests :=
                sent_with sig (sent_withdrawal_requests s) ∪ failed_withdrawal_requests s |>
           <| sent_withdrawal_requests := not_sent_with sig (sent_withdrawal_requests s) |>) L' rcv n) as Hacct.
  { intros rcv n L' d' HL [B1 B2 B3]. split; [|rewrite HL; exact B2 | exact B3]. unfold outgoing in B1.
    change (balance s = rcv - (map_sum pending_amount (created_withdrawal_requests s)
      + map_sum sent_amount (not_sent_with sig (sent_withdrawal_requests s))
      + map_sum sent_amount (successful_withdrawal_requests s)
      + map_sum sent_amount (sent_with sig (sent_withdrawal_requests s) ∪ failed_withdrawal_requests s))
      - BATCH_WITHDRAWAL_TX_FEE * n).
    pose proof (sum_finalize sig (sent_withdrawal_requests s) (failed_withdrawal_requests s)
      (fun b Hs => proj1 (proj2 (proj1 (buckets_disjoint _ _ _ _ _ _ b H6) Hs)))). lia. }
  destruct tx as [h|m a v t]; destruct Hf as [Hf ->].
  - exists (relabel (to_dropped sig) L). split_and!.
    + split.
      * exact (drop_implements _ _ _ _ H1 Hf).
      * exact (txs_fail _ _ _ _ _ H2 Hsub).
      * exact (sweeps_inv_drop _ _ _ _ _ H3 Hf).
      * exact (nonce_inv_ext _ _ _ _ H4 (no_withdrawal_remove _ _ _ Hsub)).
      * exact (requests_finalize _ _ _ _ _ H5).
      * exact (buckets_fail _ _ _ _ _ _ _ H6).
    + read_upd. rewrite (drop_next_id _ _ _ Hf). lia.
    + intros rcv n HA _. cbn [received_of created_of]. rewrite !Z.add_0_r. apply Hacct; [solve_same_amount | done].
  - exists L. split_and!.
    + split.
      * exact H1.
      * exact (txs_fail _ _ _ _ _ H2 Hsub).
      * exact (sweeps_inv_settle _ _ _ _ _ _ _ _ _ H3 Hsub (reflexivity _)).
      * exact (nonce_free _ _ _ _ _ _ _ _ _ H4 Hsub Hf).
      * exact (requests_finalize _ _ _ _ _ H5).
      * exact (buckets_fail _ _ _ _ _ _ _ H6).
    + read_upd. lia.
    + intros rcv n HA _. cbn [received_of created_of]. rewrite !Z.add_0_r. by apply Hacct.
Qed.

Lemma step_expired s L acc sig s' :
  min_inv s L acc -> process_transaction_expired s sig = Done s' -> step_ok s L acc (ExpiredTransaction sig) s'.
Proof.
  intros [H1 H2 H3 H4 H5 H6] (h & d & Hns & Hnf & Hsub & Hd & ->)%process_expired_Done.
  exists (relabel (to_dropped sig) L). split_and!.
  - split.
    + exact (drop_implements _ _ _ _ H1 Hd).
    + exact (txs_remove _ _ _ _ H2).
    + exact (sweeps_inv_drop _ _ _ _ _ H3 Hd).
    + exact (nonce_inv_ext _ _ _ _ H4 (no_withdrawal_remove _ _ _ Hsub)).
    + exact (requests_sub_ext _ _ _ _ _ H5 (no_withdrawal_remove _ _ _ Hsub)).
    + exact H6.
  - read_upd. rewrite (drop_next_id _ _ _ Hd). lia.
  - intros rcv n [B1 B2 B3] _. cbn [received_of created_of]. rewrite !Z.add_0_r. split; [exact B1 | | exact B3].
    read_upd. replace (lsum (relabel (to_dropped sig) L)) with (lsum L); [exact B2|]. symmetry. solve_same_amount.
Qed.

Lemma step_upgrade_event s L acc args s' :
  min_inv s L acc -> upgrade s args = Ok s' -> step_ok s L acc (Upgrade args) s'.
Proof.
  intros [H1 H2 H3 H4 H5 H6] (pool & Hadd & -> & _)%upgrade_Ok. exists L. split_and!.
  - split; [exact H1 | exact H2 | exact H3 | | exact H5 | exact H6]. unfold adds_accounts in Hadd.
    destruct (ua_nonce_accounts_to_add args) as [strs|].
    + destruct Hadd as (addresses & _ & _ & Hadd). exact (nonce_add _ _ _ _ _ H4 Hadd).
    + subst pool. exact H4.
  - change (next_id (deposits s) <= next_id (deposits s) + 1). lia.
  - intros rcv n [B1 B2 B3] _. cbn [received_of created_of]. rewrite !Z.add_0_r. split; [exact B1 | exact B2 | exact B3].
Qed.

Lemma step_key s L acc pk cc s' :
  min_inv s L acc -> cache_minter_public_key s (mkSchnorrPublicKey pk cc) = Done s' ->
  step_ok s L acc (MinterPublicKeyFetched pk cc) s'.
Proof.
  intros [H1 H2 H3 H4 H5 H6] [[_ ->]|[_ ->]]%cache_key_Done; exists L.
  all: (split_and!; [split; [exact H1 | exact H2 | exact H3 | exact H4 | exact H5 | exact H6] | read_upd; lia |]).
  all: intros rcv n [B1 B2 B3] _; cbn [received_of created_of]; rewrite !Z.add_0_r; split; [exact B1 | exact B2 | exact B3].
Qed.

(** Every event preserves the invariants. *)
Lemma step_event_ok s L acc ev t s' :
  min_inv s L acc -> next_id (deposits s) < u64_max ->
  (forall b, b ∈ accepted_of ev -> b ∉ acc) ->
  apply_state_transition s ev t = Done s' -> step_ok s L acc ev s'.
Proof.
  intros HI Hn Hacc. destruct ev; cbn [apply_state_transition].
  - done.
  - destruct (upgrade s args) as [s1|] eqn:Hu; [|done]. intros Hs%Done_inv. subst s1. by apply step_upgrade_event.
  - apply step_accepted; [done|]. apply Hacc. left.
  - destruct message as [m]. destruct purpose as [ids h|ixs]; [by apply step_submitted_sweep | by apply step_submitted_withdrawal].
  - by apply step_succeeded.
  - by apply step_failed.
  - by apply step_expired.
  - by apply step_queued.
  - by apply step_credited.
  - by apply step_quarantined_sweep.
  - by apply step_key.
  - by apply step_minted.
  - by apply step_quarantined_mint.
  - by apply step_created.
Qed.
End Steps.
