(* ===== verification/Safety.v ===== *)
(** What holds of every state an execution of the minter reaches: the
    invariants of [Invariants] hold by rule induction on executions, and with
    them each accepted withdrawal is in one bucket, a nonce account serves one
    transaction, finalizing a transaction never panics and the balance
    accounts for every lamport received and sent. *)
From S2P Require Import Prelude Platform ConcretePlatform InsertionOrderedMap TimedSizedMap Watchlist NoncePool Events Sweeps Deposits SolTransfer MinterState Replay Invariants.

(** ** Quantities of an event log *)
Definition log_sum (f : EventType -> Z) (log : list Event) : Z := zsum (map (fun e => f (ev_payload e)) log).
Definition received_in : list Event -> Z := log_sum received_of.
Definition created_in : list Event -> Z := log_sum created_of.
Definition accepted_in (log : list Event) : list LedgerBurnIndex :=
  concat (map (fun e => accepted_of (ev_payload e)) log).

#[export] Instance event_fits_dec s ev : Decision (event_fits s ev).
Proof. destruct ev; cbn; apply _. Defined.

Section Fits.
Context `{Platform}.

(** No event of the log overflows a 64-bit amount when it is applied. *)
Fixpoint fits_from (s : State) (events : list Event) : bool :=
  match events with
  | [] => true
  | ev :: rest =>
      bool_decide (event_fits s (ev_payload ev)) &&
      match apply_state_transition s (ev_payload ev) (ev_timestamp ev) with
      | Done s' => fits_from s' rest
      | Panic _ => true
      end
  end.

Definition log_fits (log : list Event) : bool :=
  match replay_events (take 1 log) with
  | Done s => fits_from s (drop 1 log)
  | Panic _ => true
  end.

Lemma fits_from_snoc events ev : forall s s',
  foreach (fun s event => apply_state_transition s (ev_payload event) (ev_timestamp event)) s events = Done s' ->
  fits_from s (events ++ [ev]) = fits_from s events && bool_decide (event_fits s' (ev_payload ev)).
Proof.
  induction events as [|e events IH]; intros s s' Hrun; cbn [foreach] in Hrun; cbn [app fits_from].
  - apply Done_inv in Hrun. subst s'. destruct (apply_state_transition _ _ _); by rewrite andb_true_r, ?andb_true_l.
  - apply bind_Done in Hrun as (s1 & H1 & Hrun). rewrite H1, (IH _ _ Hrun). by rewrite andb_assoc.
Qed.

Lemma log_fits_snoc log ev s :
  replay_events log = Done s -> log_fits (log ++ [ev]) = log_fits log && bool_decide (event_fits s (ev_payload ev)).
Proof.
  intros Hr. destruct log as [|first rest]; [done|]. unfold log_fits. cbn [take drop app]. rewrite !take_0, !drop_0.
  cbn [replay_events] in *. apply bind_Done in Hr as (s0 & H0 & Hr). rewrite H0. cbn [mbind outcome_bind foreach].
  by apply fits_from_snoc.
Qed.

(** ** The invariant of executions *)
Record sized (log : list Event) : Prop := {
  sz_length : Z.of_nat (length log) <= u64_max;
  sz_accepted : NoDup (accepted_in log)
}.

Definition run_inv (s : State) (log : list Event) : Prop :=
  exists L, min_inv s L (accepted_in log) /\ next_id (deposits s) < Z.of_nat (length log) /\
    (log_fits log = true -> acct_inv s L (received_in log) (created_in log)).

Lemma accepted_in_snoc log ev t : accepted_in (log ++ [mkEvent t ev]) = accepted_in log ++ accepted_of ev.
Proof. unfold accepted_in. rewrite map_app, concat_app. cbn. by rewrite app_nil_r. Qed.

Lemma log_sum_snoc f log ev t : log_sum f (log ++ [mkEvent t ev]) = log_sum f log + f ev.
Proof. unfold log_sum. rewrite map_app, zsum_app. cbn. lia. Qed.

Lemma sized_snoc log ev t : sized (log ++ [mkEvent t ev]) ->
  sized log /\ Z.of_nat (length log) < u64_max /\ forall b, b ∈ accepted_of ev -> b ∉ accepted_in log.
Proof.
  intros [Hl Hn]. rewrite length_app in Hl. rewrite accepted_in_snoc in Hn. apply NoDup_app in Hn as (H1 & H2 & _).
  cbn in Hl. split_and!; [split; [lia | done] | lia |]. intros b Hb Ha. exact (H2 b Ha Hb).
Qed.

Lemma min_inv_accepted s L acc acc' :
  (forall b, b ∈ acc <-> b ∈ acc') -> min_inv s L acc -> min_inv s L acc'.
Proof.
  intros Hacc [H1 H2 H3 H4 H5 H6]. split; [done..|]. intros b. rewrite (H6 b).
  destruct (decide (b ∈ acc)) as [Hb|Hb], (decide (b ∈ acc')) as [Hb'|Hb']; rewrite Hacc in Hb; done.
Qed.

Lemma implements_watchlist d d' L :
  implements d L -> erase_deposits d' = erase_deposits d -> wl_wf (watchlist d') -> implements d' L.
Proof.
  intros HI He Hw. destruct d, d'. injection He as -> -> -> -> -> -> -> -> -> -> ->.
  destruct HI as [H1 H2 H3 H4 H5 H6 H7 H8 H9 H10]. split; [exact H1 | exact H2 | exact H3 | exact H4 | exact H5 | exact H6 | exact H7 | exact H8 | exact H9 | exact Hw].
Qed.

(** The recorded fields of states that differ in transient data only. *)
Lemma erase_eq_inv s s' : erase s' = erase s ->
  erase_deposits (deposits s') = erase_deposits (deposits s) /\
  submitted_transactions s' = submitted_transactions s /\ succeeded_transactions s' = succeeded_transactions s /\
  failed_transactions s' = failed_transactions s /\ nonce_pool s' = nonce_pool s /\
  created_withdrawal_txs s' = created_withdrawal_txs s /\
  pending_withdrawal_requests s' = pending_withdrawal_requests s /\
  created_withdrawal_requests s' = created_withdrawal_requests s /\
  sent_withdrawal_requests s' = sent_withdrawal_requests s /\
  successful_withdrawal_requests s' = successful_withdrawal_requests s /\
  failed_withdrawal_requests s' = failed_withdrawal_requests s /\
  balance s' = balance s /\ collected_automatic_deposit_fees s' = collected_automatic_deposit_fees s.
Proof.
  intros He. split_and!.
  - exact (f_equal deposits He).
  - exact (f_equal submitted_transactions He).
  - exact (f_equal succeeded_transactions He).
  - exact (f_equal failed_transactions He).
  - exact (f_equal nonce_pool He).
  - exact (f_equal created_withdrawal_txs He).
  - exact (f_equal pending_withdrawal_requests He).
  - exact (f_equal created_withdrawal_requests He).
  - exact (f_equal sent_withdrawal_requests He).
  - exact (f_equal successful_withdrawal_requests He).
  - exact (f_equal failed_withdrawal_requests He).
  - exact (f_equal balance He).
  - exact (f_equal collected_automatic_deposit_fees He).
Qed.

Lemma min_inv_transient s s' L acc :
  min_inv s L acc -> erase s' = erase s -> wl_wf (watchlist (deposits s')) -> min_inv s' L acc.
Proof.
  intros [H1 H2 [H3 H3'] H4 H5 H6] (He & E1 & E2 & E3 & E4 & E5 & E6 & E7 & E8 & E9 & E10 & _)%erase_eq_inv Hw.
  split; rewrite ?E1, ?E2, ?E3, ?E4, ?E5, ?E6, ?E7, ?E8, ?E9, ?E10; try done.
  - by apply (implements_watchlist (deposits s)).
  - assert (swept (deposits s') = swept (deposits s)) as Es by exact (f_equal swept He).
    assert (finalized (deposits s') = finalized (deposits s)) as Ef by exact (f_equal finalized He).
    split; [by rewrite Es | by rewrite Ef].
Qed.

Lemma acct_inv_transient s s' L rcv n :
  acct_inv s L rcv n -> erase s' = erase s -> acct_inv s' L rcv n.
Proof.
  intros [H1 H2 H3] (_ & _ & _ & _ & _ & _ & _ & E7 & E8 & E9 & E10 & E11 & E12)%erase_eq_inv.
  split; unfold outgoing in *; rewrite ?E7, ?E8, ?E9, ?E10, ?E11, ?E12; done.
Qed.

Lemma event_fits_transient s s' ev : erase s' = erase s -> event_fits s' ev -> event_fits s ev.
Proof.
  intros (_ & _ & _ & _ & _ & _ & E6 & _ & _ & _ & _ & E11 & _)%erase_eq_inv.
  destruct ev; cbn; rewrite ?E6, ?E11; done.
Qed.

Lemma run_inv_transient s s' log :
  run_inv s log -> erase s' = erase s -> wl_wf (watchlist (deposits s')) -> run_inv s' log.
Proof.
  intros (L & HI & Hn & HA) He Hw. exists L. split_and!; [by eapply min_inv_transient | |].
  - pose proof (erase_eq_inv _ _ He) as (Hd & _). assert (next_id (deposits s') = next_id (deposits s)) as -> by exact (f_equal next_id Hd). done.
  - intros Hf. by eapply acct_inv_transient; [apply HA|].
Qed.

Lemma run_inv_event s log ev now s' :
  run_inv s log -> replay_events log = Done (erase s) -> sized (log ++ [mkEvent now ev]) ->
  apply_state_transition s ev now = Done s' -> run_inv s' (log ++ [mkEvent now ev]).
Proof.
  intros (L & HI & Hn & HA) Hrep (Hsz & Hlen & Hfresh)%sized_snoc Hev.
  destruct (step_event_ok s L (accepted_in log) ev now s' HI ltac:(lia) Hfresh Hev) as (L' & HI' & Hn' & HA').
  exists L'. split_and!.
  - eapply min_inv_accepted; [|exact HI']. intros b. rewrite accepted_in_snoc, !elem_of_app. tauto.
  - rewrite length_app. cbn. lia.
  - rewrite (log_fits_snoc _ _ _ Hrep), andb_true_iff, bool_decide_eq_true. cbn [ev_payload]. intros [Hf Hfit].
    unfold received_in, created_in. rewrite !log_sum_snoc. apply HA'; [by apply HA|].
    by apply (event_fits_transient s (erase s)).
Qed.

Lemma state_try_from_fields args s : state_try_from args = Ok s ->
  exists pool, np_new (default [] (match parse_nonce_accounts (ia_nonce_accounts args) with Ok l => Some l | Err _ => None end)) = Ok pool /\
  s = mkState None (ia_master_key_name args) (ia_ledger_canister_id args) (ia_sol_rpc_canister_id args)
    (ia_solana_network args) (ia_withdrawal_fee args) (ia_minimum_withdrawal_amount args)
    (ia_minimum_deposit_amount args) (ia_deposit_sol_required_cycles args) (ia_deposit_sol_fee args)
    (ia_automatic_deposit_fee args) 0 ∅ ∅ deposits_default ∅ ∅ ∅ ∅ ∅ iom_new ∅ ∅ iom_new pool ∅ 0 /\
  validate s = Ok tt.
Proof.
  unfold state_try_from. destruct (parse_nonce_accounts _) as [l|]; cbn [result_bind]; [|done].
  destruct (np_new l) as [pool|] eqn:Hp; cbn [map_err result_bind]; [|done].
  match goal with |- context [validate ?s0] => destruct (validate s0) as [[]|] eqn:Hv end; cbn [result_bind]; [|done].
  intros [= <-]. by exists pool.
Qed.

Lemma np_new_free l pool a acc : np_new l = Ok pool -> np_accounts pool !! a = Some acc -> na_state acc = Free.
Proof.
  intros (_ & _ & Hlk)%np_add_accounts_Ok. rewrite Hlk. case_decide; [by intros [= <-] | done].
Qed.

Lemma run_inv_init args now s : state_try_from args = Ok s -> run_inv s [mkEvent now (Init args)].
Proof.
  intros (pool & Hp & -> & _)%state_try_from_fields. exists ∅. split_and!; [|cbn; lia|].
  - split; cbn.
    + apply implements_default.
    + split; [by intros ? [? ?] | done].
    + split; cbn; [|by intros ? []]. intros sig. split; [by intros [? ?%lookup_empty_Some] | by intros (? & ?)].
    + split; cbn; try done.
      intros a. split; [|by intros [[? ?]|(? & ? & ? & ? & ?)]].
      intros (acc & Hacc & Hb). by rewrite (np_new_free _ _ _ _ Hp Hacc) in Hb.
    + split; cbn; try done. intros b. split; [by intros [? ?] | by intros (? & ? & ? & ?)].
    + intros b. cbn. rewrite decide_False by apply not_elem_of_nil. done.
  - intros _. split; cbn; [done | | lia]. unfold lsum. rewrite map_sum_empty. lia.
Qed.

(** Every reachable state satisfies the invariant. *)
Lemma minter_run_inv c : minter_run c -> sized c.2 -> run_inv c.1 c.2.
Proof.
  induction 1 as [args now c Hinit | c c' Hrun IH Hstep]; intros Hsz.
  - unfold init in Hinit. destruct (state_try_from args) as [s|] eqn:Hs; [|done]. apply Done_inv in Hinit. subst c.
    by apply run_inv_init.
  - pose proof (minter_run_replay _ Hrun) as Hrep.
    destruct Hstep as [s log ev now s' log' Hev | s log s' He Hwf | s log args now s' log' Hup]; cbn [fst snd] in *.
    + apply bind_Done in Hev as (s1 & Hs1 & Hlog). apply Done_inv in Hlog. injection Hlog as <- <-.
      apply run_inv_event with s; [|done..]. apply IH. by apply sized_snoc in Hsz as [? _].
    + apply (run_inv_transient s); [by apply IH | done | done].
    + unfold post_upgrade in Hup. rewrite Hrep in Hup. cbn [mbind outcome_bind] in Hup. destruct args as [args|].
      * apply bind_Done in Hup as (s1 & Hs1 & Hlog). apply Done_inv in Hlog. injection Hlog as <- <-.
        apply run_inv_event with (erase s); [| by rewrite erase_idem | done | done].
        apply (run_inv_transient s); [| apply erase_idem | apply watchlist_default_wf].
        apply IH. by apply sized_snoc in Hsz as [? _].
      * apply Done_inv in Hup. injection Hup as <- <-.
        apply (run_inv_transient s); [by apply IH | apply erase_idem | apply watchlist_default_wf].
Qed.
End Fits.

(** ** What an event does to the deposits *)
Section Moves.
Context `{Platform}.
(** The event that performs an operation on the deposits. *)
Definition event_performs (ev : EventType) (op : DepositOp) : Prop :=
  match op with
  | OpQueue i dep _ => ev = queued_event (i, dep)
  | OpSweep ids _ m sig => exists signers h, ev = SubmittedTransaction sig (Legacy m) signers (PurposeSweepDeposit ids h)
  | OpDropSwept sig => ev = FailedTransaction sig \/ ev = ExpiredTransaction sig
  | OpFinalizeSwept sig => ev = SucceededTransaction sig
  | OpCreditSweep sig ms _ => exists r, ev = CreditedSweep sig r ms
  | OpQuarantineSweep sig => ev = QuarantinedSweep sig
  | OpMint i ix => ev = MintedSweptDeposit i ix
  | OpQuarantinePendingMint i => ev = QuarantinedPendingMint i
  end.

(** An event performs at most one operation on the deposits. *)
Lemma event_deposit_op s ev t s' :
  apply_state_transition s ev t = Done s' ->
  deposits s' = deposits s \/ exists op, deposit_op (deposits s) op = Done (deposits s') /\ event_performs ev op.
Proof.
  destruct ev; cbn [apply_state_transition].
  - done.
  - destruct (upgrade s args) as [s1|] eqn:Hu; [|done]. intros Hs%Done_inv. subst s1.
    apply upgrade_Ok in Hu as (pool & _ & -> & _). by left.
  - intros (_ & ->)%process_accepted_Done. by left.
  - destruct message as [m]. destruct purpose as [ids h|ixs].
    + intros (key & d & r & _ & _ & _ & _ & Hd & ->)%process_submitted_sweep_Done. right.
      exists (OpSweep ids (minter_address key) m signature). cbn [deposit_op]. rewrite Hd. split; [done | by exists signers, h].
    + intros (s1 & tx & _ & _ & _ & Hs & ->)%process_submitted_withdrawal_Done.
      apply send_nonce_withdrawal_Done in Hs as (a & cr & b & c & st & _ & _ & _ & _ & _ & _ & _ & _ & ->). by left.
  - intros (tx & d & pool & _ & _ & _ & Hf & ->)%process_succeeded_Done. destruct tx; destruct Hf as [Hf Hd].
    + right. by exists (OpFinalizeSwept signature).
    + left. done.
  - intros (tx & d & pool & _ & _ & _ & Hf & ->)%process_failed_Done. destruct tx; destruct Hf as [Hf Hd].
    + right. exists (OpDropSwept signature). split; [done | by left].
    + left. done.
  - intros (h & d & _ & _ & _ & Hd & ->)%process_expired_Done. right. exists (OpDropSwept signature). split; [done | by right].
  - intros (d & Hd & ->)%deposit_update_Done. right.
    by exists (OpQueue deposit_id (mkQueuedDeposit account address balance deposit_fee) t).
  - intros (d & sw & Hd & _ & _ & ->)%process_credited_Done. right. exists (OpCreditSweep signature mints t).
    cbn [deposit_op]. rewrite Hd. split; [done | by eexists].
  - intros (d & Hd & ->)%deposit_update_Done. right. by exists (OpQuarantineSweep signature).
  - intros [(_ & ->)|(_ & ->)]%cache_key_Done; by left.
  - intros (d & Hd & ->)%deposit_update_Done. right. by exists (OpMint deposit_id mint_block_index).
  - intros (d & Hd & ->)%deposit_update_Done. right. by exists (OpQuarantinePendingMint deposit_id).
  - intros (pool & p & c & tot & _ & _ & _ & _ & ->)%process_created_Done. by left.
Qed.

(** An operation of an event, on the lifecycle the deposits implement. *)
Lemma event_lifecycle s L acc ev t s' :
  min_inv s L acc -> next_id (deposits s) < u64_max -> apply_state_transition s ev t = Done s' ->
  (deposits s' = deposits s /\ implements (deposits s') L) \/
  exists op, deposit_op (deposits s) op = Done (deposits s') /\ event_performs ev op /\ implements (deposits s') (lifecycle_op L op).
Proof.
  intros HI Hn Hs. pose proof (mi_deposits _ _ _ HI) as HD. apply event_deposit_op in Hs as [Hd|(op & Hop & Hperf)].
  - left. split; [done | by rewrite Hd].
  - right. exists op. split_and!; [done..|]. by eapply deposit_op_implements.
Qed.
End Moves.

(** ** Withdrawals *)

(** The status read off the five buckets. *)
Definition status_at (p c : option PendingWithdrawalRequest) (st su fa : option SentWithdrawalRequest) : WithdrawSolStatus :=
  match p, c, st, su, fa with
  | Some _, _, _, _, _ => WithdrawalPending
  | _, Some _, _, _, _ => WithdrawalPending
  | _, _, Some r, _, _ => WithdrawalTxSent (sent_signature r)
  | _, _, _, Some r, _ => WithdrawalTxSuccess (sent_signature r)
  | _, _, _, _, Some r => WithdrawalTxFailure (sent_signature r)
  | None, None, None, None, None => WithdrawalNotFound
  end.

Lemma withdrawal_status_at s b :
  withdrawal_status s b = status_at (pending_withdrawal_requests s !! b) (created_withdrawal_requests s !! b)
    (sent_withdrawal_requests s !! b) (successful_withdrawal_requests s !! b) (failed_withdrawal_requests s !! b).
Proof.
  unfold withdrawal_status, status_at. destruct (pending_withdrawal_requests s !! b); [done|].
  rewrite bool_decide_false by (by intros []). destruct (created_withdrawal_requests s !! b); [done|].
  rewrite bool_decide_false by (by intros []). cbn.
  by destruct (sent_withdrawal_requests s !! b), (successful_withdrawal_requests s !! b), (failed_withdrawal_requests s !! b).
Qed.

(** The steps a withdrawal can take, with the event that causes each. *)
Inductive status_step (b : LedgerBurnIndex) : EventType -> WithdrawSolStatus -> WithdrawSolStatus -> Prop :=
  | status_accept r : wr_burn_block_index r = b ->
      status_step b (AcceptedWithdrawalRequest r) WithdrawalNotFound WithdrawalPending
  | status_send sig m signers ixs : b ∈ ixs ->
      status_step b (SubmittedTransaction sig m signers (PurposeWithdrawal ixs)) WithdrawalPending (WithdrawalTxSent sig)
  | status_succeed sig : status_step b (SucceededTransaction sig) (WithdrawalTxSent sig) (WithdrawalTxSuccess sig)
  | status_fail sig : status_step b (FailedTransaction sig) (WithdrawalTxSent sig) (WithdrawalTxFailure sig).

Definition status_moves (b : LedgerBurnIndex) (ev : EventType) (s s' : State) : Prop :=
  withdrawal_status s' b = withdrawal_status s b \/ status_step b ev (withdrawal_status s b) (withdrawal_status s' b).

(** Looking a request up after its transaction is finalized. *)
Lemma finalize_lookup sig (st su : Sent) b :
  (is_Some (st !! b) -> su !! b = None) ->
  (exists r, st !! b = Some r /\ sent_signature r = sig /\ not_sent_with sig st !! b = None /\
     (sent_with sig st ∪ su) !! b = Some r) \/
  (not_sent_with sig st !! b = st !! b /\ (sent_with sig st ∪ su) !! b = su !! b).
Proof.
  intros Hd. rewrite lookup_union. unfold sent_with, not_sent_with. rewrite !map_lookup_filter.
  destruct (st !! b) as [r|] eqn:Hr; cbn; [|right; split; [done | apply (left_id_L _ _)]].
  rewrite (Hd ltac:(eauto)). destruct (decide (sent_signature r = sig)) as [Hs|Hs].
  - left. exists r. rewrite option_guard_False by (cbn; naive_solver). rewrite option_guard_True by done. cbn. naive_solver.
  - right. rewrite option_guard_True by done. rewrite option_guard_False by done. done.
Qed.

Section Withdrawals.
Context `{Platform}.

Lemma status_succeeded s L acc sig s' b :
  min_inv s L acc -> process_transaction_succeeded s sig = Done s' -> status_moves b (SucceededTransaction sig) s s'.
Proof.
  intros HI (tx & d & pool & _ & _ & _ & _ & ->)%process_succeeded_Done. unfold status_moves.
  rewrite !withdrawal_status_at. read_upd.
  destruct (buckets_disjoint _ _ _ _ _ _ b (mi_buckets _ _ _ HI)) as [Hd _].
  destruct (finalize_lookup sig (sent_withdrawal_requests s) (successful_withdrawal_requests s) b) as [(r & Hr & <- & -> & ->)|[-> ->]].
  - intros Hs. by apply Hd.
  - destruct (Hd ltac:(eauto)) as (Hsu & Hfa & -> & ->). rewrite Hr. right. apply status_succeed.
  - by left.
Qed.

Lemma status_failed s L acc sig s' b :
  min_inv s L acc -> process_transaction_failed s sig = Done s' -> status_moves b (FailedTransaction sig) s s'.
Proof.
  intros HI (tx & d & pool & _ & _ & _ & _ & ->)%process_failed_Done. unfold status_moves.
  rewrite !withdrawal_status_at. read_upd.
  destruct (buckets_disjoint _ _ _ _ _ _ b (mi_buckets _ _ _ HI)) as [Hd _].
  destruct (finalize_lookup sig (sent_withdrawal_requests s) (failed_withdrawal_requests s) b) as [(r & Hr & <- & -> & ->)|[-> ->]].
  - intros Hs. by apply Hd.
  - destruct (Hd ltac:(eauto)) as (-> & Hfa & -> & ->). rewrite Hr. right. apply status_fail.
  - by left.
Qed.

Lemma status_submitted s L acc sig m signers ixs t s' b :
  min_inv s L acc -> process_transaction_submitted s sig m signers (PurposeWithdrawal ixs) t = Done s' ->
  status_moves b (SubmittedTransaction sig m signers (PurposeWithdrawal ixs)) s s'.
Proof.
  intros HI (s1 & tx & _ & _ & _ & Hsend & ->)%process_submitted_withdrawal_Done.
  apply send_nonce_withdrawal_Done in Hsend as (a & cr & bound & c & st & _ & _ & -> & _ & _ & _ & Hl & _ & ->).
  apply send_loop in Hl as (_ & Hin & Hc & Hst). unfold status_moves. rewrite !withdrawal_status_at. read_upd.
  rewrite Hc, Hst. case_decide as Hb; [|by left]. right. destruct (Hin b Hb) as [Hcb Hsb].
  destruct (buckets_disjoint _ _ _ _ _ _ b (mi_buckets _ _ _ HI)) as (_ & Hd & _).
  destruct (Hd Hcb) as (_ & _ & _ & ->). destruct Hcb as [r ->]. cbn. by apply status_send.
Qed.

Lemma status_created s L acc ixs a v s' b :
  min_inv s L acc -> process_transaction_created s ixs a v = Done s' ->
  withdrawal_status s' b = withdrawal_status s b.
Proof.
  intros HI (pool & p & c & tot & _ & Hl & _ & _ & ->)%process_created_Done.
  apply create_loop in Hl as (_ & Hin & _ & _ & Hp & Hc). rewrite !withdrawal_status_at. read_upd. rewrite Hp, Hc.
  case_decide as Hb; [|done]. by destruct (Hin b Hb) as [[r ->] _].
Qed.

Lemma status_accepted s L acc r t s' b :
  min_inv s L acc -> wr_burn_block_index r ∉ acc -> process_accepted_withdrawal s r t = Done s' ->
  status_moves b (AcceptedWithdrawalRequest r) s s'.
Proof.
  intros HI Hfresh [Hnone ->]%process_accepted_Done. unfold status_moves. rewrite !withdrawal_status_at. read_upd.
  destruct (decide (wr_burn_block_index r = b)) as [Hb|Hb]; [|left; by rewrite lookup_insert_ne].
  right. pose proof (mi_buckets _ _ _ HI b) as Hc. rewrite decide_False in Hc by congruence. unfold bucket_count in Hc.
  pose proof (value_at_one_range (pending_withdrawal_requests s) b).
  pose proof (value_at_one_range (created_withdrawal_requests s) b).
  pose proof (value_at_one_range (sent_withdrawal_requests s) b).
  pose proof (value_at_one_range (successful_withdrawal_requests s) b).
  pose proof (value_at_one_range (failed_withdrawal_requests s) b).
  rewrite Hb, lookup_insert_eq.
  rewrite !(proj1 (value_at_one_0 _ b)) by lia. by apply status_accept.
Qed.

Lemma status_event s L acc ev t s' b :
  min_inv s L acc -> (forall b, b ∈ accepted_of ev -> b ∉ acc) ->
  apply_state_transition s ev t = Done s' -> status_moves b ev s s'.
Proof.
  intros HI Hacc. destruct ev; cbn [apply_state_transition].
  - done.
  - destruct (upgrade s args) as [s1|] eqn:Hu; [|done]. intros Hs%Done_inv. subst s1.
    apply upgrade_Ok in Hu as (pool & _ & -> & _). by left.
  - apply (status_accepted s L acc); [done|]. apply Hacc. left.
  - destruct message as [m]. destruct purpose as [ids h|ixs]; [|by apply (status_submitted s L acc)].
    intros (key & d & r & _ & _ & _ & _ & _ & ->)%process_submitted_sweep_Done. by left.
  - by apply (status_succeeded s L acc).
  - by apply (status_failed s L acc).
  - intros (h & d & _ & _ & _ & _ & ->)%process_expired_Done. by left.
  - intros (d & _ & ->)%deposit_update_Done. by left.
  - intros (d & sw & _ & _ & _ & ->)%process_credited_Done. by left.
  - intros (d & _ & ->)%deposit_update_Done. by left.
  - intros [[_ ->]|[_ ->]]%cache_key_Done; by left.
  - intros (d & _ & ->)%deposit_update_Done. by left.
  - intros (d & _ & ->)%deposit_update_Done. by left.
  - intros Hc. left. by apply (status_created s L acc burn_indices nonce_account nonce_value).
Qed.
End Withdrawals.

(** ** Properties *)
Lemma example_sized : sized example_log.
Proof. split; [vm_compute; discriminate|]. apply (bool_decide_unpack (NoDup _)). vm_compute. exact I. Qed.

(** C14: in every reachable state each withdrawal request the log accepted is
    in exactly one of the five buckets, a burn index that was never accepted
    is in none, and [withdrawal_status] answers not-found exactly for those. *)
Theorem withdrawal_in_exactly_one_bucket `{!Platform} s log b :
  minter_run (s, log) -> sized log ->
  bucket_count (pending_withdrawal_requests s) (created_withdrawal_requests s) (sent_withdrawal_requests s)
    (successful_withdrawal_requests s) (failed_withdrawal_requests s) b
    = (if decide (b ∈ accepted_in log) then 1 else 0) /\
  (withdrawal_status s b = WithdrawalNotFound <-> b ∉ accepted_in log).
Proof.
  intros Hrun Hsz. destruct (minter_run_inv _ Hrun Hsz) as (L & HI & _). cbn [fst snd] in HI.
  pose proof (mi_buckets _ _ _ HI b) as Hb. split; [exact Hb|]. unfold bucket_count in Hb.
  rewrite withdrawal_status_at. unfold status_at, value_at, one in *.
  destruct (pending_withdrawal_requests s !! b), (created_withdrawal_requests s !! b), (sent_withdrawal_requests s !! b),
    (successful_withdrawal_requests s !! b), (failed_withdrawal_requests s !! b); cbn in Hb; case_decide; (done || lia).
Qed.

Lemma withdrawal_in_exactly_one_bucket_witness :
  bucket_count (pending_withdrawal_requests example_state) (created_withdrawal_requests example_state)
    (sent_withdrawal_requests example_state) (successful_withdrawal_requests example_state)
    (failed_withdrawal_requests example_state) 10 = 1.
Proof.
  refine (proj1 (withdrawal_in_exactly_one_bucket example_state example_log 10 example_run example_sized)).
Defined.

(** C15: a withdrawal moves forward only, and only by its own events: it is
    pending once accepted, sent with the signature of the submitted
    transaction that serves it, and successful or failed once that same
    transaction is; a successful or failed withdrawal keeps its status under
    every further event. *)
Theorem withdrawal_status_moves_forward `{!Platform} s log ev now s' b :
  minter_run (s, log) -> process_event s log ev now = Done (s', record_event log ev now) ->
  sized (record_event log ev now) ->
  (withdrawal_status s' b = withdrawal_status s b \/
   status_step b ev (withdrawal_status s b) (withdrawal_status s' b)) /\
  (forall sig, withdrawal_status s b = WithdrawalTxSuccess sig \/ withdrawal_status s b = WithdrawalTxFailure sig ->
     withdrawal_status s' b = withdrawal_status s b).
Proof.
  intros Hrun Hev (Hsz & _ & Hfresh)%sized_snoc. destruct (minter_run_inv _ Hrun Hsz) as (L & HI & _).
  apply bind_Done in Hev as (s1 & Hs1 & Hlog). apply Done_inv in Hlog. injection Hlog as ->.
  pose proof (status_event s L _ ev now s' b HI Hfresh Hs1) as Hm. split; [exact Hm|]. intros sig Hfin.
  destruct Hm as [Heq|Hstep]; [done|]. destruct Hstep; destruct Hfin; discriminate.
Qed.

(** The example execution stopped before its last event. *)
Definition example_prefix : list Event := example_take 13.
Definition example_prefix_state : State := example_state_at 13.
Lemma example_prefix_run : minter_run (example_prefix_state, example_prefix).
Proof. apply replay_run. vm_compute. reflexivity. Qed.
Lemma example_prefix_sized : sized example_prefix.
Proof. split; [vm_compute; discriminate|]. apply (bool_decide_unpack (NoDup _)). vm_compute. exact I. Qed.

Lemma withdrawal_status_moves_forward_witness :
  withdrawal_status example_prefix_state 10 = WithdrawalTxSent 901 /\
  withdrawal_status example_state 10 = WithdrawalTxSuccess 901 /\
  (withdrawal_status example_state 10 = withdrawal_status example_prefix_state 10 \/
   status_step 10 (SucceededTransaction 901) (withdrawal_status example_prefix_state 10) (withdrawal_status example_state 10)).
Proof.
  split; [vm_compute; reflexivity|]. split; [vm_compute; reflexivity|].
  refine (proj1 (withdrawal_status_moves_forward example_prefix_state example_prefix (SucceededTransaction 901) 2
    example_state 10 example_prefix_run _ _)).
  - vm_compute. reflexivity.
  - split; [vm_compute; discriminate|]. apply (bool_decide_unpack (NoDup _)). vm_compute. exact I.
Defined.

(** C13: in every reachable state a nonce account is bound exactly when it has
    a created transaction or a submitted one, never both, and at most one
    submitted transaction uses it, whose nonce value the pool remembers; so no
    two in-flight transactions share a durable nonce. *)
Theorem nonce_account_serves_one_transaction `{!Platform} s log a :
  minter_run (s, log) -> sized log ->
  let submitted sig := exists m v t, iom_get (submitted_transactions s) sig = Some (TxWithdrawal m a v t) in
  ((exists acc, np_accounts (nonce_pool s) !! a = Some acc /\ na_state acc = Bound) <->
     is_Some (created_withdrawal_txs s !! a) \/ exists sig, submitted sig) /\
  (forall sig, submitted sig -> created_withdrawal_txs s !! a = None) /\
  (forall sig sig', submitted sig -> submitted sig' -> sig = sig') /\
  (forall sig m v t, iom_get (submitted_transactions s) sig = Some (TxWithdrawal m a v t) ->
     np_has_seen (nonce_pool s) a v = true).
Proof.
  intros Hrun Hsz submitted. destruct (minter_run_inv _ Hrun Hsz) as (L & [_ _ _ [Hb He Hu _ Hs] _ _] & _).
  cbn [fst snd] in *. split_and!.
  - rewrite Hb. subst submitted. naive_solver.
  - intros sig (m & v & t & Hsig). by eapply He.
  - intros sig sig' (m & v & t & H1) (m' & v' & t' & H2). by eapply Hu.
  - intros sig m v t Hsig. by eapply Hs.
Qed.

Lemma nonce_account_serves_one_transaction_witness :
  (exists acc, np_accounts (nonce_pool example_prefix_state) !! nonce1 = Some acc /\ na_state acc = Bound) /\
  created_withdrawal_txs example_prefix_state !! nonce1 = None.
Proof.
  pose proof (nonce_account_serves_one_transaction example_prefix_state example_prefix nonce1 example_prefix_run example_prefix_sized)
    as (Hb & He & _).
  assert (exists m v t, iom_get (submitted_transactions example_prefix_state) 901 = Some (TxWithdrawal m nonce1 v t)) as Hsub.
  { eexists _, _, _. vm_compute. reflexivity. }
  split; [apply Hb; right; exists 901; exact Hsub | exact (He 901 Hsub)].
Defined.

(** Every submitted transaction can be finalized, and expires only as a sweep. *)
Lemma submitted_finalizes `{Platform} s L accepted sig tx :
  min_inv s L accepted -> iom_get (submitted_transactions s) sig = Some tx ->
  (exists s', process_transaction_succeeded s sig = Done s') /\
  (exists s', process_transaction_failed s sig = Done s') /\
  match tx with
  | TxSweepDeposit _ => exists s', process_transaction_expired s sig = Done s'
  | TxWithdrawal _ _ _ _ => exists why, process_transaction_expired s sig = Panic why
  end.
Proof.
  intros [HD [Hf _] [Hsw Hfin] [Hb _ _ _ _] _ _] Hsig. destruct (Hf sig ltac:(eauto)) as [Hns Hnf]. destruct tx as [h|m a v t].
  - destruct (proj2 (Hsw sig)) as [sw Hs]; [by exists h|].
    destruct (drop_succeeds _ L sig sw HD Hs) as [d1 Hd1].
    destruct (finalize_succeeds _ L sig sw HD Hs) as [d2 Hd2].
    { apply eq_None_not_Some. intros Hi%Hfin. done. }
    split_and!; eexists; [apply process_succeeded_Done; exists (TxSweepDeposit h), d2, (nonce_pool s)
      | apply process_failed_Done; exists (TxSweepDeposit h), d1, (nonce_pool s)
      | apply process_expired_Done; exists h, d1]; done.
  - destruct (proj2 (Hb a)) as (acc & Hacc & Hbd); [right; eauto 10|].
    assert (exists pool, np_free (nonce_pool s) a = Done pool) as [pool Hp].
    { eexists. apply np_free_Done. by exists acc. }
    split_and!; [eexists; apply process_succeeded_Done; by exists (TxWithdrawal m a v t), (deposits s), pool
      | eexists; apply process_failed_Done; by exists (TxWithdrawal m a v t), (deposits s), pool |].
    destruct (process_transaction_expired s sig) as [s'|why] eqn:Hx; [|by exists why].
    apply process_expired_Done in Hx as (h & d & _ & _ & Hs & _). congruence.
Qed.

(** C16: the outcome Solana reports for a submitted transaction can always be
    recorded: marking it succeeded and marking it failed never panic, marking
    a sweep expired never panics, and only a withdrawal refuses to expire. *)
Theorem finalizing_never_panics `{!Platform} s log sig tx :
  minter_run (s, log) -> sized log -> iom_get (submitted_transactions s) sig = Some tx ->
  (exists s', process_transaction_succeeded s sig = Done s') /\
  (exists s', process_transaction_failed s sig = Done s') /\
  match tx with
  | TxSweepDeposit _ => exists s', process_transaction_expired s sig = Done s'
  | TxWithdrawal _ _ _ _ => exists why, process_transaction_expired s sig = Panic why
  end.
Proof.
  intros Hrun Hsz. destruct (minter_run_inv _ Hrun Hsz) as (L & HI & _). by eapply submitted_finalizes.
Qed.

Lemma finalizing_never_panics_witness :
  exists s', process_transaction_succeeded example_prefix_state 901 = Done s'.
Proof.
  refine (proj1 (finalizing_never_panics example_prefix_state example_prefix 901
    (TxWithdrawal (Legacy example_withdrawal_message) nonce1 321 2) example_prefix_run example_prefix_sized _)).
  vm_compute. reflexivity.
Defined.

(** C1: no lamport is lost: as long as no 64-bit amount overflows, the balance
    of a reachable state is the amount the credited sweeps received, less the
    amounts of the withdrawals whose transaction was created and the
    transaction fees of those transactions; and the ckSOL minted, about to be
    minted or unresolved, together with the collected deposit fees, never
    exceeds the amount received. *)
Theorem lamports_accounted_for `{!Platform} s log :
  minter_run (s, log) -> sized log -> log_fits log = true ->
  balance s = received_in log - outgoing s - BATCH_WITHDRAWAL_TX_FEE * created_in log /\ 0 <= balance s /\
  exists L, implements (deposits s) L /\ lsum L + collected_automatic_deposit_fees s <= received_in log.
Proof.
  intros Hrun Hsz Hf. destruct (minter_run_inv _ Hrun Hsz) as (L & HI & _ & HA). destruct (HA Hf) as [H1 H2 [H3 _]].
  split_and!; [exact H1 | exact H3 |]. exists L. split; [exact (mi_deposits _ _ _ HI) | exact H2].
Qed.

Lemma lamports_accounted_for_witness :
  balance example_state = received_in example_log - outgoing example_state - BATCH_WITHDRAWAL_TX_FEE * created_in example_log /\
  received_in example_log = 17312360 /\ outgoing example_state = 3000000.
Proof.
  split; [|vm_compute; auto].
  refine (proj1 (lamports_accounted_for example_state example_log example_run example_sized _)).
  vm_compute. reflexivity.
Defined.
