(* ===== verification/Interleaving.v ===== *)
(** What other calls and timers may do between two parts of an asynchronous
    function: steps of the minter that record none of the events the guards of
    the function exclude. *)
From S2P Require Import Prelude Platform ConcretePlatform InsertionOrderedMap TimedSizedMap Watchlist NoncePool Events Sweeps Deposits SolTransfer MinterState Replay Invariants Safety.

Section Calm.
Context `{Platform}.

(** The recorded public key never changes. *)
Lemma key_kept_event s ev t s' key :
  minter_public_key s = Some key -> apply_state_transition s ev t = Done s' -> minter_public_key s' = Some key.
Proof.
  intros Hk. destruct ev; cbn [apply_state_transition].
  - done.
  - destruct (upgrade s args) as [s1|] eqn:Hu; [|done]. intros Hs%Done_inv. subst s1.
    by apply upgrade_Ok in Hu as (pool & _ & -> & _).
  - by intros [_ ->]%process_accepted_Done.
  - destruct message as [m]. destruct purpose as [ids h|ixs].
    + by intros (key' & d & r & _ & _ & _ & _ & _ & ->)%process_submitted_sweep_Done.
    + intros (s1 & tx & _ & _ & _ & Hsend & ->)%process_submitted_withdrawal_Done.
      by apply send_nonce_withdrawal_Done in Hsend as (a & cr & bound & c & st & _ & _ & _ & _ & _ & _ & _ & _ & ->).
  - by intros (tx & d & pool & _ & _ & _ & _ & ->)%process_succeeded_Done.
  - by intros (tx & d & pool & _ & _ & _ & _ & ->)%process_failed_Done.
  - by intros (h & d & _ & _ & _ & _ & ->)%process_expired_Done.
  - by intros (d & _ & ->)%deposit_update_Done.
  - by intros (d & sw & _ & _ & _ & ->)%process_credited_Done.
  - by intros (d & _ & ->)%deposit_update_Done.
  - intros [[Hn _]|[_ ->]]%cache_key_Done; congruence.
  - by intros (d & _ & ->)%deposit_update_Done.
  - by intros (d & _ & ->)%deposit_update_Done.
  - by intros (pool & p & c & tot & _ & _ & _ & _ & ->)%process_created_Done.
Qed.

(** Steps that record no [forbidden] event. *)
Inductive calm_step (forbidden : EventType -> Prop) : State * list Event -> State * list Event -> Prop :=
  | calm_event s log ev now s' log' :
      ~ forbidden ev -> process_event s log ev now = Done (s', log') -> calm_step forbidden (s, log) (s', log')
  | calm_transient s log s' :
      erase s' = erase s -> wl_wf (watchlist (deposits s')) -> calm_step forbidden (s, log) (s', log).

Lemma calm_minter_step forbidden c c' : calm_step forbidden c c' -> minter_step c c'.
Proof. destruct 1; by econstructor. Qed.

Lemma calm_log forbidden c c' : calm_step forbidden c c' -> exists l, c'.2 = c.2 ++ l.
Proof.
  destruct 1 as [s log ev now s' log' _ Hev | s log s'].
  - apply bind_Done in Hev as (s1 & _ & Hl). apply Done_inv in Hl. injection Hl as _ <-. eauto.
  - exists []. by rewrite app_nil_r.
Qed.

Lemma sized_app log l : sized (log ++ l) -> sized log.
Proof.
  intros [Hl Hn]. rewrite length_app in Hl. split; [lia|]. unfold accepted_in in *. rewrite map_app, concat_app in Hn.
  by apply NoDup_app in Hn as [? _].
Qed.

Lemma calm_sized forbidden c c' : rtc (calm_step forbidden) c c' -> sized c'.2 -> sized c.2.
Proof.
  induction 1 as [c | c c1 c' Hq Hrtc IH]; intros Hsz; [done|].
  destruct (calm_log _ _ _ Hq) as [l Hl]. apply (sized_app _ l). rewrite <- Hl. by apply IH.
Qed.

Lemma calm_run forbidden c c' : rtc (calm_step forbidden) c c' -> minter_run c -> minter_run c'.
Proof. induction 1 as [c | c c1 c' Hq Hrtc IH]; intros Hrun; [done|]. apply IH. by eapply run_step, calm_minter_step. Qed.

Lemma calm_key forbidden c c' key :
  rtc (calm_step forbidden) c c' -> minter_public_key c.1 = Some key -> minter_public_key c'.1 = Some key.
Proof.
  induction 1 as [c | c c1 c' Hq Hrtc IH]; intros Hk; [done|]. apply IH.
  destruct Hq as [s log ev now s' log' _ Hev | s log s' He Hwf]; cbn [fst] in *.
  - apply bind_Done in Hev as (s1 & Hs1 & Hl). apply Done_inv in Hl. injection Hl as <- _. by eapply key_kept_event.
  - rewrite <- Hk. exact (f_equal minter_public_key He).
Qed.

(** A property of the deposits that the operations of the allowed events keep. *)
Lemma calm_deposits forbidden (I : Deposits -> Prop) c c' :
  (forall d d', erase_deposits d' = erase_deposits d -> I d -> I d') ->
  (forall ev op d d' L, ~ forbidden ev -> event_performs ev op -> implements d L -> implements d' (lifecycle_op L op) ->
     deposit_op d op = Done d' -> I d -> I d') ->
  rtc (calm_step forbidden) c c' -> minter_run c -> sized c'.2 -> I (deposits c.1) -> I (deposits c'.1).
Proof.
  intros Herase Hop. induction 1 as [c | c c1 c' Hq Hrtc IH]; intros Hrun Hsz HI; [done|].
  pose proof (calm_sized _ _ _ Hrtc Hsz) as Hsz1.
  assert (sized c.2) as Hsz0 by (destruct (calm_log _ _ _ Hq) as [l Hl]; rewrite Hl in Hsz1; by eapply sized_app).
  apply IH; [by eapply run_step, calm_minter_step | done |]. clear IH Hrtc.
  destruct (minter_run_inv _ Hrun Hsz0) as (L & HL & Hn & _).
  destruct Hq as [s log ev now s' log' Hne Hev | s log s' He Hwf]; cbn [fst snd] in *.
  - apply bind_Done in Hev as (s1 & Hs1 & Hl). apply Done_inv in Hl. injection Hl as <- <-.
    apply sized_snoc in Hsz1 as (_ & Hlen & _).
    destruct (event_lifecycle _ _ _ _ _ _ HL ltac:(lia) Hs1) as [[-> _]|(op & Hdo & Hperf & HD')]; [done|].
    by apply (Hop ev op (deposits s) _ L); [done | done | apply (mi_deposits _ _ _ HL) | ..].
  - apply erase_eq_inv in He as (Hd & _). by apply (Herase (deposits s)).
Qed.
Lemma event_run s log ev now s' : minter_run (s, log) -> apply_state_transition s ev now = Done s' ->
  minter_run (s', log ++ [mkEvent now ev]).
Proof. intros Hrun Hs. eapply run_step; [exact Hrun|]. apply (step_event s log ev now). unfold process_event. by rewrite Hs. Qed.

Lemma sized_no_accept log ev now :
  sized log -> accepted_of ev = [] -> Z.of_nat (length log) < u64_max -> sized (log ++ [mkEvent now ev]).
Proof.
  intros [Hl Hn] Ha Hlt. split; [rewrite length_app; cbn; lia|]. by rewrite accepted_in_snoc, Ha, app_nil_r.
Qed.
End Calm.

(** ** Who records which events

    Every event but the lifecycle's is recorded by one timer task, by the
    fetch of the public key or by an endpoint. *)
Inductive Owner : Type := OwnerTask (task : TaskType) | OwnerKeyFetch | OwnerEndpoint | OwnerLifecycle.

#[export] Instance Owner_eq_dec : EqDecision Owner.
Proof. solve_decision. Defined.

Definition event_owner (ev : EventType) : Owner :=
  match ev with
  | Init _ | Upgrade _ => OwnerLifecycle
  | AcceptedWithdrawalRequest _ | QueuedDepositEvent _ _ _ _ _ => OwnerEndpoint
  | SubmittedTransaction _ _ _ (PurposeSweepDeposit _ _) => OwnerTask SweepDeposits
  | SubmittedTransaction _ _ _ (PurposeWithdrawal _) | CreatedWithdrawalTransactionEvent _ _ _ => OwnerTask WithdrawalProcessing
  | SucceededTransaction _ | FailedTransaction _ | ExpiredTransaction _ | CreditedSweep _ _ _ | QuarantinedSweep _ =>
      OwnerTask FinalizeTransactions
  | MintedSweptDeposit _ _ | QuarantinedPendingMint _ => OwnerTask TaskMint
  | MinterPublicKeyFetched _ _ => OwnerKeyFetch
  end.

Definition owned (o : Owner) (ev : EventType) : Prop := event_owner ev = o.

Section Owners.
Context `{Platform}.

(** Recording an event that satisfies [P]. *)
Inductive records (P : EventType -> Prop) : State * list Event -> State * list Event -> Prop :=
  | records_event s log ev now s' log' :
      P ev -> process_event s log ev now = Done (s', log') -> records P (s, log) (s', log').

(** What an endpoint does: its events, and transient data other than the active tasks. *)
Inductive quiet_step (P : EventType -> Prop) : State * list Event -> State * list Event -> Prop :=
  | quiet_records c c' : records P c c' -> quiet_step P c c'
  | quiet_transient s log s' :
      erase s' = erase s -> wl_wf (watchlist (deposits s')) -> active_tasks s' = active_tasks s -> quiet_step P (s, log) (s', log).

Lemma records_once (P : EventType -> Prop) s log ev now c : P ev -> process_event s log ev now = Done c -> rtc (records P) (s, log) c.
Proof. intros Hp Hev. destruct c. apply rtc_once. by econstructor. Qed.

Lemma quiet_of_records P c c' : rtc (records P) c c' -> rtc (quiet_step P) c c'.
Proof. apply rtc_subrel. intros ??. by constructor. Qed.

Lemma records_calm (P forbidden : EventType -> Prop) c c' :
  (forall ev, P ev -> ~ forbidden ev) -> rtc (records P) c c' -> rtc (calm_step forbidden) c c'.
Proof.
  intros Hne. apply rtc_subrel. intros x y [s log ev now s' log' Ho Hev]. apply (calm_event _ _ _ ev now); [by apply Hne | done].
Qed.

Lemma quiet_calm (P forbidden : EventType -> Prop) c c' :
  (forall ev, P ev -> ~ forbidden ev) -> rtc (quiet_step P) c c' -> rtc (calm_step forbidden) c c'.
Proof.
  intros Hne. induction 1 as [|x y z Hxy _ IH]; [done|]. etransitivity; [|exact IH].
  destruct Hxy as [c1 c2 Hr | s log s' He Hwf _]; [by eapply records_calm, rtc_once | by apply rtc_once, calm_transient].
Qed.

Lemma calm_weaken (P Q : EventType -> Prop) c c' : (forall ev, Q ev -> P ev) -> rtc (calm_step P) c c' -> rtc (calm_step Q) c c'.
Proof.
  intros HPQ. apply rtc_subrel. intros x y [s log ev now s' log' Hne Hev | s log s' He Hwf]; [|by constructor].
  eapply calm_event; [|exact Hev]. intros HQ. by apply Hne, HPQ.
Qed.

Lemma quiet_minter P c c' : rtc (quiet_step P) c c' -> rtc minter_step c c'.
Proof.
  apply rtc_subrel. intros x y [c1 c2 [s log ev now s' log' Ho Hev] | s log s' He Hwf _]; by econstructor.
Qed.

(** Events leave the active tasks alone. *)
Lemma active_tasks_event s ev t s' : apply_state_transition s ev t = Done s' -> active_tasks s' = active_tasks s.
Proof.
  destruct ev; cbn [apply_state_transition].
  - done.
  - destruct (upgrade s args) as [s1|] eqn:Hu; [|done]. intros Hs%Done_inv. subst s1.
    by apply upgrade_Ok in Hu as (pool & _ & -> & _).
  - by intros [_ ->]%process_accepted_Done.
  - destruct message as [m]. destruct purpose as [ids h|ixs].
    + by intros (key' & d & r & _ & _ & _ & _ & _ & ->)%process_submitted_sweep_Done.
    + intros (s1 & tx & _ & _ & _ & Hsend & ->)%process_submitted_withdrawal_Done.
      by apply send_nonce_withdrawal_Done in Hsend as (a & cr & bound & c & st & _ & _ & _ & _ & _ & _ & _ & _ & ->).
  - by intros (tx & d & pool & _ & _ & _ & _ & ->)%process_succeeded_Done.
  - by intros (tx & d & pool & _ & _ & _ & _ & ->)%process_failed_Done.
  - by intros (h & d & _ & _ & _ & _ & ->)%process_expired_Done.
  - by intros (d & _ & ->)%deposit_update_Done.
  - by intros (d & sw & _ & _ & _ & ->)%process_credited_Done.
  - by intros (d & _ & ->)%deposit_update_Done.
  - by intros [[_ ->]|[_ ->]]%cache_key_Done.
  - by intros (d & _ & ->)%deposit_update_Done.
  - by intros (d & _ & ->)%deposit_update_Done.
  - by intros (pool & p & c & tot & _ & _ & _ & _ & ->)%process_created_Done.
Qed.

Lemma quiet_active P c c' : rtc (quiet_step P) c c' -> active_tasks c'.1 = active_tasks c.1.
Proof.
  induction 1 as [|c c1 c' Hs _ IH]; [done|]. rewrite IH.
  destruct Hs as [c c1 [s log ev now s' log' _ Hev] | s log s' _ _ Ha]; [|done].
  apply bind_Done in Hev as (s1 & Hs1 & Hl). apply Done_inv in Hl. injection Hl as <- _. by eapply active_tasks_event.
Qed.
End Owners.

(** The result of a function, known to be [a']. *)
Lemma Done_pair_inv {A B} (o : outcome (A * B)) a b a' : o = Done (a, b) -> (exists b', o = Done (a', b')) -> a = a'.
Proof. intros -> [b' [= ->]]. done. Qed.

(** ** Loops that settle one transaction per iteration

    Iteration [e] moves the deposits at the stage [src (key e)] and no others. *)
Section Moves.
Context {E : Type} (key : E -> Signature) (move : E -> Stage -> Stage) (src : Signature -> Stage).
Hypothesis src_inj : forall sig sig', src sig = src sig' -> sig = sig'.
Hypothesis move_other : forall e st, st <> src (key e) -> move e st = st.
Hypothesis move_leaves : forall e sig, move e (src (key e)) = src sig -> sig = key e.

Lemma fold_move_other es : forall st,
  (forall e, e ∈ es -> st <> src (key e)) -> fold_left (fun st e => move e st) es st = st.
Proof.
  induction es as [|e es IH]; intros st Hst; [done|]. cbn. rewrite move_other by (apply Hst; left).
  apply IH. intros e' He'. apply Hst. by right.
Qed.

Lemma fold_move_item es : forall k e,
  NoDup (map key es) -> es !! k = Some e ->
  fold_left (fun st e => move e st) es (src (key e)) = move e (src (key e)).
Proof.
  induction es as [|e' es IH]; intros k e Hnd Hk; [done|]. cbn in Hnd. apply NoDup_cons in Hnd as [Hx Hnd].
  assert (forall e0, e0 ∈ es -> key e0 <> key e') as Hne.
  { intros e0 He0 Heq. apply Hx. rewrite <- Heq. by apply list_elem_of_fmap_2. }
  destruct k as [|k]; cbn in Hk |- *.
  - injection Hk as ->. apply fold_move_other. intros e0 He0 Heq. by apply move_leaves, Hne in Heq.
  - rewrite move_other; [by apply (IH k)|]. intros Heq%src_inj. by apply Hne in Heq; [|eapply list_elem_of_lookup_2].
Qed.
End Moves.
