(* ===== verification/Batches.v ===== *)
(** [WithdrawalBatches] of minter/src/state/mod.rs: how the pending
    withdrawals are grouped into transactions the balance can pay for. *)
From S2P Require Import Prelude Platform ConcretePlatform InsertionOrderedMap TimedSizedMap Watchlist NoncePool Events Sweeps Deposits SolTransfer MinterState.

(** Arithmetic with the fee of a withdrawal transaction. *)
Ltac fee_lia := unfold BATCH_WITHDRAWAL_TX_FEE, FEE_PER_SIGNATURE in *; lia.

Definition amounts (l : list WithdrawalRequest) : Z := zsum (map wr_amount_to_transfer l).

Definition opening_fee (batch : list WithdrawalRequest) : Lamport :=
  match batch with [] => BATCH_WITHDRAWAL_TX_FEE | _ => 0 end.

Lemma amounts_app l1 l2 : amounts (l1 ++ l2) = amounts l1 + amounts l2.
Proof. unfold amounts. by rewrite map_app, zsum_app. Qed.

Lemma amounts_nonneg l : Forall (fun r => 0 <= wr_amount_to_transfer r) l -> 0 <= amounts l.
Proof. intros HF. apply zsum_nonneg. by apply Forall_fmap. Qed.

(** The cost of a request: nothing is charged when it does not fit. *)
Lemma request_cost amount fee avail :
  0 <= amount -> 0 <= fee -> avail < u64_modulus ->
  (cost ← checked_add amount fee; checked_sub avail cost) =
  if decide (amount + fee <= avail) then Some (avail - (amount + fee)) else None.
Proof.
  intros Ha Hf Hav. destruct (checked_add amount fee) as [cost|] eqn:Hc.
  - apply checked_add_Some in Hc as [-> _]. cbn. case_decide as Hd.
    + by apply checked_sub_Some.
    + apply checked_sub_None. lia.
  - cbn. case_decide as Hd; [|done]. assert (checked_add amount fee = Some (amount + fee)) as Hs by (apply checked_add_Some; lia).
    congruence.
Qed.

Lemma opening_fee_nonneg batch : 0 <= opening_fee batch.
Proof. destruct batch; cbn; unfold BATCH_WITHDRAWAL_TX_FEE, FEE_PER_SIGNATURE; lia. Qed.

(** What one call of the iterator takes from the requests. *)
Record taken_batch (room : nat) (batch reqs : list WithdrawalRequest) (avail : Lamport)
    (batch' rest : list WithdrawalRequest) (avail' : Lamport) (taken : list WithdrawalRequest) : Prop := {
  tb_batch : batch' = batch ++ taken;
  tb_reqs : reqs = taken ++ rest;
  tb_room : (length taken <= room)%nat;
  tb_left : avail' = avail - amounts taken - (match taken with [] => 0 | _ => opening_fee batch end);
  tb_covered : 0 <= avail -> 0 <= avail';
  tb_stop : forall r rest', rest = r :: rest' -> (length taken < room)%nat ->
    avail' < wr_amount_to_transfer r + opening_fee batch'
}.

Lemma next_batch_spec room : forall batch reqs avail,
  Forall (fun r => 0 <= wr_amount_to_transfer r) reqs -> avail < u64_modulus ->
  exists batch' rest avail' taken,
    next_batch room batch reqs avail = (batch', rest, avail') /\
    taken_batch room batch reqs avail batch' rest avail' taken.
Proof.
  induction room as [|room IH]; intros batch reqs avail HF Hav.
  - exists batch, reqs, avail, []. split; [by destruct reqs|].
    split; cbn; [by rewrite app_nil_r | done | done | cbn; lia | done | lia].
  - destruct reqs as [|r reqs].
    + exists batch, [], avail, []. split; [done|]. split; cbn; [by rewrite app_nil_r | done | lia | lia | done | done].
    + apply Forall_cons in HF as [Hr HF]. cbn [next_batch].
      change (match batch with [] => BATCH_WITHDRAWAL_TX_FEE | _ => 0 end) with (opening_fee batch).
      pose proof (opening_fee_nonneg batch) as Hfee.
      rewrite (request_cost _ _ _ Hr Hfee Hav). case_decide as Hd.
      * assert (avail - (wr_amount_to_transfer r + opening_fee batch) < u64_modulus) as Hav' by lia.
        destruct (IH (batch ++ [r]) reqs _ HF Hav') as (batch' & rest & avail' & taken & -> & [T1 T2 T3 T4 T5 T6]).
        exists batch', rest, avail', (r :: taken). split; [done|].
        assert (opening_fee (batch ++ [r]) = 0) as Hz by (by destruct batch).
        split; [by rewrite T1, <- app_assoc | by rewrite T2 | cbn; lia | | |].
        -- unfold amounts in *. cbn. rewrite Hz in T4. rewrite T4. destruct taken; cbn; lia.
        -- intros _. apply T5. lia.
        -- intros r' rest' Hrest Hlt. apply (T6 r' rest' Hrest). cbn in Hlt. lia.
      * exists batch, (r :: reqs), avail, []. split; [done|].
        split; cbn; [by rewrite app_nil_r | done | lia | lia | done |]. intros r' rest' [= <- <-] _. lia.
Qed.

(** The batches [bs] taken from [reqs] with [avail] lamports, leaving [rest]. *)
Record batch_plan (reqs : list WithdrawalRequest) (avail : Lamport) (bs : list (list WithdrawalRequest))
    (rest : list WithdrawalRequest) : Prop := {
  bp_prefix : reqs = concat bs ++ rest;
  bp_sizes : Forall (fun b => (1 <= length b <= MAX_WITHDRAWALS_PER_NONCE_TX)%nat) bs;
  bp_full : forall pre b post, bs = pre ++ b :: post -> post <> [] -> length b = MAX_WITHDRAWALS_PER_NONCE_TX;
  bp_covered : amounts (concat bs) + BATCH_WITHDRAWAL_TX_FEE * Z.of_nat (length bs) <= avail;
  bp_greedy : forall r rest', rest = r :: rest' ->
    avail - (amounts (concat bs) + BATCH_WITHDRAWAL_TX_FEE * Z.of_nat (length bs))
      < wr_amount_to_transfer r + BATCH_WITHDRAWAL_TX_FEE /\
    (forall pre b, bs = pre ++ [b] -> (length b < MAX_WITHDRAWALS_PER_NONCE_TX)%nat ->
      avail - (amounts (concat bs) + BATCH_WITHDRAWAL_TX_FEE * Z.of_nat (length bs)) < wr_amount_to_transfer r)
}.

Lemma batch_plan_nil reqs avail :
  0 <= avail -> (forall r rest, reqs = r :: rest -> avail < wr_amount_to_transfer r + BATCH_WITHDRAWAL_TX_FEE) ->
  batch_plan reqs avail [] reqs.
Proof.
  intros Hav Hstop. split; [done | constructor | by intros [] | cbn; lia |].
  intros r rest ->. split; [cbn; specialize (Hstop r rest eq_refl); lia | by intros []].
Qed.

Lemma batch_plan_cons x batch reqs avail avail' bs rest :
  avail' = avail - amounts (x :: batch) - BATCH_WITHDRAWAL_TX_FEE ->
  (length (x :: batch) <= MAX_WITHDRAWALS_PER_NONCE_TX)%nat ->
  (forall r rest', reqs = r :: rest' -> (length (x :: batch) < MAX_WITHDRAWALS_PER_NONCE_TX)%nat ->
     avail' < wr_amount_to_transfer r) ->
  Forall (fun r => 0 <= wr_amount_to_transfer r) reqs ->
  batch_plan reqs avail' bs rest -> batch_plan ((x :: batch) ++ reqs) avail ((x :: batch) :: bs) rest.
Proof.
  intros -> Hlen Hstop Hpos [P1 P2 P3 P4 P5].
  assert (forall pre b post, (x :: batch) :: bs = pre ++ b :: post -> post <> [] ->
    length b = MAX_WITHDRAWALS_PER_NONCE_TX) as Hfull.
  { intros [|p pre] b post Heq Hne; injection Heq as Hb Hbs; [|by eapply P3].
    subst b post. destruct bs as [|b1 bs]; [done|]. apply Forall_cons in P2 as [[Hb1 _] _].
    destruct b1 as [|r b1]; [cbn in Hb1; lia|]. cbn [concat app] in P1.
    destruct (Nat.lt_ge_cases (length (x :: batch)) MAX_WITHDRAWALS_PER_NONCE_TX) as [Hlt|]; [|lia].
    specialize (Hstop r _ P1 Hlt). subst reqs. apply Forall_cons in Hpos as [Hr Hpos].
    apply Forall_app in Hpos as [Hpos _]. pose proof (amounts_nonneg _ Hpos) as Hn.
    cbn [concat app length] in P4. rewrite Nat2Z.inj_succ in P4. change (amounts (r :: b1 ++ concat bs))
      with (wr_amount_to_transfer r + amounts (b1 ++ concat bs)) in P4.
    fee_lia. }
  split.
  - rewrite P1. cbn. by rewrite <- app_assoc.
  - constructor; [cbn in *; lia | done].
  - exact Hfull.
  - cbn [concat length]. rewrite amounts_app, Nat2Z.inj_succ. fee_lia.
  - intros r rest' Hrest. destruct (P5 r rest' Hrest) as [Q1 Q2]. cbn [concat length]. rewrite amounts_app, Nat2Z.inj_succ.
    split; [fee_lia|]. intros [|p pre] b Hb Hlt; injection Hb as Hb Hbs.
    + subst b bs. cbn in P1. subst reqs. specialize (Hstop r rest' Hrest Hlt). cbn [concat length Z.of_nat]. change (amounts []) with 0. fee_lia.
    + specialize (Q2 pre b Hbs Hlt). fee_lia.
Qed.

Lemma batches_fuel_spec fuel : forall reqs avail,
  (length reqs <= fuel)%nat -> Forall (fun r => 0 <= wr_amount_to_transfer r) reqs -> 0 <= avail < u64_modulus ->
  exists rest, batch_plan reqs avail (batches_fuel fuel reqs avail) rest.
Proof.
  induction fuel as [|fuel IH]; intros reqs avail Hlen HF [Hav0 Hav]; cbn [batches_fuel].
  - destruct reqs; [|cbn in Hlen; lia]. exists []. by apply batch_plan_nil.
  - destruct (next_batch_spec MAX_WITHDRAWALS_PER_NONCE_TX [] reqs avail HF Hav)
      as (batch & rest & avail' & taken & -> & [T1 T2 T3 T4 T5 T6]). cbn [app] in T1. subst taken.
    destruct batch as [|x batch].
    + exists reqs. apply batch_plan_nil; [done|]. intros r rest' Hr. subst reqs. cbn in T4. cbn [app] in Hr.
      specialize (T6 r rest' Hr ltac:(cbn; unfold MAX_WITHDRAWALS_PER_NONCE_TX; lia)). cbn [opening_fee] in T6. unfold amounts in T4. cbn in T4. lia.
    + rewrite T2 in HF. apply Forall_app in HF as [HF1 HF2]. pose proof (amounts_nonneg _ HF1) as Hn.
      assert (0 < BATCH_WITHDRAWAL_TX_FEE) by done. cbn [opening_fee] in T4. rewrite T2, length_app in Hlen. cbn in Hlen.
      destruct (IH rest avail') as [rest' HP]; [lia | done | split; [by apply T5 | lia] |].
      exists rest'. rewrite T2. apply (batch_plan_cons _ _ _ _ avail'); try done.
      intros r rest'' Hr Hlt. specialize (T6 r rest'' Hr Hlt). cbn [opening_fee] in T6. lia.
Qed.

(** The amounts of the pending requests are 64-bit numbers. *)
Definition amounts_fit (s : State) : Prop :=
  is_u64 (balance s) /\
  map_Forall (fun _ r => 0 <= wr_amount_to_transfer (pw_request r)) (pending_withdrawal_requests s).

Lemma pending_in_order_nonneg s : amounts_fit s ->
  Forall (fun r => 0 <= wr_amount_to_transfer r) (pending_requests_in_order s).
Proof.
  intros [_ Hm]. unfold pending_requests_in_order. apply Forall_fmap, Forall_forall. intros p (k & Hp)%elem_of_btree_values.
  exact (Hm k p Hp).
Qed.

Lemma available_balance_range s : is_u64 (balance s) ->
  0 <= available_balance s < u64_modulus /\ available_balance s <= balance s /\
  (0 < available_balance s -> available_balance s + RENT_EXEMPTION_THRESHOLD = balance s).
Proof. unfold is_u64, available_balance, saturating_sub, RENT_EXEMPTION_THRESHOLD, u64_modulus. lia. Qed.

Lemma withdrawal_batches_spec s : amounts_fit s ->
  exists rest, batch_plan (pending_requests_in_order s) (available_balance s) (withdrawal_batches s) rest.
Proof.
  intros Hfit. apply batches_fuel_spec; [done | by apply pending_in_order_nonneg |].
  by apply available_balance_range, (proj1 Hfit).
Qed.

(** ** Properties *)

(** C25: the batches of the pending withdrawals take the oldest requests in the
    order of their burn indices, one to ten per transaction, every batch but
    the last one full; their amounts and one transaction fee each are covered
    by the balance with the rent-exemption threshold held back; and the
    iteration only stops early at a request that can be paid neither in a new
    batch nor, when it has room, in the last one. *)
Theorem withdrawal_batches_correct s :
  amounts_fit s ->
  let bs := withdrawal_batches s in
  let spent := amounts (concat bs) + BATCH_WITHDRAWAL_TX_FEE * Z.of_nat (length bs) in
  exists rest,
    pending_requests_in_order s = concat bs ++ rest /\
    Forall (fun b => (1 <= length b <= 10)%nat) bs /\
    (forall pre b post, bs = pre ++ b :: post -> post <> [] -> length b = 10%nat) /\
    (bs <> [] -> spent + RENT_EXEMPTION_THRESHOLD <= balance s) /\
    (forall r rest', rest = r :: rest' ->
       saturating_sub (balance s) RENT_EXEMPTION_THRESHOLD - spent < wr_amount_to_transfer r + BATCH_WITHDRAWAL_TX_FEE /\
       (forall pre b, bs = pre ++ [b] -> (length b < 10)%nat ->
          saturating_sub (balance s) RENT_EXEMPTION_THRESHOLD - spent < wr_amount_to_transfer r)).
Proof.
  intros Hfit. destruct (withdrawal_batches_spec s Hfit) as (rest & [P1 P2 P3 P4 P5]). exists rest.
  split_and!; [exact P1 | exact P2 | exact P3 | | exact P5]. intros Hne.
  destruct (available_balance_range s (proj1 Hfit)) as (_ & _ & Hav).
  assert (0 <= amounts (concat (withdrawal_batches s))) as Hn.
  { apply amounts_nonneg. pose proof (pending_in_order_nonneg s Hfit) as HF. rewrite P1 in HF. by apply Forall_app in HF as [? _]. }
  assert (0 < BATCH_WITHDRAWAL_TX_FEE) by done. destruct (withdrawal_batches s) as [|b bs] eqn:Hbs; [done|].
  cbn [length] in *. rewrite Nat2Z.inj_succ in *. rewrite <- Hav; fee_lia.
Qed.

(** Thirteen pending withdrawals of a minter that can pay for twelve. *)
Definition thirteen_requests : gmap LedgerBurnIndex PendingWithdrawalRequest :=
  collect_map (map (fun n => (Z.of_nat n, mkPendingWithdrawal
    (mkWithdrawalRequest (mkAccount [1] []) (Z.of_nat n) (Z.of_nat n) 1009000 1000000) 5)) (seq 0 13)).
Definition thirteen_state : State :=
  mkState None MainnetProdKey1 [7] [8] Mainnet 9000 1000000 2000000 0 0 None 0 ∅ ∅ deposits_default
    thirteen_requests ∅ ∅ ∅ ∅ iom_new ∅ ∅ iom_new (mkNoncePool ∅) ∅ 13000000.

Lemma thirteen_fit : amounts_fit thirteen_state.
Proof.
  split; [vm_compute; split; [discriminate | reflexivity]|].
  apply (bool_decide_unpack (map_Forall (fun _ r => 0 <= wr_amount_to_transfer (pw_request r)) thirteen_requests)).
  vm_compute. exact I.
Qed.

Lemma withdrawal_batches_correct_witness :
  map length (withdrawal_batches thirteen_state) = [10%nat; 2%nat] /\
  exists rest, pending_requests_in_order thirteen_state = concat (withdrawal_batches thirteen_state) ++ rest.
Proof.
  split; [vm_compute; reflexivity|].
  destruct (withdrawal_batches_correct thirteen_state thirteen_fit) as (rest & Hprefix & _). exists rest. exact Hprefix.
Defined.
