(* ===== verification/Parameters.v ===== *)
(** What [State::validate] and [State::upgrade] of minter/src/state/mod.rs
    guarantee about the parameters of a minter and its nonce accounts. *)
From S2P Require Import Prelude Platform ConcretePlatform InsertionOrderedMap TimedSizedMap Watchlist NoncePool Events Sweeps Deposits SolTransfer MinterState.

Lemma two_principals (a b : Principal) : (size ({[a]} ∪ {[b]} : gset Principal) <? 2)%nat = false <-> a <> b.
Proof.
  rewrite Nat.ltb_ge. split.
  - intros Hs ->. rewrite union_idemp_L, size_singleton in Hs. lia.
  - intros Hne. rewrite size_union, !size_singleton; [lia | set_solver].
Qed.

(** The conditions [validate] checks, in the order of the code. *)
Record valid_params `{Platform} (s : State) : Prop := {
  vp_sol_rpc : sol_rpc_canister_id s <> anonymous;
  vp_ledger : ledger_canister_id s <> anonymous;
  vp_distinct : sol_rpc_canister_id s <> ledger_canister_id s;
  vp_sweep_fee : MAX_SIGNATURES * FEE_PER_SIGNATURE + RENT_EXEMPTION_THRESHOLD <= minimum_deposit_amount s;
  vp_main_rent : 2 * RENT_EXEMPTION_THRESHOLD + FEE_PER_SIGNATURE <= minimum_deposit_amount s;
  vp_withdrawal : withdrawal_fee s +w RENT_EXEMPTION_THRESHOLD <= minimum_withdrawal_amount s;
  vp_cycles : wadd128 GET_BALANCE_CYCLES (deposit_sol_fee s) <= deposit_sol_required_cycles s;
  vp_automatic : forall fee, automatic_deposit_fee s = Some fee -> fee <= max_automatic_deposit_fee s
}.

Lemma validate_valid `{Platform} s : validate s = Ok tt <-> valid_params s.
Proof.
  unfold validate. cbv zeta.
  case_bool_decide as Ha; [split; [done | intros [? ? _ _ _ _ _ _]; set_solver]|].
  destruct (size _ <? 2)%nat eqn:Hs; [split; [done|]; intros [_ _ Hd _ _ _ _ _]; by apply two_principals in Hd; congruence|].
  apply two_principals in Hs.
  change ((MAX_SIGNATURES *w FEE_PER_SIGNATURE) +w RENT_EXEMPTION_THRESHOLD) with (MAX_SIGNATURES * FEE_PER_SIGNATURE + RENT_EXEMPTION_THRESHOLD).
  change ((2 *w RENT_EXEMPTION_THRESHOLD) +w FEE_PER_SIGNATURE) with (2 * RENT_EXEMPTION_THRESHOLD + FEE_PER_SIGNATURE).
  destruct (Z.ltb_spec (minimum_deposit_amount s) (MAX_SIGNATURES * FEE_PER_SIGNATURE + RENT_EXEMPTION_THRESHOLD));
    [split; [done | intros []; lia]|].
  destruct (Z.ltb_spec (minimum_deposit_amount s) (2 * RENT_EXEMPTION_THRESHOLD + FEE_PER_SIGNATURE));
    [split; [done | intros []; lia]|].
  destruct (Z.ltb_spec (minimum_withdrawal_amount s) (withdrawal_fee s +w RENT_EXEMPTION_THRESHOLD));
    [split; [done | intros []; lia]|].
  destruct (Z.ltb_spec (deposit_sol_required_cycles s) (wadd128 GET_BALANCE_CYCLES (deposit_sol_fee s)));
    [split; [done | intros []; lia]|].
  destruct (automatic_deposit_fee s) as [fee|] eqn:Hfee.
  - destruct (Z.ltb_spec (max_automatic_deposit_fee s) fee).
    + split; [done|]. intros [_ _ _ _ _ _ _ Hv]. specialize (Hv fee Hfee). lia.
    + split; [|done]. intros _. split; try set_solver; done.
  - split; [|done]. intros _. split; try set_solver; done.
Qed.

(** ** Destinations *)
Lemma ensure_no_incomplete_Ok s l u :
  ensure_no_incomplete_withdrawal_to s l = Ok u <-> forall a, a ∈ l -> a ∉ incomplete_destinations s.
Proof.
  unfold ensure_no_incomplete_withdrawal_to. destruct u.
  destruct (filter (fun a => a ∈ incomplete_destinations s) l) as [|x r] eqn:Hf; cbn.
  - split; [|done]. intros _ a Ha Hd.
    assert (a ∈ filter (fun a => a ∈ incomplete_destinations s) l) as Hin by (by apply list_elem_of_filter).
    rewrite Hf in Hin. by apply not_elem_of_nil in Hin.
  - split; [done|]. intros Hall. exfalso.
    assert (x ∈ filter (fun a => a ∈ incomplete_destinations s) l) as [Hd Hx]%list_elem_of_filter by (rewrite Hf; left).
    exact (Hall x Hx Hd).
Qed.

Lemma elem_of_incomplete_destinations s a :
  a ∈ incomplete_destinations s <->
  (exists b r, (pending_withdrawal_requests s !! b = Some r \/ created_withdrawal_requests s !! b = Some r) /\
     wr_solana_address (pw_request r) = a) \/
  (exists b r, sent_withdrawal_requests s !! b = Some r /\ wr_solana_address (sent_request r) = a).
Proof.
  unfold incomplete_destinations. rewrite elem_of_list_to_set, list_elem_of_fmap.
  setoid_rewrite elem_of_app. setoid_rewrite list_elem_of_fmap. setoid_rewrite elem_of_app.
  setoid_rewrite elem_of_btree_values. naive_solver.
Qed.

(** ** Properties *)

(** [validate] accepts exactly the states whose parameters satisfy its
    conditions; so with an accepted automatic deposit fee every deposit of at
    least the minimum amount is worth more than the rent, the fee of one
    signature and the automatic fee together, and, as long as the withdrawal
    fee does not overflow, a withdrawal of the minimum amount leaves at least
    the rent-exemption threshold to transfer. *)
Theorem validate_guarantees `{!Platform} s :
  (validate s = Ok tt <-> valid_params s) /\
  (validate s = Ok tt ->
   (forall fee, automatic_deposit_fee s = Some fee ->
      fee + FEE_PER_SIGNATURE + RENT_EXEMPTION_THRESHOLD < minimum_deposit_amount s) /\
   (is_u64 (withdrawal_fee s + RENT_EXEMPTION_THRESHOLD) ->
      withdrawal_fee s + RENT_EXEMPTION_THRESHOLD <= minimum_withdrawal_amount s)).
Proof.
  split; [apply validate_valid|]. intros [_ _ _ H1 H2 H3 _ H4]%validate_valid. split.
  - intros fee Hfee. specialize (H4 fee Hfee). unfold max_automatic_deposit_fee, saturating_sub in H4.
    unfold RENT_EXEMPTION_THRESHOLD, FEE_PER_SIGNATURE in *. lia.
  - intros Hr. unfold wadd in H3. by rewrite (wrap64_small _ Hr) in H3.
Qed.

Definition valid_state (fee minimum : Lamport) : State :=
  mkState None MainnetProdKey1 [7] [8] Mainnet fee minimum 2000000 20000000000 0 (Some 10000) 0 ∅ ∅ deposits_default
    ∅ ∅ ∅ ∅ ∅ iom_new ∅ ∅ iom_new (mkNoncePool ∅) ∅ 0.

Lemma validate_guarantees_witness :
  validate (valid_state 9000 900000) = Ok tt /\ 9000 + RENT_EXEMPTION_THRESHOLD <= 900000.
Proof.
  assert (validate (valid_state 9000 900000) = Ok tt) as Hv by (vm_compute; reflexivity). split; [exact Hv|].
  refine (proj2 (proj2 (validate_guarantees (valid_state 9000 900000)) Hv) _). vm_compute. split; [discriminate | reflexivity].
Defined.

(** The sum of the withdrawal fee and the rent-exemption threshold is
    not checked for overflow: with a fee close to the largest 64-bit number
    the parameters are accepted although a withdrawal of the minimum amount
    does not even cover the fee. *)
Theorem validate_accepts_overflowing_fee :
  exists fee minimum, validate (valid_state fee minimum) = Ok tt /\ is_u64 fee /\ is_u64 minimum /\
    withdrawal_fee (valid_state fee minimum) = fee /\ minimum_withdrawal_amount (valid_state fee minimum) = minimum /\
    checked_sub minimum fee = None.
Proof.
  exists (u64_max - 1000), 1000000. vm_compute. split_and!; (reflexivity || discriminate).
Qed.

(** C34: an accepted upgrade leaves valid parameters; it keeps every known
    nonce account with its state and seen values and adds only fresh, free
    accounts, none of which is the destination of an incomplete withdrawal;
    and it touches neither the key, nor the balance, nor the deposits, nor
    any withdrawal or transaction. *)
Theorem upgrade_is_safe `{!Platform} s args s' :
  upgrade s args = Ok s' ->
  valid_params s' /\
  (forall a acc, np_accounts (nonce_pool s) !! a = Some acc -> np_accounts (nonce_pool s') !! a = Some acc) /\
  (forall a acc, np_accounts (nonce_pool s) !! a = None -> np_accounts (nonce_pool s') !! a = Some acc ->
     acc = na_default /\ a ∉ incomplete_destinations s') /\
  minter_public_key s' = minter_public_key s /\ balance s' = balance s /\ deposits s' = deposits s /\
  submitted_transactions s' = submitted_transactions s /\ created_withdrawal_txs s' = created_withdrawal_txs s /\
  forall b, withdrawal_status s' b = withdrawal_status s b.
Proof.
  intros (pool & Hadd & -> & Hv%validate_valid)%upgrade_Ok.
  assert (forall a, np_accounts pool !! a = np_accounts (nonce_pool s) !! a \/
    (np_accounts (nonce_pool s) !! a = None /\ np_accounts pool !! a = Some na_default /\ a ∉ incomplete_destinations s)) as Hpool.
  { intros a. unfold adds_accounts in Hadd. destruct (ua_nonce_accounts_to_add args) as [strs|]; [|subst; by left].
    destruct Hadd as (l & _ & Hens & (_ & Hfresh & Hlk)%np_add_accounts_Ok). rewrite Hlk. case_decide as Ha; [right | by left].
    split_and!; [by apply Hfresh | done | by apply (proj1 (ensure_no_incomplete_Ok s l tt) Hens)]. }
  split_and!; try reflexivity; [exact Hv | |].
  - intros a acc Ha. read_upd. destruct (Hpool a) as [->|[Hn _]]; congruence.
  - intros a acc Ha. read_upd. destruct (Hpool a) as [->|(_ & -> & Hd)]; [congruence|]. intros [= <-]. by split.
Qed.

Definition added_account : UpgradeArgs :=
  mkUpgradeArgs None None None (Some 9500) None None (Some ["n3"]) None.

Lemma upgrade_is_safe_witness :
  exists s', upgrade (valid_state 9000 1000000) added_account = Ok s' /\ withdrawal_fee s' = 9500 /\ valid_params s'.
Proof.
  destruct (upgrade (valid_state 9000 1000000) added_account) as [s'|e] eqn:Hu.
  2:{ exfalso. vm_compute in Hu. discriminate. }
  exists s'. split; [reflexivity|]. split.
  - vm_compute in Hu. injection Hu as <-. vm_compute. reflexivity.
  - refine (proj1 (upgrade_is_safe (valid_state 9000 1000000) added_account s' _)). exact Hu.
Defined.
