(* ===== verification/Guards.v ===== *)
(** minter/src/guard and minter/src/cycles.rs: the guards that keep a request
    of an account and a timer task from running twice at the same time, and
    the cycles charged to callers. *)
From S2P Require Import Prelude Platform ConcretePlatform InsertionOrderedMap TimedSizedMap Watchlist NoncePool Events Sweeps Deposits SolTransfer MinterState.

(** ** Request guards *)
Definition MAX_CONCURRENT : nat := 100.

Inductive GuardError : Type := GuardAlreadyProcessing | TooManyConcurrentRequests.

(** The trait [PendingRequests]: the set of the state a kind of guard uses. *)
Class PendingRequests (R : Type) : Type := {
  pending_requests : State -> gset Account;
  set_pending_requests : gset Account -> State -> State;
  pending_requests_set : forall accounts s, pending_requests (set_pending_requests accounts s) = accounts
}.

Inductive PendingDepositSolRequests : Type := .
Inductive PendingWithdrawalRequests : Type := .

#[export] Instance deposit_sol_requests : PendingRequests PendingDepositSolRequests := {
  pending_requests := pending_deposit_sol_request_guards;
  set_pending_requests accounts s := s <| pending_deposit_sol_request_guards := accounts |>;
  pending_requests_set _ _ := eq_refl
}.

#[export] Instance withdrawal_requests : PendingRequests PendingWithdrawalRequests := {
  pending_requests := pending_withdrawal_request_guards;
  set_pending_requests accounts s := s <| pending_withdrawal_request_guards := accounts |>;
  pending_requests_set _ _ := eq_refl
}.

(** A guard of the kind [R] is the account it was created for. *)
Definition guard_new (R : Type) `{PendingRequests R} (s : State) (account : Account) : result State GuardError :=
  let accounts := pending_requests (R := R) s in
  if bool_decide (account ∈ accounts) then Err GuardAlreadyProcessing
  else if (MAX_CONCURRENT <=? size accounts)%nat then Err TooManyConcurrentRequests
  else Ok (set_pending_requests (R := R) ({[account]} ∪ accounts) s).

Definition guard_drop (R : Type) `{PendingRequests R} (s : State) (account : Account) : State :=
  set_pending_requests (R := R) (pending_requests (R := R) s ∖ {[account]}) s.

Definition deposit_sol_guard := guard_new PendingDepositSolRequests.
Definition withdrawal_guard := guard_new PendingWithdrawalRequests.

(** ** Timer guards *)
Inductive TimerGuardError : Type := TimerAlreadyProcessing.

Definition timer_guard_new (s : State) (task : TaskType) : result State TimerGuardError :=
  if bool_decide (task ∈ active_tasks s) then Err TimerAlreadyProcessing
  else Ok (s <| active_tasks := {[task]} ∪ active_tasks s |>).

Definition timer_guard_drop (s : State) (task : TaskType) : State :=
  s <| active_tasks := active_tasks s ∖ {[task]} |>.

(** ** Cycles

    [available] and [refunded] are the values of the runtime when the code
    runs; [msg_cycles_accept] returns the cycles the runtime accepted. *)
Record InsufficientCyclesError := mkInsufficientCycles { ic_expected : Z; ic_received : Z }.

Record RpcCallCharge := mkRpcCallCharge { attached_cycles : Z; fee_on_success : Z }.

Definition charge_caller_cycles (msg_cycles_accept : Z -> Z) (amount : Z) : outcome unit :=
  assert_ (msg_cycles_accept amount =? amount) "Expected to receive the charged amount".

Definition rpc_call_cost (charge : RpcCallCharge) (msg_cycles_refunded : Z) (succeeded : bool) : Z :=
  wadd128 (saturating_sub (attached_cycles charge) msg_cycles_refunded)
    (if succeeded then fee_on_success charge else 0).

Definition charge_rpc_call {T E} (msg_cycles_accept : Z -> Z) (msg_cycles_refunded : Z)
    (charge : RpcCallCharge) (r : result T E) : outcome unit :=
  charge_caller_cycles msg_cycles_accept (rpc_call_cost charge msg_cycles_refunded (is_ok r)).

Definition check_caller_available_cycles (msg_cycles_available expected : Z)
    : result Z InsufficientCyclesError :=
  if msg_cycles_available <? expected then Err (mkInsufficientCycles expected msg_cycles_available)
  else Ok msg_cycles_available.

(** ** Guards over time

    A request holds its guard from its creation until it is dropped; guards of
    different requests interleave freely. *)
Inductive guard_step (R : Type) `{PendingRequests R} : State * list Account -> State * list Account -> Prop :=
  | guard_acquired s live account s' :
      guard_new R s account = Ok s' -> guard_step R (s, live) (s', account :: live)
  | guard_released s pre account post :
      guard_step R (s, pre ++ account :: post) (guard_drop R s account, pre ++ post)
  | guard_unrelated s live s' :
      pending_requests (R := R) s' = pending_requests (R := R) s -> guard_step R (s, live) (s', live).

Definition guards_inv (R : Type) `{PendingRequests R} (c : State * list Account) : Prop :=
  NoDup c.2 /\ pending_requests (R := R) c.1 = list_to_set c.2 /\ (length c.2 <= MAX_CONCURRENT)%nat.

Lemma guard_new_Ok (R : Type) `{PendingRequests R} s account s' :
  guard_new R s account = Ok s' <->
  (account ∉ pending_requests (R := R) s) /\ (size (pending_requests (R := R) s) < MAX_CONCURRENT)%nat /\
  s' = set_pending_requests (R := R) ({[account]} ∪ pending_requests (R := R) s) s.
Proof.
  unfold guard_new. case_bool_decide as Hin; [split; [done | by intros (? & _)]|].
  destruct (Nat.leb_spec MAX_CONCURRENT (size (pending_requests (R := R) s))).
  - split; [done|]. intros (_ & ? & _). lia.
  - split; [intros [= <-]; done | by intros (_ & _ & ->)].
Qed.

Lemma guards_inv_step (R : Type) `{PendingRequests R} c c' :
  guards_inv R c -> guard_step R c c' -> guards_inv R c'.
Proof.
  intros (Hnd & Hset & Hlen) Hstep. destruct Hstep as [s live account s' Hnew | s pre account post | s live s' Heq]; cbn in *.
  - apply guard_new_Ok in Hnew as (Hin & Hsize & ->). rewrite Hset in Hin, Hsize.
    rewrite size_list_to_set in Hsize by done.
    split_and!; cbn; [constructor; [set_solver | done] | by rewrite pending_requests_set, Hset | lia].
  - apply NoDup_app in Hnd as (H1 & H2 & H3). apply NoDup_cons in H3 as [H3 H4]. split_and!; cbn.
    + apply NoDup_app. split_and!; [done | | done]. intros x Hx Hp. apply (H2 x Hx). by right.
    + unfold guard_drop. rewrite pending_requests_set, Hset, !list_to_set_app_L. cbn.
      assert (account ∉ pre) by (intros Hp; apply (H2 account Hp); left). set_solver.
    + rewrite !length_app in *. cbn in *. lia.
  - split_and!; cbn; [done | by rewrite Heq | done].
Qed.

(** ** Properties *)

(** However creations and drops of guards interleave, the live guards of
    one kind are for pairwise different accounts, at most a hundred are alive,
    and the accounts recorded in the state are exactly theirs; so a guard is
    refused exactly when the account has a live one or a hundred are alive. *)
Theorem request_guards_exclude (R : Type) `{!PendingRequests R} s0 s live account :
  pending_requests (R := R) s0 = ∅ -> rtc (guard_step R) (s0, []) (s, live) ->
  NoDup live /\ (length live <= 100)%nat /\ pending_requests (R := R) s = list_to_set live /\
  ((exists s', guard_new R s account = Ok s') <-> (account ∉ live) /\ (length live < 100)%nat) /\
  (guard_new R s account = Err GuardAlreadyProcessing <-> account ∈ live).
Proof.
  intros H0 Hrun.
  assert (guards_inv R (s, live)) as (Hnd & Hset & Hlen).
  { refine (rtc_ind_r (R := guard_step R) (guards_inv R) (s0, []) _ _ (s, live) Hrun).
    - split_and!; [constructor | cbn; by rewrite H0 | cbn; lia].
    - intros c c' _ Hstep HI. exact (guards_inv_step R c c' HI Hstep). }
  cbn in *. split_and!; [done | done | done | |].
  - setoid_rewrite guard_new_Ok. rewrite Hset, size_list_to_set by done. setoid_rewrite elem_of_list_to_set.
    unfold MAX_CONCURRENT. naive_solver.
  - unfold guard_new. rewrite Hset. case_bool_decide as Hin; rewrite elem_of_list_to_set in Hin; [done|].
    destruct (MAX_CONCURRENT <=? _)%nat; split; (done || tauto).
Qed.

Definition idle_state : State :=
  mkState None MainnetProdKey1 [7] [8] Mainnet 9000 1000000 2000000 20000000000 0 (Some 10000) 0 ∅ ∅ deposits_default
    ∅ ∅ ∅ ∅ ∅ iom_new ∅ ∅ iom_new (mkNoncePool ∅) ∅ 0.

Lemma request_guards_exclude_witness :
  exists s, guard_new PendingWithdrawalRequests idle_state (mkAccount [1] []) = Ok s /\
    guard_new PendingWithdrawalRequests s (mkAccount [1] []) = Err GuardAlreadyProcessing.
Proof.
  destruct (guard_new PendingWithdrawalRequests idle_state (mkAccount [1] [])) as [s|e] eqn:Hg.
  2:{ exfalso. vm_compute in Hg. discriminate. }
  exists s. split; [reflexivity|].
  apply (request_guards_exclude PendingWithdrawalRequests idle_state s [mkAccount [1] []] (mkAccount [1] [])).
  - vm_compute. reflexivity.
  - eapply rtc_l; [apply guard_acquired; exact Hg | apply rtc_refl].
  - left.
Defined.

(** A timer task runs at most once at a time: while the guard of a task is
    alive, until it is dropped, creating another one fails whatever other
    guards are created and dropped, and once dropped the task can start again. *)
Theorem timer_guard_excludes s task s' (others : list (bool * TaskType)) :
  timer_guard_new s task = Ok s' ->
  Forall (fun o => o.2 <> task) others ->
  let s'' := fold_left (fun s (o : bool * TaskType) =>
    if o.1 then match timer_guard_new s o.2 with Ok s1 => s1 | Err _ => s end else timer_guard_drop s o.2) others s' in
  timer_guard_new s'' task = Err TimerAlreadyProcessing /\
  (exists s1, timer_guard_new (timer_guard_drop s'' task) task = Ok s1).
Proof.
  intros Hnew HF s''. assert (task ∈ active_tasks s') as Hin.
  { unfold timer_guard_new in Hnew. case_bool_decide; [done|]. injection Hnew as <-. read_upd. set_solver. }
  assert (task ∈ active_tasks s'') as Hin'.
  { subst s''. clear Hnew. revert s' Hin. induction HF as [|o others Ho HF IH]; intros s' Hin; [done|]. cbn [fold_left].
    apply IH. destruct o as [[] t]; cbn [fst snd] in *.
    - unfold timer_guard_new. case_bool_decide; [done|]. read_upd. set_solver.
    - unfold timer_guard_drop. read_upd. set_solver. }
  split.
  - unfold timer_guard_new. by rewrite bool_decide_true.
  - unfold timer_guard_new. rewrite bool_decide_false; [by eexists|]. unfold timer_guard_drop. read_upd. set_solver.
Qed.

Lemma timer_guard_excludes_witness :
  exists s, timer_guard_new idle_state TaskMint = Ok s /\
    timer_guard_new (timer_guard_drop s SweepDeposits) TaskMint = Err TimerAlreadyProcessing.
Proof.
  destruct (timer_guard_new idle_state TaskMint) as [s|e] eqn:Hg.
  2:{ exfalso. vm_compute in Hg. discriminate. }
  exists s. split; [reflexivity|].
  refine (proj1 (timer_guard_excludes idle_state TaskMint s [(false, SweepDeposits)] Hg _)).
  constructor; [discriminate | constructor].
Defined.

(** The caller of a call with an attached RPC request pays the cycles the
    request consumed, and the fee on top only when the request succeeded: with
    no more cycles refunded than attached and no 128-bit overflow the charge
    is exactly that, it is covered by a caller that passed the check of the
    cycles required by [deposit_sol], and it never panics when the runtime
    accepts up to the available cycles. *)
Lemma rpc_charge_is_covered {T E} charge refunded available required (r : result T E) :
  0 <= refunded <= attached_cycles charge -> 0 <= fee_on_success charge ->
  attached_cycles charge + fee_on_success charge < u128_modulus ->
  attached_cycles charge + fee_on_success charge <= required ->
  check_caller_available_cycles available required = Ok available ->
  rpc_call_cost charge refunded (is_ok r) =
    attached_cycles charge - refunded + (if is_ok r then fee_on_success charge else 0) /\
  charge_rpc_call (fun amount => Z.min amount available) refunded charge r = Done tt.
Proof.
  intros Hr Hf Ho Hreq Hcheck.
  assert (required <= available) as Hav.
  { unfold check_caller_available_cycles in Hcheck. destruct (Z.ltb_spec available required); [done | lia]. }
  assert (rpc_call_cost charge refunded (is_ok r) =
    attached_cycles charge - refunded + (if is_ok r then fee_on_success charge else 0)) as Hcost.
  { unfold rpc_call_cost, wadd128, saturating_sub. rewrite Z.max_r by lia. apply Z.mod_small. destruct (is_ok r); lia. }
  split; [exact Hcost|]. unfold charge_rpc_call, charge_caller_cycles. rewrite Hcost, Z.min_l by (destruct (is_ok r); lia).
  by rewrite Z.eqb_refl.
Qed.

Example rpc_charge_example :
  charge_rpc_call (fun amount => Z.min amount 20000000000) 4000000000
    (mkRpcCallCharge GET_BALANCE_CYCLES 1000) (Ok 5 : result Z string) = Done tt.
Proof.
  refine (proj2 (rpc_charge_is_covered (mkRpcCallCharge GET_BALANCE_CYCLES 1000) 4000000000 20000000000
    11000000000 (Ok 5 : result Z string) _ _ _ _ _)).
  - vm_compute. split; discriminate.
  - vm_compute. discriminate.
  - vm_compute. reflexivity.
  - vm_compute. discriminate.
  - vm_compute. reflexivity.
Qed.
