(* ===== verification/Rpc.v ===== *)
(** minter/src/rpc, minter/src/withdraw/nonce and minter/src/ledger: how the
    minter reads the responses of the SOL RPC canister and of the ledger. A
    response is an argument; the decoders of the Solana crates are the fields
    of [SolanaDecoders]. *)
From S2P Require Import Prelude Platform Decimal Events Sweeps SolTransfer.

Abbreviation IcError := string (only parsing).
Abbreviation RpcError := string (only parsing).

(** [sol_rpc_types::MultiRpcResult] *)
Inductive MultiRpcResult (A : Type) : Type :=
  | Consistent (r : result A RpcError)
  | Inconsistent.
Arguments Consistent {A} _.
Arguments Inconsistent {A}.

Abbreviation Response A := (result (MultiRpcResult A) IcError) (only parsing).

(** [solana_transaction::VersionedTransaction] *)
Record VersionedTransaction := mkVersionedTransaction {
  vt_signatures : list Signature;
  vt_message : ExecutedMessage
}.

(** [solana_nonce]: the versions and states of a nonce account. *)
Inductive NonceState : Type := Uninitialized | Initialized (authority : Address) (blockhash : Hash).
Inductive NonceVersions : Type := LegacyVersion (state : NonceState) | CurrentVersion (state : NonceState).

Class SolanaDecoders := {
  EncodedTransaction : Type;
  (** [EncodedTransaction::decode] *)
  decode_transaction : EncodedTransaction -> option VersionedTransaction;
  (** [verify_with_results().first() == Some(&true)] *)
  first_signature_valid : VersionedTransaction -> bool;
  (** [UiAccountData::decode] *)
  decode_account_data : string -> option bytes;
  (** [bincode::deserialize] of a nonce account *)
  deserialize_nonce : bytes -> result NonceVersions string;
  (** [Hash::from_str] *)
  parse_hash : string -> result Hash string
}.

(** ** getTransaction *)
Inductive GetTransactionError : Type :=
  | GtIcError (e : IcError)
  | GtRpcError (e : RpcError)
  | GtInconsistentRpcResults
  | UndecodableTransaction (queried : Signature)
  | SignatureMismatch (queried : Signature) (returned : option Signature)
  | InvalidSignature (queried : Signature).

Definition gt_is_response_untrustworthy (e : GetTransactionError) : bool :=
  match e with
  | UndecodableTransaction _ | SignatureMismatch _ _ | InvalidSignature _ => true
  | GtIcError _ | GtRpcError _ | GtInconsistentRpcResults => false
  end.

Record FetchedTransaction := mkFetched {
  ft_transaction : VersionedTransaction;
  ft_meta : option TransactionMeta
}.

Section Decoding.
Context `{Platform} `{SolanaDecoders}.

Definition ensure_signed_with (outcome : EncodedTransaction) (queried : Signature)
    : result VersionedTransaction GetTransactionError :=
  result_bind (ok_or (decode_transaction outcome) (UndecodableTransaction queried)) (fun decoded =>
  match head (vt_signatures decoded) with
  | Some first =>
      if first =? queried then
        if first_signature_valid decoded then Ok decoded else Err (InvalidSignature queried)
      else Err (SignatureMismatch queried (Some first))
  | None => Err (SignatureMismatch queried None)
  end).

Definition get_transaction (signature : Signature)
    (response : Response (option (EncodedTransaction * option TransactionMeta)))
    : result (option FetchedTransaction) GetTransactionError :=
  result_bind (map_err GtIcError response) (fun r =>
  match r with
  | Consistent (Ok (Some (outcome, meta))) =>
      result_bind (ensure_signed_with outcome signature) (fun transaction =>
      Ok (Some (mkFetched transaction meta)))
  | Consistent (Ok None) => Ok None
  | Consistent (Err e) => Err (GtRpcError e)
  | Inconsistent => Err GtInconsistentRpcResults
  end).

(** ** getBalance *)
Inductive GetBalanceError : Type :=
  | GbIcError (e : IcError)
  | GbRpcError (e : RpcError)
  | GbInconsistentRpcResults.

Definition get_balance (response : Response Lamport) : result Lamport GetBalanceError :=
  result_bind (map_err GbIcError response) (fun r =>
  match r with
  | Consistent (Ok balance) => Ok balance
  | Consistent (Err e) => Err (GbRpcError e)
  | Inconsistent => Err GbInconsistentRpcResults
  end).

(** ** getAccountInfo of a nonce account *)
Record UiAccount := mkUiAccount { ui_owner : string; ui_executable : bool; ui_data : string }.

Record OnChainNonce := mkOnChainNonce { on_authority : Address; on_nonce : Hash }.

Inductive GetNonceAccountError : Type :=
  | GnIcError (e : IcError)
  | GnRpcError (e : RpcError)
  | GnInconsistentRpcResults
  | AccountNotFound
  | UnexpectedAccountMetadata (owner : string) (executable : bool)
  | NotAnInitializedNonceAccount (why : string)
  | LegacyNonceAccount.

Definition nonce_account_try_from (account : UiAccount) : result OnChainNonce GetNonceAccountError :=
  if negb (String.eqb (ui_owner account) (address_to_string system_program_id)) || ui_executable account then
    Err (UnexpectedAccountMetadata (ui_owner account) (ui_executable account))
  else
  result_bind (ok_or (decode_account_data (ui_data account))
    (NotAnInitializedNonceAccount "undecodable account data")) (fun data =>
  result_bind (map_err NotAnInitializedNonceAccount (deserialize_nonce data)) (fun versions =>
  match versions with
  | LegacyVersion _ => Err LegacyNonceAccount
  | CurrentVersion Uninitialized => Err (NotAnInitializedNonceAccount "the nonce account is uninitialized")
  | CurrentVersion (Initialized authority blockhash) => Ok (mkOnChainNonce authority blockhash)
  end)).

Definition get_nonce_account (response : Response (option UiAccount)) : result OnChainNonce GetNonceAccountError :=
  result_bind (map_err GnIcError response) (fun r =>
  match r with
  | Consistent (Ok (Some account)) => nonce_account_try_from account
  | Consistent (Ok None) => Err AccountNotFound
  | Consistent (Err e) => Err (GnRpcError e)
  | Inconsistent => Err GnInconsistentRpcResults
  end).

Inductive ReadNonceError : Type :=
  | ReadGetNonceAccount (e : GetNonceAccountError)
  | ForeignAuthority (authority minter_address : Address).

Definition is_rpc_failure (e : ReadNonceError) : bool :=
  match e with
  | ReadGetNonceAccount (GnIcError _ | GnRpcError _ | GnInconsistentRpcResults) => true
  | ReadGetNonceAccount (AccountNotFound | UnexpectedAccountMetadata _ _ | NotAnInitializedNonceAccount _ | LegacyNonceAccount)
  | ForeignAuthority _ _ => false
  end.

Definition read_verified_nonce (minter_address : Address) (response : Response (option UiAccount))
    : result Hash ReadNonceError :=
  result_bind (map_err ReadGetNonceAccount (get_nonce_account response)) (fun nonce_account =>
  if negb (on_authority nonce_account =? minter_address)
  then Err (ForeignAuthority (on_authority nonce_account) minter_address)
  else Ok (on_nonce nonce_account)).

(** ** getRecentBlock: the slot, the blockhash and the height, if any. *)
Record Block := mkBlock { block_slot : Z; block_blockhash : Hash; block_height : BlockHeight }.

Inductive GetRecentBlockError : Type := GrFailed (errors : list string) | MissingBlockHeight (slot : Z).

Definition get_recent_block (response : result (Z * string * option BlockHeight) (list string))
    : result Block GetRecentBlockError :=
  match response with
  | Ok (slot, blockhash, height) =>
      result_bind (map_err (fun e => GrFailed [e]) (parse_hash blockhash)) (fun blockhash =>
      result_bind (ok_or height (MissingBlockHeight slot)) (fun height =>
      Ok (mkBlock slot blockhash height)))
  | Err errors => Err (GrFailed errors)
  end.
End Decoding.

(** ** getSignatureStatuses and sendTransaction *)
Inductive TransactionConfirmationStatus : Type := Processed | Confirmed | Finalized.

Record TransactionStatus := mkTransactionStatus {
  ts_confirmation_status : option TransactionConfirmationStatus;
  ts_err : option string
}.

Inductive GetSignatureStatusesError : Type :=
  | GsIcError (e : IcError)
  | GsRpcError (e : RpcError)
  | GsInconsistentRpcResults.

(** [request] is the outcome of building the request, which fails when too
    many signatures are given. *)
Definition get_signature_statuses (request : result unit RpcError)
    (response : Response (list (option TransactionStatus)))
    : result (list (option TransactionStatus)) GetSignatureStatusesError :=
  result_bind (map_err GsRpcError request) (fun _ =>
  result_bind (map_err GsIcError response) (fun r =>
  match r with
  | Consistent (Ok statuses) => Ok statuses
  | Consistent (Err e) => Err (GsRpcError e)
  | Inconsistent => Err GsInconsistentRpcResults
  end)).

Inductive SubmitTransactionError : Type :=
  | SuIcError (e : IcError)
  | SuRpcError (e : RpcError)
  | SuInconsistentRpcResults.

Definition rpc_send_transaction (response : Response Signature) : result Signature SubmitTransactionError :=
  match response with
  | Ok (Consistent (Ok signature)) => Ok signature
  | Ok (Consistent (Err e)) => Err (SuRpcError e)
  | Ok Inconsistent => Err SuInconsistentRpcResults
  | Err e => Err (SuIcError e)
  end.

(** ** The ledger *)

(** [icrc_ledger_types::icrc2::transfer_from::TransferFromError] *)
Inductive TransferFromError : Type :=
  | TfBadFee (expected_fee : Z)
  | TfBadBurn (min_burn_amount : Z)
  | TfInsufficientFunds (balance : Z)
  | TfInsufficientAllowance (allowance : Z)
  | TfTooOld
  | TfCreatedInFuture (ledger_time : Z)
  | TfDuplicate (duplicate_of : Z)
  | TfTemporarilyUnavailable
  | TfGenericError (error_code : Z) (message : string).

Inductive BurnError : Type :=
  | BurnTemporarilyUnavailable (message : string)
  | BurnInsufficientFunds (balance : Lamport)
  | BurnInsufficientAllowance (allowance : Lamport).

(** [num_bigint::BigUint::to_u64] *)
Definition to_u64 (n : Z) : option Z := if (0 <=? n) && (n <? u64_modulus) then Some n else None.

Definition parse_burn_transfer_from_error `{Platform} (e : TransferFromError) : outcome BurnError :=
  match e with
  | TfInsufficientFunds balance =>
      balance ← expect (to_u64 balance) "balance should fit in u64"; Done (BurnInsufficientFunds balance)
  | TfInsufficientAllowance allowance =>
      allowance ← expect (to_u64 allowance) "allowance should fit in u64"; Done (BurnInsufficientAllowance allowance)
  | TfTemporarilyUnavailable => Done (BurnTemporarilyUnavailable "Ledger is temporarily unavailable")
  | TfGenericError error_code message =>
      Done (BurnTemporarilyUnavailable
        ("Ledger returned a generic error: code " ++ nat_to_string error_code ++ ", message: " ++ message)%string)
  | TfBadFee expected_fee => Panic ("BUG: unexpected BadFee error, expected_fee: " ++ nat_to_string expected_fee)%string
  | TfBadBurn min_burn_amount => Panic ("BUG: unexpected BadBurn error, min_burn_amount: " ++ nat_to_string min_burn_amount)%string
  | TfTooOld => Panic "BUG: unexpected TooOld error"
  | TfCreatedInFuture ledger_time => Panic ("BUG: unexpected CreatedInFuture error, ledger_time: " ++ decimal ledger_time)%string
  | TfDuplicate duplicate_of => Panic ("BUG: unexpected Duplicate error, duplicate_of: " ++ nat_to_string duplicate_of)%string
  end.

(** What [burn] does with the answer of the ledger. *)
Definition burn `{Platform} (response : result (result Z TransferFromError) IcError) : outcome (result Z BurnError) :=
  match response with
  | Ok (Ok block_index) =>
      block_index ← expect (to_u64 block_index) "ledger block index does not fit into u64"; Done (Ok block_index)
  | Ok (Err e) => e ← parse_burn_transfer_from_error e; Done (Err e)
  | Err ic_error => Done (Err (BurnTemporarilyUnavailable (String.append "Failed to burn tokens: " ic_error)))
  end.

Definition to_ledger_mint_index (block_index : Z) : outcome LedgerMintIndex :=
  expect (to_u64 block_index) "ledger block index does not fit into u64".

(** ** Lemmas *)
Section Decoded.
Context `{Platform} `{SolanaDecoders}.

Lemma ensure_signed_with_Ok encoded queried tx :
  ensure_signed_with encoded queried = Ok tx <->
  decode_transaction encoded = Some tx /\ head (vt_signatures tx) = Some queried /\ first_signature_valid tx = true.
Proof.
  unfold ensure_signed_with. destruct (decode_transaction encoded) as [d|]; cbn; [|naive_solver].
  destruct (head (vt_signatures d)) as [first|] eqn:Hh; [|naive_solver].
  destruct (Z.eqb_spec first queried) as [->|]; [|naive_solver]. destruct (first_signature_valid d) eqn:Hv.
  - split; [intros [= <-]; by rewrite Hv | by intros [[= ->] _]].
  - split; [done|]. intros ([= ->] & _ & Hv'). congruence.
Qed.

Lemma get_transaction_Some signature response f :
  get_transaction signature response = Ok (Some f) <->
  exists encoded, response = Ok (Consistent (Ok (Some (encoded, ft_meta f)))) /\
    decode_transaction encoded = Some (ft_transaction f) /\
    head (vt_signatures (ft_transaction f)) = Some signature /\ first_signature_valid (ft_transaction f) = true.
Proof.
  unfold get_transaction. destruct response as [[[[[encoded meta]|]|e]|]|e]; cbn; try naive_solver.
  destruct (ensure_signed_with encoded signature) as [tx|e] eqn:He; cbn.
  - apply ensure_signed_with_Ok in He as (H1 & H2 & H3). split.
    + intros [= <-]. cbn. eauto 10.
    + destruct f as [t m]. cbn. intros (enc & [= -> ->] & Hd & _). congruence.
  - split; [done|]. destruct f as [t m]. cbn. intros (enc & Heq & Hd). injection Heq as -> ->. assert (ensure_signed_with enc signature = Ok t) as Hok
      by (by apply ensure_signed_with_Ok). congruence.
Qed.

Lemma read_verified_nonce_Ok minter response v :
  read_verified_nonce minter response = Ok v <->
  get_nonce_account response = Ok (mkOnChainNonce minter v).
Proof.
  unfold read_verified_nonce. destruct (get_nonce_account response) as [[auth n]|e]; cbn; [|naive_solver].
  destruct (Z.eqb_spec auth minter); cbn; naive_solver.
Qed.
End Decoded.

(** Decoders for concrete instances: nothing is encoded. *)
#[export] Instance concrete_decoders : SolanaDecoders := {|
  EncodedTransaction := VersionedTransaction;
  decode_transaction := Some;
  first_signature_valid _ := true;
  decode_account_data data := if String.eqb data "" then None else Some [Z.of_nat (String.length data)];
  deserialize_nonce data :=
    match data with [n] => Ok (CurrentVersion (Initialized 5 n)) | _ => Err "not a nonce account" end;
  parse_hash str := if String.eqb str "" then Err "empty" else Ok (Z.of_nat (String.length str))
|}.
