(* ===== verification/Withdraw.v ===== *)
(** minter/src/withdraw: accepting withdrawals, and the timer task that
    creates, signs and sends the withdrawal transactions.

    An asynchronous function is cut at its awaits: each part runs atomically
    on the state and the event log, and the awaited answers are arguments. *)
From S2P Require Import Prelude Platform ConcretePlatform InsertionOrderedMap TimedSizedMap Watchlist NoncePool Events Sweeps Deposits SolTransfer MinterState Replay Invariants Safety Interleaving Batches Parameters Guards Rpc.


Abbreviation Config := (State * list Event)%type (only parsing).

(** ** Accepting a withdrawal *)
Inductive WithdrawSolError : Type :=
  | WdInsufficientFunds (balance : Lamport)
  | WdInsufficientAllowance (allowance : Lamport)
  | WdAlreadyProcessing
  | WdTemporarilyUnavailable (message : string)
  | WdMalformedAddress (message : string)
  | WdInvalidDestination (message : string)
  | WdValueTooSmall (minimum_withdrawal_amount withdrawal_amount : Lamport).

Definition withdraw_guard_error (e : GuardError) : WithdrawSolError :=
  match e with
  | GuardAlreadyProcessing => WdAlreadyProcessing
  | TooManyConcurrentRequests => WdTemporarilyUnavailable "too many concurrent requests"
  end.

Definition withdraw_burn_error (e : BurnError) : WithdrawSolError :=
  match e with
  | BurnTemporarilyUnavailable message => WdTemporarilyUnavailable message
  | BurnInsufficientFunds balance => WdInsufficientFunds balance
  | BurnInsufficientAllowance allowance => WdInsufficientAllowance allowance
  end.

Section Accept.
Context `{Platform}.

Definition RESERVED_ACCOUNT_KEYS : list Address := map sdk_id
  [AddressLookupTable; BpfLoader; BpfLoaderDeprecated; BpfLoaderUpgradeable; ComputeBudget; ConfigProgram;
   Ed25519Program; FeatureProgram; LoaderV4; Secp256k1Program; Secp256r1Program; StakeConfig; StakeProgram;
   SystemProgram; VoteProgram; ZkElgamalProofProgram; ZkTokenProofProgram; SysvarClock; SysvarEpochRewards;
   SysvarEpochSchedule; SysvarFees; SysvarInstructions; SysvarLastRestartSlot; SysvarRecentBlockhashes;
   SysvarRent; SysvarRewards; SysvarSlotHashes; SysvarSlotHistory; SysvarStakeHistory; NativeLoader;
   SysvarProgram].

(** [reserved_account_keys::is_reserved_account_key] *)
Definition is_reserved_account_key (address : Address) : bool := bool_decide (address ∈ RESERVED_ACCOUNT_KEYS).

Definition validate_destination (s : State) (destination : Address) : result unit WithdrawSolError :=
  if is_reserved_account_key destination then
    Err (WdInvalidDestination (address_to_string destination ++ " is an account key reserved by the Solana runtime")%string)
  else if np_contains (nonce_pool s) destination then
    Err (WdInvalidDestination (address_to_string destination ++ " is a durable nonce account of the ckSOL minter")%string)
  else
  result_bind (ok_or (minter_public_key s)
    (WdTemporarilyUnavailable "the minter public key is not yet available, try again later")) (fun master_key =>
  if destination =? minter_address master_key then
    Err (WdInvalidDestination (address_to_string destination ++ " is the ckSOL minter's main address")%string)
  else Ok tt).

Definition validate_nonce_pool_not_empty (s : State) : result unit WithdrawSolError :=
  if np_is_empty (nonce_pool s) then
    Err (WdTemporarilyUnavailable "The durable nonce account pool is empty, no withdrawal can be processed")
  else Ok tt.

(** [withdraw] up to the burn: the state with the guard, and the parsed address. *)
Definition withdraw_request (s : State) (from : Account) (amount_to_burn : Lamport) (address : string)
    : result (State * Address) WithdrawSolError :=
  if amount_to_burn <? minimum_withdrawal_amount s then
    Err (WdValueTooSmall (minimum_withdrawal_amount s) amount_to_burn)
  else
  result_bind (map_err WdMalformedAddress (address_from_str address)) (fun solana_address =>
  result_bind (validate_destination s solana_address) (fun _ =>
  result_bind (validate_nonce_pool_not_empty s) (fun _ =>
  result_bind (map_err withdraw_guard_error (withdrawal_guard s from)) (fun s =>
  Ok (s, solana_address))))).

(** [withdraw] once the ledger answered; the guard is dropped on every return. *)
Definition withdraw_burned (c : Config) (from : Account) (amount_to_burn : Lamport) (solana_address : Address)
    (response : result (result Z TransferFromError) IcError) (now : Timestamp)
    : outcome (Config * result LedgerBurnIndex WithdrawSolError) :=
  let drop_guard c := (guard_drop PendingWithdrawalRequests c.1 from, c.2) in
  burned ← burn response;
  match burned with
  | Err e => Done (drop_guard c, Err (withdraw_burn_error e))
  | Ok block_index =>
      amount_to_transfer ← expect (checked_sub amount_to_burn (withdrawal_fee c.1))
        "BUG: burned amount must be >= withdrawal fee";
      c ← process_event c.1 c.2
        (AcceptedWithdrawalRequest (mkWithdrawalRequest from solana_address block_index amount_to_burn amount_to_transfer)) now;
      Done (drop_guard c, Ok block_index)
  end.

(** The whole call; [during] is what other calls do while the burn is awaited. *)
Definition withdraw (c : Config) (from : Account) (amount_to_burn : Lamport) (address : string)
    (during : Config -> Config) (response : result (result Z TransferFromError) IcError) (now : Timestamp)
    : outcome (Config * result LedgerBurnIndex WithdrawSolError) :=
  match withdraw_request c.1 from amount_to_burn address with
  | Err e => Done (c, Err e)
  | Ok (s, solana_address) => withdraw_burned (during (s, c.2)) from amount_to_burn solana_address response now
  end.
End Accept.

(** ** Creating the transactions *)
Record ReservedBatch := mkReservedBatch {
  rb_nonce_account : Address;
  rb_requests : list WithdrawalRequest
}.

Definition max_batches (s : State) : nat :=
  Nat.min MAX_CONCURRENT_RPC_CALLS (MAX_CONCURRENT_SIGNATURES - size (created_withdrawal_txs s)).

Definition reserved_batches (s : State) : list ReservedBatch :=
  map (fun p => mkReservedBatch p.1 p.2)
    (take (max_batches s) (zip (np_free_accounts (nonce_pool s)) (withdrawal_batches s))).

Definition withdrawal_transfers (requests : list WithdrawalRequest) : list (Address * Lamport) :=
  map (fun request => (wr_solana_address request, wr_amount_to_transfer request)) requests.

Definition burn_indices_of (batch : ReservedBatch) : list LedgerBurnIndex :=
  map wr_burn_block_index (rb_requests batch).

Section Create.
Context `{Platform}.

(** [create_transaction] once the nonce account was read. *)
Definition create_transaction (c : Config) (minter_address : Address) (batch : ReservedBatch)
    (nonce : result Hash ReadNonceError) (now : Timestamp) : outcome (Config * bool) :=
  match nonce with
  | Err _ => Done (c, false)
  | Ok nonce_value =>
      if np_has_seen (nonce_pool c.1) (rb_nonce_account batch) nonce_value then Done (c, false)
      else
      match build_batch_withdrawal_message minter_address (rb_nonce_account batch) nonce_value
              (withdrawal_transfers (rb_requests batch)) with
      | Err _ => Done (c, false)
      | Ok _ =>
          c ← process_event c.1 c.2
            (CreatedWithdrawalTransactionEvent (burn_indices_of batch) (rb_nonce_account batch) nonce_value) now;
          Done (c, true)
      end
  end.

(** ** Signing the transactions *)
Record BoundWithdrawal := mkBoundWithdrawal {
  bw_nonce_account : Address;
  bw_burn_indices : list LedgerBurnIndex;
  bw_message : Message
}.

Definition created_withdrawal_request (s : State) (burn_index : LedgerBurnIndex) : outcome WithdrawalRequest :=
  pending ← expect (created_withdrawal_requests s !! burn_index)
    "BUG: withdrawal request of a created transaction is not in the created bucket";
  Done (pw_request pending).

Definition bound_withdrawal (s : State) (minter_address nonce_account : Address)
    (created : CreatedWithdrawalTransaction) : outcome (result BoundWithdrawal CreateTransferError) :=
  requests ← traverse (created_withdrawal_request s) (ctx_burn_indices created);
  Done (result_bind (build_batch_withdrawal_message minter_address nonce_account (ctx_nonce_value created)
      (withdrawal_transfers requests)) (fun message =>
    Ok (mkBoundWithdrawal nonce_account (ctx_burn_indices created) message))).

(** The order of [Option<LedgerBurnIndex>]. *)
Definition min_index_leb (x y : Address * CreatedWithdrawalTransaction) : bool :=
  match list_min (ctx_burn_indices x.2), list_min (ctx_burn_indices y.2) with
  | None, _ => true
  | Some _, None => false
  | Some a, Some b => a <=? b
  end.

Definition bound_withdrawals (s : State) (minter_address : Address) : outcome (list BoundWithdrawal) :=
  bound ← traverse (fun p => bound_withdrawal s minter_address p.1 p.2)
    (take MAX_CONCURRENT_SIGNATURES (sort_by min_index_leb (btree_iter (created_withdrawal_txs s))));
  Done (omap (fun r => match r with Ok w => Some w | Err _ => None end)
    (bound : list (result BoundWithdrawal CreateTransferError))).

(** [sign_transaction] once the signature was produced. *)
Definition sign_withdrawal (c : Config) (withdrawal : BoundWithdrawal)
    (signed : result Transaction CreateTransferError) (now : Timestamp)
    : outcome (Config * option Transaction) :=
  match signed with
  | Err _ => Done (c, None)
  | Ok transaction =>
      signature ← expect (head (tx_signatures transaction)) "index out of bounds";
      c ← process_event c.1 c.2 (SubmittedTransaction signature (Legacy (tx_message transaction)) [SignerMinter]
        (PurposeWithdrawal (bw_burn_indices withdrawal))) now;
      Done (c, Some transaction)
  end.
End Create.

(** Whether the task runs again after [WITHDRAWAL_PROCESSING_RETRY_DELAY]. *)
Definition reschedules_withdrawals (num_created num_signed : nat) (s : State) : bool :=
  ((0 <? num_created)%nat || (0 <? num_signed)%nat)
  && (can_create_withdrawal_transaction s || has_unsigned_withdrawal_transaction s).

(** ** Lemmas: what other events leave alone *)

(** The requests of the pending bucket are stored under their burn index. *)
Definition pending_keyed (s : State) : Prop :=
  forall b r, pending_withdrawal_requests s !! b = Some r -> wr_burn_block_index (pw_request r) = b.

(** What an event that neither creates a transaction nor upgrades the minter
    keeps of the requests, nonce accounts and funds of a reserved batch. *)
Record keeps_reserved (s s' : State) : Prop := {
  kr_pending : forall b r, pending_withdrawal_requests s !! b = Some r -> pending_withdrawal_requests s' !! b = Some r;
  kr_created : forall b, created_withdrawal_requests s !! b = None -> created_withdrawal_requests s' !! b = None;
  kr_free : forall a acc, np_accounts (nonce_pool s) !! a = Some acc -> na_state acc = Free ->
    np_accounts (nonce_pool s') !! a = Some acc;
  kr_ctx : forall a, created_withdrawal_txs s !! a = None -> created_withdrawal_txs s' !! a = None;
  kr_balance : is_u64 (balance s) -> balance s <= balance s' < u64_modulus
}.

Definition other_event (ev : EventType) : bool :=
  match ev with
  | CreatedWithdrawalTransactionEvent _ _ _ | Upgrade _ | Init _ => false
  | _ => true
  end.

(** An event that changes none of these fields. *)
Lemma keeps_same s s' :
  pending_withdrawal_requests s' = pending_withdrawal_requests s ->
  created_withdrawal_requests s' = created_withdrawal_requests s -> nonce_pool s' = nonce_pool s ->
  created_withdrawal_txs s' = created_withdrawal_txs s -> balance s' = balance s -> keeps_reserved s s'.
Proof.
  intros E1 E2 E3 E4 E5. split; rewrite ?E1, ?E2, ?E3, ?E4, ?E5; [done.. |]. unfold is_u64. lia.
Qed.

Lemma free_keeps pool a pool' b acc :
  np_free pool a = Done pool' -> np_accounts pool !! b = Some acc -> na_state acc = Free ->
  np_accounts pool' !! b = Some acc.
Proof.
  intros (acc' & Ha & Hb & ->)%np_free_Done Hacc Hf. cbn. rewrite lookup_insert_ne; [done|]. intros ->. congruence.
Qed.

Section Interleaving.
Context `{Platform}.

Lemma keeps_other s ev t s' :
  other_event ev = true -> event_fits s ev -> apply_state_transition s ev t = Done s' -> keeps_reserved s s'.
Proof.
  intros Hother Hfit. destruct ev; try discriminate Hother; cbn [apply_state_transition].
  - intros [Hn ->]%process_accepted_Done. split; read_upd; [| done | done | done | unfold is_u64; lia].
    intros b r Hr. rewrite lookup_insert_ne; [done|]. intros <-. congruence.
  - destruct message as [m]. destruct purpose as [ids h|ixs].
    + intros (key & d & r & _ & _ & _ & _ & _ & ->)%process_submitted_sweep_Done. by apply keeps_same.
    + intros (s1 & tx & _ & _ & _ & Hsend & ->)%process_submitted_withdrawal_Done.
      apply send_nonce_withdrawal_Done in Hsend as (a & cr & bound & c & st & _ & _ & _ & _ & _ & _ & Hl & _ & ->).
      apply send_loop in Hl as (_ & _ & Hc & _). split; read_upd; [done | | done | | unfold is_u64; lia].
      * intros b Hb. rewrite Hc. by case_decide.
      * intros a' Ha'. apply lookup_delete_None. by right.
  - intros (tx & d & pool & _ & _ & _ & Hf & ->)%process_succeeded_Done.
    destruct tx as [h|m a v ts]; destruct Hf as [Hf ->]; [by apply keeps_same|].
    split; read_upd; [done | done | | done | unfold is_u64; lia]. intros b acc. by apply (free_keeps _ a).
  - intros (tx & d & pool & _ & _ & _ & Hf & ->)%process_failed_Done.
    destruct tx as [h|m a v ts]; destruct Hf as [Hf ->]; [by apply keeps_same|].
    split; read_upd; [done | done | | done | unfold is_u64; lia]. intros b acc. by apply (free_keeps _ a).
  - intros (h & d & _ & _ & _ & _ & ->)%process_expired_Done. by apply keeps_same.
  - intros (d & _ & ->)%deposit_update_Done. by apply keeps_same.
  - intros (d & sw & _ & _ & _ & ->)%process_credited_Done. split; read_upd; [done | done | done | done|].
    intros Hb. destruct Hfit as (Hr & Hfit & _). unfold wadd. rewrite wrap64_small; unfold is_u64 in *; lia.
  - intros (d & _ & ->)%deposit_update_Done. by apply keeps_same.
  - intros [[_ ->]|[_ ->]]%cache_key_Done; by apply keeps_same.
  - intros (d & _ & ->)%deposit_update_Done. by apply keeps_same.
  - intros (d & _ & ->)%deposit_update_Done. by apply keeps_same.
Qed.

Lemma pending_keyed_event s ev t s' :
  pending_keyed s -> apply_state_transition s ev t = Done s' -> pending_keyed s'.
Proof.
  intros Hk. destruct ev; cbn [apply_state_transition].
  - done.
  - destruct (upgrade s args) as [s1|] eqn:Hu; [|done]. intros Hs%Done_inv. subst s1.
    by apply upgrade_Ok in Hu as (pool & _ & -> & _).
  - intros [_ ->]%process_accepted_Done b r. read_upd. intros [[<- <-]|[_ Hr]]%lookup_insert_Some; [done | by apply Hk].
  - destruct message as [m]. destruct purpose as [ids h|ixs].
    + by intros (key & d & r & _ & _ & _ & _ & _ & ->)%process_submitted_sweep_Done.
    + intros (s1 & tx & _ & _ & _ & Hsend & ->)%process_submitted_withdrawal_Done.
      by apply send_nonce_withdrawal_Done in Hsend as (a & cr & bound & c & st & _ & _ & _ & _ & _ & _ & Hl & _ & ->).
  - by intros (tx & d & pool & _ & _ & _ & _ & ->)%process_succeeded_Done.
  - by intros (tx & d & pool & _ & _ & _ & _ & ->)%process_failed_Done.
  - by intros (h & d & _ & _ & _ & _ & ->)%process_expired_Done.
  - by intros (d & _ & ->)%deposit_update_Done.
  - by intros (d & sw & _ & _ & _ & ->)%process_credited_Done.
  - by intros (d & _ & ->)%deposit_update_Done.
  - by intros [[_ ->]|[_ ->]]%cache_key_Done.
  - by intros (d & _ & ->)%deposit_update_Done.
  - by intros (d & _ & ->)%deposit_update_Done.
  - intros (pool & p & c & tot & _ & Hl & _ & _ & ->)%process_created_Done b r. read_upd.
    apply create_loop in Hl as (_ & _ & _ & _ & Hp & _). rewrite Hp. case_decide; [done | apply Hk].
Qed.

Lemma pending_keyed_run c : minter_run c -> pending_keyed c.1.
Proof.
  induction 1 as [args now c Hinit | c c' Hrun IH Hstep].
  - unfold init in Hinit. destruct (state_try_from args) as [s|] eqn:Hs; [|done]. apply Done_inv in Hinit. subst c.
    apply state_try_from_fields in Hs as (pool & _ & -> & _). intros b r. cbn. by rewrite lookup_empty.
  - pose proof (minter_run_replay _ Hrun) as Hrep.
    destruct Hstep as [s log ev now s' log' Hev | s log s' He Hwf | s log args now s' log' Hup]; cbn [fst snd] in *.
    + apply bind_Done in Hev as (s1 & Hs1 & Hlog). apply Done_inv in Hlog. injection Hlog as <- <-.
      by apply (pending_keyed_event s ev now).
    + pose proof (erase_eq_inv _ _ He) as (_ & _ & _ & _ & _ & _ & E & _). intros b r. rewrite E. apply IH.
    + unfold post_upgrade in Hup. rewrite Hrep in Hup. cbn [mbind outcome_bind] in Hup. destruct args as [args|].
      * apply bind_Done in Hup as (s1 & Hs1 & Hlog). apply Done_inv in Hlog. injection Hlog as <- <-.
        by apply (pending_keyed_event (erase s) (Upgrade args) now).
      * apply Done_inv in Hup. by injection Hup as <- <-.
Qed.
End Interleaving.

(** ** A round of transaction creation

    [R] are the reserved batches whose nonce account is still being read. *)
Definition batch_cost (batch : ReservedBatch) : Z := amounts (rb_requests batch) + BATCH_WITHDRAWAL_TX_FEE.

Record payable (s : State) (R : list ReservedBatch) : Prop := {
  pb_accounts : NoDup (map rb_nonce_account R);
  pb_free : forall batch, batch ∈ R -> exists acc, np_accounts (nonce_pool s) !! rb_nonce_account batch = Some acc /\ na_state acc = Free;
  pb_ctx : forall batch, batch ∈ R -> created_withdrawal_txs s !! rb_nonce_account batch = None;
  pb_indices : NoDup (concat (map burn_indices_of R));
  pb_pending : forall batch r, batch ∈ R -> r ∈ rb_requests batch ->
    (exists p, pending_withdrawal_requests s !! wr_burn_block_index r = Some p /\ pw_request p = r) /\
    created_withdrawal_requests s !! wr_burn_block_index r = None;
  pb_amounts : forall batch r, batch ∈ R -> r ∈ rb_requests batch -> 0 <= wr_amount_to_transfer r;
  pb_balance : is_u64 (balance s);
  pb_covered : R <> [] -> zsum (map batch_cost R) + RENT_EXEMPTION_THRESHOLD <= balance s
}.

Lemma payable_keeps s s' R : payable s R -> keeps_reserved s s' -> payable s' R.
Proof.
  intros [H1 H2 H3 H4 H5 H6 H7 H8] [K1 K2 K3 K4 K5]. destruct (K5 H7) as [K5a K5b]. split; try done.
  - intros batch Hb. destruct (H2 batch Hb) as (acc & Hacc & Hf). exists acc. split; [by apply K3 | done].
  - intros batch Hb. by apply K4, H3.
  - intros batch r Hb Hr. destruct (H5 batch r Hb Hr) as [(p & Hp & Hpr) Hc].
    split; [exists p; split; [by apply K1 | done] | by apply K2].
  - unfold is_u64 in *. lia.
  - intros Hne. specialize (H8 Hne). lia.
Qed.

(** The other batches, once one is done with. *)
Lemma payable_skip s pre batch post : payable s (pre ++ batch :: post) -> payable s (pre ++ post).
Proof.
  intros [H1 H2 H3 H4 H5 H6 H7 H8].
  assert (forall b, b ∈ pre ++ post -> b ∈ pre ++ batch :: post) as Hin.
  { intros b. rewrite !elem_of_app, elem_of_cons. tauto. }
  rewrite !map_app in *. cbn [map concat] in *. rewrite zsum_app in H8. cbn [zsum] in H8.
  rewrite concat_app in H4. cbn [concat] in H4.
  split; rewrite ?map_app, ?concat_app, ?zsum_app.
  - apply NoDup_app in H1 as (A & B & [C D]%NoDup_cons). apply NoDup_app. split_and!; [done| |done]. intros x Hx Hp. apply (B x Hx). by right.
  - auto.
  - auto.
  - apply NoDup_app in H4 as (A & B & (_ & _ & D)%NoDup_app). apply NoDup_app. split_and!; [done| |done].
    intros x Hx Hp. apply (B x Hx). apply elem_of_app. by right.
  - intros b r Hb. by apply H5, Hin.
  - intros b r Hb. by apply H6, Hin.
  - done.
  - intros _. assert (0 <= batch_cost batch).
    { unfold batch_cost. assert (0 <= amounts (rb_requests batch)).
      { apply amounts_nonneg, Forall_forall. intros r Hr. apply (H6 batch r); [|done]. apply elem_of_app. right. left. }
      fee_lia. }
    assert (pre ++ batch :: post <> []) as Hne by (by destruct pre). specialize (H8 Hne). lia.
Qed.

Lemma batch_amount_pending s batch :
  (forall r, r ∈ rb_requests batch -> exists p, pending_withdrawal_requests s !! wr_burn_block_index r = Some p /\ pw_request p = r) ->
  batch_amount (pending_withdrawal_requests s) (burn_indices_of batch) = amounts (rb_requests batch).
Proof.
  intros Hp. unfold batch_amount, amounts, burn_indices_of. rewrite <- list_fmap_compose. apply zsum_map_ext. intros r Hr. cbn.
  destruct (Hp r Hr) as (p & Hlk & <-). unfold request_amount. by rewrite Hlk.
Qed.

(** What the batches cost. *)
Lemma payable_costs s pre batch post :
  payable s (pre ++ batch :: post) ->
  0 <= amounts (rb_requests batch) /\ 0 <= zsum (map batch_cost (pre ++ post)) /\
  batch_cost batch + zsum (map batch_cost (pre ++ post)) + RENT_EXEMPTION_THRESHOLD <= balance s < u64_modulus.
Proof.
  intros [H1 H2 H3 H4 H5 H6 [_ H7] H8].
  assert (forall b, b ∈ pre ++ batch :: post -> 0 <= amounts (rb_requests b)) as Hnn.
  { intros b Hb. apply amounts_nonneg, Forall_forall. intros r Hr. by apply (H6 b). }
  split; [|split].
  - apply Hnn, elem_of_app. right. left.
  - apply zsum_nonneg, Forall_fmap, Forall_forall. intros b Hb. cbn. unfold batch_cost.
    assert (0 <= amounts (rb_requests b)); [|fee_lia]. apply Hnn. revert Hb. rewrite !elem_of_app, elem_of_cons. tauto.
  - split; [|done]. specialize (H8 ltac:(by destruct pre)). rewrite !map_app, !zsum_app in *. cbn [map zsum] in H8. lia.
Qed.

(** The batches do not share accounts or requests. *)
Lemma payable_separate s pre batch post b :
  payable s (pre ++ batch :: post) -> b ∈ pre ++ post ->
  rb_nonce_account batch <> rb_nonce_account b /\
  (forall r, r ∈ rb_requests b -> wr_burn_block_index r ∉ burn_indices_of batch).
Proof.
  intros [H1 _ _ H4 _ _ _ _] Hb. split.
  - rewrite map_app in H1. cbn in H1. rewrite <- (Permutation_middle (map rb_nonce_account pre)) in H1.
    apply NoDup_cons in H1 as [H1 _]. intros Heq. apply H1. rewrite <- map_app, Heq. by apply list_elem_of_fmap_2.
  - intros r Hr Hi. rewrite map_app, concat_app in H4. cbn [map concat] in H4.
    apply NoDup_app in H4 as (_ & H4 & (_ & H4b & _)%NoDup_app).
    assert (forall l, b ∈ l -> wr_burn_block_index r ∈ concat (map burn_indices_of l)) as Hcat.
    { intros l Hbl. apply elem_of_list_concat. exists (burn_indices_of b). split; by apply list_elem_of_fmap_2. }
    apply elem_of_app in Hb as [Hb|Hb]; [|exact (H4b _ Hi (Hcat _ Hb))].
    apply (H4 _ (Hcat _ Hb)), elem_of_app. by left.
Qed.

(** The state after the batch is created still pays for the others. *)
Lemma payable_created s pre batch post acc v p' c' :
  payable s (pre ++ batch :: post) ->
  (forall b, p' !! b = if decide (b ∈ burn_indices_of batch) then None else pending_withdrawal_requests s !! b) ->
  (forall b, c' !! b = if decide (b ∈ burn_indices_of batch) then pending_withdrawal_requests s !! b else created_withdrawal_requests s !! b) ->
  payable (s <| nonce_pool := mkNoncePool (<[rb_nonce_account batch := acc]> (np_accounts (nonce_pool s))) |>
             <| pending_withdrawal_requests := p' |> <| created_withdrawal_requests := c' |>
             <| balance := balance s - batch_cost batch |>
             <| created_withdrawal_txs ::= <[rb_nonce_account batch := mkCreatedTx v (burn_indices_of batch)]> |>) (pre ++ post).
Proof.
  intros HP Hp' Hc'. destruct (payable_costs _ _ _ _ HP) as (C1 & C2 & C3).
  destruct (payable_skip _ _ _ _ HP) as [S1 S2 S3 S4 S5 S6 S7 S8]. split; read_upd; try done.
  - intros b Hb. cbn. rewrite lookup_insert_ne by (by apply (payable_separate s _ _ _ b HP)). by apply S2.
  - intros b Hb. rewrite lookup_insert_ne by (by apply (payable_separate s _ _ _ b HP)). by apply S3.
  - intros b r Hb Hr. rewrite Hp', Hc', !decide_False by (by apply (payable_separate s _ _ _ b HP)). by apply (S5 b).
  - unfold is_u64, batch_cost, RENT_EXEMPTION_THRESHOLD in *. fee_lia.
  - intros _. lia.
Qed.

(** A reserved batch can be created with any nonce value its account has not seen. *)
Lemma payable_create s pre batch post v :
  payable s (pre ++ batch :: post) -> np_has_seen (nonce_pool s) (rb_nonce_account batch) v = false ->
  exists s', process_transaction_created s (burn_indices_of batch) (rb_nonce_account batch) v = Done s' /\
    payable s' (pre ++ post) /\ balance s' = balance s - batch_cost batch /\ RENT_EXEMPTION_THRESHOLD <= balance s'.
Proof.
  intros HP Hseen. destruct (payable_costs _ _ _ _ HP) as (C1 & C2 & C3). pose proof HP as [H1 H2 H3 H4 H5 H6 H7 H8].
  assert (batch ∈ pre ++ batch :: post) as Hb by (apply elem_of_app; right; left).
  destruct (H2 batch Hb) as (acc & Hacc & Hfree).
  assert (exists pool, np_bind (nonce_pool s) (rb_nonce_account batch) v = Done pool) as [pool Hpool].
  { eexists. apply np_bind_Done. exists acc. split_and!; [done | done | | done].
    intros Hin. assert (np_has_seen (nonce_pool s) (rb_nonce_account batch) v = true) by (apply np_has_seen_true; eauto). congruence. }
  pose proof (batch_amount_pending s batch (fun r Hr => proj1 (H5 batch r Hb Hr))) as Hamt.
  rewrite !map_app, !concat_app in H4. cbn [map concat] in H4. apply NoDup_app in H4 as (_ & _ & (H4 & _ & _)%NoDup_app).
  destruct (create_loop_succeeds (burn_indices_of batch) (pending_withdrawal_requests s) (created_withdrawal_requests s) 0)
    as [[[p' c'] tot] Hl].
  { done. }
  { intros b (r & -> & Hr)%list_elem_of_fmap. destruct (H5 batch r Hb Hr) as [(p & Hp & _) Hc]. eauto. }
  { intros b (r & -> & Hr)%list_elem_of_fmap. destruct (H5 batch r Hb Hr) as [(p & Hp & Hpr) _]. unfold request_amount.
    rewrite Hp. cbn. rewrite Hpr. by apply (H6 batch). }
  { rewrite Hamt. unfold batch_cost, RENT_EXEMPTION_THRESHOLD in *. fee_lia. }
  pose proof Hl as (_ & _ & -> & _ & Hp' & Hc')%create_loop. rewrite Hamt, Z.add_0_l in Hl.
  assert (amounts (rb_requests batch) +w BATCH_WITHDRAWAL_TX_FEE = batch_cost batch) as Hw.
  { apply wrap64_small. unfold is_u64, batch_cost, RENT_EXEMPTION_THRESHOLD in *. fee_lia. }
  eexists. split; [|split; [|split]].
  - apply process_created_Done. exists pool, p', c', (amounts (rb_requests batch)). split_and!; [exact Hpool | exact Hl | | by apply H3 | reflexivity].
    rewrite Hw. unfold RENT_EXEMPTION_THRESHOLD in *. lia.
  - apply np_bind_Done in Hpool as (acc' & _ & _ & _ & ->). rewrite Hw. by apply payable_created.
  - read_upd. by rewrite Hw.
  - read_upd. rewrite Hw. lia.
Qed.

(** ** The reserved batches of a reachable state *)
Lemma take_zip {A B} n (l : list A) (k : list B) : take n (zip l k) = zip (take n l) (take n k).
Proof. apply zip_with_take. Qed.

Lemma take_prefix_of {A} n (l : list A) : take n l `prefix_of` l.
Proof. exists (drop n l). by rewrite take_drop. Qed.

Lemma zip_fst_prefix {A B} (l : list A) (k : list B) : (zip l k).*1 `prefix_of` l.
Proof.
  revert k. induction l as [|x l IH]; intros [|y k]; cbn; [apply prefix_nil..|]. by apply prefix_cons.
Qed.

Lemma zip_snd_prefix {A B} (l : list A) (k : list B) : (zip l k).*2 `prefix_of` k.
Proof.
  revert k. induction l as [|x l IH]; intros [|y k]; cbn; [apply prefix_nil..|]. by apply prefix_cons.
Qed.

(** The reserved batches are the first batches, on different free accounts. *)
Lemma reserved_batches_prefix s :
  map rb_nonce_account (reserved_batches s) `prefix_of` np_free_accounts (nonce_pool s) /\
  map rb_requests (reserved_batches s) `prefix_of` withdrawal_batches s.
Proof.
  unfold reserved_batches. rewrite take_zip, <- !list_fmap_compose. split.
  - etrans; [apply zip_fst_prefix | apply take_prefix_of].
  - etrans; [apply zip_snd_prefix | apply take_prefix_of].
Qed.

Lemma zsum_batch_cost R :
  zsum (map batch_cost R) = amounts (concat (map rb_requests R)) + BATCH_WITHDRAWAL_TX_FEE * Z.of_nat (length R).
Proof.
  induction R as [|b R IH]; [done|]. cbn [map zsum concat length]. rewrite IH, amounts_app, Nat2Z.inj_succ.
  unfold batch_cost. fee_lia.
Qed.

Lemma concat_burn_indices R : concat (map burn_indices_of R) = map wr_burn_block_index (concat (map rb_requests R)).
Proof. induction R as [|b R IH]; [done|]. cbn. by rewrite IH, map_app. Qed.

Lemma pending_order_keys s :
  pending_keyed s -> map wr_burn_block_index (pending_requests_in_order s) = btree_keys (pending_withdrawal_requests s).
Proof.
  intros Hk. unfold pending_requests_in_order, btree_values, btree_keys. rewrite <- !list_fmap_compose.
  apply list_fmap_ext. intros i [b r] Hi. cbn. apply Hk, elem_of_btree_iter. by eapply list_elem_of_lookup_2.
Qed.

Lemma elem_of_pending_order s r :
  pending_keyed s -> r ∈ pending_requests_in_order s ->
  exists p, pending_withdrawal_requests s !! wr_burn_block_index r = Some p /\ pw_request p = r.
Proof.
  intros Hk (p & -> & (b & Hb)%elem_of_btree_values)%list_elem_of_fmap. exists p. split; [|done]. by rewrite (Hk b p Hb).
Qed.

Section Reserved.
Context `{Platform}.

Lemma reserved_payable s log :
  minter_run (s, log) -> sized log -> amounts_fit s -> payable s (reserved_batches s).
Proof.
  intros Hrun Hsz Hfit. destruct (minter_run_inv _ Hrun Hsz) as (L & HI & _). pose proof (pending_keyed_run _ Hrun) as Hk.
  cbn [fst snd] in *. destruct (reserved_batches_prefix s) as [Hacc [more Hbs]].
  destruct (withdrawal_batches_spec s Hfit) as (rest & [P1 _ _ P4 _]). rewrite Hbs, concat_app in P1, P4.
  rewrite length_app, length_fmap, Nat2Z.inj_add, amounts_app in P4.
  assert (forall batch, batch ∈ reserved_batches s -> rb_nonce_account batch ∈ np_free_accounts (nonce_pool s)) as Hfree.
  { intros batch Hb. destruct Hacc as [l ->]. apply elem_of_app. left. by apply list_elem_of_fmap_2. }
  assert (forall batch r, batch ∈ reserved_batches s -> r ∈ rb_requests batch -> r ∈ pending_requests_in_order s) as Hreq.
  { intros batch r Hb Hr. rewrite P1. rewrite !elem_of_app. left. left. apply elem_of_list_concat.
    exists (rb_requests batch). split; [done | by apply list_elem_of_fmap_2]. }
  pose proof (pending_in_order_nonneg s Hfit) as Hpos. split.
  - pose proof (NoDup_np_free_accounts (nonce_pool s)) as Hnd. destruct Hacc as [l Hl]. rewrite Hl in Hnd.
    by apply NoDup_app in Hnd as [? _].
  - intros batch Hb. by apply elem_of_np_free_accounts, Hfree.
  - intros batch Hb. apply eq_None_not_Some. intros Hctx.
    destruct (proj2 (nv_bound _ _ _ (mi_nonce _ _ _ HI) (rb_nonce_account batch)) (or_introl Hctx)) as (acc & Ha & Hbd).
    apply Hfree, elem_of_np_free_accounts in Hb as (acc' & Ha' & Hf). congruence.
  - pose proof (NoDup_btree_keys (pending_withdrawal_requests s)) as Hnd. rewrite <- (pending_order_keys s Hk), P1 in Hnd.
    rewrite concat_burn_indices. rewrite !map_app in Hnd. by apply NoDup_app in Hnd as [[? _]%NoDup_app _].
  - intros batch r Hb Hr. destruct (elem_of_pending_order s r Hk (Hreq _ _ Hb Hr)) as (p & Hp & Hpr). split; [eauto|].
    destruct (buckets_disjoint _ _ _ _ _ _ (wr_burn_block_index r) (mi_buckets _ _ _ HI)) as (_ & _ & Hd & _). by apply Hd.
  - intros batch r Hb Hr. rewrite Forall_forall in Hpos. by apply Hpos, (Hreq batch).
  - apply Hfit.
  - intros Hne. rewrite zsum_batch_cost. destruct (available_balance_range s (proj1 Hfit)) as (_ & _ & Hav).
    rewrite P1 in Hpos. apply Forall_app in Hpos as [[Hp1 Hp2]%Forall_app _].
    pose proof (amounts_nonneg _ Hp1). pose proof (amounts_nonneg _ Hp2).
    destruct (reserved_batches s); [done|]. cbn [length] in *. rewrite <- Hav; fee_lia.
Qed.
End Reserved.

(** What happens while the nonce accounts of a round are read: a batch is
    created with the nonce value read, or given up, and other events are
    processed. A second round cannot start while the guard of the task is
    alive, and an upgrade ends the round. *)
Inductive round_step `{Platform} : State * list ReservedBatch -> State * list ReservedBatch -> Prop :=
  | round_create s pre batch post nonce_value s' :
      np_has_seen (nonce_pool s) (rb_nonce_account batch) nonce_value = false ->
      process_transaction_created s (burn_indices_of batch) (rb_nonce_account batch) nonce_value = Done s' ->
      round_step (s, pre ++ batch :: post) (s', pre ++ post)
  | round_skip s pre batch post : round_step (s, pre ++ batch :: post) (s, pre ++ post)
  | round_other s R ev now s' :
      other_event ev = true -> event_fits s ev -> apply_state_transition s ev now = Done s' ->
      round_step (s, R) (s', R).

Lemma round_payable `{Platform} c c' : payable c.1 c.2 -> round_step c c' -> payable c'.1 c'.2.
Proof.
  intros HP Hstep. destruct Hstep as [s pre batch post v s' Hs Hc | s pre batch post | s R ev t s' Ho Hf Hev]; cbn in *.
  - destruct (payable_create _ _ _ _ _ HP Hs) as (s1 & Hs1 & HP1 & _). rewrite Hs1 in Hc. apply Done_inv in Hc. by subst.
  - by apply payable_skip in HP.
  - apply (payable_keeps s); [done|]. by apply (keeps_other s ev t).
Qed.

(** Dropping a guard changes no withdrawal. *)
(** The batches of a round stay payable until its end. *)
Lemma payable_round `{Platform} s0 log0 s R :
  minter_run (s0, log0) -> sized log0 -> amounts_fit s0 -> rtc round_step (s0, reserved_batches s0) (s, R) -> payable s R.
Proof.
  intros Hrun Hsz Hfit Hround.
  refine (rtc_ind_r (R := round_step) (fun c => payable c.1 c.2) (s0, reserved_batches s0) _ _ (s, R) Hround).
  - by apply (reserved_payable s0 log0).
  - intros c c' _ Hstep HP. exact (round_payable c c' HP Hstep).
Qed.

Lemma guard_drop_status s account b :
  withdrawal_status (guard_drop PendingWithdrawalRequests s account) b = withdrawal_status s b.
Proof. reflexivity. Qed.

Lemma withdrawal_guard_fields s account s' :
  withdrawal_guard s account = Ok s' ->
  withdrawal_fee s' = withdrawal_fee s /\ pending_withdrawal_requests s' = pending_withdrawal_requests s.
Proof. by intros (_ & _ & ->)%guard_new_Ok. Qed.

Lemma withdraw_request_Ok `{Platform} s from amount address s1 dest :
  withdraw_request s from amount address = Ok (s1, dest) ->
  minimum_withdrawal_amount s <= amount /\ address_from_str address = Ok dest /\
  (dest ∉ RESERVED_ACCOUNT_KEYS) /\ np_contains (nonce_pool s) dest = false /\ np_is_empty (nonce_pool s) = false /\
  (exists key, minter_public_key s = Some key /\ dest <> minter_address key) /\ withdrawal_guard s from = Ok s1.
Proof.
  unfold withdraw_request. destruct (Z.ltb_spec amount (minimum_withdrawal_amount s)); [done|].
  destruct (address_from_str address) as [d|]; cbn [map_err result_bind]; [|done].
  unfold validate_destination, is_reserved_account_key. case_bool_decide as Hr; [done|].
  destruct (np_contains (nonce_pool s) d) eqn:Hc; [done|].
  destruct (minter_public_key s) as [key|]; cbn [ok_or result_bind]; [|done].
  destruct (Z.eqb_spec d (minter_address key)); [done|]. cbn [result_bind]. unfold validate_nonce_pool_not_empty.
  destruct (np_is_empty (nonce_pool s)) eqn:He; [done|]. cbn [result_bind].
  destruct (withdrawal_guard s from) as [s2|]; cbn [map_err result_bind]; [|done]. intros [= -> ->]. split_and!; eauto.
Qed.

(** ** Signing a created transaction *)
Definition submits_to `{Platform} (a : Address) (ev : EventType) : Prop :=
  match ev with
  | SubmittedTransaction _ m _ (PurposeWithdrawal _) => advanced_nonce_account m = Some a
  | _ => False
  end.

(** What happens while the signature of the transaction on [a] is awaited. *)
Inductive unsent_step `{Platform} (a : Address) : Config -> Config -> Prop :=
  | unsent_event s log ev now s' log' :
      ~ submits_to a ev -> process_event s log ev now = Done (s', log') -> unsent_step a (s, log) (s', log')
  | unsent_transient s log s' :
      erase s' = erase s -> wl_wf (watchlist (deposits s')) -> unsent_step a (s, log) (s', log).

(** The created transaction and its requests are still there. *)
Record still_bound (s s' : State) (a : Address) (cr : CreatedWithdrawalTransaction) : Prop := {
  sb_ctx : created_withdrawal_txs s' !! a = Some cr;
  sb_requests : forall b, b ∈ ctx_burn_indices cr -> created_withdrawal_requests s' !! b = created_withdrawal_requests s !! b
}.

Lemma still_bound_same s s' a cr :
  created_withdrawal_txs s !! a = Some cr -> created_withdrawal_txs s' = created_withdrawal_txs s ->
  created_withdrawal_requests s' = created_withdrawal_requests s -> still_bound s s' a cr.
Proof. intros Ha E1 E2. split; [by rewrite E1 | by rewrite E2]. Qed.

Section Signing.
Context `{Platform}.

Lemma still_bound_event s L acc a cr ev t s' :
  min_inv s L acc -> created_withdrawal_txs s !! a = Some cr -> ~ submits_to a ev ->
  apply_state_transition s ev t = Done s' -> still_bound s s' a cr.
Proof.
  intros HI Ha Hno. destruct ev; cbn [apply_state_transition].
  - done.
  - destruct (upgrade s args) as [s1|] eqn:Hu; [|done]. intros Hs%Done_inv. subst s1.
    apply upgrade_Ok in Hu as (pool & _ & -> & _). by apply still_bound_same.
  - intros [_ ->]%process_accepted_Done. by apply still_bound_same.
  - destruct message as [m]. destruct purpose as [ids h|ixs].
    + intros (key & d & r & _ & _ & _ & _ & _ & ->)%process_submitted_sweep_Done. by apply still_bound_same.
    + intros (s1 & tx & _ & _ & _ & Hsend & ->)%process_submitted_withdrawal_Done.
      apply send_nonce_withdrawal_Done in Hsend as (a' & cr' & bound & c & st & Ha' & Hcr' & _ & _ & _ & _ & Hl & _ & ->).
      apply send_loop in Hl as (_ & _ & Hc & _). cbn in Hno.
      assert (a' <> a) as Hne by (intros ->; by apply Hno). split; read_upd.
      * by rewrite lookup_delete_ne.
      * intros b Hb. rewrite Hc. case_decide as Hb'; [|done].
        destruct Hne. exact (rq_disjoint _ _ _ _ (mi_requests _ _ _ HI) _ _ _ _ b Hcr' Ha Hb' Hb).
  - intros (tx & d & pool & _ & _ & _ & _ & ->)%process_succeeded_Done. by apply still_bound_same.
  - intros (tx & d & pool & _ & _ & _ & _ & ->)%process_failed_Done. by apply still_bound_same.
  - intros (h & d & _ & _ & _ & _ & ->)%process_expired_Done. by apply still_bound_same.
  - intros (d & _ & ->)%deposit_update_Done. by apply still_bound_same.
  - intros (d & sw & _ & _ & _ & ->)%process_credited_Done. by apply still_bound_same.
  - intros (d & _ & ->)%deposit_update_Done. by apply still_bound_same.
  - intros [[_ ->]|[_ ->]]%cache_key_Done; by apply still_bound_same.
  - intros (d & _ & ->)%deposit_update_Done. by apply still_bound_same.
  - intros (d & _ & ->)%deposit_update_Done. by apply still_bound_same.
  - intros (pool & p & c & tot & _ & Hl & _ & Hna & ->)%process_created_Done.
    apply create_loop in Hl as (_ & Hin & _ & _ & _ & Hc). split; read_upd.
    + rewrite lookup_insert_ne; [done|]. intros ->. congruence.
    + intros b Hb. rewrite Hc. case_decide as Hb'; [|done]. destruct (Hin b Hb') as [_ Hn].
      destruct (proj2 (rq_created _ _ _ _ (mi_requests _ _ _ HI) b)) as [r Hr]; [eauto | congruence].
Qed.

Lemma still_bound_run a c0 c cr key :
  minter_run c0 -> rtc (unsent_step a) c0 c -> created_withdrawal_txs c0.1 !! a = Some cr ->
  minter_public_key c0.1 = Some key ->
  minter_run c /\ (sized c.2 -> still_bound c0.1 c.1 a cr /\ minter_public_key c.1 = Some key).
Proof.
  intros Hrun0 Hsteps Ha Hk.
  refine (rtc_ind_r (R := unsent_step a) (fun c => minter_run c /\ (sized c.2 -> still_bound c0.1 c.1 a cr /\ minter_public_key c.1 = Some key))
    c0 _ _ c Hsteps).
  { split; [done|]. intros _. by split. }
  clear c Hsteps. intros c c' _ Hstep [Hrun IH].
  destruct Hstep as [s log ev now s' log' Hno Hev | s log s' He Hwf]; cbn [fst snd] in *.
  - split; [eapply run_step; [exact Hrun | by eapply step_event]|]. intros Hsz'.
    apply bind_Done in Hev as (s1 & Hs1 & Hlog). apply Done_inv in Hlog. injection Hlog as <- <-.
    apply sized_snoc in Hsz' as [Hsz _]. destruct (IH Hsz) as [[Hb1 Hb2] Hk1].
    destruct (minter_run_inv _ Hrun Hsz) as (L & HI & _). destruct (still_bound_event _ _ _ _ _ _ _ _ HI Hb1 Hno Hs1) as [Hc1 Hc2].
    split; [|by apply (key_kept_event s ev now)]. split; [done|]. intros b Hb. rewrite Hc2 by done. by apply Hb2.
  - split; [eapply run_step; [exact Hrun | by apply step_transient]|]. intros Hsz. destruct (IH Hsz) as [[Hb1 Hb2] Hk1].
    pose proof (erase_eq_inv _ _ He) as (_ & _ & _ & _ & _ & E5 & _ & E7 & _).
    split; [split; [by rewrite E5 | by rewrite E7]|]. rewrite <- Hk1. exact (f_equal minter_public_key He).
Qed.

(** Signing reads the same requests as the check of the submitted message. *)
Lemma bound_transfers_requests s cr :
  bound_transfers s cr =
  (requests ← traverse (created_withdrawal_request s) (ctx_burn_indices cr); Done (withdrawal_transfers requests)).
Proof.
  unfold bound_transfers. induction (ctx_burn_indices cr) as [|b ixs IH]; [done|]. cbn [traverse]. rewrite IH.
  assert (created_withdrawal_request s b = (p ← expect (created_withdrawal_requests s !! b)
    "BUG: withdrawal request of a created transaction is not in the created bucket"; Done (pw_request p))) as -> by reflexivity.
  destruct (created_withdrawal_requests s !! b); [|reflexivity]. cbn [expect mbind outcome_bind].
  destruct (traverse (created_withdrawal_request s) ixs); reflexivity.
Qed.

Lemma bound_withdrawal_transfers s addr a cr :
  bound_withdrawal s addr a cr =
  (transfers ← bound_transfers s cr;
   Done (result_bind (build_batch_withdrawal_message addr a (ctx_nonce_value cr) transfers) (fun message =>
     Ok (mkBoundWithdrawal a (ctx_burn_indices cr) message)))).
Proof.
  unfold bound_withdrawal. rewrite bound_transfers_requests. destruct (traverse (created_withdrawal_request s) _); reflexivity.
Qed.

Lemma bound_transfers_ext s s' cr :
  (forall b, b ∈ ctx_burn_indices cr -> created_withdrawal_requests s' !! b = created_withdrawal_requests s !! b) ->
  bound_transfers s' cr = bound_transfers s cr.
Proof.
  intros Heq. unfold bound_transfers. induction (ctx_burn_indices cr) as [|b ixs IH]; [done|]. cbn [traverse].
  rewrite (Heq b ltac:(left)). rewrite IH; [done|]. intros b' Hb'. apply Heq. by right.
Qed.

Lemma bound_transfers_succeeds s L acc a cr :
  min_inv s L acc -> created_withdrawal_txs s !! a = Some cr -> exists transfers, bound_transfers s cr = Done transfers.
Proof.
  intros HI Ha. unfold bound_transfers.
  assert (forall b, b ∈ ctx_burn_indices cr -> is_Some (created_withdrawal_requests s !! b)) as Hin.
  { intros b Hb. apply (rq_created _ _ _ _ (mi_requests _ _ _ HI)). eauto. }
  induction (ctx_burn_indices cr) as [|b ixs IH]; [by eexists|]. cbn [traverse].
  destruct (Hin b ltac:(left)) as [r ->]. destruct IH as [ts ->]; [|by eexists]. intros b' Hb'. apply Hin. by right.
Qed.
End Signing.

(** ** Properties *)

(** The example execution stopped when its two withdrawals were accepted. *)
Definition example_accepted : list Event := example_take 11.
Definition accepted_state : State := example_state_at 11.

Lemma example_accepted_run : minter_run (accepted_state, example_accepted).
Proof. apply replay_run. vm_compute. reflexivity. Qed.

Lemma example_accepted_sized : sized example_accepted.
Proof. split; [vm_compute; discriminate|]. apply (bool_decide_unpack (NoDup _)). vm_compute. exact I. Qed.

Lemma example_accepted_fit : amounts_fit accepted_state.
Proof.
  split; [vm_compute; split; [discriminate | reflexivity]|].
  apply (bool_decide_unpack (map_Forall (fun _ r => 0 <= wr_amount_to_transfer (pw_request r)) (pending_withdrawal_requests accepted_state))).
  vm_compute. exact I.
Qed.

Definition example_batch : ReservedBatch := mkReservedBatch nonce1 [example_request 10 1000000; example_request 11 2000000].

(** C11: a round of transaction creation never panics, however it interleaves
    with the rest of the minter: whatever nonce value is read for a batch
    reserved at the start of the round, and whatever other batches of the
    round were created and other events processed in the meantime, handling
    it either leaves the state unchanged or creates the transaction, paid for
    by the balance with the rent-exemption threshold left over. *)
Theorem reserved_batches_stay_payable `{!Platform} s0 log0 s R batch log minter nonce now :
  minter_run (s0, log0) -> sized log0 -> amounts_fit s0 ->
  rtc round_step (s0, reserved_batches s0) (s, R) -> batch ∈ R ->
  create_transaction (s, log) minter batch nonce now = Done ((s, log), false) \/
  exists v s', nonce = Ok v /\
    create_transaction (s, log) minter batch nonce now =
      Done ((s', record_event log (CreatedWithdrawalTransactionEvent (burn_indices_of batch) (rb_nonce_account batch) v) now), true) /\
    balance s' = balance s - amounts (rb_requests batch) - BATCH_WITHDRAWAL_TX_FEE /\
    RENT_EXEMPTION_THRESHOLD <= balance s'.
Proof.
  intros Hrun Hsz Hfit Hround Hbatch.
  pose proof (payable_round _ _ _ _ Hrun Hsz Hfit Hround) as HP.
  unfold create_transaction. cbn [fst snd]. destruct nonce as [v|e]; [|by left].
  destruct (np_has_seen (nonce_pool s) (rb_nonce_account batch) v) eqn:Hseen; [by left|].
  destruct (build_batch_withdrawal_message _ _ _ _) as [m|e]; [|by left]. right.
  apply list_elem_of_split in Hbatch as (pre & post & ->).
  destruct (payable_create _ _ _ _ _ HP Hseen) as (s' & Hs' & _ & Hbal & Hrent). exists v, s'.
  unfold process_event. cbn [apply_state_transition]. rewrite Hs'. cbn [mbind outcome_bind].
  split_and!; [done | done | unfold batch_cost in Hbal; lia | done].
Qed.

Lemma reserved_batches_stay_payable_witness :
  reserved_batches accepted_state = [example_batch] /\
  (create_transaction (accepted_state, []) 5 example_batch (Ok 321) 9 = Done ((accepted_state, []), false) \/
   exists v s', (Ok 321 : result Hash ReadNonceError) = Ok v /\
    create_transaction (accepted_state, []) 5 example_batch (Ok 321) 9 =
      Done ((s', record_event [] (CreatedWithdrawalTransactionEvent (burn_indices_of example_batch) (rb_nonce_account example_batch) v) 9), true) /\
    balance s' = balance accepted_state - amounts (rb_requests example_batch) - BATCH_WITHDRAWAL_TX_FEE /\
    RENT_EXEMPTION_THRESHOLD <= balance s').
Proof.
  split; [vm_compute; reflexivity|].
  apply (reserved_batches_stay_payable accepted_state example_accepted accepted_state (reserved_batches accepted_state)
    example_batch [] 5 (Ok 321) 9 example_accepted_run example_accepted_sized example_accepted_fit).
  - apply rtc_refl.
  - assert (reserved_batches accepted_state = [example_batch]) as -> by (vm_compute; reflexivity). left.
Defined.

(** C18: burned ckSOL is never lost: a withdrawal passes the checks only with
    at least the minimum amount and a destination that is neither reserved,
    nor a nonce account, nor the minter itself; then, whatever other calls did
    while the ledger was asked, if the ledger burned the amount in a fresh
    block the request is recorded as pending for the burned amount less the
    fee, which is at least the rent-exemption threshold, and if the ledger
    refused nothing is recorded; in both cases the guard is released. *)
Theorem withdraw_records_burn `{!Platform} s from amount address s1 dest s2 log2 now :
  validate s = Ok tt -> is_u64 (withdrawal_fee s + RENT_EXEMPTION_THRESHOLD) -> 0 <= withdrawal_fee s ->
  withdraw_request s from amount address = Ok (s1, dest) ->
  withdrawal_fee s2 = withdrawal_fee s ->
  (minimum_withdrawal_amount s <= amount /\ (dest ∉ RESERVED_ACCOUNT_KEYS) /\ np_contains (nonce_pool s) dest = false /\
   exists key, minter_public_key s = Some key /\ dest <> minter_address key) /\
  (forall block, is_u64 block -> pending_withdrawal_requests s2 !! block = None ->
     exists s3, withdraw_burned (s2, log2) from amount dest (Ok (Ok block)) now =
         Done ((s3, record_event log2 (AcceptedWithdrawalRequest
           (mkWithdrawalRequest from dest block amount (amount - withdrawal_fee s))) now), Ok block) /\
       withdrawal_status s3 block = WithdrawalPending /\ RENT_EXEMPTION_THRESHOLD <= amount - withdrawal_fee s /\
       (from ∉ pending_withdrawal_request_guards s3)) /\
  (forall response e, burn response = Done (Err e) ->
     exists s3, withdraw_burned (s2, log2) from amount dest response now = Done ((s3, log2), Err (withdraw_burn_error e)) /\
       erase s3 = erase s2 /\ (from ∉ pending_withdrawal_request_guards s3)).
Proof.
  intros Hv%validate_valid Hfee Hpos (Hmin & _ & Hres & Hnp & _ & Hkey & _)%withdraw_request_Ok Hsame.
  assert (withdrawal_fee s + RENT_EXEMPTION_THRESHOLD <= minimum_withdrawal_amount s) as Hle.
  { pose proof (vp_withdrawal _ Hv) as Hw. unfold wadd in Hw. by rewrite (wrap64_small _ Hfee) in Hw. }
  split; [done|]. split.
  - intros block Hb Hnone. unfold withdraw_burned, burn, to_u64. cbv zeta.
    rewrite (proj2 (Z.leb_le 0 block)), (proj2 (Z.ltb_lt block u64_modulus)) by (unfold is_u64 in Hb; lia).
    cbn [andb expect mbind outcome_bind fst snd]. rewrite Hsame.
    assert (withdrawal_fee s <= amount) as Hcov by (unfold RENT_EXEMPTION_THRESHOLD in *; lia).
    rewrite (proj2 (checked_sub_Some amount (withdrawal_fee s) _) (conj eq_refl Hcov)). cbn [expect mbind outcome_bind].
    unfold process_event. cbn [apply_state_transition].
    set (r := mkWithdrawalRequest from dest block amount (amount - withdrawal_fee s)).
    rewrite (proj2 (process_accepted_Done s2 r now _) (conj Hnone eq_refl)). cbn [mbind outcome_bind fst snd].
    eexists. split; [reflexivity|]. split_and!; [|lia|].
    + rewrite guard_drop_status, withdrawal_status_at. read_upd. unfold r. cbn [wr_burn_block_index]. by rewrite lookup_insert_eq.
    + unfold guard_drop. cbn. read_upd. set_solver.
  - intros response e Hburn. unfold withdraw_burned. rewrite Hburn. cbn [mbind outcome_bind fst snd]. eexists.
    split; [reflexivity|]. split; [reflexivity|]. unfold guard_drop. cbn. read_upd. set_solver.
Qed.

Lemma withdraw_records_burn_witness :
  exists s1, withdraw_request accepted_state (mkAccount [1] []) 1009000 "d1" = Ok (s1, match address_from_str "d1" with Ok a => a | Err _ => 0 end) /\
  exists s3, withdraw_burned (s1, []) (mkAccount [1] []) 1009000 (match address_from_str "d1" with Ok a => a | Err _ => 0 end) (Ok (Ok 12)) 9 =
         Done ((s3, record_event [] (AcceptedWithdrawalRequest
           (mkWithdrawalRequest (mkAccount [1] []) (match address_from_str "d1" with Ok a => a | Err _ => 0 end) 12 1009000 (1009000 - withdrawal_fee accepted_state))) 9), Ok 12).
Proof.
  destruct (withdraw_request accepted_state (mkAccount [1] []) 1009000 "d1") as [[s1 dest]|e] eqn:Hreq.
  2:{ exfalso. vm_compute in Hreq. discriminate. }
  pose proof (withdraw_request_Ok _ _ _ _ _ _ Hreq) as (_ & Hd & _ & _ & _ & _ & Hg). rewrite Hd. exists s1. split; [reflexivity|].
  apply withdrawal_guard_fields in Hg as [Hf Hp].
  destruct (withdraw_records_burn accepted_state (mkAccount [1] []) 1009000 "d1" s1 dest s1 [] 9) as (_ & Hburned & _).
  - vm_compute. reflexivity.
  - vm_compute. split; [discriminate | reflexivity].
  - vm_compute. discriminate.
  - exact Hreq.
  - exact Hf.
  - destruct (Hburned 12) as (s3 & Hs3 & _).
    + vm_compute. split; [discriminate | reflexivity].
    + rewrite Hp. vm_compute. reflexivity.
    + exists s3. exact Hs3.
Defined.

(** Recording the signed transaction of a created withdrawal. *)
Lemma sign_bound_ok `{!Platform} `{!PlatformLaws} s log a cr key ts m sig now :
  minter_run (s, log) -> sized log -> created_withdrawal_txs s !! a = Some cr -> minter_public_key s = Some key ->
  bound_transfers s cr = Done ts -> build_batch_withdrawal_message (minter_address key) a (ctx_nonce_value cr) ts = Ok m ->
  (sig ∉ succeeded_transactions s) -> iom_get (failed_transactions s) sig = None -> iom_get (submitted_transactions s) sig = None ->
  exists s' ev, sign_withdrawal (s, log) (mkBoundWithdrawal a (ctx_burn_indices cr) m) (Ok (mkTransaction [sig] m)) now =
      Done ((s', log ++ [mkEvent now ev]), Some (mkTransaction [sig] m)) /\
    apply_state_transition s ev now = Done s' /\ accepted_of ev = [] /\
    iom_get (submitted_transactions s') sig = Some (TxWithdrawal (Legacy m) a (ctx_nonce_value cr) now) /\
    forall b, b ∈ ctx_burn_indices cr -> withdrawal_status s' b = WithdrawalTxSent sig.
Proof.
  intros Hrun Hsz Hctx Hkey Hts Hm Hns Hnf Hsub. destruct (minter_run_inv _ Hrun Hsz) as (L & HI & _). cbn [fst snd] in *.
  pose proof (mi_requests _ _ _ HI) as HR.
  destruct (send_loop_succeeds sig (ctx_burn_indices cr) (created_withdrawal_requests s) (sent_withdrawal_requests s)) as [[c st] Hl].
  { by apply (rq_nodup _ _ _ _ HR a). }
  { intros b Hb. assert (is_Some (created_withdrawal_requests s !! b)) as Hs by (apply (rq_created _ _ _ _ HR); eauto).
    split; [done|]. exact (proj1 (proj1 (proj2 (buckets_disjoint _ _ _ _ _ _ b (mi_buckets _ _ _ HI))) Hs)). }
  assert (bound_withdrawal_message s a cr = Done m) as Hbound.
  { unfold bound_withdrawal_message. rewrite Hkey. cbn [expect mbind outcome_bind]. rewrite Hts. cbn [mbind outcome_bind]. by rewrite Hm. }
  destruct (build_batch_nonce _ _ _ _ _ Hm) as [Hadv _].
  assert (exists s', process_transaction_submitted s sig (Legacy m) [SignerMinter] (PurposeWithdrawal (ctx_burn_indices cr)) now = Done s' /\
    iom_get (submitted_transactions s') sig = Some (TxWithdrawal (Legacy m) a (ctx_nonce_value cr) now) /\
    forall b, b ∈ ctx_burn_indices cr -> withdrawal_status s' b = WithdrawalTxSent sig) as (s' & Hs' & Hsub' & Hst).
  - eexists. split; [|split].
    + apply process_submitted_withdrawal_Done. eexists _, _. split_and!; [exact Hns | exact Hnf | exact Hsub | | reflexivity].
      apply send_nonce_withdrawal_Done. exists a, cr, m, c, st.
      split_and!; [exact Hadv | exact Hctx | reflexivity | exact Hbound | reflexivity | reflexivity | exact Hl | reflexivity | reflexivity].
    + read_upd. by rewrite iom_insert_get, decide_True.
    + intros b Hb. rewrite withdrawal_status_at. read_upd. pose proof Hl as (_ & Hin & Hc & Hst)%send_loop.
      destruct (Hin b Hb) as [Hcb _]. destruct (buckets_disjoint _ _ _ _ _ _ b (mi_buckets _ _ _ HI)) as (_ & Hd & _).
      destruct (Hd Hcb) as (_ & _ & _ & ->). rewrite Hc, Hst, !decide_True by done. by destruct Hcb as [r ->].
  - exists s'. eexists. unfold sign_withdrawal, process_event.
    cbn [tx_signatures tx_message head expect mbind outcome_bind fst snd apply_state_transition bw_burn_indices]. rewrite Hs'.
    split; [reflexivity|]. by split_and!.
Qed.

(** A created withdrawal transaction can always be signed and recorded:
    rebuilding its message never panics, and when the signature arrives,
    whatever else the minter did in the meantime short of submitting a
    transaction on the same nonce account, recording it under a fresh
    signature never panics, submits exactly the message bound to the nonce
    account, and marks each of its withdrawals as sent. *)
Theorem bound_withdrawal_is_submitted `{!Platform} `{!PlatformLaws} s0 log0 s log a cr key sig now :
  minter_run (s0, log0) -> sized log -> rtc (unsent_step a) (s0, log0) (s, log) ->
  created_withdrawal_txs s0 !! a = Some cr -> minter_public_key s0 = Some key ->
  (sig ∉ succeeded_transactions s) -> iom_get (failed_transactions s) sig = None ->
  iom_get (submitted_transactions s) sig = None -> sized log0 ->
  (exists r, bound_withdrawal s0 (minter_address key) a cr = Done r) /\
  forall w, bound_withdrawal s0 (minter_address key) a cr = Done (Ok w) ->
    exists s' log', sign_withdrawal (s, log) w (Ok (mkTransaction [sig] (bw_message w))) now =
        Done ((s', log'), Some (mkTransaction [sig] (bw_message w))) /\
      iom_get (submitted_transactions s') sig = Some (TxWithdrawal (Legacy (bw_message w)) a (ctx_nonce_value cr) now) /\
      forall b, b ∈ ctx_burn_indices cr -> withdrawal_status s' b = WithdrawalTxSent sig.
Proof.
  intros Hrun0 Hsz Hsteps Ha Hk Hns Hnf Hsub Hsz0.
  destruct (minter_run_inv _ Hrun0 Hsz0) as (L0 & HI0 & _). cbn [fst snd] in *.
  destruct (bound_transfers_succeeds s0 _ _ a cr HI0 Ha) as [ts Hts]. split.
  { rewrite bound_withdrawal_transfers, Hts. cbn [mbind outcome_bind]. by eexists. }
  intros w Hw. rewrite bound_withdrawal_transfers, Hts in Hw. cbn [mbind outcome_bind] in Hw. apply Done_inv in Hw.
  destruct (build_batch_withdrawal_message (minter_address key) a (ctx_nonce_value cr) ts) as [m|e] eqn:Hm; [|done].
  cbn [result_bind] in Hw. injection Hw as <-. cbn [bw_message bw_burn_indices].
  destruct (still_bound_run a _ _ cr key Hrun0 Hsteps Ha Hk) as [Hrun Hsb]. destruct (Hsb Hsz) as [[Hctx Hreq] Hkey].
  destruct (sign_bound_ok s log a cr key ts m sig now) as (s' & ev & Hs' & _ & _ & H1 & H2); [done..| | done | done | done | done |].
  { by rewrite (bound_transfers_ext s0 s cr Hreq). }
  exists s'. by eexists.
Qed.

(** The example execution stopped when its withdrawal transaction was created. *)
Lemma bound_withdrawal_is_submitted_witness :
  exists r, bound_withdrawal (example_state_at 12) (minter_address example_key) nonce1 (mkCreatedTx 321 [10; 11]) = Done r.
Proof.
  refine (proj1 (bound_withdrawal_is_submitted (example_state_at 12) (example_take 12) (example_state_at 12) (example_take 12)
    nonce1 (mkCreatedTx 321 [10; 11]) example_key 901 5 _ _ (rtc_refl _ _) _ _ _ _ _ _)).
  - apply replay_run. vm_compute. reflexivity.
  - split; [vm_compute; discriminate|]. apply (bool_decide_unpack (NoDup _)). vm_compute. exact I.
  - vm_compute. reflexivity.
  - vm_compute. reflexivity.
  - apply (bool_decide_unpack (901 ∉ succeeded_transactions (example_state_at 12))). vm_compute. exact I.
  - vm_compute. reflexivity.
  - vm_compute. reflexivity.
  - split; [vm_compute; discriminate|]. apply (bool_decide_unpack (NoDup _)). vm_compute. exact I.
Defined.
