(* ===== verification/Memo.v ===== *)
(** libs/types/src/memo: the memos of the mints and burns on the ledger, and
    their CBOR encoding (the layout the documentation of
    [MAX_SERIALIZED_MEMO_BYTES] tabulates). *)
From S2P Require Import Prelude Platform.

(** ** Big-endian bytes *)
Fixpoint be_bytes (n : nat) (z : Z) : bytes :=
  match n with
  | O => []
  | S n => be_bytes n (z / 256) ++ [z mod 256]
  end.

Lemma be_bytes_length n z : length (be_bytes n z) = n.
Proof. revert z. induction n as [|n IH]; intros z; [done|]. cbn. rewrite length_app, IH. cbn. lia. Qed.

Lemma be_value_snoc bs b : be_value (bs ++ [b]) = be_value bs * 256 + b.
Proof. unfold be_value. by rewrite fold_left_app. Qed.

Lemma be_value_bytes n : forall z, 0 <= z < 256 ^ Z.of_nat n -> be_value (be_bytes n z) = z.
Proof.
  induction n as [|n IH]; intros z Hz.
  - cbn in *. lia.
  - rewrite Nat2Z.inj_succ, Z.pow_succ_r in Hz by lia. cbn [be_bytes]. rewrite be_value_snoc, IH.
    + rewrite Z.mul_comm. symmetry. apply Z.div_mod. lia.
    + split; [apply Z.div_pos; lia | apply Z.div_lt_upper_bound; lia].
Qed.

(** ** Memos *)
Definition MAX_SERIALIZED_MEMO_BYTES : Z := 81.

Inductive MintMemo : Type := SweepMemo (signature : Signature) (deposit_id : DepositSolId).
Inductive BurnMemo : Type := ConvertMemo (to_address : Address).
Inductive Memo : Type := MemoMint (memo : MintMemo) | MemoBurn (memo : BurnMemo).

Definition mint_memo_sweep (signature : Signature) (deposit_id : DepositSolId) : MintMemo := SweepMemo signature deposit_id.
Definition burn_memo_convert (to_address : Address) : BurnMemo := ConvertMemo to_address.

(** CBOR items: an unsigned integer in as few bytes as possible, and the
    headers of arrays and byte strings. *)
Definition cbor_head (major n : Z) : bytes :=
  if n <=? 23 then [major * 32 + n]
  else if n <=? 255 then (major * 32 + 24) :: be_bytes 1 n
  else if n <=? 65535 then (major * 32 + 25) :: be_bytes 2 n
  else if n <=? u32_max then (major * 32 + 26) :: be_bytes 4 n
  else (major * 32 + 27) :: be_bytes 8 n.

Definition cbor_uint (n : Z) : bytes := cbor_head 0 n.
Definition cbor_array (len : Z) : bytes := cbor_head 4 len.
Definition cbor_bytes (bs : bytes) : bytes := cbor_head 2 (Z.of_nat (length bs)) ++ bs.

(** A variant is the array of its index and the array of its fields. *)
Definition cbor_variant (index fields : Z) (body : bytes) : bytes :=
  cbor_array 2 ++ cbor_uint index ++ cbor_array fields ++ body.

Definition encode_mint_memo (memo : MintMemo) : bytes :=
  match memo with
  | SweepMemo signature deposit_id => cbor_variant 1 2 (cbor_bytes (be_bytes 64 signature) ++ cbor_uint deposit_id)
  end.

Definition encode_burn_memo (memo : BurnMemo) : bytes :=
  match memo with ConvertMemo to_address => cbor_variant 0 1 (cbor_bytes (be_bytes 32 to_address)) end.

(** [From<Memo> for icrc1::transfer::Memo] *)
Definition encode_memo (memo : Memo) : bytes :=
  match memo with
  | MemoMint memo => cbor_variant 0 1 (encode_mint_memo memo)
  | MemoBurn memo => cbor_variant 1 1 (encode_burn_memo memo)
  end.

(** ** A reader of the encoding *)
Definition read_uint (bs : bytes) : option Z :=
  match bs with
  | [b] => if b <=? 23 then Some b else None
  | 24 :: rest => if (length rest =? 1)%nat then Some (be_value rest) else None
  | 25 :: rest => if (length rest =? 2)%nat then Some (be_value rest) else None
  | 26 :: rest => if (length rest =? 4)%nat then Some (be_value rest) else None
  | 27 :: rest => if (length rest =? 8)%nat then Some (be_value rest) else None
  | _ => None
  end.

Definition decode_memo (bs : bytes) : option Memo :=
  match bs with
  | 130 :: 0 :: 129 :: 130 :: 1 :: 130 :: 88 :: 64 :: rest =>
      deposit_id ← read_uint (drop 64 rest);
      Some (MemoMint (SweepMemo (be_value (take 64 rest)) deposit_id))
  | 130 :: 1 :: 129 :: 130 :: 0 :: 129 :: 88 :: 32 :: rest =>
      if (length rest =? 32)%nat then Some (MemoBurn (ConvertMemo (be_value rest))) else None
  | _ => None
  end.

(** The memos the minter writes: fixed-size arrays and 64-bit ids. *)
Definition memo_wf (memo : Memo) : Prop :=
  match memo with
  | MemoMint (SweepMemo signature deposit_id) => 0 <= signature < 256 ^ 64 /\ is_u64 deposit_id
  | MemoBurn (ConvertMemo to_address) => 0 <= to_address < 256 ^ 32
  end.

Lemma encode_mint_layout signature deposit_id :
  encode_memo (MemoMint (SweepMemo signature deposit_id)) =
  [130; 0; 129; 130; 1; 130; 88; 64] ++ be_bytes 64 signature ++ cbor_uint deposit_id.
Proof.
  unfold encode_memo, encode_mint_memo, cbor_variant, cbor_bytes. rewrite be_bytes_length, <- app_assoc. reflexivity.
Qed.

Lemma encode_burn_layout to_address :
  encode_memo (MemoBurn (ConvertMemo to_address)) = [130; 1; 129; 130; 0; 129; 88; 32] ++ be_bytes 32 to_address.
Proof. unfold encode_memo, encode_burn_memo, cbor_variant, cbor_bytes. by rewrite be_bytes_length. Qed.

Lemma cbor_uint_length n : (1 <= length (cbor_uint n) <= 9)%nat.
Proof. unfold cbor_uint, cbor_head. repeat case_match; cbn [length]; rewrite ?be_bytes_length; lia. Qed.

Lemma cbor_uint_small n : n <= u32_max -> (length (cbor_uint n) <= 5)%nat.
Proof.
  intros Hn. unfold cbor_uint, cbor_head. repeat case_match; cbn [length]; rewrite ?be_bytes_length; try lia.
  all: rewrite Z.leb_gt in *; lia.
Qed.

Lemma read_cbor_uint n : is_u64 n -> read_uint (cbor_uint n) = Some n.
Proof.
  unfold is_u64, cbor_uint, cbor_head. intros Hn. change (0 * 32) with 0. rewrite !Z.add_0_l.
  destruct (Z.leb_spec n 23).
  { cbn. destruct n; cbn in *; try lia; try done. repeat (destruct p as [p|p|]; cbn in *; try done; try lia). }
  destruct (Z.leb_spec n 255); [cbn [read_uint]; rewrite be_bytes_length; cbn [Nat.eqb]; rewrite be_value_bytes; [done | cbn; lia]|].
  destruct (Z.leb_spec n 65535); [cbn [read_uint]; rewrite be_bytes_length; cbn [Nat.eqb]; rewrite be_value_bytes; [done | cbn; lia]|].
  unfold u32_max in *.
  destruct (Z.leb_spec n 4294967295); cbn [read_uint]; rewrite be_bytes_length; cbn [Nat.eqb]; rewrite be_value_bytes;
    try done; unfold u64_modulus in *; cbn; lia.
Qed.

(** ** Properties *)

(** C32: a ledger memo determines what it was written for: the encoding of
    every memo the minter writes can be read back, so different memos have
    different encodings; it takes at most [MAX_SERIALIZED_MEMO_BYTES] bytes,
    and at most 77 as long as the deposit id is a 32-bit number. *)
Theorem memo_roundtrip memo :
  memo_wf memo ->
  decode_memo (encode_memo memo) = Some memo /\
  (forall memo', memo_wf memo' -> encode_memo memo' = encode_memo memo -> memo' = memo) /\
  Z.of_nat (length (encode_memo memo)) <= MAX_SERIALIZED_MEMO_BYTES /\
  (forall signature deposit_id, memo = MemoMint (SweepMemo signature deposit_id) -> deposit_id <= u32_max ->
     (length (encode_memo memo) <= 77)%nat).
Proof.
  assert (forall m, memo_wf m -> decode_memo (encode_memo m) = Some m) as Hrt.
  { intros [[sig id]|[a]] Hwf; cbn in Hwf.
    - destruct Hwf as [Hsig Hid]. rewrite encode_mint_layout. cbn [app decode_memo].
      rewrite take_app_length', drop_app_length' by (by rewrite be_bytes_length).
      rewrite read_cbor_uint by done. cbn [mbind option_bind]. by rewrite be_value_bytes.
    - rewrite encode_burn_layout. cbn [app decode_memo]. rewrite be_bytes_length. cbn [Nat.eqb]. by rewrite be_value_bytes. }
  intros Hwf. split_and!; [by apply Hrt | | |].
  - intros m Hm Heq. apply Hrt in Hwf, Hm. congruence.
  - destruct memo as [[sig id]|[a]].
    + rewrite encode_mint_layout, !length_app, be_bytes_length. pose proof (cbor_uint_length id). cbn [length]. unfold MAX_SERIALIZED_MEMO_BYTES. lia.
    + rewrite encode_burn_layout, length_app, be_bytes_length. cbn. unfold MAX_SERIALIZED_MEMO_BYTES. lia.
  - intros sig id -> Hid. rewrite encode_mint_layout, !length_app, be_bytes_length. pose proof (cbor_uint_small id Hid). cbn [length]. lia.
Qed.

Lemma memo_roundtrip_witness :
  decode_memo (encode_memo (MemoMint (SweepMemo 900 u64_max))) = Some (MemoMint (SweepMemo 900 u64_max)) /\
  length (encode_memo (MemoMint (SweepMemo 900 u64_max))) = 81%nat.
Proof.
  split; [|vm_compute; reflexivity].
  refine (proj1 (memo_roundtrip (MemoMint (SweepMemo 900 u64_max)) _)).
  split; split; vm_compute; (discriminate || reflexivity).
Defined.
