(* ===== verification/Metrics.v ===== *)
(** The unstable metrics of minter/src/storage: counters of the attempts the
    timer tasks leave for a later round. They live outside the [State] and are
    not rebuilt from the event log. *)
From S2P Require Import Prelude Platform Events MinterState Replay.

Inductive FailedCreditReason : Type := FcNotFound | FcRpcError | FcInvalidResponse | FcUnreadable | FcMismatch.

Inductive FailedMintReason : Type :=
  | FmExpired | FmRejected | FmLedgerError | FmCreatedInFuture | FmCallError | FmUnknownOutcome.

Inductive UndecidedWithdrawalReason : Type := StaleNonce | NonceReadFailed | UnresolvedOutcome.

Definition failed_credit_reasons : list FailedCreditReason :=
  [FcNotFound; FcRpcError; FcInvalidResponse; FcUnreadable; FcMismatch].
Definition failed_mint_reasons : list FailedMintReason :=
  [FmExpired; FmRejected; FmLedgerError; FmCreatedInFuture; FmCallError; FmUnknownOutcome].
Definition undecided_withdrawal_reasons : list UndecidedWithdrawalReason :=
  [StaleNonce; NonceReadFailed; UnresolvedOutcome].

Definition failed_credit_label (reason : FailedCreditReason) : string :=
  match reason with
  | FcNotFound => "not_found"
  | FcRpcError => "rpc_error"
  | FcInvalidResponse => "invalid_response"
  | FcUnreadable => "unreadable"
  | FcMismatch => "mismatch"
  end.

Definition failed_mint_label (reason : FailedMintReason) : string :=
  match reason with
  | FmExpired => "expired"
  | FmRejected => "rejected"
  | FmLedgerError => "ledger_error"
  | FmCreatedInFuture => "created_in_future"
  | FmCallError => "call_error"
  | FmUnknownOutcome => "unknown_outcome"
  end.

Definition undecided_withdrawal_label (reason : UndecidedWithdrawalReason) : string :=
  match reason with
  | StaleNonce => "stale_nonce"
  | NonceReadFailed => "nonce_read_failed"
  | UnresolvedOutcome => "unresolved_outcome"
  end.

#[export] Instance FailedCreditReason_eq_dec : EqDecision FailedCreditReason.
Proof. solve_decision. Defined.
#[export] Instance FailedMintReason_eq_dec : EqDecision FailedMintReason.
Proof. solve_decision. Defined.
#[export] Instance UndecidedWithdrawalReason_eq_dec : EqDecision UndecidedWithdrawalReason.
Proof. solve_decision. Defined.

(** A reason is counted under its label. *)
Section Counters.
Context {R : Type} (label : R -> string) (all : list R).

Definition reason_of_label (l : string) : option R := list_find (fun r => label r = l) all ≫= fun p => Some p.2.
End Counters.

#[export] Instance FailedCreditReason_countable : Countable FailedCreditReason.
Proof.
  refine (inj_countable failed_credit_label (reason_of_label failed_credit_label failed_credit_reasons) _).
  by intros [].
Defined.
#[export] Instance FailedMintReason_countable : Countable FailedMintReason.
Proof.
  refine (inj_countable failed_mint_label (reason_of_label failed_mint_label failed_mint_reasons) _). by intros [].
Defined.
#[export] Instance UndecidedWithdrawalReason_countable : Countable UndecidedWithdrawalReason.
Proof.
  refine (inj_countable undecided_withdrawal_label
    (reason_of_label undecided_withdrawal_label undecided_withdrawal_reasons) _). by intros [].
Defined.

Record Metrics := mkMetrics {
  post_upgrade_instructions_consumed : Z;
  failed_credit_attempts : gmap FailedCreditReason Z;
  failed_mint_attempts : gmap FailedMintReason Z;
  withdrawal_transaction_rebroadcasts : Z;
  undecided_withdrawal_transactions : gmap UndecidedWithdrawalReason Z
}.

#[export] Instance Metrics_eta : Eta Metrics := fun m =>
  mkMetrics (post_upgrade_instructions_consumed m) (failed_credit_attempts m) (failed_mint_attempts m)
    (withdrawal_transaction_rebroadcasts m) (undecided_withdrawal_transactions m).

Definition metrics_new : Metrics := mkMetrics 0 ∅ ∅ 0 ∅.

(** [*map.entry(reason).or_insert(0) += 1] *)
Definition count_one {R} `{Countable R} (reason : R) (counts : gmap R Z) : gmap R Z :=
  <[reason := default 0 (counts !! reason) +w 1]> counts.

Definition record_failed_credit_attempt (reason : FailedCreditReason) (m : Metrics) : Metrics :=
  m <| failed_credit_attempts ::= count_one reason |>.
Definition record_failed_mint_attempt (reason : FailedMintReason) (m : Metrics) : Metrics :=
  m <| failed_mint_attempts ::= count_one reason |>.
Definition set_undecided_withdrawal_transactions (counts : gmap UndecidedWithdrawalReason Z) (m : Metrics) : Metrics :=
  m <| undecided_withdrawal_transactions := counts |>.

Definition failed_credit_attempt_count (m : Metrics) (reason : FailedCreditReason) : Z :=
  default 0 (failed_credit_attempts m !! reason).
Definition failed_mint_attempt_count (m : Metrics) (reason : FailedMintReason) : Z :=
  default 0 (failed_mint_attempts m !! reason).
Definition undecided_withdrawal_transaction_count (m : Metrics) (reason : UndecidedWithdrawalReason) : Z :=
  default 0 (undecided_withdrawal_transactions m !! reason).

Lemma count_one_lookup {R} `{Countable R} (reason r : R) counts :
  default 0 (count_one reason counts !! r) =
  if decide (r = reason) then default 0 (counts !! r) +w 1 else default 0 (counts !! r).
Proof. unfold count_one. case_decide; subst; by simplify_map_eq. Qed.

(** ** Handlers that process events and count attempts

    The state, the event log and the metrics. *)
Abbreviation Tracked := (State * list Event * Metrics)%type (only parsing).

Definition tracked_event `{Platform} (c : Tracked) (payload : EventType) (now : Timestamp) : outcome Tracked :=
  c' ← process_event c.1.1 c.1.2 payload now; Done (c', c.2).

Lemma tracked_event_Done `{Platform} c ev now c' :
  tracked_event c ev now = Done c' -> process_event c.1.1 c.1.2 ev now = Done c'.1.
Proof. intros (c1 & Hc1 & Hc')%bind_Done. apply Done_inv in Hc'. by subst c'. Qed.
