(* ===== verification/Mint.v ===== *)
(** minter/src/deposit/sweep/mint and [transfer] of minter/src/ledger/client.rs:
    the task that mints the credited deposits on the ledger, with the ledger it
    talks to.

    An asynchronous function is cut at its awaits. A trap after an await rolls
    the state back and drops the local variables, which runs the pending scope
    guards. *)
From S2P Require Import Prelude Platform ConcretePlatform InsertionOrderedMap TimedSizedMap Watchlist NoncePool Events Sweeps Deposits SolTransfer MinterState Replay Invariants Safety Guards Rpc Memo Metrics.

Definition MAX_PENDING_MINTS_PER_ROUND : nat := 10.

(** 24 hours in nanoseconds. *)
Definition LEDGER_DEDUPLICATION_WINDOW : Z := 24 * 3600 * 1000000000.

(** [icrc_ledger_types::icrc1::transfer] *)
Inductive TransferError : Type :=
  | TeBadFee (expected_fee : Z)
  | TeBadBurn (min_burn_amount : Z)
  | TeInsufficientFunds (balance : Z)
  | TeTooOld
  | TeCreatedInFuture (ledger_time : Z)
  | TeTemporarilyUnavailable
  | TeDuplicate (duplicate_of : Z)
  | TeGenericError (error_code : Z) (message : string).

Record TransferArg := mkTransferArg {
  ta_from_subaccount : option bytes;
  ta_to : Account;
  ta_fee : option Z;
  ta_created_at_time : option Timestamp;
  ta_memo : option bytes;
  ta_amount : Z
}.

#[export] Instance TransferArg_eq_dec : EqDecision TransferArg.
Proof. solve_decision. Defined.

Abbreviation TransferResponse := (result (result Z TransferError) IcError) (only parsing).

(** [LedgerClient::transfer] once the ledger answered. *)
Definition transfer (response : TransferResponse) : outcome (result (result LedgerMintIndex TransferError) IcError) :=
  match response with
  | Ok (Ok block_index) => block_index ← to_ledger_mint_index block_index; Done (Ok (Ok block_index))
  | Ok (Err e) => Done (Ok (Err e))
  | Err e => Done (Err e)
  end.

(** ** A round of the task *)
Record MintRound := mkMintRound {
  mr_pending_mints : list (DepositSolId * PendingMint);
  mr_more_pending_mints_than_one_round : bool
}.

Definition mint_round_next (s : State) : MintRound :=
  mkMintRound (take MAX_PENDING_MINTS_PER_ROUND (btree_iter (pending_mints (deposits s))))
    (MAX_PENDING_MINTS_PER_ROUND <? size (pending_mints (deposits s)))%nat.

(** [process_pending_mints] up to its first mint: [None] when it returns at once. *)
Definition process_pending_mints_start (s : State) : option (State * MintRound) :=
  match timer_guard_new s TaskMint with
  | Err _ => None
  | Ok s =>
      let round := mint_round_next s in
      if bool_decide (mr_pending_mints round = []) then None else Some (s, round)
  end.

(** Its end: the state without the guard, and whether it is scheduled again at once. *)
Definition process_pending_mints_end (s : State) (round : MintRound) : State * bool :=
  let round_made_progress :=
    existsb (fun p => bool_decide (pending_mints (deposits s) !! p.1 = None)) (mr_pending_mints round) in
  (timer_guard_drop s TaskMint, round_made_progress && mr_more_pending_mints_than_one_round round).

Definition is_beyond_deduplication_window (pending : PendingMint) (now : Timestamp) : bool :=
  LEDGER_DEDUPLICATION_WINDOW <? saturating_sub now (pm_created_at_time pending).

Definition mint_transfer_arg (deposit_id : DepositSolId) (pending : PendingMint) : TransferArg :=
  mkTransferArg None (pm_account pending) None (Some (pm_created_at_time pending))
    (Some (encode_memo (MemoMint (mint_memo_sweep (pm_sweep_signature pending) deposit_id))))
    (pm_amount_to_mint pending).

Section Task.
Context `{Platform}.

Definition record_minted_swept_deposit (c : Tracked) (deposit_id : DepositSolId)
    (mint_block_index : LedgerMintIndex) (now : Timestamp) : outcome Tracked :=
  tracked_event c (MintedSweptDeposit deposit_id mint_block_index) now.

Definition record_quarantined_pending_mint (c : Tracked) (deposit_id : DepositSolId) (now : Timestamp)
    : outcome Tracked :=
  tracked_event c (QuarantinedPendingMint deposit_id) now.

(** [record_failed_mint_attempt] on the tracked metrics. *)
Definition failed_mint (reason : FailedMintReason) (c : Tracked) : Tracked :=
  (c.1, record_failed_mint_attempt reason c.2).

(** [process_pending_mint] up to the call of the ledger: the deposit is
    quarantined, or the argument of the call. *)
Definition process_pending_mint_start (c : Tracked) (deposit_id : DepositSolId) (pending : PendingMint)
    (now : Timestamp) : outcome (Tracked + TransferArg) :=
  if is_beyond_deduplication_window pending now then
    c ← record_quarantined_pending_mint (failed_mint FmExpired c) deposit_id now;
    Done (inl c)
  else Done (inr (mint_transfer_arg deposit_id pending)).

(** [process_pending_mint] once the ledger answered. *)
Definition process_pending_mint_answer (c : Tracked) (deposit_id : DepositSolId) (response : TransferResponse)
    (now : Timestamp) : outcome Tracked :=
  answer ← transfer response;
  match answer with
  | Ok (Ok mint_block_index) => record_minted_swept_deposit c deposit_id mint_block_index now
  | Ok (Err (TeDuplicate duplicate_of)) =>
      mint_block_index ← to_ledger_mint_index duplicate_of;
      record_minted_swept_deposit c deposit_id mint_block_index now
  | Ok (Err TeTooOld) => record_quarantined_pending_mint (failed_mint FmExpired c) deposit_id now
  | Ok (Err (TeBadFee _ | TeBadBurn _ | TeInsufficientFunds _)) =>
      record_quarantined_pending_mint (failed_mint FmRejected c) deposit_id now
  | Ok (Err (TeTemporarilyUnavailable | TeGenericError _ _)) => Done (failed_mint FmLedgerError c)
  | Ok (Err (TeCreatedInFuture _)) => Done (failed_mint FmCreatedInFuture c)
  | Err _ => Done (failed_mint FmCallError c)
  end.

(** The scope guard [quarantine_unless_defused]. *)
Definition quarantine_unless_defused (c : Tracked) (deposit_id : DepositSolId) (now : Timestamp) : outcome Tracked :=
  record_quarantined_pending_mint (failed_mint FmUnknownOutcome c) deposit_id now.

(** The callback of the ledger call: when the answer makes it trap, the scope
    guard runs on the state from before; when that traps too, nothing changes. *)
Definition process_pending_mint_callback (c : Tracked) (deposit_id : DepositSolId) (response : TransferResponse)
    (now : Timestamp) : Tracked :=
  match process_pending_mint_answer c deposit_id response now with
  | Done c => c
  | Panic _ =>
      match quarantine_unless_defused c deposit_id now with
      | Done c => c
      | Panic _ => c
      end
  end.
End Task.

Section Moves.
Context `{Platform}.

(** ** Credited mints

    [p] is the pending mint of the deposit [i], before or after it was minted
    or quarantined. *)
Definition credited_stage (p : PendingMint) (st : Stage) : Prop :=
  st = StPending (pm_sweep_signature p) (pm_amount_to_mint p) (pm_created_at_time p) \/
  (exists ix, st = StMinted (pm_sweep_signature p) (pm_amount_to_mint p) ix) \/
  st = StQuarantined (pm_sweep_signature p) (MintUnresolved (pm_amount_to_mint p) (pm_created_at_time p)).

Definition credited (L : Lifecycle) (i : DepositSolId) (p : PendingMint) : Prop :=
  exists st, L !! i = Some (sd_deposit (pm_deposit p), st) /\ credited_stage p st.

Lemma credited_pending d L i p : implements d L -> pending_mints d !! i = Some p -> credited L i p.
Proof. intros HI Hp. eexists. split; [by apply pending_holds with d | by left]. Qed.

(** An operation keeps a credited mint credited, mints it only as [OpMint] and
    credits only the deposits of a sweep. *)
Lemma credited_op L op i p :
  (forall dp t, op <> OpQueue i dp t) -> credited L i p -> credited (lifecycle_op L op) i p.
Proof.
  intros Hq (st & HL & Hst). destruct op; cbn [lifecycle_op].
  1: { exists st. rewrite lookup_insert_ne by (intros ->; by eapply Hq). auto. }
  all: unfold credited; setoid_rewrite relabel_Some; eexists; split; [by exists st|].
  all: destruct Hst as [->|[[ix ->]| ->]]; cbn; unfold credited_stage; try case_match; eauto.
Qed.

Lemma minted_op L op i dep sig a ix :
  lifecycle_op L op !! i = Some (dep, StMinted sig a ix) ->
  L !! i = Some (dep, StMinted sig a ix) \/
  (op = OpMint i ix /\ exists t, L !! i = Some (dep, StPending sig a t)).
Proof.
  destruct op; cbn [lifecycle_op].
  1: { intros [[<- [=]]|[_ ?]]%lookup_insert_Some; auto. }
  all: intros (st & HL & Hst)%relabel_Some; destruct st; cbn in Hst; try case_match; simplify_eq; auto.
  right. apply Z.eqb_eq in H0. subst. eauto.
Qed.

Lemma pending_op L op i dep sig a t :
  lifecycle_op L op !! i = Some (dep, StPending sig a t) ->
  L !! i = Some (dep, StPending sig a t) \/
  (exists ms t', op = OpCreditSweep sig ms t' /\ a = mint_amount ms i /\ L !! i = Some (dep, StFinalized sig)).
Proof.
  destruct op; cbn [lifecycle_op].
  1: { intros [[<- [=]]|[_ ?]]%lookup_insert_Some; auto. }
  all: intros (st & HL & Hst)%relabel_Some; destruct st; cbn in Hst; try case_match; simplify_eq; auto.
  right. apply Z.eqb_eq in H0. subst. eauto.
Qed.

Lemma unresolved_op L op i dep sig a t :
  lifecycle_op L op !! i = Some (dep, StQuarantined sig (MintUnresolved a t)) ->
  L !! i = Some (dep, StQuarantined sig (MintUnresolved a t)) \/ L !! i = Some (dep, StPending sig a t).
Proof.
  destruct op; cbn [lifecycle_op].
  1: { intros [[<- [=]]|[_ ?]]%lookup_insert_Some; auto. }
  all: intros (st & HL & Hst)%relabel_Some; destruct st; cbn in Hst; try case_match; simplify_eq; auto.
Qed.
End Moves.

(** ** The ledger

    A block of the ledger is a mint requested by the minter, which owns the
    minting account, or anything else. *)
Inductive LedgerBlock : Type := MintBlock (arg : TransferArg) | OtherBlock.

#[export] Instance LedgerBlock_eq_dec : EqDecision LedgerBlock.
Proof. solve_decision. Defined.

(** What the minter relies on: the ICRC-1 ledger appends a block per accepted
    transfer, and deduplicates transfers that carry a [created_at_time]: it
    rejects a transfer with the arguments of an earlier block as a duplicate
    of it, or as too old once it no longer remembers it. *)
Class DedupLedger := {
  Ledger : Type;
  ledger_blocks : Ledger -> list LedgerBlock;
  icrc1_transfer : Ledger -> TransferArg -> Ledger * result Z TransferError;
  (** transactions of others, and the passing of time *)
  ledger_other : Ledger -> Ledger -> Prop;
  icrc1_transfer_Ok l arg l' i :
    is_Some (ta_created_at_time arg) -> icrc1_transfer l arg = (l', Ok i) ->
    i = Z.of_nat (length (ledger_blocks l)) /\ ledger_blocks l' = ledger_blocks l ++ [MintBlock arg] /\
    (MintBlock arg ∉ ledger_blocks l);
  icrc1_transfer_Duplicate l arg l' i :
    icrc1_transfer l arg = (l', Err (TeDuplicate i)) ->
    exists k, i = Z.of_nat k /\ ledger_blocks l !! k = Some (MintBlock arg);
  icrc1_transfer_Err l arg l' e : icrc1_transfer l arg = (l', Err e) -> ledger_blocks l' = ledger_blocks l;
  ledger_other_blocks l l' :
    ledger_other l l' -> exists n, ledger_blocks l' = ledger_blocks l ++ replicate n OtherBlock
}.

(** A ledger that remembers the transfers of the deduplication window. *)
Record WindowLedger := mkWindowLedger { wl_now : Timestamp; wl_blocks : list LedgerBlock }.

Definition PERMITTED_DRIFT : Z := 60 * 1000000000.

Definition window_transfer (l : WindowLedger) (arg : TransferArg) : WindowLedger * result Z TransferError :=
  let append := (mkWindowLedger (wl_now l) (wl_blocks l ++ [MintBlock arg]), Ok (Z.of_nat (length (wl_blocks l)))) in
  match ta_created_at_time arg with
  | None => append
  | Some created_at =>
      if created_at + LEDGER_DEDUPLICATION_WINDOW + PERMITTED_DRIFT <? wl_now l then (l, Err TeTooOld)
      else if wl_now l + PERMITTED_DRIFT <? created_at then (l, Err (TeCreatedInFuture (wl_now l)))
      else match list_find (eq (MintBlock arg)) (wl_blocks l) with
      | Some (k, _) => (l, Err (TeDuplicate (Z.of_nat k)))
      | None => append
      end
  end.

#[export, refine] Instance window_ledger : DedupLedger := {|
  Ledger := WindowLedger;
  ledger_blocks := wl_blocks;
  icrc1_transfer := window_transfer;
  ledger_other l l' := wl_now l <= wl_now l' /\ exists n, wl_blocks l' = wl_blocks l ++ replicate n OtherBlock
|}.
Proof.
  - intros l arg l' i [t Ht]. unfold window_transfer. rewrite Ht. repeat case_match; try done.
    intros [= <- <-]. split_and!; [done..|]. intros Hin. apply list_find_None in H1. rewrite Forall_forall in H1.
    exact (H1 _ Hin eq_refl).
  - intros l arg l' i. unfold window_transfer. repeat case_match; try done. intros [= <- <-].
    apply list_find_Some in H2 as (Hk & <- & _). by exists n.
  - intros l arg l' e. unfold window_transfer. repeat case_match; try done; by intros [= <- <-].
  - by intros l l' [_ ?].
Defined.

(** ** The minter and the ledger *)
Record System `{DedupLedger} := mkSystem {
  sys_tracked : Tracked;
  sys_ledger : Ledger;
  (** the mints selected by rounds of the task *)
  sys_selected : list (DepositSolId * PendingMint);
  (** calls that have not reached the ledger, and answers that have not reached the minter *)
  sys_calls : list (DepositSolId * TransferArg);
  sys_replies : list (DepositSolId * TransferResponse)
}.
Arguments mkSystem {_} _ _ _ _ _.

Definition is_minted_event (ev : EventType) : bool :=
  match ev with MintedSweptDeposit _ _ => true | _ => false end.

Inductive mint_step `{Platform} `{DedupLedger} : System -> System -> Prop :=
  | ms_select s log m l sel calls rep s' round :
      process_pending_mints_start s = Some (s', round) ->
      mint_step (mkSystem (s, log, m) l sel calls rep) (mkSystem (s', log, m) l (sel ++ mr_pending_mints round) calls rep)
  | ms_end s log m l sel calls rep round s' again :
      process_pending_mints_end s round = (s', again) ->
      mint_step (mkSystem (s, log, m) l sel calls rep) (mkSystem (s', log, m) l sel calls rep)
  | ms_expired c l sel calls rep i p now c' :
      (i, p) ∈ sel -> process_pending_mint_start c i p now = Done (inl c') ->
      mint_step (mkSystem c l sel calls rep) (mkSystem c' l sel calls rep)
  | ms_send c l sel calls rep i p now arg :
      (i, p) ∈ sel -> process_pending_mint_start c i p now = Done (inr arg) ->
      mint_step (mkSystem c l sel calls rep) (mkSystem c l sel (calls ++ [(i, arg)]) rep)
  | ms_execute c l sel calls1 calls2 rep i arg l' r resp :
      icrc1_transfer l arg = (l', r) -> resp = Ok r \/ (exists e, resp = Err e) ->
      mint_step (mkSystem c l sel (calls1 ++ (i, arg) :: calls2) rep) (mkSystem c l' sel (calls1 ++ calls2) (rep ++ [(i, resp)]))
  | ms_reject c l sel calls1 calls2 rep i arg e :
      mint_step (mkSystem c l sel (calls1 ++ (i, arg) :: calls2) rep) (mkSystem c l sel (calls1 ++ calls2) (rep ++ [(i, Err e)]))
  | ms_answer c l sel calls rep1 rep2 i resp now :
      mint_step (mkSystem c l sel calls (rep1 ++ (i, resp) :: rep2))
        (mkSystem (process_pending_mint_callback c i resp now) l sel calls (rep1 ++ rep2))
  | ms_event s log m l sel calls rep ev now s' log' m' :
      is_minted_event ev = false -> process_event s log ev now = Done (s', log') ->
      mint_step (mkSystem (s, log, m) l sel calls rep) (mkSystem (s', log', m') l sel calls rep)
  | ms_transient s log m l sel calls rep s' m' :
      erase s' = erase s -> wl_wf (watchlist (deposits s')) ->
      mint_step (mkSystem (s, log, m) l sel calls rep) (mkSystem (s', log, m') l sel calls rep)
  | ms_upgrade s log m l sel calls rep args now s' log' :
      post_upgrade log args now = Done (s', log') ->
      mint_step (mkSystem (s, log, m) l sel calls rep) (mkSystem (s', log', metrics_new) l sel calls rep)
  | ms_ledger c l sel calls rep l' :
      ledger_other l l' -> mint_step (mkSystem c l sel calls rep) (mkSystem c l' sel calls rep).

(** Executions start when the minter is installed, on a ledger without mints. *)
Inductive mint_run `{Platform} `{DedupLedger} : System -> Prop :=
  | mrun_init args now s log l :
      init args now = Done (s, log) -> (forall arg, MintBlock arg ∉ ledger_blocks l) ->
      mint_run (mkSystem (s, log, metrics_new) l [] [] [])
  | mrun_step sys sys' : mint_run sys -> mint_step sys sys' -> mint_run sys'.

(** The deposit a mint block was made for. *)
Definition mint_deposit_id (arg : TransferArg) : option DepositSolId :=
  memo ← ta_memo arg;
  match decode_memo memo with
  | Some (MemoMint (SweepMemo _ deposit_id)) => Some deposit_id
  | _ => None
  end.

Lemma mint_deposit_id_arg i p : is_u64 i -> mint_deposit_id (mint_transfer_arg i p) = Some i.
Proof.
  intros Hi. unfold mint_deposit_id. cbn [mint_transfer_arg ta_memo mbind option_bind]. unfold mint_memo_sweep.
  rewrite encode_mint_layout. cbn [app decode_memo]. rewrite drop_app_length' by (by rewrite be_bytes_length).
  by rewrite read_cbor_uint.
Qed.

(** ** The invariant *)
Lemma implements_unique d L L' : implements d L -> implements d L' -> L = L'.
Proof.
  intros HI HI'. apply map_eq. intros i. apply option_eq. intros [dep st].
  by rewrite <- (im_holds _ _ HI), <- (im_holds _ _ HI').
Qed.

Lemma credited_pending_inv L i p p' :
  credited L i p' ->
  L !! i = Some (sd_deposit (pm_deposit p), StPending (pm_sweep_signature p) (pm_amount_to_mint p) (pm_created_at_time p)) ->
  p' = p.
Proof.
  destruct p as [[dep sig] a t], p' as [[dep' sig'] a' t']. cbn. intros (st & HL & Hst) HL'. rewrite HL in HL'.
  injection HL' as Hdep ->. cbn in Hdep, Hst. subst dep'. unfold credited_stage in Hst. cbn in Hst.
  destruct Hst as [[= -> -> ->]|[[ix [=]]|[=]]]. done.
Qed.

(** A mint that counts: pending, minted or unresolved. *)
Definition counted (st : Stage) : bool :=
  match st with StPending _ _ _ | StMinted _ _ _ | StQuarantined _ (MintUnresolved _ _) => true | _ => false end.

Section Run.
Context `{Platform} `{DedupLedger}.

Definition has_block (blocks : list LedgerBlock) (A : gmap DepositSolId PendingMint) (i : DepositSolId) (ix : Z) : Prop :=
  exists p k, A !! i = Some p /\ ix = Z.of_nat k /\ blocks !! k = Some (MintBlock (mint_transfer_arg i p)).

(** The block an answer of the ledger names. *)
Definition answer_block (resp : TransferResponse) : option Z :=
  match resp with Ok (Ok ix) | Ok (Err (TeDuplicate ix)) => Some ix | _ => None end.

(** [A] holds the pending mint of every deposit that was ever credited. *)
Record mint_inv (L : Lifecycle) (A : gmap DepositSolId PendingMint) (blocks : list LedgerBlock)
    (sel : list (DepositSolId * PendingMint)) (calls : list (DepositSolId * TransferArg))
    (rep : list (DepositSolId * TransferResponse)) : Prop := {
  mv_credited : forall i p, A !! i = Some p -> credited L i p;
  mv_counted : forall i dep st, L !! i = Some (dep, st) -> counted st = true -> is_Some (A !! i);
  mv_selected : forall i p, (i, p) ∈ sel -> A !! i = Some p;
  mv_calls : forall i arg, (i, arg) ∈ calls -> exists p, A !! i = Some p /\ arg = mint_transfer_arg i p;
  mv_replies : forall i resp ix, (i, resp) ∈ rep -> answer_block resp = Some ix -> has_block blocks A i ix;
  mv_blocks : forall k arg, blocks !! k = Some (MintBlock arg) -> exists i p, A !! i = Some p /\ arg = mint_transfer_arg i p;
  mv_unique : forall k1 k2 arg, blocks !! k1 = Some (MintBlock arg) -> blocks !! k2 = Some (MintBlock arg) -> k1 = k2;
  mv_minted : forall i dep sig a ix, L !! i = Some (dep, StMinted sig a ix) -> has_block blocks A i ix
}.

Lemma has_block_mono blocks blocks' A A' i ix :
  (forall k b, blocks !! k = Some b -> blocks' !! k = Some b) -> A ⊆ A' ->
  has_block blocks A i ix -> has_block blocks' A' i ix.
Proof. intros Hb HA (p & k & Hp & -> & Hk). exists p, k. split_and!; [by eapply lookup_weaken | done | by apply Hb]. Qed.

(** One operation on the deposits. *)
Lemma mint_inv_op L A blocks sel calls rep d op d' :
  mint_inv L A blocks sel calls rep -> implements d L -> next_id d < u64_max ->
  deposit_op d op = Done d' ->
  (forall i ix, op = OpMint i ix -> has_block blocks A i ix) ->
  exists A', A ⊆ A' /\ mint_inv (lifecycle_op L op) A' blocks sel calls rep /\
    (forall i p, A' !! i = Some p -> A !! i = Some p \/ pending_mints d' !! i = Some p).
Proof.
  intros [V1 V2 V3 V4 V5 V6 V7 V8] HI Hn Hop Hmint.
  assert (implements d' (lifecycle_op L op)) as HI' by (by eapply deposit_op_implements).
  assert (A ⊆ A ∪ pending_mints d') as Hsub by apply map_union_subseteq_l.
  exists (A ∪ pending_mints d'). split; [done|]. split.
  2: { intros i p [?|[_ ?]]%lookup_union_Some_raw; auto. }
  assert (forall i p, credited L i p -> forall dp t, op <> OpQueue i dp t) as Hq.
  { intros i p (st & HL & _) dp t ->. cbn in Hop. apply queue_Done in Hop as (-> & _).
    assert (is_Some (L !! next_id d)) as Hs by eauto. apply (im_ids _ _ HI) in Hs. lia. }
  split.
  - intros i p [HA|[HA Hp]]%lookup_union_Some_raw; [|by apply credited_pending with d'].
    pose proof (V1 _ _ HA) as Hc. apply credited_op; [by eapply Hq | done].
  - intros i dep st HL Hst. apply lookup_union_is_Some. destruct st as [| | |sig a t|sig a ix| |sig [|a t]]; try done.
    + right. apply (im_holds _ _ HI') in HL. cbn in HL. eauto.
    + left. apply minted_op in HL as [HL|[_ [t HL]]]; by eapply V2.
    + left. apply unresolved_op in HL as [HL|HL]; by eapply V2.
  - intros i p Hin. eapply lookup_weaken; [by apply V3 | done].
  - intros i arg Hin. destruct (V4 _ _ Hin) as (p & Hp & ->). exists p. split; [by eapply lookup_weaken | done].
  - intros i resp ix Hin Hr. eapply has_block_mono; [done.. | by eapply V5].
  - intros k arg Hk. destruct (V6 _ _ Hk) as (i & p & Hp & ->). exists i, p. split; [by eapply lookup_weaken | done].
  - done.
  - intros i dep sig a ix HL. apply (has_block_mono blocks _ A); [done..|].
    apply minted_op in HL as [HL|[-> _]]; [by eapply V8 | by apply Hmint].
Qed.

Lemma mint_amount_nonneg ms i : Forall (fun c => 0 <= cd_amount_to_mint c) ms -> 0 <= mint_amount ms i.
Proof.
  intros HF. unfold mint_amount. destruct (collect_map _ !! i) as [a|] eqn:Ha; [|done]. cbn.
  apply collect_map_lookup in Ha. apply list_elem_of_fmap in Ha as (c & [= _ ->] & Hc).
  rewrite Forall_forall in HF. by apply HF.
Qed.

Definition nonneg_mints (A : gmap DepositSolId PendingMint) : Prop :=
  forall i p, A !! i = Some p -> 0 <= pm_amount_to_mint p.

Record config_inv (s : State) (log : list Event) (L : Lifecycle) (A : gmap DepositSolId PendingMint)
    (blocks : list LedgerBlock) (sel : list (DepositSolId * PendingMint)) (calls : list (DepositSolId * TransferArg))
    (rep : list (DepositSolId * TransferResponse)) : Prop := {
  ci_implements : implements (deposits s) L;
  ci_mints : mint_inv L A blocks sel calls rep;
  ci_nonneg : log_fits log = true -> nonneg_mints A
}.

Lemma config_inv_pending s log L A blocks sel calls rep i p :
  config_inv s log L A blocks sel calls rep -> pending_mints (deposits s) !! i = Some p -> A !! i = Some p.
Proof.
  intros [HI HV _] Hp. pose proof (pending_holds _ _ _ _ HI Hp) as HL.
  destruct (mv_counted _ _ _ _ _ _ HV _ _ _ HL eq_refl) as [p' Hp'].
  rewrite <- (credited_pending_inv L i p p' (mv_credited _ _ _ _ _ _ HV _ _ Hp') HL). done.
Qed.

Lemma config_inv_event s log ev now s' log' L A blocks sel calls rep :
  minter_run (s, log) -> sized log' -> process_event s log ev now = Done (s', log') ->
  config_inv s log L A blocks sel calls rep -> (forall i ix, ev = MintedSweptDeposit i ix -> has_block blocks A i ix) ->
  exists L' A', config_inv s' log' L' A' blocks sel calls rep.
Proof.
  intros Hrun Hsz Hev HC Hmint. pose proof (minter_run_replay _ Hrun) as Hrep. cbn [fst snd] in Hrep.
  apply bind_Done in Hev as (s1 & Hs1 & Hlog). apply Done_inv in Hlog. injection Hlog as <- <-. unfold record_event in *.
  pose proof (sized_snoc _ _ _ Hsz) as (Hsz0 & Hlen & _).
  destruct (minter_run_inv _ Hrun Hsz0) as (_ & _ & Hn & _). cbn [fst snd] in Hn.
  assert (forall b, log_fits (log ++ [mkEvent now ev]) = b -> b = true -> log_fits log = true /\ event_fits s ev) as Hfits.
  { intros b <-. rewrite (log_fits_snoc _ _ _ Hrep), andb_true_iff, bool_decide_eq_true. intros [? Hf].
    split; [done|]. by apply (event_fits_transient s (erase s)). }
  pose proof HC as [HI HV HN]. destruct (event_deposit_op _ _ _ _ Hs1) as [Hd|(op & Hop & Hperf)].
  - exists L, A. split; [by rewrite Hd | done |]. intros Hf. by apply HN, (Hfits true).
  - destruct (mint_inv_op _ _ _ _ _ _ _ op _ HV HI ltac:(lia) Hop) as (A' & Hsub & HV' & Hnew).
    { intros i ix ->. by apply Hmint. }
    assert (implements (deposits s1) (lifecycle_op L op)) as HI'.
    { eapply deposit_op_implements; [done | | done]. lia. }
    exists (lifecycle_op L op), A'. split; [done.. |].
    intros Hf i p Hp. destruct (Hfits true Hf eq_refl) as [Hf0 Hfit].
    destruct (Hnew i p Hp) as [HA|Hp']; [by apply (HN Hf0 i)|].
    pose proof (pending_holds _ _ _ _ HI' Hp') as HL.
    apply pending_op in HL as [HL|(ms & t' & Heq & -> & _)].
    + apply (im_holds _ _ HI) in HL. cbn in HL. apply (HN Hf0 i). apply (config_inv_pending s log L A blocks sel calls rep i p HC).
      rewrite HL. by destruct p as [[]].
    + subst op. destruct Hperf as [r ->]. cbn in Hfit. apply mint_amount_nonneg. apply Hfit.
Qed.

Lemma config_inv_transient s s' log L A blocks sel calls rep :
  config_inv s log L A blocks sel calls rep -> erase s' = erase s -> wl_wf (watchlist (deposits s')) ->
  config_inv s' log L A blocks sel calls rep.
Proof.
  intros [HI HV HN] (He & _)%erase_eq_inv Hwf. split; [|done..]. by apply (implements_watchlist (deposits s)).
Qed.

Lemma config_inv_upgrade s log args now s' log' L A blocks sel calls rep :
  minter_run (s, log) -> sized log' -> post_upgrade log args now = Done (s', log') ->
  config_inv s log L A blocks sel calls rep -> exists L' A', config_inv s' log' L' A' blocks sel calls rep.
Proof.
  intros Hrun Hsz Hup HC. pose proof (minter_run_replay _ Hrun) as Hrep. cbn [fst snd] in Hrep.
  unfold post_upgrade in Hup. rewrite Hrep in Hup. cbn [mbind outcome_bind] in Hup.
  assert (config_inv (erase s) log L A blocks sel calls rep) as HC'.
  { apply (config_inv_transient s); [done | apply erase_idem | apply watchlist_default_wf]. }
  destruct args as [args|].
  - apply (config_inv_event (erase s) log (Upgrade args) now s' log' L A); try done.
    eapply run_step; [exact Hrun|]. apply step_transient; [apply erase_idem | apply watchlist_default_wf].
  - apply Done_inv in Hup. injection Hup as <- <-. by exists L, A.
Qed.

(** The blocks, calls and answers change. *)
Lemma mint_inv_append L A blocks b sel calls rep :
  mint_inv L A blocks sel calls rep -> (forall arg, b = MintBlock arg -> (MintBlock arg ∉ blocks) /\
    exists i p, A !! i = Some p /\ arg = mint_transfer_arg i p) ->
  mint_inv L A (blocks ++ [b]) sel calls rep.
Proof.
  intros [V1 V2 V3 V4 V5 V6 V7 V8] Hb.
  assert (forall k b0, blocks !! k = Some b0 -> (blocks ++ [b]) !! k = Some b0) as Hext by (intros; by apply lookup_app_l_Some).
  assert (forall k arg, (blocks ++ [b]) !! k = Some (MintBlock arg) ->
    blocks !! k = Some (MintBlock arg) \/ (k = length blocks /\ b = MintBlock arg)) as Hinv.
  { intros k arg [?|[Hk Hl]]%lookup_app_Some; [by left|]. apply list_lookup_singleton_Some in Hl as [? ->]. right. split; [lia | done]. }
  split; try done.
  - intros i resp ix Hin Hr. by eapply has_block_mono; [exact Hext | | by eapply V5].
  - intros k arg [Hk|[_ ->]]%Hinv; [by eapply V6 | by apply Hb].
  - intros k1 k2 arg Hk1%Hinv Hk2%Hinv. destruct Hk1 as [Hk1|[-> Heq1]], Hk2 as [Hk2|[-> Heq2]]; [by eapply V7 | | | done].
    + destruct (Hb _ Heq2) as [Hnin _]. destruct Hnin. by apply list_elem_of_lookup_2 in Hk1.
    + destruct (Hb _ Heq1) as [Hnin _]. destruct Hnin. by apply list_elem_of_lookup_2 in Hk2.
  - intros i dep sig a ix HL. by eapply has_block_mono; [exact Hext | | by eapply V8].
Qed.

Lemma mint_inv_replicate L A blocks n sel calls rep :
  mint_inv L A blocks sel calls rep -> mint_inv L A (blocks ++ replicate n OtherBlock) sel calls rep.
Proof.
  intros HV. induction n as [|n IH]; [by rewrite app_nil_r|]. rewrite replicate_S_end, app_assoc. by apply mint_inv_append.
Qed.
End Run.

Lemma to_ledger_mint_index_Done n ix : to_ledger_mint_index n = Done ix -> ix = n /\ is_u64 n.
Proof.
  unfold to_ledger_mint_index, to_u64, is_u64. destruct (_ && _) eqn:Hn; cbn; [|done]. intros [= <-].
  apply andb_true_iff in Hn as [?%Z.leb_le ?%Z.ltb_lt]. done.
Qed.

Section System.
Context `{Platform} `{DedupLedger}.

(** The callback leaves the deposit alone or records one event, a mint only
    with the block the ledger answered. *)
Definition mint_callback_effect (c c' : State * list Event) (i : DepositSolId) (resp : TransferResponse) (now : Timestamp) : Prop :=
  c' = c \/ exists ev, process_event c.1 c.2 ev now = Done c' /\
    forall j ix, ev = MintedSweptDeposit j ix -> j = i /\ answer_block resp = Some ix.

Lemma quarantined_effect c i resp now c' :
  record_quarantined_pending_mint c i now = Done c' -> mint_callback_effect c.1 c'.1 i resp now.
Proof. intros Hc%tracked_event_Done. right. by eexists. Qed.

Lemma minted_effect c i resp ix now c' :
  answer_block resp = Some ix -> record_minted_swept_deposit c i ix now = Done c' ->
  mint_callback_effect c.1 c'.1 i resp now.
Proof. intros Hr Hc%tracked_event_Done. right. eexists. split; [exact Hc|]. by intros ? ? [= <- <-]. Qed.

Lemma mint_answer_effect c i resp now c' :
  process_pending_mint_answer c i resp now = Done c' -> mint_callback_effect c.1 c'.1 i resp now.
Proof.
  intros (answer & Ha & Hc)%bind_Done. destruct resp as [[n|e]|e]; cbn [transfer] in Ha.
  - apply bind_Done in Ha as (ix & [-> _]%to_ledger_mint_index_Done & Ha). apply Done_inv in Ha. subst answer.
    by apply (minted_effect _ _ _ n).
  - apply Done_inv in Ha. subst answer. destruct e; try (exact (quarantined_effect _ _ _ _ _ Hc)); try (apply Done_inv in Hc; subst c'; by left).
    apply bind_Done in Hc as (ix & [-> _]%to_ledger_mint_index_Done & Hc). by apply (minted_effect c i _ duplicate_of).
  - apply Done_inv in Ha. subst answer. apply Done_inv in Hc. subst c'. by left.
Qed.

Lemma mint_callback_effect_ok c i resp now :
  mint_callback_effect c.1 (process_pending_mint_callback c i resp now).1 i resp now.
Proof.
  unfold process_pending_mint_callback.
  destruct (process_pending_mint_answer c i resp now) as [c'|] eqn:Ha; [by apply mint_answer_effect|].
  destruct (quarantine_unless_defused c i now) as [c'|] eqn:Hq; [|by left]. exact (quarantined_effect _ _ _ _ _ Hq).
Qed.

Definition sys_state (sys : System) : State := (sys_tracked sys).1.1.
Definition sys_log (sys : System) : list Event := (sys_tracked sys).1.2.
Definition sys_blocks (sys : System) : list LedgerBlock := ledger_blocks (sys_ledger sys).

Definition system_inv (sys : System) : Prop :=
  minter_run (sys_state sys, sys_log sys) /\
  exists L A, config_inv (sys_state sys) (sys_log sys) L A (sys_blocks sys) (sys_selected sys) (sys_calls sys) (sys_replies sys).

(** The log only grows. *)
Lemma event_sized s log ev now s' log' : process_event s log ev now = Done (s', log') -> sized log' -> sized log.
Proof.
  intros (s1 & _ & Hlog)%bind_Done Hsz. apply Done_inv in Hlog. injection Hlog as _ <-. by apply sized_snoc in Hsz as [? _].
Qed.

Lemma upgrade_sized log args now s' log' : post_upgrade log args now = Done (s', log') -> sized log' -> sized log.
Proof.
  unfold post_upgrade. intros (s & _ & Hup)%bind_Done. destruct args as [args|]; [by eapply event_sized|].
  apply Done_inv in Hup. by injection Hup as _ <-.
Qed.

Lemma effect_sized c c' i resp now : mint_callback_effect c c' i resp now -> sized c'.2 -> sized c.2.
Proof. intros [->|(ev & Hev & _)] Hsz; [done|]. destruct c, c'. by eapply event_sized. Qed.

Lemma mint_start_event c i p now c' :
  process_pending_mint_start c i p now = Done (inl c') -> process_event c.1.1 c.1.2 (QuarantinedPendingMint i) now = Done c'.1.
Proof.
  unfold process_pending_mint_start. destruct (is_beyond_deduplication_window p now); [|done].
  intros (c1 & Hc1%tracked_event_Done & Hc')%bind_Done. apply Done_inv in Hc'. by injection Hc' as <-.
Qed.

Lemma mint_step_sized sys sys' : mint_step sys sys' -> sized (sys_log sys') -> sized (sys_log sys).
Proof.
  destruct 1 as [ | | c l sel calls rep i p now c' _ Hst | | | |c l sel calls rep1 rep2 i resp now | s log m l sel calls rep ev now s' log' m' _ Hev | |
    s log m l sel calls rep args now s' log' Hup | ]; try done; unfold sys_log; cbn.
  - destruct c as [[s log] m], c' as [[s' log'] m']. apply mint_start_event in Hst. by eapply event_sized.
  - apply (effect_sized c.1 _ i resp now), mint_callback_effect_ok.
  - by eapply event_sized.
  - by eapply upgrade_sized.
Qed.

Lemma run_watchlist_wf s log : minter_run (s, log) -> sized log -> wl_wf (watchlist (deposits s)).
Proof. intros Hrun Hsz. destruct (minter_run_inv _ Hrun Hsz) as (L & HI & _). apply (im_watchlist _ _ (mi_deposits _ _ _ HI)). Qed.

Lemma system_inv_event s log m ev now s' log' m' l sel calls rep rep' :
  sized log' -> process_event s log ev now = Done (s', log') ->
  (forall e, e ∈ rep' -> e ∈ rep) ->
  (forall i ix, ev = MintedSweptDeposit i ix -> exists resp, (i, resp) ∈ rep /\ answer_block resp = Some ix) ->
  system_inv (mkSystem (s, log, m) l sel calls rep) -> system_inv (mkSystem (s', log', m') l sel calls rep').
Proof.
  intros Hsz Hev Hrep Hmint [Hrun (L & A & HC)]. unfold sys_state, sys_log, sys_blocks in *. cbn in *.
  split; [by eapply run_step; [exact Hrun | eapply step_event]|].
  eapply config_inv_event; [done..| | ].
  - destruct HC as [HI [V1 V2 V3 V4 V5 V6 V7 V8] HN]. split; [exact HI | | exact HN]. split; try done.
    intros i resp ix Hin. apply V5. by apply Hrep.
  - intros i ix Heq. destruct (Hmint i ix Heq) as (resp & Hin & Hr). eapply (mv_replies _ _ _ _ _ _ (ci_mints _ _ _ _ _ _ _ _ HC)); done.
Qed.

Lemma system_inv_transient s s' log m m' l sel sel' calls rep :
  sized log -> erase s' = erase s -> wl_wf (watchlist (deposits s')) ->
  (forall i p, (i, p) ∈ sel' -> (i, p) ∈ sel \/ pending_mints (deposits s) !! i = Some p) ->
  system_inv (mkSystem (s, log, m) l sel calls rep) -> system_inv (mkSystem (s', log, m') l sel' calls rep).
Proof.
  intros Hsz He Hwf Hsel [Hrun (L & A & HC)]. unfold sys_state, sys_log, sys_blocks in *. cbn in *.
  split; [by eapply run_step; [exact Hrun | apply step_transient]|].
  exists L, A. apply (config_inv_transient s); [|done..].
  pose proof (fun i p => config_inv_pending _ _ _ _ _ _ _ _ i p HC) as Hpend.
  destruct HC as [HI [V1 V2 V3 V4 V5 V6 V7 V8] HN]. split; [exact HI | | exact HN]. split; try done.
  intros i p [Hin|Hp]%Hsel; [by apply V3 | by apply Hpend].
Qed.

(** The calls, the ledger and the answers. *)
Lemma system_inv_ledger c l l' sel calls calls' rep rep' :
  (forall L A, mint_inv L A (ledger_blocks l) sel calls rep -> mint_inv L A (ledger_blocks l') sel calls' rep') ->
  system_inv (mkSystem c l sel calls rep) -> system_inv (mkSystem c l' sel calls' rep').
Proof.
  intros Hmv [Hrun (L & A & [HI HV HN])]. split; [exact Hrun|]. exists L, A. split; [exact HI | by apply Hmv | exact HN].
Qed.

Lemma mint_inv_send L A blocks sel calls rep i p :
  (i, p) ∈ sel -> mint_inv L A blocks sel calls rep ->
  mint_inv L A blocks sel (calls ++ [(i, mint_transfer_arg i p)]) rep.
Proof.
  intros Hin [V1 V2 V3 V4 V5 V6 V7 V8]. split; try done. intros j arg [?|[= -> ->]%list_elem_of_singleton]%elem_of_app; [by apply V4|].
  exists p. split; [by apply V3 | done].
Qed.

Lemma mint_inv_reply L A blocks sel calls1 calls2 i arg rep resp :
  (forall p ix, A !! i = Some p -> arg = mint_transfer_arg i p -> answer_block resp = Some ix ->
     exists k, ix = Z.of_nat k /\ blocks !! k = Some (MintBlock arg)) ->
  mint_inv L A blocks sel (calls1 ++ (i, arg) :: calls2) rep ->
  mint_inv L A blocks sel (calls1 ++ calls2) (rep ++ [(i, resp)]).
Proof.
  intros Hresp [V1 V2 V3 V4 V5 V6 V7 V8]. split; try done.
  - intros j a Hin. apply V4. apply elem_of_app in Hin as [?|?]; apply elem_of_app; [by left | right; by right].
  - intros j r ix [Hin|[= -> ->]%list_elem_of_singleton]%elem_of_app Hr; [by eapply V5|].
    destruct (V4 i arg) as (p & Hp & ->); [apply elem_of_app; right; left|].
    destruct (Hresp p ix Hp eq_refl Hr) as (k & -> & Hk). by exists p, k.
Qed.

Lemma execute_inv L A sel calls1 calls2 rep i arg l l' r resp :
  icrc1_transfer l arg = (l', r) -> resp = Ok r \/ (exists e, resp = Err e) ->
  mint_inv L A (ledger_blocks l) sel (calls1 ++ (i, arg) :: calls2) rep ->
  mint_inv L A (ledger_blocks l') sel (calls1 ++ calls2) (rep ++ [(i, resp)]).
Proof.
  intros Ht Hresp HV. destruct (mv_calls _ _ _ _ _ _ HV i arg) as (p & Hp & Harg).
  { apply elem_of_app. right. left. }
  destruct r as [n|e].
  - apply icrc1_transfer_Ok in Ht as (-> & Hb & Hnin); [|subst arg; cbn; eauto]. rewrite Hb. eapply mint_inv_reply.
    + intros p' ix _ _ Hix. exists (length (ledger_blocks l)). rewrite lookup_app_r, Nat.sub_diag by done. split; [|done].
      destruct Hresp as [->|[e ->]]; [|done]. by injection Hix as <-.
    + apply mint_inv_append; [done|]. intros a [= ->]. eauto.
  - rewrite (icrc1_transfer_Err _ _ _ _ Ht). eapply mint_inv_reply; [|exact HV]. intros p' ix _ _ Hix.
    destruct Hresp as [->|[e' ->]]; [|done]. cbn in Hix. destruct e; try done. injection Hix as ->.
    by apply icrc1_transfer_Duplicate in Ht.
Qed.

Lemma timer_guard_transient s task s' :
  timer_guard_new s task = Ok s' -> erase s' = erase s /\ deposits s' = deposits s.
Proof. unfold timer_guard_new. case_match; [done|]. by intros [= <-]. Qed.

Lemma system_inv_step sys sys' :
  mint_step sys sys' -> sized (sys_log sys') -> system_inv sys -> system_inv sys'.
Proof.
  intros Hstep Hsz HS. pose proof (mint_step_sized _ _ Hstep Hsz) as Hsz0.
  destruct Hstep as [s log m l sel calls rep s' round Hst | s log m l sel calls rep round s' again Hend | c l sel calls rep i p now c' Hin Hst
    | c l sel calls rep i p now arg Hin Hst | c l sel calls1 calls2 rep i arg l' r resp Ht Hresp | c l sel calls1 calls2 rep i arg e
    | c l sel calls rep1 rep2 i resp now | s log m l sel calls rep ev now s' log' m' Hne Hev | s log m l sel calls rep s' m' He Hwf
    | s log m l sel calls rep args now s' log' Hup | c l sel calls rep l' Hl]; unfold sys_log in Hsz, Hsz0; cbn in Hsz, Hsz0.
  - pose proof (run_watchlist_wf _ _ (proj1 HS) Hsz0) as Hwf. unfold process_pending_mints_start in Hst.
    destruct (timer_guard_new s TaskMint) as [s1|] eqn:Hg; [|done]. case_bool_decide; [done|]. injection Hst as <- <-.
    apply timer_guard_transient in Hg as [He Hd].
    eapply system_inv_transient; [done | done | by rewrite Hd | | exact HS].
    intros i p [?|Hi]%elem_of_app; [by left|]. right. rewrite <- Hd. apply elem_of_btree_iter.
    cbn in Hi. by apply elem_of_take in Hi as (? & ?%list_elem_of_lookup_2 & _).
  - pose proof (run_watchlist_wf _ _ (proj1 HS) Hsz0) as Hwf. injection Hend as <- _.
    refine (system_inv_transient s (timer_guard_drop s TaskMint) log m m l sel sel calls rep Hsz eq_refl Hwf _ HS). auto.
  - apply mint_start_event in Hst. destruct c as [[s log] m], c' as [[s' log'] m'].
    refine (system_inv_event _ _ _ _ _ _ _ _ _ _ _ _ _ Hsz Hst _ _ HS); [auto | done].
  - unfold process_pending_mint_start in Hst. destruct (is_beyond_deduplication_window p now); [by apply bind_Done in Hst as (? & _ & ?)|].
    apply Done_inv in Hst. injection Hst as <-. eapply system_inv_ledger; [|exact HS]. intros L A. by apply mint_inv_send.
  - eapply system_inv_ledger; [|exact HS]. intros L A. by eapply execute_inv.
  - eapply system_inv_ledger; [|exact HS]. intros L A. by eapply mint_inv_reply.
  - destruct (mint_callback_effect_ok c i resp now) as [Heq|(ev & Hev & Hm)].
    + destruct c as [[s log] m]. destruct (process_pending_mint_callback _ _ _ _) as [c' m'] eqn:Hc. cbn in Heq. subst c'.
      destruct HS as [Hrun (L & A & [HI HV HN])]. split; [exact Hrun|]. exists L, A. split; [exact HI | | exact HN].
      destruct HV as [V1 V2 V3 V4 V5 V6 V7 V8]. split; try done. intros j r ix Hj. apply V5. cbn in *. set_solver.
    + destruct c as [[s log] m]. destruct (process_pending_mint_callback _ _ _ _) as [[s' log'] m'] eqn:Hc. cbn in Hev.
      refine (system_inv_event _ _ _ _ _ _ _ _ _ _ _ _ _ Hsz Hev _ _ HS).
      * intros e. set_solver.
      * intros j ix Heq. destruct (Hm j ix Heq) as [-> Hr]. exists resp. split; [|done]. set_solver.
  - refine (system_inv_event _ _ _ _ _ _ _ _ _ _ _ _ _ Hsz Hev _ _ HS); [auto|]. by intros i ix ->.
  - refine (system_inv_transient s s' log m m' l sel sel calls rep Hsz He Hwf _ HS). auto.
  - destruct HS as [Hrun (L & A & HC)]. split; [by eapply run_step; [exact Hrun | eapply step_upgrade]|].
    by eapply config_inv_upgrade.
  - apply ledger_other_blocks in Hl as [n Hn]. eapply system_inv_ledger; [|exact HS]. intros L A. rewrite Hn. apply mint_inv_replicate.
Qed.

Lemma mint_run_inv sys : mint_run sys -> sized (sys_log sys) -> system_inv sys.
Proof.
  induction 1 as [args now s log l Hinit Hl | sys sys' Hrun IH Hstep]; intros Hsz.
  - split; [by eapply run_init|]. exists ∅, ∅. unfold sys_state, sys_log, sys_blocks. cbn.
    unfold init in Hinit. destruct (state_try_from args) as [s0|] eqn:Hs; [|done]. apply Done_inv in Hinit. injection Hinit as -> <-.
    apply state_try_from_fields in Hs as (pool & _ & -> & _).
    split; [apply implements_default | | by intros _ ? ? ?%lookup_empty_Some].
    split; try done; try (by intros ? ? ?%not_elem_of_nil); try (by intros ? ? ? ?%not_elem_of_nil).
    + intros k arg Hk. by apply list_elem_of_lookup_2, Hl in Hk.
    + intros k1 k2 arg Hk. by apply list_elem_of_lookup_2, Hl in Hk.
  - eapply system_inv_step; [done.. |]. apply IH. by eapply mint_step_sized.
Qed.
End System.

(** ** Properties *)
Definition mint_args (blocks : list LedgerBlock) : list TransferArg :=
  omap (fun b => match b with MintBlock arg => Some arg | OtherBlock => None end) blocks.

Definition minted_on_ledger (blocks : list LedgerBlock) : Z := zsum (map ta_amount (mint_args blocks)).

Definition block_deposit_id (b : LedgerBlock) : option DepositSolId :=
  match b with MintBlock arg => mint_deposit_id arg | OtherBlock => None end.

Section Consequences.
Context `{Platform} `{DedupLedger}.

Lemma credited_u64 d L i p : implements d L -> credited L i p -> is_u64 i.
Proof.
  intros HI (st & HL & _). assert (is_Some (L !! i)) as Hs by eauto. apply (im_ids _ _ HI) in Hs.
  pose proof (im_next _ _ HI). unfold is_u64. lia.
Qed.

(** What the mint blocks of an execution are. *)
Lemma config_block s log L A blocks sel calls rep k arg :
  config_inv s log L A blocks sel calls rep -> blocks !! k = Some (MintBlock arg) ->
  exists i p, A !! i = Some p /\ arg = mint_transfer_arg i p /\ mint_deposit_id arg = Some i /\ credited L i p.
Proof.
  intros [HI HV HN] Hk. destruct (mv_blocks _ _ _ _ _ _ HV _ _ Hk) as (i & p & Hp & ->).
  pose proof (mv_credited _ _ _ _ _ _ HV _ _ Hp) as Hc. exists i, p. split_and!; try done.
  apply mint_deposit_id_arg. by eapply credited_u64.
Qed.

Lemma config_block_unique s log L A blocks sel calls rep k1 k2 b1 b2 i :
  config_inv s log L A blocks sel calls rep -> blocks !! k1 = Some b1 -> blocks !! k2 = Some b2 ->
  block_deposit_id b1 = Some i -> block_deposit_id b2 = Some i -> k1 = k2.
Proof.
  intros HC H1 H2 Hi1 Hi2. destruct b1 as [arg1|], b2 as [arg2|]; try done. cbn in Hi1, Hi2.
  destruct (config_block _ _ _ _ _ _ _ _ _ _ HC H1) as (i1 & p1 & Hp1 & -> & Hd1 & _).
  destruct (config_block _ _ _ _ _ _ _ _ _ _ HC H2) as (i2 & p2 & Hp2 & -> & Hd2 & _).
  assert (i1 = i) as -> by congruence. assert (i2 = i) as -> by congruence. rewrite Hp1 in Hp2. injection Hp2 as ->.
  by eapply (mv_unique _ _ _ _ _ _ (ci_mints _ _ _ _ _ _ _ _ HC)).
Qed.

Lemma credited_amount L i p : credited L i p -> value_at (fun q => stage_amount q.2) L i = pm_amount_to_mint p.
Proof. intros (st & HL & Hst). unfold value_at. rewrite HL. by destruct Hst as [->|[[ix ->]| ->]]. Qed.

(** The credited amounts are those of the lifecycle. *)
Lemma config_credited_sum s log L A blocks sel calls rep :
  config_inv s log L A blocks sel calls rep -> map_sum pm_amount_to_mint A = lsum L.
Proof.
  intros [HI HV _]. apply map_sum_ext. intros i. destruct (A !! i) as [p|] eqn:Hp.
  - rewrite (credited_amount L i p) by (by apply (mv_credited _ _ _ _ _ _ HV)). unfold value_at. by rewrite Hp.
  - unfold value_at. rewrite Hp. destruct (L !! i) as [[dep st]|] eqn:HL; [|done].
    assert (counted st = false) as Hc.
    { apply not_true_iff_false. intros Hc. destruct (mv_counted _ _ _ _ _ _ HV _ _ _ HL Hc). congruence. }
    by destruct st as [| | | | | |sig []].
Qed.

Lemma config_minted_total s log L A blocks sel calls rep :
  config_inv s log L A blocks sel calls rep -> log_fits log = true -> minted_on_ledger blocks <= lsum L.
Proof.
  intros HC Hf. rewrite <- (config_credited_sum _ _ _ _ _ _ _ _ HC).
  assert (NoDup (omap block_deposit_id blocks)) as Hnd.
  { apply NoDup_omap. intros k1 k2 b1 b2 i H1 H2. by eapply config_block_unique. }
  transitivity (zsum (map (value_at pm_amount_to_mint A) (omap block_deposit_id blocks))).
  - apply Z.eq_le_incl. unfold minted_on_ledger, mint_args.
    assert (forall arg, MintBlock arg ∈ blocks -> exists i, mint_deposit_id arg = Some i /\ value_at pm_amount_to_mint A i = ta_amount arg) as Hin.
    { intros arg [k Hk]%list_elem_of_lookup. destruct (config_block _ _ _ _ _ _ _ _ _ _ HC Hk) as (i & p & Hp & -> & Hd & _).
      exists i. split; [done|]. unfold value_at. by rewrite Hp. }
    clear HC Hf Hnd. induction blocks as [|b blocks IH]; [done|].
    assert (zsum (map ta_amount (mint_args blocks)) = zsum (map (value_at pm_amount_to_mint A) (omap block_deposit_id blocks))) as Heq.
    { apply IH. intros arg Ha. apply Hin. by right. }
    destruct b as [arg|]; [|exact Heq]. destruct (Hin arg) as (i & Hi & Hv); [left|].
    cbn [omap list_omap block_deposit_id]. rewrite Hi. cbn [map zsum fold_right].
    rewrite Hv. exact (f_equal (Z.add (ta_amount arg)) Heq).
  - apply zsum_keys_le; [done|]. intros i p Hp. by apply (ci_nonneg _ _ _ _ _ _ _ _ HC Hf i).
Qed.
End Consequences.

(** An execution in which the answer to the first mint is lost: the mint is
    retried and the ledger reports it as a duplicate. *)
Definition credited_log : list Event := example_take 8.
Definition credited_state : State := example_state_at 8.
Definition mint_ledger0 : Ledger := mkWindowLedger 5 [OtherBlock].
Definition mint_round0 : State * MintRound :=
  default (credited_state, mkMintRound [] false) (process_pending_mints_start credited_state).
Definition mint_pending0 : PendingMint :=
  default (mkPendingMint (mkSweptDeposit (example_deposit 0 0 0 None) 0) 0 0) (pending_mints (deposits credited_state) !! 0).
Definition mint_arg0 : TransferArg := mint_transfer_arg 0 mint_pending0.
Definition mint_ledger1 : Ledger := (window_transfer mint_ledger0 mint_arg0).1.
Definition mint_c0 : Tracked := (mint_round0.1, credited_log, metrics_new).
Definition mint_c1 : Tracked := process_pending_mint_callback mint_c0 0 (Err "SysUnknown") 6.
Definition mint_c2 : Tracked := process_pending_mint_callback mint_c1 0 (Ok (Err (TeDuplicate 1))) 7.
Definition mint_system : System := mkSystem mint_c2 mint_ledger1 (mr_pending_mints mint_round0.2) [] [].

(** A log without mints is the log of an execution beside any ledger. *)
Lemma replay_mint_run `{Platform} `{DedupLedger} rest : forall s log l,
  mint_run (mkSystem (s, log, metrics_new) l [] [] []) -> forallb (fun e => negb (is_minted_event (ev_payload e))) rest = true ->
  forall s', foreach (fun s event => apply_state_transition s (ev_payload event) (ev_timestamp event)) s rest = Done s' ->
  mint_run (mkSystem (s', log ++ rest, metrics_new) l [] [] []).
Proof.
  induction rest as [|[t ev] rest IH]; intros s log l Hrun Hno s' Hr; cbn [foreach] in Hr.
  - apply Done_inv in Hr. subst. by rewrite app_nil_r.
  - cbn in Hno. apply andb_true_iff in Hno as [Hev%negb_true_iff Hno]. apply bind_Done in Hr as (s1 & Hs1 & Hr).
    change (mkEvent t ev :: rest) with ([mkEvent t ev] ++ rest). rewrite app_assoc.
    apply (IH s1); [|done..]. eapply mrun_step; [exact Hrun|]. apply (ms_event s log _ _ _ _ _ ev t); [done|].
    unfold process_event. cbn in Hs1. by rewrite Hs1.
Qed.

Lemma credited_mint_run : mint_run (mkSystem (credited_state, credited_log, metrics_new) mint_ledger0 [] [] []).
Proof.
  apply (replay_mint_run (drop 1 credited_log) (example_state_at 1) (example_take 1)).
  - apply (mrun_init example_init 1); [vm_compute; reflexivity|]. intros arg. cbn. by intros [[=]|?%not_elem_of_nil]%elem_of_cons.
  - vm_compute. reflexivity.
  - vm_compute. reflexivity.
Qed.

Lemma mint_system_run : mint_run mint_system.
Proof.
  eapply mrun_step; [eapply mrun_step; [eapply mrun_step; [eapply mrun_step; [eapply mrun_step; [eapply mrun_step; [eapply mrun_step;
    [exact credited_mint_run|]|]|]|]|]|]|].
  - apply (ms_select credited_state credited_log _ _ _ _ _ mint_round0.1 mint_round0.2). vm_compute. reflexivity.
  - apply (ms_send mint_c0 _ _ _ _ 0 mint_pending0 5 mint_arg0); [vm_compute; left | vm_compute; reflexivity].
  - apply (ms_execute mint_c0 mint_ledger0 _ [] [] _ 0 mint_arg0 mint_ledger1 (Ok 1) (Err "SysUnknown")); [vm_compute; reflexivity | eauto].
  - apply (ms_answer mint_c0 mint_ledger1 _ _ [] [] 0 (Err "SysUnknown") 6).
  - apply (ms_send mint_c1 _ _ _ _ 0 mint_pending0 6 mint_arg0); [vm_compute; left | vm_compute; reflexivity].
  - apply (ms_execute mint_c1 mint_ledger1 _ [] [] _ 0 mint_arg0 mint_ledger1 (Err (TeDuplicate 1)) (Ok (Err (TeDuplicate 1))));
      [vm_compute; reflexivity | auto].
  - apply (ms_answer mint_c1 mint_ledger1 _ _ [] [] 0 (Ok (Err (TeDuplicate 1))) 7).
Qed.

Lemma mint_system_sized : sized (sys_log mint_system).
Proof. split; [vm_compute; discriminate|]. apply (bool_decide_unpack _). vm_compute. exact I. Qed.

(** C2: however mints are retried, answers lost, calls trapped and the minter
    upgraded, the ledger has at most one mint block per deposit, made for a
    deposit of the minter, to its account and for at most its sweepable
    amount; and every deposit the minter records as minted has its block at
    the recorded index, with the recorded amount. *)
Theorem deposit_minted_once_on_ledger `{!Platform, !DedupLedger} sys :
  mint_run sys -> sized (sys_log sys) ->
  (forall k1 k2 b1 b2 i, sys_blocks sys !! k1 = Some b1 -> sys_blocks sys !! k2 = Some b2 ->
     block_deposit_id b1 = Some i -> block_deposit_id b2 = Some i -> k1 = k2) /\
  (forall k arg, sys_blocks sys !! k = Some (MintBlock arg) ->
     exists i dep st, mint_deposit_id arg = Some i /\ holds (deposits (sys_state sys)) i dep st /\
       ta_to arg = qd_account dep /\ ta_amount arg = stage_amount st /\ ta_amount arg <= sweepable_amount dep) /\
  (forall i m, minted (deposits (sys_state sys)) !! i = Some m ->
     exists k arg, mt_mint_block_index m = Z.of_nat k /\ sys_blocks sys !! k = Some (MintBlock arg) /\
       mint_deposit_id arg = Some i /\ ta_to arg = qd_account (sd_deposit (mt_deposit m)) /\
       ta_amount arg = mt_minted_amount m).
Proof.
  intros Hrun Hsz. destruct (mint_run_inv sys Hrun Hsz) as [_ (L & A & HC)]. pose proof HC as [HI HV _]. split_and!.
  - intros k1 k2 b1 b2 i. by apply (config_block_unique _ _ _ _ _ _ _ _ _ _ _ _ _ HC).
  - intros k arg Hk. destruct (config_block _ _ _ _ _ _ _ _ _ _ HC Hk) as (i & p & Hp & -> & Hd & Hc).
    pose proof (credited_amount _ _ _ Hc) as Ha. destruct Hc as (st & HL & Hst).
    exists i, (sd_deposit (pm_deposit p)), st. unfold value_at in Ha. rewrite HL in Ha. cbn in Ha.
    split_and!; [done | by apply (im_holds _ _ HI) | done | done |]. cbn. rewrite <- Ha. by apply (im_amounts _ _ HI i).
  - intros i [[dep sig] a ix] Hm.
    assert (L !! i = Some (dep, StMinted sig a ix)) as HL by (by apply (im_holds _ _ HI)).
    destruct (mv_minted _ _ _ _ _ _ HV _ _ _ _ _ HL) as (p & k & Hp & -> & Hk).
    destruct (config_block _ _ _ _ _ _ _ _ _ _ HC Hk) as (j & q & Hq & Harg & Hd & Hc).
    pose proof (mv_credited _ _ _ _ _ _ HV _ _ Hp) as Hci. pose proof (credited_amount _ _ _ Hci) as Ha.
    exists k, (mint_transfer_arg i p). split_and!; [done | done | | |].
    + apply mint_deposit_id_arg. by eapply credited_u64.
    + destruct Hci as (st & HL' & _). cbn. unfold pm_account. congruence.
    + unfold value_at in Ha. rewrite HL in Ha. cbn in *. congruence.
Qed.

Lemma deposit_minted_once_on_ledger_witness :
  (exists k arg, mt_mint_block_index (default (mkMintedSweep (pm_deposit mint_pending0) 0 0) (minted (deposits (sys_state mint_system)) !! 0)) = Z.of_nat k /\
     sys_blocks mint_system !! k = Some (MintBlock arg) /\ mint_deposit_id arg = Some 0) /\
  length (sys_blocks mint_system) = 2%nat.
Proof.
  split; [|vm_compute; reflexivity].
  destruct (proj2 (proj2 (deposit_minted_once_on_ledger mint_system mint_system_run mint_system_sized)) 0
    (default (mkMintedSweep (pm_deposit mint_pending0) 0 0) (minted (deposits (sys_state mint_system)) !! 0)))
    as (k & arg & H1 & H2 & H3 & _); [vm_compute; reflexivity|].
  exact (ex_intro _ k (ex_intro _ arg (conj H1 (conj H2 H3)))).
Defined.

(** C3: the ckSOL minted on the ledger for deposits never exceeds, together
    with the collected deposit fees, the lamports the minter received. *)
Theorem minted_supply_is_backed `{!Platform, !DedupLedger} sys :
  mint_run sys -> sized (sys_log sys) -> log_fits (sys_log sys) = true ->
  minted_on_ledger (sys_blocks sys) + collected_automatic_deposit_fees (sys_state sys) <= received_in (sys_log sys).
Proof.
  intros Hrun Hsz Hf. destruct (mint_run_inv sys Hrun Hsz) as [Hmr (L & A & HC)].
  pose proof (config_minted_total _ _ _ _ _ _ _ _ HC Hf) as Hle.
  destruct (minter_run_inv _ Hmr Hsz) as (L' & HI' & _ & HA). cbn [fst snd] in *.
  rewrite (implements_unique _ L' L (mi_deposits _ _ _ HI') (ci_implements _ _ _ _ _ _ _ _ HC)) in HA.
  destruct (HA Hf) as [_ Hcr _]. lia.
Qed.

Lemma minted_supply_is_backed_witness :
  minted_on_ledger (sys_blocks mint_system) + collected_automatic_deposit_fees (sys_state mint_system)
    <= received_in (sys_log mint_system) /\
  0 < minted_on_ledger (sys_blocks mint_system).
Proof.
  split; [|vm_compute; reflexivity].
  refine (minted_supply_is_backed mint_system mint_system_run mint_system_sized _). vm_compute. reflexivity.
Defined.
