(* ===== verification/DepositSol.v ===== *)
(** The endpoints of the deposits: [deposit_sol] and [queue_deposit] of
    minter/src/deposit/sweep, [watch_deposit_address] of
    minter/src/deposit/automatic, the public key of minter/src/address and the
    account checks of minter/src/utils and minter/src/main.rs. *)
From S2P Require Import Prelude Platform ConcretePlatform InsertionOrderedMap TimedSizedMap Watchlist NoncePool Events Sweeps Deposits SolTransfer MinterState Replay Invariants Safety Interleaving Parameters Guards Rpc.

Abbreviation Config := (State * list Event)%type (only parsing).

Section Accounts.
Context `{Platform}.

Definition assert_non_anonymous_account (account : Account) : outcome unit :=
  assert_ (negb (bool_decide (acc_owner account = anonymous))) "the owner must be non-anonymous".

Definition assert_valid_deposit_owner (account : Account) (minter_id : Principal) : outcome unit :=
  assert_non_anonymous_account account;;
  assert_ (negb (bool_decide (acc_owner account = minter_id))) "the minter's own principal is not a valid deposit owner".

(** [main::resolve_account]; an absent subaccount is the empty one. *)
Definition resolve_account (msg_caller : Principal) (owner : option Principal) (subaccount : bytes) : Account :=
  mkAccount (default msg_caller owner) subaccount.
End Accounts.

(** ** The minter's public key *)
Inductive MinterPublicKeyNotYetAvailable : Type := NotYetAvailable.

Definition minter_public_key_or_unavailable (s : State) : result SchnorrPublicKey MinterPublicKeyNotYetAvailable :=
  ok_or (minter_public_key s) NotYetAvailable.

Definition not_yet_available_message : string := "the minter public key is not yet available, try again later".

Section Keys.
Context `{Platform}.

Definition get_deposit_address (s : State) (account : Account) : outcome Address :=
  master_key ← expect (minter_public_key s) "master key not yet initialized";
  Done (account_address master_key account).

(** [fetch_and_record_minter_public_key] once the management canister
    answered; [deserialize_raw] reads the raw key, and the result says whether
    the fetch is scheduled again. A trap schedules it again too. *)
Definition fetch_and_record_minter_public_key (deserialize_raw : bytes -> option PublicKey) (c : Config)
    (response : result (bytes * bytes) IcError) (now : Timestamp) : outcome (Config * bool) :=
  match response with
  | Err _ => Done (c, true)
  | Ok (raw_key, raw_chain_code) =>
      public_key ← expect (deserialize_raw raw_key) "the management canister returns a valid Ed25519 public key";
      chain_code ← expect (if (length raw_chain_code =? 32)%nat then Some raw_chain_code else None)
        "the management canister returns a 32-byte chain code";
      match minter_public_key c.1 with
      | Some _ => Done (c, false)
      | None =>
          c ← process_event c.1 c.2 (MinterPublicKeyFetched public_key chain_code) now;
          Done (c, false)
      end
  end.
End Keys.

(** ** deposit_sol *)
Inductive DepositSolError : Type :=
  | DsInsufficientCycles (e : InsufficientCyclesError)
  | DsTemporarilyUnavailable (message : string)
  | DsAlreadyProcessing
  | DsValueTooSmall (balance minimum_deposit_amount : Lamport)
  | DsQuarantined (deposit_id : DepositSolId).

Definition deposit_guard_error (e : GuardError) : DepositSolError :=
  match e with
  | GuardAlreadyProcessing => DsAlreadyProcessing
  | TooManyConcurrentRequests => DsTemporarilyUnavailable "too many concurrent requests"
  end.

Definition get_balance_error_message (e : GetBalanceError) : string :=
  match e with
  | GbIcError e => String.append "Error while calling SOL RPC canister: " e
  | GbRpcError e => String.append "RPC error while fetching balance: " e
  | GbInconsistentRpcResults => "Inconsistent RPC results for balance"
  end.

Definition deposit_balance_error (e : GetBalanceError) : DepositSolError :=
  DsTemporarilyUnavailable (get_balance_error_message e).

Definition balance_above_minimum (balance minimum_deposit_amount : Lamport) : result Lamport DepositSolError :=
  if balance <? minimum_deposit_amount then Err (DsValueTooSmall balance minimum_deposit_amount) else Ok balance.

(** The local variables of a call that awaits the balance. *)
Record BalanceCall := mkBalanceCall {
  bc_deposit_sol_fee : Z;
  bc_minimum_deposit_amount : Lamport;
  bc_deposit_address : Address
}.

Abbreviation drop_deposit_guard := (guard_drop PendingDepositSolRequests).

Section DepositSol.
Context `{Platform}.

(** [deposit_sol] up to the balance request: it returns, or awaits the balance. *)
Definition deposit_sol_start (s : State) (canister_self : Principal) (msg_cycles_available : Z) (account : Account)
    : outcome (State * (result DepositSolId DepositSolError + BalanceCall)) :=
  assert_valid_deposit_owner account canister_self;;
  match deposit_sol_guard s account with
  | Err e => Done (s, inl (Err (deposit_guard_error e)))
  | Ok s =>
      let return_ r := Done (drop_deposit_guard s account, inl r) in
      match check_caller_available_cycles msg_cycles_available (deposit_sol_required_cycles s) with
      | Err e => return_ (Err (DsInsufficientCycles e))
      | Ok _ =>
          in_flight_deposit ← in_flight (deposits s) account;
          match in_flight_deposit with
          | Some (Processing deposit_id) => return_ (Ok deposit_id)
          | Some (InFlightQuarantined deposit_id) => return_ (Err (DsQuarantined deposit_id))
          | None =>
              match minter_public_key_or_unavailable s with
              | Err _ => return_ (Err (DsTemporarilyUnavailable not_yet_available_message))
              | Ok master_key =>
                  Done (s, inr (mkBalanceCall (deposit_sol_fee s) (minimum_deposit_amount s)
                    (account_address master_key account)))
              end
          end
      end
  end.

Definition queue_deposit (c : Config) (deposit : QueuedDeposit) (now : Timestamp) : outcome (Config * DepositSolId) :=
  let deposit_id := next_id (deposits c.1) in
  c ← process_event c.1 c.2
    (QueuedDepositEvent deposit_id (qd_account deposit) (qd_address deposit) (qd_balance deposit) (qd_deposit_fee deposit)) now;
  Done (c, deposit_id).

Definition deposit_balance_result (call : BalanceCall) (response : Response Lamport) : result Lamport DepositSolError :=
  result_bind (map_err deposit_balance_error (get_balance response)) (fun balance =>
  balance_above_minimum balance (bc_minimum_deposit_amount call)).

(** [deposit_sol] once the balance arrived. *)
Definition deposit_sol_finish (c : Config) (account : Account) (call : BalanceCall) (response : Response Lamport)
    (msg_cycles_accept : Z -> Z) (msg_cycles_refunded : Z) (now : Timestamp)
    : outcome (Config * result DepositSolId DepositSolError) :=
  let drop_guard c := (drop_deposit_guard c.1 account, c.2) in
  let r := deposit_balance_result call response in
  charge_rpc_call msg_cycles_accept msg_cycles_refunded (mkRpcCallCharge GET_BALANCE_CYCLES (bc_deposit_sol_fee call)) r;;
  match r with
  | Err e => Done (drop_guard c, Err e)
  | Ok balance =>
      balance ← expect (DepositBalance_new balance)
        "BUG: the minimum deposit amount covers the rent exemption threshold";
      '(c, deposit_id) ← queue_deposit c (mkQueuedDeposit account (bc_deposit_address call) balance None) now;
      Done (drop_guard c, Ok deposit_id)
  end.

(** A trap rolls back to the state from before and drops the guard. *)
Definition deposit_sol_callback (c : Config) (account : Account) (call : BalanceCall) (response : Response Lamport)
    (msg_cycles_accept : Z -> Z) (msg_cycles_refunded : Z) (now : Timestamp)
    : Config * option (result DepositSolId DepositSolError) :=
  match deposit_sol_finish c account call response msg_cycles_accept msg_cycles_refunded now with
  | Done (c, r) => (c, Some r)
  | Panic _ => ((drop_deposit_guard c.1 account, c.2), None)
  end.

Definition deposit_status (s : State) (deposit_id : DepositSolId) : DepositSolStatus := status (deposits s) deposit_id.
End DepositSol.

(** ** watch_deposit_address *)
Inductive WatchDepositAddressStatus : Type :=
  | Watching (valid_until : Timestamp) (scan_count : Z) (last_scanned_at next_scan_at : option Timestamp)
  | Detected (deposit_id : DepositSolId).

Definition watch_status_of (watched : WatchedAddress) : WatchDepositAddressStatus :=
  Watching (wa_valid_until watched) (wa_scan_count watched) (wa_last_scanned_at watched) (wa_next_scan_at watched).

Record WatchDepositAddressOk := mkWatchOk {
  wo_address : Address;
  wo_minimum_deposit_amount : Lamport;
  wo_automatic_deposit_fee : Lamport;
  wo_status : WatchDepositAddressStatus;
  wo_latest_deposit_id : option DepositSolId
}.

Inductive WatchDepositAddressError : Type :=
  | WaQuarantined (deposit_id : DepositSolId)
  | WaTooManyWatchedAddresses (latest_deposit_id : option DepositSolId)
  | WaTemporarilyUnavailable (message : string).

Definition watch_deposit_address `{Platform} (s : State) (canister_self : Principal) (account : Account) (now : Timestamp)
    : outcome (State * result WatchDepositAddressOk WatchDepositAddressError) :=
  assert_valid_deposit_owner account canister_self;;
  match minter_public_key_or_unavailable s with
  | Err _ => Done (s, Err (WaTemporarilyUnavailable not_yet_available_message))
  | Ok master_key =>
      let address := account_address master_key account in
      match automatic_deposit_fee s with
      | None => Done (s, Err (WaTemporarilyUnavailable "the automatic deposit fee is not configured"))
      | Some automatic_deposit_fee =>
          let latest_deposit_id := latest_id (deposits s) account in
          let ok s status := Done (s, Ok (mkWatchOk address (minimum_deposit_amount s) automatic_deposit_fee status latest_deposit_id)) in
          in_flight_deposit ← in_flight (deposits s) account;
          match in_flight_deposit with
          | Some (Processing deposit_id) => ok s (Detected deposit_id)
          | Some (InFlightQuarantined deposit_id) => Done (s, Err (WaQuarantined deposit_id))
          | None =>
              '(watchlist', registered) ← wl_register (watchlist (deposits s)) now account address;
              let s := s <| deposits ::= fun d => d <| watchlist := watchlist' |> |> in
              match registered with
              | Ok watched => ok s (watch_status_of watched)
              | Err watchlist_full => Done (s, Err (WaTooManyWatchedAddresses latest_deposit_id))
              end
          end
      end
  end.

(** ** Lemmas: parameters *)
Definition params (s : State) :=
  (sol_rpc_canister_id s, ledger_canister_id s, minimum_deposit_amount s, withdrawal_fee s, minimum_withdrawal_amount s,
   deposit_sol_fee s, deposit_sol_required_cycles s, automatic_deposit_fee s).

Lemma valid_params_eq `{Platform} s s' : params s' = params s -> valid_params s -> valid_params s'.
Proof.
  unfold params. intros [= E1 E2 E3 E4 E5 E6 E7 E8] [H1 H2 H3 H4 H5 H6 H7 H8].
  split; unfold max_automatic_deposit_fee in *; rewrite ?E1, ?E2, ?E3, ?E4, ?E5, ?E6, ?E7, ?E8; done.
Qed.

Section Params.
Context `{Platform}.

(** Only upgrades change the parameters, and they validate them. *)
Lemma event_params s ev t s' : apply_state_transition s ev t = Done s' -> params s' = params s \/ valid_params s'.
Proof.
  destruct ev; cbn [apply_state_transition].
  - done.
  - destruct (upgrade s args) as [s1|] eqn:Hu; [|done]. intros Hs%Done_inv. subst s1.
    apply upgrade_Ok in Hu as (pool & _ & _ & Hv). right. by apply validate_valid.
  - intros (_ & ->)%process_accepted_Done. by left.
  - destruct message as [m]. destruct purpose as [ids h|ixs].
    + intros (key & d & r & _ & _ & _ & _ & Hd & ->)%process_submitted_sweep_Done. by left.
    + intros (s1 & tx & _ & _ & _ & Hs & ->)%process_submitted_withdrawal_Done.
      apply send_nonce_withdrawal_Done in Hs as (a & cr & b & c & st & _ & _ & _ & _ & _ & _ & _ & _ & ->). by left.
  - intros (tx & d & pool & _ & _ & _ & Hf & ->)%process_succeeded_Done. by left.
  - intros (tx & d & pool & _ & _ & _ & Hf & ->)%process_failed_Done. by left.
  - intros (h & d & _ & _ & _ & Hd & ->)%process_expired_Done. by left.
  - intros (d & Hd & ->)%deposit_update_Done. by left.
  - intros (d & sw & Hd & _ & _ & ->)%process_credited_Done. by left.
  - intros (d & Hd & ->)%deposit_update_Done. by left.
  - intros [(_ & ->)|(_ & ->)]%cache_key_Done; by left.
  - intros (d & Hd & ->)%deposit_update_Done. by left.
  - intros (d & Hd & ->)%deposit_update_Done. by left.
  - intros (pool & p & c & tot & _ & _ & _ & _ & ->)%process_created_Done. by left.
Qed.

Lemma erase_params s s' : erase s' = erase s -> params s' = params s.
Proof. intros He. exact (f_equal params He). Qed.

(** The parameters are valid in every execution. *)
Lemma run_valid_params c : minter_run c -> valid_params c.1.
Proof.
  induction 1 as [args now c Hinit | c c' Hrun IH Hstep].
  - unfold init in Hinit. destruct (state_try_from args) as [s|] eqn:Hs; [|done]. apply Done_inv in Hinit. subst c.
    apply state_try_from_fields in Hs as (pool & _ & _ & Hv). by apply validate_valid.
  - assert (forall s ev now s' log, valid_params s -> process_event s log ev now = Done s' -> valid_params s'.1) as Hev.
    { intros s ev now s' log Hv (s1 & Hs1 & Hs')%bind_Done. apply Done_inv in Hs'. subst s'.
      destruct (event_params _ _ _ _ Hs1) as [Hp|]; [by eapply valid_params_eq | done]. }
    destruct Hstep as [s log ev now s' log' Hs | s log s' He Hwf | s log args now s' log' Hup]; cbn [fst] in *.
    + by eapply (Hev _ _ _ (s', log')).
    + apply (valid_params_eq s); [by apply erase_params | done].
    + pose proof (minter_run_replay _ Hrun) as Hrep. cbn [fst snd] in Hrep.
      assert (valid_params (erase s)) as Hv by (by apply (valid_params_eq s)).
      unfold post_upgrade in Hup. rewrite Hrep in Hup. cbn [mbind outcome_bind] in Hup. destruct args as [args|].
      * by eapply (Hev _ _ _ (s', log')).
      * apply Done_inv in Hup. by injection Hup as <- _.
Qed.
End Params.

(** ** Lemmas: accounts without a deposit in flight *)
Lemma reserving_op L op i dep st :
  lifecycle_op L op !! i = Some (dep, st) -> reserves_account st = true ->
  (exists t, op = OpQueue i dep t) \/ exists st0, L !! i = Some (dep, st0) /\ reserves_account st0 = true.
Proof.
  destruct op; cbn [lifecycle_op].
  1: { intros [[<- [= <- <-]]|[_ ?]]%lookup_insert_Some Hr; eauto. }
  all: intros (st0 & HL & ->)%relabel_Some Hr; right; exists st0; split; [exact HL|];
    destruct st0; cbn in *; try case_match; done.
Qed.

(** The deposit in flight of an account is its latest one. *)
Definition in_flight_latest (d : Deposits) : Prop := in_flight_ids d ⊆ latest_ids d.

Lemma fold_delete_subseteq {V} (l : list (DepositSolId * QueuedDeposit)) : forall (m : gmap Account V),
  fold_left (fun m (e : DepositSolId * QueuedDeposit) => delete (qd_account e.2) m) l m ⊆ m.
Proof. induction l as [|e l IH]; intros m; cbn; [done|]. etrans; [apply IH|]. apply delete_subseteq. Qed.

Lemma in_flight_latest_op `{Platform} d op d' : deposit_op d op = Done d' -> in_flight_latest d -> in_flight_latest d'.
Proof.
  unfold in_flight_latest. destruct op; cbn; intros Hop Hd.
  - apply queue_Done in Hop as (_ & _ & w & _ & ->). cbn. by apply insert_mono.
  - by apply bind_Done in Hop as ([d1 r] & (_ & q & l & sw & _ & _ & _ & _ & _ & _ & ->)%sweep_Done & [= <-]).
  - apply drop_swept_Done in Hop as (sw & _ & _ & ->). cbn. etrans; [apply fold_delete_subseteq | done].
  - by apply finalize_swept_Done in Hop as (sw & _ & _ & _ & ->).
  - by apply bind_Done in Hop as ([d1 sw] & (_ & _ & p & _ & ->)%credit_sweep_Done & [= <-]).
  - by apply quarantine_sweep_Done in Hop as (sw & _ & ->).
  - apply mint_Done in Hop as (p & _ & _ & ->). cbn. etrans; [apply delete_subseteq | done].
  - by apply quarantine_pending_mint_Done in Hop as (p & _ & ->).
Qed.

Lemma run_in_flight_latest `{Platform} c : minter_run c -> in_flight_latest (deposits c.1).
Proof.
  assert (forall s log ev now c', process_event s log ev now = Done c' -> in_flight_latest (deposits s) -> in_flight_latest (deposits c'.1)) as Hev.
  { intros s log ev now c' (s1 & Hs1 & Hc')%bind_Done Hd. apply Done_inv in Hc'. subst c'.
    apply event_deposit_op in Hs1 as [Heq|(op & Hop & _)]; cbn; [by rewrite Heq | by eapply in_flight_latest_op]. }
  induction 1 as [args now c Hinit | c c' Hrun IH Hstep].
  - unfold init in Hinit. destruct (state_try_from args) as [s|] eqn:Hs; [|done]. apply Done_inv in Hinit. subst c.
    apply state_try_from_fields in Hs as (pool & _ & -> & _). cbn. done.
  - destruct Hstep as [s log ev now s' log' Hs | s log s' He Hwf | s log args now s' log' Hup]; cbn [fst] in *.
    + by eapply (Hev _ _ _ _ (s', log')).
    + apply erase_eq_inv in He as (Hd & _). unfold in_flight_latest.
      rewrite (f_equal in_flight_ids Hd : in_flight_ids (deposits s') = in_flight_ids (deposits s)).
      rewrite (f_equal latest_ids Hd : latest_ids (deposits s') = latest_ids (deposits s)). done.
    + pose proof (minter_run_replay _ Hrun) as Hrep. cbn [fst snd] in Hrep.
      unfold post_upgrade in Hup. rewrite Hrep in Hup. cbn [mbind outcome_bind] in Hup. destruct args as [args|].
      * by eapply (Hev _ _ _ _ (s', log')).
      * apply Done_inv in Hup. by injection Hup as <- _.
Qed.

(** The events that queue a deposit for the account. While a [deposit_sol]
    call for it awaits the balance, its guard keeps other calls from queueing
    one. *)
Definition queues_for (account : Account) (ev : EventType) : Prop :=
  exists i address balance fee, ev = QueuedDepositEvent i account address balance fee.

Lemma calm_no_in_flight `{Platform} account c c' :
  rtc (calm_step (queues_for account)) c c' -> minter_run c -> sized c'.2 ->
  in_flight_ids (deposits c.1) !! account = None -> in_flight_ids (deposits c'.1) !! account = None.
Proof.
  apply (calm_deposits _ (fun d => in_flight_ids d !! account = None)).
  - intros d d' Hd. by rewrite (f_equal in_flight_ids Hd : in_flight_ids d' = in_flight_ids d).
  - intros ev op d d' L Hne Hperf HI HI' _ Hnone.
    apply eq_None_not_Some. intros [i Hi]. apply (im_in_flight _ _ HI') in Hi as (dep & st & HL & Hacc & Hr).
    apply reserving_op in HL as [[t ->]|(st0 & HL & Hr0)]; [ | | done].
    + cbn in Hperf. subst account. apply Hne. by do 4 eexists.
    + assert (in_flight_ids d !! account = Some i); [|congruence]. apply (im_in_flight _ _ HI). eauto.
Qed.

Section Finish.
Context `{Platform}.

(** A call that awaits the balance passed every check. *)
Lemma deposit_sol_start_call s self available account s1 call :
  deposit_sol_start s self available account = Done (s1, inr call) ->
  deposit_sol_guard s account = Ok s1 /\
  check_caller_available_cycles available (deposit_sol_required_cycles s) = Ok available /\
  in_flight_ids (deposits s) !! account = None /\
  exists key, minter_public_key s = Some key /\
    call = mkBalanceCall (deposit_sol_fee s) (minimum_deposit_amount s) (account_address key account).
Proof.
  unfold deposit_sol_start. intros ([] & _ & Hs)%bind_Done. destruct (deposit_sol_guard s account) as [s2|] eqn:Hg; [|done].
  pose proof Hg as (_ & _ & Hs2)%guard_new_Ok.
  assert (deposit_sol_required_cycles s2 = deposit_sol_required_cycles s) as Hreq by (by subst s2). rewrite Hreq in Hs.
  assert (forall x, check_caller_available_cycles available (deposit_sol_required_cycles s) = Ok x -> x = available) as Hchk.
  { intros x. unfold check_caller_available_cycles. destruct (_ <? _); [done|]. by intros [= ->]. }
  destruct (check_caller_available_cycles available (deposit_sol_required_cycles s)) as [x|] eqn:Hc; [|done].
  rewrite (Hchk x eq_refl). apply bind_Done in Hs as ([[]|] & Hfl & Hs); [done..|].
  unfold minter_public_key_or_unavailable in Hs.
  assert (minter_public_key s2 = minter_public_key s) as Hk by (by subst s2). rewrite Hk in Hs.
  destruct (minter_public_key s) as [key|]; cbn in Hs; [|done]. apply Done_inv in Hs. injection Hs as <- <-.
  split_and!; [done | done | | exists key; split; [done|]; by rewrite Hs2].
  assert (deposits s2 = deposits s) as Hd by (by subst s2). rewrite Hd in Hfl. unfold in_flight, in_flight_id in Hfl.
  destruct (in_flight_ids (deposits s) !! account); [|done]. by destruct (status _ _).
Qed.

(** The cycles required by valid parameters cover every charge. *)
Lemma deposit_charge_covered s available refunded (r : result Lamport DepositSolError) :
  valid_params s -> check_caller_available_cycles available (deposit_sol_required_cycles s) = Ok available ->
  0 <= refunded <= GET_BALANCE_CYCLES -> 0 <= deposit_sol_fee s -> GET_BALANCE_CYCLES + deposit_sol_fee s < u128_modulus ->
  charge_rpc_call (fun amount => Z.min amount available) refunded (mkRpcCallCharge GET_BALANCE_CYCLES (deposit_sol_fee s)) r = Done tt.
Proof.
  intros Hvp Hcyc Href Hfee Hover.
  refine (proj2 (rpc_charge_is_covered (mkRpcCallCharge GET_BALANCE_CYCLES (deposit_sol_fee s)) refunded available _ r Href Hfee Hover _ Hcyc)).
  pose proof (vp_cycles s Hvp) as Hv. unfold wadd128 in Hv. rewrite Z.mod_small in Hv; [done|]. unfold GET_BALANCE_CYCLES in *. lia.
Qed.

(** The deposit of an account without one in flight is queued. *)
Lemma queue_deposit_ok s log dep now :
  minter_run (s, log) -> sized log -> in_flight_ids (deposits s) !! qd_account dep = None ->
  exists s', queue_deposit (s, log) dep now = Done ((s', log ++ [mkEvent now (queued_event (next_id (deposits s), dep))]), next_id (deposits s)) /\
    status (deposits s') (next_id (deposits s)) = StatusQueued (sweepable_amount dep) /\
    in_flight (deposits s') (qd_account dep) = Done (Some (Processing (next_id (deposits s)))) /\
    queued (deposits s') = <[next_id (deposits s) := dep]> (queued (deposits s)).
Proof.
  intros Hrun Hsz Hfl. destruct (minter_run_inv _ Hrun Hsz) as (L & HI & Hn & _). cbn [fst snd] in *.
  pose proof (mi_deposits _ _ _ HI) as HD. destruct Hsz as [Hlen _].
  destruct (wl_remove_spec (watchlist (deposits s)) (qd_account dep) (im_watchlist _ _ HD)) as (w & Hw & _).
  destruct (queue (deposits s) (next_id (deposits s)) dep now) as [d'|] eqn:Hq.
  2: { eassert (queue (deposits s) (next_id (deposits s)) dep now = Done _); [|congruence].
       apply queue_Done. split_and!; [done..|]. by exists w. }
  pose proof (queue_implements _ _ _ _ _ _ HD ltac:(lia) Hq) as HD'.
  exists (s <| deposits := d' |>). split_and!.
  - unfold queue_deposit, process_event. cbn [fst snd apply_state_transition]. unfold process_queued_deposit.
    destruct dep as [a ad b f]. cbn [qd_account qd_address qd_balance qd_deposit_fee] in *. rewrite Hq. reflexivity.
  - read_upd. rewrite (status_stage _ _ _ HD'), lookup_insert_eq. done.
  - read_upd. unfold in_flight, in_flight_id. pose proof Hq as (_ & _ & w' & _ & Hd')%queue_Done.
    assert (in_flight_ids d' !! qd_account dep = Some (next_id (deposits s))) as -> by (rewrite Hd'; apply lookup_insert_eq).
    rewrite (status_stage _ _ _ HD'), lookup_insert_eq. done.
  - read_upd. by apply queue_Done in Hq as (_ & _ & w' & _ & ->).
Qed.
End Finish.

(** ** Properties *)
Definition depositing_state : State := default example_state (match deposit_sol_start (example_state_at 2) [9] 20000000000 (mkAccount [7] []) with Done (s, _) => Some s | Panic _ => None end).
Definition depositing_call : BalanceCall := mkBalanceCall (deposit_sol_fee (example_state_at 2)) (minimum_deposit_amount (example_state_at 2)) (account_address example_key (mkAccount [7] [])).

(** C22: a [deposit_sol] call that awaited the balance of the deposit address
    never traps, whatever other calls and timers did meanwhile, and drops its
    guard: when the balance could not be read or is below the minimum it
    changes nothing and reports why; otherwise it queues a deposit under the
    next id, whose sweepable amount is the balance without the rent exemption
    threshold, and which is the deposit in flight of the account. *)
Theorem deposit_sol_outcome `{!Platform} s log self available account s1 call c response refunded now :
  minter_run (s, log) -> deposit_sol_start s self available account = Done (s1, inr call) ->
  rtc (calm_step (queues_for account)) (s1, log) c -> sized c.2 ->
  (forall balance, get_balance response = Ok balance -> is_u64 balance) ->
  0 <= refunded <= GET_BALANCE_CYCLES -> 0 <= deposit_sol_fee s -> GET_BALANCE_CYCLES + deposit_sol_fee s < u128_modulus ->
  exists c' r, deposit_sol_finish c account call response (fun amount => Z.min amount available) refunded now = Done (c', r) /\
    (account ∉ pending_deposit_sol_request_guards c'.1) /\
    match get_balance response with
    | Err e => r = Err (deposit_balance_error e) /\ c' = (drop_deposit_guard c.1 account, c.2)
    | Ok balance =>
        if balance <? minimum_deposit_amount s then
          r = Err (DsValueTooSmall balance (minimum_deposit_amount s)) /\ c' = (drop_deposit_guard c.1 account, c.2)
        else
          let deposit_id := next_id (deposits c.1) in
          r = Ok deposit_id /\
          status (deposits c'.1) deposit_id = StatusQueued (balance - RENT_EXEMPTION_THRESHOLD) /\
          in_flight (deposits c'.1) account = Done (Some (Processing deposit_id))
    end.
Proof.
  intros Hrun Hst Hq Hsz Hu64 Href Hfee Hover.
  pose proof (deposit_sol_start_call _ _ _ _ _ _ Hst) as (Hg & Hcyc & Hfl & key & Hkey & Hcall).
  pose proof (run_valid_params _ Hrun) as Hvp. cbn [fst] in Hvp.
  pose proof (fun r0 => deposit_charge_covered s available refunded r0 Hvp Hcyc Href Hfee Hover) as Hcharge.
  assert (forall s0, account ∉ pending_deposit_sol_request_guards (drop_deposit_guard s0 account)) as Hdrop.
  { intros s0. change (account ∉ pending_deposit_sol_request_guards s0 ∖ {[account]}). set_solver. }
  unfold deposit_sol_finish, deposit_balance_result.
  replace (bc_deposit_sol_fee call) with (deposit_sol_fee s) by (by subst call). rewrite Hcharge. cbn [mbind outcome_bind].
  destruct (get_balance response) as [balance|e] eqn:Hb; cbn [map_err result_bind].
  2: { do 2 eexists. split; [reflexivity|]. split; [apply Hdrop | done]. }
  unfold balance_above_minimum. replace (bc_minimum_deposit_amount call) with (minimum_deposit_amount s) by (by subst call).
  destruct (Z.ltb_spec balance (minimum_deposit_amount s)) as [Hlt|Hge].
  { do 2 eexists. split; [reflexivity|]. split; [apply Hdrop | done]. }
  pose proof (Hu64 balance eq_refl) as Hu. unfold is_u64 in Hu.
  assert (deposit_balance_ok balance = true) as Hok.
  { pose proof (vp_main_rent s Hvp). unfold deposit_balance_ok, RENT_EXEMPTION_THRESHOLD, FEE_PER_SIGNATURE in *.
    apply andb_true_iff. rewrite Z.leb_le, Z.ltb_lt. lia. }
  unfold DepositBalance_new. destruct (Bool.bool_dec (deposit_balance_ok balance) true) as [Hb'|]; [|done].
  cbn [expect mbind outcome_bind].
  pose proof (calm_sized _ _ _ Hq Hsz) as Hsz0.
  pose proof Hg as (_ & _ & Hs1)%guard_new_Ok.
  assert (minter_run (s1, log)) as Hrun1.
  { eapply run_step; [exact Hrun|]. apply step_transient; [by subst s1|].
    destruct (minter_run_inv _ Hrun Hsz0) as (L & HI & _). subst s1. apply (im_watchlist _ _ (mi_deposits _ _ _ HI)). }
  pose proof (calm_run _ _ _ Hq Hrun1) as Hrunc.
  assert (in_flight_ids (deposits c.1) !! account = None) as Hflc by (eapply calm_no_in_flight; [done.. | by subst s1]).
  destruct c as [sc logc]. cbn [fst snd] in *.
  destruct (queue_deposit_ok sc logc (mkQueuedDeposit account (bc_deposit_address call) (mkDepositBalance balance Hb') None) now Hrunc Hsz Hflc)
    as (s2 & -> & Hstat & Hin & _). cbn [mbind outcome_bind].
  do 2 eexists. split; [reflexivity|]. split; [apply Hdrop|]. split_and!; [done | exact Hstat | exact Hin].
Qed.

Lemma deposit_sol_outcome_witness :
  exists c' r, deposit_sol_finish (depositing_state, example_take 2) (mkAccount [7] []) depositing_call
      (Ok (Consistent (Ok 5000000))) (fun amount => Z.min amount 20000000000) 8000000000 3 = Done (c', r) /\
    r = Ok 0 /\ status (deposits c'.1) 0 = StatusQueued 4109120.
Proof.
  destruct (deposit_sol_outcome (example_state_at 2) (example_take 2) [9] 20000000000 (mkAccount [7] []) depositing_state depositing_call
    (depositing_state, example_take 2) (Ok (Consistent (Ok 5000000))) 8000000000 3) as (c' & r & Hf & _ & Hr & Hs & _).
  - apply replay_run. vm_compute. reflexivity.
  - vm_compute. reflexivity.
  - apply rtc_refl.
  - split; [vm_compute; discriminate|]. apply (bool_decide_unpack _). vm_compute. exact I.
  - intros balance [= <-]. unfold is_u64. vm_compute. split; [discriminate | reflexivity].
  - vm_compute. split; discriminate.
  - vm_compute. discriminate.
  - vm_compute. reflexivity.
  - exists c', r. split; [exact Hf|]. split; [exact Hr | exact Hs].
Defined.

(** C23: registering a deposit address never traps for a valid owner and leaves
    everything but the watchlist alone. It reports the deposit in flight of the
    account if there is one (or that it is quarantined), and otherwise watches
    the address: an account that is watched keeps its registration, another one
    gets a fresh one unless the watchlist is full of live registrations. *)
Theorem watch_deposit_address_outcome `{!Platform} s log self account now key fee :
  minter_run (s, log) -> sized log -> is_u64 now ->
  assert_valid_deposit_owner account self = Done tt -> minter_public_key s = Some key -> automatic_deposit_fee s = Some fee ->
  exists s' r, watch_deposit_address s self account now = Done (s', r) /\ erase s' = erase s /\ wl_wf (watchlist (deposits s')) /\
    let ok status := Ok (mkWatchOk (account_address key account) (minimum_deposit_amount s) fee status (latest_id (deposits s) account)) in
    match in_flight (deposits s) account with
    | Done (Some (Processing deposit_id)) => s' = s /\ r = ok (Detected deposit_id) /\ latest_id (deposits s) account = Some deposit_id
    | Done (Some (InFlightQuarantined deposit_id)) => s' = s /\ r = Err (WaQuarantined deposit_id)
    | Done None =>
        match wl_get (watchlist (deposits s)) now account with
        | Some watched => r = ok (watch_status_of watched) /\ wl_get (watchlist (deposits s')) now account = Some watched
        | None =>
            if bool_decide (size (live_entries now (tsm_entries (wl_entries (watchlist (deposits s))))) < MAX_WATCHED_ADDRESSES)%nat
            then r = ok (watch_status_of (fresh_registration now account (account_address key account))) /\
              wl_get (watchlist (deposits s')) now account = Some (fresh_registration now account (account_address key account))
            else r = Err (WaTooManyWatchedAddresses (latest_id (deposits s) account))
        end
    | Panic _ => False
    end.
Proof.
  intros Hrun Hsz Hnow Hown Hkey Hfee. destruct (minter_run_inv _ Hrun Hsz) as (L & HI & _). cbn [fst] in HI.
  pose proof (mi_deposits _ _ _ HI) as HD. pose proof (im_watchlist _ _ HD) as Hwf.
  unfold watch_deposit_address, minter_public_key_or_unavailable. rewrite Hown, Hkey. cbn [ok_or mbind outcome_bind]. rewrite Hfee.
  pose proof (in_flight_spec _ _ account HD) as Hfl. destruct (in_flight_id (deposits s) account) as [i|] eqn:Hi.
  - destruct Hfl as [-> | ->]; cbn [mbind outcome_bind]; do 2 eexists; (split; [reflexivity|]); split_and!; try done.
    exact (lookup_weaken _ _ _ _ Hi (run_in_flight_latest _ Hrun)).
  - rewrite Hfl. cbn [mbind outcome_bind].
    destruct (wl_register_spec (watchlist (deposits s)) now account (account_address key account) Hwf Hnow) as (w' & r & -> & Hwf' & _ & Hr).
    cbn [mbind outcome_bind]. destruct (wl_get (watchlist (deposits s)) now account) as [watched|] eqn:Hg.
    + destruct Hr as [-> ->]. do 2 eexists. split; [reflexivity|]. by split_and!.
    + case_bool_decide; [destruct Hr as [-> Hget]|subst r]; do 2 eexists; (split; [reflexivity|]); by split_and!.
Qed.

Lemma watch_deposit_address_outcome_witness :
  exists s' r, watch_deposit_address (example_state_at 8) [9] (mkAccount [7] []) 100 = Done (s', r) /\ erase s' = erase (example_state_at 8).
Proof.
  destruct (watch_deposit_address_outcome (example_state_at 8) (example_take 8) [9] (mkAccount [7] []) 100 example_key
    (default 0 (automatic_deposit_fee (example_state_at 8)))) as (s' & r & Hw & He & _).
  - apply replay_run. vm_compute. reflexivity.
  - split; [vm_compute; discriminate|]. apply (bool_decide_unpack _). vm_compute. exact I.
  - unfold is_u64. vm_compute. split; [discriminate | reflexivity].
  - vm_compute. reflexivity.
  - vm_compute. reflexivity.
  - vm_compute. reflexivity.
  - exists s', r. split; [exact Hw | exact He].
Defined.
