(* ===== verification/SweepTasks.v ===== *)
(** minter/src/deposit/sweep/timer.rs and minter/src/deposit/sweep/finalize:
    the task that sweeps the queued deposits to the minter's address, and the
    crediting of the sweeps that were finalized. *)
From S2P Require Import Prelude Platform ConcretePlatform InsertionOrderedMap TimedSizedMap Watchlist NoncePool Events Sweeps Deposits SolTransfer MinterState Replay Invariants Safety Interleaving Guards Rpc Metrics.

Abbreviation Config := (State * list Event)%type (only parsing).
Abbreviation FetchedOutcome := (result (option FetchedTransaction) GetTransactionError) (only parsing).

Definition MAX_DEPOSITS_PER_SWEEP : nat := Z.to_nat MAX_SIGNATURES.

(** ** Sweeping *)
Record SweepRound := mkSweepRound {
  sr_batches : list (list (DepositSolId * QueuedDeposit));
  sr_leaves_deposits_queued : bool
}.

Definition MAX_DEPOSITS_PER_ROUND : nat := MAX_DEPOSITS_PER_SWEEP * MAX_CONCURRENT_RPC_CALLS.

Definition take_from_queue (s : State) : SweepRound :=
  let deposits := take (MAX_DEPOSITS_PER_ROUND + 1) (btree_iter (queued (deposits s))) in
  mkSweepRound (chunks MAX_DEPOSITS_PER_SWEEP (take MAX_DEPOSITS_PER_ROUND deposits))
    (MAX_DEPOSITS_PER_ROUND <? length deposits)%nat.

Section Sweeping.
Context `{Platform}.

(** [sweep_queued_deposits] up to the fetch of a recent block: the state with
    the guard, the round and the destination, unless it returns at once. *)
Definition sweep_queued_deposits_start (s : State) : option (State * SweepRound * Address) :=
  match timer_guard_new s SweepDeposits with
  | Err _ => None
  | Ok s =>
      let round := take_from_queue s in
      if bool_decide (sr_batches round = []) then None
      else match minter_public_key s with
      | None => None
      | Some master_key => Some (s, round, minter_address master_key)
      end
  end.

(** Its end, once every batch was handled or the block could not be fetched:
    the state without the guard, and whether it is scheduled again at once. *)
Definition sweep_queued_deposits_end (s : State) (round : SweepRound) (block_fetched : bool) : State * bool :=
  (timer_guard_drop s SweepDeposits, block_fetched && sr_leaves_deposits_queued round).

Inductive SweepError : Type :=
  | CreateTransactionFailed (e : CreateTransferError)
  | SubmitTransactionFailed (e : SubmitTransactionError).

(** [submit_sweep_transaction] once the transaction of the planned sweep was
    signed: the event is recorded before the transaction is sent. *)
Definition submit_sweep_signed (c : Config) (sweep : Sweep) (block : Block)
    (signed : result (Transaction * list Signer) CreateTransferError) (now : Timestamp)
    : outcome (Config * result Transaction SweepError) :=
  match signed with
  | Err e => Done (c, Err (CreateTransactionFailed e))
  | Ok (transaction, signers) =>
      signature ← expect (head (tx_signatures transaction)) "index out of bounds";
      c ← process_event c.1 c.2
        (SubmittedTransaction signature (Legacy (tx_message transaction)) signers
          (PurposeSweepDeposit (btree_keys (sw_deposits sweep)) (block_height block))) now;
      Done (c, Ok transaction)
  end.

(** The whole of [submit_sweep_transaction] with its awaits: [sign] are the
    threshold signatures, [during] what happens while they are produced. *)
Definition submit_sweep_transaction (sign : Message -> DerivationPath -> result bytes string) (during : Config -> Config)
    (c : Config) (batch : list (DepositSolId * QueuedDeposit)) (block : Block) (sweep_destination : Address)
    (response : Response Signature) (now : Timestamp) : outcome (Config * result Signature SweepError) :=
  sweep ← plan batch sweep_destination;
  signed ← sign_sweep_transaction sign sweep (block_blockhash block);
  '(c, submitted) ← submit_sweep_signed (during c) sweep block signed now;
  match submitted with
  | Err e => Done (c, Err e)
  | Ok transaction =>
      signature ← expect (head (tx_signatures transaction)) "index out of bounds";
      Done (c, result_bind (map_err SubmitTransactionFailed (rpc_send_transaction response)) (fun _ => Ok signature))
  end.

(** ** Crediting *)

(** The finalized sweeps a round settles, with their total number. *)
Definition finalized_round (s : State) : nat * list (Signature * Sweep) :=
  (sweeps_len (finalized (deposits s)), take MAX_CONCURRENT_RPC_CALLS (btree_iter (by_signature (finalized (deposits s))))).

(** What the fetched outcome of a sweep amounts to: the reason it counts as a
    failed attempt, and the event that settles it. *)
Definition credit_event (signature : Signature) (sweep : Sweep)
    (outcome : result (option FetchedTransaction) GetTransactionError) : option FailedCreditReason * option EventType :=
  match outcome with
  | Ok (Some fetched) =>
      match settle sweep (vt_message (ft_transaction fetched)) (ft_meta fetched) with
      | Ok settled => (None, Some (CreditedSweep signature (amount_received settled) (settled_mints settled)))
      | Err (Unreadable _) => (Some FcUnreadable, None)
      | Err (Mismatch _) => (Some FcMismatch, Some (QuarantinedSweep signature))
      end
  | Ok None => (Some FcNotFound, None)
  | Err e => (Some (if gt_is_response_untrustworthy e then FcInvalidResponse else FcRpcError), None)
  end.

Definition count_failed_credit (reason : option FailedCreditReason) (m : Metrics) : Metrics :=
  match reason with Some reason => record_failed_credit_attempt reason m | None => m end.

(** One iteration of the loop, with the number of settled sweeps. *)
Definition credit_finalized_sweep (now : Timestamp) (c : Tracked * nat) (item : Signature * Sweep * FetchedOutcome)
    : outcome (Tracked * nat) :=
  let '((signature, sweep), outcome) := item in
  let '(reason, event) := credit_event signature sweep outcome in
  let tracked := (c.1.1, count_failed_credit reason c.1.2) in
  match event with
  | None => Done (tracked, c.2)
  | Some event => tracked ← tracked_event tracked event now; Done (tracked, S c.2)
  end.

(** [credit_finalized_sweeps] once the outcomes arrived; the result says
    whether the finalization timer must run again immediately. *)
Definition credit_finalized_sweeps (c : Tracked) (round : nat * list (Signature * Sweep)) (outcomes : list FetchedOutcome)
    (now : Timestamp) : outcome (Tracked * bool) :=
  '(c, settled_count) ← foreach (credit_finalized_sweep now) (c, 0%nat) (zip round.2 outcomes);
  Done (c, (0 <? settled_count)%nat && (settled_count <? round.1)%nat).
End Sweeping.

(** ** Lemmas on crediting *)

(** The lamports of the deposits of a sweep fit in 64 bits. *)
Record sweep_fits (sweep : Sweep) : Prop := {
  sf_total : total_sweepable (sw_deposits sweep) < u64_modulus;
  sf_fees : forall i dep, sw_deposits sweep !! i = Some dep -> 0 <= deposit_fee dep
}.

Section Credit.
Context `{Platform}.

Lemma settled_within sweep ms :
  sweep_wf sweep -> sweep_fits sweep -> mints sweep = Ok ms ->
  wsum (map cd_amount_to_mint ms) + deposit_fees sweep <= sw_expected_received sweep /\ sw_expected_received sweep < u64_modulus.
Proof.
  intros Hwf [Htot Hfees] Hms. pose proof (mints_within_transfers sweep Hwf _ Hms) as Hle.
  rewrite (swf_total _ Hwf) in Hle. rewrite (expected_received_exact sweep Hwf Htot).
  pose proof (total_deposit_fees_nonneg (sw_deposits sweep) Hfees) as Hpos.
  pose proof (mints_Ok sweep ms Hms) as (_ & Hamts & _).
  assert (0 <= zsum (map cd_amount_to_mint ms)) as Hm.
  { apply zsum_nonneg, Forall_forall. intros a (c & -> & Hc)%list_elem_of_fmap. by destruct (Hamts c Hc) as (? & _ & _ & _ & ?). }
  assert (0 <= sw_fee sweep) as Hfee by (rewrite (swf_fee _ Hwf); apply wrap64_range).
  unfold deposit_fees. rewrite !wsum_exact; unfold is_u64, total_deposit_fees in *; lia.
Qed.

(** A finalized sweep that settles can be credited. *)
Lemma credit_settled s L sig sweep tx meta settled t :
  implements (deposits s) L -> by_signature (finalized (deposits s)) !! sig = Some sweep -> sweep_fits sweep ->
  settle sweep tx meta = Ok settled ->
  exists d, credit_sweep (deposits s) sig (settled_mints settled) t = Done (d, sweep) /\
    exists s', process_credited_sweep s sig (amount_received settled) (settled_mints settled) t = Done s' /\ deposits s' = d.
Proof.
  intros HI Hs Hfits (m & mt & _ & _ & _ & Hrcv & Hms)%settle_Ok. pose proof (im_finalized_wf _ _ HI _ _ Hs) as Hwf.
  pose proof (mints_Ok sweep _ Hms) as (Hids & Hamts & _).
  pose proof (settled_within _ _ Hwf Hfits Hms) as [Hle Hlt].
  destruct (credit_succeeds (deposits s) L sig sweep (settled_mints settled) t HI Hs) as [d Hd].
  - by rewrite Hids.
  - apply Forall_forall. intros c Hc. destruct (Hamts c Hc) as (dep & Hdep & Ha & _ & _). exists dep. split; [done|].
    pose proof (fee_share_nonneg sweep Hwf). pose proof (sf_fees _ Hfits _ _ Hdep). lia.
  - exists d. split; [done|]. eexists. split; [apply process_credited_Done; exists d, sweep; split_and!; [done | lia | lia | done]|]. done.
Qed.

(** The stage an event of the loop gives a deposit. *)
Definition settled_stage (event : option EventType) (now : Timestamp) (i : DepositSolId) (st : Stage) : Stage :=
  match event with
  | Some (CreditedSweep sig _ ms) => to_pending sig ms now i st
  | Some (QuarantinedSweep sig) => to_unreadable sig i st
  | _ => st
  end.

(** One settled sweep. *)
Lemma credit_event_ok s log sig sweep o ev now :
  minter_run (s, log) -> sized log -> Z.of_nat (length log) < u64_max ->
  by_signature (finalized (deposits s)) !! sig = Some sweep -> sweep_fits sweep ->
  (credit_event sig sweep o).2 = Some ev ->
  exists s', apply_state_transition s ev now = Done s' /\ accepted_of ev = [] /\
    finalized (deposits s') = mkSweeps (delete sig (by_signature (finalized (deposits s)))) /\
    forall i dep st, holds (deposits s) i dep st -> holds (deposits s') i dep (settled_stage (Some ev) now i st).
Proof.
  intros Hrun Hsz Hlen Hs Hfits Hev. destruct (minter_run_inv _ Hrun Hsz) as (L & HI & Hn & _). cbn [fst snd] in *.
  pose proof (mi_deposits _ _ _ HI) as HD.
  assert (forall op d', deposit_op (deposits s) op = Done d' -> implements d' (lifecycle_op L op)) as Hop.
  { intros op d' Ho. eapply deposit_op_implements; [done | lia | done]. }
  destruct o as [[fetched|]|e]; cbn in Hev; [|done..].
  destruct (settle sweep _ _) as [settled|[u|mm]] eqn:Hset; [| done |]; injection Hev as <-.
  - destruct (credit_settled s L sig sweep _ _ settled now HD Hs Hfits Hset) as (d & Hd & s' & Hp & Hd').
    exists s'. split_and!; [done | done | |].
    + pose proof Hd as (_ & _ & p & _ & ->)%credit_sweep_Done. by rewrite Hd'.
    + intros i dep st Hh. assert (implements d (lifecycle_op L (OpCreditSweep sig (settled_mints settled) now))) as HD'.
      { apply Hop. cbn. by rewrite Hd. }
      rewrite Hd'. apply (im_holds _ _ HD'). cbn. apply relabel_Some. exists st. split; [by apply (im_holds _ _ HD) | done].
  - destruct (quarantine_sweep (deposits s) sig) as [d|] eqn:Hq.
    2: { eassert (quarantine_sweep (deposits s) sig = Done _); [|congruence]. apply quarantine_sweep_Done. by exists sweep. }
    exists (s <| deposits := d |>). split_and!; [cbn; unfold process_quarantined_sweep; by rewrite Hq | done | |].
    + by apply quarantine_sweep_Done in Hq as (sw & _ & ->).
    + intros i dep st Hh. assert (implements d (lifecycle_op L (OpQuarantineSweep sig))) as HD' by (by apply Hop).
      apply (im_holds _ _ HD'). cbn. apply relabel_Some. exists st. split; [by apply (im_holds _ _ HD) | done].
Qed.

Definition item_event (item : Signature * Sweep * FetchedOutcome) : option EventType := (credit_event item.1.1 item.1.2 item.2).2.

Definition settled_items (items : list (Signature * Sweep * FetchedOutcome)) : nat :=
  length (filter (fun item => is_Some (item_event item)) items).

(** The loop settles every item whose outcome decides it. *)
Lemma credit_loop_ok now items : forall s log m n,
  minter_run (s, log) -> sized log -> Z.of_nat (length log) + Z.of_nat (length items) <= u64_max ->
  NoDup items.*1.*1 ->
  (forall sig sw o, (sig, sw, o) ∈ items -> by_signature (finalized (deposits s)) !! sig = Some sw /\ sweep_fits sw) ->
  exists s' log' m', foreach (credit_finalized_sweep now) ((s, log, m), n) items = Done ((s', log', m'), (n + settled_items items)%nat) /\
    minter_run (s', log') /\
    forall i dep st, holds (deposits s) i dep st ->
      holds (deposits s') i dep (fold_left (fun st item => settled_stage (item_event item) now i st) items st).
Proof.
  induction items as [|[[sig sw] o] items IH]; intros s log m n Hrun Hsz Hlen Hnd Hfin.
  - exists s, log, m. cbn. split_and!; [by rewrite Nat.add_0_r | done | done].
  - cbn [fmap list_fmap] in Hnd. apply NoDup_cons in Hnd as [Hsig Hnd]. cbn [length] in Hlen.
    destruct (Hfin sig sw o (list_elem_of_here _ _)) as [Hs Hfits].
    assert (forall sig' sw' o', (sig', sw', o') ∈ items -> sig' <> sig) as Hother.
    { intros sig' sw' o' Hin ->. apply Hsig. apply list_elem_of_fmap. exists (sig, sw'). split; [done|].
      apply list_elem_of_fmap. by exists (sig, sw', o'). }
    cbn [foreach fold_left]. unfold settled_items. cbn [filter list_filter].
    destruct (credit_event sig sw o) as [reason [ev|]] eqn:Hce.
    + destruct (credit_event_ok s log sig sw o ev now Hrun Hsz ltac:(lia) Hs Hfits) as (s1 & Hs1 & Hacc & Hf & Hh).
      { by rewrite Hce. }
      assert (credit_finalized_sweep now ((s, log, m), n) (sig, sw, o) =
        Done ((s1, log ++ [mkEvent now ev], count_failed_credit reason m), S n)) as ->.
      { unfold credit_finalized_sweep. rewrite Hce. unfold tracked_event, process_event. cbn [fst snd]. by rewrite Hs1. }
      cbn [mbind outcome_bind].
      rewrite decide_True by (unfold item_event; cbn; rewrite Hce; by eexists). cbn [length].
      destruct (IH s1 (log ++ [mkEvent now ev]) (count_failed_credit reason m) (S n)) as (s' & log' & m' & Hl & Hr' & Hh').
      * by eapply event_run.
      * apply sized_no_accept; [done | done | lia].
      * rewrite length_app. cbn. lia.
      * done.
      * intros sig' sw' o' Hin. destruct (Hfin sig' sw' o' (list_elem_of_further _ _ _ Hin)) as [? ?]. split; [|done].
        rewrite Hf. cbn. rewrite lookup_delete_ne; [done|]. intros ->. by eapply Hother.
      * exists s', log', m'. split; [|split; [done|]].
        -- rewrite Hl, Nat.add_succ_r. reflexivity.
        -- intros i dep st Hi. apply Hh, Hh' in Hi.
           replace (item_event (sig, sw, o)) with (Some ev) by (unfold item_event; cbn; by rewrite Hce). exact Hi.
    + rewrite decide_False by (unfold item_event; cbn; rewrite Hce; by intros [? ?]).
      assert (credit_finalized_sweep now ((s, log, m), n) (sig, sw, o) = Done ((s, log, count_failed_credit reason m), n)) as ->.
      { unfold credit_finalized_sweep. by rewrite Hce. }
      cbn [mbind outcome_bind].
      destruct (IH s log (count_failed_credit reason m) n) as (s' & log' & m' & Hl & Hr' & Hh'); [done | done | lia | done | |].
      * intros sig' sw' o' Hin. apply (Hfin sig' sw' o'). by right.
      * exists s', log', m'. split; [exact Hl | split; [done|]]. intros i dep st Hi. apply Hh' in Hi.
        replace (item_event (sig, sw, o)) with (@None EventType) by (unfold item_event; cbn; by rewrite Hce). exact Hi.
Qed.

(** The events of the loop move finalized deposits only. *)
Lemma settled_stage_other sig sw o now i st : st <> StFinalized sig -> settled_stage (credit_event sig sw o).2 now i st = st.
Proof.
  intros Hst. unfold credit_event. repeat case_match; cbn; try done; destruct st; cbn; try done.
  all: destruct (Z.eqb_spec signature sig); [congruence | done].
Qed.

Lemma settled_stage_leaves sig sw o now i sig' :
  settled_stage (credit_event sig sw o).2 now i (StFinalized sig) = StFinalized sig' -> sig' = sig.
Proof.
  unfold credit_event, settled_stage. intros Heq. repeat case_match; cbn in *; simplify_eq; try done.
  all: unfold to_pending, to_unreadable in *; repeat case_match; simplify_eq; done.
Qed.

Lemma settled_fold_item now i items k sig sw o :
  NoDup items.*1.*1 -> items !! k = Some (sig, sw, o) ->
  fold_left (fun st item => settled_stage (item_event item) now i st) items (StFinalized sig) =
  settled_stage (credit_event sig sw o).2 now i (StFinalized sig).
Proof.
  intros Hnd Hk.
  apply (fold_move_item (fun item : Signature * Sweep * FetchedOutcome => item.1.1)
    (fun item st => settled_stage (item_event item) now i st) StFinalized) with (k := k) (e := (sig, sw, o)).
  - by intros ? ? [= ->].
  - intros [[sig' sw'] o'] st. apply settled_stage_other.
  - intros [[sig' sw'] o'] sig''. apply settled_stage_leaves.
  - by rewrite <- list_fmap_compose in Hnd.
  - done.
Qed.
End Credit.

(** ** Between the parts of the tasks *)

(** The events that settle one of the sweeps; only the finalization timer
    records them, and its guard excludes a second one while a round waits. *)
Definition settles_any (sweeps : list (Signature * Sweep)) (ev : EventType) : Prop :=
  match ev with CreditedSweep sig _ _ | QuarantinedSweep sig => sig ∈ sweeps.*1 | _ => False end.

Definition all_finalized (round : list (Signature * Sweep)) (d : Deposits) : Prop :=
  forall sig sw, (sig, sw) ∈ round -> by_signature (finalized d) !! sig = Some sw.

Lemma calm_finalized `{Platform} round c c' :
  rtc (calm_step (settles_any round)) c c' -> minter_run c -> sized c'.2 ->
  all_finalized round (deposits c.1) -> all_finalized round (deposits c'.1).
Proof.
  apply (calm_deposits _ (all_finalized round)).
  - intros d d' Hd HI sig sw Hin. rewrite (f_equal finalized Hd : finalized d' = finalized d). by apply HI.
  - intros ev op d d' L Hne Hperf _ _ Hop HI sig sw Hin. specialize (HI sig sw Hin). destruct op; cbn in Hop, Hperf.
    + by apply queue_Done in Hop as (_ & _ & w & _ & ->).
    + by apply bind_Done in Hop as ([d1 r] & (_ & q & l & sw' & _ & _ & _ & _ & _ & _ & ->)%sweep_Done & [= <-]).
    + by apply drop_swept_Done in Hop as (sw' & _ & _ & ->).
    + apply finalize_swept_Done in Hop as (sw' & _ & _ & Hnone & ->). cbn. rewrite lookup_insert_ne; [done|]. congruence.
    + apply bind_Done in Hop as ([d1 sw'] & (_ & _ & p & _ & ->)%credit_sweep_Done & [= <-]). cbn. rewrite lookup_delete_ne; [done|].
      intros ->. destruct Hperf as [r ->]. apply Hne. cbn. apply list_elem_of_fmap. by exists (sig, sw).
    + apply quarantine_sweep_Done in Hop as (sw' & _ & ->). cbn. rewrite lookup_delete_ne; [done|].
      intros ->. subst ev. apply Hne. cbn. apply list_elem_of_fmap. by exists (sig, sw).
    + by apply mint_Done in Hop as (p & _ & _ & ->).
    + by apply quarantine_pending_mint_Done in Hop as (p & _ & ->).
Qed.

(** The events that sweep one of the deposits; only the sweep timer records
    them, and its guard excludes a second one. *)
Definition sweeps_any (batch : list (DepositSolId * QueuedDeposit)) (ev : EventType) : Prop :=
  exists sig m signers ids h i dep, ev = SubmittedTransaction sig m signers (PurposeSweepDeposit ids h) /\ i ∈ ids /\ (i, dep) ∈ batch.

Definition all_queued (batch : list (DepositSolId * QueuedDeposit)) (d : Deposits) : Prop :=
  forall i dep, (i, dep) ∈ batch -> queued d !! i = Some dep.

Lemma calm_queued `{Platform} batch c c' :
  rtc (calm_step (sweeps_any batch)) c c' -> minter_run c -> sized c'.2 ->
  all_queued batch (deposits c.1) -> all_queued batch (deposits c'.1).
Proof.
  apply (calm_deposits _ (all_queued batch)).
  - intros d d' Hd HI i dep Hin. rewrite (f_equal queued Hd : queued d' = queued d). by apply HI.
  - intros ev op d d' L Hne Hperf HD HD' Hop HI i dep Hin. specialize (HI i dep Hin).
    assert (L !! i = Some (dep, StQueued)) as HL by (by apply (im_holds _ _ HD)).
    change (holds d' i dep StQueued). apply (im_holds _ _ HD'). destruct op; cbn [lifecycle_op].
    1: { apply lookup_insert_Some. right. split; [|done]. intros ->. cbn in Hop. apply queue_Done in Hop as (-> & _).
         assert (is_Some (L !! next_id d)) as Hs by eauto. apply (im_ids _ _ HD) in Hs. lia. }
    all: apply relabel_Some; exists StQueued; split; [done|]; try done.
    cbn. rewrite bool_decide_false; [done|]. intros Hi. cbn in Hperf. destruct Hperf as (signers & h & ->). apply Hne.
    do 7 eexists. by split_and!.
Qed.

(** ** Rounds *)
Lemma take_from_queue_batches s :
  concat (sr_batches (take_from_queue s)) = take MAX_DEPOSITS_PER_ROUND (btree_iter (queued (deposits s))) /\
  Forall (fun batch => (0 < length batch <= MAX_DEPOSITS_PER_SWEEP)%nat) (sr_batches (take_from_queue s)) /\
  (sr_leaves_deposits_queued (take_from_queue s) = true <-> (MAX_DEPOSITS_PER_ROUND < size (queued (deposits s)))%nat).
Proof.
  unfold take_from_queue. cbn [sr_batches sr_leaves_deposits_queued]. split_and!.
  - rewrite chunks_concat by (vm_compute; lia). rewrite take_take. by f_equal.
  - apply chunks_bounds. vm_compute. lia.
  - rewrite Nat.ltb_lt, length_take, btree_iter_length. lia.
Qed.

Lemma batch_of_round s batch :
  batch ∈ sr_batches (take_from_queue s) ->
  all_queued batch (deposits s) /\ NoDup batch.*1 /\ batch <> [] /\ (length batch <= MAX_DEPOSITS_PER_SWEEP)%nat.
Proof.
  intros Hin. destruct (take_from_queue_batches s) as (Hc & Hb & _).
  assert (concat (sr_batches (take_from_queue s)) `prefix_of` btree_iter (queued (deposits s))) as [rest Hrest].
  { rewrite Hc. eexists. symmetry. apply take_drop. }
  apply list_elem_of_split in Hin as (l1 & l2 & Hl). rewrite Hl in *. rewrite concat_app in Hrest. cbn in Hrest.
  assert (NoDup (btree_iter (queued (deposits s))).*1) as Hnd by apply NoDup_btree_keys.
  rewrite Hrest, !fmap_app in Hnd. apply Forall_app in Hb as [_ [Hlen _]%Forall_cons].
  split_and!.
  - intros i dep Hi. apply elem_of_btree_iter. rewrite Hrest, !elem_of_app. tauto.
  - by apply NoDup_app in Hnd as [(_ & _ & (? & _ & _)%NoDup_app)%NoDup_app _].
  - intros ->. cbn in Hlen. lia.
  - lia.
Qed.

(** The sweep planned for queued deposits can be recorded. *)
Lemma sweep_planned `{!Platform, !PlatformLaws} s L acc batch addr sw h sig :
  min_inv s L acc -> all_queued batch (deposits s) -> batch <> [] -> plan batch addr = Done sw ->
  iom_get (submitted_transactions s) sig = None ->
  exists d, sweep (deposits s) (btree_keys (sw_deposits sw)) addr (Legacy (sweep_message sw h)) sig = Done (d, sw_expected_received sw) /\
    by_signature (swept d) !! sig = Some sw.
Proof.
  intros HI Hq Hne Hplan Hsub. pose proof (mi_deposits _ _ _ HI) as HD. pose proof (plan_Done _ _ _ Hplan) as (Hnd & Hdep & _ & _).
  assert (btree_iter (sw_deposits sw) ≡ₚ batch) as Hperm.
  { rewrite btree_iter_perm, Hdep. by apply map_to_list_to_map. }
  assert (forall i dep, sw_deposits sw !! i = Some dep -> queued (deposits s) !! i = Some dep) as Hqueued.
  { intros i dep Hi. apply Hq. rewrite <- Hperm. by apply elem_of_btree_iter. }
  eexists. split; [apply sweep_Done; split|].
  - intros Hnil%fmap_nil_inv. rewrite Hnil in Hperm. by apply Hne, Permutation_nil.
  - exists (filter (fun p => p.1 ∉ btree_keys (sw_deposits sw)) (queued (deposits s))), (btree_iter (sw_deposits sw)), sw. split_and!.
    + apply take_queued_Done. split_and!; [apply NoDup_btree_keys | done | |].
      * intros i dep Hi. apply Hqueued. by apply elem_of_btree_iter.
      * intros i. rewrite map_lookup_filter. destruct (queued (deposits s) !! i); cbn; [|by case_decide].
        case_decide; case_guard; done.
    + by eapply plan_perm.
    + by assert (msg_recent_blockhash (sweep_message sw h) = h) as -> by apply new_with_blockhash_hash.
    + intros i [dep Hi]. apply sweeps_deposit_None. intros sig' sw' Hsw'. apply eq_None_not_Some. intros [dep' Hi'].
      assert (L !! i = Some (dep, StQueued)) as H1 by (apply (im_holds _ _ HD); by apply Hqueued).
      assert (L !! i = Some (dep', StSwept sig')) as H2 by (apply (im_holds _ _ HD); by exists sw'). congruence.
    + apply eq_None_not_Some. intros [h' Hh]%(sv_swept _ _ _ (mi_sweeps _ _ _ HI)). congruence.
    + done.
    + done.
  - cbn. apply lookup_insert_eq.
Qed.

Lemma sweep_start_some `{Platform} s s1 round destination :
  sweep_queued_deposits_start s = Some (s1, round, destination) ->
  timer_guard_new s SweepDeposits = Ok s1 /\ erase s1 = erase s /\ deposits s1 = deposits s /\ round = take_from_queue s1 /\
  exists key, minter_public_key s1 = Some key /\ destination = minter_address key.
Proof.
  unfold sweep_queued_deposits_start. destruct (timer_guard_new s SweepDeposits) as [s2|] eqn:Hg; [|done].
  case_bool_decide; [done|]. destruct (minter_public_key s2) as [key|] eqn:Hk; [|done]. intros [= <- <- <-].
  split_and!; [done | | | done | eauto].
  all: unfold timer_guard_new in Hg; case_bool_decide; [done|]; by injection Hg as <-.
Qed.

Lemma round_run `{Platform} s log s1 :
  minter_run (s, log) -> sized log -> erase s1 = erase s -> deposits s1 = deposits s -> minter_run (s1, log).
Proof.
  intros Hrun Hsz He Hd. eapply run_step; [exact Hrun|]. apply step_transient; [done|]. rewrite Hd.
  destruct (minter_run_inv _ Hrun Hsz) as (L & HI & _). apply (im_watchlist _ _ (mi_deposits _ _ _ HI)).
Qed.

(** The batches of a round can be planned. *)
Lemma batch_plan_succeeds s batch destination :
  batch ∈ sr_batches (take_from_queue s) ->
  (forall i dep, (i, dep) ∈ batch -> MAX_SIGNATURES * FEE_PER_SIGNATURE <= sweepable_amount dep) ->
  exists sw, plan batch destination = Done sw.
Proof.
  intros (_ & Hnd & Hne & Hlen)%batch_of_round Hfee. apply plan_succeeds; [done..|]. intros i dep Hin.
  apply Hfee in Hin. unfold MAX_DEPOSITS_PER_SWEEP, MAX_SIGNATURES, FEE_PER_SIGNATURE in *. cbn in Hlen.
  etrans; [|exact Hin]. unfold wmul. rewrite wrap64_small; [lia|]. unfold is_u64, u64_modulus. lia.
Qed.

(** Recording the signed transaction of a planned batch that is still queued. *)
Lemma submit_batch_ok `{!Platform, !PlatformLaws} s log batch key sw block transaction signers sig now :
  minter_run (s, log) -> sized log -> all_queued batch (deposits s) -> batch <> [] ->
  minter_public_key s = Some key -> plan batch (minter_address key) = Done sw ->
  tx_message transaction = sweep_message sw (block_blockhash block) -> head (tx_signatures transaction) = Some sig ->
  (sig ∉ succeeded_transactions s) -> iom_get (failed_transactions s) sig = None -> iom_get (submitted_transactions s) sig = None ->
  exists s' ev, submit_sweep_signed (s, log) sw block (Ok (transaction, signers)) now = Done ((s', log ++ [mkEvent now ev]), Ok transaction) /\
    apply_state_transition s ev now = Done s' /\
    iom_get (submitted_transactions s') sig = Some (TxSweepDeposit (block_height block)) /\
    by_signature (swept (deposits s')) !! sig = Some sw /\
    forall i dep, holds (deposits s') i dep (StSwept sig) <-> (i, dep) ∈ batch.
Proof.
  intros Hrun Hsz Hq Hne Hkey Hplan Hm Hsig H1 H2 H3.
  destruct (minter_run_inv _ Hrun Hsz) as (L & HI & _). cbn [fst snd] in HI.
  destruct (sweep_planned s L _ batch _ sw (block_blockhash block) sig HI Hq Hne Hplan H3) as (d & Hsw & Hrec). rewrite <- Hm in Hsw.
  do 2 eexists. unfold submit_sweep_signed, process_event. rewrite Hsig. cbn [expect mbind outcome_bind fst snd apply_state_transition].
  rewrite (proj2 (process_submitted_sweep_Done s sig _ signers _ (block_height block) now _)
    (ex_intro _ key (ex_intro _ d (ex_intro _ _ (conj H1 (conj H2 (conj H3 (conj Hkey (conj Hsw eq_refl))))))))).
  cbn [mbind outcome_bind]. split; [reflexivity|]. split; [cbn [apply_state_transition];
    apply (proj2 (process_submitted_sweep_Done s sig _ signers _ (block_height block) now _)); by exists key, d; eexists|].
  split; [read_upd; rewrite iom_insert_get; by case_decide|]. read_upd. split; [exact Hrec|].
  intros i dep. destruct (plan_Done _ _ _ Hplan) as (Hnd & Hdep & _). rewrite (elem_of_list_to_map (M := gmap Z) batch i dep Hnd), <- Hdep.
  split; [intros (sw' & Hsw' & Hi); congruence | intros Hi; by exists sw].
Qed.

(** ** Properties *)
Definition sweeping_log : list Event := example_take 5.
Definition sweeping_state : State := example_state_at 5.
Definition sweeping_start : State * SweepRound * Address :=
  default (sweeping_state, mkSweepRound [] false, 0) (sweep_queued_deposits_start sweeping_state).

(** A round of crediting, with whatever happened since it started. *)
Lemma credit_round_ok `{!Platform} s log s1 log1 m outcomes now :
  minter_run (s, log) -> rtc (calm_step (settles_any (finalized_round s).2)) (s, log) (s1, log1) -> sized log1 ->
  Z.of_nat (length log1) + Z.of_nat MAX_CONCURRENT_RPC_CALLS <= u64_max ->
  length outcomes = length (finalized_round s).2 ->
  (forall sig sw, (sig, sw) ∈ (finalized_round s).2 -> sweep_fits sw) ->
  exists c again, credit_finalized_sweeps (s1, log1, m) (finalized_round s) outcomes now = Done (c, again) /\
    minter_run c.1 /\
    (forall k sig sw o i dep, (finalized_round s).2 !! k = Some (sig, sw) -> outcomes !! k = Some o -> sw_deposits sw !! i = Some dep ->
       holds (deposits c.1.1) i dep (settled_stage (credit_event sig sw o).2 now i (StFinalized sig))) /\
    (again = true <->
      (0 < settled_items (zip (finalized_round s).2 outcomes) < sweeps_len (finalized (deposits s)))%nat).
Proof.
  intros Hrun Hcalm Hsz Hlen Hout Hfits. set (round := (finalized_round s).2) in *.
  assert (all_finalized round (deposits s)) as Hfin0.
  { intros sig sw Hin. apply elem_of_btree_iter. cbn in Hin. by apply elem_of_take in Hin as (? & ?%list_elem_of_lookup_2 & _). }
  pose proof (calm_finalized _ _ _ Hcalm Hrun Hsz Hfin0) as Hfin.
  assert ((zip round outcomes).*1 = round) as Hfst by (rewrite fst_zip; [done | lia]).
  assert (NoDup (zip round outcomes).*1.*1) as Hnd.
  { rewrite Hfst. unfold round, finalized_round. cbn [snd]. rewrite fmap_take. eapply sublist_NoDup; [|apply sublist_take]. apply NoDup_btree_keys. }
  destruct (credit_loop_ok now (zip round outcomes) s1 log1 m 0) as (s' & log' & m' & Hl & Hrun' & Hh).
  - by eapply calm_run.
  - done.
  - assert (length (zip round outcomes) <= MAX_CONCURRENT_RPC_CALLS)%nat; [|lia].
    rewrite <- (length_fmap fst), Hfst. unfold round, finalized_round. cbn [snd]. rewrite length_take. lia.
  - done.
  - intros sig sw o Hin. assert ((sig, sw) ∈ round) as Hr by (rewrite <- Hfst; apply list_elem_of_fmap; by exists (sig, sw, o)).
    split; [by apply Hfin | by apply (Hfits sig)].
  - unfold credit_finalized_sweeps. fold round. rewrite Hl. cbn [mbind outcome_bind].
    do 2 eexists. split; [reflexivity|]. cbn [fst]. split; [exact Hrun'|]. split.
    + intros k sig sw o i dep Hk Ho Hi.
      rewrite <- (settled_fold_item now i (zip round outcomes) k sig sw o Hnd) by (rewrite lookup_zip_with, Hk; cbn; by rewrite Ho).
      apply Hh. exists sw. split; [|done]. apply Hfin. by eapply list_elem_of_lookup_2.
    + rewrite andb_true_iff, !Nat.ltb_lt. done.
Qed.

(** What the answer to [getTransaction] says of a sweep, if it has the transaction. *)
Definition fetched_settlement `{Platform} (sw : Sweep) (o : FetchedOutcome) : option (result SettledSweep SweepSettlementError) :=
  match o with
  | Ok (Some fetched) => Some (settle sw (vt_message (ft_transaction fetched)) (ft_meta fetched))
  | Ok None | Err _ => None
  end.

(** The sweeps a round decides. *)
Definition decided `{Platform} (item : Signature * Sweep * FetchedOutcome) : Prop :=
  (exists settled, fetched_settlement item.1.2 item.2 = Some (Ok settled)) \/
  (exists mismatch, fetched_settlement item.1.2 item.2 = Some (Err (Mismatch mismatch))).

Lemma decided_event `{Platform} item : decided item <-> is_Some (item_event item).
Proof.
  unfold decided, item_event, credit_event, fetched_settlement. destruct item as [[sig sw] [[fetched|]|e]]; cbn.
  - destruct (settle sw _ _) as [settled|[u|mm]]; cbn; split; eauto; [intros [[? [=]]|[? [=]]] | by intros [? ?]].
  - split; [intros [[? [=]]|[? [=]]] | by intros [? ?]].
  - split; [intros [[? [=]]|[? [=]]] | by intros [? ?]].
Qed.

#[export] Instance decided_dec `{Platform} item : Decision (decided item).
Proof. refine (cast_if (decide (is_Some (item_event item)))); by rewrite decided_event. Defined.

Lemma settled_items_decided `{Platform} items : settled_items items = length (filter decided items).
Proof. unfold settled_items. f_equal. apply list_filter_iff. intros item. by rewrite decided_event. Qed.

(** C19: crediting never traps and settles every fetched sweep by its outcome:
    whatever the minter did while the outcomes were fetched, but settling the
    sweeps of the round, each deposit of a sweep whose executed transaction
    settles against its plan gets its pending mint; the deposits of a sweep
    whose transaction contradicts its plan are quarantined; and a sweep whose
    transaction was not returned, could not be fetched or could not be read
    stays finalized for the next round. The timer runs again at once exactly
    when some but not all finalized sweeps were decided. *)
Theorem credit_settles_finalized_sweeps `{!Platform} s log s1 log1 m outcomes now :
  minter_run (s, log) -> rtc (calm_step (settles_any (finalized_round s).2)) (s, log) (s1, log1) -> sized log1 ->
  Z.of_nat (length log1) + Z.of_nat MAX_CONCURRENT_RPC_CALLS <= u64_max ->
  length outcomes = length (finalized_round s).2 ->
  (forall sig sw, (sig, sw) ∈ (finalized_round s).2 -> sweep_fits sw) ->
  exists c again, credit_finalized_sweeps (s1, log1, m) (finalized_round s) outcomes now = Done (c, again) /\
    (forall k sig sw o i dep, (finalized_round s).2 !! k = Some (sig, sw) -> outcomes !! k = Some o -> sw_deposits sw !! i = Some dep ->
       holds (deposits c.1.1) i dep
         match fetched_settlement sw o with
         | Some (Ok settled) => StPending sig (mint_amount (settled_mints settled) i) now
         | Some (Err (Mismatch _)) => StQuarantined sig SweepUnreadable
         | Some (Err (Unreadable _)) | None => StFinalized sig
         end) /\
    (again = true <->
      (0 < length (filter decided (zip (finalized_round s).2 outcomes)) < sweeps_len (finalized (deposits s)))%nat).
Proof.
  intros Hrun Hcalm Hsz Hlen Hout Hfits.
  destruct (credit_round_ok s log s1 log1 m outcomes now) as (c & again & Hc & _ & Hh & Hag); [done..|]. exists c, again.
  rewrite <- settled_items_decided. split_and!; [done | | done]. intros k sig sw o i dep Hk Ho Hi. specialize (Hh k sig sw o i dep Hk Ho Hi).
  unfold credit_event in Hh. unfold fetched_settlement. destruct o as [[fetched|]|e]; [|exact Hh..].
  destruct (settle sw _ _) as [settled|[u|mm]]; cbn in Hh; rewrite ?Z.eqb_refl in Hh; exact Hh.
Qed.

Definition fetched_sweep : FetchedOutcome :=
  Ok (Some (mkFetched (mkVersionedTransaction [900] (ExecutedLegacy (sweep_message example_plan 77))) (Some example_meta))).

Lemma credit_settles_finalized_sweeps_witness :
  exists c again, credit_finalized_sweeps (example_state_at 7, example_take 7, metrics_new) (finalized_round (example_state_at 7))
      [fetched_sweep] 30 = Done (c, again) /\
    holds (deposits c.1.1) 0 (default (example_deposit 0 0 0 None) (sw_deposits example_plan !! 0)) (StPending 900 1104120 30).
Proof.
  destruct (credit_settles_finalized_sweeps (example_state_at 7) (example_take 7) (example_state_at 7) (example_take 7) metrics_new [fetched_sweep] 30)
    as (c & again & Hc & Hh & _).
  - apply replay_run. vm_compute. reflexivity.
  - apply rtc_refl.
  - split; [vm_compute; discriminate|]. apply (bool_decide_unpack _). vm_compute. exact I.
  - vm_compute. discriminate.
  - vm_compute. reflexivity.
  - intros sig sw Hin. assert ((finalized_round (example_state_at 7)).2 = [(900, example_plan)]) as Heq by (vm_compute; reflexivity).
    rewrite Heq in Hin. apply list_elem_of_singleton in Hin. injection Hin as -> ->. split; [vm_compute; reflexivity|].
    assert (map_Forall (fun _ dep => 0 <= deposit_fee dep) (sw_deposits example_plan)) as Hall
      by (apply (bool_decide_unpack _); vm_compute; exact I).
    exact Hall.
  - exists c, again. split; [exact Hc|].
    exact (Hh 0%nat 900 example_plan fetched_sweep 0 (default (example_deposit 0 0 0 None) (sw_deposits example_plan !! 0))
      ltac:(vm_compute; reflexivity) ltac:(reflexivity) ltac:(vm_compute; reflexivity)).
Defined.
