(* ===== verification/Monitor.v ===== *)
(** minter/src/monitor: the finalization timer, which finalizes, drops and
    expires the submitted sweeps, and finalizes and re-broadcasts the submitted
    withdrawals. Fetched values are arguments; the parts between two awaits run
    atomically. *)
From S2P Require Import Prelude Platform ConcretePlatform InsertionOrderedMap TimedSizedMap Watchlist NoncePool Events Sweeps Deposits SolTransfer MinterState Replay Invariants Safety Interleaving Guards Rpc Metrics.

Abbreviation Config := (State * list Event)%type (only parsing).

Definition MAX_BLOCKHASH_AGE_IN_BLOCKS : BlockHeight := 150.
Definition MAX_SIGNATURES_PER_STATUS_CHECK : nat := 256.
(** 90 seconds in nanoseconds. *)
Definition MIN_REBROADCAST_AGE : Z := 90 * 1000000000.

(** ** Sweeps *)

(** The sweeps whose status is checked, with the height of their blockhash. *)
Definition blockhash_transactions (s : State) : gmap Signature BlockHeight :=
  collect_map (omap (fun p => match p.2 with TxSweepDeposit block_height => Some (p.1, block_height) | TxWithdrawal _ _ _ _ => None end)
    (iom_iter (submitted_transactions s))).

Record TransactionStatuses := mkTransactionStatuses {
  succeeded : gset Signature;
  errored : gmap Signature string;
  not_found : gset Signature
}.

Definition is_finalized (status : TransactionStatus) : bool :=
  match ts_confirmation_status status with Some Finalized => true | _ => false end.

(** The body of the loops of [check_transaction_statuses]. *)
Definition classify_status (statuses : TransactionStatuses) (entry : Signature * option TransactionStatus) : TransactionStatuses :=
  let '(signature, status) := entry in
  match status with
  | Some status =>
      if is_finalized status then
        match ts_err status with
        | Some err => mkTransactionStatuses (succeeded statuses) (<[signature := err]> (errored statuses)) (not_found statuses)
        | None => mkTransactionStatuses ({[signature]} ∪ succeeded statuses) (errored statuses) (not_found statuses)
        end
      else statuses
  | None => mkTransactionStatuses (succeeded statuses) (errored statuses) ({[signature]} ∪ not_found statuses)
  end.

Abbreviation StatusResponse := (result (list (option TransactionStatus)) GetSignatureStatusesError) (only parsing).

(** The batches of signatures that are requested. *)
Definition status_batches (signatures : list Signature) : list (list Signature) :=
  take MAX_CONCURRENT_RPC_CALLS (chunks MAX_SIGNATURES_PER_STATUS_CHECK signatures).

Definition batch_statuses (batch : list Signature) (response : StatusResponse) : list (Signature * option TransactionStatus) :=
  match response with Ok statuses => zip batch statuses | Err _ => [] end.

Definition check_transaction_statuses (signatures : list Signature) (responses : list StatusResponse) : TransactionStatuses :=
  fold_left classify_status (concat (zip_with batch_statuses (status_batches signatures) responses))
    (mkTransactionStatuses ∅ ∅ ∅).

Definition is_blockhash_expired (transaction_block_height current_block_height : BlockHeight) : bool :=
  MAX_BLOCKHASH_AGE_IN_BLOCKS <? saturating_sub current_block_height transaction_block_height.

Section Monitor.
Context `{Platform}.

Definition record_failed (now : Timestamp) (c : Config) (signature : Signature) : outcome Config :=
  process_event c.1 c.2 (FailedTransaction signature) now.

Definition record_succeeded (now : Timestamp) (c : Config) (signature : Signature) : outcome Config :=
  process_event c.1 c.2 (SucceededTransaction signature) now.

Definition expire_transaction (transactions : gmap Signature BlockHeight) (current_block_height : BlockHeight) (now : Timestamp)
    (c : Config) (signature : Signature) : outcome Config :=
  match transactions !! signature with
  | None => Done c
  | Some transaction_block_height =>
      if is_blockhash_expired transaction_block_height current_block_height
      then process_event c.1 c.2 (ExpiredTransaction signature) now
      else Done c
  end.

Definition expire_transactions (c : Config) (not_found : gset Signature) (transactions : gmap Signature BlockHeight)
    (current_block_height : BlockHeight) (now : Timestamp) : outcome Config :=
  foreach (expire_transaction transactions current_block_height now) c (bset_iter not_found).

(** [check_sweep_transactions] once the current height and the statuses
    arrived; [transactions] was read before. *)
Definition check_sweep_transactions (c : Config) (transactions : gmap Signature BlockHeight)
    (current_block_height : option BlockHeight) (statuses : TransactionStatuses) (now : Timestamp) : outcome (Config * bool) :=
  c ← foreach (record_failed now) c (btree_keys (errored statuses));
  c ← foreach (record_succeeded now) c (bset_iter (succeeded statuses));
  c ← match current_block_height with
      | Some current_block_height => expire_transactions c (not_found statuses) transactions current_block_height now
      | None => Done c
      end;
  Done (c, (MAX_CONCURRENT_RPC_CALLS * MAX_SIGNATURES_PER_STATUS_CHECK <? size transactions)%nat).
End Monitor.

(** ** Withdrawals *)
Record InFlightWithdrawal := mkInFlightWithdrawal {
  iw_signature : Signature;
  iw_message : Message;
  iw_nonce_account : Address;
  iw_nonce_value : Hash;
  iw_submitted_at : Timestamp
}.

Definition signed_transaction (w : InFlightWithdrawal) : Transaction := mkTransaction [iw_signature w] (iw_message w).

Definition carries_message_of (w : InFlightWithdrawal) (transaction : VersionedTransaction) : bool :=
  match vt_message transaction with
  | ExecutedLegacy message => bool_decide (message = iw_message w)
  | ExecutedV0 => false
  end.

Definition is_old_enough_to_rebroadcast (w : InFlightWithdrawal) (now : Timestamp) : bool :=
  MIN_REBROADCAST_AGE <=? saturating_sub now (iw_submitted_at w).

Definition in_flight_withdrawals (s : State) : list InFlightWithdrawal :=
  omap (fun p => match p.2 with
    | TxWithdrawal (Legacy message) nonce_account nonce_value submitted_at =>
        Some (mkInFlightWithdrawal p.1 message nonce_account nonce_value submitted_at)
    | TxSweepDeposit _ => None
    end) (iom_iter (submitted_transactions s)).

Record InFlightNonces := mkInFlightNonces {
  unchanged : list InFlightWithdrawal;
  advanced : list InFlightWithdrawal;
  undecided : gmap UndecidedWithdrawalReason Z
}.

Definition leave_undecided (nonces : InFlightNonces) (reason : UndecidedWithdrawalReason) : InFlightNonces :=
  mkInFlightNonces (unchanged nonces) (advanced nonces) (count_one reason (undecided nonces)).

(** [read_nonce] once the nonce account was read. *)
Definition read_nonce (s : State) (w : InFlightWithdrawal) (read : result Hash ReadNonceError) : option NonceRead :=
  match read with
  | Ok read_nonce_value => Some (np_classify_read (nonce_pool s) (iw_nonce_account w) (iw_nonce_value w) read_nonce_value)
  | Err _ => None
  end.

Definition add_nonce_read (nonces : InFlightNonces) (entry : InFlightWithdrawal * option NonceRead) : InFlightNonces :=
  let '(withdrawal, nonce_read) := entry in
  match nonce_read with
  | Some Unchanged => mkInFlightNonces (unchanged nonces ++ [withdrawal]) (advanced nonces) (undecided nonces)
  | Some Advanced => mkInFlightNonces (unchanged nonces) (advanced nonces ++ [withdrawal]) (undecided nonces)
  | Some Stale => leave_undecided nonces StaleNonce
  | None => leave_undecided nonces NonceReadFailed
  end.

(** The reads of all batches, in order; each was classified in the state
    ([s]) in which it arrived. *)
Definition read_in_flight_nonces (reads : list (State * InFlightWithdrawal * result Hash ReadNonceError)) : InFlightNonces :=
  fold_left add_nonce_read (map (fun '(s, w, read) => (w, read_nonce s w read)) reads) (mkInFlightNonces [] [] ∅).

(** The withdrawals [resubmit_transactions_batch] re-broadcasts, and the count
    [rebroadcast] adds for each. *)
Definition to_rebroadcast (nonces : InFlightNonces) (now : Timestamp) : list InFlightWithdrawal :=
  filter (fun w => is_old_enough_to_rebroadcast w now = true) (unchanged nonces).

Definition rebroadcast (m : Metrics) (w : InFlightWithdrawal) : Metrics * Transaction :=
  (m <| withdrawal_transaction_rebroadcasts := withdrawal_transaction_rebroadcasts m +w 1 |>, signed_transaction w).

Inductive Finalization : Type := WithdrawalFinalized | UnresolvedWithdrawal.

#[export] Instance Finalization_eq_dec : EqDecision Finalization.
Proof. solve_decision. Defined.

Section Finalize.
Context `{Platform}.

(** [finalize_landed_withdrawal] once the transaction was fetched. *)
Definition finalize_landed_withdrawal (c : Config) (w : InFlightWithdrawal)
    (fetched : result (option FetchedTransaction) GetTransactionError) (now : Timestamp) : outcome (Config * Finalization) :=
  match fetched with
  | Ok (Some (mkFetched transaction meta)) =>
      if negb (carries_message_of w transaction) then Done (c, UnresolvedWithdrawal)
      else match meta with
      | Some meta =>
          let event := match meta_err meta with
            | None => SucceededTransaction (iw_signature w)
            | Some _ => FailedTransaction (iw_signature w)
            end in
          c ← process_event c.1 c.2 event now;
          Done (c, WithdrawalFinalized)
      | None => Done (c, UnresolvedWithdrawal)
      end
  | Ok None | Err _ => Done (c, UnresolvedWithdrawal)
  end.

(** The metrics at the end of [finalize_transactions_batch]. *)
Definition record_undecided (nonces : InFlightNonces) (finalizations : list Finalization) (m : Metrics) : Metrics :=
  set_undecided_withdrawal_transactions
    (<[UnresolvedOutcome := Z.of_nat (length (filter (fun f => f = UnresolvedWithdrawal) finalizations))]> (undecided nonces)) m.
End Finalize.

(** ** Lemmas: the statuses of the sweeps *)
Lemma iom_iter_get (m : InsertionOrderedMap Signature MinterTransaction) k v : (k, v) ∈ iom_iter m -> iom_get m k = Some v.
Proof.
  unfold iom_iter, iom_get. generalize (btree_values (iom_order m)) as order. induction order as [|k0 order IH]; cbn.
  - by intros ?%not_elem_of_nil.
  - destruct (iom_entries m !! k0) as [[q v0]|] eqn:Hk; [|by intros ?%not_elem_of_nil].
    intros [[= -> ->]|?]%elem_of_cons; [by rewrite Hk | auto].
Qed.

Lemma blockhash_transactions_submitted s sig h :
  blockhash_transactions s !! sig = Some h -> iom_get (submitted_transactions s) sig = Some (TxSweepDeposit h).
Proof.
  intros Hl%collect_map_lookup. apply list_elem_of_omap in Hl as ([sig' tx] & Hin & Hm). cbn in Hm.
  destruct tx; [|done]. injection Hm as -> ->. by apply iom_iter_get.
Qed.

(** What the fetched status of a transaction says. *)
Inductive StatusKind : Type := SaysSucceeded | SaysErrored | SaysNotFound | SaysInFlight.

Definition status_kind (o : option TransactionStatus) : StatusKind :=
  match o with
  | None => SaysNotFound
  | Some status =>
      if is_finalized status then match ts_err status with Some _ => SaysErrored | None => SaysSucceeded end
      else SaysInFlight
  end.

Definition says (kind : StatusKind) (entries : list (Signature * option TransactionStatus)) (sig : Signature) : Prop :=
  exists o, (sig, o) ∈ entries /\ status_kind o = kind.

Lemma says_cons kind sig' o entries sig :
  says kind ((sig', o) :: entries) sig <-> (sig = sig' /\ status_kind o = kind) \/ says kind entries sig.
Proof.
  unfold says. setoid_rewrite elem_of_cons. split.
  - intros (o' & [[= -> ->]|Hin] & Hk); eauto.
  - intros [[-> Hk]|(o' & Hin & Hk)]; eauto.
Qed.

Lemma classify_statuses entries sig : forall acc,
  let r := fold_left classify_status entries acc in
  (sig ∈ succeeded r <-> sig ∈ succeeded acc \/ says SaysSucceeded entries sig) /\
  (is_Some (errored r !! sig) <-> is_Some (errored acc !! sig) \/ says SaysErrored entries sig) /\
  (sig ∈ not_found r <-> sig ∈ not_found acc \/ says SaysNotFound entries sig).
Proof.
  induction entries as [|[sig' o] entries IH]; intros acc; cbn [fold_left].
  - assert (forall k, ~ says k [] sig) as Hno by (by intros k (o & ?%not_elem_of_nil & _)).
    pose proof (Hno SaysSucceeded). pose proof (Hno SaysErrored). pose proof (Hno SaysNotFound). cbv zeta. tauto.
  - cbv zeta. destruct (IH (classify_status acc (sig', o))) as (H1 & H2 & H3). rewrite H1, H2, H3. clear IH H1 H2 H3.
    rewrite !says_cons. unfold classify_status, status_kind.
    destruct o as [status|]; [destruct (is_finalized status); [destruct (ts_err status) as [err|]|]|]; cbn [succeeded errored not_found];
      rewrite ?elem_of_union, ?elem_of_singleton, ?lookup_insert_is_Some'; intuition congruence.
Qed.

Lemma batch_statuses_fst bs : forall rs, (concat (zip_with batch_statuses bs rs)).*1 `sublist_of` concat bs.
Proof.
  induction bs as [|b bs IH]; intros [|r rs]; cbn; try apply sublist_nil_l. rewrite fmap_app. apply sublist_app; [|apply IH].
  destruct r as [l|]; cbn; [|apply sublist_nil_l]. clear IH. revert l.
  induction b as [|x b IH]; intros [|y l]; cbn; try apply sublist_nil_l. apply sublist_skip, IH.
Qed.

Lemma concat_take_sublist {A} n (l : list (list A)) : concat (take n l) `sublist_of` concat l.
Proof. rewrite <- (take_drop n l) at 2. rewrite concat_app. apply sublist_inserts_r. done. Qed.

(** Every requested signature is one of the transactions, and is asked once. *)
Lemma status_entries_keys sigs rs :
  (concat (zip_with batch_statuses (status_batches sigs) rs)).*1 `sublist_of` sigs.
Proof.
  etrans; [apply batch_statuses_fst|]. unfold status_batches. etrans; [apply concat_take_sublist|].
  rewrite chunks_concat; [done | vm_compute; lia].
Qed.

(** ** Lemmas: finalizing sweeps *)
Inductive Fate : Type := FateFailed | FateSucceeded | FateExpired.

Definition fate_event (item : Signature * Fate) : EventType :=
  match item.2 with
  | FateFailed => FailedTransaction item.1
  | FateSucceeded => SucceededTransaction item.1
  | FateExpired => ExpiredTransaction item.1
  end.

Definition fate_op (item : Signature * Fate) : DepositOp :=
  match item.2 with FateSucceeded => OpFinalizeSwept item.1 | FateFailed | FateExpired => OpDropSwept item.1 end.

(** The stage of the deposits of a swept sweep after its fate is recorded. *)
Definition fate_stage (item : Signature * Fate) (st : Stage) : Stage :=
  match item.2 with
  | FateSucceeded => to_finalized item.1 0 st
  | FateFailed | FateExpired => to_dropped item.1 0 st
  end.

Lemma fate_op_stage L item i dep st : L !! i = Some (dep, st) -> lifecycle_op L (fate_op item) !! i = Some (dep, fate_stage item st).
Proof. intros HL. destruct item as [sig []]; cbn [fate_op lifecycle_op]; apply relabel_Some; by exists st. Qed.

Section Fates.
Context `{Platform}.

Lemma fate_event_ok s L acc sig h fate now :
  min_inv s L acc -> next_id (deposits s) < u64_max -> iom_get (submitted_transactions s) sig = Some (TxSweepDeposit h) ->
  exists s', apply_state_transition s (fate_event (sig, fate)) now = Done s' /\
    (forall sig', sig' <> sig -> iom_get (submitted_transactions s') sig' = iom_get (submitted_transactions s) sig') /\
    (forall i dep st, holds (deposits s) i dep st -> holds (deposits s') i dep (fate_stage (sig, fate) st)).
Proof.
  intros HI Hn Hsub. pose proof (mi_deposits _ _ _ HI) as HD.
  assert (forall d, deposit_op (deposits s) (fate_op (sig, fate)) = Done d ->
    forall i dep st, holds (deposits s) i dep st -> holds d i dep (fate_stage (sig, fate) st)) as Hstage.
  { intros d Hd i dep st Hh. apply (im_holds _ _ (deposit_op_implements _ _ _ _ HD Hn Hd)), fate_op_stage. by apply (im_holds _ _ HD). }
  assert (forall sig' : Signature, sig' <> sig -> iom_get (iom_remove (submitted_transactions s) sig).1 sig' = iom_get (submitted_transactions s) sig') as Hrem.
  { intros sig' Hne. rewrite iom_remove_get. by case_decide. }
  destruct (submitted_finalizes _ _ _ _ _ HI Hsub) as ([s1 H1] & [s2 H2] & [s3 H3]). destruct fate.
  - exists s2. pose proof H2 as (tx & d & pool & _ & Htx & _ & Hd & ->)%process_failed_Done.
    rewrite Hsub in Htx. injection Htx as <-. destruct Hd as [Hd _]. split_and!; [exact H2 | exact Hrem | by apply Hstage].
  - exists s1. pose proof H1 as (tx & d & pool & _ & Htx & _ & Hd & ->)%process_succeeded_Done.
    rewrite Hsub in Htx. injection Htx as <-. destruct Hd as [Hd _]. split_and!; [exact H1 | exact Hrem | by apply Hstage].
  - exists s3. pose proof H3 as (h' & d & _ & _ & _ & Hd & ->)%process_expired_Done.
    split_and!; [exact H3 | exact Hrem | by apply Hstage].
Qed.

Definition record_fate (now : Timestamp) (c : Config) (item : Signature * Fate) : outcome Config :=
  process_event c.1 c.2 (fate_event item) now.

Lemma fate_loop_ok now items : forall s log,
  minter_run (s, log) -> sized log -> Z.of_nat (length log) + Z.of_nat (length items) <= u64_max ->
  NoDup (map fst items) ->
  (forall sig fate, (sig, fate) ∈ items -> exists h, iom_get (submitted_transactions s) sig = Some (TxSweepDeposit h)) ->
  exists s' log', foreach (record_fate now) (s, log) items = Done (s', log') /\
    (forall sig, sig ∉ map fst items -> iom_get (submitted_transactions s') sig = iom_get (submitted_transactions s) sig) /\
    forall i dep st, holds (deposits s) i dep st ->
      holds (deposits s') i dep (fold_left (fun st item => fate_stage item st) items st).
Proof.
  induction items as [|[sig fate] items IH]; intros s log Hrun Hsz Hlen Hnd Hsub; cbn [foreach].
  - exists s, log. done.
  - cbn [map fst] in Hnd. apply NoDup_cons in Hnd as [Hx Hnd]. cbn [length] in Hlen.
    destruct (Hsub sig fate (list_elem_of_here _ _)) as [h Hh].
    destruct (minter_run_inv _ Hrun Hsz) as (L & HI & Hn & _). cbn [fst snd] in HI, Hn.
    destruct (fate_event_ok s L _ sig h fate now HI ltac:(lia) Hh) as (s1 & Hs1 & Hother & Hst).
    assert (record_fate now (s, log) (sig, fate) = Done (s1, record_event log (fate_event (sig, fate)) now)) as ->.
    { unfold record_fate, process_event. cbn [fst snd]. by rewrite Hs1. }
    cbn [mbind outcome_bind].
    destruct (IH s1 (record_event log (fate_event (sig, fate)) now)) as (s' & log' & Hl & Hsub' & Hh').
    + by eapply event_run.
    + apply sized_no_accept; [done | by destruct fate | lia].
    + unfold record_event. rewrite length_app. cbn. lia.
    + done.
    + intros sig' fate' Hin. rewrite Hother; [apply (Hsub sig' fate'); by right|].
      intros ->. apply Hx. apply list_elem_of_fmap. by exists (sig, fate').
    + exists s', log'. split_and!; [exact Hl | |].
      * intros sig' Hnin. cbn [map fst] in Hnin. apply not_elem_of_cons in Hnin as [Hne Hnin]. rewrite Hsub' by done. by apply Hother.
      * intros i dep st Hi. cbn [fold_left]. by apply Hh', Hst.
Qed.

Definition expires (transactions : gmap Signature BlockHeight) (height : BlockHeight) (sig : Signature) : bool :=
  match transactions !! sig with Some tx_height => is_blockhash_expired tx_height height | None => false end.

(** The fates of a round, in the order the code records them. *)
Definition round_fates (transactions : gmap Signature BlockHeight) (current_block_height : option BlockHeight)
    (statuses : TransactionStatuses) : list (Signature * Fate) :=
  map (fun sig => (sig, FateFailed)) (btree_keys (errored statuses)) ++
  map (fun sig => (sig, FateSucceeded)) (bset_iter (succeeded statuses)) ++
  match current_block_height with
  | None => []
  | Some height =>
      map (fun sig => (sig, FateExpired)) (filter (fun sig => expires transactions height sig = true) (bset_iter (not_found statuses)))
  end.

Lemma foreach_map {S A B} (f : S -> B -> outcome S) (g : A -> B) l : forall s,
  foreach f s (map g l) = foreach (fun s x => f s (g x)) s l.
Proof. induction l as [|x l IH]; intros s; cbn; [done|]. destruct (f s (g x)); cbn; [apply IH | done]. Qed.

Lemma expire_loop transactions height now l : forall c,
  foreach (expire_transaction transactions height now) c l =
  foreach (record_fate now) c (map (fun sig => (sig, FateExpired)) (filter (fun sig => expires transactions height sig = true) l)).
Proof.
  induction l as [|sig l IH]; intros c; [done|]. cbn [foreach filter list_filter].
  assert (expire_transaction transactions height now c sig =
    if expires transactions height sig then record_fate now c (sig, FateExpired) else Done c) as ->.
  { unfold expire_transaction, expires. by destruct (transactions !! sig). }
  destruct (expires transactions height sig); [rewrite decide_True by done | rewrite decide_False by done; apply IH].
  cbn [map foreach]. destruct (record_fate now c (sig, FateExpired)); cbn [mbind outcome_bind]; [apply IH | done].
Qed.

Lemma check_sweep_fates c transactions height statuses now :
  check_sweep_transactions c transactions height statuses now =
  (c ← foreach (record_fate now) c (round_fates transactions height statuses);
   Done (c, (MAX_CONCURRENT_RPC_CALLS * MAX_SIGNATURES_PER_STATUS_CHECK <? size transactions)%nat)).
Proof.
  unfold check_sweep_transactions, round_fates. rewrite !foreach_app, !foreach_map.
  change (foreach (fun s x => record_fate now s (x, FateFailed))) with (foreach (record_failed now)).
  destruct (foreach (record_failed now) c _) as [c1|]; [|done]. cbn [mbind outcome_bind]. rewrite foreach_app, foreach_map.
  change (foreach (fun s x => record_fate now s (x, FateSucceeded))) with (foreach (record_succeeded now)).
  destruct (foreach (record_succeeded now) c1 _) as [c2|]; [|done]. cbn [mbind outcome_bind].
  destruct height as [height|]; [|done]. unfold expire_transactions. by rewrite expire_loop.
Qed.

(** Only the finalization timer finalizes transactions, and its guard excludes a second one. *)
Definition finalizes_transaction (ev : EventType) : Prop :=
  match ev with SucceededTransaction _ | FailedTransaction _ | ExpiredTransaction _ => True | _ => False end.

Definition finalizes_signature (sig : Signature) (ev : EventType) : Prop :=
  ev = SucceededTransaction sig \/ ev = FailedTransaction sig \/ ev = ExpiredTransaction sig.

Lemma submitted_kept_event s ev t s' sig tx :
  ~ finalizes_signature sig ev -> apply_state_transition s ev t = Done s' ->
  iom_get (submitted_transactions s) sig = Some tx -> iom_get (submitted_transactions s') sig = Some tx.
Proof.
  unfold finalizes_signature. intros Hno Hs Hsub.
  assert (forall sig', sig' <> sig -> iom_get (iom_remove (submitted_transactions s) sig').1 sig = Some tx) as Hrem.
  { intros sig' Hne. rewrite iom_remove_get. by case_decide. }
  destruct ev; cbn [apply_state_transition] in Hs.
  - done.
  - destruct (upgrade s args) as [s1|] eqn:Hu; [|done]. apply Done_inv in Hs. subst s1.
    by apply upgrade_Ok in Hu as (pool & _ & -> & _).
  - by apply process_accepted_Done in Hs as [_ ->].
  - destruct message as [m]. destruct purpose as [ids h|ixs].
    + apply process_submitted_sweep_Done in Hs as (key & d & r & _ & _ & Hn & _ & _ & ->). read_upd.
      rewrite iom_insert_get. case_decide; [congruence | done].
    + apply process_submitted_withdrawal_Done in Hs as (s1 & tx' & _ & _ & Hn & Hsend & ->). read_upd.
      rewrite iom_insert_get. case_decide; [congruence | done].
  - apply process_succeeded_Done in Hs as (tx' & d & pool & _ & _ & _ & _ & ->). apply Hrem. intros ->. tauto.
  - apply process_failed_Done in Hs as (tx' & d & pool & _ & _ & _ & _ & ->). apply Hrem. intros ->. tauto.
  - apply process_expired_Done in Hs as (h & d & _ & _ & _ & _ & ->). apply Hrem. intros ->. tauto.
  - by apply deposit_update_Done in Hs as (d & _ & ->).
  - by apply process_credited_Done in Hs as (d & sw & _ & _ & _ & ->).
  - by apply deposit_update_Done in Hs as (d & _ & ->).
  - by apply cache_key_Done in Hs as [[_ ->]|[_ ->]].
  - by apply deposit_update_Done in Hs as (d & _ & ->).
  - by apply deposit_update_Done in Hs as (d & _ & ->).
  - by apply process_created_Done in Hs as (pool & p & c & tot & _ & _ & _ & _ & ->).
Qed.

Lemma calm_submitted forbidden c c' sig tx :
  (forall ev, finalizes_signature sig ev -> forbidden ev) -> rtc (calm_step forbidden) c c' -> iom_get (submitted_transactions c.1) sig = Some tx ->
  iom_get (submitted_transactions c'.1) sig = Some tx.
Proof.
  intros Hforb. induction 1 as [c | c c1 c' Hq Hrtc IH]; intros Hsub; [done|]. apply IH.
  destruct Hq as [s log ev now s' log' Hno Hev | s log s' He Hwf]; cbn [fst] in *.
  - apply bind_Done in Hev as (s1 & Hs1 & Hl). apply Done_inv in Hl. injection Hl as <- _.
    eapply submitted_kept_event; [|done..]. intros Hf. by apply Hno, Hforb.
  - apply erase_eq_inv in He as (_ & -> & _). done.
Qed.
End Fates.

Lemma NoDup_bset_iter (X : gset Z) : NoDup (bset_iter X).
Proof. unfold bset_iter. rewrite sort_by_perm. apply NoDup_elements. Qed.

Section Round.
Context (s : State) (responses : list StatusResponse) (height : option BlockHeight).

Abbreviation transactions := (blockhash_transactions s).
Definition round_entries : list (Signature * option TransactionStatus) :=
  concat (zip_with batch_statuses (status_batches (btree_keys transactions)) responses).
Abbreviation statuses := (check_transaction_statuses (btree_keys transactions) responses).
Abbreviation fates := (round_fates transactions height statuses).

Lemma round_entries_NoDup : NoDup round_entries.*1.
Proof. eapply sublist_NoDup; [|apply status_entries_keys]. apply NoDup_btree_keys. Qed.

Lemma says_known kind sig : says kind round_entries sig -> is_Some (transactions !! sig).
Proof.
  intros (o & Hin & _). apply elem_of_btree_keys. eapply elem_of_submseteq; [|apply sublist_submseteq, (status_entries_keys _ responses)].
  apply list_elem_of_fmap. exists (sig, o). split; [done | exact Hin].
Qed.

Lemma says_unique k1 k2 sig : says k1 round_entries sig -> says k2 round_entries sig -> k1 = k2.
Proof.
  intros (o1 & H1 & <-) (o2 & H2 & <-).
  apply (elem_of_list_to_map (M := gmap Z) round_entries sig o1 round_entries_NoDup) in H1.
  apply (elem_of_list_to_map (M := gmap Z) round_entries sig o2 round_entries_NoDup) in H2. congruence.
Qed.

Definition says_fate (sig : Signature) (fate : Fate) : Prop :=
  match fate with
  | FateFailed => says SaysErrored round_entries sig
  | FateSucceeded => says SaysSucceeded round_entries sig
  | FateExpired => says SaysNotFound round_entries sig /\ exists current, height = Some current /\ expires transactions current sig = true
  end.

Lemma elem_of_fates sig fate : (sig, fate) ∈ fates <-> says_fate sig fate.
Proof.
  destruct (classify_statuses round_entries sig (mkTransactionStatuses ∅ ∅ ∅)) as (H1 & H2 & H3).
  cbn [succeeded errored not_found] in H1, H2, H3. rewrite !elem_of_empty, lookup_empty in *. fold statuses in H1, H2, H3.
  assert (forall (f f' : Fate) l, (sig, f') ∈ map (fun sig => (sig, f)) l <-> f' = f /\ sig ∈ l) as Hmap.
  { intros f f' l. rewrite list_elem_of_fmap. split; [intros (x & [= -> ->] & ?); done | intros [-> ?]; by exists sig]. }
  assert (~ is_Some (@None string)) as Hnone by (by intros [? ?]).
  unfold round_fates. rewrite !elem_of_app, !Hmap, elem_of_btree_keys, elem_of_bset_iter.
  change (fold_left classify_status round_entries _) with statuses in *.
  rewrite H1, H2. destruct height as [current|] eqn:Hh.
  - rewrite Hmap, list_elem_of_filter, elem_of_bset_iter, H3.
    assert ((exists c, height = Some c /\ expires transactions c sig = true) <-> expires transactions current sig = true) as Hx.
    { rewrite Hh. split; [by intros (c & [= <-] & ?) | eauto]. }
    destruct fate; cbn [says_fate]; rewrite ?Hx; intuition congruence.
  - rewrite elem_of_nil.
    assert ((exists c, height = Some c /\ expires transactions c sig = true) <-> False) as Hx by (rewrite Hh; by split; [intros (c & ? & _)|]).
    destruct fate; cbn [says_fate]; rewrite ?Hx; intuition congruence.
Qed.

Lemma fates_NoDup : NoDup (map fst fates).
Proof.
  apply NoDup_fmap_fst.
  - intros sig f f' Hf%elem_of_fates Hf'%elem_of_fates. unfold says_fate in *.
    destruct f, f'; try done; exfalso; destruct_and?;
      match goal with H1 : says ?k1 _ _, H2 : says ?k2 _ _ |- _ =>
        assert (k1 <> k2) as Hne by done; apply Hne; by apply (says_unique k1 k2 sig) end.
  - assert (forall (f : Fate) l, NoDup l -> NoDup (map (fun sig : Signature => (sig, f)) l)) as Hmap.
    { intros f l. apply NoDup_fmap_2. by intros ? ? [= ->]. }
    assert (forall (f : Fate) l x, x ∈ map (fun sig : Signature => (sig, f)) l -> x.2 = f) as Hsnd.
    { intros f l x (sig & -> & _)%list_elem_of_fmap. done. }
    unfold round_fates. apply NoDup_app. split_and!; [apply Hmap, NoDup_btree_keys | |].
    + intros x Hx%Hsnd [Hx'%Hsnd|Hx']%elem_of_app; [congruence|]. destruct height; [apply Hsnd in Hx'; congruence | by apply not_elem_of_nil in Hx'].
    + apply NoDup_app. split_and!; [apply Hmap, NoDup_bset_iter | |].
      * intros x Hx%Hsnd Hx'. destruct height; [apply Hsnd in Hx'; congruence | by apply not_elem_of_nil in Hx'].
      * destruct height; [apply Hmap, NoDup_filter, NoDup_bset_iter | constructor].
Qed.
End Round.

Lemma fate_stage_other item st : st <> StSwept item.1 -> fate_stage item st = st.
Proof. intros Hne. destruct item as [sig []], st; cbn in *; try done; destruct (Z.eqb_spec signature sig); congruence. Qed.

Lemma fate_stage_leaves item sig : fate_stage item (StSwept item.1) = StSwept sig -> sig = item.1.
Proof. destruct item as [sig' []]; cbn; by rewrite Z.eqb_refl. Qed.

(** The stage the round gives the deposits of a swept sweep. *)
Lemma round_stage s responses height sig :
  exists st, fold_left (fun st item => fate_stage item st) (round_fates (blockhash_transactions s) height
      (check_transaction_statuses (btree_keys (blockhash_transactions s)) responses)) (StSwept sig) = st /\
    ((exists fate, says_fate s responses height sig fate /\ st = fate_stage (sig, fate) (StSwept sig)) \/
     ((forall fate, ~ says_fate s responses height sig fate) /\ st = StSwept sig)).
Proof.
  set (fates := round_fates _ _ _). eexists. split; [reflexivity|].
  destruct (decide (sig ∈ map fst fates)) as [Hin|Hnin].
  - left. apply list_elem_of_fmap in Hin as ([sig' fate] & -> & Hin). exists fate. split; [by apply elem_of_fates|].
    apply list_elem_of_lookup in Hin as [k Hk].
    apply (fold_move_item fst fate_stage StSwept) with (k := k) (e := (sig', fate)); [by intros ? ? [= ->] | apply fate_stage_other | apply fate_stage_leaves | apply fates_NoDup | done].
  - right. split.
    + intros fate Hf%elem_of_fates. apply Hnin. apply list_elem_of_fmap. by exists (sig, fate).
    + apply (fold_move_other fst fate_stage StSwept fate_stage_other). intros [sig' fate] Hin [= ->]. apply Hnin.
      apply list_elem_of_fmap. by exists (sig', fate).
Qed.

Lemma fates_length s responses height :
  (length (round_fates (blockhash_transactions s) height
    (check_transaction_statuses (btree_keys (blockhash_transactions s)) responses)) <= size (blockhash_transactions s))%nat.
Proof.
  rewrite <- (length_fmap fst), <- btree_iter_length, <- (length_fmap fst (btree_iter _)).
  apply submseteq_length, NoDup_submseteq; [apply fates_NoDup|]. intros sig ([sig' fate] & -> & Hin%elem_of_fates)%list_elem_of_fmap.
  change (sig' ∈ btree_keys (blockhash_transactions s)). apply elem_of_btree_keys.
  destruct fate; [| |destruct Hin as [Hin _]]; by eapply says_known.
Qed.

(** ** Properties *)

(** C20: a round of the finalization timer never traps on the sweeps, whatever
    the minter did while their statuses were fetched, and decides each of them
    by its status: the deposits of a sweep become finalized exactly when it is
    reported finalized without an error, dropped exactly when it is reported
    finalized with an error, or not found while the finalized chain is more
    than 150 blocks past its blockhash; otherwise they stay swept. *)
Theorem sweep_fates_decided `{!Platform} s log c responses height now :
  minter_run (s, log) -> rtc (calm_step finalizes_transaction) (s, log) c -> sized c.2 ->
  Z.of_nat (length c.2) + Z.of_nat (size (blockhash_transactions s)) <= u64_max ->
  exists c' more, check_sweep_transactions c (blockhash_transactions s) height
      (check_transaction_statuses (btree_keys (blockhash_transactions s)) responses) now = Done (c', more) /\
    forall sig tx_height i dep, blockhash_transactions s !! sig = Some tx_height -> holds (deposits c.1) i dep (StSwept sig) ->
      exists st, holds (deposits c'.1) i dep st /\
        (st = StFinalized sig \/ st = StDropped sig \/ st = StSwept sig) /\
        (st = StFinalized sig <-> says SaysSucceeded (round_entries s responses) sig) /\
        (st = StDropped sig <-> says SaysErrored (round_entries s responses) sig \/
          (says SaysNotFound (round_entries s responses) sig /\
           exists current, height = Some current /\ MAX_BLOCKHASH_AGE_IN_BLOCKS < current - tx_height)).
Proof.
  intros Hrun Hcalm Hsz Hlen. pose proof (calm_run _ _ _ Hcalm Hrun) as Hrunc. rewrite check_sweep_fates. destruct c as [sc logc].
  cbn [fst snd] in *. pose proof (fates_length s responses height) as Hfl.
  destruct (fate_loop_ok now (round_fates (blockhash_transactions s) height
    (check_transaction_statuses (btree_keys (blockhash_transactions s)) responses)) sc logc) as (s' & log' & Hl & _ & Hh).
  - done.
  - done.
  - lia.
  - apply fates_NoDup.
  - intros sig fate Hf%elem_of_fates. assert (is_Some (blockhash_transactions s !! sig)) as [h Hh].
    { destruct fate; [| |destruct Hf as [Hf _]]; by eapply says_known. }
    exists h. apply (calm_submitted finalizes_transaction (s, log) (sc, logc)); [by intros ev [->|[->| ->]] | done |].
    by apply blockhash_transactions_submitted.
  - rewrite Hl. cbn [mbind outcome_bind]. do 2 eexists. split; [reflexivity|]. intros sig h i dep Htx Hi. apply Hh in Hi.
    destruct (round_stage s responses height sig) as (st & Hst & Hcase). rewrite Hst in Hi. exists st. split; [exact Hi|].
    assert ((exists current, height = Some current /\ MAX_BLOCKHASH_AGE_IN_BLOCKS < current - h) <->
      exists current, height = Some current /\ expires (blockhash_transactions s) current sig = true) as Hexp.
    { apply exist_proper. intros current. unfold expires. rewrite Htx. unfold is_blockhash_expired, saturating_sub.
      rewrite Z.ltb_lt. unfold MAX_BLOCKHASH_AGE_IN_BLOCKS. split; intros [? ?]; (split; [done | lia]). }
    rewrite Hexp. clear Hexp Hh Hi Hst. destruct Hcase as [(fate & Hf & ->)|[Hno ->]].
    + assert (forall k, says k (round_entries s responses) sig -> k = match fate with FateFailed => SaysErrored | FateSucceeded => SaysSucceeded | FateExpired => SaysNotFound end) as Hu.
      { intros k Hk. destruct fate; [| |destruct Hf as [Hf _]]; by eapply says_unique. }
      pose proof (Hu SaysSucceeded) as Hu1. pose proof (Hu SaysErrored) as Hu2. pose proof (Hu SaysNotFound) as Hu3. clear Hu.
      destruct fate; cbn [fate_stage fst snd to_dropped to_finalized] in *; rewrite Z.eqb_refl; cbn [says_fate] in Hf; intuition congruence.
    + pose proof (Hno FateSucceeded) as N1. pose proof (Hno FateFailed) as N2. pose proof (Hno FateExpired) as N3. cbn [says_fate] in *.
      intuition congruence.
Qed.

Lemma sweep_fates_decided_witness :
  exists c' more, check_sweep_transactions (example_state_at 6, example_take 6) (blockhash_transactions (example_state_at 6)) (Some 1151)
      (check_transaction_statuses (btree_keys (blockhash_transactions (example_state_at 6))) [Ok [None]]) 40 = Done (c', more) /\
    exists st, holds (deposits c'.1) 0 (default (example_deposit 0 0 0 None) (sw_deposits example_plan !! 0)) st /\ st = StDropped 900.
Proof.
  destruct (sweep_fates_decided (example_state_at 6) (example_take 6) (example_state_at 6, example_take 6) [Ok [None]] (Some 1151) 40)
    as (c' & more & Hc & Hst).
  - apply replay_run. vm_compute. reflexivity.
  - apply rtc_refl.
  - split; [vm_compute; discriminate|]. apply (bool_decide_unpack _). vm_compute. exact I.
  - vm_compute. discriminate.
  - exists c', more. split; [exact Hc|].
    destruct (Hst 900 1000 0 (default (example_deposit 0 0 0 None) (sw_deposits example_plan !! 0))) as (st & Hh & _ & _ & Hd).
    + vm_compute. reflexivity.
    + exists example_plan. split; vm_compute; reflexivity.
    + exists st. split; [exact Hh|]. apply Hd. right. split; [exists None; split; [vm_compute; left | reflexivity]|].
      exists 1151. split; [reflexivity | vm_compute; reflexivity].
Defined.

(** ** Withdrawals *)
Lemma fold_nonce_reads entries w : forall acc,
  let r := fold_left add_nonce_read entries acc in
  (w ∈ unchanged r <-> w ∈ unchanged acc \/ (w, Some Unchanged) ∈ entries) /\
  (w ∈ advanced r <-> w ∈ advanced acc \/ (w, Some Advanced) ∈ entries).
Proof.
  induction entries as [|[w' o] entries IH]; intros acc; cbv zeta; cbn [fold_left].
  - rewrite !elem_of_nil. tauto.
  - destruct (IH (add_nonce_read acc (w', o))) as [-> ->]. rewrite !elem_of_cons. unfold add_nonce_read.
    destruct o as [[]|]; cbn; rewrite ?elem_of_app, ?list_elem_of_singleton; intuition congruence.
Qed.

(** Which withdrawals are re-broadcast and which are looked up. *)
Lemma nonces_classified reads w :
  (w ∈ unchanged (read_in_flight_nonces reads) <-> exists s value, (s, w, Ok value) ∈ reads /\ value = iw_nonce_value w) /\
  (w ∈ advanced (read_in_flight_nonces reads) <-> exists s value, (s, w, Ok value) ∈ reads /\
     value <> iw_nonce_value w /\ np_has_seen (nonce_pool s) (iw_nonce_account w) value = false).
Proof.
  unfold read_in_flight_nonces. destruct (fold_nonce_reads (map (fun '(s, w, read) => (w, read_nonce s w read)) reads) w (mkInFlightNonces [] [] ∅)) as [-> ->].
  cbn [unchanged advanced]. rewrite !elem_of_nil.
  assert (forall o, (w, Some o) ∈ map (fun '(s, w, read) => (w, read_nonce s w read)) reads <->
    exists s value, (s, w, Ok value) ∈ reads /\ np_classify_read (nonce_pool s) (iw_nonce_account w) (iw_nonce_value w) value = o) as Hmap.
  { intros o. rewrite list_elem_of_fmap. split.
    - intros ([[s w'] [value|e]] & Heq & Hin); cbn in Heq; [|done]. injection Heq as -> ->. eauto.
    - intros (s & value & Hin & <-). by exists (s, w, Ok value). }
  rewrite !Hmap. unfold np_classify_read. split; (split; [intros [[]|(s & value & Hin & Hc)]|]).
  - exists s, value. destruct (Z.eqb_spec value (iw_nonce_value w)); [done|]. by destruct (np_has_seen _ _ _).
  - intros (s & value & Hin & ->). right. exists s, (iw_nonce_value w). by rewrite Z.eqb_refl.
  - exists s, value. destruct (Z.eqb_spec value (iw_nonce_value w)); [done|]. by destruct (np_has_seen _ _ _).
  - intros (s & value & Hin & Hne & Hseen). right. exists s, value. split; [done|].
    destruct (Z.eqb_spec value (iw_nonce_value w)); [done|]. by rewrite Hseen.
Qed.

Lemma in_flight_withdrawal_submitted s w : w ∈ in_flight_withdrawals s ->
  iom_get (submitted_transactions s) (iw_signature w) =
    Some (TxWithdrawal (Legacy (iw_message w)) (iw_nonce_account w) (iw_nonce_value w) (iw_submitted_at w)).
Proof.
  intros ([sig tx] & Hin & Hm)%list_elem_of_omap. apply iom_iter_get in Hin. cbn in Hm.
  destruct tx as [|[m] a v t]; [done|]. by injection Hm as <-.
Qed.

(** The outcome a fetched transaction decides. *)
Definition landed_outcome (w : InFlightWithdrawal) (fetched : result (option FetchedTransaction) GetTransactionError)
    : option (option string) :=
  match fetched with
  | Ok (Some (mkFetched transaction (Some meta))) => if carries_message_of w transaction then Some (meta_err meta) else None
  | _ => None
  end.

Definition landed_event (w : InFlightWithdrawal) (err : option string) : EventType :=
  match err with None => SucceededTransaction (iw_signature w) | Some _ => FailedTransaction (iw_signature w) end.

Lemma finalize_landed_decides `{Platform} c w fetched now :
  finalize_landed_withdrawal c w fetched now =
  match landed_outcome w fetched with
  | Some err => c ← process_event c.1 c.2 (landed_event w err) now; Done (c, WithdrawalFinalized)
  | None => Done (c, UnresolvedWithdrawal)
  end.
Proof.
  unfold finalize_landed_withdrawal, landed_outcome. destruct fetched as [[[tx [meta|]]|]|]; try done.
  - by destruct (carries_message_of w tx), (meta_err meta).
  - by destruct (carries_message_of w tx).
Qed.

Lemma sent_finalized_status sig (st su : gmap LedgerBurnIndex SentWithdrawalRequest) b r :
  st !! b = Some r -> sent_signature r = sig -> not_sent_with sig st !! b = None /\ (sent_with sig st ∪ su) !! b = Some r.
Proof.
  intros Hb Hsig. unfold not_sent_with, sent_with. split.
  - apply map_lookup_filter_None. right. intros r' Hr' Hne. rewrite Hb in Hr'. injection Hr' as <-. by apply Hne.
  - apply lookup_union_Some_raw. left. by apply map_lookup_filter_Some.
Qed.

Definition landed_status (w : InFlightWithdrawal) (err : option string) : WithdrawSolStatus :=
  match err with None => WithdrawalTxSuccess (iw_signature w) | Some _ => WithdrawalTxFailure (iw_signature w) end.

(** Finalizing a landed withdrawal frees its nonce account and finalizes its requests. *)
Lemma landed_event_ok `{Platform} s L acc w err now :
  min_inv s L acc ->
  iom_get (submitted_transactions s) (iw_signature w) =
    Some (TxWithdrawal (Legacy (iw_message w)) (iw_nonce_account w) (iw_nonce_value w) (iw_submitted_at w)) ->
  exists s', apply_state_transition s (landed_event w err) now = Done s' /\
    iom_get (submitted_transactions s') (iw_signature w) = None /\
    na_state <$> np_accounts (nonce_pool s') !! iw_nonce_account w = Some Free /\
    forall b r, sent_withdrawal_requests s !! b = Some r -> sent_signature r = iw_signature w ->
      withdrawal_status s' b = landed_status w err.
Proof.
  intros HI Hsub. destruct (submitted_finalizes _ _ _ _ _ HI Hsub) as ([s1 H1] & [s2 H2] & _).
  assert (forall pool, np_free (nonce_pool s) (iw_nonce_account w) = Done pool ->
    na_state <$> np_accounts pool !! iw_nonce_account w = Some Free) as Hfree.
  { intros pool (nacc & _ & _ & ->)%np_free_Done. cbn. by rewrite lookup_insert_eq. }
  assert (iom_get (iom_remove (submitted_transactions s) (iw_signature w)).1 (iw_signature w) = None) as Hrem.
  { rewrite iom_remove_get. by case_decide. }
  destruct err as [e|]; cbn [landed_event landed_status].
  - exists s2. pose proof H2 as (tx & d & pool & _ & Htx & _ & Hp & ->)%process_failed_Done.
    rewrite Hsub in Htx. injection Htx as <-. destruct Hp as [Hp _]. split_and!; [exact H2 | exact Hrem | by apply Hfree |].
    intros b r Hb Hr. rewrite withdrawal_status_at. read_upd.
    destruct (buckets_disjoint _ _ _ _ _ _ b (mi_buckets _ _ _ HI)) as [Hd _]. destruct (Hd ltac:(eauto)) as (-> & _ & -> & ->).
    destruct (sent_finalized_status _ _ (failed_withdrawal_requests s) _ _ Hb Hr) as [-> ->]. cbn. by rewrite Hr.
  - exists s1. pose proof H1 as (tx & d & pool & _ & Htx & _ & Hp & ->)%process_succeeded_Done.
    rewrite Hsub in Htx. injection Htx as <-. destruct Hp as [Hp _]. split_and!; [exact H1 | exact Hrem | by apply Hfree |].
    intros b r Hb Hr. rewrite withdrawal_status_at. read_upd.
    destruct (buckets_disjoint _ _ _ _ _ _ b (mi_buckets _ _ _ HI)) as [Hd _]. destruct (Hd ltac:(eauto)) as (_ & _ & -> & ->).
    destruct (sent_finalized_status _ _ (successful_withdrawal_requests s) _ _ Hb Hr) as [-> ->]. cbn. by rewrite Hr.
Qed.

Definition sent_state : State := example_state_at 13.
Definition sent_log : list Event := example_take 13.
Definition sent_withdrawal : InFlightWithdrawal := mkInFlightWithdrawal 901 example_withdrawal_message nonce1 321 2.
Definition sent_reads : list (State * InFlightWithdrawal * result Hash ReadNonceError) := [(sent_state, sent_withdrawal, Ok 322)].
Definition fetched_withdrawal : result (option FetchedTransaction) GetTransactionError :=
  Ok (Some (mkFetched (mkVersionedTransaction [901] (ExecutedLegacy example_withdrawal_message)) (Some (mkMeta None 5000 [] [])))).

(** C21: the timer looks up only withdrawals whose nonce account was read with
    a value that was never bound to it. Handling one never traps, whatever the
    minter did meanwhile other than finalizing it: when the fetched transaction
    carries the submitted message and a status, the withdrawal is finalized by
    that status (all its requests become successful, or failed, and its nonce
    account is free again); in every other case nothing changes and the
    withdrawal is looked up again later. *)
Theorem landed_withdrawal_is_finalized `{!Platform} s log reads w c fetched now :
  minter_run (s, log) -> (forall s' w' read, (s', w', read) ∈ reads -> w' ∈ in_flight_withdrawals s) ->
  w ∈ advanced (read_in_flight_nonces reads) ->
  rtc (calm_step (finalizes_signature (iw_signature w))) (s, log) c -> sized c.2 ->
  (exists s' value, (s', w, Ok value) ∈ reads /\ value <> iw_nonce_value w /\
     np_has_seen (nonce_pool s') (iw_nonce_account w) value = false) /\
  match landed_outcome w fetched with
  | None => finalize_landed_withdrawal c w fetched now = Done (c, UnresolvedWithdrawal)
  | Some err => exists c', finalize_landed_withdrawal c w fetched now = Done (c', WithdrawalFinalized) /\
      iom_get (submitted_transactions c'.1) (iw_signature w) = None /\
      na_state <$> np_accounts (nonce_pool c'.1) !! iw_nonce_account w = Some Free /\
      forall b r, sent_withdrawal_requests c.1 !! b = Some r -> sent_signature r = iw_signature w ->
        withdrawal_status c'.1 b = landed_status w err
  end.
Proof.
  intros Hrun Hreads Hadv Hcalm Hsz. pose proof (proj1 (proj2 (nonces_classified reads w)) Hadv) as (s0 & value & Hin & Hval).
  split; [by exists s0, value|]. pose proof (in_flight_withdrawal_submitted s w (Hreads _ _ _ Hin)) as Hsub.
  pose proof (calm_submitted _ _ _ _ _ (fun ev Hf => Hf) Hcalm Hsub) as Hsubc.
  destruct (minter_run_inv _ (calm_run _ _ _ Hcalm Hrun) Hsz) as (L & HI & _). rewrite finalize_landed_decides.
  destruct (landed_outcome w fetched) as [err|]; [|done].
  destruct (landed_event_ok c.1 L _ w err now HI Hsubc) as (s' & Hs' & H1 & H2 & H3).
  unfold process_event. rewrite Hs'. cbn [mbind outcome_bind]. eexists. split; [reflexivity|]. by split_and!.
Qed.

Lemma landed_withdrawal_is_finalized_witness :
  exists c', finalize_landed_withdrawal (sent_state, sent_log) sent_withdrawal fetched_withdrawal 50 = Done (c', WithdrawalFinalized) /\
    withdrawal_status c'.1 10 = WithdrawalTxSuccess 901.
Proof.
  assert (landed_outcome sent_withdrawal fetched_withdrawal = Some None) as Hlo by (vm_compute; reflexivity).
  assert (sized sent_log) as Hsz by (split; [vm_compute; discriminate|]; apply (bool_decide_unpack _); vm_compute; exact I).
  assert (forall s' w' read, (s', w', read) ∈ sent_reads -> w' ∈ in_flight_withdrawals sent_state) as Hreads.
  { intros s' w' read Hin. apply list_elem_of_singleton in Hin.
    assert (w' = sent_withdrawal) as -> by exact (f_equal (fun p => p.1.2) Hin). vm_compute. left. }
  assert (sent_withdrawal ∈ advanced (read_in_flight_nonces sent_reads)) as Hadv by (vm_compute; left).
  assert (minter_run (sent_state, sent_log)) as Hrun by (apply replay_run; vm_compute; reflexivity).
  pose proof (landed_withdrawal_is_finalized sent_state sent_log sent_reads sent_withdrawal
    (sent_state, sent_log) fetched_withdrawal 50 Hrun Hreads Hadv (rtc_refl _ _) Hsz) as [_ Hout].
  rewrite Hlo in Hout. destruct Hout as (c' & Hc & _ & _ & Hst).
  exists c'. split; [exact Hc|].
  refine (Hst 10 (default (mkSentWithdrawal (example_request 0 0) 0 0) (sent_withdrawal_requests sent_state !! 10)) _ _);
    vm_compute; reflexivity.
Defined.
