(* ===== verification/Async.v ===== *)
(** Asynchronous code of the minter: the [async] functions that run on timers,
    as programs of a small monad. A program alternates atomic parts on the
    canister's world with awaited calls; [join] are the futures of a
    [futures::future::join_all]. One message of the canister delivers the
    answer of one call and runs the program up to its next awaits; a trap rolls
    the world back and drops the future, which runs its scope guards. *)
From S2P Require Import Prelude Platform InsertionOrderedMap Events Sweeps Deposits SolTransfer MinterState Replay Invariants Safety Interleaving Guards Rpc Metrics Mint.

Abbreviation Config := (State * list Event)%type (only parsing).

(** ** Timers *)

(** What a timer runs: the fetch of the public key, which takes no guard, or a task. *)
Inductive Job : Type := FetchPublicKey | RunTask (task : TaskType).

#[export] Instance Job_eq_dec : EqDecision Job.
Proof. solve_decision. Defined.

Definition job_owner (job : Job) : Owner :=
  match job with FetchPublicKey => OwnerKeyFetch | RunTask task => OwnerTask task end.

(** A timer registered with [ic_cdk_timers]: it is due at a time, and again
    after every interval if it has one. *)
Record Timer := mkTimer { tm_due : Timestamp; tm_interval : option Z; tm_job : Job }.

(** The heap of the canister: state, log and metrics, and the registered timers. *)
Record World := mkWorld { w_tracked : Tracked; w_timers : list Timer }.

Definition w_config (w : World) : Config := (w_tracked w).1.
Definition w_state (w : World) : State := (w_config w).1.
Definition with_config (w : World) (c : Config) : World := mkWorld (c, (w_tracked w).2) (w_timers w).
Definition with_state (w : World) (s : State) : World := with_config w (s, (w_config w).2).

(** [CanisterRuntime::set_timer] and [ic_cdk_timers::set_timer_interval]. *)
Definition set_timer (delay : Z) (job : Job) (w : World) (now : Timestamp) : World :=
  mkWorld (w_tracked w) (w_timers w ++ [mkTimer (now + delay) None job]).
Definition set_timer_interval (interval : Z) (job : Job) (w : World) (now : Timestamp) : World :=
  mkWorld (w_tracked w) (w_timers w ++ [mkTimer (now + interval) (Some interval) job]).

(** ** Calls to other canisters *)
Inductive CommitmentLevel : Type := CommitmentProcessed | CommitmentConfirmed | CommitmentFinalized.
Inductive Preflight : Type := Simulate (commitment : CommitmentLevel) | Skip.

Section Calls.
Context `{SolanaDecoders}.

(** One request may stand for several calls: [GetRecentBlock] for the tries of
    the client of the SOL RPC canister, one after the other, and
    [SignWithSchnorr] for the joined calls that sign one transaction, one per
    derivation path. [Concurrency] counts them as such. *)
Inductive Request : Type :=
  | GetRecentBlock (commitment : CommitmentLevel)
  | GetSignatureStatuses (signatures : list Signature)
  | GetAccountInfo (account : Address)
  | GetTransaction (signature : Signature)
  | SendTransaction (transaction : Transaction) (preflight : Preflight)
  | SignWithSchnorr (message : Message) (derivation_paths : list DerivationPath)
  | LedgerTransfer (arg : TransferArg)
  | FetchSchnorrPublicKey (key_name : Ed25519KeyName).

Definition Answer (r : Request) : Type :=
  match r with
  | GetRecentBlock _ => result (Z * string * option BlockHeight) (list string)
  | GetSignatureStatuses _ => result unit RpcError * Response (list (option TransactionStatus))
  | GetAccountInfo _ => Response (option UiAccount)
  | GetTransaction _ => Response (option (EncodedTransaction * option TransactionMeta))
  | SendTransaction _ _ => Response Signature
  | SignWithSchnorr _ _ => Message -> DerivationPath -> result bytes string
  | LedgerTransfer _ => TransferResponse
  | FetchSchnorrPublicKey _ => result (bytes * bytes) IcError
  end.

(** ** Programs *)

(** A scope guard: what dropping it does. *)
Definition ScopeGuard : Type := World -> Timestamp -> outcome World.
Definition no_guard : ScopeGuard := fun w _ => Done w.
Definition also_drop (g h : ScopeGuard) : ScopeGuard := fun w now => w ← g w now; h w now.

(** Sequential code; [Await] carries the scope guards alive at the call. *)
Inductive Async (B : Type) : Type :=
  | Return (b : B)
  | Act {X : Type} (f : World -> Timestamp -> outcome (World * X)) (k : X -> Async B)
  | Await (r : Request) (guards : ScopeGuard) (k : Answer r -> Async B).

(** A whole function: stages of sequential code or of joined futures, with
    the scope guards of the function alive during the stage. *)
Inductive Task (A : Type) : Type :=
  | TReturn (a : A)
  | TSeq {B : Type} (guards : ScopeGuard) (x : Async B) (k : B -> Task A)
  | TJoin {B : Type} (guards : ScopeGuard) (xs : list (Async B)) (k : list B -> Task A).
End Calls.

Arguments Return {_ B} _.
Arguments Act {_ B X} _ _.
Arguments Await {_ B} _ _ _.
Arguments TReturn {_ A} _.
Arguments TSeq {_ A B} _ _ _.
Arguments TJoin {_ A B} _ _ _.

Section Programs.
Context `{SolanaDecoders}.

#[export] Instance async_ret : MRet Async := fun A => Return.
#[export] Instance async_bind : MBind Async := fun A B f =>
  fix bind x :=
    match x with
    | Return a => f a
    | Act g k => Act g (fun y => bind (k y))
    | Await r guards k => Await r guards (fun y => bind (k y))
    end.

#[export] Instance task_ret : MRet Task := fun A => TReturn.
#[export] Instance task_bind : MBind Task := fun A B f =>
  fix bind t :=
    match t with
    | TReturn a => f a
    | TSeq guards x k => TSeq guards x (fun y => bind (k y))
    | TJoin guards xs k => TJoin guards xs (fun y => bind (k y))
    end.

(** Reading the state, the time of the message, code that may panic, and
    changes of the state and the log, with the metrics or without. *)
Definition read {X} (f : State -> X) : Async X := Act (fun w _ => Done (w, f (w_state w))) Return.
Definition time : Async Timestamp := Act (fun w now => Done (w, now)) Return.
Definition lift {X} (o : outcome X) : Async X := Act (fun w _ => x ← o; Done (w, x)) Return.
Definition update {X} (f : Config -> Timestamp -> outcome (Config * X)) : Async X :=
  Act (fun w now => '(c, x) ← f (w_config w) now; Done (with_config w c, x)) Return.
Definition update_tracked {X} (f : Tracked -> Timestamp -> outcome (Tracked * X)) : Async X :=
  Act (fun w now => '(c, x) ← f (w_tracked w) now; Done (mkWorld c (w_timers w), x)) Return.
Definition schedule (delay : Z) (job : Job) : Async unit := Act (fun w now => Done (set_timer delay job w now, tt)) Return.
Definition await (r : Request) : Async (Answer r) := Await r no_guard Return.
Definition await_guarded (guards : ScopeGuard) (r : Request) : Async (Answer r) := Await r guards Return.

(** [for item in items { body(item).await }] *)
Fixpoint for_each {X} (body : X -> Async unit) (items : list X) : Async unit :=
  match items with [] => Return tt | item :: items => _ ← body item; for_each body items end.

Definition seq {A} (x : Async A) : Task A := TSeq no_guard x TReturn.
Definition join_all {A} (xs : list (Async A)) : Task (list A) := TJoin no_guard xs TReturn.

(** A loop over batches that accumulates a value. *)
Fixpoint for_fold {S X} (body : S -> X -> Task S) (acc : S) (items : list X) : Task S :=
  match items with [] => TReturn acc | item :: items => acc ← body acc item; for_fold body acc items end.

(** [let guard = scopeguard::guard(..)]: the rest of the function runs with
    the guard alive; its result says whether it defused the guard. *)
Fixpoint scoped (guard : ScopeGuard) (t : Task bool) : Task unit :=
  match t with
  | TReturn true => TReturn tt
  | TReturn false => TSeq no_guard (Act (fun w now => w ← guard w now; Done (w, tt)) Return) TReturn
  | TSeq guards x k => TSeq (also_drop guards guard) x (fun y => scoped guard (k y))
  | TJoin guards xs k => TJoin (also_drop guards guard) xs (fun y => scoped guard (k y))
  end.

(** ** Execution *)

(** Up to the next await. *)
Fixpoint run_async {B} (x : Async B) (w : World) (now : Timestamp) : outcome (World * Async B) :=
  match x with
  | Return b => Done (w, Return b)
  | Act f k => '(w, y) ← f w now; run_async (k y) w now
  | Await r guards k => Done (w, Await r guards k)
  end.

Fixpoint run_all {B} (xs : list (Async B)) (w : World) (now : Timestamp) : outcome (World * list (Async B)) :=
  match xs with
  | [] => Done (w, [])
  | x :: xs =>
      '(w, x) ← run_async x w now;
      '(w, xs) ← run_all xs w now;
      Done (w, x :: xs)
  end.

Definition returned {B} (x : Async B) : option B := match x with Return b => Some b | _ => None end.

Fixpoint run_task {A} (t : Task A) (w : World) (now : Timestamp) : outcome (World * Task A) :=
  match t with
  | TReturn a => Done (w, TReturn a)
  | TSeq guards x k =>
      '(w, x) ← run_async x w now;
      match returned x with
      | Some b => run_task (k b) w now
      | None => Done (w, TSeq guards x k)
      end
  | TJoin guards xs k =>
      '(w, xs) ← run_all xs w now;
      match mapM returned xs with
      | Some bs => run_task (k bs) w now
      | None => Done (w, TJoin guards xs k)
      end
  end.

(** The answer of the call of the [i]-th future of the current stage. *)
Definition deliver_async {B} (answers : forall r, Answer r) (x : Async B) : option (Async B) :=
  match x with Await r _ k => Some (k (answers r)) | _ => None end.

Definition deliver {A} (answers : forall r, Answer r) (i : nat) (t : Task A) : option (Task A) :=
  match t with
  | TReturn _ => None
  | TSeq guards x k => x ← deliver_async answers x; Some (TSeq guards x k)
  | TJoin guards xs k => x ← xs !! i; x ← deliver_async answers x; Some (TJoin guards (<[i := x]> xs) k)
  end.

(** Dropping a future that was not completed. *)
Definition drop_async {B} (w : World) (now : Timestamp) (x : Async B) : outcome World :=
  match x with Await _ guards _ => guards w now | _ => Done w end.

Definition drop_task {A} (t : Task A) : ScopeGuard := fun w now =>
  match t with
  | TReturn _ => Done w
  | TSeq guards x _ => w ← drop_async w now x; guards w now
  | TJoin guards xs _ => w ← foreach (fun w x => drop_async w now x) w xs; guards w now
  end.
End Programs.

(** ** Programs that record only some events

    Every atomic part of a good program, and every scope guard it drops,
    records events that satisfy [P] and registers timers, and changes nothing
    else of the state; if [total], dropping its scope guards never panics. *)
Section Good.
Context `{Platform} `{SolanaDecoders} (P : EventType -> Prop) (total : bool).

Definition grows (w w' : World) : Prop :=
  rtc (records P) (w_config w) (w_config w') /\ exists l, w_timers w' = w_timers w ++ l.

#[export] Instance grows_preorder : PreOrder grows.
Proof.
  split.
  - intros w. split; [done|]. exists []. by rewrite app_nil_r.
  - intros w1 w2 w3 [H1 [l1 E1]] [H2 [l2 E2]]. split; [by etransitivity|]. exists (l1 ++ l2). by rewrite E2, E1, app_assoc.
Qed.

Record guard_good (g : ScopeGuard) : Prop := {
  gg_grows : forall w now w', g w now = Done w' -> grows w w';
  gg_total : total = true -> forall w now, exists w', g w now = Done w'
}.

Fixpoint async_good {B} (x : Async B) : Prop :=
  match x with
  | Return _ => True
  | Act f k => forall w now w' y, f w now = Done (w', y) -> grows w w' /\ async_good (k y)
  | Await _ guards k => guard_good guards /\ forall y, async_good (k y)
  end.

Fixpoint task_good {A} (t : Task A) : Prop :=
  match t with
  | TReturn _ => True
  | TSeq guards x k => guard_good guards /\ async_good x /\ forall y, task_good (k y)
  | TJoin guards xs k => guard_good guards /\ Forall async_good xs /\ forall y, task_good (k y)
  end.

(** *** The combinators *)
Lemma grows_config w c : rtc (records P) (w_config w) c -> grows w (with_config w c).
Proof. intros Hr. split; [done|]. exists []. by rewrite app_nil_r. Qed.

Lemma no_guard_good : guard_good no_guard.
Proof. split; [|by eauto]. intros w now w' [= <-]. reflexivity. Qed.

Lemma also_drop_good g h : guard_good g -> guard_good h -> guard_good (also_drop g h).
Proof.
  intros [Hg Hg'] [Hh Hh']. split.
  - intros w now w' (w1 & H1 & H2)%bind_Done. etransitivity; [by eapply Hg | by eapply Hh].
  - intros Ht w now. destruct (Hg' Ht w now) as [w1 H1]. destruct (Hh' Ht w1 now) as [w2 H2]. exists w2. unfold also_drop. by rewrite H1.
Qed.

Lemma set_timer_good delay job : guard_good (fun w now => Done (set_timer delay job w now)).
Proof. split; [|by eauto]. intros w now w' [= <-]. split; [done|]. by eexists. Qed.

Lemma async_bind_good {A B} (x : Async A) (f : A -> Async B) :
  async_good x -> (forall a, async_good (f a)) -> async_good (x ≫= f).
Proof.
  intros Hx Hf. induction x as [a | X g k IH | r guards k IH]; cbn in *; [done | | destruct Hx; auto].
  intros w now w' y [Hw Hk]%Hx. auto.
Qed.

(** A result that is known. *)
Lemma lift_bind_good {A B} (r : outcome A) (f : A -> Async B) :
  (forall a, r = Done a -> async_good (f a)) -> async_good (lift r ≫= f).
Proof. intros Hf w now w' y (a & Ha & [= <- ->]%Done_inv)%bind_Done. split; [reflexivity | by apply Hf]. Qed.

Lemma task_bind_good {A B} (t : Task A) (f : A -> Task B) :
  task_good t -> (forall a, task_good (f a)) -> task_good (t ≫= f).
Proof. intros Ht Hf. induction t as [a | X g x k IH | X g xs k IH]; cbn in *; [done | |]; destruct Ht as (? & ? & ?); auto. Qed.

Lemma return_good {A} (a : A) : async_good (Return a).
Proof. done. Qed.

Lemma read_good {X} (f : State -> X) : async_good (read f).
Proof. intros w now w' x [= <- _]%Done_inv. by split. Qed.

Lemma time_good : async_good time.
Proof. intros w now w' x [= <- _]%Done_inv. by split. Qed.

Lemma lift_good {X} (r : outcome X) : async_good (lift r).
Proof. intros w now w' x (y & _ & [= <- _]%Done_inv)%bind_Done. by split. Qed.

Lemma update_good {X} (f : Config -> Timestamp -> outcome (Config * X)) :
  (forall c now c' x, f c now = Done (c', x) -> rtc (records P) c c') -> async_good (update f).
Proof.
  intros Hf w now w' x ([c y] & Hc & [= <- _]%Done_inv)%bind_Done. split; [|done]. by eapply grows_config, Hf.
Qed.

Lemma update_tracked_good {X} (f : Tracked -> Timestamp -> outcome (Tracked * X)) :
  (forall c now c' x, f c now = Done (c', x) -> rtc (records P) c.1 c'.1) -> async_good (update_tracked f).
Proof.
  intros Hf w now w' x ([c y] & Hc & [= <- _]%Done_inv)%bind_Done. split; [|done].
  split; [by eapply Hf|]. exists []. by rewrite app_nil_r.
Qed.

Lemma schedule_good delay job : async_good (schedule delay job).
Proof. intros w now w' x [= <- _]%Done_inv. split; [by eapply (gg_grows _ (set_timer_good delay job)) | done]. Qed.

Lemma await_guarded_good guards r : guard_good guards -> async_good (await_guarded guards r).
Proof. done. Qed.

Lemma await_good r : async_good (await r).
Proof. by apply await_guarded_good, no_guard_good. Qed.

Lemma for_each_good {X} (body : X -> Async unit) items : (forall x, async_good (body x)) -> async_good (for_each body items).
Proof. intros Hb. induction items as [|x items IH]; [done|]. cbn [for_each]. by apply async_bind_good. Qed.

Lemma treturn_good {A} (a : A) : task_good (TReturn a).
Proof. done. Qed.

Lemma seq_good {A} (x : Async A) : async_good x -> task_good (seq x).
Proof. intros Hx. split_and!; [apply no_guard_good | done | done]. Qed.

Lemma join_all_good {A X} (f : X -> Async A) items : (forall x, async_good (f x)) -> task_good (join_all (map f items)).
Proof. intros Hf. split_and!; [apply no_guard_good | | done]. apply Forall_forall. by intros y (x & -> & _)%list_elem_of_fmap. Qed.

Lemma for_fold_good {S X} (body : S -> X -> Task S) items : forall acc,
  (forall acc x, task_good (body acc x)) -> task_good (for_fold body acc items).
Proof.
  induction items as [|x items IH]; intros acc Hb; [done|]. cbn [for_fold]. apply task_bind_good; [done|]. intros a. by apply IH.
Qed.

Lemma scoped_good guard t : guard_good guard -> task_good t -> task_good (scoped guard t).
Proof.
  intros Hg Ht. induction t as [[] | X g x k IH | X g xs k IH]; cbn in *.
  - done.
  - split_and!; [apply no_guard_good | | done]. intros w now w' x (w1 & H1 & [= <- _]%Done_inv)%bind_Done. split; [by eapply (gg_grows _ Hg) | done].
  - destruct Ht as (? & ? & ?). split_and!; [by apply also_drop_good | done | auto].
  - destruct Ht as (? & ? & ?). split_and!; [by apply also_drop_good | done | auto].
Qed.

(** *** Running *)
Lemma run_async_good {B} (x : Async B) : forall w now w' x',
  async_good x -> run_async x w now = Done (w', x') -> grows w w' /\ async_good x'.
Proof.
  induction x as [b | X f k IH | r guards k IH]; intros w now w' x' Hg Hr; cbn in Hr, Hg.
  - apply Done_inv in Hr. injection Hr as <- <-. done.
  - apply bind_Done in Hr as ([w1 y] & H1 & Hr). apply Hg in H1 as [Hw1 Hk]. apply IH in Hr as [Hw Hx]; [|done].
    split; [by etransitivity | done].
  - apply Done_inv in Hr. injection Hr as <- <-. done.
Qed.

Lemma run_all_good {B} (xs : list (Async B)) : forall w now w' xs',
  Forall async_good xs -> run_all xs w now = Done (w', xs') -> grows w w' /\ Forall async_good xs'.
Proof.
  induction xs as [|x xs IH]; intros w now w' xs' Hg Hr; cbn in Hr; [apply Done_inv in Hr; by injection Hr as <- <-|].
  apply Forall_cons in Hg as [Hx Hxs]. apply bind_Done in Hr as ([w1 x1] & H1 & Hr). apply bind_Done in Hr as ([w2 xs2] & H2 & Hr).
  apply Done_inv in Hr. injection Hr as <- <-. apply run_async_good in H1 as [Hw1 Hx1]; [|done]. apply IH in H2 as [Hw2 Hxs2]; [|done].
  split; [by etransitivity | by constructor].
Qed.

Lemma run_task_good {A} (t : Task A) : forall w now w' t',
  task_good t -> run_task t w now = Done (w', t') -> grows w w' /\ task_good t'.
Proof.
  induction t as [a | B guards x k IH | B guards xs k IH]; intros w now w' t' Hg Hr; cbn in Hr.
  - apply Done_inv in Hr. by injection Hr as <- <-.
  - destruct Hg as (Hgd & Hx & Hk). apply bind_Done in Hr as ([w1 x1] & H1 & Hr). apply run_async_good in H1 as [Hw1 Hx1]; [|done].
    destruct (returned x1).
    + apply IH in Hr as [? ?]; [|done]. split; [by etransitivity | done].
    + apply Done_inv in Hr. by injection Hr as <- <-.
  - destruct Hg as (Hgd & Hx & Hk). apply bind_Done in Hr as ([w1 x1] & H1 & Hr). apply run_all_good in H1 as [Hw1 Hx1]; [|done].
    destruct (mapM returned x1).
    + apply IH in Hr as [? ?]; [|done]. split; [by etransitivity | done].
    + apply Done_inv in Hr. by injection Hr as <- <-.
Qed.

Lemma deliver_async_good {B} answers (x x' : Async B) : async_good x -> deliver_async answers x = Some x' -> async_good x'.
Proof. destruct x; cbn; try done. intros [_ Hk] [= <-]. apply Hk. Qed.

Lemma deliver_good {A} answers i (t t' : Task A) : task_good t -> deliver answers i t = Some t' -> task_good t'.
Proof.
  destruct t as [a | B guards x k | B guards xs k]; cbn [deliver task_good]; [done| |].
  - intros (? & Hx & ?) (x' & Hx' & [= <-])%bind_Some. by apply deliver_async_good in Hx'.
  - intros (? & Hx & ?) (x & Hi & (x' & Hx' & [= <-])%bind_Some)%bind_Some. split_and!; [done | | done].
    apply Forall_insert; [done|]. eapply deliver_async_good; [|exact Hx']. by eapply Forall_lookup_1.
Qed.

Lemma drop_async_good {B} w now (x : Async B) w' : async_good x -> drop_async w now x = Done w' -> grows w w'.
Proof. destruct x; cbn; [by intros _ [= <-] | by intros _ [= <-] |]. intros [Hg _] Hd. by eapply (gg_grows _ Hg). Qed.

Lemma drop_async_total {B} w now (x : Async B) : total = true -> async_good x -> exists w', drop_async w now x = Done w'.
Proof. intros Ht. destruct x; cbn; [by eauto | by eauto |]. intros [Hg _]. by apply (gg_total _ Hg). Qed.

Lemma drop_all_good {B} now (xs : list (Async B)) : forall w w',
  Forall async_good xs -> foreach (fun w x => drop_async w now x) w xs = Done w' -> grows w w'.
Proof.
  induction xs as [|x xs IH]; intros w w' Hx Hd; cbn in Hd; [by injection Hd as <-|].
  apply Forall_cons in Hx as [Hx Hxs]. apply bind_Done in Hd as (w2 & H2 & Hd). etransitivity; [by eapply drop_async_good | by apply IH].
Qed.

Lemma drop_all_total {B} now (xs : list (Async B)) : forall w,
  total = true -> Forall async_good xs -> exists w', foreach (fun w x => drop_async w now x) w xs = Done w'.
Proof.
  induction xs as [|x xs IH]; intros w Ht Hx; cbn; [by eauto|]. apply Forall_cons in Hx as [Hx Hxs].
  destruct (drop_async_total w now x Ht Hx) as [w1 ->]. by apply IH.
Qed.

Lemma drop_task_good {A} (t : Task A) : task_good t -> guard_good (drop_task t).
Proof.
  intros Ht. destruct t as [a | B guards x k | B guards xs k].
  - apply no_guard_good.
  - destruct Ht as (Hg & Hx & _). apply (also_drop_good (fun w now => drop_async w now x)); [|done].
    split; [intros w now w' Hd; by eapply drop_async_good | intros; by apply drop_async_total].
  - destruct Ht as (Hg & Hx & _). apply (also_drop_good (fun w now => foreach (fun w x => drop_async w now x) w xs)); [|done].
    split; [intros w now w' Hd; by eapply drop_all_good | intros; by apply drop_all_total].
Qed.
End Good.

Create HintDb async discriminated.
#[export] Hint Resolve no_guard_good set_timer_good return_good read_good time_good lift_good schedule_good await_good
  await_guarded_good treturn_good seq_good join_all_good for_fold_good for_each_good scoped_good async_bind_good
  task_bind_good : async.
