(* ===== verification/Tasks.v ===== *)
(** The asynchronous functions that run on timers, whole: each is composed of
    the parts modelled in the files of the components, with its awaits, its
    joined futures, its loops, its scope guards and the timers it registers.
    Their [TimerGuard] is taken and released by the file [System]. *)
From S2P Require Import Prelude Platform ConcretePlatform InsertionOrderedMap NoncePool Events Sweeps Deposits SolTransfer MinterState Replay Invariants Safety Interleaving Guards Rpc Withdraw Memo Metrics Mint DepositSol SweepTasks Monitor Async.

(** Durations in nanoseconds. *)
Definition NANOS_PER_SECOND : Z := 1000000000.
Definition WITHDRAWAL_PROCESSING_DELAY : Z := 60 * NANOS_PER_SECOND.
Definition WITHDRAWAL_PROCESSING_RETRY_DELAY : Z := 10 * NANOS_PER_SECOND.
Definition SWEEP_DEPOSITS_DELAY : Z := 60 * NANOS_PER_SECOND.
Definition PROCESS_PENDING_MINTS_DELAY : Z := 60 * NANOS_PER_SECOND.
Definition FINALIZE_TRANSACTIONS_DELAY : Z := 120 * NANOS_PER_SECOND.
Definition FINALIZE_TRANSACTIONS_RETRY_DELAY : Z := 10 * NANOS_PER_SECOND.
Definition MINTER_PUBLIC_KEY_RETRY_DELAY : Z := 5 * NANOS_PER_SECOND.

Section Tasks.
Context `{Platform} `{SolanaDecoders}.

(** ** Sending and fetching transactions *)
Definition submit_transaction (transaction : Transaction) (preflight_commitment : CommitmentLevel)
    : Async (result Signature SubmitTransactionError) :=
  response ← await (SendTransaction transaction (Simulate preflight_commitment)); mret (rpc_send_transaction response).

Definition submit_transaction_skipping_preflight (transaction : Transaction) : Async (result Signature SubmitTransactionError) :=
  response ← await (SendTransaction transaction Skip); mret (rpc_send_transaction response).

Definition get_recent_block_future (commitment : CommitmentLevel) : Async (result Block GetRecentBlockError) :=
  response ← await (GetRecentBlock commitment); mret (get_recent_block response).

Definition get_transaction_future (signature : Signature) : Async FetchedOutcome :=
  response ← await (GetTransaction signature); mret (get_transaction signature response).

Definition read_verified_nonce_future (nonce_account minter_address : Address) : Async (result Hash ReadNonceError) :=
  response ← await (GetAccountInfo nonce_account); mret (read_verified_nonce minter_address response).

(** ** [sweep_queued_deposits] *)

(** The signers are looked up and the size is checked before the first signature is requested. *)
Definition sign_sweep_transaction_future (sweep : Sweep) (recent_blockhash : Hash)
    : Async (result (Transaction * list Signer) CreateTransferError) :=
  let message := sweep_message sweep recent_blockhash in
  signers ← lift (sweep_signers sweep message);
  match ensure_within_transaction_size message with
  | Err e => mret (Err e)
  | Ok _ =>
      sign ← await (SignWithSchnorr message (map signer_derivation_path signers));
      lift (sign_sweep_transaction sign sweep recent_blockhash)
  end.

Definition submit_sweep_transaction_future (block : Block) (sweep_destination : Address)
    (batch : list (DepositSolId * QueuedDeposit)) : Async (result Signature SweepError) :=
  sweep ← lift (plan batch sweep_destination);
  signed ← sign_sweep_transaction_future sweep (block_blockhash block);
  submitted ← update (fun c now => submit_sweep_signed c sweep block signed now);
  match submitted with
  | Err e => mret (Err e)
  | Ok transaction =>
      sent ← submit_transaction transaction CommitmentConfirmed;
      signature ← lift (expect (head (tx_signatures transaction)) "index out of bounds");
      mret (result_bind (map_err SubmitTransactionFailed sent) (fun _ => Ok signature))
  end.

Definition sweep_queued_deposits : Task unit :=
  sweep ← seq (read take_from_queue);
  if bool_decide (sr_batches sweep = []) then mret tt
  else
  master_key ← seq (read minter_public_key);
  match master_key with
  | None => mret tt
  | Some master_key =>
      block ← seq (get_recent_block_future CommitmentConfirmed);
      match block with
      | Err _ => mret tt
      | Ok block =>
          scoped (fun w now => Done (set_timer 0 (RunTask SweepDeposits) w now))
            (_ ← join_all (map (submit_sweep_transaction_future block (minter_address master_key)) (sr_batches sweep));
             mret (negb (sr_leaves_deposits_queued sweep)))
      end
  end.

(** ** [process_pending_mints] *)
Definition process_pending_mint_future (p : DepositSolId * PendingMint) : Async unit :=
  let '(deposit_id, pending) := p in
  started ← update_tracked (fun c now =>
    started ← process_pending_mint_start c deposit_id pending now;
    Done (match started with inl c => (c, None) | inr arg => (c, Some arg) end));
  match started with
  | None => mret tt
  | Some arg =>
      response ← await_guarded (fun w now =>
          c ← quarantine_unless_defused (w_tracked w) deposit_id now; Done (mkWorld c (w_timers w)))
        (LedgerTransfer arg);
      update_tracked (fun c now => c ← process_pending_mint_answer c deposit_id response now; Done (c, tt))
  end.

Definition process_pending_mints : Task unit :=
  round ← seq (read mint_round_next);
  if bool_decide (mr_pending_mints round = []) then mret tt
  else
  _ ← seq (for_each process_pending_mint_future (mr_pending_mints round));
  round_made_progress ← seq (read (fun s =>
    existsb (fun p => bool_decide (pending_mints (deposits s) !! p.1 = None)) (mr_pending_mints round)));
  if round_made_progress && mr_more_pending_mints_than_one_round round
  then seq (schedule 0 (RunTask TaskMint))
  else mret tt.

(** ** [finalize_transactions] *)
Definition fetch_current_block_height : Async (option BlockHeight) :=
  block ← get_recent_block_future CommitmentFinalized;
  mret (match block with Ok block => Some (block_height block) | Err _ => None end).

Definition get_signature_statuses_future (batch : list Signature) : Async StatusResponse :=
  '(request, response) ← await (GetSignatureStatuses batch); mret (get_signature_statuses request response).

Definition check_sweep_transactions_task : Task bool :=
  transactions ← seq (read blockhash_transactions);
  if bool_decide (transactions = ∅) then mret false
  else
  current_block_height ← seq fetch_current_block_height;
  responses ← join_all (map get_signature_statuses_future (status_batches (btree_keys transactions)));
  seq (update (fun c now => check_sweep_transactions c transactions current_block_height
    (check_transaction_statuses (btree_keys transactions) responses) now)).

Definition read_nonce_future (minter_address : Address) (w : InFlightWithdrawal) : Async (InFlightWithdrawal * option NonceRead) :=
  value ← read_verified_nonce_future (iw_nonce_account w) minter_address;
  nonce_read ← read (fun s => read_nonce s w value);
  mret (w, nonce_read).

Definition read_in_flight_nonces_task : Task InFlightNonces :=
  let nonces := mkInFlightNonces [] [] ∅ in
  master_key ← seq (read minter_public_key);
  match master_key with
  | None => mret nonces
  | Some master_key =>
      withdrawals ← seq (read in_flight_withdrawals);
      for_fold (fun nonces batch =>
          reads ← join_all (map (read_nonce_future (minter_address master_key)) batch);
          mret (fold_left add_nonce_read reads nonces))
        nonces (chunks MAX_CONCURRENT_RPC_CALLS withdrawals)
  end.

Definition rebroadcast_future (w : InFlightWithdrawal) : Async unit :=
  transaction ← update_tracked (fun c _ => let '(m, transaction) := rebroadcast c.2 w in Done ((c.1, m), transaction));
  _ ← submit_transaction_skipping_preflight transaction;
  mret tt.

Definition resubmit_transactions_batch (nonces : InFlightNonces) : Task unit :=
  now ← seq time;
  for_fold (fun _ batch => _ ← join_all (map rebroadcast_future batch); mret tt)
    tt (chunks MAX_CONCURRENT_RPC_CALLS (to_rebroadcast nonces now)).

Definition finalize_landed_withdrawal_future (w : InFlightWithdrawal) : Async Finalization :=
  fetched ← get_transaction_future (iw_signature w);
  update (fun c now => finalize_landed_withdrawal c w fetched now).

Definition finalize_transactions_batch (nonces : InFlightNonces) : Task unit :=
  finalizations ← for_fold (fun finalizations batch =>
      batch ← join_all (map finalize_landed_withdrawal_future batch); mret (finalizations ++ batch))
    [] (chunks MAX_CONCURRENT_RPC_CALLS (advanced nonces));
  seq (update_tracked (fun c _ => Done ((c.1, record_undecided nonces finalizations c.2), tt))).

Definition credit_finalized_sweeps_task : Task bool :=
  round ← seq (read finalized_round);
  if bool_decide (round.2 = []) then mret false
  else
  outcomes ← join_all (map (fun p => get_transaction_future p.1) round.2);
  seq (update_tracked (fun c now => credit_finalized_sweeps c round outcomes now)).

Definition finalize_transactions : Task unit :=
  scoped (fun w now => Done (set_timer FINALIZE_TRANSACTIONS_RETRY_DELAY (RunTask FinalizeTransactions) w now))
    (more_transactions_to_check ← check_sweep_transactions_task;
     nonces ← read_in_flight_nonces_task;
     _ ← resubmit_transactions_batch nonces;
     _ ← finalize_transactions_batch nonces;
     more_sweeps_to_credit ← credit_finalized_sweeps_task;
     mret (negb more_transactions_to_check && negb more_sweeps_to_credit)).

(** ** [process_pending_withdrawals] *)
Definition create_transaction_future (minter_address : Address) (batch : ReservedBatch) : Async bool :=
  nonce ← read_verified_nonce_future (rb_nonce_account batch) minter_address;
  update (fun c now => create_transaction c minter_address batch nonce now).

Definition create_transactions_batch (minter_address : Address) : Task nat :=
  reserved ← seq (read reserved_batches);
  created ← join_all (map (create_transaction_future minter_address) reserved);
  mret (length (filter (fun created => created = true) created)).

Definition sign_batch_withdrawal_message_future (message : Message) : Async (result Transaction CreateTransferError) :=
  match ensure_within_transaction_size message with
  | Err e => mret (Err e)
  | Ok _ =>
      sign ← await (SignWithSchnorr message [MINTER_DERIVATION_PATH]);
      lift (sign_batch_withdrawal_message sign message)
  end.

Definition sign_withdrawal_future (withdrawal : BoundWithdrawal) : Async (option Transaction) :=
  signed ← sign_batch_withdrawal_message_future (bw_message withdrawal);
  update (fun c now => sign_withdrawal c withdrawal signed now).

Definition sign_transactions_batch (minter_address : Address) : Task (list Transaction) :=
  bound ← seq (read (fun s => bound_withdrawals s minter_address));
  bound ← seq (lift bound);
  signed ← join_all (map sign_withdrawal_future bound);
  mret (omap (fun transaction => transaction) (signed : list (option Transaction))).

Definition send_transaction (transaction : Transaction) : Async unit :=
  _ ← lift (expect (head (tx_signatures transaction)) "index out of bounds");
  _ ← submit_transaction_skipping_preflight transaction; mret tt.

Definition send_transactions_batch (transactions : list Transaction) : Task unit :=
  _ ← join_all (map send_transaction transactions); mret tt.

Definition process_pending_withdrawals : Task unit :=
  master_key ← seq (read minter_public_key);
  match master_key with
  | None => mret tt
  | Some master_key =>
      let address := minter_address master_key in
      num_created ← create_transactions_batch address;
      signed_transactions ← sign_transactions_batch address;
      _ ← send_transactions_batch signed_transactions;
      reschedule ← seq (read (reschedules_withdrawals num_created (length signed_transactions)));
      if (reschedule : bool) then seq (schedule WITHDRAWAL_PROCESSING_RETRY_DELAY (RunTask WithdrawalProcessing)) else mret tt
  end.

(** ** [fetch_and_record_minter_public_key]

    [deserialize_raw] is [ic_ed25519::PublicKey::deserialize_raw]. *)
Definition fetch_and_record_minter_public_key_task (deserialize_raw : bytes -> option PublicKey) : Task unit :=
  master_key ← seq (read minter_public_key);
  match master_key with
  | Some _ => mret tt
  | None =>
      scoped (fun w now => Done (set_timer MINTER_PUBLIC_KEY_RETRY_DELAY FetchPublicKey w now))
        (key_name ← seq (read master_key_name);
         response ← seq (await (FetchSchnorrPublicKey key_name));
         again ← seq (update (fun c now => fetch_and_record_minter_public_key deserialize_raw c response now));
         mret (negb again))
  end.

Definition job_task (deserialize_raw : bytes -> option PublicKey) (job : Job) : Task unit :=
  match job with
  | FetchPublicKey => fetch_and_record_minter_public_key_task deserialize_raw
  | RunTask SweepDeposits => sweep_queued_deposits
  | RunTask TaskMint => process_pending_mints
  | RunTask FinalizeTransactions => finalize_transactions
  | RunTask WithdrawalProcessing => process_pending_withdrawals
  end.
End Tasks.

(** ** The tasks record their own events only *)
Section Good.
Context `{Platform} `{SolanaDecoders}.

Lemma tracked_records (P : EventType -> Prop) c ev now c' : P ev -> tracked_event c ev now = Done c' -> rtc (records P) c.1 c'.1.
Proof. intros Ho Hev%tracked_event_Done. destruct c as [[s log] m]. by eapply records_once. Qed.

Lemma records_foreach {A} P (f : Config -> A -> outcome Config) l : forall c c',
  (forall c a c', f c a = Done c' -> rtc (records P) c c') -> foreach f c l = Done c' -> rtc (records P) c c'.
Proof.
  induction l as [|a l IH]; intros c c' Hf Hl; cbn in Hl; [by apply Done_inv in Hl as <-|].
  apply bind_Done in Hl as (c1 & H1 & Hl). etransitivity; [by eapply Hf | by apply IH].
Qed.

Lemma sweep_signed_records c sweep block signed now c' r :
  submit_sweep_signed c sweep block signed now = Done (c', r) -> rtc (records (owned (OwnerTask SweepDeposits))) c c'.
Proof.
  destruct c as [s log]. unfold submit_sweep_signed. destruct signed as [[tx signers]|]; [|by intros [= <- _]%Done_inv].
  intros (sig & _ & (c1 & Hev & Hs)%bind_Done)%bind_Done. apply Done_inv in Hs. injection Hs as <- _. by eapply records_once; [|exact Hev].
Qed.

Lemma mint_answer_records c deposit_id response now c' :
  process_pending_mint_answer c deposit_id response now = Done c' -> rtc (records (owned (OwnerTask TaskMint))) c.1 c'.1.
Proof.
  unfold process_pending_mint_answer. intros (answer & _ & Ha)%bind_Done.
  destruct answer as [[ix|[]]|]; try (by apply Done_inv in Ha as <-); try (by apply (tracked_records (owned (OwnerTask TaskMint))) in Ha).
  apply bind_Done in Ha as (ix & _ & Ha). by apply (tracked_records (owned (OwnerTask TaskMint))) in Ha.
Qed.

Lemma check_sweeps_records c transactions height statuses now c' more :
  check_sweep_transactions c transactions height statuses now = Done (c', more) -> rtc (records (owned (OwnerTask FinalizeTransactions))) c c'.
Proof.
  unfold check_sweep_transactions. intros (c1 & H1 & (c2 & H2 & (c3 & H3 & [= <- _]%Done_inv)%bind_Done)%bind_Done)%bind_Done.
  etransitivity; [eapply records_foreach; [|exact H1]; intros [s log] sig c0 Hev; by eapply records_once; [|exact Hev]|].
  etransitivity; [eapply records_foreach; [|exact H2]; intros [s log] sig c0 Hev; by eapply records_once; [|exact Hev]|].
  destruct height as [height|]; [|by apply Done_inv in H3 as <-].
  eapply records_foreach; [|exact H3]. intros [s log] sig c0 Hev. unfold expire_transaction in Hev.
  repeat case_match; try (by apply Done_inv in Hev as <-). by eapply records_once; [|exact Hev].
Qed.

Lemma landed_records c w fetched now c' r :
  finalize_landed_withdrawal c w fetched now = Done (c', r) -> rtc (records (owned (OwnerTask FinalizeTransactions))) c c'.
Proof.
  destruct c as [s log]. unfold finalize_landed_withdrawal. repeat case_match; try (by intros [= <- _]%Done_inv).
  all: intros (c1 & Hev & [= <- _]%Done_inv)%bind_Done; by eapply records_once; [|exact Hev].
Qed.

Lemma credit_records c round outcomes now c' again :
  credit_finalized_sweeps c round outcomes now = Done (c', again) -> rtc (records (owned (OwnerTask FinalizeTransactions))) c.1 c'.1.
Proof.
  unfold credit_finalized_sweeps. intros ([c1 n] & Hl & Hc)%bind_Done. apply Done_inv in Hc. injection Hc as <- _.
  revert Hl. generalize 0%nat as k, (zip round.2 outcomes) as items. intros k items. revert c k.
  induction items as [|[[sig sw] o] items IH]; intros c k Hl; cbn [foreach] in Hl; [by apply Done_inv in Hl as [= <- _]|].
  apply bind_Done in Hl as ([c2 k2] & H2 & Hl). etransitivity; [|by eapply IH]. unfold credit_finalized_sweep in H2.
  destruct (credit_event sig sw o) as [reason [ev|]] eqn:He; [|by apply Done_inv in H2 as [= <- _]].
  apply bind_Done in H2 as (c3 & Hev & H2). apply Done_inv in H2. injection H2 as <- _.
  apply (tracked_records (owned (OwnerTask FinalizeTransactions))) in Hev; [done|]. unfold credit_event in He. repeat case_match; simplify_eq; done.
Qed.

Lemma create_records c address batch nonce now c' created :
  create_transaction c address batch nonce now = Done (c', created) -> rtc (records (owned (OwnerTask WithdrawalProcessing))) c c'.
Proof.
  destruct c as [s log]. unfold create_transaction. repeat case_match; try (by intros [= <- _]%Done_inv).
  intros (c1 & Hev & [= <- _]%Done_inv)%bind_Done. by eapply records_once; [|exact Hev].
Qed.

Lemma sign_records c withdrawal signed now c' r :
  sign_withdrawal c withdrawal signed now = Done (c', r) -> rtc (records (owned (OwnerTask WithdrawalProcessing))) c c'.
Proof.
  destruct c as [s log]. unfold sign_withdrawal. destruct signed as [tx|]; [|by intros [= <- _]%Done_inv].
  intros (sig & _ & (c1 & Hev & [= <- _]%Done_inv)%bind_Done)%bind_Done. by eapply records_once; [|exact Hev].
Qed.

Lemma fetch_key_records deserialize c response now c' again :
  fetch_and_record_minter_public_key deserialize c response now = Done (c', again) -> rtc (records (owned OwnerKeyFetch)) c c'.
Proof.
  destruct c as [s log]. unfold fetch_and_record_minter_public_key. destruct response as [[raw_key raw_cc]|]; [|by intros [= <- _]%Done_inv].
  intros (pk & _ & (cc & _ & Hf)%bind_Done)%bind_Done. destruct (minter_public_key (s, log).1); [by apply Done_inv in Hf as [= <- _]|].
  apply bind_Done in Hf as (c1 & Hev & Hf). apply Done_inv in Hf. injection Hf as <- _. by eapply records_once; [|exact Hev].
Qed.

(** *** Whole functions *)
Ltac good_step :=
  lazymatch goal with
  | |- forall _, _ => intros ?; lazymatch goal with |- forall _, _ => idtac | |- task_good _ _ _ => idtac | |- async_good _ _ _ => idtac end
  | |- task_good _ _ (seq _) => apply seq_good
  | |- task_good _ _ (join_all _) => apply join_all_good
  | |- task_good _ _ (scoped _ _) => apply scoped_good; [apply set_timer_good|]
  | |- task_good _ _ (for_fold _ _ _) => apply for_fold_good
  | |- task_good _ _ (mret _) => apply treturn_good
  | |- task_good _ _ (mbind _ _) => apply task_bind_good
  | |- async_good _ _ (mret _) => apply return_good
  | |- async_good _ _ (mbind _ _) => apply async_bind_good
  | |- async_good _ _ (for_each _ _) => apply for_each_good
  | |- async_good _ _ (update _) => apply update_good
  | |- async_good _ _ (update_tracked _) => apply update_tracked_good
  | |- async_good _ _ (await _) => apply await_good
  | |- async_good _ _ (await_guarded _ _) => apply await_guarded_good
  | |- async_good _ _ (match _ with _ => _ end) => case_match
  | |- task_good _ _ (match _ with _ => _ end) => case_match
  | |- async_good _ _ _ => solve [auto with async]
  end.
Ltac good := repeat good_step.

Lemma sweep_task_good : task_good (owned (OwnerTask SweepDeposits)) true sweep_queued_deposits.
Proof.
  unfold sweep_queued_deposits, submit_sweep_transaction_future, sign_sweep_transaction_future, get_recent_block_future, submit_transaction.
  good. by intros ?%sweep_signed_records.
Qed.

Lemma mint_start_records c deposit_id pending now c' :
  process_pending_mint_start c deposit_id pending now = Done (inl c') -> rtc (records (owned (OwnerTask TaskMint))) c.1 c'.1.
Proof.
  unfold process_pending_mint_start. case_match; [|done]. intros (c1 & Hev & [= <-]%Done_inv)%bind_Done.
  by apply (tracked_records (owned (OwnerTask TaskMint))) in Hev.
Qed.

Lemma mint_future_good p : async_good (owned (OwnerTask TaskMint)) false (process_pending_mint_future p).
Proof.
  destruct p as [i pending]. unfold process_pending_mint_future. good.
  - intros (started & Hst & Hd)%bind_Done. apply Done_inv in Hd. destruct started as [c1|arg]; injection Hd as <- _; [|done].
    by eapply mint_start_records.
  - split; [|done]. intros w now w' (c1 & Hq & [= <-]%Done_inv)%bind_Done. split; [|exists []; by rewrite app_nil_r].
    by apply (tracked_records (owned (OwnerTask TaskMint))) in Hq.
  - intros (c1 & Ha & [= <- _]%Done_inv)%bind_Done. by eapply mint_answer_records.
Qed.

Lemma mint_task_good : task_good (owned (OwnerTask TaskMint)) false process_pending_mints.
Proof. unfold process_pending_mints. good. apply mint_future_good. Qed.

Lemma finalize_task_good : task_good (owned (OwnerTask FinalizeTransactions)) true finalize_transactions.
Proof.
  unfold finalize_transactions, check_sweep_transactions_task, read_in_flight_nonces_task, resubmit_transactions_batch,
    finalize_transactions_batch, credit_finalized_sweeps_task, fetch_current_block_height, get_signature_statuses_future,
    read_nonce_future, rebroadcast_future, finalize_landed_withdrawal_future, read_verified_nonce_future, get_recent_block_future,
    get_transaction_future, submit_transaction_skipping_preflight. good.
  - by intros ?%check_sweeps_records.
  - by intros [= <- _]%Done_inv.
  - by intros ?%landed_records.
  - by intros [= <- _]%Done_inv.
  - by intros ?%credit_records.
Qed.

Lemma withdrawals_task_good : task_good (owned (OwnerTask WithdrawalProcessing)) true process_pending_withdrawals.
Proof.
  unfold process_pending_withdrawals, create_transactions_batch, sign_transactions_batch, send_transactions_batch,
    create_transaction_future, sign_withdrawal_future, sign_batch_withdrawal_message_future, send_transaction,
    read_verified_nonce_future, submit_transaction_skipping_preflight. good.
  - by intros ?%create_records.
  - by intros ?%sign_records.
Qed.

Lemma fetch_key_task_good deserialize : task_good (owned OwnerKeyFetch) true (fetch_and_record_minter_public_key_task deserialize).
Proof. unfold fetch_and_record_minter_public_key_task. good. by intros ?%fetch_key_records. Qed.

(** Only the scope guard of a pending mint may panic. *)
Definition drops_safely (job : Job) : bool := match job with RunTask TaskMint => false | _ => true end.

(** Whatever a timer runs records only the events it owns. *)
Lemma job_task_good deserialize job : task_good (owned (job_owner job)) (drops_safely job) (job_task deserialize job).
Proof.
  destruct job as [|[]]; cbn [job_task job_owner drops_safely].
  - apply fetch_key_task_good.
  - apply sweep_task_good.
  - apply mint_task_good.
  - apply finalize_task_good.
  - apply withdrawals_task_good.
Qed.
End Good.
