(* ===== verification/Execution.v ===== *)
(** How Solana executes a sweep: the balances it moves and the metadata it
    reports of them. With honest metadata the settlement of
    minter/src/state/deposits/sweeps is complete. *)
From S2P Require Import Prelude Platform ConcretePlatform Events Sweeps.

(** ** The chain *)

(** The lamports of every address. *)
Definition Chain : Type := Address -> Lamport.

Definition move_lamports (from to : Address) (amount : Lamport) (chain : Chain) : Chain :=
  fun a => chain a - (if a =? from then amount else 0) + (if a =? to then amount else 0).

Definition execute_transfers (to : Address) (transfers : list Transfer) (chain : Chain) : Chain :=
  fold_left (fun chain t => move_lamports (tr_from t) to (tr_amount t) chain) transfers chain.

(** The fee payer, the first signer, is charged the fee. *)
Definition charge_fee (payer : option Address) (fee : Lamport) (chain : Chain) : Chain :=
  fun a => chain a - (if bool_decide (payer = Some a) then fee else 0).

Definition execute_sweep (sweep : Sweep) (fee : Lamport) (chain : Chain) : Chain :=
  execute_transfers (sw_minter_address sweep) (sw_transfers sweep)
    (charge_fee (tr_from <$> head (sw_transfers sweep)) fee chain).

(** The metadata of the executed transaction. *)
Definition executed_meta `{Platform} (sweep : Sweep) (recent_blockhash : Hash) (fee : Lamport) (chain : Chain) : TransactionMeta :=
  let keys := msg_account_keys (sweep_message sweep recent_blockhash) in
  mkMeta None fee (map chain keys) (map (execute_sweep sweep fee chain) keys).

(** A built message names the accounts of its instructions. *)
Class MessageAccounts `{Platform} : Prop := {
  transfer_accounts : forall (transfers : list Transfer) to payer h t, t ∈ transfers ->
    tr_from t ∈ msg_account_keys (new_with_blockhash (map (fun t => transfer_instruction (tr_from t) to (tr_amount t)) transfers) payer h) /\
    to ∈ msg_account_keys (new_with_blockhash (map (fun t => transfer_instruction (tr_from t) to (tr_amount t)) transfers) payer h)
}.

(** ** Lemmas on execution *)
Lemma execute_transfers_other to ts : forall chain a,
  a ∉ map tr_from ts -> a <> to -> execute_transfers to ts chain a = chain a.
Proof.
  induction ts as [|t ts IH]; intros chain a Ha Hto; [done|]. cbn in Ha |- *. apply not_elem_of_cons in Ha as [Hne Ha].
  change (execute_transfers to ts (move_lamports (tr_from t) to (tr_amount t) chain) a = chain a). rewrite IH by done.
  unfold move_lamports. destruct (Z.eqb_spec a (tr_from t)), (Z.eqb_spec a to); [done..|lia].
Qed.

Lemma execute_transfers_source to ts : forall chain t,
  NoDup (map tr_from ts) -> to ∉ map tr_from ts -> t ∈ ts ->
  execute_transfers to ts chain (tr_from t) = chain (tr_from t) - tr_amount t.
Proof.
  induction ts as [|u ts IH]; intros chain t Hnd Hto Ht; [by apply not_elem_of_nil in Ht|].
  cbn in Hnd, Hto. apply NoDup_cons in Hnd as [Hu Hnd]. apply not_elem_of_cons in Hto as [Hne Hto].
  change (execute_transfers to ts (move_lamports (tr_from u) to (tr_amount u) chain) (tr_from t) = chain (tr_from t) - tr_amount t).
  apply elem_of_cons in Ht as [->|Ht].
  - rewrite execute_transfers_other by done. unfold move_lamports. rewrite Z.eqb_refl. destruct (Z.eqb_spec (tr_from u) to); [done | lia].
  - assert (tr_from t ∈ map tr_from ts) as Hin by (apply list_elem_of_fmap; by exists t).
    rewrite IH by done. unfold move_lamports. destruct (Z.eqb_spec (tr_from t) (tr_from u)) as [E|]; [by rewrite E in Hin|].
    destruct (Z.eqb_spec (tr_from t) to) as [E|]; [by rewrite E in Hin | lia].
Qed.

Lemma execute_transfers_target to ts : forall chain,
  to ∉ map tr_from ts -> execute_transfers to ts chain to = chain to + zsum (map tr_amount ts).
Proof.
  induction ts as [|t ts IH]; intros chain Hto; [cbn; lia|]. cbn in Hto. apply not_elem_of_cons in Hto as [Hne Hto].
  change (execute_transfers to ts (move_lamports (tr_from t) to (tr_amount t) chain) to = chain to + (tr_amount t + zsum (map tr_amount ts))).
  rewrite IH by done. unfold move_lamports. rewrite Z.eqb_refl. destruct (Z.eqb_spec to (tr_from t)); [done | lia].
Qed.

(** The addresses of the deposits of a sweep, which transfers start from. *)
Definition deposit_addresses (sweep : Sweep) : list Address := map tr_from (sw_transfers sweep).

Section Sweep.
Context (sweep : Sweep) (Hwf : sweep_wf sweep).
Context (Hnd : NoDup (deposit_addresses sweep)) (Hminter : sw_minter_address sweep ∉ deposit_addresses sweep).

(** The first transfer is the one of the fee payer. *)
Lemma payer_charged t : t ∈ sw_transfers sweep ->
  bool_decide (tr_from <$> head (sw_transfers sweep) = Some (tr_from t)) = (tr_deposit_id t =? sw_fee_payer sweep).
Proof.
  intros Ht. destruct (swf_transfers _ Hwf) as (payer & others & Hts & Hpayer & Hperm & _). unfold deposit_addresses in Hnd.
  assert (NoDup (map tr_deposit_id (sw_transfers sweep))) as Hids by (rewrite Hperm; apply NoDup_btree_keys).
  rewrite Hts in Ht, Hnd, Hids |- *. cbn in *. apply NoDup_cons in Hnd as [Hp _]. apply NoDup_cons in Hids as [Hi _].
  apply elem_of_cons in Ht as [->|Ht]; [by rewrite Hpayer, Z.eqb_refl, bool_decide_true|].
  rewrite bool_decide_false; [symmetry; apply Z.eqb_neq; intros E; apply Hi; apply list_elem_of_fmap; exists t; by rewrite E|].
  intros [= E]. apply Hp. apply list_elem_of_fmap. by exists t.
Qed.

Lemma executed_source fee chain t : t ∈ sw_transfers sweep ->
  execute_sweep sweep fee chain (tr_from t) = chain (tr_from t) - (tr_amount t + fee_paid_by sweep fee t).
Proof.
  intros Ht. unfold execute_sweep. rewrite execute_transfers_source by done. unfold charge_fee, fee_paid_by.
  rewrite payer_charged by done. destruct (tr_deposit_id t =? sw_fee_payer sweep); lia.
Qed.

Lemma executed_target fee chain :
  execute_sweep sweep fee chain (sw_minter_address sweep) =
  chain (sw_minter_address sweep) + (total_sweepable (sw_deposits sweep) - sw_fee sweep).
Proof.
  unfold execute_sweep. rewrite execute_transfers_target, (swf_total _ Hwf) by done. unfold charge_fee.
  rewrite bool_decide_false; [lia|]. intros E. apply Hminter. unfold deposit_addresses.
  destruct (sw_transfers sweep) as [|t ts]; [done|]. injection E as <-. left.
Qed.
End Sweep.

(** ** Lemmas on settlement *)
Lemma zip_balances (keys : list Address) (f g : Chain) a :
  a ∈ keys -> collect_map (zip keys (zip (map f keys) (map g keys))) !! a = Some (f a, g a).
Proof.
  intros Ha. assert (zip keys (zip (map f keys) (map g keys)) = map (fun a => (a, (f a, g a))) keys) as ->.
  { clear Ha. induction keys as [|k keys IH]; cbn; [done | by rewrite IH]. }
  destruct (collect_map_is_Some (map (fun a => (a, (f a, g a))) keys) a) as [v Hv].
  { apply list_elem_of_fmap. exists (a, (f a, g a)). split; [done|]. apply list_elem_of_fmap. by exists a. }
  rewrite Hv. apply collect_map_lookup in Hv. apply list_elem_of_fmap in Hv as (b & [= <- ->] & _). done.
Qed.

(** The transfers start from the addresses of the planned deposits. *)
Lemma plan_addresses deposits addr sweep :
  plan deposits addr = Done sweep -> deposit_addresses sweep ≡ₚ map qd_address deposits.*2.
Proof.
  intros (Hnd & Hdep & _ & Hwf)%plan_Done. unfold deposit_addresses.
  set (address_of i := match sw_deposits sweep !! i with Some d => qd_address d | None => 0 end).
  destruct (swf_transfers _ Hwf) as (_ & _ & _ & _ & Hperm & _).
  transitivity (map address_of (map tr_deposit_id (sw_transfers sweep))).
  - rewrite map_map. erewrite map_ext_in; [done|]. intros t Ht%list_elem_of_In.
    destruct (swf_amounts _ Hwf t Ht) as (d & Hd & Hfrom & _). unfold address_of. by rewrite Hd.
  - rewrite Hperm. transitivity (map address_of deposits.*1).
    + apply Permutation_map. unfold btree_keys. by rewrite btree_iter_perm, Hdep, map_to_list_to_map.
    + change (deposits.*1) with (map fst deposits). change (deposits.*2) with (map snd deposits). rewrite !map_map. erewrite map_ext_in; [done|]. intros [i d] Hin%list_elem_of_In. cbn.
      unfold address_of. rewrite Hdep. by rewrite (proj1 (elem_of_list_to_map _ i d Hnd) Hin).
Qed.

Lemma mints_succeed sweep :
  (forall i d, sw_deposits sweep !! i = Some d -> fee_share sweep + deposit_fee d <= sweepable_amount d) ->
  (forall i d, sw_deposits sweep !! i = Some d -> 0 <= deposit_fee d) ->
  exists ms, mints sweep = Ok ms /\
    forall i d, sw_deposits sweep !! i = Some d ->
      mkCreditedDeposit i (sweepable_amount d - fee_share sweep - deposit_fee d) ∈ ms.
Proof.
  intros Hshare Hfee.
  exists (map (fun e => mkCreditedDeposit e.1 (sweepable_amount e.2 - fee_share sweep - deposit_fee e.2)) (btree_iter (sw_deposits sweep))).
  split.
  - unfold mints. apply collect_results_Ok, Forall2_fmap_r, Forall2_same_length_lookup. split; [done|].
    intros k [i d] e' Hk Hk'. rewrite Hk in Hk'. injection Hk' as <-. apply list_elem_of_lookup_2, elem_of_btree_iter in Hk.
    apply mint_of_Ok. cbn. specialize (Hshare _ _ Hk). specialize (Hfee _ _ Hk). split_and!; [done | done | lia | lia].
  - intros i d Hd. apply list_elem_of_fmap. exists (i, d). split; [done|]. by apply elem_of_btree_iter.
Qed.

Lemma tr_amount_nonneg sweep t : sweep_wf sweep -> t ∈ sw_transfers sweep -> 0 <= tr_amount t.
Proof.
  intros Hwf Ht. destruct (swf_amounts _ Hwf t Ht) as (d & Hd & _ & Hamt). pose proof (sweepable_range d). unfold fee_paid_by in Hamt.
  destruct (swf_payer _ Hwf) as (pd & Hpd & Hle & _). destruct (Z.eqb_spec (tr_deposit_id t) (sw_fee_payer sweep)) as [E|]; [|lia].
  rewrite E, Hpd in Hd. injection Hd as ->. lia.
Qed.

(** What a batch of deposits must satisfy on the chain for its sweep to go
    through: addresses of its own, of deposits that cover the fees and whose
    balances nobody but the minter can reduce. *)
Record batch_on_chain (batch : list (DepositSolId * QueuedDeposit)) (addr : Address) (chain : Chain) : Prop := {
  bc_addresses : NoDup (map qd_address batch.*2);
  bc_minter : addr ∉ map qd_address batch.*2;
  bc_balance : forall i d, (i, d) ∈ batch -> balance_lamports (qd_balance d) <= chain (qd_address d);
  bc_fees : forall i d, (i, d) ∈ batch -> 0 <= deposit_fee d /\ FEE_PER_SIGNATURE + deposit_fee d <= sweepable_amount d;
  bc_total : zsum (map (fun e => sweepable_amount e.2) batch) < u64_modulus;
  bc_size : Z.of_nat (length batch) <= MAX_SIGNATURES
}.

Section Settles.
Context `{!Platform, !PlatformLaws, !MessageAccounts}.
Context (batch : list (DepositSolId * QueuedDeposit)) (addr : Address) (sweep : Sweep) (chain : Chain).
Context (Hplan : plan batch addr = Done sweep) (Hchain : batch_on_chain batch addr chain).

Lemma batch_deposits i d : (i, d) ∈ batch <-> sw_deposits sweep !! i = Some d.
Proof. destruct (plan_Done _ _ _ Hplan) as (Hnd & -> & _). by rewrite elem_of_list_to_map. Qed.

Lemma batch_total : total_sweepable (sw_deposits sweep) = zsum (map (fun e => sweepable_amount e.2) batch).
Proof.
  destruct (plan_Done _ _ _ Hplan) as (Hnd & Hdep & _). unfold total_sweepable, btree_values.
  rewrite <- (zsum_map_perm (fun e => sweepable_amount e.2) (btree_iter (sw_deposits sweep)) batch).
  - change ((btree_iter (sw_deposits sweep)).*2) with (map snd (btree_iter (sw_deposits sweep))). by rewrite map_map.
  - by rewrite btree_iter_perm, Hdep, map_to_list_to_map.
Qed.

Lemma batch_fee : sw_fee sweep = FEE_PER_SIGNATURE * Z.of_nat (length batch) /\ fee_share sweep = FEE_PER_SIGNATURE.
Proof.
  destruct (plan_Done _ _ _ Hplan) as (Hnd & Hdep & _ & Hwf). pose proof (deposit_count_pos _ Hwf) as Hpos.
  pose proof (bc_size _ _ _ Hchain) as Hsize. unfold MAX_SIGNATURES in Hsize.
  assert (sw_fee sweep = FEE_PER_SIGNATURE * Z.of_nat (length batch)) as Hf.
  { rewrite (swf_fee _ Hwf), Hdep, size_list_to_map by done. unfold wmul. apply wrap64_small.
    unfold is_u64, FEE_PER_SIGNATURE, u64_modulus. lia. }
  split; [done|]. unfold fee_share. pose proof (div_ceil_bounds (sw_fee sweep) (Z.of_nat (deposit_count sweep))) as Hb.
  unfold deposit_count in *. rewrite Hdep, size_list_to_map in * by done. unfold FEE_PER_SIGNATURE in *. rewrite Hf in *. nia.
Qed.

Lemma executed_settles h fee : 0 <= fee <= sw_fee sweep -> settles sweep (sweep_message sweep h) (executed_meta sweep h fee chain).
Proof.
  intros Hfee. destruct (plan_Done _ _ _ Hplan) as (Hnd & Hdep & Haddr & Hwf). pose proof (plan_addresses _ _ _ Hplan) as Hperm.
  assert (NoDup (deposit_addresses sweep)) as Haddrs by (rewrite Hperm; apply (bc_addresses _ _ _ Hchain)).
  assert (sw_minter_address sweep ∉ deposit_addresses sweep) as Hminter by (rewrite Hperm, Haddr; apply (bc_minter _ _ _ Hchain)).
  unfold settles, executed_meta, meta_balances. cbn [meta_err meta_fee pre_balances post_balances]. rewrite !length_map.
  destruct (swf_transfers _ Hwf) as (payer & others & Hts & _).
  split_and!; [done | unfold sweep_message; by rewrite new_with_blockhash_hash | done | done | lia | |].
  - intros t Ht. destruct (transfer_accounts (sw_transfers sweep) (sw_minter_address sweep) (tr_from <$> head (sw_transfers sweep)) h t Ht) as [Hin _].
    do 2 eexists. split; [by apply zip_balances|]. rewrite executed_source, expected_decrease_exact by done.
    destruct (swf_amounts _ Hwf t Ht) as (d & Hd & Hfrom & Hamt). apply batch_deposits in Hd.
    pose proof (bc_balance _ _ _ Hchain _ _ Hd) as Hbal. rewrite <- Hfrom in Hbal.
    pose proof (tr_amount_nonneg _ _ Hwf Ht) as Hpos. unfold sweepable_amount, balance_sweepable_amount in Hamt. unfold fee_paid_by in *.
    destruct (tr_deposit_id t =? sw_fee_payer sweep); lia.
  - destruct (transfer_accounts (sw_transfers sweep) (sw_minter_address sweep) (tr_from <$> head (sw_transfers sweep)) h payer) as [_ Hin];
      [rewrite Hts; left|]. do 2 eexists. split; [by apply zip_balances|]. rewrite executed_target by done.
    rewrite (expected_received_exact _ Hwf) by (rewrite batch_total; apply (bc_total _ _ _ Hchain)).
    pose proof (swf_total _ Hwf) as Htot.
    assert (0 <= zsum (map tr_amount (sw_transfers sweep))); [|lia]. apply zsum_nonneg, Forall_forall. intros x (t & -> & Ht)%list_elem_of_fmap.
    by eapply tr_amount_nonneg.
Qed.

Lemma executed_settlement h fee : 0 <= fee <= sw_fee sweep ->
  exists settled, settle sweep (ExecutedLegacy (sweep_message sweep h)) (Some (executed_meta sweep h fee chain)) = Ok settled /\
    amount_received settled = zsum (map (fun e => sweepable_amount e.2) batch) - FEE_PER_SIGNATURE * Z.of_nat (length batch) /\
    forall i d, (i, d) ∈ batch ->
      mkCreditedDeposit i (sweepable_amount d - FEE_PER_SIGNATURE - deposit_fee d) ∈ settled_mints settled.
Proof.
  intros Hfee. destruct (plan_Done _ _ _ Hplan) as (_ & _ & _ & Hwf). destruct batch_fee as [Hf Hshare].
  destruct (mints_succeed sweep) as (ms & Hms & Hmint).
  - intros i d Hd%batch_deposits. rewrite Hshare. by apply (bc_fees _ _ _ Hchain i d).
  - intros i d Hd%batch_deposits. by apply (bc_fees _ _ _ Hchain i d).
  - exists (mkSettledSweep (sw_expected_received sweep) ms). split.
    + apply settle_Ok. do 2 eexists. split_and!; [done | done | by apply executed_settles | done | done].
    + cbn. rewrite (expected_received_exact _ Hwf) by (rewrite batch_total; apply (bc_total _ _ _ Hchain)).
      rewrite batch_total, Hf. split; [done|]. intros i d Hd%batch_deposits. rewrite <- Hshare. by apply Hmint.
Qed.
End Settles.

#[export] Instance concrete_accounts : MessageAccounts.
Proof.
  split. intros transfers to payer h t Ht. cbn [new_with_blockhash concrete_platform compile_message msg_account_keys].
  assert (forall a, a ∈ [tr_from t; to] -> a ∈ map (fun m => m.1.1) (metas (map (fun t => transfer_instruction (tr_from t) to (tr_amount t)) transfers))) as Hin.
  { intros a Ha. unfold metas. rewrite map_map. apply list_elem_of_fmap.
    assert (exists m, m ∈ ins_accounts (transfer_instruction (tr_from t) to (tr_amount t)) /\ a = m.1.1) as (m & Hm & ->)
      by (cbn; set_solver).
    exists m. split; [done|]. apply elem_of_list_concat. eexists. split; [exact Hm|]. apply list_elem_of_fmap. by exists t. }
  split; apply elem_of_keys_of; left; apply Hin; set_solver.
Qed.

(** ** Properties *)

(** C31: settlement accepts every sweep that Solana executed. When the deposit
    addresses still hold the balances the deposits were queued with, or more,
    the metadata of the executed sweep settles against the plan: the minter
    credits exactly the lamports its address gained, and every deposit of the
    batch is minted its sweepable amount less one signature fee and the
    deposit fee. Nothing of an executed sweep is ever quarantined. *)
Theorem executed_sweep_settles `{!Platform, !PlatformLaws, !MessageAccounts} batch addr sweep chain h fee :
  plan batch addr = Done sweep -> batch_on_chain batch addr chain -> 0 <= fee <= sw_fee sweep ->
  exists settled, settle sweep (ExecutedLegacy (sweep_message sweep h)) (Some (executed_meta sweep h fee chain)) = Ok settled /\
    amount_received settled = execute_sweep sweep fee chain addr - chain addr /\
    length (settled_mints settled) = length batch /\
    forall i d, (i, d) ∈ batch ->
      mkCreditedDeposit i (sweepable_amount d - FEE_PER_SIGNATURE - deposit_fee d) ∈ settled_mints settled.
Proof.
  intros Hplan Hchain Hfee. destruct (plan_Done _ _ _ Hplan) as (Hnd & Hdep & Haddr & Hwf). pose proof (plan_addresses _ _ _ Hplan) as Hperm.
  destruct (executed_settlement batch addr sweep chain Hplan Hchain h fee Hfee) as (settled & Hs & Hrcv & Hmint).
  exists settled. split_and!; [done | | | done].
  - rewrite Hrcv. rewrite <- Haddr at 1 2. rewrite executed_target; [|done|].
    + rewrite (batch_total batch addr sweep Hplan), (proj1 (batch_fee batch addr sweep chain Hplan Hchain)). lia.
    + rewrite Hperm, Haddr. apply (bc_minter _ _ _ Hchain).
  - apply settle_Ok in Hs as (_ & _ & _ & _ & _ & _ & Hms%mints_Ok). destruct Hms as [Hids _].
    rewrite <- (length_map cd_deposit_id), Hids. unfold btree_keys. by rewrite btree_iter_perm, Hdep, map_to_list_to_map, length_fmap.
Qed.

(** The addresses of the example hold their deposits, one of them more. *)
Definition example_chain : Chain :=
  fun a => if a =? 101 then 2000000 else if a =? 102 then 9500000 else if a =? 103 then 9000000 else 1000.

Lemma example_on_chain addr : addr ∉ [101; 102; 103] -> batch_on_chain example_deposits addr example_chain.
Proof.
  intros Haddr.
  assert (forall P : DepositSolId * QueuedDeposit -> Prop, Forall P example_deposits -> forall i d, (i, d) ∈ example_deposits -> P (i, d)) as Hall
    by (intros P HF i d Hin; rewrite Forall_forall in HF; by apply HF).
  split.
  - apply (bool_decide_unpack _). vm_compute. exact I.
  - exact Haddr.
  - apply (Hall (fun e => balance_lamports (qd_balance e.2) <= example_chain (qd_address e.2))).
    repeat constructor; vm_compute; discriminate.
  - apply (Hall (fun e => 0 <= deposit_fee e.2 /\ FEE_PER_SIGNATURE + deposit_fee e.2 <= sweepable_amount e.2)).
    repeat constructor; vm_compute; discriminate.
  - vm_compute. reflexivity.
  - vm_compute. discriminate.
Qed.

Lemma executed_sweep_settles_witness :
  exists settled, settle example_sweep (ExecutedLegacy (sweep_message example_sweep 77))
      (Some (executed_meta example_sweep 77 15000 example_chain)) = Ok settled /\
    amount_received settled = 17312360.
Proof.
  destruct (executed_sweep_settles example_deposits 500 example_sweep example_chain 77 15000) as (settled & Hs & Hrcv & _).
  - vm_compute. reflexivity.
  - apply example_on_chain. apply (bool_decide_unpack _). vm_compute. exact I.
  - vm_compute. split; discriminate.
  - exists settled. split; [exact Hs|]. rewrite Hrcv. vm_compute. reflexivity.
Defined.
