(* ===== verification/Delivery.v ===== *)
(** The whole way of a deposit, from the queue of the minter over Solana to the
    ckSOL ledger: the tasks of deposit/sweep and monitor, run one after the
    other with whatever other calls and timers do in between. *)
From S2P Require Import Prelude Platform ConcretePlatform InsertionOrderedMap Events Sweeps Deposits SolTransfer MinterState Replay Invariants Safety Interleaving Guards Rpc Metrics Mint SweepTasks Monitor Execution.

(** ** What may happen in between *)

(** The events that settle a pending mint; only the mint task records them. *)
Definition resolves_mint (i : DepositSolId) (ev : EventType) : Prop :=
  (exists ix, ev = MintedSweptDeposit i ix) \/ ev = QuarantinedPendingMint i.

(** The events that finalize one of the transactions a round of the monitor
    asked for; only the finalization task records them. *)
Definition finalizes_any (transactions : gmap Signature BlockHeight) (ev : EventType) : Prop :=
  exists sig, is_Some (transactions !! sig) /\ finalizes_signature sig ev.

Section Calm.
Context `{Platform}.

(** A swept sweep stays until its transaction is finalized. *)
Lemma calm_swept sig sw c c' :
  rtc (calm_step (finalizes_signature sig)) c c' -> minter_run c -> sized c'.2 ->
  by_signature (swept (deposits c.1)) !! sig = Some sw -> by_signature (swept (deposits c'.1)) !! sig = Some sw.
Proof.
  apply (calm_deposits _ (fun d => by_signature (swept d) !! sig = Some sw)).
  - intros d d' Hd HI. by rewrite (f_equal swept Hd : swept d' = swept d).
  - intros ev op d d' L Hne Hperf _ _ Hop HI. destruct op; cbn in Hop, Hperf.
    + by apply queue_Done in Hop as (_ & _ & w & _ & ->).
    + apply bind_Done in Hop as ([d1 r] & (_ & q & l & sw' & _ & _ & _ & _ & Hnone & _ & ->)%sweep_Done & [= <-]).
      cbn. rewrite lookup_insert_ne; [done|]. congruence.
    + apply drop_swept_Done in Hop as (sw' & _ & _ & ->). cbn. rewrite lookup_delete_ne; [done|].
      intros ->. apply Hne. unfold finalizes_signature. tauto.
    + apply finalize_swept_Done in Hop as (sw' & _ & _ & _ & ->). cbn. rewrite lookup_delete_ne; [done|].
      intros ->. apply Hne. unfold finalizes_signature. tauto.
    + by apply bind_Done in Hop as ([d1 sw'] & (_ & _ & p & _ & ->)%credit_sweep_Done & [= <-]).
    + by apply quarantine_sweep_Done in Hop as (sw' & _ & ->).
    + by apply mint_Done in Hop as (p & _ & _ & ->).
    + by apply quarantine_pending_mint_Done in Hop as (p & _ & ->).
Qed.

(** A pending mint stays until the mint task settles it. *)
Lemma calm_pending i dep sig amount t c c' :
  rtc (calm_step (resolves_mint i)) c c' -> minter_run c -> sized c'.2 ->
  holds (deposits c.1) i dep (StPending sig amount t) -> holds (deposits c'.1) i dep (StPending sig amount t).
Proof.
  apply (calm_deposits _ (fun d => holds d i dep (StPending sig amount t))).
  - intros d d' Hd. cbn. by rewrite (f_equal pending_mints Hd : pending_mints d' = pending_mints d).
  - intros ev op d d' L Hne Hperf HD HD' Hop HI. apply (im_holds _ _ HD) in HI. apply (im_holds _ _ HD').
    destruct op; cbn [lifecycle_op]; cbn in Hperf.
    1: { rewrite lookup_insert_ne; [done|]. intros ->. cbn in Hop. apply queue_Done in Hop as (-> & _).
         assert (is_Some (L !! next_id d)) as Hs by eauto. apply (im_ids _ _ HD) in Hs. lia. }
    all: apply relabel_Some; eexists; (split; [exact HI|]); cbn; try done.
    all: destruct (Z.eqb_spec i deposit_id) as [<-|]; [|done]; exfalso; apply Hne; unfold resolves_mint; subst ev; eauto.
Qed.
End Calm.

(** ** The stages of the way *)
Section Stages.
Context `{Platform}.

(** The pending mint of a deposit: the mint task calls the ledger for the
    account and amount of the deposit, and when the ledger answers with a
    block, the deposit is minted. *)
Definition mint_goes_through (c : Config) (i : DepositSolId) (dep : QueuedDeposit) (sig : Signature) (amount : Lamport)
    (created_at : Timestamp) : Prop :=
  forall c1 m1 now1 c2 m2 now2 ix,
    rtc (calm_step (resolves_mint i)) c c1 -> now1 - created_at <= LEDGER_DEDUPLICATION_WINDOW ->
    rtc (calm_step (resolves_mint i)) c1 c2 -> sized c2.2 -> Z.of_nat (length c2.2) < u64_max -> is_u64 ix ->
    exists pending,
      pending_mints (deposits c1.1) !! i = Some pending /\
      process_pending_mint_start (c1, m1) i pending now1 = Done (inr (mint_transfer_arg i pending)) /\
      ta_to (mint_transfer_arg i pending) = qd_account dep /\ ta_amount (mint_transfer_arg i pending) = amount /\
      status (deposits (process_pending_mint_callback (c2, m2) i (Ok (Ok ix)) now2).1.1) i = StatusMinted ix amount.

(** What the RPC provider answers for an executed sweep. *)
Definition executed_outcome (sw : Sweep) (sig : Signature) (recent_blockhash : Hash) (fee : Lamport) (chain : Chain) : FetchedOutcome :=
  Ok (Some (mkFetched (mkVersionedTransaction [sig] (ExecutedLegacy (sweep_message sw recent_blockhash)))
    (Some (executed_meta sw recent_blockhash fee chain)))).

(** The finalized sweep: until it is settled itself, whatever other sweeps are
    submitted, finalized, credited or quarantined, every round of crediting
    takes it if at most ten sweeps are finalized; and in a round that takes it,
    when its outcome is fetched, every deposit of the batch gets a pending
    mint, whatever happens to the sweeps of other rounds in the meantime. *)
Definition credit_goes_through (c : Config) (batch : list (DepositSolId * QueuedDeposit)) (destination : Address)
    (sw : Sweep) (sig : Signature) (recent_blockhash : Hash) : Prop :=
  forall s log, rtc (calm_step (settles_any [(sig, sw)])) c (s, log) ->
    (sized log -> (sweeps_len (finalized (deposits s)) <= MAX_CONCURRENT_RPC_CALLS)%nat -> (sig, sw) ∈ (finalized_round s).2) /\
    forall c' m chain fee k outcomes now,
    rtc (calm_step (settles_any (finalized_round s).2)) (s, log) c' ->
    sized c'.2 -> Z.of_nat (length c'.2) + Z.of_nat MAX_CONCURRENT_RPC_CALLS <= u64_max ->
    length outcomes = length (finalized_round s).2 -> (forall sig sw, (sig, sw) ∈ (finalized_round s).2 -> sweep_fits sw) ->
    (finalized_round s).2.*1 !! k = Some sig -> outcomes !! k = Some (executed_outcome sw sig recent_blockhash fee chain) ->
    batch_on_chain batch destination chain -> 0 <= fee <= sw_fee sw ->
    exists c'' again, credit_finalized_sweeps (c', m) (finalized_round s) outcomes now = Done (c'', again) /\
      forall i dep, (i, dep) ∈ batch ->
        mint_goes_through c''.1 i dep sig (sweepable_amount dep - FEE_PER_SIGNATURE - deposit_fee dep) now.

(** The submitted sweep: when a round of the monitor is told that it is
    finalized, it is recorded as such. *)
Definition finalization_goes_through (c : Config) (batch : list (DepositSolId * QueuedDeposit)) (destination : Address)
    (sw : Sweep) (sig : Signature) (recent_blockhash : Hash) : Prop :=
  forall s log c' responses height now,
    rtc (calm_step (finalizes_signature sig)) c (s, log) -> rtc (calm_step (finalizes_any (blockhash_transactions s))) (s, log) c' ->
    sized c'.2 -> Z.of_nat (length c'.2) + Z.of_nat (size (blockhash_transactions s)) <= u64_max ->
    says SaysSucceeded (round_entries s responses) sig ->
    exists c'' more, check_sweep_transactions c' (blockhash_transactions s) height
        (check_transaction_statuses (btree_keys (blockhash_transactions s)) responses) now = Done (c'', more) /\
      credit_goes_through c'' batch destination sw sig recent_blockhash.

(** ** Lemmas *)
Lemma minted_status d L i dep sig amount ix :
  implements d L -> holds d i dep (StMinted sig amount ix) -> status d i = StatusMinted ix amount.
Proof. intros HD Hh%(im_holds _ _ HD). by rewrite (status_stage d L i HD), Hh. Qed.

Lemma to_ledger_mint_index_u64 n : is_u64 n -> to_ledger_mint_index n = Done n.
Proof.
  intros [? ?]. unfold to_ledger_mint_index, to_u64. by rewrite (proj2 (Z.leb_le 0 n)), (proj2 (Z.ltb_lt n u64_modulus)).
Qed.

Lemma mint_ok c i dep sig amount t :
  minter_run c -> holds (deposits c.1) i dep (StPending sig amount t) -> mint_goes_through c i dep sig amount t.
Proof.
  intros Hrun Hp c1 m1 now1 c2 m2 now2 ix Hc1 Hage Hc2 Hsz Hlen Hix.
  pose proof (calm_run _ _ _ Hc1 Hrun) as Hrun1. pose proof (calm_pending _ _ _ _ _ _ _ Hc1 Hrun (calm_sized _ _ _ Hc2 Hsz) Hp) as Hp1.
  pose proof (calm_run _ _ _ Hc2 Hrun1) as Hrun2. pose proof (calm_pending _ _ _ _ _ _ _ Hc2 Hrun1 Hsz Hp1) as Hp2.
  eexists. split_and!; [exact Hp1 | | done | done |].
  - unfold process_pending_mint_start, is_beyond_deduplication_window, saturating_sub. cbn [pm_created_at_time].
    destruct (Z.ltb_spec LEDGER_DEDUPLICATION_WINDOW (Z.max 0 (now1 - t))) as [Hw|]; [|done]. unfold LEDGER_DEDUPLICATION_WINDOW in *. lia.
  - destruct c2 as [s2 log2]. cbn [fst snd] in *. destruct (minter_run_inv _ Hrun2 Hsz) as (L & HI & Hn & _). cbn [fst snd] in HI, Hn.
    pose proof (mi_deposits _ _ _ HI) as HD. destruct (mint_succeeds _ _ i _ ix HD Hp2) as [d Hd].
    assert (process_pending_mint_answer (s2, log2, m2) i (Ok (Ok ix)) now2 =
      Done ((s2 <| deposits := d |>, record_event log2 (MintedSweptDeposit i ix) now2), m2)) as Ha.
    { unfold process_pending_mint_answer, transfer. rewrite to_ledger_mint_index_u64 by done. cbn [mbind outcome_bind].
      unfold record_minted_swept_deposit, tracked_event, process_event. cbn [fst snd apply_state_transition]. unfold process_minted_swept_deposit. by rewrite Hd. }
    unfold process_pending_mint_callback. rewrite Ha. cbn [fst]. read_upd.
    pose proof (deposit_op_implements _ _ (OpMint i ix) d HD ltac:(lia) Hd) as HD'. apply (minted_status _ _ _ dep sig _ _ HD').
    apply (im_holds _ _ HD'). cbn [lifecycle_op]. apply relabel_Some. exists (StPending sig amount t).
    split; [by apply (im_holds _ _ HD)|]. cbn. by rewrite Z.eqb_refl.
Qed.

Lemma credit_ok `{!PlatformLaws, !MessageAccounts} c batch destination sw sig h :
  minter_run c -> by_signature (finalized (deposits c.1)) !! sig = Some sw -> plan batch destination = Done sw ->
  credit_goes_through c batch destination sw sig h.
Proof.
  intros Hrun Hfin Hplan s log Hc1.
  assert (all_finalized [(sig, sw)] (deposits c.1)) as Hall by (intros sig' sw' [= -> ->]%list_elem_of_singleton; done).
  assert (sized log -> by_signature (finalized (deposits s)) !! sig = Some sw) as Hfin1.
  { intros Hsz. pose proof (calm_finalized _ _ _ Hc1 Hrun Hsz Hall) as Hall1. cbn [fst snd] in Hall1. apply Hall1. left. }
  split.
  { intros Hsz Hle. unfold finalized_round. cbn [snd]. rewrite take_ge; [by apply elem_of_btree_iter, Hfin1|].
    rewrite btree_iter_length. exact Hle. }
  intros c' m chain fee k outcomes now Hc2 Hsz Hlen Hout Hfits Hk Ho Hchain Hfee.
  specialize (Hfin1 (calm_sized _ _ _ Hc2 Hsz)). pose proof (calm_run _ _ _ Hc1 Hrun) as Hrun1.
  assert ((finalized_round s).2 !! k = Some (sig, sw)) as Hround.
  { apply list_lookup_fmap_Some in Hk as ([sig' sw'] & -> & Hk'). cbn. pose proof Hk' as Hin.
    unfold finalized_round in Hin. cbn [snd] in Hin. apply list_elem_of_lookup_2, elem_of_take in Hin as (j & Hj%list_elem_of_lookup_2 & _).
    apply elem_of_btree_iter in Hj. cbn in Hfin1. rewrite Hfin1 in Hj. by injection Hj as <-. }
  destruct (executed_settlement batch destination sw chain Hplan Hchain h fee Hfee) as (settled & Hs & _ & Hmint).
  destruct c' as [s1 log1]. cbn [fst snd] in *.
  destruct (credit_round_ok s log s1 log1 m outcomes now) as (c'' & again & Hc'' & Hrun'' & Hh & _); [done..|].
  exists c'', again. split; [done|]. intros i dep Hin. apply mint_ok; [done|].
  pose proof (proj1 (batch_deposits batch destination sw Hplan i dep) Hin) as Hdep.
  specialize (Hh k sig sw _ i dep Hround Ho Hdep). unfold credit_event, executed_outcome in Hh. cbn [ft_transaction ft_meta vt_message] in Hh.
  rewrite Hs in Hh. cbn [snd settled_stage to_pending] in Hh. rewrite Z.eqb_refl in Hh.
  apply settle_Ok in Hs as (_ & _ & _ & _ & _ & _ & [Hids _]%mints_Ok).
  assert (mint_amount (settled_mints settled) i = sweepable_amount dep - FEE_PER_SIGNATURE - deposit_fee dep) as Ha.
  { apply (mint_amount_elem (settled_mints settled) (mkCreditedDeposit i (sweepable_amount dep - FEE_PER_SIGNATURE - deposit_fee dep)));
      [rewrite Hids; apply NoDup_btree_keys | by apply Hmint]. }
  by rewrite Ha in Hh.
Qed.

(** Recording the fate of another transaction leaves the sweep alone. *)
Lemma fate_other s item t s' sig :
  apply_state_transition s (fate_event item) t = Done s' -> item.1 <> sig ->
  by_signature (swept (deposits s')) !! sig = by_signature (swept (deposits s)) !! sig /\
  by_signature (finalized (deposits s')) !! sig = by_signature (finalized (deposits s)) !! sig.
Proof.
  intros Hs Hne. apply event_deposit_op in Hs as [-> |(op & Hop & Hperf)]; [done|].
  destruct item as [sig' fate]. cbn [fst] in Hne.
  destruct op; cbn in Hop, Hperf; destruct fate; cbn [fate_event fst snd] in Hperf; try done;
    try (by destruct Hperf as (? & ? & ?)); try (by destruct Hperf as (? & ?)).
  all: first [destruct Hperf as [[= <-]|[= <-]] | injection Hperf as <-].
  all: first
    [ apply drop_swept_Done in Hop as (sw & _ & _ & ->); cbn; by rewrite lookup_delete_ne
    | apply finalize_swept_Done in Hop as (sw & _ & _ & _ & ->); cbn; by rewrite lookup_delete_ne, lookup_insert_ne ].
Qed.

(** The sweep of a transaction that is recorded as succeeded is finalized. *)
Lemma fate_succeeded s t s' sig h sw :
  apply_state_transition s (SucceededTransaction sig) t = Done s' ->
  iom_get (submitted_transactions s) sig = Some (TxSweepDeposit h) -> by_signature (swept (deposits s)) !! sig = Some sw ->
  by_signature (finalized (deposits s')) !! sig = Some sw.
Proof.
  intros (tx & d & pool & _ & Htx & _ & Hd & ->)%process_succeeded_Done Hsub Hsw. rewrite Hsub in Htx. injection Htx as <-.
  destruct Hd as [(sw' & Hsw' & _ & _ & ->)%finalize_swept_Done _]. read_upd. cbn. rewrite lookup_insert_eq. congruence.
Qed.

Lemma fates_finalize now items sig sw h : forall c c',
  foreach (record_fate now) c items = Done c' -> NoDup (map fst items) -> (sig, FateSucceeded) ∈ items ->
  iom_get (submitted_transactions c.1) sig = Some (TxSweepDeposit h) -> by_signature (swept (deposits c.1)) !! sig = Some sw ->
  by_signature (finalized (deposits c'.1)) !! sig = Some sw.
Proof.
  induction items as [|item items IH]; intros c c' Hl Hnd Hin Hsub Hsw; [by apply not_elem_of_nil in Hin|].
  cbn in Hl, Hnd. apply NoDup_cons in Hnd as [Hx Hnd]. apply bind_Done in Hl as (c1 & Hc1 & Hl).
  apply bind_Done in Hc1 as (s1 & Hs1 & Hc1). apply Done_inv in Hc1. subst c1. apply elem_of_cons in Hin as [<-|Hin].
  - pose proof (fate_succeeded _ _ _ _ _ _ Hs1 Hsub Hsw) as Hfin. cbn in Hx. clear -Hl Hx Hfin.
    assert (forall c, by_signature (finalized (deposits c.1)) !! sig = Some sw -> foreach (record_fate now) c items = Done c' ->
      by_signature (finalized (deposits c'.1)) !! sig = Some sw) as Hkeep; [|exact (Hkeep (s1, _) Hfin Hl)].
    clear c s1 Hl Hfin. induction items as [|item items IH]; intros c Hc Hl; [by apply Done_inv in Hl as <-|].
    cbn in Hl, Hx. apply not_elem_of_cons in Hx as [Hne Hx]. apply bind_Done in Hl as (c1 & Hc1 & Hl).
    apply bind_Done in Hc1 as (s2 & Hs2 & Hc1). apply Done_inv in Hc1. subst c1. apply (IH Hx _) in Hl; [done|]. cbn.
    destruct (fate_other _ _ _ _ sig Hs2) as [_ ->]; done.
  - assert (item.1 <> sig) as Hne by (intros <-; apply Hx, list_elem_of_fmap; by exists (item.1, FateSucceeded)).
    destruct (fate_other _ _ _ _ sig Hs1 Hne) as [Hsw' _].
    apply (IH _ _ Hl Hnd Hin); cbn [fst]; [|congruence]. eapply submitted_kept_event; [|exact Hs1|done].
    intros Hf. apply Hne. destruct item as [? []]; cbn in Hf; destruct Hf as [[=]|[[=]|[=]]]; done.
Qed.

Lemma fates_run now items : forall c c', minter_run c -> foreach (record_fate now) c items = Done c' -> minter_run c'.
Proof.
  induction items as [|item items IH]; intros [s log] c' Hrun Hl; [by apply Done_inv in Hl as <-|].
  cbn in Hl. apply bind_Done in Hl as ([s1 log1] & Hc1 & Hl). eapply IH; [|exact Hl]. eapply run_step; [exact Hrun|]. by eapply step_event.
Qed.

Lemma finalization_ok `{!PlatformLaws, !MessageAccounts} c batch destination sw sig height0 h :
  minter_run c -> iom_get (submitted_transactions c.1) sig = Some (TxSweepDeposit height0) ->
  by_signature (swept (deposits c.1)) !! sig = Some sw -> plan batch destination = Done sw ->
  finalization_goes_through c batch destination sw sig h.
Proof.
  intros Hrun Hsub Hsw Hplan s log c' responses height now Hc1 Hc2 Hsz Hlen Hsays.
  assert (forall ev, finalizes_signature sig ev -> finalizes_any (blockhash_transactions s) ev) as Hweak.
  { intros ev Hev. exists sig. split; [by eapply says_known | done]. }
  assert (rtc (calm_step (finalizes_signature sig)) c c') as Hcalm by (etransitivity; [exact Hc1 | by eapply calm_weaken]).
  pose proof (calm_run _ _ _ Hcalm Hrun) as Hrun'.
  pose proof (calm_submitted (finalizes_signature sig) _ _ sig _ (fun _ Hf => Hf) Hcalm Hsub) as Hsub'. pose proof (calm_swept _ _ _ _ Hcalm Hrun Hsz Hsw) as Hsw'.
  rewrite check_sweep_fates. pose proof (fates_length s responses height) as Hfl.
  destruct (fate_loop_ok now (round_fates (blockhash_transactions s) height
    (check_transaction_statuses (btree_keys (blockhash_transactions s)) responses)) c'.1 c'.2) as (s' & log' & Hl & _ & _).
  - by destruct c'.
  - done.
  - lia.
  - apply fates_NoDup.
  - intros sig' fate Hf%elem_of_fates. assert (is_Some (blockhash_transactions s !! sig')) as [h' Hh'].
    { destruct fate; [| |destruct Hf as [Hf _]]; by eapply says_known. }
    exists h'. apply (calm_submitted (finalizes_any (blockhash_transactions s)) (s, log) c'); [intros ev Hev; exists sig'; by split | done |].
    by apply blockhash_transactions_submitted.
  - rewrite <- surjective_pairing in Hl. rewrite Hl. cbn [mbind outcome_bind]. do 2 eexists. split; [reflexivity|].
    apply credit_ok; [by eapply fates_run | | done].
    eapply fates_finalize; [exact Hl | apply fates_NoDup | by apply elem_of_fates | done | done].
Qed.
End Stages.

(** ** Properties *)

(** C8: a queued deposit reaches the ledger. A round of the sweep timer takes the
    queued deposits in order of their ids, in batches of at most ten, and
    every batch can be planned. Then, whatever other calls and timers do in
    between (what they cannot do is the work of these very rounds: sweep the
    deposits of the batch, finalize what the waiting monitor asked about,
    settle the sweep or what the waiting round of crediting took, resolve the
    mint): recording its signed transaction
    does not trap; when the monitor is told that the transaction is finalized,
    the sweep is recorded as finalized; it stays so while other sweeps are
    credited or quarantined, until a round takes it, as any round does when at
    most ten sweeps are finalized; when its executed outcome is fetched, every
    deposit of the batch is credited; and when the ledger accepts the transfer the minter sends for
    it, to the account of the deposit and of its sweepable amount less one
    signature fee and the deposit fee, the deposit is reported as minted. *)
Theorem queued_deposit_reaches_ledger `{!Platform, !PlatformLaws, !MessageAccounts} s log s1 round destination batch :
  minter_run (s, log) -> sweep_queued_deposits_start s = Some (s1, round, destination) -> batch ∈ sr_batches round ->
  (forall i dep, (i, dep) ∈ batch -> MAX_SIGNATURES * FEE_PER_SIGNATURE <= sweepable_amount dep) ->
  concat (sr_batches round) = take MAX_DEPOSITS_PER_ROUND (btree_iter (queued (deposits s))) /\
  (0 < length batch <= MAX_DEPOSITS_PER_SWEEP)%nat /\
  exists sw, plan batch destination = Done sw /\
  forall c block transaction signers sig now,
    rtc (calm_step (sweeps_any batch)) (s1, log) c -> sized c.2 ->
    tx_message transaction = sweep_message sw (block_blockhash block) -> head (tx_signatures transaction) = Some sig ->
    (sig ∉ succeeded_transactions c.1) -> iom_get (failed_transactions c.1) sig = None ->
    iom_get (submitted_transactions c.1) sig = None ->
    exists c', submit_sweep_signed c sw block (Ok (transaction, signers)) now = Done (c', Ok transaction) /\
      finalization_goes_through c' batch destination sw sig (block_blockhash block).
Proof.
  intros Hrun (_ & He & Hd & -> & key & Hkey & ->)%sweep_start_some Hin Hfee.
  pose proof (batch_of_round s1 batch Hin) as (Hq & _ & Hne & _). destruct (take_from_queue_batches s1) as (Hc & HF & _).
  rewrite Forall_forall in HF. split_and!; [by rewrite Hc, Hd | apply HF; done.. |].
  destruct (batch_plan_succeeds s1 batch (minter_address key) Hin Hfee) as [sw Hplan]. exists sw. split; [done|].
  intros c block tx signers sig now Hcalm Hsz Hm Hsig Hf1 Hf2 Hf3. pose proof (round_run _ _ _ Hrun (calm_sized _ _ _ Hcalm Hsz) He Hd) as Hrun1.
  pose proof (calm_queued _ _ _ Hcalm Hrun1 Hsz Hq) as Hqc. pose proof (calm_key _ _ _ _ Hcalm Hkey) as Hkc.
  pose proof (calm_run _ _ _ Hcalm Hrun1) as Hrunc. destruct c as [sc logc]. cbn [fst snd] in *.
  destruct (submit_batch_ok sc logc batch key sw block tx signers sig now) as (s' & ev & Hs' & Hev & Hsub & Hsw & _); [done..|].
  eexists. split; [exact Hs'|]. eapply finalization_ok; [by eapply event_run | exact Hsub | exact Hsw | exact Hplan].
Qed.

(** The example on its way: submitted, finalized, credited. *)
Definition delivery_transaction : Transaction := mkTransaction [900] (sweep_message example_plan 77).
Definition delivery_submitted : Config :=
  match submit_sweep_signed (sweeping_start.1.1, sweeping_log) example_plan (mkBlock 7 77 1000) (Ok (delivery_transaction, [])) 20 with
  | Done (c, _) => c
  | Panic _ => (sweeping_state, [])
  end.
Definition delivery_responses : list StatusResponse := [Ok [Some (mkTransactionStatus (Some Finalized) None)]].
Definition delivery_finalized : Config :=
  match check_sweep_transactions delivery_submitted (blockhash_transactions delivery_submitted.1) None
    (check_transaction_statuses (btree_keys (blockhash_transactions delivery_submitted.1)) delivery_responses) 30 with
  | Done (c, _) => c
  | Panic _ => (sweeping_state, [])
  end.
Definition delivery_outcome : FetchedOutcome := executed_outcome example_plan 900 77 15000 example_chain.
Definition delivery_credited : Tracked :=
  match credit_finalized_sweeps (delivery_finalized, metrics_new) (finalized_round delivery_finalized.1) [delivery_outcome] 40 with
  | Done (c, _) => c
  | Panic _ => (sweeping_state, [], metrics_new)
  end.

Lemma example_plan_fits : sweep_fits example_plan.
Proof.
  split; [vm_compute; reflexivity|]. intros i dep Hi.
  assert (map_Forall (fun _ d => 0 <= deposit_fee d) (sw_deposits example_plan)) as Hall by (apply (bool_decide_unpack _); vm_compute; exact I).
  by apply (Hall i).
Qed.

Lemma queued_deposit_reaches_ledger_witness :
  status (deposits (process_pending_mint_callback delivery_credited 0 (Ok (Ok 7)) 50).1.1) 0 = StatusMinted 7 1104120.
Proof.
  destruct (queued_deposit_reaches_ledger sweeping_state sweeping_log sweeping_start.1.1 sweeping_start.1.2 sweeping_start.2 example_deposits)
    as (_ & _ & sw & Hplan & Hsub).
  - apply replay_run. vm_compute. reflexivity.
  - vm_compute. reflexivity.
  - vm_compute. left.
  - intros i dep Hin.
    assert (Forall (fun p => MAX_SIGNATURES * FEE_PER_SIGNATURE <= sweepable_amount p.2) example_deposits) as Hall
      by (apply (bool_decide_unpack _); vm_compute; exact I).
    rewrite Forall_forall in Hall. exact (Hall _ Hin).
  - assert (plan example_deposits sweeping_start.2 = Done example_plan) as Hp by (vm_compute; reflexivity).
    rewrite Hp in Hplan. injection Hplan as <-.
    assert (sized sweeping_log) as Hsz by (split; [vm_compute; discriminate|]; apply (bool_decide_unpack _); vm_compute; exact I).
    destruct (Hsub (sweeping_start.1.1, sweeping_log) (mkBlock 7 77 1000) delivery_transaction [] 900 20
      ltac:(apply rtc_refl) Hsz ltac:(vm_compute; reflexivity) ltac:(reflexivity)
      ltac:(apply (bool_decide_unpack _); vm_compute; exact I) ltac:(vm_compute; reflexivity) ltac:(vm_compute; reflexivity))
      as (c1 & Hc1 & Hfin).
    assert (c1 = delivery_submitted) as -> by (eapply Done_pair_inv; [exact Hc1 | eexists; vm_compute; reflexivity]).
    destruct (Hfin delivery_submitted.1 delivery_submitted.2 delivery_submitted delivery_responses None 30) as (c2 & more & Hc2 & Hcredit).
    { rewrite <- surjective_pairing. apply rtc_refl. }
    { rewrite <- surjective_pairing. apply rtc_refl. }
    { split; [vm_compute; discriminate|]. apply (bool_decide_unpack _). vm_compute. exact I. }
    { vm_compute. discriminate. }
    { exists (Some (mkTransactionStatus (Some Finalized) None)). split; [vm_compute; left | reflexivity]. }
    assert (c2 = delivery_finalized) as -> by (eapply Done_pair_inv; [exact Hc2 | eexists; vm_compute; reflexivity]).
    destruct (Hcredit delivery_finalized.1 delivery_finalized.2) as [_ Hround]; [rewrite <- surjective_pairing; apply rtc_refl|].
    destruct (Hround delivery_finalized metrics_new example_chain 15000 0%nat [delivery_outcome] 40) as (c3 & again & Hc3 & Hmint).
    { rewrite <- surjective_pairing. apply rtc_refl. }
    { split; [vm_compute; discriminate|]. apply (bool_decide_unpack _). vm_compute. exact I. }
    { vm_compute. discriminate. }
    { vm_compute. reflexivity. }
    { intros sig sw Hin. assert ((finalized_round delivery_finalized.1).2 = [(900, example_plan)]) as Hr by (vm_compute; reflexivity).
      rewrite Hr in Hin. apply list_elem_of_singleton in Hin. injection Hin as -> ->. apply example_plan_fits. }
    { vm_compute. reflexivity. }
    { reflexivity. }
    { apply example_on_chain. apply (bool_decide_unpack _). vm_compute. exact I. }
    { vm_compute. split; discriminate. }
    assert (c3 = delivery_credited) as -> by (eapply Done_pair_inv; [exact Hc3 | eexists; vm_compute; reflexivity]).
    destruct (Hmint 0 (example_deposit 1 101 2000000 None) ltac:(left) delivery_credited.1 metrics_new 50 delivery_credited.1 delivery_credited.2 50 7)
      as (pending & _ & _ & _ & _ & Hst).
    { apply rtc_refl. }
    { vm_compute. discriminate. }
    { apply rtc_refl. }
    { split; [vm_compute; discriminate|]. apply (bool_decide_unpack _). vm_compute. exact I. }
    { vm_compute. reflexivity. }
    { vm_compute. split; [discriminate | reflexivity]. }
    rewrite <- surjective_pairing in Hst. exact Hst.
Defined.
