(* ===== verification/Payout.v ===== *)
(** The whole way of a withdrawal, from a reserved batch of requests over the
    signed transaction to its finalization: the tasks of withdraw and monitor,
    run one after the other with whatever other calls and timers do in
    between. *)
From S2P Require Import Prelude Platform ConcretePlatform InsertionOrderedMap NoncePool Events Sweeps Deposits SolTransfer MinterState Replay Invariants Safety Interleaving Batches Guards Rpc Metrics Withdraw Monitor.

(** ** The submitted transactions can be listed

    Their insertion order is consistent as long as the sequence numbers do not
    wrap, which takes as many events. *)
Definition listable (m : InsertionOrderedMap Signature MinterTransaction) (n : Z) : Prop := iom_wf m /\ 0 <= iom_next_seq m <= n.

Lemma listable_insert m n sig tx : listable m n -> n < u64_max -> listable (iom_insert m sig tx).1 (n + 1).
Proof.
  intros [Hwf Hseq] Hn. split; [apply iom_insert_wf; [done | lia]|]. rewrite iom_insert_remove. cbn. rewrite iom_remove_next_seq.
  unfold wadd. rewrite wrap64_small; [lia|]. unfold is_u64, u64_modulus, u64_max in *. lia.
Qed.

Lemma listable_remove m n sig : listable m n -> listable (iom_remove m sig).1 (n + 1).
Proof. intros [Hwf Hseq]. split; [by apply iom_remove_wf|]. rewrite iom_remove_next_seq. lia. Qed.

Lemma listable_weaken m n : listable m n -> listable m (n + 1).
Proof. intros [Hwf Hseq]. split; [done | lia]. Qed.

Section Listed.
Context `{Platform}.

Lemma listable_event s ev t s' n :
  apply_state_transition s ev t = Done s' -> n < u64_max ->
  listable (submitted_transactions s) n -> listable (submitted_transactions s') (n + 1).
Proof.
  intros Hs Hn Hl. destruct ev; cbn [apply_state_transition] in Hs.
  - done.
  - destruct (upgrade s args) as [s1|] eqn:Hu; [|done]. apply Done_inv in Hs. subst s1.
    apply upgrade_Ok in Hu as (pool & _ & -> & _). by apply listable_weaken.
  - apply process_accepted_Done in Hs as [_ ->]. by apply listable_weaken.
  - destruct message as [m]. destruct purpose as [ids h|ixs].
    + apply process_submitted_sweep_Done in Hs as (key & d & r & _ & _ & _ & _ & _ & ->). read_upd. by apply listable_insert.
    + apply process_submitted_withdrawal_Done in Hs as (s1 & tx & _ & _ & _ & Hsend & ->). read_upd.
      by apply listable_insert.
  - apply process_succeeded_Done in Hs as (tx & d & pool & _ & _ & _ & _ & ->). by apply listable_remove.
  - apply process_failed_Done in Hs as (tx & d & pool & _ & _ & _ & _ & ->). by apply listable_remove.
  - apply process_expired_Done in Hs as (h & d & _ & _ & _ & _ & ->). by apply listable_remove.
  - apply deposit_update_Done in Hs as (d & _ & ->). by apply listable_weaken.
  - apply process_credited_Done in Hs as (d & sw & _ & _ & _ & ->). by apply listable_weaken.
  - apply deposit_update_Done in Hs as (d & _ & ->). by apply listable_weaken.
  - apply cache_key_Done in Hs as [[_ ->]|[_ ->]]; by apply listable_weaken.
  - apply deposit_update_Done in Hs as (d & _ & ->). by apply listable_weaken.
  - apply deposit_update_Done in Hs as (d & _ & ->). by apply listable_weaken.
  - apply process_created_Done in Hs as (pool & p & c & tot & _ & _ & _ & _ & ->). by apply listable_weaken.
Qed.

Lemma listable_run c : minter_run c -> Z.of_nat (length c.2) <= u64_max -> listable (submitted_transactions c.1) (Z.of_nat (length c.2)).
Proof.
  intros Hrun. induction Hrun as [args now c Hinit | c c' Hrun IH Hstep]; intros Hlen.
  - unfold init in Hinit. destruct (state_try_from args) as [s|] eqn:Hs; [|done]. apply Done_inv in Hinit. subst c. cbn [fst snd length].
    apply state_try_from_fields in Hs as (pool & _ & -> & _). split; [apply iom_new_wf | cbn; lia].
  - assert (forall s s1 log ev now, submitted_transactions s1 = submitted_transactions s -> Z.of_nat (length (log ++ [mkEvent now ev])) <= u64_max ->
      (Z.of_nat (length log) <= u64_max -> listable (submitted_transactions s) (Z.of_nat (length log))) ->
      forall s', apply_state_transition s1 ev now = Done s' -> listable (submitted_transactions s') (Z.of_nat (length (log ++ [mkEvent now ev])))) as Hev.
    { intros s s1 log ev now E Hle HI s' Hs'. rewrite length_app in Hle |- *. cbn [length] in *. rewrite Nat2Z.inj_add.
      eapply listable_event; [exact Hs' | lia |]. rewrite E. apply HI. lia. }
    destruct Hstep as [s log ev now s' log' Hp | s log s' He Hwf | s log args now s' log' Hup]; cbn [fst snd] in *.
    + apply bind_Done in Hp as (s1 & Hs1 & Hlog). apply Done_inv in Hlog. injection Hlog as <- <-. by eapply Hev.
    + apply erase_eq_inv in He as (_ & -> & _). by apply IH.
    + pose proof (minter_run_replay _ Hrun) as Hrep. cbn [fst snd] in Hrep. unfold post_upgrade in Hup. rewrite Hrep in Hup.
      cbn [mbind outcome_bind] in Hup. destruct args as [args|].
      * apply bind_Done in Hup as (s1 & Hs1 & Hlog). apply Done_inv in Hlog. injection Hlog as <- <-. by apply (Hev s (erase s)).
      * apply Done_inv in Hup. injection Hup as <- <-. by apply IH.
Qed.

(** A submitted withdrawal is among those the monitor looks at. *)
Lemma in_flight_withdrawal_listed s log sig m a v t :
  minter_run (s, log) -> sized log -> iom_get (submitted_transactions s) sig = Some (TxWithdrawal (Legacy m) a v t) ->
  mkInFlightWithdrawal sig m a v t ∈ in_flight_withdrawals s.
Proof.
  intros Hrun [Hlen _] Hsub. destruct (listable_run _ Hrun Hlen) as [Hwf _]. cbn [fst snd] in Hwf.
  apply list_elem_of_omap. exists (sig, TxWithdrawal (Legacy m) a v t). split; [by apply elem_of_iom_iter | done].
Qed.

(** A sent withdrawal stays sent until its transaction is finalized. *)
Lemma calm_sent sig c c' b :
  rtc (calm_step (finalizes_signature sig)) c c' -> minter_run c -> sized c'.2 ->
  withdrawal_status c.1 b = WithdrawalTxSent sig -> withdrawal_status c'.1 b = WithdrawalTxSent sig.
Proof.
  induction 1 as [c | c c1 c' Hq Hrtc IH]; intros Hrun Hsz Hst; [done|].
  pose proof (calm_sized _ _ _ Hrtc Hsz) as Hsz1. apply IH; [by eapply run_step, calm_minter_step | done |]. clear IH Hrtc Hsz.
  destruct Hq as [s log ev now s' log' Hne Hev | s log s' He Hwf]; cbn [fst snd] in *.
  - apply bind_Done in Hev as (s1 & Hs1 & Hl). apply Done_inv in Hl. injection Hl as <- <-. pose proof Hsz1 as (Hsz & _ & Hacc)%sized_snoc.
    destruct (minter_run_inv _ Hrun Hsz) as (L & HI & _). cbn [fst snd] in HI.
    destruct (status_event s L _ ev now s1 b HI Hacc Hs1) as [-> |Hstep]; [done|]. rewrite Hst in Hstep. exfalso. apply Hne.
    unfold finalizes_signature. inversion Hstep; subst; tauto.
  - rewrite withdrawal_status_at in *. apply erase_eq_inv in He as (_ & _ & _ & _ & _ & _ & E1 & E2 & E3 & E4 & E5 & _). congruence.
Qed.

Lemma sent_status_inv s b sig :
  withdrawal_status s b = WithdrawalTxSent sig ->
  exists r, sent_withdrawal_requests s !! b = Some r /\ sent_signature r = sig.
Proof.
  rewrite withdrawal_status_at. unfold status_at. repeat case_match; try done. intros [= <-]. by eexists.
Qed.
End Listed.

(** ** The stages of the way *)
Section Stages.
Context `{Platform}.

(** The submitted transaction: once its nonce account is read with a value it
    has not seen, the monitor looks the transaction up, and when it was
    executed, the withdrawals succeeded and the nonce account is free again. *)
Definition landing_goes_through (c : Config) (batch : ReservedBatch) (sig : Signature) (message : Message) (nonce_value : Hash)
    (submitted_at : Timestamp) : Prop :=
  forall s log c' reads s1 value transaction meta now,
    let w := mkInFlightWithdrawal sig message (rb_nonce_account batch) nonce_value submitted_at in
    rtc (calm_step (finalizes_signature sig)) c (s, log) -> rtc (calm_step (finalizes_signature sig)) (s, log) c' -> sized c'.2 ->
    (s1, w, Ok value) ∈ reads -> value <> nonce_value -> np_has_seen (nonce_pool s1) (rb_nonce_account batch) value = false ->
    vt_message transaction = ExecutedLegacy message -> meta_err meta = None ->
    w ∈ in_flight_withdrawals s /\ w ∈ advanced (read_in_flight_nonces reads) /\
    exists c'', finalize_landed_withdrawal c' w (Ok (Some (mkFetched transaction (Some meta)))) now = Done (c'', WithdrawalFinalized) /\
      na_state <$> np_accounts (nonce_pool c''.1) !! rb_nonce_account batch = Some Free /\
      forall r, r ∈ rb_requests batch -> withdrawal_status c''.1 (wr_burn_block_index r) = WithdrawalTxSuccess sig.

(** The created transaction: signing it uses the message that was built when
    it was created, and recording the signed transaction does not trap. *)
Definition signing_goes_through (c : Config) (batch : ReservedBatch) (key : SchnorrPublicKey) (message : Message) (nonce_value : Hash) : Prop :=
  forall s log c' sig now,
    let w := mkBoundWithdrawal (rb_nonce_account batch) (burn_indices_of batch) message in
    rtc (unsent_step (rb_nonce_account batch)) c (s, log) -> rtc (unsent_step (rb_nonce_account batch)) (s, log) c' -> sized c'.2 ->
    (sig ∉ succeeded_transactions c'.1) -> iom_get (failed_transactions c'.1) sig = None -> iom_get (submitted_transactions c'.1) sig = None ->
    bound_withdrawal s (minter_address key) (rb_nonce_account batch) (mkCreatedTx nonce_value (burn_indices_of batch)) = Done (Ok w) /\
    exists c'', sign_withdrawal c' w (Ok (mkTransaction [sig] message)) now = Done (c'', Some (mkTransaction [sig] message)) /\
      landing_goes_through c'' batch sig message nonce_value now.

(** ** Lemmas *)
Lemma landing_ok c batch sig m v t :
  minter_run c -> iom_get (submitted_transactions c.1) sig = Some (TxWithdrawal (Legacy m) (rb_nonce_account batch) v t) ->
  (forall b, b ∈ burn_indices_of batch -> withdrawal_status c.1 b = WithdrawalTxSent sig) ->
  landing_goes_through c batch sig m v t.
Proof.
  intros Hrun Hsub Hst s log c' reads s1 value tx meta now w Hc1 Hc2 Hsz Hread Hval Hseen Hm Herr.
  pose proof (calm_run _ _ _ Hc1 Hrun) as Hrun1. pose proof (calm_sized _ _ _ Hc2 Hsz) as Hsz1. cbn [snd] in Hsz1.
  pose proof (calm_submitted (finalizes_signature sig) _ _ sig _ (fun _ Hf => Hf) Hc1 Hsub) as Hsub1.
  pose proof (calm_submitted (finalizes_signature sig) _ _ sig _ (fun _ Hf => Hf) Hc2 Hsub1) as Hsub2.
  pose proof (calm_run _ _ _ Hc2 Hrun1) as Hrun2. split_and!.
  - by eapply in_flight_withdrawal_listed.
  - apply nonces_classified. by exists s1, value.
  - destruct (minter_run_inv _ Hrun2 Hsz) as (L & HI & _). rewrite finalize_landed_decides.
    assert (landed_outcome w (Ok (Some (mkFetched tx (Some meta)))) = Some None) as ->.
    { cbn. unfold carries_message_of. rewrite Hm. cbn. by rewrite bool_decide_true, Herr. }
    destruct (landed_event_ok c'.1 L _ w None now HI Hsub2) as (s' & Hs' & _ & Hfree & Hsucc). unfold process_event. rewrite Hs'.
    cbn [mbind outcome_bind]. eexists. split; [reflexivity|]. split; [exact Hfree|]. intros r Hr. cbn [fst].
    assert (withdrawal_status c'.1 (wr_burn_block_index r) = WithdrawalTxSent sig) as Hsent.
    { apply (calm_sent sig (s, log) c'); [done..|]. apply (calm_sent sig c (s, log)); [done..|].
      apply Hst, list_elem_of_fmap. by exists r. }
    destruct (sent_status_inv _ _ _ Hsent) as (sr & Hsr & Hsig). exact (Hsucc _ _ Hsr Hsig).
Qed.

Lemma unsent_sized a c c' : rtc (unsent_step a) c c' -> sized c'.2 -> sized c.2.
Proof.
  intros Hsteps. apply (calm_sized (submits_to a)). induction Hsteps as [|c c1 c' Hstep _ IH]; [done|].
  eapply rtc_l; [|exact IH]. destruct Hstep; [by eapply calm_event | by apply calm_transient].
Qed.

Lemma signing_ok `{!PlatformLaws} c batch key m v :
  minter_run c -> created_withdrawal_txs c.1 !! rb_nonce_account batch = Some (mkCreatedTx v (burn_indices_of batch)) ->
  minter_public_key c.1 = Some key ->
  bound_transfers c.1 (mkCreatedTx v (burn_indices_of batch)) = Done (withdrawal_transfers (rb_requests batch)) ->
  build_batch_withdrawal_message (minter_address key) (rb_nonce_account batch) v (withdrawal_transfers (rb_requests batch)) = Ok m ->
  signing_goes_through c batch key m v.
Proof.
  intros Hrun Hctx Hkey Hts Hm s log c' sig now w Hc1 Hc2 Hsz Hf1 Hf2 Hf3. set (a := rb_nonce_account batch) in *.
  set (cr := mkCreatedTx v (burn_indices_of batch)) in *.
  destruct (still_bound_run a c (s, log) cr key Hrun Hc1 Hctx Hkey) as [Hrun1 Hb1].
  destruct (Hb1 (unsent_sized _ _ _ Hc2 Hsz)) as [[Hctx1 Hreq1] Hkey1]. cbn [fst] in *.
  destruct (still_bound_run a (s, log) c' cr key Hrun1 Hc2 Hctx1 Hkey1) as [Hrun2 Hb2]. destruct (Hb2 Hsz) as [[Hctx2 Hreq2] Hkey2].
  pose proof (bound_transfers_ext _ _ _ Hreq1) as Ht1. pose proof (bound_transfers_ext _ _ _ Hreq2) as Ht2. cbn [fst] in *. split.
  - rewrite bound_withdrawal_transfers, Ht1, Hts. cbn [mbind outcome_bind]. change (ctx_nonce_value cr) with v. by rewrite Hm.
  - destruct c' as [s' log']. cbn [fst snd] in *.
    destruct (sign_bound_ok s' log' a cr key (withdrawal_transfers (rb_requests batch)) m sig now)
      as (s'' & ev & Hs'' & Hev & Hacc & Hsub & Hst); [done | done | done | done | by rewrite Ht2, Ht1 | done | done | done | done |].
    eexists. split; [exact Hs''|]. apply landing_ok; [by eapply event_run | done | done].
Qed.

(** The requests of a created transaction are those of its batch. *)
Lemma created_requests s batch :
  (forall r, r ∈ rb_requests batch -> exists p, created_withdrawal_requests s !! wr_burn_block_index r = Some p /\ pw_request p = r) ->
  forall v, bound_transfers s (mkCreatedTx v (burn_indices_of batch)) = Done (withdrawal_transfers (rb_requests batch)).
Proof.
  intros Hr v. rewrite bound_transfers_requests. cbn [ctx_burn_indices].
  assert (traverse (created_withdrawal_request s) (burn_indices_of batch) = Done (rb_requests batch)) as ->; [|done].
  unfold burn_indices_of. induction (rb_requests batch) as [|r rs IH]; [done|]. cbn [map traverse].
  destruct (Hr r ltac:(left)) as (p & Hp & Hpr).
  assert (created_withdrawal_request s (wr_burn_block_index r) = Done r) as ->.
  { unfold created_withdrawal_request. rewrite Hp. cbn. by rewrite Hpr. }
  cbn [mbind outcome_bind]. by rewrite IH by (intros; apply Hr; by right).
Qed.
End Stages.

(** ** Properties *)

(** C9: a reserved withdrawal is paid. Once the nonce account of a reserved batch
    is read with a value it has not seen, and the message for it is small
    enough, the transaction is created and the rent-exemption threshold stays
    in the balance. Then, whatever other calls and timers do in between: the
    transaction is signed with exactly that message, however often that is
    tried, and recording it does not trap; and when the nonce account has
    advanced and the transaction is found executed, all withdrawals of the
    batch are reported as successful and the nonce account is free again. *)
Theorem reserved_withdrawal_is_paid `{!Platform, !PlatformLaws} s0 log0 s log R batch key message v now :
  minter_run (s0, log0) -> sized log0 -> amounts_fit s0 ->
  rtc round_step (s0, reserved_batches s0) (s, R) -> batch ∈ R -> minter_run (s, log) ->
  minter_public_key s = Some key -> np_has_seen (nonce_pool s) (rb_nonce_account batch) v = false ->
  build_batch_withdrawal_message (minter_address key) (rb_nonce_account batch) v (withdrawal_transfers (rb_requests batch)) = Ok message ->
  exists c, create_transaction (s, log) (minter_address key) batch (Ok v) now = Done (c, true) /\
    RENT_EXEMPTION_THRESHOLD <= balance c.1 /\
    signing_goes_through c batch key message v.
Proof.
  intros Hrun0 Hsz0 Hfit Hround Hbatch Hrun Hkey Hseen Hm. pose proof (payable_round _ _ _ _ Hrun0 Hsz0 Hfit Hround) as HP.
  pose proof (pb_pending _ _ HP batch) as Hpend.
  apply list_elem_of_split in Hbatch as (pre & post & ->).
  destruct (payable_create _ _ _ _ _ HP Hseen) as (s' & Hs' & _ & _ & Hrent).
  exists (s', record_event log (CreatedWithdrawalTransactionEvent (burn_indices_of batch) (rb_nonce_account batch) v) now).
  unfold create_transaction. cbn [fst snd]. rewrite Hseen, Hm. unfold process_event. cbn [apply_state_transition]. rewrite Hs'.
  split_and!; [done | done |]. pose proof Hs' as (pool & p & c & tot & _ & Hl & _ & _ & Heq)%process_created_Done.
  apply create_loop in Hl as (_ & _ & _ & _ & _ & Hc). apply signing_ok; cbn [fst].
  - by eapply event_run.
  - rewrite Heq. read_upd. apply lookup_insert_eq.
  - by apply (key_kept_event s (CreatedWithdrawalTransactionEvent (burn_indices_of batch) (rb_nonce_account batch) v) now).
  - apply created_requests. intros r Hr. destruct (Hpend r) as [(q & Hq & Hqr) _]; [apply elem_of_app; right; left | done |].
    exists q. split; [|done]. rewrite Heq. read_upd. rewrite Hc, decide_True; [done|]. apply list_elem_of_fmap. by exists r.
  - exact Hm.
Qed.

(** The example on its way: created, signed and submitted. *)
Definition payout_created : Config :=
  match create_transaction (accepted_state, example_accepted) (minter_address example_key) example_batch (Ok 321) 9 with
  | Done (c, _) => c
  | Panic _ => (accepted_state, [])
  end.
Definition payout_message : Message := example_withdrawal_message.
Definition payout_sent : Config :=
  match sign_withdrawal payout_created (mkBoundWithdrawal nonce1 [10; 11] payout_message) (Ok (mkTransaction [901] payout_message)) 12 with
  | Done (c, _) => c
  | Panic _ => (accepted_state, [])
  end.
Definition payout_in_flight : InFlightWithdrawal := mkInFlightWithdrawal 901 payout_message nonce1 321 12.

Lemma reserved_withdrawal_is_paid_witness :
  exists c, finalize_landed_withdrawal payout_sent payout_in_flight
      (Ok (Some (mkFetched (mkVersionedTransaction [901] (ExecutedLegacy payout_message)) (Some (mkMeta None 10000 [] []))))) 60 =
      Done (c, WithdrawalFinalized) /\
    withdrawal_status c.1 10 = WithdrawalTxSuccess 901.
Proof.
  assert (reserved_batches accepted_state = [example_batch]) as Hres by (vm_compute; reflexivity).
  destruct (reserved_withdrawal_is_paid accepted_state example_accepted accepted_state example_accepted (reserved_batches accepted_state)
    example_batch example_key payout_message 321 9 example_accepted_run example_accepted_sized example_accepted_fit (rtc_refl _ _)
    ltac:(rewrite Hres; left) example_accepted_run) as (c1 & Hc1 & _ & Hsign); [vm_compute; reflexivity..|].
  assert (c1 = payout_created) as -> by (eapply Done_pair_inv; [exact Hc1 | eexists; vm_compute; reflexivity]).
  destruct (Hsign payout_created.1 payout_created.2 payout_created 901 12) as (_ & c2 & Hc2 & Hland).
  { rewrite <- surjective_pairing. apply rtc_refl. }
  { rewrite <- surjective_pairing. apply rtc_refl. }
  { split; [vm_compute; discriminate|]. apply (bool_decide_unpack (NoDup _)). vm_compute. exact I. }
  { apply (bool_decide_unpack (901 ∉ succeeded_transactions payout_created.1)). vm_compute. exact I. }
  { vm_compute. reflexivity. }
  { vm_compute. reflexivity. }
  assert (c2 = payout_sent) as -> by (eapply Done_pair_inv; [exact Hc2 | eexists; vm_compute; reflexivity]).
  destruct (Hland payout_sent.1 payout_sent.2 payout_sent [(payout_sent.1, payout_in_flight, Ok 322)] payout_sent.1 322
    (mkVersionedTransaction [901] (ExecutedLegacy payout_message)) (mkMeta None 10000 [] []) 60) as (_ & _ & c3 & Hc3 & _ & Hst).
  { rewrite <- surjective_pairing. apply rtc_refl. }
  { rewrite <- surjective_pairing. apply rtc_refl. }
  { split; [vm_compute; discriminate|]. apply (bool_decide_unpack (NoDup _)). vm_compute. exact I. }
  { left. }
  { discriminate. }
  { vm_compute. reflexivity. }
  { reflexivity. }
  { reflexivity. }
  exists c3. split; [exact Hc3|]. exact (Hst (example_request 10 1000000) ltac:(left)).
Defined.
