(* ===== verification/CandidEvents.v ===== *)
(** libs/types-internal/src/event.rs, minter/src/state/event/candid and the
    endpoint [get_events] of minter/src/main.rs: events as they are shown to
    clients, how they are read back, and the client of
    minter/tests/replay_events.rs, which fetches the log and replays it. *)
From S2P Require Import Prelude Platform ConcretePlatform Events Sweeps MinterState Replay Memo.

(** ** The public event types *)
Inductive CandidVersionedTransactionMessage : Type := CandidLegacy (message : bytes).
Inductive CandidSigner : Type := CandidMinter | CandidAccount (account : Account).
Record CandidCreditedDeposit := mkCandidCreditedDeposit { ccd_deposit_id : Z; ccd_amount_to_mint : Lamport }.
Inductive CandidTransactionPurpose : Type :=
  | CandidSweepDeposit (deposit_ids : list Z) (block_height : Z)
  | CandidWithdrawal (burn_indices : list Z).

Inductive CandidEventType : Type :=
  | CandidInit (args : InitArgs)
  | CandidUpgrade (args : UpgradeArgs)
  | CandidAcceptedWithdrawalRequest (account : Account) (solana_address : Address) (burn_block_index : Z)
      (burned_amount amount_to_transfer : Lamport)
  | CandidSubmittedTransaction (signature : Signature) (transaction : CandidVersionedTransactionMessage)
      (signers : list CandidSigner) (purpose : CandidTransactionPurpose)
  | CandidSucceededTransaction (signature : Signature)
  | CandidFailedTransaction (signature : Signature)
  | CandidExpiredTransaction (signature : Signature)
  | CandidQueuedDeposit (deposit_id : Z) (account : Account) (address : Address) (balance : Lamport)
      (deposit_fee : option Lamport)
  | CandidCreditedSweep (signature : Signature) (amount_received : Lamport) (mints : list CandidCreditedDeposit)
  | CandidQuarantinedSweep (signature : Signature)
  | CandidMinterPublicKeyFetched (public_key chain_code : bytes)
  | CandidMintedSweptDeposit (deposit_id mint_block_index : Z)
  | CandidQuarantinedPendingMint (deposit_id : Z)
  | CandidCreatedWithdrawalTransaction (burn_indices : list Z) (nonce_account : Address) (nonce_value : Hash).

Record CandidEvent := mkCandidEvent { ce_timestamp : Timestamp; ce_payload : CandidEventType }.
Record GetEventsArgs := mkGetEventsArgs { ge_start : Z; ge_length : Z }.
Record GetEventsResult := mkGetEventsResult { ge_events : list CandidEvent; ge_total_event_count : Z }.

Inductive InvalidCandidEvent : Type :=
  | InvalidMessage (error : string)
  | InvalidPublicKey (error : string)
  | InvalidChainCode (len : Z)
  | DepositBalanceBelowRentExemption (balance : Lamport).

(** The external code of the conversions. A message or a key of the model may
    be no value of the Rust type: serializing such a message is an error, and
    [is_public_key] tells the keys apart. *)
Class EventCodec := {
  (** [bincode::serialize] and [bincode::deserialize] of a [solana_message::Message] *)
  bincode_serialize : Message -> result bytes string;
  bincode_deserialize : bytes -> result Message string;
  (** [ic_ed25519::PublicKey::deserialize_raw] *)
  deserialize_raw : bytes -> result PublicKey string;
  is_public_key : PublicKey -> Prop
}.

(** Deserializing reads back what was serialized. *)
Class EventCodecLaws `{Platform, EventCodec} : Prop := {
  bincode_roundtrip : forall message bs, bincode_serialize message = Ok bs -> bincode_deserialize bs = Ok message;
  public_key_roundtrip : forall key, is_public_key key -> deserialize_raw (be_bytes 32 (serialize_raw key)) = Ok key
}.

Section Conversions.
Context `{Platform, EventCodec}.

(** ** To the public types *)
Definition candid_message (m : VersionedMessage) : outcome CandidVersionedTransactionMessage :=
  let 'Legacy message := m in
  match bincode_serialize message with
  | Ok bs => Done (CandidLegacy bs)
  | Err _ => Panic "serializing transaction should succeed"
  end.

Definition candid_signer (signer : Signer) : CandidSigner :=
  match signer with SignerMinter => CandidMinter | SignerAccount account => CandidAccount account end.

Definition candid_purpose (purpose : TransactionPurpose) : CandidTransactionPurpose :=
  match purpose with
  | PurposeSweepDeposit deposit_ids block_height => CandidSweepDeposit deposit_ids block_height
  | PurposeWithdrawal burn_indices => CandidWithdrawal burn_indices
  end.

Definition candid_credited_deposit (mint : CreditedDeposit) : CandidCreditedDeposit :=
  mkCandidCreditedDeposit (cd_deposit_id mint) (cd_amount_to_mint mint).

Definition candid_event_type (event_type : EventType) : outcome CandidEventType :=
  match event_type with
  | Init args => Done (CandidInit args)
  | Upgrade args => Done (CandidUpgrade args)
  | AcceptedWithdrawalRequest request =>
      Done (CandidAcceptedWithdrawalRequest (wr_account request) (wr_solana_address request) (wr_burn_block_index request)
        (wr_burned_amount request) (wr_amount_to_transfer request))
  | SubmittedTransaction signature message signers purpose =>
      transaction ← candid_message message;
      Done (CandidSubmittedTransaction signature transaction (map candid_signer signers) (candid_purpose purpose))
  | SucceededTransaction signature => Done (CandidSucceededTransaction signature)
  | FailedTransaction signature => Done (CandidFailedTransaction signature)
  | ExpiredTransaction signature => Done (CandidExpiredTransaction signature)
  | QueuedDepositEvent deposit_id account address balance deposit_fee =>
      Done (CandidQueuedDeposit deposit_id account address (balance_lamports balance) deposit_fee)
  | CreditedSweep signature amount_received mints =>
      Done (CandidCreditedSweep signature amount_received (map candid_credited_deposit mints))
  | QuarantinedSweep signature => Done (CandidQuarantinedSweep signature)
  | MinterPublicKeyFetched public_key chain_code =>
      Done (CandidMinterPublicKeyFetched (be_bytes 32 (serialize_raw public_key)) chain_code)
  | MintedSweptDeposit deposit_id mint_block_index => Done (CandidMintedSweptDeposit deposit_id mint_block_index)
  | QuarantinedPendingMint deposit_id => Done (CandidQuarantinedPendingMint deposit_id)
  | CreatedWithdrawalTransactionEvent burn_indices nonce_account nonce_value =>
      Done (CandidCreatedWithdrawalTransaction burn_indices nonce_account nonce_value)
  end.

Definition candid_event (event : Event) : outcome CandidEvent :=
  payload ← candid_event_type (ev_payload event);
  Done (mkCandidEvent (ev_timestamp event) payload).

(** ** Back to events *)
Definition message_try_from (message : CandidVersionedTransactionMessage) : result VersionedMessage InvalidCandidEvent :=
  let 'CandidLegacy bs := message in
  match bincode_deserialize bs with Ok message => Ok (Legacy message) | Err e => Err (InvalidMessage e) end.

Definition signer_from (signer : CandidSigner) : Signer :=
  match signer with CandidMinter => SignerMinter | CandidAccount account => SignerAccount account end.

Definition purpose_from (purpose : CandidTransactionPurpose) : TransactionPurpose :=
  match purpose with
  | CandidSweepDeposit deposit_ids block_height => PurposeSweepDeposit deposit_ids block_height
  | CandidWithdrawal burn_indices => PurposeWithdrawal burn_indices
  end.

Definition credited_deposit_from (mint : CandidCreditedDeposit) : CreditedDeposit :=
  mkCreditedDeposit (ccd_deposit_id mint) (ccd_amount_to_mint mint).

Definition chain_code_try_from (chain_code : bytes) : result bytes InvalidCandidEvent :=
  if (length chain_code =? 32)%nat then Ok chain_code else Err (InvalidChainCode (Z.of_nat (length chain_code))).

Definition event_type_try_from (event_type : CandidEventType) : result EventType InvalidCandidEvent :=
  match event_type with
  | CandidInit args => Ok (Init args)
  | CandidUpgrade args => Ok (Upgrade args)
  | CandidAcceptedWithdrawalRequest account solana_address burn_block_index burned_amount amount_to_transfer =>
      Ok (AcceptedWithdrawalRequest
        (mkWithdrawalRequest account solana_address burn_block_index burned_amount amount_to_transfer))
  | CandidSubmittedTransaction signature transaction signers purpose =>
      result_bind (message_try_from transaction) (fun message =>
      Ok (SubmittedTransaction signature message (map signer_from signers) (purpose_from purpose)))
  | CandidSucceededTransaction signature => Ok (SucceededTransaction signature)
  | CandidFailedTransaction signature => Ok (FailedTransaction signature)
  | CandidExpiredTransaction signature => Ok (ExpiredTransaction signature)
  | CandidQueuedDeposit deposit_id account address balance deposit_fee =>
      result_bind (ok_or (DepositBalance_new balance) (DepositBalanceBelowRentExemption balance)) (fun balance =>
      Ok (QueuedDepositEvent deposit_id account address balance deposit_fee))
  | CandidCreditedSweep signature amount_received mints =>
      Ok (CreditedSweep signature amount_received (map credited_deposit_from mints))
  | CandidQuarantinedSweep signature => Ok (QuarantinedSweep signature)
  | CandidMinterPublicKeyFetched public_key chain_code =>
      result_bind (map_err InvalidPublicKey (deserialize_raw public_key)) (fun public_key =>
      result_bind (chain_code_try_from chain_code) (fun chain_code =>
      Ok (MinterPublicKeyFetched public_key chain_code)))
  | CandidMintedSweptDeposit deposit_id mint_block_index => Ok (MintedSweptDeposit deposit_id mint_block_index)
  | CandidQuarantinedPendingMint deposit_id => Ok (QuarantinedPendingMint deposit_id)
  | CandidCreatedWithdrawalTransaction burn_indices nonce_account nonce_value =>
      Ok (CreatedWithdrawalTransactionEvent burn_indices nonce_account nonce_value)
  end.

Definition event_try_from (event : CandidEvent) : result Event InvalidCandidEvent :=
  result_bind (event_type_try_from (ce_payload event)) (fun payload => Ok (mkEvent (ce_timestamp event) payload)).

(** ** The endpoint and its client *)
Definition MAX_EVENTS_PER_RESPONSE : Z := 2000.

(** [as usize] on wasm32. *)
Definition as_usize (z : Z) : nat := Z.to_nat (z mod (u32_max + 1)).

Definition get_events (log : list Event) (args : GetEventsArgs) : outcome GetEventsResult :=
  events ← traverse candid_event
    (take (as_usize (Z.min (ge_length args) MAX_EVENTS_PER_RESPONSE)) (drop (as_usize (ge_start args)) log));
  Done (mkGetEventsResult events (Z.of_nat (length log))).

(** The loop of [retrieve_all_events]; [None] when the fuel ends first. *)
Fixpoint retrieve_all_events (fuel : nat) (log : list Event) (events : list CandidEvent)
    : outcome (option GetEventsResult) :=
  match fuel with
  | O => Done None
  | S fuel =>
      batch ← get_events log (mkGetEventsArgs (Z.of_nat (length events)) MAX_EVENTS_PER_RESPONSE);
      let events := events ++ ge_events batch in
      if ge_total_event_count batch <=? Z.of_nat (length events)
      then Done (Some (mkGetEventsResult events (ge_total_event_count batch)))
      else retrieve_all_events fuel log events
  end.

Definition replay_exported_events (exported : GetEventsResult) : outcome State :=
  assert_ (Z.of_nat (length (ge_events exported)) =? ge_total_event_count exported) "all events are retrieved";;
  events ← traverse (fun event =>
    match event_try_from event with Ok event => Done event | Err _ => Panic "Failed to convert event" end)
    (ge_events exported);
  replay_events events.

(** ** Lemmas *)

(** What the Rust types guarantee of an event and the model does not. *)
Definition event_encodable (event : Event) : Prop :=
  match ev_payload event with
  | SubmittedTransaction _ (Legacy message) _ _ => exists bs, bincode_serialize message = Ok bs
  | MinterPublicKeyFetched public_key chain_code => is_public_key public_key /\ length chain_code = 32%nat
  | _ => True
  end.

Lemma map_inverse {A B} (f : A -> B) (g : B -> A) l : (forall a, g (f a) = a) -> map g (map f l) = l.
Proof. intros Hgf. rewrite map_map. rewrite <- (map_id l) at 2. by apply map_ext. Qed.

Lemma candid_event_roundtrip `{!EventCodecLaws} event :
  event_encodable event -> exists ce, candid_event event = Done ce /\ event_try_from ce = Ok event.
Proof.
  destruct event as [t ev]. unfold event_encodable, candid_event, event_try_from. cbn [ev_payload ev_timestamp]. intros Henc.
  destruct ev as [| | [] | sig [message] signers purpose | | | | id account address balance fee | sig received ms | | key cc | | |];
    cbn [candid_event_type candid_message mbind outcome_bind]; try (eexists; split; [reflexivity|]; cbn; reflexivity).
  - destruct Henc as [bs Hbs]. rewrite Hbs. eexists. split; [reflexivity|]. cbn. rewrite (bincode_roundtrip _ _ Hbs).
    cbn. rewrite map_inverse by (by intros []). by destruct purpose.
  - eexists. split; [reflexivity|]. cbn.
    rewrite (proj2 (DepositBalance_new_Some _ balance) (conj eq_refl (balance_range balance))). done.
  - eexists. split; [reflexivity|]. cbn. by rewrite map_inverse by (by intros []).
  - destruct Henc as [Hkey Hcc]. eexists. split; [reflexivity|].
    cbn [ce_payload ce_timestamp event_type_try_from]. rewrite (public_key_roundtrip _ Hkey). cbn.
    unfold chain_code_try_from. by rewrite Hcc.
Qed.

(** The events of the log, read and read back. *)
Lemma traverse_candid `{!EventCodecLaws} log :
  Forall event_encodable log ->
  exists ces, traverse candid_event log = Done ces /\ length ces = length log /\
    traverse (fun event => match event_try_from event with Ok event => Done event | Err _ => Panic "Failed to convert event" end) ces
      = Done log.
Proof.
  induction 1 as [|event log Henc _ (ces & Hces & Hlen & Hback)]; [by exists []|].
  destruct (candid_event_roundtrip event Henc) as (ce & Hce & Hev). exists (ce :: ces). cbn.
  rewrite Hce, Hces, Hev. cbn. rewrite Hback. cbn. by rewrite Hlen.
Qed.

Lemma traverse_app {A B} (f : A -> outcome B) l1 l2 r1 r2 :
  traverse f l1 = Done r1 -> traverse f l2 = Done r2 -> traverse f (l1 ++ l2) = Done (r1 ++ r2).
Proof.
  revert r1. induction l1 as [|x l1 IH]; intros r1 H1 H2; cbn in *; [by apply Done_inv in H1; subst|].
  apply bind_Done in H1 as (y & Hy & H1). apply bind_Done in H1 as (ys & Hys & H1). apply Done_inv in H1. subst r1.
  rewrite Hy. cbn. by rewrite (IH ys Hys H2).
Qed.

Lemma as_usize_small z : 0 <= z <= u32_max -> as_usize z = Z.to_nat z.
Proof. intros Hz. unfold as_usize. by rewrite Z.mod_small by (unfold u32_max in *; lia). Qed.

(** After the events before [n] were retrieved, the loop retrieves the rest. *)
Lemma retrieve_from `{!EventCodecLaws} log fuel : forall n events,
  Forall event_encodable log -> Z.of_nat (length log) <= u32_max -> (n <= length log)%nat ->
  traverse candid_event (take n log) = Done events -> length events = n ->
  (length log - n < 2000 * fuel)%nat ->
  exists all, traverse candid_event log = Done all /\
    retrieve_all_events fuel log events = Done (Some (mkGetEventsResult all (Z.of_nat (length log)))).
Proof.
  induction fuel as [|fuel IH]; intros n events Henc Hlen Hn Hev Hl Hfuel; [lia|].
  set (batch := take 2000 (drop n log)).
  assert (take n log ++ batch = take (n + 2000) log) as Happ by apply take_take_drop.
  assert (Forall event_encodable batch) as Hb by (apply Forall_take, Forall_drop, Henc).
  destruct (traverse_candid batch Hb) as (ces & Hces & Hclen & _).
  pose proof (traverse_app _ _ _ _ _ Hev Hces) as Hall. rewrite Happ in Hall.
  assert (length (events ++ ces) = Nat.min (n + 2000) (length log)) as Hlen'.
  { rewrite length_app, Hl, Hclen. unfold batch. rewrite length_take, length_drop. lia. }
  cbn [retrieve_all_events]. unfold get_events. cbn [ge_start ge_length].
  rewrite Z.min_id, Hl. rewrite !as_usize_small by (unfold MAX_EVENTS_PER_RESPONSE, u32_max in *; lia).
  rewrite Nat2Z.id. change (Z.to_nat MAX_EVENTS_PER_RESPONSE) with 2000%nat. fold batch. rewrite Hces.
  cbn [mbind outcome_bind ge_events ge_total_event_count]. rewrite Hlen'.
  destruct (Z.leb_spec (Z.of_nat (length log)) (Z.of_nat (Nat.min (n + 2000) (length log)))) as [Hle|Hgt].
  - exists (events ++ ces). rewrite take_ge in Hall by lia. done.
  - apply (IH (n + 2000)%nat); [done | done | lia | done | lia | lia].
Qed.
End Conversions.

(** ** Properties *)

(** Messages are numbered by their binary code, keys are their 32 bytes. *)
#[export] Instance Message_countable : Countable Message.
Proof.
  refine (inj_countable' (fun m => (num_required_signatures (msg_header m), num_readonly_signed_accounts (msg_header m),
      num_readonly_unsigned_accounts (msg_header m), msg_account_keys m, msg_recent_blockhash m,
      map (fun i => (ci_program_id_index i, ci_accounts i, ci_data i)) (msg_instructions m)))
    (fun p => let '(a, b, c, keys, hash, instrs) := p in
      mkMessage (mkMessageHeader a b c) keys hash (map (fun i => mkCompiledInstruction i.1.1 i.1.2 i.2) instrs)) _).
  intros [[] ? ? instrs]. cbn. f_equal. apply map_inverse. by intros [].
Defined.

#[export] Instance concrete_codec : EventCodec := {|
  bincode_serialize message := Ok [Z.pos (encode message)];
  bincode_deserialize bs :=
    match bs with
    | [Z.pos p] => match decode p with Some message => Ok message | None => Err "invalid message" end
    | _ => Err "invalid length"
    end;
  deserialize_raw bs := if (length bs =? 32)%nat then Ok (be_value bs) else Err "invalid length";
  is_public_key key := 0 <= key < 256 ^ 32
|}.

#[export] Instance concrete_codec_laws : EventCodecLaws.
Proof.
  split.
  - intros message bs [= <-]. cbn. by rewrite decode_encode.
  - intros key Hkey. cbn -[be_bytes be_value]. rewrite be_bytes_length. cbn -[be_bytes be_value].
    by rewrite (be_value_bytes 32).
Qed.

(** The events of the example with a chain code of 32 bytes. *)
Definition exported_log : list Event :=
  map (fun event => match ev_payload event with
    | MinterPublicKeyFetched key _ => mkEvent (ev_timestamp event) (MinterPublicKeyFetched key (repeat 0 32))
    | _ => event
    end) example_log.
Definition exported_state : State := match replay_events exported_log with Done s => s | Panic _ => example_state end.

(** C24: the log can be taken out of the canister and replayed elsewhere. A
    client that pages through [get_events] terminates with all events of the
    log; each of them is converted back to the event that was recorded, and
    replaying them rebuilds the state of the minter up to transient data. *)
Theorem exported_events_replay `{!Platform, !EventCodec, !EventCodecLaws} s log fuel :
  minter_run (s, log) -> Forall event_encodable log -> Z.of_nat (length log) <= u32_max ->
  (length log < 2000 * fuel)%nat ->
  exists exported, retrieve_all_events fuel log [] = Done (Some exported) /\
    ge_total_event_count exported = Z.of_nat (length log) /\
    Forall2 (fun ce event => event_try_from ce = Ok event) (ge_events exported) log /\
    replay_exported_events exported = Done (erase s).
Proof.
  intros Hrun Henc Hlen Hfuel.
  destruct (retrieve_from log fuel 0 [] Henc Hlen ltac:(lia) eq_refl eq_refl ltac:(lia)) as (all & Hall & Hret).
  destruct (traverse_candid log Henc) as (ces & Hces & Hclen & Hback). rewrite Hall in Hces. apply Done_inv in Hces. subst ces.
  eexists. split; [exact Hret|]. cbn [ge_events ge_total_event_count]. split_and!; [done| |].
  - clear -Hback. revert log Hback. induction all as [|ce all IH]; intros log Hback; cbn in Hback.
    + apply Done_inv in Hback. subst. constructor.
    + apply bind_Done in Hback as (ev & Hev & Hback). apply bind_Done in Hback as (evs & Hevs & Hback).
      apply Done_inv in Hback. subst. constructor; [|by apply IH]. destruct (event_try_from ce); [|done]. by apply Done_inv in Hev as ->.
  - unfold replay_exported_events. cbn [ge_events ge_total_event_count]. rewrite Hclen, Z.eqb_refl. cbn [assert_ mbind outcome_bind].
    rewrite Hback. cbn [mbind outcome_bind]. exact (minter_run_replay (s, log) Hrun).
Qed.

Lemma exported_events_replay_witness :
  exists exported, retrieve_all_events 1 exported_log [] = Done (Some exported) /\
    replay_exported_events exported = Done (erase exported_state).
Proof.
  assert (replay_events exported_log = Done exported_state) as Hr by (vm_compute; reflexivity).
  destruct (exported_events_replay exported_state exported_log 1) as (exported & Hret & _ & _ & Hrep).
  - apply replay_run. exact Hr.
  - repeat (apply Forall_cons; split; [first [exact I | eexists; reflexivity | split; [cbn; lia | reflexivity]]|]). apply Forall_nil. exact I.
  - vm_compute. intros [=].
  - apply Nat.ltb_lt. vm_compute. reflexivity.
  - exists exported. split; [exact Hret | exact Hrep].
Defined.

(** A start index of 2^32 or more is truncated to 32 bits, so that the
    endpoint answers with events from the beginning of the log. *)
Example get_events_truncates_start :
  get_events exported_log (mkGetEventsArgs (u32_max + 1) 1) = get_events exported_log (mkGetEventsArgs 0 1).
Proof. reflexivity. Qed.
