(* ===== verification/StableEncoding.v ===== *)
(** The encoding of the event log in stable memory: the [minicbor] attributes
    of minter/src/state/event.rs and libs/types-internal/src/lib.rs, the codecs
    of minter/src/state/event/cbor, the [Storable] instance of events, and the
    log of minter/src/storage as the bytes it consists of. *)
From S2P Require Import Prelude Platform ConcretePlatform Events Sweeps MinterState Replay Memo CandidEvents.

(** ** CBOR data items *)
Inductive Cbor : Type :=
  | CUint (n : Z)
  | CBytes (bs : bytes)
  | CText (s : string)
  | CNull
  | CArray (items : list Cbor).

(** The code of the libraries. [derive_fields] are the elements a derived
    encoder writes for the fields of a struct or variant, given what each
    field is encoded to; accounts and principals have codecs of their own. A
    data item of the model may be no data item of the format (a number beyond
    64 bits): writing it is an error. *)
Class CborCodec := {
  derive_fields : list Cbor -> list Cbor;
  cbor_encode : Cbor -> option bytes;
  cbor_decode : bytes -> option Cbor;
  encode_account : Account -> Cbor;
  decode_account : Cbor -> option Account;
  encode_principal : Principal -> Cbor;
  decode_principal : Cbor -> option Principal
}.

(** A derived encoder writes the fields in the order of their indices and may
    leave out absent ones at the end; the codecs read back what they write,
    and none of them writes null. *)
Class CborCodecLaws `{CborCodec} : Prop := {
  derive_fields_prefix : forall fields, exists k, derive_fields fields = take k fields /\ Forall (eq CNull) (drop k fields);
  cbor_roundtrip : forall item bs, cbor_encode item = Some bs -> cbor_decode bs = Some item;
  account_roundtrip : forall account, decode_account (encode_account account) = Some account;
  principal_roundtrip : forall principal, decode_principal (encode_principal principal) = Some principal;
  principal_not_null : forall principal, encode_principal principal <> CNull
}.

(** ** Derived codecs *)
Section Derived.
Context `{CborCodec}.

Definition cbor_struct (fields : list Cbor) : Cbor := CArray (derive_fields fields).
Definition cbor_enum (index : Z) (fields : list Cbor) : Cbor := CArray [CUint index; CArray (derive_fields fields)].

(** The field of an index, absent when the array is shorter. *)
Definition field (items : list Cbor) (i : nat) : Cbor := default CNull (items !! i).

Definition decode_struct {A} (item : Cbor) (read : (nat -> Cbor) -> option A) : option A :=
  match item with CArray items => read (field items) | _ => None end.
Definition decode_enum {A} (item : Cbor) (read : Z -> (nat -> Cbor) -> option A) : option A :=
  match item with CArray [CUint index; CArray items] => read index (field items) | _ => None end.

(** [d.u64()], [d.bytes()], [d.str()] *)
Definition decode_uint (item : Cbor) : option Z := match item with CUint n => Some n | _ => None end.
Definition decode_bytes (item : Cbor) : option bytes := match item with CBytes bs => Some bs | _ => None end.
Definition decode_text (item : Cbor) : option string := match item with CText s => Some s | _ => None end.

Definition encode_option {A} (encode : A -> Cbor) (o : option A) : Cbor := match o with Some a => encode a | None => CNull end.
Definition decode_option {A} (decode : Cbor -> option A) (item : Cbor) : option (option A) :=
  match item with CNull => Some None | _ => a ← decode item; Some (Some a) end.

Definition encode_vec {A} (encode : A -> Cbor) (l : list A) : Cbor := CArray (map encode l).
Definition decode_vec {A} (decode : Cbor -> option A) (item : Cbor) : option (list A) :=
  match item with CArray items => mapM decode items | _ => None end.

(** ** The codecs of the module [cbor] *)

(** An array of [n] bytes. *)
Definition decode_array (n : nat) (item : Cbor) : option bytes :=
  bs ← decode_bytes item; if (length bs =? n)%nat then Some bs else None.

Definition encode_id (v : Z) : Cbor := CUint v.
Definition decode_id (item : Cbor) : option Z := decode_uint item.

Definition encode_signature (v : Signature) : Cbor := CBytes (be_bytes 64 v).
Definition decode_signature (item : Cbor) : option Signature := bs ← decode_array 64 item; Some (be_value bs).

Definition encode_address (v : Address) : Cbor := CBytes (be_bytes 32 v).
Definition decode_address (item : Cbor) : option Address := bs ← decode_array 32 item; Some (be_value bs).

Definition encode_hash (v : Hash) : Cbor := CBytes (be_bytes 32 v).
Definition decode_hash (item : Cbor) : option Hash := bs ← decode_array 32 item; Some (be_value bs).

Definition encode_deposit_balance (v : DepositBalance) : Cbor := CUint (balance_lamports v).
Definition decode_deposit_balance (item : Cbor) : option DepositBalance := balance ← decode_uint item; DepositBalance_new balance.

Definition encode_id_vec (v : list Z) : Cbor := CArray (map CUint v).
Definition decode_id_vec (item : Cbor) : option (list Z) :=
  match item with CArray items => mapM decode_uint items | _ => None end.

(** ** Arguments *)
Definition key_name_index (name : Ed25519KeyName) : Z :=
  match name with LocalDevelopment => 0 | MainnetTestKey1 => 1 | MainnetProdKey1 => 2 end.
Definition encode_key_name (name : Ed25519KeyName) : Cbor := cbor_enum (key_name_index name) [].
Definition decode_key_name (item : Cbor) : option Ed25519KeyName :=
  decode_enum item (fun index _ =>
    if index =? 0 then Some LocalDevelopment else if index =? 1 then Some MainnetTestKey1
    else if index =? 2 then Some MainnetProdKey1 else None).

Definition network_index (network : SolanaNetwork) : Z := match network with Mainnet => 0 | Devnet => 1 | Testnet => 2 end.
Definition encode_network (network : SolanaNetwork) : Cbor := cbor_enum (network_index network) [].
Definition decode_network (item : Cbor) : option SolanaNetwork :=
  decode_enum item (fun index _ =>
    if index =? 0 then Some Mainnet else if index =? 1 then Some Devnet else if index =? 2 then Some Testnet else None).

Definition encode_init_args (args : InitArgs) : Cbor :=
  cbor_struct [encode_principal (ia_sol_rpc_canister_id args); encode_principal (ia_ledger_canister_id args);
    encode_key_name (ia_master_key_name args); CUint (ia_minimum_withdrawal_amount args); CUint (ia_minimum_deposit_amount args);
    CUint (ia_withdrawal_fee args); CUint (ia_deposit_sol_required_cycles args); encode_network (ia_solana_network args);
    CUint (ia_deposit_sol_fee args); encode_vec CText (ia_nonce_accounts args); encode_option CUint (ia_automatic_deposit_fee args)].

Definition decode_init_args (item : Cbor) : option InitArgs :=
  decode_struct item (fun f =>
    sol_rpc_canister_id ← decode_principal (f 0%nat);
    ledger_canister_id ← decode_principal (f 1%nat);
    master_key_name ← decode_key_name (f 2%nat);
    minimum_withdrawal_amount ← decode_uint (f 3%nat);
    minimum_deposit_amount ← decode_uint (f 4%nat);
    withdrawal_fee ← decode_uint (f 5%nat);
    deposit_sol_required_cycles ← decode_uint (f 6%nat);
    solana_network ← decode_network (f 7%nat);
    deposit_sol_fee ← decode_uint (f 8%nat);
    nonce_accounts ← decode_vec decode_text (f 9%nat);
    automatic_deposit_fee ← decode_option decode_uint (f 10%nat);
    Some (mkInitArgs sol_rpc_canister_id ledger_canister_id master_key_name minimum_withdrawal_amount minimum_deposit_amount
      withdrawal_fee deposit_sol_required_cycles solana_network deposit_sol_fee nonce_accounts automatic_deposit_fee)).

Definition encode_upgrade_args (args : UpgradeArgs) : Cbor :=
  cbor_struct [encode_option encode_principal (ua_sol_rpc_canister_id args); encode_option CUint (ua_minimum_withdrawal_amount args);
    encode_option CUint (ua_minimum_deposit_amount args); encode_option CUint (ua_withdrawal_fee args);
    encode_option CUint (ua_deposit_sol_required_cycles args); encode_option CUint (ua_deposit_sol_fee args);
    encode_option (encode_vec CText) (ua_nonce_accounts_to_add args); encode_option CUint (ua_automatic_deposit_fee args)].

Definition decode_upgrade_args (item : Cbor) : option UpgradeArgs :=
  decode_struct item (fun f =>
    sol_rpc_canister_id ← decode_option decode_principal (f 0%nat);
    minimum_withdrawal_amount ← decode_option decode_uint (f 1%nat);
    minimum_deposit_amount ← decode_option decode_uint (f 2%nat);
    withdrawal_fee ← decode_option decode_uint (f 3%nat);
    deposit_sol_required_cycles ← decode_option decode_uint (f 4%nat);
    deposit_sol_fee ← decode_option decode_uint (f 5%nat);
    nonce_accounts_to_add ← decode_option (decode_vec decode_text) (f 6%nat);
    automatic_deposit_fee ← decode_option decode_uint (f 7%nat);
    Some (mkUpgradeArgs sol_rpc_canister_id minimum_withdrawal_amount minimum_deposit_amount withdrawal_fee
      deposit_sol_required_cycles deposit_sol_fee nonce_accounts_to_add automatic_deposit_fee)).
End Derived.

(** ** Events *)
Section Events.
Context `{Platform, EventCodec, CborCodec}.

(** Encoding a message is the only step that can fail. *)
Definition encode_message (message : Message) : option Cbor :=
  match bincode_serialize message with Ok bs => Some (CBytes bs) | Err _ => None end.
Definition decode_message (item : Cbor) : option Message :=
  bs ← decode_bytes item;
  match bincode_deserialize bs with Ok message => Some message | Err _ => None end.

Definition encode_public_key (v : PublicKey) : Cbor := CBytes (be_bytes 32 (serialize_raw v)).
Definition decode_public_key (item : Cbor) : option PublicKey :=
  bs ← decode_bytes item;
  match deserialize_raw bs with Ok key => Some key | Err _ => None end.

Definition encode_versioned_message (m : VersionedMessage) : option Cbor :=
  let 'Legacy message := m in
  item ← encode_message message; Some (cbor_enum 0 [item]).
Definition decode_versioned_message (item : Cbor) : option VersionedMessage :=
  decode_enum item (fun index f =>
    if index =? 0 then message ← decode_message (f 0%nat); Some (Legacy message) else None).

Definition encode_signer (signer : Signer) : Cbor :=
  match signer with SignerMinter => cbor_enum 0 [] | SignerAccount account => cbor_enum 1 [encode_account account] end.
Definition decode_signer (item : Cbor) : option Signer :=
  decode_enum item (fun index f =>
    if index =? 0 then Some SignerMinter
    else if index =? 1 then account ← decode_account (f 0%nat); Some (SignerAccount account)
    else None).

Definition encode_purpose (purpose : TransactionPurpose) : Cbor :=
  match purpose with
  | PurposeSweepDeposit deposit_ids block_height => cbor_enum 2 [encode_vec CUint deposit_ids; CUint block_height]
  | PurposeWithdrawal burn_indices => cbor_enum 4 [encode_id_vec burn_indices]
  end.
Definition decode_purpose (item : Cbor) : option TransactionPurpose :=
  decode_enum item (fun index f =>
    if index =? 2 then
      deposit_ids ← decode_vec decode_uint (f 0%nat);
      block_height ← decode_uint (f 1%nat);
      Some (PurposeSweepDeposit deposit_ids block_height)
    else if index =? 4 then burn_indices ← decode_id_vec (f 0%nat); Some (PurposeWithdrawal burn_indices)
    else None).

Definition encode_credited_deposit (mint : CreditedDeposit) : Cbor :=
  cbor_struct [CUint (cd_deposit_id mint); CUint (cd_amount_to_mint mint)].
Definition decode_credited_deposit (item : Cbor) : option CreditedDeposit :=
  decode_struct item (fun f =>
    deposit_id ← decode_uint (f 0%nat);
    amount_to_mint ← decode_uint (f 1%nat);
    Some (mkCreditedDeposit deposit_id amount_to_mint)).

Definition encode_withdrawal_request (request : WithdrawalRequest) : Cbor :=
  cbor_struct [encode_account (wr_account request); CBytes (be_bytes 32 (wr_solana_address request));
    encode_id (wr_burn_block_index request); CUint (wr_burned_amount request); CUint (wr_amount_to_transfer request)].
Definition decode_withdrawal_request (item : Cbor) : option WithdrawalRequest :=
  decode_struct item (fun f =>
    account ← decode_account (f 0%nat);
    solana_address ← decode_array 32 (f 1%nat);
    burn_block_index ← decode_id (f 2%nat);
    burned_amount ← decode_uint (f 3%nat);
    amount_to_transfer ← decode_uint (f 4%nat);
    Some (mkWithdrawalRequest account (be_value solana_address) burn_block_index burned_amount amount_to_transfer)).

Definition encode_event_type (event_type : EventType) : option Cbor :=
  match event_type with
  | Init args => Some (cbor_enum 0 [encode_init_args args])
  | Upgrade args => Some (cbor_enum 1 [encode_upgrade_args args])
  | AcceptedWithdrawalRequest request => Some (cbor_enum 2 [encode_withdrawal_request request])
  | SubmittedTransaction signature message signers purpose =>
      message ← encode_versioned_message message;
      Some (cbor_enum 3 [encode_signature signature; message; encode_vec encode_signer signers; encode_purpose purpose])
  | SucceededTransaction signature => Some (cbor_enum 5 [encode_signature signature])
  | FailedTransaction signature => Some (cbor_enum 6 [encode_signature signature])
  | ExpiredTransaction signature => Some (cbor_enum 7 [encode_signature signature])
  | QueuedDepositEvent deposit_id account address balance deposit_fee =>
      Some (cbor_enum 8 [CUint deposit_id; encode_account account; encode_address address; encode_deposit_balance balance;
        encode_option CUint deposit_fee])
  | CreditedSweep signature amount_received mints =>
      Some (cbor_enum 9 [encode_signature signature; CUint amount_received; encode_vec encode_credited_deposit mints])
  | QuarantinedSweep signature => Some (cbor_enum 10 [encode_signature signature])
  | MinterPublicKeyFetched public_key chain_code => Some (cbor_enum 11 [encode_public_key public_key; CBytes chain_code])
  | MintedSweptDeposit deposit_id mint_block_index => Some (cbor_enum 12 [CUint deposit_id; encode_id mint_block_index])
  | QuarantinedPendingMint deposit_id => Some (cbor_enum 13 [CUint deposit_id])
  | CreatedWithdrawalTransactionEvent burn_indices nonce_account nonce_value =>
      Some (cbor_enum 14 [encode_id_vec burn_indices; encode_address nonce_account; encode_hash nonce_value])
  end.

Definition decode_event_fields (index : Z) (f : nat -> Cbor) : option EventType :=
  if index =? 0 then args ← decode_init_args (f 0%nat); Some (Init args)
  else if index =? 1 then args ← decode_upgrade_args (f 0%nat); Some (Upgrade args)
  else if index =? 2 then request ← decode_withdrawal_request (f 0%nat); Some (AcceptedWithdrawalRequest request)
  else if index =? 3 then
    signature ← decode_signature (f 0%nat);
    message ← decode_versioned_message (f 1%nat);
    signers ← decode_vec decode_signer (f 2%nat);
    purpose ← decode_purpose (f 3%nat);
    Some (SubmittedTransaction signature message signers purpose)
  else if index =? 5 then signature ← decode_signature (f 0%nat); Some (SucceededTransaction signature)
  else if index =? 6 then signature ← decode_signature (f 0%nat); Some (FailedTransaction signature)
  else if index =? 7 then signature ← decode_signature (f 0%nat); Some (ExpiredTransaction signature)
  else if index =? 8 then
    deposit_id ← decode_uint (f 0%nat);
    account ← decode_account (f 1%nat);
    address ← decode_address (f 2%nat);
    balance ← decode_deposit_balance (f 3%nat);
    deposit_fee ← decode_option decode_uint (f 4%nat);
    Some (QueuedDepositEvent deposit_id account address balance deposit_fee)
  else if index =? 9 then
    signature ← decode_signature (f 0%nat);
    amount_received ← decode_uint (f 1%nat);
    mints ← decode_vec decode_credited_deposit (f 2%nat);
    Some (CreditedSweep signature amount_received mints)
  else if index =? 10 then signature ← decode_signature (f 0%nat); Some (QuarantinedSweep signature)
  else if index =? 11 then
    public_key ← decode_public_key (f 0%nat);
    chain_code ← decode_array 32 (f 1%nat);
    Some (MinterPublicKeyFetched public_key chain_code)
  else if index =? 12 then
    deposit_id ← decode_uint (f 0%nat);
    mint_block_index ← decode_id (f 1%nat);
    Some (MintedSweptDeposit deposit_id mint_block_index)
  else if index =? 13 then deposit_id ← decode_uint (f 0%nat); Some (QuarantinedPendingMint deposit_id)
  else if index =? 14 then
    burn_indices ← decode_id_vec (f 0%nat);
    nonce_account ← decode_address (f 1%nat);
    nonce_value ← decode_hash (f 2%nat);
    Some (CreatedWithdrawalTransactionEvent burn_indices nonce_account nonce_value)
  else None.

Definition decode_event_type (item : Cbor) : option EventType := decode_enum item decode_event_fields.

Definition encode_event (event : Event) : option Cbor :=
  payload ← encode_event_type (ev_payload event);
  Some (cbor_struct [CUint (ev_timestamp event); payload]).
Definition decode_event (item : Cbor) : option Event :=
  decode_struct item (fun f =>
    timestamp ← decode_uint (f 0%nat);
    payload ← decode_event_type (f 1%nat);
    Some (mkEvent timestamp payload)).

(** ** Stable memory *)

(** [Storable::to_bytes] and [from_bytes] *)
Definition event_to_bytes (event : Event) : outcome bytes :=
  expect (item ← encode_event event; cbor_encode item) "event encoding should always succeed".
Definition event_from_bytes (bs : bytes) : outcome Event :=
  expect (item ← cbor_decode bs; decode_event item) "failed to decode event bytes".

(** [storage::record_event] and [with_event_iter] on the stored bytes. *)
Definition append_event (stored : list bytes) (event : Event) : outcome (list bytes) :=
  bs ← event_to_bytes event; Done (stored ++ [bs]).
Definition stored_events (stored : list bytes) : outcome (list Event) := traverse event_from_bytes stored.

(** [process_event] and [post_upgrade] on the log in stable memory. *)
Definition process_event_stored (s : State) (stored : list bytes) (payload : EventType) (now : Timestamp)
    : outcome (State * list bytes) :=
  s ← apply_state_transition s payload now;
  stored ← append_event stored (mkEvent now payload);
  Done (s, stored).
Definition post_upgrade_stored (stored : list bytes) (args : option UpgradeArgs) (now : Timestamp) : outcome (State * list bytes) :=
  log ← stored_events stored;
  s ← replay_events log;
  match args with
  | Some args => process_event_stored s stored (Upgrade args) now
  | None => Done (s, stored)
  end.
End Events.

(** ** Lemmas *)

(** The values of the arrays of [n] bytes. *)
Definition is_array (n : nat) (v : Z) : Prop := 0 <= v < 256 ^ Z.of_nat n.

(** What the Rust types guarantee of an event and the model does not. *)
Definition event_type_wf `{EventCodec} (event_type : EventType) : Prop :=
  match event_type with
  | AcceptedWithdrawalRequest request => is_array 32 (wr_solana_address request)
  | SubmittedTransaction signature _ _ _ | SucceededTransaction signature | FailedTransaction signature
  | ExpiredTransaction signature | CreditedSweep signature _ _ | QuarantinedSweep signature => is_array 64 signature
  | QueuedDepositEvent _ _ address _ _ => is_array 32 address
  | MinterPublicKeyFetched public_key chain_code => is_public_key public_key /\ length chain_code = 32%nat
  | CreatedWithdrawalTransactionEvent _ nonce_account nonce_value => is_array 32 nonce_account /\ is_array 32 nonce_value
  | _ => True
  end.

Lemma mapM_map_inverse {A B} (f : A -> B) (g : B -> option A) l : (forall a, g (f a) = Some a) -> mapM g (map f l) = Some l.
Proof.
  intros Hgf. induction l as [|a l IH]; [done|].
  change (mapM g (map f (a :: l))) with (y ← g (f a); k ← mapM g (map f l); Some (y :: k)). by rewrite Hgf, IH.
Qed.

Lemma decode_array_bytes n v : decode_array n (CBytes (be_bytes n v)) = Some (be_bytes n v).
Proof. unfold decode_array. cbn [decode_bytes mbind option_bind]. by rewrite be_bytes_length, Nat.eqb_refl. Qed.

Lemma be_value_array n v : is_array n v -> be_value (be_bytes n v) = v.
Proof. apply be_value_bytes. Qed.

Lemma decode_option_encoded {A} (encode : A -> Cbor) (decode : Cbor -> option A) o :
  (forall a, decode (encode a) = Some a) -> (forall a, encode a <> CNull) -> decode_option decode (encode_option encode o) = Some o.
Proof.
  intros Hdec Hnull. destruct o as [a|]; [|done]. specialize (Hdec a). specialize (Hnull a). cbn. unfold decode_option.
  destruct (encode a); try done; by rewrite Hdec.
Qed.

Section Laws.
Context `{!Platform, !EventCodec, !EventCodecLaws, !CborCodec, !CborCodecLaws}.

Lemma field_derived fields i : field (derive_fields fields) i = field fields i.
Proof.
  unfold field. destruct (derive_fields_prefix fields) as (k & -> & Hnull). destruct (decide (i < k)%nat) as [Hlt|Hge].
  - by rewrite lookup_take_lt.
  - rewrite lookup_take_ge by lia. replace i with (k + (i - k))%nat by lia. rewrite <- lookup_drop.
    destruct (drop k fields !! (i - k)%nat) as [item|] eqn:Hi; [|done]. cbn.
    by rewrite Forall_lookup in Hnull; specialize (Hnull _ _ Hi).
Qed.

Lemma decode_signature_encoded v : is_array 64 v -> decode_signature (encode_signature v) = Some v.
Proof. intros Hv. unfold decode_signature, encode_signature. rewrite decode_array_bytes. cbn -[be_bytes be_value]. by rewrite be_value_array. Qed.

Lemma decode_address_encoded v : is_array 32 v -> decode_address (encode_address v) = Some v.
Proof. intros Hv. unfold decode_address, encode_address. rewrite decode_array_bytes. cbn -[be_bytes be_value]. by rewrite be_value_array. Qed.

Lemma decode_balance_encoded v : decode_deposit_balance (encode_deposit_balance v) = Some v.
Proof. cbn. apply DepositBalance_new_Some. split; [done | apply balance_range]. Qed.

Lemma decode_option_uint o : decode_option decode_uint (encode_option CUint o) = Some o.
Proof. by apply decode_option_encoded. Qed.

Lemma decode_vec_uint l : decode_vec decode_uint (encode_vec CUint l) = Some l.
Proof. by apply mapM_map_inverse. Qed.

Lemma decode_vec_text l : decode_vec decode_text (encode_vec CText l) = Some l.
Proof. by apply mapM_map_inverse. Qed.

(** Reads the fields of an encoded struct or variant. *)
Ltac read_fields :=
  unfold decode_struct, decode_enum, cbor_struct, cbor_enum; rewrite ?field_derived; cbn [field lookup list_lookup default from_option id].

Lemma decode_key_name_encoded name : decode_key_name (encode_key_name name) = Some name.
Proof. by destruct name. Qed.

Lemma decode_network_encoded network : decode_network (encode_network network) = Some network.
Proof. by destruct network. Qed.

Lemma decode_init_args_encoded args : decode_init_args (encode_init_args args) = Some args.
Proof.
  destruct args. unfold decode_init_args, encode_init_args. read_fields.
  rewrite !principal_roundtrip, decode_key_name_encoded, decode_network_encoded, decode_vec_text, decode_option_uint. reflexivity.
Qed.

Lemma decode_upgrade_args_encoded args : decode_upgrade_args (encode_upgrade_args args) = Some args.
Proof.
  destruct args. unfold decode_upgrade_args, encode_upgrade_args. read_fields.
  rewrite (decode_option_encoded _ _ _ principal_roundtrip principal_not_null).
  rewrite (decode_option_encoded (encode_vec CText) _ _ decode_vec_text) by done. rewrite !decode_option_uint. reflexivity.
Qed.

Lemma decode_versioned_message_encoded m item : encode_versioned_message m = Some item -> decode_versioned_message item = Some m.
Proof.
  destruct m as [message]. unfold encode_versioned_message, encode_message. destruct (bincode_serialize message) as [bs|] eqn:Hbs; [|done].
  intros [= <-]. unfold decode_versioned_message. read_fields. cbn. by rewrite (bincode_roundtrip _ _ Hbs).
Qed.

Lemma decode_signer_encoded signer : decode_signer (encode_signer signer) = Some signer.
Proof. destruct signer as [|account]; [done|]. unfold decode_signer, encode_signer. read_fields. cbn. by rewrite account_roundtrip. Qed.

Lemma decode_vec_signers l : decode_vec decode_signer (encode_vec encode_signer l) = Some l.
Proof. apply mapM_map_inverse, decode_signer_encoded. Qed.

Lemma decode_purpose_encoded purpose : decode_purpose (encode_purpose purpose) = Some purpose.
Proof.
  destruct purpose as [ids height|ixs]; unfold decode_purpose, encode_purpose; read_fields.
  - change (2 =? 2) with true. cbn iota. rewrite decode_vec_uint. reflexivity.
  - change (4 =? 2) with false. change (4 =? 4) with true. cbn iota. unfold decode_id_vec, encode_id_vec.
    by rewrite (mapM_map_inverse CUint decode_uint) by done.
Qed.

Lemma decode_credited_encoded mint : decode_credited_deposit (encode_credited_deposit mint) = Some mint.
Proof. destruct mint. unfold decode_credited_deposit, encode_credited_deposit. by read_fields. Qed.

Lemma decode_request_encoded request :
  is_array 32 (wr_solana_address request) -> decode_withdrawal_request (encode_withdrawal_request request) = Some request.
Proof.
  destruct request as [account address index burned amount]. cbn [wr_solana_address]. intros Ha. unfold decode_withdrawal_request, encode_withdrawal_request. read_fields.
  rewrite account_roundtrip. cbn [mbind option_bind]. rewrite decode_array_bytes. cbn [mbind option_bind decode_id encode_id decode_uint
    wr_burn_block_index wr_burned_amount wr_amount_to_transfer]. by rewrite be_value_array.
Qed.

Lemma decode_public_key_encoded key : is_public_key key -> decode_public_key (encode_public_key key) = Some key.
Proof. intros Hk. unfold decode_public_key, encode_public_key. cbn -[be_bytes]. by rewrite (public_key_roundtrip _ Hk). Qed.

Lemma decode_hash_encoded v : is_array 32 v -> decode_hash (encode_hash v) = Some v.
Proof. apply decode_address_encoded. Qed.

Lemma decode_id_vec_encoded l : decode_id_vec (encode_id_vec l) = Some l.
Proof. by apply (mapM_map_inverse CUint decode_uint). Qed.

Lemma decode_vec_credited l : decode_vec decode_credited_deposit (encode_vec encode_credited_deposit l) = Some l.
Proof. apply mapM_map_inverse, decode_credited_encoded. Qed.

Lemma decode_chain_code bs : length bs = 32%nat -> decode_array 32 (CBytes bs) = Some bs.
Proof. intros Hbs. unfold decode_array. cbn [decode_bytes mbind option_bind]. by rewrite Hbs. Qed.

Lemma decode_event_enum index fields :
  decode_event_type (cbor_enum index fields) = decode_event_fields index (field (derive_fields fields)).
Proof. reflexivity. Qed.

#[local] Opaque decode_signature encode_signature decode_address encode_address decode_hash encode_hash decode_array be_bytes be_value
  decode_public_key encode_public_key.

Lemma decode_event_type_encoded ev item :
  event_type_wf ev -> encode_event_type ev = Some item -> decode_event_type item = Some ev.
Proof.
  intros Hwf Henc. destruct ev as [args|args|request|sig message signers purpose|sig|sig|sig|did account address balance fee|sig received ms
    |sig|key cc|did index|did|ixs account value]; cbn [encode_event_type event_type_wf] in *;
    [..|apply bind_Some in Henc as (m & Hm & Henc)| | | | | | | | | |]; try injection Henc as <-;
    rewrite decode_event_enum; cbv beta iota delta [decode_event_fields Z.eqb Pos.eqb]; rewrite ?field_derived;
    cbv beta iota zeta delta [field lookup list_lookup default from_option id].
  - rewrite decode_init_args_encoded. reflexivity.
  - rewrite decode_upgrade_args_encoded. reflexivity.
  - rewrite decode_request_encoded by done. reflexivity.
  - rewrite decode_signature_encoded, (decode_versioned_message_encoded _ _ Hm), decode_vec_signers, decode_purpose_encoded by done. reflexivity.
  - rewrite decode_signature_encoded by done. reflexivity.
  - rewrite decode_signature_encoded by done. reflexivity.
  - rewrite decode_signature_encoded by done. reflexivity.
  - rewrite account_roundtrip, decode_address_encoded, decode_balance_encoded, decode_option_uint by done. reflexivity.
  - rewrite decode_signature_encoded, decode_vec_credited by done. reflexivity.
  - rewrite decode_signature_encoded by done. reflexivity.
  - rewrite decode_public_key_encoded, decode_chain_code by apply Hwf. reflexivity.
  - reflexivity.
  - reflexivity.
  - rewrite decode_id_vec_encoded, decode_address_encoded, decode_hash_encoded by apply Hwf. reflexivity.
Qed.

Lemma event_bytes_roundtrip event bs :
  event_type_wf (ev_payload event) -> event_to_bytes event = Done bs -> event_from_bytes bs = Done event.
Proof.
  intros Hwf Hto. unfold event_to_bytes in Hto. apply expect_Done in Hto. apply bind_Some in Hto as (item & Hitem & Hbs).
  unfold event_from_bytes. apply expect_Done. rewrite (cbor_roundtrip _ _ Hbs). cbn [mbind option_bind].
  unfold encode_event in Hitem. apply bind_Some in Hitem as (payload & Hp & Hitem). injection Hitem as <-.
  unfold decode_event. read_fields. cbn [decode_uint mbind option_bind]. rewrite (decode_event_type_encoded _ _ Hwf Hp). by destruct event.
Qed.

Lemma stored_events_read log stored :
  Forall (fun event => event_type_wf (ev_payload event)) log -> traverse event_to_bytes log = Done stored ->
  stored_events stored = Done log.
Proof.
  intros Hwf. revert stored. induction Hwf as [|event log Hev _ IH]; intros stored Hs; cbn in Hs; [by apply Done_inv in Hs as <-|].
  apply bind_Done in Hs as (bs & Hbs & Hs). apply bind_Done in Hs as (rest & Hrest & Hs). apply Done_inv in Hs. subst stored.
  unfold stored_events in *. cbn. rewrite (event_bytes_roundtrip _ _ Hev Hbs). cbn. by rewrite (IH rest Hrest).
Qed.

(** Appending an event to the stored log appends it to the log it reads as. *)
Lemma append_event_read stored log event stored' :
  event_type_wf (ev_payload event) -> stored_events stored = Done log -> append_event stored event = Done stored' ->
  stored_events stored' = Done (log ++ [event]).
Proof.
  intros Hwf Hread Hap. unfold append_event in Hap. apply bind_Done in Hap as (bs & Hbs & Hap). apply Done_inv in Hap. subst stored'.
  apply traverse_app; [exact Hread|]. cbn. by rewrite (event_bytes_roundtrip _ _ Hwf Hbs).
Qed.

Lemma process_event_stored_refines s stored log payload now s' stored' :
  event_type_wf payload -> stored_events stored = Done log -> process_event_stored s stored payload now = Done (s', stored') ->
  exists log', process_event s log payload now = Done (s', log') /\ stored_events stored' = Done log'.
Proof.
  intros Hwf Hread Hev. apply bind_Done in Hev as (s1 & Hs1 & Hev). apply bind_Done in Hev as (stored1 & Hap & Hev).
  apply Done_inv in Hev. injection Hev as <- <-. exists (record_event log payload now). unfold process_event. rewrite Hs1.
  split; [done|]. by eapply append_event_read.
Qed.
End Laws.

(** ** A concrete format

    The data items as RFC 8949 writes them: a head of a major type and an
    argument in the fewest bytes, then the content. *)
Definition item_head (major n : Z) : option bytes :=
  if n <? 0 then None
  else if n <? 24 then Some [32 * major + n]
  else if n <? 2 ^ 8 then Some (32 * major + 24 :: be_bytes 1 n)
  else if n <? 2 ^ 16 then Some (32 * major + 25 :: be_bytes 2 n)
  else if n <? 2 ^ 32 then Some (32 * major + 26 :: be_bytes 4 n)
  else if n <? 2 ^ 64 then Some (32 * major + 27 :: be_bytes 8 n)
  else None.

Definition argument_bytes (info : Z) : option nat :=
  if info =? 24 then Some 1%nat else if info =? 25 then Some 2%nat
  else if info =? 26 then Some 4%nat else if info =? 27 then Some 8%nat else None.

Definition read_head (bs : bytes) : option (Z * Z * bytes) :=
  match bs with
  | [] => None
  | b :: rest =>
      if b mod 32 <? 24 then Some (b / 32, b mod 32, rest)
      else k ← argument_bytes (b mod 32);
           if (k <=? length rest)%nat then Some (b / 32, be_value (take k rest), drop k rest) else None
  end.

Definition text_bytes (s : string) : bytes := map (fun c => Z.of_N (Ascii.N_of_ascii c)) (String.list_ascii_of_string s).
Definition bytes_text (bs : bytes) : string := String.string_of_list_ascii (map (fun b => Ascii.ascii_of_N (Z.to_N b)) bs).

Fixpoint rfc_encode (item : Cbor) : option bytes :=
  match item with
  | CUint n => item_head 0 n
  | CBytes bs => head ← item_head 2 (Z.of_nat (length bs)); Some (head ++ bs)
  | CText s => head ← item_head 3 (Z.of_nat (length (text_bytes s))); Some (head ++ text_bytes s)
  | CNull => item_head 7 22
  | CArray items => head ← item_head 4 (Z.of_nat (length items)); body ← mapM rfc_encode items; Some (head ++ concat body)
  end.

Fixpoint read_items (read : bytes -> option (Cbor * bytes)) (k : nat) (bs : bytes) : option (list Cbor * bytes) :=
  match k with
  | O => Some ([], bs)
  | S k => '(item, bs) ← read bs; '(items, bs) ← read_items read k bs; Some (item :: items, bs)
  end.

Definition read_chunk (n : Z) (bs : bytes) : option (bytes * bytes) :=
  if n <=? Z.of_nat (length bs) then Some (take (Z.to_nat n) bs, drop (Z.to_nat n) bs) else None.

Fixpoint rfc_decode (fuel : nat) (bs : bytes) : option (Cbor * bytes) :=
  match fuel with
  | O => None
  | S fuel =>
      '(major, n, rest) ← read_head bs;
      if major =? 0 then Some (CUint n, rest)
      else if major =? 2 then '(content, rest) ← read_chunk n rest; Some (CBytes content, rest)
      else if major =? 3 then '(content, rest) ← read_chunk n rest; Some (CText (bytes_text content), rest)
      else if major =? 4 then '(items, rest) ← read_items (rfc_decode fuel) (Z.to_nat n) rest; Some (CArray items, rest)
      else if (major =? 7) && (n =? 22) then Some (CNull, rest)
      else None
  end.

Lemma read_argument major info k n rest :
  0 <= major -> 24 <= info < 32 -> argument_bytes info = Some k -> is_array k n ->
  read_head ((32 * major + info :: be_bytes k n) ++ rest) = Some (major, n, rest).
Proof.
  intros Hm Hi Hk Hn. cbn -[be_bytes be_value Z.mul Z.add Z.div Z.modulo].
  replace ((32 * major + info) mod 32) with info by (apply (Z.mod_unique_pos _ _ major); lia).
  replace ((32 * major + info) / 32) with major by (apply (Z.div_unique_pos _ _ _ info); lia).
  rewrite (proj2 (Z.ltb_ge info 24)), Hk by lia. cbn [mbind option_bind].
  rewrite length_app, be_bytes_length, (proj2 (Nat.leb_le _ _)) by lia.
  by rewrite take_app_length', drop_app_length', be_value_array by (done || by rewrite be_bytes_length).
Qed.

Lemma read_item_head major n head rest : 0 <= major -> item_head major n = Some head -> read_head (head ++ rest) = Some (major, n, rest).
Proof.
  intros Hm. unfold item_head. repeat case_match; try done; intros [= <-]; rewrite ?Z.ltb_lt, ?Z.ltb_ge in *.
  - cbn -[Z.mul Z.add Z.div Z.modulo].
    replace ((32 * major + n) mod 32) with n by (apply (Z.mod_unique_pos _ _ major); lia).
    replace ((32 * major + n) / 32) with major by (apply (Z.div_unique_pos _ _ _ n); lia).
    by rewrite (proj2 (Z.ltb_lt n 24)).
  - apply (read_argument major 24 1); try done; unfold is_array; lia.
  - apply (read_argument major 25 2); try done; unfold is_array; lia.
  - apply (read_argument major 26 4); try done; unfold is_array; lia.
  - apply (read_argument major 27 8); try done; unfold is_array; lia.
Qed.

Lemma item_head_length major n head : item_head major n = Some head -> (0 < length head)%nat.
Proof. unfold item_head. repeat case_match; try done; intros [= <-]; cbn; lia. Qed.

Lemma text_bytes_inverse s : bytes_text (text_bytes s) = s.
Proof.
  unfold bytes_text, text_bytes. rewrite map_inverse; [apply String.string_of_list_ascii_of_string|].
  intros c. rewrite N2Z.id. apply Ascii.ascii_N_embedding.
Qed.

Lemma read_chunk_app content rest : read_chunk (Z.of_nat (length content)) (content ++ rest) = Some (content, rest).
Proof.
  unfold read_chunk. rewrite length_app, (proj2 (Z.leb_le _ _)), Nat2Z.id by lia. by rewrite take_app_length, drop_app_length.
Qed.

Lemma read_items_app read items body rest :
  Forall2 (fun item bs => forall rest, read (bs ++ rest) = Some (item, rest)) items body ->
  read_items read (length items) (concat body ++ rest) = Some (items, rest).
Proof.
  induction 1 as [|item bs items body Hitem _ IH]; [done|]. cbn [length read_items concat]. rewrite <- app_assoc, Hitem.
  cbn [mbind option_bind]. by rewrite IH.
Qed.

(** A data item is read back with any fuel that covers its length. *)
Fixpoint rfc_decode_encoded (item : Cbor) {struct item} : forall bs fuel rest,
  rfc_encode item = Some bs -> (length bs <= fuel)%nat -> rfc_decode fuel (bs ++ rest) = Some (item, rest).
Proof.
  intros bs [|fuel] rest Henc Hfuel.
  { exfalso. destruct item; cbn [rfc_encode] in Henc; repeat (apply bind_Some in Henc as (? & ?%item_head_length & Henc) || apply bind_Some in Henc as (? & _ & Henc)); 
    try (apply item_head_length in Henc); try injection Henc as <-; rewrite ?length_app in Hfuel; lia. }
  destruct item as [n|content|s| |items]; cbn [rfc_encode] in Henc.
  - cbn [rfc_decode]. by rewrite (read_item_head 0 n bs rest).
  - apply bind_Some in Henc as (head & Hhead & Henc). injection Henc as <-. cbn [rfc_decode]. rewrite <- app_assoc.
    rewrite (read_item_head 2 _ head _) by done. cbn [mbind option_bind Z.eqb Pos.eqb]. by rewrite read_chunk_app.
  - apply bind_Some in Henc as (head & Hhead & Henc). injection Henc as <-. cbn [rfc_decode]. rewrite <- app_assoc.
    rewrite (read_item_head 3 _ head _) by done. cbn [mbind option_bind Z.eqb Pos.eqb]. rewrite read_chunk_app. cbn [mbind option_bind].
    by rewrite text_bytes_inverse.
  - cbn [rfc_decode]. by rewrite (read_item_head 7 22 bs rest).
  - apply bind_Some in Henc as (head & Hhead & Henc). apply bind_Some in Henc as (body & Hbody & Henc). injection Henc as <-.
    cbn [rfc_decode]. rewrite <- app_assoc. rewrite (read_item_head 4 _ head _) by done. cbn [mbind option_bind Z.eqb Pos.eqb].
    rewrite Nat2Z.id, read_items_app; [done|]. apply item_head_length in Hhead. rewrite length_app in Hfuel.
    assert (length (concat body) <= fuel)%nat as Hlen by lia. clear Hfuel Hhead. revert body Hbody Hlen.
    induction items as [|item items IH]; intros body Hbody Hlen.
    + injection Hbody as <-. constructor.
    + change ((bs ← rfc_encode item; body ← mapM rfc_encode items; Some (bs :: body)) = Some body) in Hbody.
      apply bind_Some in Hbody as (bs & Hbs & Hbody). apply bind_Some in Hbody as (body' & Hbody' & Hbody). injection Hbody as <-.
      cbn [concat] in Hlen. rewrite length_app in Hlen. constructor; [|apply IH; [done | lia]].
      intros rest'. apply rfc_decode_encoded; [exact Hbs | lia].
Qed.

#[export] Instance concrete_cbor : CborCodec := {|
  derive_fields fields := fields;
  cbor_encode := rfc_encode;
  cbor_decode bs := match rfc_decode (length bs) bs with Some (item, _) => Some item | None => None end;
  encode_account account := CArray [CBytes (acc_owner account); CBytes (acc_subaccount account)];
  decode_account item := match item with CArray [CBytes owner; CBytes subaccount] => Some (mkAccount owner subaccount) | _ => None end;
  encode_principal principal := CBytes principal;
  decode_principal item := match item with CBytes principal => Some principal | _ => None end
|}.

#[export] Instance concrete_cbor_laws : CborCodecLaws.
Proof.
  split.
  - intros fields. exists (length fields). cbn. by rewrite firstn_all, drop_all.
  - intros item bs Henc. cbn. rewrite <- (app_nil_r bs) at 2. by rewrite (rfc_decode_encoded item bs (length bs) []).
  - by intros [].
  - done.
  - done.
Qed.

(** ** Properties *)

(** C30: the event log survives in stable memory. What was stored for the
    events of an execution reads back as exactly those events, so an upgrade
    without arguments replays the bytes to the recorded state without a trap;
    and recording an event in, or upgrading from, the stored bytes does to the
    state what it does on the log, and stores the log that leaves behind. *)
Theorem stable_log_survives_upgrade `{!Platform, !EventCodec, !EventCodecLaws, !CborCodec, !CborCodecLaws} s log stored now :
  minter_run (s, log) -> Forall (fun event => event_type_wf (ev_payload event)) log ->
  traverse event_to_bytes log = Done stored ->
  stored_events stored = Done log /\
  post_upgrade_stored stored None now = Done (erase s, stored) /\
  (forall payload s' stored', event_type_wf payload -> process_event_stored s stored payload now = Done (s', stored') ->
     exists log', process_event s log payload now = Done (s', log') /\ stored_events stored' = Done log') /\
  (forall args s' stored', post_upgrade_stored stored args now = Done (s', stored') ->
     exists log', post_upgrade log args now = Done (s', log') /\ stored_events stored' = Done log').
Proof.
  intros Hrun%minter_run_replay Hwf Hs. cbn [fst snd] in Hrun. pose proof (stored_events_read log stored Hwf Hs) as Hread.
  unfold post_upgrade_stored, post_upgrade. rewrite Hread. cbn [mbind outcome_bind]. rewrite Hrun. cbn [mbind outcome_bind].
  split_and!; [done | done | intros payload s' stored' Hp; by apply process_event_stored_refines |].
  intros [args|] s' stored' Hup.
  - by eapply process_event_stored_refines.
  - apply Done_inv in Hup. injection Hup as <- <-. by exists log.
Qed.

Definition example_stored : list bytes := match traverse event_to_bytes exported_log with Done stored => stored | Panic _ => [] end.

Lemma stable_log_survives_upgrade_witness :
  stored_events example_stored = Done exported_log /\
  post_upgrade_stored example_stored None 9 = Done (erase exported_state, example_stored).
Proof.
  assert (replay_events exported_log = Done exported_state) as Hr by (vm_compute; reflexivity).
  destruct (stable_log_survives_upgrade exported_state exported_log example_stored 9) as (Hread & Hup & _).
  - apply replay_run. exact Hr.
  - repeat (apply Forall_cons; split; [first [exact I | repeat split; vm_compute; first [reflexivity | intros [=]]]|]). apply Forall_nil. exact I.
  - vm_compute. reflexivity.
  - split; [exact Hread | exact Hup].
Defined.
