(* ===== verification/Dashboard.v ===== *)
(** minter/src/dashboard: the paginated tables and the data of the dashboard. *)
From S2P Require Import Prelude Platform ConcretePlatform InsertionOrderedMap Events Sweeps Deposits MinterState Replay Invariants Safety Decimal.

(** How the libraries print accounts, addresses and signatures. *)
Class Texts := {
  account_text : Account -> string;
  address_text : Address -> string;
  signature_text : Signature -> string
}.

(** ** Pagination *)
Definition DEFAULT_PAGE_SIZE : Z := 100.

Record DashboardPaginationParameters := mkDashboardPaginationParameters {
  quarantined_swept_deposits_start : Z;
  minted_sweeps_start : Z;
  withdrawals_start : Z
}.

(** [raw_query_param] is the lookup of a parameter in the request. *)
Definition parse_query_param (raw_query_param : string -> option string) (param : string) : result Z string :=
  match raw_query_param param with
  | Some arg => ok_or (parse_usize arg) ("failed to parse the '" ++ param ++ "' parameter")%string
  | None => Ok 0
  end.

Definition from_query_params (raw_query_param : string -> option string) : result DashboardPaginationParameters string :=
  let parse := parse_query_param raw_query_param in
  result_bind (parse "quarantined_swept_deposits_start") (fun quarantined_swept_deposits_start =>
  result_bind (parse "minted_sweeps_start") (fun minted_sweeps_start =>
  result_bind (parse "withdrawals_start") (fun withdrawals_start =>
  Ok (mkDashboardPaginationParameters quarantined_swept_deposits_start minted_sweeps_start withdrawals_start)))).

Definition other_params (p : DashboardPaginationParameters) (exclude : string) : string :=
  foldr String.append ""%string
    (map (fun entry => ("&" ++ entry.1 ++ "=" ++ decimal entry.2)%string)
      (filter (fun entry => entry.1 <> exclude)
        [("quarantined_swept_deposits_start"%string, quarantined_swept_deposits_start p);
         ("minted_sweeps_start"%string, minted_sweeps_start p);
         ("withdrawals_start"%string, withdrawals_start p)])).

Record DashboardTablePage := mkDashboardTablePage { page_index : Z; page_offset : Z }.

Record DashboardTablePagination := mkDashboardTablePagination {
  table_id : string;
  table_width : Z;
  page_offset_query_param : string;
  other_query_params : string;
  current_page_index : Z;
  pages : list DashboardTablePage
}.

Record DashboardPaginatedTable (T : Type) := mkDashboardPaginatedTable {
  current_page : list T;
  pagination : DashboardTablePagination;
  total_items : Z
}.
Arguments mkDashboardPaginatedTable {T}.
Arguments current_page {T}.
Arguments pagination {T}.
Arguments total_items {T}.

(** [(0..num_items).step_by(page_size).enumerate()], whose step must not be
    zero. *)
Definition table_pages (num_items page_size : Z) : list DashboardTablePage :=
  map (fun i => mkDashboardTablePage (Z.of_nat i + 1) (Z.of_nat i * page_size))
    (seq 0 (Z.to_nat (div_ceil num_items page_size))).

Definition DashboardTablePagination_new (num_items current_offset page_size table_width : Z)
    (table_reference page_offset_query_param other_query_params : string) : outcome DashboardTablePagination :=
  assert_ (negb (page_size =? 0)) "assertion failed: step != 0";;
  Done (mkDashboardTablePagination table_reference table_width page_offset_query_param other_query_params
    (current_offset / page_size + 1) (table_pages num_items page_size)).

(** The offset, aligned to a page boundary and clamped to the last page. *)
Definition table_offset (total_items current_page_offset page_size : Z) : Z :=
  if (page_size =? 0) || (total_items =? 0) then 0
  else
    let aligned := (current_page_offset / page_size) * page_size in
    let max_start := ((total_items - 1) / page_size) * page_size in
    Z.min aligned max_start.

Definition from_rows {I T} (rows : list I) (to_row : I -> T) (current_page_offset page_size num_cols : Z)
    (table_reference page_offset_query_param other_query_params : string) : outcome (DashboardPaginatedTable T) :=
  let total_items := Z.of_nat (length rows) in
  let offset := table_offset total_items current_page_offset page_size in
  pagination ← DashboardTablePagination_new total_items offset page_size num_cols table_reference
    page_offset_query_param other_query_params;
  Done (mkDashboardPaginatedTable (map to_row (take (Z.to_nat page_size) (drop (Z.to_nat offset) rows))) pagination total_items).

Definition from_items {T} (items : list T) := from_rows items (fun item => item).

Definition table_is_empty {T} (table : DashboardPaginatedTable T) : bool := total_items table =? 0.
Definition has_more_than_one_page {T} (table : DashboardPaginatedTable T) : bool := (1 <? length (pages (pagination table)))%nat.

(** ** Dashboard data *)
Record DashboardWithdrawal := mkDashboardWithdrawal {
  dw_transaction : option string;
  dw_account : string;
  dw_withdrawal_amount : string;
  dw_burned_amount : string;
  dw_burn_block_index : string;
  dw_status : string
}.

Record DashboardQuarantinedDeposit := mkDashboardQuarantinedDeposit {
  dq_deposit_id : string;
  dq_account : string;
  dq_signature : string;
  dq_cause : string;
  dq_planned_amount : string;
  dq_amount_to_mint : string
}.

Record DashboardMintedSweep := mkDashboardMintedSweep {
  dm_deposit_id : string;
  dm_account : string;
  dm_minted_amount : string;
  dm_mint_block_index : string
}.

Record DashboardTemplate := mkDashboardTemplate {
  dt_solana_cluster : string;
  dt_solscan_suffix : string;
  dt_minter_address : string;
  dt_ledger_canister_id : Principal;
  dt_sol_rpc_canister_id : Principal;
  dt_master_key_name : string;
  dt_withdrawal_fee : string;
  dt_minimum_deposit_amount : string;
  dt_minimum_withdrawal_amount : string;
  dt_balance : string;
  quarantined_swept_deposits_table : DashboardPaginatedTable DashboardQuarantinedDeposit;
  minted_sweeps_table : DashboardPaginatedTable DashboardMintedSweep;
  withdrawals_table : DashboardPaginatedTable DashboardWithdrawal
}.

Definition qn_account (q : QuarantinedDeposit) : Account := qd_account (sd_deposit (qn_deposit q)).
Definition qn_sweep_signature (q : QuarantinedDeposit) : Signature := sd_signature (qn_deposit q).
Definition qn_planned_amount (q : QuarantinedDeposit) : Lamport := sweepable_amount (sd_deposit (qn_deposit q)).

Definition solscan_cluster_suffix (network : SolanaNetwork) : string :=
  match network with Mainnet => "" | Devnet => "?cluster=devnet" | Testnet => "?cluster=testnet" end.

(** The derived [Debug] of the network and the [Display] of the key name. *)
Definition network_text (network : SolanaNetwork) : string :=
  match network with Mainnet => "Mainnet" | Devnet => "Devnet" | Testnet => "Testnet" end.
Definition key_name_text (name : Ed25519KeyName) : string :=
  match name with LocalDevelopment => "dfx_test_key" | MainnetTestKey1 => "test_key_1" | MainnetProdKey1 => "key_1" end.

Section FromState.
Context `{Platform, Texts}.

Definition quarantined_row (entry : DepositSolId * QuarantinedDeposit) : DashboardQuarantinedDeposit :=
  let '(deposit_id, quarantined) := entry in
  mkDashboardQuarantinedDeposit (decimal deposit_id) (account_text (qn_account quarantined))
    (signature_text (qn_sweep_signature quarantined))
    (match qn_cause quarantined with SweepUnreadable => "Sweep unreadable" | MintUnresolved _ _ => "Mint unresolved" end)
    (lamports_to_sol (qn_planned_amount quarantined))
    (match qn_cause quarantined with SweepUnreadable => "-" | MintUnresolved amount_to_mint _ => lamports_to_sol amount_to_mint end).

Definition minted_row (entry : DepositSolId * MintedSweep) : DashboardMintedSweep :=
  let '(deposit_id, minted) := entry in
  mkDashboardMintedSweep (decimal deposit_id) (account_text (qd_account (sd_deposit (mt_deposit minted))))
    (lamports_to_sol (mt_minted_amount minted)) (decimal (mt_mint_block_index minted)).

Definition withdrawal_row (burn_index : LedgerBurnIndex) (req : WithdrawalRequest) (status : string)
    (transaction : option string) : DashboardWithdrawal :=
  mkDashboardWithdrawal transaction (account_text (wr_account req)) (lamports_to_sol (wr_amount_to_transfer req))
    (lamports_to_sol (wr_burned_amount req)) (decimal burn_index) status.

Definition pending_row (entry : LedgerBurnIndex * PendingWithdrawalRequest) : DashboardWithdrawal :=
  withdrawal_row entry.1 (pw_request entry.2) "Pending" None.
Definition sent_row (status : string) (entry : LedgerBurnIndex * SentWithdrawalRequest) : DashboardWithdrawal :=
  withdrawal_row entry.1 (sent_request entry.2) status (Some (signature_text (sent_signature entry.2))).

Definition pending_and_created_requests (s : State) : gmap LedgerBurnIndex PendingWithdrawalRequest :=
  collect_map (btree_iter (pending_withdrawal_requests s) ++ btree_iter (created_withdrawal_requests s)).

Definition dashboard_withdrawals (s : State) : list DashboardWithdrawal :=
  map pending_row (rev (btree_iter (pending_and_created_requests s)))
  ++ map (sent_row "Sent") (rev (btree_iter (sent_withdrawal_requests s)))
  ++ map (sent_row "Succeeded") (rev (btree_iter (successful_withdrawal_requests s)))
  ++ map (sent_row "Failed") (rev (btree_iter (failed_withdrawal_requests s))).

Definition from_state (s : State) (p : DashboardPaginationParameters) : outcome DashboardTemplate :=
  quarantined_swept_deposits_table ← from_items (map quarantined_row (rev (btree_iter (quarantined (deposits s)))))
    (quarantined_swept_deposits_start p) DEFAULT_PAGE_SIZE 6 "quarantined-swept-deposits"
    "quarantined_swept_deposits_start" (other_params p "quarantined_swept_deposits_start");
  minted_sweeps_table ← from_rows (rev (btree_iter (minted (deposits s)))) minted_row
    (minted_sweeps_start p) DEFAULT_PAGE_SIZE 4 "minted-sweeps" "minted_sweeps_start" (other_params p "minted_sweeps_start");
  withdrawals_table ← from_items (dashboard_withdrawals s) (withdrawals_start p) DEFAULT_PAGE_SIZE 6 "withdrawals"
    "withdrawals_start" (other_params p "withdrawals_start");
  Done (mkDashboardTemplate (network_text (solana_network s)) (solscan_cluster_suffix (solana_network s))
    (match minter_public_key s with Some key => address_text (minter_address key) | None => "" end)
    (ledger_canister_id s) (sol_rpc_canister_id s) (key_name_text (master_key_name s))
    (lamports_to_sol (withdrawal_fee s)) (lamports_to_sol (minimum_deposit_amount s))
    (lamports_to_sol (minimum_withdrawal_amount s)) (lamports_to_sol (balance s))
    quarantined_swept_deposits_table minted_sweeps_table withdrawals_table).
End FromState.

(** ** Lemmas on pagination *)
Section Pagination.
Context {I T : Type} (rows : list I) (to_row : I -> T) (page_size num_cols : Z) (table_reference param others : string).
Hypothesis page_size_pos : 0 < page_size.

Let n := Z.of_nat (length rows).
Let page (i : nat) : list T := map to_row (take (Z.to_nat page_size) (drop (i * Z.to_nat page_size) rows)).
Let table (offset : Z) := from_rows rows to_row offset page_size num_cols table_reference param others.

Lemma div_ceil_pred a : 0 < a -> div_ceil a page_size = (a - 1) / page_size + 1.
Proof.
  intros Ha. pose proof (div_ceil_bounds a page_size ltac:(lia) page_size_pos) as Hb.
  rewrite <- (Z.div_unique (a - 1) page_size (div_ceil a page_size - 1) (a - 1 - page_size * (div_ceil a page_size - 1))); [lia| |lia].
  left. nia.
Qed.

(** The page that is shown for an offset. *)
Lemma from_rows_page offset : 0 <= offset ->
  exists i, (rows = [] /\ i = 0%nat \/ (i < Z.to_nat (div_ceil n page_size))%nat) /\
    (forall j, (j < Z.to_nat (div_ceil n page_size))%nat -> offset = Z.of_nat j * page_size -> i = j) /\
    table offset = Done (mkDashboardPaginatedTable (page i)
      (mkDashboardTablePagination table_reference num_cols param others (Z.of_nat i + 1) (table_pages n page_size)) n).
Proof.
  intros Hoff. unfold table, from_rows, DashboardTablePagination_new. fold n.
  destruct (Z.eqb_spec page_size 0) as [|_]; [lia|]. cbn [negb assert_ mbind outcome_bind].
  assert (exists i, table_offset n offset page_size = Z.of_nat i * page_size /\
    (rows = [] /\ i = 0%nat \/ (i < Z.to_nat (div_ceil n page_size))%nat) /\
    (forall j, (j < Z.to_nat (div_ceil n page_size))%nat -> offset = Z.of_nat j * page_size -> i = j)) as (i & Hi & Hbound & Hj).
  { unfold table_offset. destruct (Z.eqb_spec page_size 0) as [|_]; [lia|]. cbn [orb].
    destruct (Z.eqb_spec n 0) as [Hn|Hn].
    - exists 0%nat. split_and!; [done | left; split; [|done]; by apply length_zero_iff_nil; unfold n in Hn; lia |].
      intros j Hj _. rewrite Hn in Hj. unfold div_ceil in Hj. rewrite Z.mod_0_l, Z.div_0_l in Hj by lia. cbn in Hj. lia.
    - assert (0 < n) as Hn' by (unfold n in *; lia). rewrite div_ceil_pred by done.
      pose proof (Z.div_pos offset page_size ltac:(lia) page_size_pos). pose proof (Z.div_pos (n - 1) page_size ltac:(lia) page_size_pos).
      exists (Z.to_nat (Z.min (offset / page_size) ((n - 1) / page_size))). rewrite Z2Nat.id by lia. split_and!.
      + rewrite <- Z.mul_min_distr_nonneg_r by lia. done.
      + right. lia.
      + intros j Hj ->. rewrite Z.div_mul by lia. lia. }
  exists i. split_and!; [done | done |]. rewrite Hi, Z.div_mul by lia. unfold page.
  replace (Z.to_nat (Z.of_nat i * page_size)) with (i * Z.to_nat page_size)%nat; [done|].
  rewrite Z2Nat.inj_mul, Nat2Z.id by lia. done.
Qed.

Lemma more_than_one_page : (1 <? length (table_pages n page_size))%nat = (page_size <? n).
Proof.
  pose proof (div_ceil_bounds n page_size ltac:(unfold n; lia) page_size_pos) as Hb. unfold table_pages. rewrite length_map, length_seq.
  apply Bool.eq_iff_eq_true. rewrite Nat.ltb_lt, Z.ltb_lt. nia.
Qed.

Lemma pages_prefix k : concat (map page (seq 0 k)) = map to_row (take (k * Z.to_nat page_size) rows).
Proof.
  induction k as [|k IH]; [done|]. rewrite seq_S, map_app, concat_app, IH. cbn. rewrite app_nil_r. unfold page.
  rewrite <- map_app, take_take_drop. f_equal. f_equal. lia.
Qed.

Lemma pages_concat : concat (map page (seq 0 (Z.to_nat (div_ceil n page_size)))) = map to_row rows.
Proof.
  rewrite pages_prefix, take_ge; [done|]. pose proof (div_ceil_bounds n page_size ltac:(unfold n; lia) page_size_pos) as Hb.
  unfold n in *. nia.
Qed.
End Pagination.

(** The tables of the listed pages show all rows. *)
Lemma pagination_pages {I T} (rows : list I) (to_row : I -> T) page_size num_cols table_reference param others :
  0 < page_size ->
  exists ts, Forall2 (fun p t => 0 <= page_offset p /\ from_rows rows to_row (page_offset p) page_size num_cols table_reference param others = Done t /\
      current_page_index (pagination t) = page_index p) (table_pages (Z.of_nat (length rows)) page_size) ts /\
    concat (map current_page ts) = map to_row rows.
Proof.
  intros Hps. set (k := Z.to_nat (div_ceil (Z.of_nat (length rows)) page_size)).
  exists (map (fun i => mkDashboardPaginatedTable (map to_row (take (Z.to_nat page_size) (drop (i * Z.to_nat page_size) rows)))
    (mkDashboardTablePagination table_reference num_cols param others (Z.of_nat i + 1) (table_pages (Z.of_nat (length rows)) page_size))
    (Z.of_nat (length rows))) (seq 0 k)). split.
  - apply Forall2_fmap, Forall_Forall2_diag, Forall_forall. intros i Hi%elem_of_seq. cbn [page_offset page_index]. split; [lia|].
    destruct (from_rows_page rows to_row page_size num_cols table_reference param others Hps (Z.of_nat i * page_size)) as (j & _ & Hj & ->); [lia|].
    rewrite (Hj i ltac:(lia) eq_refl). done.
  - rewrite map_map. apply pages_concat, Hps.
Qed.

(** A paginated table shows every row on exactly one page. Whatever offset
    a request asks for, the table is one of the listed pages, that page is
    marked as the current one, is not empty unless the table is, and holds at
    most [page_size] rows; following the links to all pages in order shows all
    rows, in order and without repetition. *)
Lemma pagination_shows_every_row {I T} (rows : list I) (to_row : I -> T) page_size num_cols table_reference param others :
  0 < page_size ->
  let table offset := from_rows rows to_row offset page_size num_cols table_reference param others in
  let listed := table_pages (Z.of_nat (length rows)) page_size in
  (forall offset, 0 <= offset -> exists t, table offset = Done t /\ pages (pagination t) = listed /\
     table_is_empty t = bool_decide (rows = []) /\ has_more_than_one_page t = (page_size <? Z.of_nat (length rows)) /\
     (length (current_page t) <= Z.to_nat page_size)%nat /\
     (rows <> [] -> current_page t <> [] /\
        exists p, p ∈ listed /\ current_page_index (pagination t) = page_index p /\ table (page_offset p) = Done t)) /\
  exists ts, Forall2 (fun p t => table (page_offset p) = Done t /\ current_page_index (pagination t) = page_index p) listed ts /\
    concat (map current_page ts) = map to_row rows.
Proof.
  intros Hps. cbn zeta. set (k := Z.to_nat (div_ceil (Z.of_nat (length rows)) page_size)).
  pose proof (from_rows_page rows to_row page_size num_cols table_reference param others Hps) as Hpage. split.
  - intros offset Hoff. destruct (Hpage offset Hoff) as (i & Hi & _ & Ht). eexists. split; [exact Ht|]. cbn [pagination pages current_page].
    split_and!; [done | | apply more_than_one_page, Hps | rewrite length_map, length_take; lia |].
    + unfold table_is_empty. cbn [total_items]. destruct rows; [done|]. rewrite bool_decide_false by done. cbn [length]. apply Z.eqb_neq. lia.
    + intros Hne. destruct Hi as [[? _]|Hi]; [done|]. split.
      * intros Hnil%(f_equal length). rewrite length_map, length_take, length_drop in Hnil. cbn [length] in Hnil.
        pose proof (div_ceil_bounds (Z.of_nat (length rows)) page_size ltac:(lia) Hps). nia.
      * exists (mkDashboardTablePage (Z.of_nat i + 1) (Z.of_nat i * page_size)). split_and!; [|done|].
        -- apply list_elem_of_fmap. exists i. split; [done|]. apply elem_of_seq. lia.
        -- cbn [page_offset]. destruct (Hpage (Z.of_nat i * page_size)) as (j & _ & Hj & ->); [lia|]. by rewrite (Hj i Hi eq_refl).
  - destruct (pagination_pages rows to_row page_size num_cols table_reference param others Hps) as (ts & Hts & Hrows).
    exists ts. split; [|done]. eapply Forall2_impl; [exact Hts|]. by intros p t (_ & ? & ?).
Qed.

Lemma pagination_shows_every_row_witness :
  exists ts, Forall2 (fun p t => from_rows [10; 20; 30] Z.succ (page_offset p) 2 1 "table" "start" "" = Done t /\
      current_page_index (pagination t) = page_index p) [mkDashboardTablePage 1 0; mkDashboardTablePage 2 2] ts /\
    concat (map current_page ts) = [11; 21; 31].
Proof.
  destruct (pagination_shows_every_row [10; 20; 30] Z.succ 2 1 "table" "start" "" ltac:(lia)) as [_ (ts & Hts & Hrows)].
  exists ts. split; [exact Hts | exact Hrows].
Defined.

(** ** The withdrawals of the dashboard *)

(** The status and the transaction shown for a withdrawal. *)
Definition shown_status `{Texts} (status : WithdrawSolStatus) : option (string * option string) :=
  match status with
  | WithdrawalNotFound => None
  | WithdrawalPending => Some ("Pending"%string, None)
  | WithdrawalTxSent sig => Some ("Sent"%string, Some (signature_text sig))
  | WithdrawalTxSuccess sig => Some ("Succeeded"%string, Some (signature_text sig))
  | WithdrawalTxFailure sig => Some ("Failed"%string, Some (signature_text sig))
  end.

Definition shows `{Texts} (s : State) (b : LedgerBurnIndex) (row : DashboardWithdrawal) : Prop :=
  dw_burn_block_index row = decimal b /\ shown_status (withdrawal_status s b) = Some (dw_status row, dw_transaction row).

Definition listed_keys {V} (m : gmap Z V) : list Z := map fst (rev (btree_iter m)).

Lemma elem_of_listed_keys {V} (m : gmap Z V) b : b ∈ listed_keys m <-> is_Some (m !! b).
Proof.
  unfold listed_keys. rewrite map_rev, <- elem_of_btree_keys. unfold btree_keys. by rewrite <- Permutation_rev.
Qed.

Lemma NoDup_listed_keys {V} (m : gmap Z V) : NoDup (listed_keys m).
Proof. unfold listed_keys. rewrite map_rev, <- Permutation_rev. apply NoDup_btree_keys. Qed.

Lemma shows_listed `{Texts} {V} s (m : gmap Z V) (row : Z * V -> DashboardWithdrawal) :
  (forall b v, m !! b = Some v -> shows s b (row (b, v))) ->
  Forall2 (shows s) (listed_keys m) (map row (rev (btree_iter m))).
Proof.
  intros Hrow. unfold listed_keys. apply Forall2_fmap, Forall_Forall2_diag, Forall_forall. intros [b v] Hin.
  rewrite <- Permutation_rev in Hin. by apply Hrow, elem_of_btree_iter.
Qed.

Lemma pending_and_created_lookup s b :
  (is_Some (pending_and_created_requests s !! b) <->
   is_Some (pending_withdrawal_requests s !! b) \/ is_Some (created_withdrawal_requests s !! b)).
Proof.
  unfold pending_and_created_requests. split.
  - intros [v Hv%collect_map_lookup]. apply elem_of_app in Hv as [Hv%elem_of_btree_iter|Hv%elem_of_btree_iter]; [left | right]; by eexists.
  - intros Hs. apply collect_map_is_Some. rewrite fmap_app, elem_of_app.
    destruct Hs as [Hs|Hs]; [left | right]; by apply elem_of_btree_keys.
Qed.

(** The burn indices of the table, in the order of its rows. *)
Definition dashboard_indices (s : State) : list LedgerBurnIndex :=
  listed_keys (pending_and_created_requests s) ++ listed_keys (sent_withdrawal_requests s)
  ++ listed_keys (successful_withdrawal_requests s) ++ listed_keys (failed_withdrawal_requests s).

(** Case analysis on the bucket that holds [b]. *)
Ltac by_bucket Hbuckets b :=
  specialize (Hbuckets b); unfold bucket_count, value_at, one in Hbuckets;
  destruct (pending_withdrawal_requests _ !! b), (created_withdrawal_requests _ !! b), (sent_withdrawal_requests _ !! b),
    (successful_withdrawal_requests _ !! b), (failed_withdrawal_requests _ !! b); cbn in Hbuckets; case_decide;
  try lia; unfold is_Some in *.

Lemma dashboard_rows_show `{Platform, Texts} s log :
  minter_run (s, log) -> sized log ->
  NoDup (dashboard_indices s) /\ (forall b, b ∈ dashboard_indices s <-> b ∈ accepted_in log) /\
  Forall2 (shows s) (dashboard_indices s) (dashboard_withdrawals s).
Proof.
  intros Hrun Hsz. destruct (minter_run_inv _ Hrun Hsz) as (L & HI & _). cbn [fst snd] in HI.
  pose proof (mi_buckets _ _ _ HI) as Hbuckets. unfold dashboard_indices, dashboard_withdrawals. split_and!.
  - repeat (apply NoDup_app; split_and!; [apply NoDup_listed_keys | intros b Hb | ]); [..|apply NoDup_listed_keys];
      rewrite ?elem_of_app, ?elem_of_listed_keys, ?pending_and_created_lookup in *; intros Hin; by_bucket Hbuckets b; naive_solver.
  - intros b. rewrite !elem_of_app, !elem_of_listed_keys, pending_and_created_lookup. by_bucket Hbuckets b; naive_solver.
  - repeat apply Forall2_app; apply shows_listed; intros b v Hv; (split; [reflexivity|]); rewrite withdrawal_status_at.
    + assert (is_Some (pending_and_created_requests s !! b)) as Hs%pending_and_created_lookup by (by exists v).
      unfold status_at. destruct Hs as [[x ->]|[x ->]]; [done|]. by destruct (pending_withdrawal_requests s !! b).
    + by_bucket Hbuckets b; by simplify_eq.
    + by_bucket Hbuckets b; by simplify_eq.
    + by_bucket Hbuckets b; by simplify_eq.
Qed.

(** The rows of the withdrawals table when the request asks for [offset]. *)
Definition withdrawals_page `{Platform, Texts} (s : State) (offset : Z) : outcome (list DashboardWithdrawal) :=
  template ← from_state s (mkDashboardPaginationParameters 0 0 offset);
  Done (current_page (withdrawals_table template)).

#[export] Instance concrete_texts : Texts := {|
  account_text account := "account";
  address_text address := decimal address;
  signature_text signature := decimal signature
|}.

Lemma from_rows_done {I T} (rows : list I) (to_row : I -> T) offset cols table_reference param others : 0 <= offset ->
  exists t, from_rows rows to_row offset DEFAULT_PAGE_SIZE cols table_reference param others = Done t.
Proof.
  intros Hoff. destruct (from_rows_page rows to_row DEFAULT_PAGE_SIZE cols table_reference param others ltac:(done) offset Hoff)
    as (? & _ & _ & ->). by eexists.
Qed.

Lemma from_state_done `{Platform, Texts} s p :
  0 <= quarantined_swept_deposits_start p -> 0 <= minted_sweeps_start p -> 0 <= withdrawals_start p ->
  exists template, from_state s p = Done template /\
    from_items (dashboard_withdrawals s) (withdrawals_start p) DEFAULT_PAGE_SIZE 6 "withdrawals" "withdrawals_start"
      (other_params p "withdrawals_start") = Done (withdrawals_table template).
Proof.
  intros Hq Hm Hw. unfold from_state, from_items.
  match goal with |- context [from_rows ?rows ?f (quarantined_swept_deposits_start p) _ ?c ?r ?n ?o] =>
    destruct (from_rows_done rows f _ c r n o Hq) as [t1 ->] end.
  match goal with |- context [from_rows ?rows ?f (minted_sweeps_start p) _ ?c ?r ?n ?o] =>
    destruct (from_rows_done rows f _ c r n o Hm) as [t2 ->] end.
  match goal with |- context [from_rows ?rows ?f (withdrawals_start p) _ ?c ?r ?n ?o] =>
    destruct (from_rows_done rows f _ c r n o Hw) as [t3 ->] end.
  eexists. split; reflexivity.
Qed.

(** C39: the dashboard never fails to render its data, and its withdrawals
    table lists every accepted withdrawal exactly once, over all its pages,
    under its burn index and with the status (and the transaction) that
    [withdrawal_status] reports for it; nothing else is listed. *)
Theorem dashboard_lists_every_withdrawal `{!Platform, !Texts} s log :
  minter_run (s, log) -> sized log ->
  exists listed page_rows indices,
    listed = table_pages (Z.of_nat (length (dashboard_withdrawals s))) DEFAULT_PAGE_SIZE /\
    Forall2 (fun p rows => withdrawals_page s (page_offset p) = Done rows) listed page_rows /\
    NoDup indices /\ (forall b, b ∈ indices <-> b ∈ accepted_in log) /\ Forall2 (shows s) indices (concat page_rows).
Proof.
  intros Hrun Hsz. destruct (dashboard_rows_show s log Hrun Hsz) as (Hnd & Hacc & Hshow).
  destruct (pagination_pages (dashboard_withdrawals s) (fun row => row) DEFAULT_PAGE_SIZE 6 "withdrawals" "withdrawals_start"
    (other_params (mkDashboardPaginationParameters 0 0 0) "withdrawals_start") ltac:(done)) as (ts & Hts & Hrows).
  eexists _, (map current_page ts), (dashboard_indices s). split_and!; [reflexivity | | done | done |].
  - apply Forall2_fmap_r. eapply Forall2_impl; [exact Hts|]. intros p t [Hp [Ht _]]. unfold withdrawals_page.
    destruct (from_state_done s (mkDashboardPaginationParameters 0 0 (page_offset p)) ltac:(done) ltac:(done) Hp) as (template & -> & Htable).
    change (from_rows (dashboard_withdrawals s) (fun row => row) (page_offset p) DEFAULT_PAGE_SIZE 6 "withdrawals" "withdrawals_start"
      (other_params (mkDashboardPaginationParameters 0 0 0) "withdrawals_start") = Done (withdrawals_table template)) in Htable.
    rewrite Ht in Htable. apply Done_inv in Htable. rewrite Htable. reflexivity.
  - rewrite Hrows, map_id. exact Hshow.
Qed.

Lemma dashboard_lists_every_withdrawal_witness :
  withdrawals_page example_state 0 = Done (dashboard_withdrawals example_state) /\
  map dw_status (dashboard_withdrawals example_state) = ["Succeeded"; "Succeeded"]%string /\
  exists listed page_rows indices, Forall2 (fun p rows => withdrawals_page example_state (page_offset p) = Done rows) listed page_rows /\
    NoDup indices /\ Forall2 (shows example_state) indices (concat page_rows).
Proof.
  split_and!; [vm_compute; reflexivity | vm_compute; reflexivity |].
  destruct (dashboard_lists_every_withdrawal example_state example_log example_run example_sized)
    as (listed & page_rows & indices & _ & Hpages & Hnd & _ & Hshows).
  exists listed, page_rows, indices. split_and!; [exact Hpages | exact Hnd | exact Hshows].
Defined.
