(* ===== verification/EncodeMetrics.v ===== *)
(** minter/src/metrics.rs: the metrics the canister serves. The encoder of
    the library writes them into a buffer in memory, which does not fail; the
    model keeps their kind, name, labels and value, and leaves out the help
    text. *)
From S2P Require Import Prelude Platform ConcretePlatform InsertionOrderedMap Events Sweeps Deposits MinterState Replay Metrics Invariants Safety.

Inductive MetricKind : Type := Gauge | Counter.

Record Metric := mkMetric {
  metric_kind : MetricKind;
  metric_name : string;
  metric_samples : list (list (string * string) * Z)
}.

Definition encode_gauge (name : string) (value : Z) : Metric := mkMetric Gauge name [([], value)].
Definition encode_counter (name : string) (value : Z) : Metric := mkMetric Counter name [([], value)].

(** [n as f64]: the nearest multiple of a power of two with 53 significant
    bits, ties to even. No 128-bit number is beyond the range of [f64], and
    the integers the metrics report stay integers. *)
Definition as_f64 (n : Z) : Z :=
  if n <? 2 ^ 53 then n
  else
    let e := Z.log2 n - 52 in
    let q := n / 2 ^ e in
    let r := n mod 2 ^ e in
    let half := 2 ^ (e - 1) in
    (if (r <? half) || ((r =? half) && Z.even q) then q else q + 1) * 2 ^ e.

(** [MetricValue] of [usize], [u64] and [u128] *)
Definition metric_value (n : Z) : Z := as_f64 n.

Definition WASM_PAGE_SIZE_IN_BYTES : Z := 65536.
Definition NANOS_PER_SECOND : Z := 1000000000.

(** What the metrics read from the runtime. *)
Record RuntimeReadings := mkRuntimeReadings {
  rr_stable_size : Z;
  rr_heap_pages : Z;
  rr_canister_cycle_balance : Z;
  rr_canister_version : Z;
  rr_time : Timestamp
}.

(** A 32-bit [usize]. *)
Definition heap_memory_size_bytes (r : RuntimeReadings) : Z := (rr_heap_pages r * WASM_PAGE_SIZE_IN_BYTES) mod (u32_max + 1).

Definition age_seconds (now : Timestamp) (start : option Timestamp) : Z :=
  match start with Some start => saturating_sub now start / NANOS_PER_SECOND | None => 0 end.

Definition is_sweep_unreadable (q : QuarantinedDeposit) : bool :=
  match qn_cause q with SweepUnreadable => true | MintUnresolved _ _ => false end.

Definition len {V} (m : gmap Z V) : Z := Z.of_nat (size m).

(** The two counters of the loop over the quarantined deposits. *)
Definition count_causes (qs : list QuarantinedDeposit) : Z * Z :=
  fold_left (fun counts q => if is_sweep_unreadable q then (counts.1 + 1, counts.2) else (counts.1, counts.2 + 1)) qs (0, 0).

Definition encode_metrics (r : RuntimeReadings) (s : State) (total_event_count : Z) (m : Metrics) : list Metric :=
  let d := deposits s in
  let '(sweep_unreadable, mint_unresolved) := count_causes (btree_values (quarantined d)) in
  [encode_gauge "stable_memory_bytes" (metric_value (rr_stable_size r) * metric_value WASM_PAGE_SIZE_IN_BYTES);
   encode_gauge "heap_memory_bytes" (metric_value (heap_memory_size_bytes r));
   mkMetric Gauge "cycle_balance" [([("canister"%string, "cksol-minter"%string)], metric_value (rr_canister_cycle_balance r))];
   encode_gauge "canister_version" (metric_value (rr_canister_version r));
   encode_counter "total_event_count" (metric_value total_event_count);
   encode_gauge "finalized_deposits" (metric_value (Z.of_nat (sweeps_deposit_count (finalized d))));
   encode_gauge "pending_mints" (metric_value (len (pending_mints d)));
   encode_gauge "minted_swept_deposits" (metric_value (len (minted d)));
   encode_gauge "dropped_deposits" (metric_value (len (dropped d)));
   mkMetric Gauge "quarantined_swept_deposits"
     [([("cause"%string, "sweep_unreadable"%string)], metric_value sweep_unreadable);
      ([("cause"%string, "mint_unresolved"%string)], metric_value mint_unresolved)];
   encode_gauge "pending_withdrawal_requests"
     (metric_value (len (pending_withdrawal_requests s) + len (created_withdrawal_requests s)));
   encode_gauge "sent_withdrawal_requests" (metric_value (len (sent_withdrawal_requests s)));
   encode_gauge "submitted_transactions" (metric_value (Z.of_nat (iom_len (submitted_transactions s))));
   encode_gauge "succeeded_transactions" (metric_value (Z.of_nat (size (succeeded_transactions s))));
   encode_gauge "failed_transactions" (metric_value (Z.of_nat (iom_len (failed_transactions s))));
   encode_gauge "oldest_incomplete_withdrawal_age_seconds"
     (metric_value (age_seconds (rr_time r) (oldest_incomplete_withdrawal_created_at s)));
   encode_gauge "oldest_in_flight_deposit_age_seconds" (metric_value (age_seconds (rr_time r) (oldest_in_flight_queued_at d)));
   encode_gauge "oldest_pending_mint_age_seconds" (metric_value (age_seconds (rr_time r) (oldest_pending_mint_created_at d)));
   mkMetric Counter "failed_credit_attempts" (map (fun reason =>
     ([("reason"%string, failed_credit_label reason)], metric_value (failed_credit_attempt_count m reason))) failed_credit_reasons);
   mkMetric Counter "failed_mint_attempts" (map (fun reason =>
     ([("reason"%string, failed_mint_label reason)], metric_value (failed_mint_attempt_count m reason))) failed_mint_reasons);
   encode_gauge "minter_balance" (metric_value (balance s));
   encode_gauge "post_upgrade_instructions_consumed" (metric_value (post_upgrade_instructions_consumed m));
   encode_counter "withdrawal_transaction_rebroadcasts" (metric_value (withdrawal_transaction_rebroadcasts m));
   mkMetric Gauge "undecided_withdrawal_transactions" (map (fun reason =>
     ([("reason"%string, undecided_withdrawal_label reason)], metric_value (undecided_withdrawal_transaction_count m reason)))
     undecided_withdrawal_reasons)].

(** ** Lemmas *)
Lemma as_f64_small n : n < 2 ^ 53 -> as_f64 n = n.
Proof. intros Hn. unfold as_f64. by destruct (Z.ltb_spec n (2 ^ 53)); [|lia]. Qed.

(** The reported value is off by at most one part in 2^53. *)
Lemma as_f64_error n : 0 <= n -> Z.abs (as_f64 n - n) * 2 ^ 53 <= n.
Proof.
  intros Hn. unfold as_f64. destruct (Z.ltb_spec n (2 ^ 53)) as [|Hge]; [rewrite Z.sub_diag; cbn; lia|]. cbn zeta.
  assert (53 <= Z.log2 n) as Hlog by (apply Z.log2_le_pow2; lia).
  pose proof (Z.log2_spec n ltac:(lia)) as [Hlo _]. set (e := Z.log2 n - 52) in *.
  assert (0 < 2 ^ (e - 1)) as Hh by (apply Z.pow_pos_nonneg; unfold e; lia).
  assert (2 ^ e = 2 * 2 ^ (e - 1)) as He.
  { rewrite <- Z.pow_succ_r by (unfold e; lia). f_equal. lia. }
  assert (2 ^ (e - 1) * 2 ^ 53 <= n) as Hbig.
  { rewrite <- Z.pow_add_r by (unfold e; lia). replace (e - 1 + 53) with (Z.log2 n) by (unfold e; lia). exact Hlo. }
  pose proof (Z.div_mod n (2 ^ e) ltac:(lia)) as Hdm. pose proof (Z.mod_pos_bound n (2 ^ e) ltac:(lia)) as Hm.
  set (q := n / 2 ^ e) in *. set (rem := n mod 2 ^ e) in *. set (half := 2 ^ (e - 1)) in *.
  assert (Z.abs ((if (rem <? half) || ((rem =? half) && Z.even q) then q else q + 1) * 2 ^ e - n) <= half) as Habs.
  { destruct (Z.ltb_spec rem half), (Z.eqb_spec rem half); cbn [orb andb]; try destruct (Z.even q); nia. }
  nia.
Qed.

Lemma NoDup_concat_index (ls : list (list Z)) :
  (forall k l, ls !! k = Some l -> NoDup l) ->
  (forall k1 k2 l1 l2 i, ls !! k1 = Some l1 -> ls !! k2 = Some l2 -> i ∈ l1 -> i ∈ l2 -> k1 = k2) ->
  NoDup (concat ls).
Proof.
  induction ls as [|l ls IH]; intros Hnd Hdis; cbn; [constructor|]. apply NoDup_app. split_and!.
  - by apply (Hnd 0%nat).
  - intros i Hi (l' & Hin & Hl')%elem_of_list_concat. apply list_elem_of_lookup in Hl' as [k Hk].
    by specialize (Hdis 0%nat (S k) l l' i eq_refl Hk Hi Hin).
  - apply IH; [intros k; apply (Hnd (S k))|]. intros k1 k2 l1 l2 i H1 H2 Hi1 Hi2.
    by specialize (Hdis (S k1) (S k2) l1 l2 i H1 H2 Hi1 Hi2) as [= ->].
Qed.

(** Lists of ids by class cover the ids once. *)
Lemma classes_partition (cls : Z -> option nat) (ids : list Z) (keys : list (list Z)) :
  NoDup ids ->
  (forall k l, keys !! k = Some l -> NoDup l /\ forall i, i ∈ l <-> cls i = Some k) ->
  (forall i, i ∈ ids <-> exists k, (k < length keys)%nat /\ cls i = Some k) ->
  zsum (map (fun l => Z.of_nat (length l)) keys) = Z.of_nat (length ids).
Proof.
  intros Hids Hkeys Hcover. assert (ids ≡ₚ concat keys) as ->.
  { apply NoDup_Permutation; [done | |].
    - apply NoDup_concat_index; [intros k l Hl; apply (Hkeys k l Hl)|]. intros k1 k2 l1 l2 i H1 H2 Hi1 Hi2.
      apply (Hkeys _ _ H1) in Hi1. apply (Hkeys _ _ H2) in Hi2. congruence.
    - intros i. rewrite Hcover, elem_of_list_concat. split.
      + intros (k & Hk & Hcls). apply lookup_lt_is_Some_2 in Hk as [l Hl]. exists l. split; [by apply (Hkeys k l Hl) | by eapply list_elem_of_lookup_2].
      + intros (l & Hi & Hl). apply list_elem_of_lookup in Hl as [k Hk]. exists k. split; [by eapply lookup_lt_Some|]. by apply (Hkeys k l Hk). }
  clear. induction keys as [|l keys IH]; [done|]. cbn. rewrite length_app, Nat2Z.inj_add, IH. done.
Qed.

(** The gauge in which a deposit is counted: the queued and swept deposits
    are in none. *)
Definition stage_class (st : Stage) : nat :=
  match st with
  | StQueued => 0
  | StSwept _ => 1
  | StFinalized _ => 2
  | StPending _ _ _ => 3
  | StMinted _ _ _ => 4
  | StDropped _ => 5
  | StQuarantined _ SweepUnreadable => 6
  | StQuarantined _ (MintUnresolved _ _) => 7
  end.

Definition class_of (L : Lifecycle) (i : DepositSolId) : option nat := p ← L !! i; Some (stage_class p.2).

Lemma class_of_holds d L i k :
  implements d L -> class_of L i = Some k <-> exists dep st, holds d i dep st /\ stage_class st = k.
Proof.
  intros Him. unfold class_of. split.
  - destruct (L !! i) as [[dep st]|] eqn:Hi; [|done]. intros [= <-]. exists dep, st. split; [|done]. by apply (im_holds d L Him).
  - intros (dep & st & Hh & <-). apply (im_holds d L Him) in Hh. by rewrite Hh.
Qed.

(** The deposits of the sweeps of one stage. *)
Definition sweep_keys (sweeps : Sweeps) : list DepositSolId :=
  concat (map (fun sw => btree_keys (sw_deposits sw)) (btree_values (by_signature sweeps))).

Lemma sweep_keys_count sweeps : Z.of_nat (sweeps_deposit_count sweeps) = Z.of_nat (length (sweep_keys sweeps)).
Proof.
  unfold sweeps_deposit_count, sweep_keys. f_equal. rewrite fold_symmetric by lia.
  induction (btree_values (by_signature sweeps)) as [|sw sws IH]; [done|]. cbn. rewrite IH, length_app. f_equal.
  unfold deposit_count, btree_keys. by rewrite length_fmap, btree_iter_length.
Qed.

Lemma elem_of_sweep_keys sweeps i :
  i ∈ sweep_keys sweeps <-> exists sig sw dep, by_signature sweeps !! sig = Some sw /\ sw_deposits sw !! i = Some dep.
Proof.
  unfold sweep_keys. rewrite elem_of_list_concat. split.
  - intros (l & Hdep & (sw & -> & [sig Hsw]%elem_of_btree_values)%list_elem_of_fmap). apply elem_of_btree_keys in Hdep as [dep Hdep]. by exists sig, sw, dep.
  - intros (sig & sw & dep & Hsw & Hdep). exists (btree_keys (sw_deposits sw)). split.
    + apply elem_of_btree_keys. by exists dep.
    + apply list_elem_of_fmap. exists sw. split; [done|]. apply elem_of_btree_values. by exists sig.
Qed.

(** [stage] is the stage of the deposits of a sweep by its signature. *)
Lemma NoDup_sweep_keys d L sweeps (stage : Signature -> Stage) :
  implements d L -> (forall sig1 sig2, stage sig1 = stage sig2 -> sig1 = sig2) ->
  (forall sig sw i dep, by_signature sweeps !! sig = Some sw -> sw_deposits sw !! i = Some dep -> holds d i dep (stage sig)) ->
  NoDup (sweep_keys sweeps).
Proof.
  intros Him Hinj Hholds. unfold sweep_keys, btree_values. apply NoDup_concat_index.
  - intros k l Hl. rewrite !list_lookup_fmap in Hl. destruct (btree_iter _ !! k); [|done]. injection Hl as <-. apply NoDup_btree_keys.
  - intros k1 k2 l1 l2 i H1 H2 Hi1 Hi2. rewrite !list_lookup_fmap in H1, H2.
    destruct (btree_iter (by_signature sweeps) !! k1) as [[sig1 sw1]|] eqn:E1; [|done].
    destruct (btree_iter (by_signature sweeps) !! k2) as [[sig2 sw2]|] eqn:E2; [|done].
    injection H1 as <-. injection H2 as <-. cbn in *. apply elem_of_btree_keys in Hi1 as [dep1 Hd1], Hi2 as [dep2 Hd2].
    pose proof (list_elem_of_lookup_2 _ _ _ E1) as M1%elem_of_btree_iter. pose proof (list_elem_of_lookup_2 _ _ _ E2) as M2%elem_of_btree_iter.
    pose proof (Hholds _ _ _ _ M1 Hd1) as Hh1%(im_holds d L Him). pose proof (Hholds _ _ _ _ M2 Hd2) as Hh2%(im_holds d L Him).
    rewrite Hh1 in Hh2. injection Hh2 as _ Hsig. apply Hinj in Hsig. subst sig2.
    pose proof (NoDup_btree_keys (by_signature sweeps)) as Hnd. eapply (NoDup_lookup _ k1 k2 sig1 Hnd);
      unfold btree_keys; rewrite list_lookup_fmap; [by rewrite E1 | by rewrite E2].
Qed.

Lemma count_causes_filter qs :
  count_causes qs = (Z.of_nat (length (filter (fun q => is_sweep_unreadable q = true) qs)),
                     Z.of_nat (length (filter (fun q => is_sweep_unreadable q = false) qs))).
Proof.
  unfold count_causes. rewrite <- (Z.add_0_l (Z.of_nat (length (filter (fun q => is_sweep_unreadable q = true) qs)))) at 1.
  rewrite <- (Z.add_0_l (Z.of_nat (length (filter (fun q => is_sweep_unreadable q = false) qs)))).
  generalize 0 at 1 3 as a. generalize 0 as b. induction qs as [|q qs IH]; intros b a; cbn [fold_left]; [cbn; f_equal; lia|].
  destruct (is_sweep_unreadable q) eqn:Hq; rewrite IH; rewrite !filter_cons; rewrite !Hq;
    repeat (case_decide; try done); cbn [length fst snd]; f_equal; lia.
Qed.

Definition cause_keys (unreadable : bool) (d : Deposits) : list DepositSolId :=
  map fst (filter (fun p => is_sweep_unreadable p.2 = unreadable) (btree_iter (quarantined d))).

Lemma cause_keys_count unreadable d :
  length (cause_keys unreadable d) = length (filter (fun q => is_sweep_unreadable q = unreadable) (btree_values (quarantined d))).
Proof.
  unfold cause_keys, btree_values. rewrite length_map. induction (btree_iter (quarantined d)) as [|[i q] l IH]; [done|].
  cbn [fmap list_fmap]. rewrite !filter_cons. cbn [snd]. case_decide; cbn [length]; by rewrite IH.
Qed.

(** The ids of each class, as the maps hold them. *)
Definition class_keys (d : Deposits) : list (list DepositSolId) :=
  [btree_keys (queued d); sweep_keys (swept d); sweep_keys (finalized d); btree_keys (pending_mints d);
   btree_keys (minted d); btree_keys (dropped d); cause_keys true d; cause_keys false d].

Ltac class_member :=
  let dep := fresh "dep" in let st := fresh "st" in let Hh := fresh "Hh" in let Hc := fresh "Hc" in
  split; [|intros (dep & st & Hh & Hc); destruct st as [| | | | | |? []]; try discriminate Hc; cbn in Hh].

Lemma class_keys_spec d L k l :
  implements d L -> class_keys d !! k = Some l -> NoDup l /\ forall i, i ∈ l <-> class_of L i = Some k.
Proof.
  intros Him Hk. split.
  - destruct k as [|[|[|[|[|[|[|[|k]]]]]]]]; [injection Hk as <-..|discriminate Hk]; try apply NoDup_btree_keys.
    + apply (NoDup_sweep_keys d L (swept d) StSwept Him); [congruence|]. intros sig sw i dep Hsw Hdep. by exists sw.
    + apply (NoDup_sweep_keys d L (finalized d) StFinalized Him); [congruence|]. intros sig sw i dep Hsw Hdep. by exists sw.
    + apply StronglySorted_lt_NoDup, StronglySorted_filter_fst, btree_keys_sorted.
    + apply StronglySorted_lt_NoDup, StronglySorted_filter_fst, btree_keys_sorted.
  - intros i. rewrite (class_of_holds d L i k Him).
    destruct k as [|[|[|[|[|[|[|[|k]]]]]]]]; [injection Hk as <-..|discriminate Hk];
      rewrite ?elem_of_btree_keys, ?elem_of_sweep_keys; class_member.
    + intros [dep Hq]. by exists dep, StQueued.
    + by exists dep.
    + intros (sig & sw & dep & Hsw & Hdep). exists dep, (StSwept sig). split; [by exists sw | done].
    + destruct Hh as (sw & Hsw & Hdep). by exists signature, sw, dep.
    + intros (sig & sw & dep & Hsw & Hdep). exists dep, (StFinalized sig). split; [by exists sw | done].
    + destruct Hh as (sw & Hsw & Hdep). by exists signature, sw, dep.
    + intros [[[dep sig] amount t] Hq]. by exists dep, (StPending sig amount t).
    + by eexists.
    + intros [[[dep sig] amount ix] Hq]. by exists dep, (StMinted sig amount ix).
    + by eexists.
    + intros [[dep sig] Hq]. by exists dep, (StDropped sig).
    + by eexists.
    + intros ([j [[dep sig] cause]] & -> & [Hc Hq%elem_of_btree_iter]%list_elem_of_filter)%list_elem_of_fmap.
      exists dep, (StQuarantined sig cause). split; [done|]. by destruct cause.
    + apply list_elem_of_fmap. eexists (i, _). split; [done|]. apply list_elem_of_filter. split; [|by apply elem_of_btree_iter]. done.
    + intros ([j [[dep sig] cause]] & -> & [Hc Hq%elem_of_btree_iter]%list_elem_of_filter)%list_elem_of_fmap.
      exists dep, (StQuarantined sig cause). split; [done|]. by destruct cause.
    + apply list_elem_of_fmap. eexists (i, _). split; [done|]. apply list_elem_of_filter. split; [|by apply elem_of_btree_iter]. done.
Qed.

(** Every deposit is in exactly one class. *)
Lemma class_keys_total d L :
  implements d L -> zsum (map (fun l => Z.of_nat (length l)) (class_keys d)) = next_id d.
Proof.
  intros Him. rewrite (classes_partition (class_of L) (seqZ 0 (next_id d))).
  - rewrite length_seqZ. apply Z2Nat.id. apply (im_next d L Him).
  - apply NoDup_seqZ.
  - intros k l Hk. exact (class_keys_spec d L k l Him Hk).
  - intros i. rewrite elem_of_seqZ, Z.add_0_l, <- (im_ids d L Him). unfold class_of. split.
    + intros [[dep st] Hi]. rewrite Hi. exists (stage_class st). split; [|done]. by destruct st as [| | | | | |? []]; cbn; lia.
    + intros (k & _ & Hk). destruct (L !! i); [by eexists | done].
Qed.

(** ** Properties *)

(** The samples of a metric in a report. *)
Definition samples (report : list Metric) (name : string) : list Z :=
  match list_find (fun m => metric_name m = name) report with
  | Some (_, m) => map snd (metric_samples m)
  | None => []
  end.

Definition deposit_gauges : list string :=
  ["finalized_deposits"; "pending_mints"; "minted_swept_deposits"; "dropped_deposits"; "quarantined_swept_deposits"]%string.

Lemma metric_value_nat n total : Z.of_nat n <= total -> total < 2 ^ 53 -> metric_value (Z.of_nat n) = Z.of_nat n.
Proof. intros Hn Ht. apply as_f64_small. lia. Qed.

(** C38: the metrics account for every deposit. In a reachable state with
    fewer than 2^53 deposits, so that no count is rounded, the deposit gauges
    together with the deposits that are still queued or swept add up to the
    number of deposits ever queued: no deposit is missing and none is counted
    twice. The reported balance is within one part in 2^53 of the balance. *)
Theorem metrics_account_for_deposits `{!Platform} s log m r total_event_count :
  minter_run (s, log) -> sized log -> next_id (deposits s) < 2 ^ 53 -> 0 <= balance s ->
  let report := encode_metrics r s total_event_count m in
  zsum (concat (map (samples report) deposit_gauges))
    + len (queued (deposits s)) + Z.of_nat (sweeps_deposit_count (swept (deposits s))) = next_id (deposits s) /\
  exists reported, samples report "minter_balance" = [reported] /\ Z.abs (reported - balance s) * 2 ^ 53 <= balance s.
Proof.
  intros Hrun Hsz Hsmall Hbal. destruct (minter_run_inv _ Hrun Hsz) as (L & HI & _). cbn [fst snd] in HI.
  pose proof (class_keys_total _ _ (mi_deposits _ _ _ HI)) as Htotal. unfold class_keys in Htotal. cbn [map zsum] in Htotal.
  rewrite <- !sweep_keys_count, !cause_keys_count in Htotal. unfold btree_keys in Htotal. rewrite !length_fmap, !btree_iter_length in Htotal.
  cbn zeta. unfold encode_metrics. rewrite count_causes_filter. split.
  - change (concat _) with [metric_value (Z.of_nat (sweeps_deposit_count (finalized (deposits s)))); metric_value (len (pending_mints (deposits s)));
      metric_value (len (minted (deposits s))); metric_value (len (dropped (deposits s)));
      metric_value (Z.of_nat (length (filter (fun q => is_sweep_unreadable q = true) (btree_values (quarantined (deposits s))))));
      metric_value (Z.of_nat (length (filter (fun q => is_sweep_unreadable q = false) (btree_values (quarantined (deposits s))))))].
    unfold len. rewrite !(metric_value_nat _ (next_id (deposits s))) by (done || lia). cbn [zsum]. lia.
  - eexists. split; [reflexivity|]. by apply as_f64_error.
Qed.

Lemma metrics_account_for_deposits_witness :
  next_id (deposits example_state) = 3 /\
  zsum (concat (map (samples (encode_metrics (mkRuntimeReadings 1 1 1 1 1) example_state 15 metrics_new)) deposit_gauges))
    + len (queued (deposits example_state)) + Z.of_nat (sweeps_deposit_count (swept (deposits example_state))) = next_id (deposits example_state).
Proof.
  split; [vm_compute; reflexivity|].
  refine (proj1 (metrics_account_for_deposits example_state example_log metrics_new (mkRuntimeReadings 1 1 1 1 1) 15
    example_run example_sized _ _)); vm_compute; [reflexivity | intros [=]].
Defined.
