(* ===== verification/Http.v ===== *)
(** The HTTP endpoint of minter/src/main.rs and the log priorities of
    libs/types-internal/src/log.rs. *)
From S2P Require Import Prelude Platform ConcretePlatform Events MinterState Replay Metrics Decimal Dashboard EncodeMetrics.

(** ** Log priorities *)
Inductive Priority : Type := PriorityError | PriorityInfo | PriorityDebug.

#[global] Instance Priority_eq_dec : EqDecision Priority.
Proof. solve_decision. Defined.

(** [to_lowercase] of the ASCII letters: no other character is turned into a
    letter of a priority. *)
Definition ascii_lowercase (c : Ascii.ascii) : Ascii.ascii :=
  let n := Ascii.N_of_ascii c in
  if (65 <=? n)%N && (n <=? 90)%N then Ascii.ascii_of_N (n + 32) else c.
Definition to_lowercase (s : string) : string :=
  String.string_of_list_ascii (map ascii_lowercase (String.list_ascii_of_string s)).

Definition priority_from_str (s : string) : result Priority string :=
  let s := to_lowercase s in
  if (s =? "error")%string then Ok PriorityError
  else if (s =? "info")%string then Ok PriorityInfo
  else if (s =? "debug")%string then Ok PriorityDebug
  else Err "could not recognize priority"%string.

Definition priority_text (p : Priority) : string :=
  match p with PriorityError => "ERROR" | PriorityInfo => "INFO" | PriorityDebug => "DEBUG" end.

(** ** What the libraries provide *)

(** A log entry and the order of the entries of an answer. *)
Record LogEntry := mkLogEntry {
  entry_timestamp : Timestamp;
  entry_priority : Priority;
  entry_message : string
}.
Inductive Sort : Type := Ascending | Descending.

(** The log library: the entries of a priority that are still buffered,
    [Sort::from_str], [sort_logs] and [serialize_logs] with its size limit.
    [render_dashboard] is the rendering of the HTML template,
    [metrics_text] the text format of the metrics at a time in milliseconds. *)
Class HttpLibraries := {
  logged : Priority -> list LogEntry;
  sort_from_str : string -> option Sort;
  sort_logs : Sort -> list LogEntry -> list LogEntry;
  serialize_logs : Z -> list LogEntry -> string;
  render_dashboard : DashboardTemplate -> result string string;
  metrics_text : Z -> list Metric -> string
}.

(** The order of two entries in a sorted log. *)
Definition in_order (sort : Sort) (a b : LogEntry) : Prop :=
  match sort with
  | Ascending => entry_timestamp a <= entry_timestamp b
  | Descending => entry_timestamp b <= entry_timestamp a
  end.

Class HttpLibrariesLaws `{HttpLibraries} : Prop := {
  logged_priority : forall priority entry, entry ∈ logged priority -> entry_priority entry = priority;
  sort_logs_permutation : forall sort entries, Permutation (sort_logs sort entries) entries;
  sort_logs_sorted : forall sort entries, StronglySorted (in_order sort) (sort_logs sort entries)
}.

(** ** Requests and responses *)
Record HttpRequest := mkHttpRequest {
  path : string;
  raw_query_param : string -> option string
}.

Inductive HttpStatus : Type := StatusOk | StatusBadRequest | StatusNotFound.

(** A response is what the builder was given; the body brings the header of
    its length. *)
Record HttpResponse := mkHttpResponse {
  http_status : HttpStatus;
  headers : list (string * string);
  body : option string
}.

Definition bad_request (message : string) : HttpResponse := mkHttpResponse StatusBadRequest [] (Some message).
Definition not_found : HttpResponse := mkHttpResponse StatusNotFound [] None.

Section Endpoint.
Context `{Platform, Texts, HttpLibraries}.

(** ** Routes *)
Definition dashboard_response (request : HttpRequest) (s : State) : outcome HttpResponse :=
  match from_query_params (raw_query_param request) with
  | Err e => Done (bad_request e)
  | Ok pagination =>
      dashboard ← from_state s pagination;
      html ← expect (match render_dashboard dashboard with Ok html => Some html | Err _ => None end)
        "called `Result::unwrap()` on an `Err` value";
      Done (mkHttpResponse StatusOk [("Content-Type", "text/html; charset=utf-8")]%string (Some html))
  end.

(** The time is cast to a signed number. *)
Definition as_i64 (n : Z) : Z := if n <=? u64_max / 2 then n else n - (u64_max + 1).

Definition metrics_response (r : RuntimeReadings) (s : State) (total_event_count : Z) (m : Metrics) : HttpResponse :=
  mkHttpResponse StatusOk [("Content-Type", "text/plain; version=0.0.4"); ("Cache-Control", "no-store")]%string
    (Some (metrics_text (Z.quot (as_i64 (rr_time r)) 1000000) (encode_metrics r s total_event_count m))).

Definition ordering_from_query_params (sort : option string) (max_skip_timestamp : Z) : Sort :=
  match sort ≫= sort_from_str with
  | Some order => order
  | None => if max_skip_timestamp =? 0 then Ascending else Descending
  end.

Definition MAX_BODY_SIZE : Z := 2000000.

Definition pushed_priorities (priority : option string) : list Priority :=
  match priority_from_str <$> priority with
  | Some (Ok priority) => [priority]
  | Some (Err _) | None => [PriorityError; PriorityInfo; PriorityDebug]
  end.

(** The entries that are serialized. *)
Definition log_entries (request : HttpRequest) (max_skip_timestamp : Z) : list LogEntry :=
  let entries := concat (map logged (pushed_priorities (raw_query_param request "priority"))) in
  let entries := filter (fun entry => max_skip_timestamp <= entry_timestamp entry) entries in
  sort_logs (ordering_from_query_params (raw_query_param request "sort") max_skip_timestamp) entries.

Definition time_param (request : HttpRequest) : option Z :=
  match raw_query_param request "time" with
  | Some arg => parse_u64 arg
  | None => Some 0
  end.

Definition logs_response (request : HttpRequest) : HttpResponse :=
  match time_param request with
  | None => bad_request "failed to parse the 'time' parameter"
  | Some max_skip_timestamp =>
      mkHttpResponse StatusOk [("Content-Type", "application/json; charset=utf-8")]%string
        (Some (serialize_logs MAX_BODY_SIZE (log_entries request max_skip_timestamp)))
  end.

Definition http_request (request : HttpRequest) (r : RuntimeReadings) (s : State) (total_event_count : Z) (m : Metrics)
    : outcome HttpResponse :=
  if (path request =? "/dashboard")%string then dashboard_response request s
  else if (path request =? "/metrics")%string then Done (metrics_response r s total_event_count m)
  else if (path request =? "/logs")%string then Done (logs_response request)
  else Done not_found.
End Endpoint.

(** ** Lemmas *)
Lemma char_digit_nonneg c d : char_digit c = Some d -> 0 <= d.
Proof. unfold char_digit. cbv zeta. intros Hc. destruct (Z.leb_spec 0 (Z.of_nat (Ascii.nat_of_ascii c) - 48)); [|done].
  cbn [andb] in Hc. by case_match; simplify_eq. Qed.

Lemma digits_value_nonneg ds : Forall (fun d => 0 <= d) ds -> 0 <= digits_value ds.
Proof.
  intros Hds. unfold digits_value. cut (forall acc, 0 <= acc -> 0 <= fold_left (fun acc d => acc * 10 + d) ds acc); [by intros Hacc; apply Hacc|].
  induction Hds as [|d ds Hd _ IH]; intros acc Hacc; [done|]. cbn. apply IH. lia.
Qed.

Lemma parse_unsigned_range max s n : parse_unsigned max s = Some n -> 0 <= n <= max.
Proof.
  unfold parse_unsigned. generalize (String.list_ascii_of_string s) as cs. intros cs.
  set (cs' := match cs with c :: (_ :: _) as rest => _ | _ => _ end). destruct cs' as [|c rest]; [done|]. intros Hp.
  apply bind_Some in Hp as (ds & Hds & Hp). destruct (Z.leb_spec (digits_value ds) max) as [Hle|]; [|done]. injection Hp as <-.
  split; [|done]. apply digits_value_nonneg. apply mapM_Some in Hds.
  clear -Hds. induction Hds as [|c' d cs'' ds Hc _ IH]; [constructor|]. constructor; [by eapply char_digit_nonneg | done].
Qed.

Lemma parse_query_param_nonneg params name n : parse_query_param params name = Ok n -> 0 <= n.
Proof.
  unfold parse_query_param. destruct (params name) as [arg|]; [|intros [= <-]; lia].
  destruct (parse_usize arg) as [k|] eqn:Hk; [|done]. intros [= <-]. apply parse_unsigned_range in Hk. lia.
Qed.

(** Parsed pagination parameters are never negative, so the page is built. *)
Lemma from_query_params_page `{Platform, Texts} params p s :
  from_query_params params = Ok p -> exists template, from_state s p = Done template.
Proof.
  unfold from_query_params. destruct (parse_query_param params "quarantined_swept_deposits_start") as [a|] eqn:Ha; [|done].
  destruct (parse_query_param params "minted_sweeps_start") as [b|] eqn:Hb; [|done].
  destruct (parse_query_param params "withdrawals_start") as [c|] eqn:Hc; [|done]. intros [= <-].
  destruct (from_state_done s (mkDashboardPaginationParameters a b c)) as (template & Ht & _);
    [by eapply parse_query_param_nonneg.. | by exists template].
Qed.

Lemma to_lowercase_idemp s : to_lowercase (to_lowercase s) = to_lowercase s.
Proof.
  unfold to_lowercase. rewrite String.list_ascii_of_string_of_list_ascii, map_map. f_equal. apply map_ext.
  by intros [[] [] [] [] [] [] [] []].
Qed.

(** Priorities are recognized in any case, and a printed one as itself. *)
Lemma priority_text_recognized p s :
  to_lowercase s = to_lowercase (priority_text p) -> priority_from_str s = Ok p.
Proof. unfold priority_from_str. intros ->. by destruct p. Qed.

Lemma elem_of_log_entries `{HttpLibrariesLaws} request t entry :
  entry ∈ log_entries request t <->
  t <= entry_timestamp entry /\ entry ∈ logged (entry_priority entry) /\
  entry_priority entry ∈ pushed_priorities (raw_query_param request "priority").
Proof.
  unfold log_entries. rewrite sort_logs_permutation, list_elem_of_filter, elem_of_list_concat. split.
  - intros (Ht & entries & Hin & (priority & -> & Hp)%list_elem_of_fmap). by rewrite (logged_priority _ _ Hin).
  - intros (Ht & Hin & Hp). split; [done|]. exists (logged (entry_priority entry)). split; [done|]. apply list_elem_of_fmap. by eexists.
Qed.

Lemma elem_of_pushed_priorities text p :
  p ∈ pushed_priorities text <->
  match text with
  | Some text => priority_from_str text = Ok p \/ exists e, priority_from_str text = Err e
  | None => True
  end.
Proof.
  unfold pushed_priorities. assert (p ∈ [PriorityError; PriorityInfo; PriorityDebug]) as Hall by (destruct p; set_solver).
  destruct text as [text|]; cbn; [|done]. destruct (priority_from_str text) as [q|e]; [|by split; [right; exists e | intros _]].
  rewrite list_elem_of_singleton. split; [by left; subst | by intros [[= ->]|[e He]]].
Qed.

Lemma as_i64_small n : 0 <= n <= u64_max / 2 -> Z.quot (as_i64 n) 1000000 = n / 1000000.
Proof. intros Hn. unfold as_i64. rewrite (proj2 (Z.leb_le n _)) by lia. apply Z.quot_div_nonneg; lia. Qed.

(** The order that is asked for, and the one without a readable parameter. *)
Definition sort_asked `{HttpLibraries} (request : HttpRequest) (t : Z) (order : Sort) : Prop :=
  (exists text, raw_query_param request "sort" = Some text /\ sort_from_str text = Some order) \/
  (forall text, raw_query_param request "sort" = Some text -> sort_from_str text = None) /\
    (t = 0 /\ order = Ascending \/ t <> 0 /\ order = Descending).

Lemma sort_asked_ordering `{HttpLibraries} request t order :
  sort_asked request t order -> ordering_from_query_params (raw_query_param request "sort") t = order.
Proof.
  unfold ordering_from_query_params. intros [(text & -> & Ho)|(Hn & Hd)]; [cbn; by rewrite Ho|].
  assert (raw_query_param request "sort" ≫= sort_from_str = None) as ->.
  { destruct (raw_query_param request "sort") as [text|]; [|done]. cbn. by apply Hn. }
  destruct Hd as [[-> ->]|[Ht ->]]; [done|]. destruct (Z.eqb_spec t 0); done.
Qed.

(** The time that is asked for. *)
Definition time_asked (request : HttpRequest) (t : Z) : Prop :=
  raw_query_param request "time" = None /\ t = 0 \/
  exists text, raw_query_param request "time" = Some text /\ parse_u64 text = Some t.

Section Responses.
Context `{!Platform, !Texts, !HttpLibraries, !HttpLibrariesLaws}.

Lemma dashboard_response_spec request s :
  match from_query_params (raw_query_param request) with
  | Err e => dashboard_response request s = Done (bad_request e)
  | Ok p => exists template, from_state s p = Done template /\
      match render_dashboard template with
      | Ok html => dashboard_response request s = Done (mkHttpResponse StatusOk [("Content-Type", "text/html; charset=utf-8")]%string (Some html))
      | Err _ => exists why, dashboard_response request s = Panic why
      end
  end.
Proof.
  unfold dashboard_response. destruct (from_query_params (raw_query_param request)) as [p|e] eqn:Hp; [|done].
  destruct (from_query_params_page _ p s Hp) as [template Ht]. exists template. split; [done|]. rewrite Ht. cbn [mbind outcome_bind].
  destruct (render_dashboard template); cbn; [done | by eexists].
Qed.

Lemma logs_response_spec request t :
  time_asked request t ->
  exists entries, logs_response request =
      mkHttpResponse StatusOk [("Content-Type", "application/json; charset=utf-8")]%string (Some (serialize_logs MAX_BODY_SIZE entries)) /\
    (forall order, sort_asked request t order -> StronglySorted (in_order order) entries) /\
    (forall entry, entry ∈ entries <-> t <= entry_timestamp entry /\ entry ∈ logged (entry_priority entry) /\
       match raw_query_param request "priority" with
       | Some text => priority_from_str text = Ok (entry_priority entry) \/ exists e, priority_from_str text = Err e
       | None => True
       end).
Proof.
  intros Ht. assert (time_param request = Some t) as Hp.
  { unfold time_param. by destruct Ht as [[-> ->]|(text & -> & Ht)]. }
  unfold logs_response. rewrite Hp. exists (log_entries request t). split_and!; [done | |].
  - intros order <-%sort_asked_ordering. apply sort_logs_sorted.
  - intros entry. by rewrite elem_of_log_entries, elem_of_pushed_priorities.
Qed.
End Responses.

(** ** Properties *)

#[export] Instance in_order_dec sort a b : Decision (in_order sort a b).
Proof. destruct sort; apply Z_le_dec. Defined.
#[export] Instance in_order_trans sort : Transitive (in_order sort).
Proof. intros a b c. destruct sort; cbn; lia. Qed.
#[export] Instance in_order_total sort : Total (in_order sort).
Proof. intros a b. destruct sort; cbn; lia. Qed.

#[export] Instance concrete_http : HttpLibraries := {|
  logged priority :=
    match priority with
    | PriorityError => [mkLogEntry 7 PriorityError "seven"]
    | PriorityInfo => [mkLogEntry 3 PriorityInfo "three"; mkLogEntry 9 PriorityInfo "nine"]
    | PriorityDebug => [mkLogEntry 5 PriorityDebug "five"]
    end;
  sort_from_str s := if (s =? "asc")%string then Some Ascending else if (s =? "desc")%string then Some Descending else None;
  sort_logs sort := merge_sort (in_order sort);
  serialize_logs size entries := foldr String.append ""%string (map (fun entry => entry_message entry ++ " ")%string entries);
  render_dashboard template := Ok "page"%string;
  metrics_text now metrics := "metrics"%string
|}.

#[export] Instance concrete_http_laws : HttpLibrariesLaws.
Proof.
  split.
  - intros [] entry; cbn; set_solver.
  - intros sort entries. apply merge_sort_Permutation.
  - intros sort entries. apply StronglySorted_merge_sort; apply _.
Qed.

(** C40: the HTTP endpoint answers every request. The dashboard is the
    rendered page of the state, or an error when a page number cannot be read,
    and only a failure to render it traps. The metrics are all metrics of the
    state and the runtime at the time in milliseconds. The logs are the entries
    that were logged at the priority asked for (at any, when none is
    recognized) at or after the time asked for, in the order asked for, which
    is ascending without a time and descending with one when no order is
    recognized; an unreadable time is an error, as is an unknown path. *)
Theorem http_request_answers `{!Platform, !Texts, !HttpLibraries, !HttpLibrariesLaws} request r s total_event_count m :
  let answer := http_request request r s total_event_count m in
  (path request = "/dashboard"%string ->
     match from_query_params (raw_query_param request) with
     | Err e => answer = Done (bad_request e)
     | Ok p => exists template, from_state s p = Done template /\
         match render_dashboard template with
         | Ok html => answer = Done (mkHttpResponse StatusOk [("Content-Type", "text/html; charset=utf-8")]%string (Some html))
         | Err _ => exists why, answer = Panic why
         end
     end) /\
  (path request = "/metrics"%string -> 0 <= rr_time r <= u64_max / 2 ->
     answer = Done (mkHttpResponse StatusOk
       [("Content-Type", "text/plain; version=0.0.4"); ("Cache-Control", "no-store")]%string
       (Some (metrics_text (rr_time r / 1000000) (encode_metrics r s total_event_count m))))) /\
  (path request = "/logs"%string -> forall t, time_asked request t ->
     exists entries, answer = Done (mkHttpResponse StatusOk
         [("Content-Type", "application/json; charset=utf-8")]%string (Some (serialize_logs MAX_BODY_SIZE entries))) /\
       (forall order, sort_asked request t order -> StronglySorted (in_order order) entries) /\
       (forall entry, entry ∈ entries <-> t <= entry_timestamp entry /\ entry ∈ logged (entry_priority entry) /\
          match raw_query_param request "priority" with
          | Some text => priority_from_str text = Ok (entry_priority entry) \/ exists e, priority_from_str text = Err e
          | None => True
          end)) /\
  (path request = "/logs"%string -> ~ (exists t, time_asked request t) ->
     answer = Done (bad_request "failed to parse the 'time' parameter")) /\
  (~ path request ∈ ["/dashboard"; "/metrics"; "/logs"]%string -> answer = Done not_found).
Proof.
  intros answer. unfold answer, http_request. split_and!.
  - intros ->. apply dashboard_response_spec.
  - intros -> Hr. cbn. unfold metrics_response. by rewrite as_i64_small.
  - intros -> t Ht. cbn. destruct (logs_response_spec request t Ht) as (entries & -> & ? & ?). by exists entries.
  - intros -> Hn. cbn. unfold logs_response. destruct (time_param request) as [t|] eqn:Ht; [|done]. destruct Hn. exists t.
    unfold time_param in Ht. destruct (raw_query_param request "time") as [text|] eqn:E; [right; by exists text | left; by injection Ht as <-].
  - intros Hn. rewrite !elem_of_cons in Hn.
    destruct (String.eqb_spec (path request) "/dashboard"); [tauto|]. destruct (String.eqb_spec (path request) "/metrics"); [tauto|].
    destruct (String.eqb_spec (path request) "/logs"); [tauto | done].
Qed.

Definition example_log_request : HttpRequest :=
  mkHttpRequest "/logs" (fun name => if (name =? "time")%string then Some "5"%string else if (name =? "priority")%string then Some "Info"%string else None).

(** The logs since a time, latest first. *)
Lemma http_request_answers_witness :
  exists entries,
    http_request example_log_request (mkRuntimeReadings 0 0 0 0 0) example_state 0 metrics_new =
      Done (mkHttpResponse StatusOk [("Content-Type", "application/json; charset=utf-8")]%string (Some "nine "%string)) /\
    serialize_logs MAX_BODY_SIZE entries = "nine "%string /\ StronglySorted (in_order Descending) entries.
Proof.
  destruct (http_request_answers example_log_request (mkRuntimeReadings 0 0 0 0 0) example_state 0 metrics_new)
    as (_ & _ & Hlogs & _).
  destruct (Hlogs eq_refl 5) as (entries & Hr & Hsort & _); [right; exists "5"%string; split; vm_compute; reflexivity|].
  exists entries. split; [vm_compute; reflexivity|]. split; [|apply Hsort].
  - vm_compute in Hr. injection Hr as Hr. symmetry. exact Hr.
  - right. split; [discriminate|]. right. split; [discriminate | reflexivity].
Defined.
