(* ===== verification/Canister.v ===== *)
(** minter/src/main.rs: installation, upgrade and the endpoints of the
    canister, with what the messages of the endpoints do to the state: they
    record their own events and change transient data. *)
From S2P Require Import Prelude Platform ConcretePlatform InsertionOrderedMap TimedSizedMap Watchlist NoncePool Events Sweeps Deposits SolTransfer MinterState Replay Invariants Safety Interleaving Guards Rpc Withdraw Memo Metrics Mint DepositSol SweepTasks Monitor Decimal Dashboard.

(** ** Installation and upgrade *)
Inductive MinterArg : Type := ArgInit (args : InitArgs) | ArgUpgrade (args : UpgradeArgs).

(** [ic_cdk::api::canister_self] and [msg_caller] are arguments; an absent
    subaccount is the empty one. *)
Section Endpoints.
Context `{Platform}.

Definition canister_init (args : MinterArg) (now : Timestamp) : outcome Config :=
  match args with
  | ArgInit args => init args now
  | ArgUpgrade _ => Panic "cannot init canister state with upgrade args"
  end.

Definition canister_post_upgrade (log : list Event) (args : option MinterArg) (now : Timestamp) : outcome Config :=
  match args with
  | Some (ArgInit _) => Panic "cannot upgrade canister state with init args"
  | Some (ArgUpgrade args) => post_upgrade log (Some args) now
  | None => post_upgrade log None now
  end.

(** ** Endpoints *)
Definition non_anonymous_account (msg_caller : Principal) (owner : option Principal) (subaccount : bytes) : outcome Account :=
  let account := resolve_account msg_caller owner subaccount in
  assert_non_anonymous_account account;; Done account.

Definition valid_deposit_account (msg_caller canister_self : Principal) (owner : option Principal) (subaccount : bytes)
    : outcome Account :=
  let account := resolve_account msg_caller owner subaccount in
  assert_valid_deposit_owner account canister_self;; Done account.

Definition get_deposit_address_endpoint (s : State) (msg_caller canister_self : Principal) (owner : option Principal)
    (subaccount : bytes) : outcome Address :=
  account ← valid_deposit_account msg_caller canister_self owner subaccount;
  get_deposit_address s account.

Definition deposit_sol_endpoint (s : State) (msg_caller canister_self : Principal) (msg_cycles_available : Z)
    (owner : option Principal) (subaccount : bytes) : outcome (State * (result DepositSolId DepositSolError + BalanceCall)) :=
  deposit_sol_start s canister_self msg_cycles_available (resolve_account msg_caller owner subaccount).

Definition deposit_sol_status_endpoint (s : State) (deposit_id : DepositSolId) : DepositSolStatus := deposit_status s deposit_id.

Definition watch_deposit_address_endpoint (s : State) (msg_caller canister_self : Principal) (subaccount : bytes) (now : Timestamp)
    : outcome (State * result WatchDepositAddressOk WatchDepositAddressError) :=
  account ← non_anonymous_account msg_caller None subaccount;
  watch_deposit_address s canister_self account now.

(** Up to the call of the ledger. *)
Definition withdraw_sol_endpoint (s : State) (msg_caller : Principal) (from_subaccount : bytes) (amount : Lamport) (address : string)
    : outcome (result (State * Address) WithdrawSolError) :=
  account ← non_anonymous_account msg_caller None from_subaccount;
  Done (withdraw_request s account amount address).

Definition withdraw_sol_status_endpoint (s : State) (block_index : LedgerBurnIndex) : WithdrawSolStatus :=
  withdrawal_status s block_index.

Record MinterInfo := mkMinterInfo {
  mi_deposit_sol_fee : Z;
  mi_minimum_withdrawal_amount : Lamport;
  mi_minimum_deposit_amount : Lamport;
  mi_withdrawal_fee : Lamport;
  mi_deposit_sol_required_cycles : Z;
  mi_balance : Lamport;
  mi_minter_address : option string;
  mi_nonce_accounts : list string;
  mi_automatic_deposit_fee : option Lamport;
  mi_collected_automatic_deposit_fees : option Lamport
}.

Definition get_minter_info `{Texts} (s : State) : MinterInfo :=
  mkMinterInfo (deposit_sol_fee s) (minimum_withdrawal_amount s) (minimum_deposit_amount s) (withdrawal_fee s)
    (deposit_sol_required_cycles s) (balance s)
    (match minter_public_key s with Some key => Some (address_text (minter_address key)) | None => None end)
    (map address_text (bset_iter (list_to_set (np_addresses (nonce_pool s))))) (automatic_deposit_fee s)
    (Some (collected_automatic_deposit_fees s)).
End Endpoints.

(** ** The messages of the endpoints

    An endpoint that awaits is cut there; the answers are arguments. *)
Section Messages.
Context `{Platform}.

Inductive endpoint_step : Tracked -> Tracked -> Prop :=
  (** deposit_sol: its call, and the callback with the balance. *)
  | es_deposit_sol s log m caller self cycles owner subaccount s' r :
      deposit_sol_endpoint s caller self cycles owner subaccount = Done (s', r) -> endpoint_step (s, log, m) (s', log, m)
  | es_deposit_sol_callback c m account call response accept refunded now c' r :
      deposit_sol_callback c account call response accept refunded now = (c', r) -> endpoint_step (c, m) (c', m)
  | es_watch s log m caller self subaccount now s' r :
      is_u64 now -> watch_deposit_address_endpoint s caller self subaccount now = Done (s', r) ->
      endpoint_step (s, log, m) (s', log, m)
  (** withdraw_sol: its call, the answer of the ledger, and a trap on it. *)
  | es_withdraw s log m caller subaccount amount address s' destination :
      withdraw_sol_endpoint s caller subaccount amount address = Done (Ok (s', destination)) ->
      endpoint_step (s, log, m) (s', log, m)
  | es_withdraw_burned c m from amount destination response now c' r :
      withdraw_burned c from amount destination response now = Done (c', r) -> endpoint_step (c, m) (c', m)
  | es_withdraw_trapped s log m from :
      endpoint_step (s, log, m) (guard_drop PendingWithdrawalRequests s from, log, m).

(** ** Lemmas *)
Lemma deposit_op_watchlist d op d' :
  deposit_op d op = Done d' -> wl_wf (watchlist d) -> wl_wf (watchlist d').
Proof.
  destruct op; cbn [deposit_op].
  - intros (_ & _ & w & Hw & ->)%queue_Done Hwf. cbn. destruct (wl_remove_spec _ (qd_account deposit) Hwf) as (w' & Hw' & ? & _). congruence.
  - intros ([d1 r] & (_ & q & l & s & _ & _ & _ & _ & _ & _ & ->)%sweep_Done & Hd')%bind_Done. apply Done_inv in Hd'. by subst.
  - by intros (s & _ & _ & ->)%drop_swept_Done.
  - by intros (s & _ & _ & _ & ->)%finalize_swept_Done.
  - intros ([d1 s] & (_ & _ & p & _ & ->)%credit_sweep_Done & Hd')%bind_Done. apply Done_inv in Hd'. by subst.
  - by intros (s & _ & ->)%quarantine_sweep_Done.
  - by intros (p & _ & _ & ->)%mint_Done.
  - by intros (p & _ & ->)%quarantine_pending_mint_Done.
Qed.

Lemma event_watchlist s ev t s' :
  apply_state_transition s ev t = Done s' -> wl_wf (watchlist (deposits s)) -> wl_wf (watchlist (deposits s')).
Proof.
  intros [E|(op & Hop & _)]%event_deposit_op Hwf; [by rewrite E | by eapply deposit_op_watchlist].
Qed.

Lemma run_watchlist c : minter_run c -> wl_wf (watchlist (deposits c.1)).
Proof.
  induction 1 as [args now c Hinit | c c' Hrun IH Hstep].
  - unfold init in Hinit. destruct (state_try_from args) as [s|] eqn:Hs; [|done]. apply Done_inv in Hinit. subst c. cbn [fst].
    apply state_try_from_erase in Hs. rewrite <- Hs. apply watchlist_default_wf.
  - destruct Hstep as [s log ev now s' log' Hev | s log s' _ Hwf | s log args now s' log' Hup]; cbn [fst] in *; [| done |].
    + apply bind_Done in Hev as (s1 & Hs1 & Hlog). apply Done_inv in Hlog. injection Hlog as <- <-. by eapply event_watchlist.
    + pose proof (minter_run_replay _ Hrun) as Hrep. cbn [fst snd] in Hrep. unfold post_upgrade in Hup. rewrite Hrep in Hup.
      cbn [mbind outcome_bind] in Hup. destruct args as [args|].
      * apply bind_Done in Hup as (s1 & Hs1 & Hlog). apply Done_inv in Hlog. injection Hlog as <- <-.
        eapply event_watchlist; [exact Hs1 | apply watchlist_default_wf].
      * apply Done_inv in Hup. injection Hup as <- <-. apply watchlist_default_wf.
Qed.

Lemma steps_run c c' : minter_run c -> rtc minter_step c c' -> minter_run c'.
Proof. intros Hrun Hsteps. induction Hsteps; [done|]. apply IHHsteps. by eapply run_step. Qed.

Lemma steps_log c c' : minter_run c -> rtc minter_step c c' -> c.2 `prefix_of` c'.2.
Proof.
  intros Hrun Hsteps. induction Hsteps as [|c c1 c' Hstep Hsteps IH]; [done|]. etransitivity; [|apply IH; by eapply run_step].
  destruct Hstep as [s log ev now s' log' Hev | s log s' _ _ | s log args now s' log' Hup]; cbn [snd]; [| done |].
  - apply bind_Done in Hev as (s1 & _ & Hlog). apply Done_inv in Hlog. injection Hlog as _ <-. by eexists.
  - unfold post_upgrade in Hup. apply bind_Done in Hup as (s0 & _ & Hup). destruct args as [args|].
    + apply bind_Done in Hup as (s1 & _ & Hlog). apply Done_inv in Hlog. injection Hlog as _ <-. by eexists.
    + apply Done_inv in Hup. by injection Hup as _ <-.
Qed.

(** Guards are transient. *)
Lemma quiet_guard P s log s' :
  minter_run (s, log) -> erase s' = erase s -> deposits s' = deposits s -> active_tasks s' = active_tasks s ->
  rtc (quiet_step P) (s, log) (s', log).
Proof. intros Hrun He Hd Ha. apply rtc_once, quiet_transient; [done | | done]. rewrite Hd. exact (run_watchlist _ Hrun). Qed.

Lemma quiet_then_guard P c s log s' :
  minter_run c -> rtc (quiet_step P) c (s, log) -> erase s' = erase s -> deposits s' = deposits s -> active_tasks s' = active_tasks s ->
  rtc (quiet_step P) c (s', log).
Proof.
  intros Hrun Hsteps He Hd Ha. etransitivity; [exact Hsteps|]. apply quiet_guard; [|done..].
  eapply steps_run; [exact Hrun | by eapply quiet_minter].
Qed.

Lemma endpoint_event s log ev now c :
  owned OwnerEndpoint ev -> process_event s log ev now = Done c -> rtc (quiet_step (owned OwnerEndpoint)) (s, log) c.
Proof. intros Ho Hev. eapply quiet_of_records, records_once; [exact Ho | exact Hev]. Qed.

Lemma guard_new_transient R `{PendingRequests R} s account s' :
  (forall accounts s, erase (set_pending_requests (R := R) accounts s) = erase s /\
     deposits (set_pending_requests (R := R) accounts s) = deposits s /\
     active_tasks (set_pending_requests (R := R) accounts s) = active_tasks s) ->
  guard_new R s account = Ok s' -> erase s' = erase s /\ deposits s' = deposits s /\ active_tasks s' = active_tasks s.
Proof. intros Hset. unfold guard_new. repeat case_match; try done. intros [= <-]. apply Hset. Qed.

Lemma deposit_sol_start_steps s log self cycles account s' r :
  minter_run (s, log) -> deposit_sol_start s self cycles account = Done (s', r) -> rtc (quiet_step (owned OwnerEndpoint)) (s, log) (s', log).
Proof.
  intros Hrun. unfold deposit_sol_start. intros (_ & _ & Hst)%bind_Done.
  destruct (deposit_sol_guard s account) as [s1|e] eqn:Hg; [|by apply Done_inv in Hst as [= <- _]].
  apply guard_new_transient in Hg as (He & Hd & Ha); [|done]. pose proof (quiet_guard (owned OwnerEndpoint) _ _ _ Hrun He Hd Ha) as H1.
  assert (forall x, Done (drop_deposit_guard s1 account, x) = Done (s', r) -> rtc (quiet_step (owned OwnerEndpoint)) (s, log) (s', log)) as Hret.
  { intros x Hx. apply Done_inv in Hx. injection Hx as <- _. by eapply quiet_then_guard. }
  destruct (check_caller_available_cycles _ _); [|by eapply Hret].
  apply bind_Done in Hst as (o & _ & Hst). destruct o as [[]|]; [by eapply Hret..|].
  destruct (minter_public_key_or_unavailable s1); [|by eapply Hret]. by apply Done_inv in Hst as [= <- _].
Qed.

Lemma deposit_sol_callback_steps c account call response accept refunded now c' r :
  minter_run c -> deposit_sol_callback c account call response accept refunded now = (c', r) -> rtc (quiet_step (owned OwnerEndpoint)) c c'.
Proof.
  intros Hrun. destruct c as [s log]. unfold deposit_sol_callback.
  destruct (deposit_sol_finish _ _ _ _ _ _ _) as [[c1 r1]|] eqn:Hf; intros [= <- <-]; [|by apply quiet_guard].
  unfold deposit_sol_finish in Hf. apply bind_Done in Hf as (_ & _ & Hf). destruct (deposit_balance_result _ _) as [b|].
  - apply bind_Done in Hf as (db & _ & Hf). apply bind_Done in Hf as ([[s1 log1] id] & Hq & Hf). apply Done_inv in Hf. injection Hf as <- <-.
    unfold queue_deposit in Hq. apply bind_Done in Hq as (c2 & Hev & Hq). apply Done_inv in Hq. injection Hq as -> _.
    eapply quiet_then_guard; [exact Hrun | by eapply endpoint_event; [|exact Hev] | done..].
  - apply Done_inv in Hf. injection Hf as <- <-. by apply quiet_guard.
Qed.

Lemma watch_steps s log self account now s' r :
  minter_run (s, log) -> is_u64 now -> watch_deposit_address s self account now = Done (s', r) -> rtc (quiet_step (owned OwnerEndpoint)) (s, log) (s', log).
Proof.
  intros Hrun Hnow Hw. unfold watch_deposit_address in Hw. apply bind_Done in Hw as (_ & _ & Hw).
  destruct (minter_public_key_or_unavailable s) as [key|]; [|by apply Done_inv in Hw as [= <- _]].
  destruct (automatic_deposit_fee s); [|by apply Done_inv in Hw as [= <- _]].
  apply bind_Done in Hw as (o & _ & Hw). destruct o as [[]|]; [by apply Done_inv in Hw as [= <- _]..|].
  apply bind_Done in Hw as ([w reg] & Hreg & Hw).
  destruct (wl_register_spec _ now account (account_address key account) (run_watchlist _ Hrun) Hnow) as (w' & r' & Hw' & Hwf & _).
  cbn [fst] in Hw'. rewrite Hreg in Hw'. apply Done_inv in Hw'. injection Hw' as -> ->.
  apply rtc_once. destruct r' as [|[]]; apply Done_inv in Hw; injection Hw as <- _; by apply quiet_transient.
Qed.

Lemma withdraw_request_steps s log from amount address s' destination :
  minter_run (s, log) -> withdraw_request s from amount address = Ok (s', destination) -> rtc (quiet_step (owned OwnerEndpoint)) (s, log) (s', log).
Proof.
  intros Hrun. unfold withdraw_request. case_match; [done|].
  destruct (address_from_str address); cbn [map_err result_bind]; [|done]. destruct (validate_destination _ _); cbn [result_bind]; [|done].
  destruct (validate_nonce_pool_not_empty s); cbn [result_bind]; [|done].
  destruct (withdrawal_guard s from) as [s1|] eqn:Hg; cbn [map_err result_bind]; [|done]. intros [= <- _].
  apply guard_new_transient in Hg as (He & Hd & Ha); [|done]. by apply quiet_guard.
Qed.

Lemma withdraw_burned_steps c from amount destination response now c' r :
  minter_run c -> withdraw_burned c from amount destination response now = Done (c', r) -> rtc (quiet_step (owned OwnerEndpoint)) c c'.
Proof.
  intros Hrun Hw. destruct c as [s log]. unfold withdraw_burned in Hw. apply bind_Done in Hw as (b & _ & Hw). destruct b as [ix|e].
  - apply bind_Done in Hw as (a & _ & Hw). apply bind_Done in Hw as ([s1 log1] & Hev & Hw). apply Done_inv in Hw. injection Hw as <- _.
    eapply quiet_then_guard; [exact Hrun | by eapply endpoint_event; [|exact Hev] | done..].
  - apply Done_inv in Hw. injection Hw as <- _. by apply quiet_guard.
Qed.

Lemma endpoint_quiet c c' : minter_run c.1 -> endpoint_step c c' -> rtc (quiet_step (owned OwnerEndpoint)) c.1 c'.1.
Proof.
  intros Hrun Hstep. destruct Hstep; cbn [fst] in *.
  - by eapply deposit_sol_start_steps.
  - by eapply deposit_sol_callback_steps.
  - match goal with Hw : watch_deposit_address_endpoint _ _ _ _ _ = _ |- _ => apply bind_Done in Hw as (? & _ & Hw); by eapply watch_steps end.
  - match goal with Hw : withdraw_sol_endpoint _ _ _ _ _ = _ |- _ => apply bind_Done in Hw as (? & _ & Hw); apply Done_inv in Hw end.
    by eapply withdraw_request_steps.
  - by eapply withdraw_burned_steps.
  - by apply quiet_guard.
Qed.
End Messages.
