(* ===== verification/System.v ===== *)
(** The canister as a whole: its heap, the rounds of the timer tasks that are
    waiting for answers, and the registered timers. A step is one message:
    a timer fires, a call is answered, a callback traps, an endpoint runs, or
    the canister is upgraded, which forgets the waiting rounds and the timers
    and registers the timers afresh. *)
From S2P Require Import Prelude Platform ConcretePlatform InsertionOrderedMap TimedSizedMap Watchlist NoncePool Events Sweeps Deposits SolTransfer MinterState Replay Invariants Safety Interleaving Guards Rpc Withdraw Memo Metrics Mint DepositSol SweepTasks Monitor Async Tasks Delivery Canister.

(** ** Timers of the canister *)
Definition interval_of (task : TaskType) : Z :=
  match task with
  | SweepDeposits => SWEEP_DEPOSITS_DELAY
  | TaskMint => PROCESS_PENDING_MINTS_DELAY
  | FinalizeTransactions => FINALIZE_TRANSACTIONS_DELAY
  | WithdrawalProcessing => WITHDRAWAL_PROCESSING_DELAY
  end.

Definition setup_timers (w : World) (now : Timestamp) : World :=
  let w := set_timer 0 FetchPublicKey w now in
  let w := set_timer_interval WITHDRAWAL_PROCESSING_DELAY (RunTask WithdrawalProcessing) w now in
  let w := set_timer_interval SWEEP_DEPOSITS_DELAY (RunTask SweepDeposits) w now in
  let w := set_timer_interval PROCESS_PENDING_MINTS_DELAY (RunTask TaskMint) w now in
  set_timer_interval FINALIZE_TRANSACTIONS_DELAY (RunTask FinalizeTransactions) w now.

Section System.
Context `{Platform} `{SolanaDecoders} (deserialize_raw : bytes -> option PublicKey).

(** ** Rounds

    [let _guard = match TimerGuard::new(task) { Ok(guard) => guard, Err(_) => return }]
    at the beginning of every task, and the drop of the guard at its end. *)
Definition acquire (job : Job) (w : World) : option World :=
  match job with
  | FetchPublicKey => Some w
  | RunTask task =>
      match timer_guard_new (w_state w) task with Ok s => Some (with_state w s) | Err _ => None end
  end.

Definition release (job : Job) (w : World) : World :=
  match job with
  | FetchPublicKey => w
  | RunTask task => with_state w (timer_guard_drop (w_state w) task)
  end.

(** After a message: the guard is dropped when the function returned. *)
Definition suspend (job : Job) (w : World) (t : Task unit) : World * option (Task unit) :=
  match t with TReturn _ => (release job w, None) | _ => (w, Some t) end.

(** A timer starts a round; a trap undoes the message. *)
Definition start_job (job : Job) (w : World) (now : Timestamp) : World * option (Task unit) :=
  match acquire job w with
  | None => (w, None)
  | Some w1 =>
      match run_task (job_task deserialize_raw job) w1 now with
      | Done (w2, t) => suspend job w2 t
      | Panic _ => (w, None)
      end
  end.

(** A callback traps: its future is dropped in a message of its own, which
    undoes its changes if it traps too. *)
Definition abort_job (job : Job) (t : Task unit) (w : World) (now : Timestamp) : World :=
  match drop_task t w now with Done w => release job w | Panic _ => w end.

(** A call of the round is answered. *)
Definition resume_job (job : Job) (t : Task unit) (answers : forall r, Answer r) (i : nat) (w : World) (now : Timestamp)
    : option (World * option (Task unit)) :=
  t' ← deliver answers i t;
  Some match run_task t' w now with
    | Done (w', t'') => suspend job w' t''
    | Panic _ => (abort_job job t w now, None)
    end.

(** ** The machine *)
Record Round := mkRound { rd_id : nat; rd_job : Job; rd_rest : Task unit }.

Record Machine := mkMachine {
  mc_world : World;
  mc_rounds : list Round;
  mc_next_id : nat;
  mc_now : Timestamp
}.

Definition waiting (id : nat) (job : Job) (rest : option (Task unit)) : list Round :=
  match rest with Some t => [mkRound id job t] | None => [] end.

(** A timer with an interval is armed again, for some time in the next interval. *)
Definition rearm (tm : Timer) (due : Timestamp) : list Timer :=
  match tm_interval tm with Some p => [mkTimer due (Some p) (tm_job tm)] | None => [] end.

(** The label says which round a message belongs to, if any. *)
Inductive machine_step : option nat -> Machine -> Machine -> Prop :=
  | step_fire c pre tm post rounds next before now due w rest :
      before <= now -> tm_due tm <= now -> (forall p, tm_interval tm = Some p -> now <= due <= now + p) ->
      start_job (tm_job tm) (mkWorld c (pre ++ rearm tm due ++ post)) now = (w, rest) ->
      machine_step None (mkMachine (mkWorld c (pre ++ tm :: post)) rounds next before)
        (mkMachine w (rounds ++ waiting next (tm_job tm) rest) (S next) now)
  | step_answer w pre r post next before now answers i w' rest :
      before <= now -> resume_job (rd_job r) (rd_rest r) answers i w now = Some (w', rest) ->
      machine_step (Some (rd_id r)) (mkMachine w (pre ++ r :: post) next before)
        (mkMachine w' (pre ++ waiting (rd_id r) (rd_job r) rest ++ post) next now)
  | step_trap w pre r post next before now :
      before <= now ->
      machine_step (Some (rd_id r)) (mkMachine w (pre ++ r :: post) next before)
        (mkMachine (abort_job (rd_job r) (rd_rest r) w now) (pre ++ post) next now)
  | step_endpoint c timers rounds next before now c' :
      before <= now -> endpoint_step c c' ->
      machine_step None (mkMachine (mkWorld c timers) rounds next before) (mkMachine (mkWorld c' timers) rounds next now)
  | step_canister_upgrade s log m timers rounds next before now args c' instructions :
      before <= now -> canister_post_upgrade log args now = Done c' ->
      machine_step None (mkMachine (mkWorld (s, log, m) timers) rounds next before)
        (mkMachine (setup_timers (mkWorld (c', metrics_new <| post_upgrade_instructions_consumed := instructions |>) []) now) [] next now).

Inductive machine_run : Machine -> Prop :=
  | machine_installed args now c :
      canister_init args now = Done c ->
      machine_run (mkMachine (setup_timers (mkWorld (c, metrics_new) []) now) [] 0 now)
  | machine_message l y y' : machine_run y -> machine_step l y y' -> machine_run y'.

Definition mc_config (y : Machine) : Config := w_config (mc_world y).

(** ** Lemmas: one message of a round *)

(** What a message of a job does: it records events of the job and takes or
    drops its guard. *)
Definition job_moves (job : Job) (w w' : World) : Prop :=
  rtc (calm_step (fun ev => event_owner ev <> job_owner job)) (w_config w) (w_config w') /\
  exists l, w_timers w' = w_timers w ++ l.

#[local] Instance job_moves_preorder job : PreOrder (job_moves job).
Proof.
  split.
  - intros w. split; [done|]. exists []. by rewrite app_nil_r.
  - intros w1 w2 w3 [H1 [l1 E1]] [H2 [l2 E2]]. split; [by etransitivity|]. exists (l1 ++ l2). by rewrite E2, E1, app_assoc.
Qed.

Lemma grows_moves job w w' : grows (owned (job_owner job)) w w' -> job_moves job w w'.
Proof.
  intros [Hr Hl]. split; [|done]. eapply records_calm; [|exact Hr]. by intros ev Ho Hne.
Qed.

Lemma grows_active P w w' : grows P w w' -> active_tasks (w_state w') = active_tasks (w_state w).
Proof. intros [Hr _]. by eapply quiet_active, quiet_of_records. Qed.

Lemma moves_run job w w' : minter_run (w_config w) -> job_moves job w w' -> minter_run (w_config w').
Proof. intros Hrun [Hc _]. by eapply calm_run. Qed.

Lemma with_state_moves job w s :
  minter_run (w_config w) -> erase s = erase (w_state w) -> deposits s = deposits (w_state w) -> job_moves job w (with_state w s).
Proof.
  intros Hrun He Hd. split; [|exists []; by rewrite app_nil_r]. destruct w as [[[s0 log] m] timers]. cbn in *.
  apply rtc_once, calm_transient; [done|]. rewrite Hd. exact (run_watchlist _ Hrun).
Qed.

Lemma release_moves job w : minter_run (w_config w) -> job_moves job w (release job w).
Proof. intros Hrun. destruct job as [|task]; [reflexivity|]. by apply with_state_moves. Qed.

Lemma acquire_Some job w w1 :
  minter_run (w_config w) -> acquire job w = Some w1 ->
  job_moves job w w1 /\ w_timers w1 = w_timers w /\
  forall task, job = RunTask task -> (task ∉ active_tasks (w_state w)) /\ active_tasks (w_state w1) = {[task]} ∪ active_tasks (w_state w).
Proof.
  intros Hrun Ha. destruct job as [|task]; cbn in Ha; [by injection Ha as <-|]. unfold timer_guard_new in Ha.
  case_bool_decide; [done|]. injection Ha as <-. split_and!; [by apply with_state_moves | done | by intros ? [= <-]].
Qed.
Abbreviation active w := (active_tasks (w_state w)).

Lemma active_release job w :
  active (release job w) = match job with RunTask task => active w ∖ {[task]} | FetchPublicKey => active w end.
Proof. by destruct job. Qed.

Lemma suspend_spec job w t w' rest :
  minter_run (w_config w) -> suspend job w t = (w', rest) ->
  job_moves job w w' /\ (rest = Some t /\ w' = w \/ rest = None /\ w' = release job w).
Proof.
  intros Hrun Hs. destruct t; cbn in Hs; injection Hs as <- <-; (split; [|by auto]); [by apply release_moves | reflexivity | reflexivity].
Qed.

Lemma start_job_spec job w now w' rest :
  minter_run (w_config w) -> start_job job w now = (w', rest) ->
  job_moves job w w' /\
  match rest with
  | None => active w' = active w
  | Some t =>
      task_good (owned (job_owner job)) (drops_safely job) t /\
      match job with
      | FetchPublicKey => active w' = active w
      | RunTask task => (task ∉ active w) /\ active w' = {[task]} ∪ active w
      end
  end.
Proof.
  intros Hrun Hs. unfold start_job in Hs. destruct (acquire job w) as [w1|] eqn:Hacq; [|injection Hs as <- <-; by split].
  destruct (acquire_Some _ _ _ Hrun Hacq) as (H1 & _ & Ha). pose proof (moves_run _ _ _ Hrun H1) as Hrun1.
  destruct (run_task _ w1 now) as [[w2 t]|] eqn:Ht; [|injection Hs as <- <-; by split].
  apply (run_task_good (owned (job_owner job)) (drops_safely job)) in Ht as [Hg Hgood]; [|apply job_task_good].
  pose proof (grows_moves _ _ _ Hg) as H2. pose proof (moves_run _ _ _ Hrun1 H2) as Hrun2.
  destruct (suspend_spec _ _ _ _ _ Hrun2 Hs) as [H3 Hcase].
  split; [by etransitivity; [exact H1 | etransitivity; [exact H2 | exact H3]]|].
  apply grows_active in Hg. destruct Hcase as [[-> ->]|[-> ->]].
  - split; [done|]. destruct job as [|task]; [by rewrite Hg; injection Hacq as -> | by rewrite Hg; apply Ha].
  - rewrite active_release, Hg. destruct job as [|task]; [by injection Hacq as -> |]. destruct (Ha task eq_refl) as [Hn ->]. set_solver.
Qed.

Lemma abort_job_spec job t w now :
  minter_run (w_config w) -> task_good (owned (job_owner job)) (drops_safely job) t ->
  job_moves job w (abort_job job t w now) /\
  (active (abort_job job t w now) = active (release job w) \/
   active (abort_job job t w now) = active w /\ exists why, drop_task t w now = Panic why).
Proof.
  intros Hrun Hgood. unfold abort_job. destruct (drop_task t w now) as [w1|why] eqn:Hd; [|split; [reflexivity | eauto]].
  apply (drop_task_good (owned (job_owner job)) (drops_safely job)) in Hd; [|done]. pose proof (grows_moves _ _ _ Hd) as H1.
  split; [etransitivity; [exact H1 | by eapply release_moves, moves_run]|]. left. rewrite !active_release. by rewrite (grows_active _ _ _ Hd).
Qed.

Lemma resume_job_spec job t answers i w now w' rest :
  minter_run (w_config w) -> task_good (owned (job_owner job)) (drops_safely job) t -> resume_job job t answers i w now = Some (w', rest) ->
  job_moves job w w' /\
  match rest with
  | Some t' => task_good (owned (job_owner job)) (drops_safely job) t' /\ active w' = active w
  | None => active w' = active (release job w) \/ active w' = active w /\ exists why, drop_task t w now = Panic why
  end.
Proof.
  intros Hrun Hgood (t1 & Ht1 & Hr)%bind_Some. injection Hr as Hr. apply (deliver_good (owned (job_owner job)) (drops_safely job)) in Ht1; [|done].
  destruct (run_task t1 w now) as [[w2 t2]|] eqn:Ht.
  - apply (run_task_good (owned (job_owner job)) (drops_safely job)) in Ht as [Hg Hgood2]; [|done]. pose proof (grows_moves _ _ _ Hg) as H2.
    pose proof (moves_run _ _ _ Hrun H2) as Hrun2. destruct (suspend_spec _ _ _ _ _ Hrun2 Hr) as [H3 [[-> ->]|[-> ->]]].
    + split; [done|]. split; [done | by eapply grows_active].
    + split; [by etransitivity|]. left. rewrite !active_release. by rewrite (grows_active _ _ _ Hg).
  - injection Hr as <- <-. by apply abort_job_spec.
Qed.

(** ** The invariant: every waiting round holds the guard of its task *)
Definition round_tasks (rounds : list Round) : list TaskType :=
  omap (fun r => match rd_job r with RunTask task => Some task | FetchPublicKey => None end) rounds.

Record machine_inv (y : Machine) : Prop := {
  mv_run : minter_run (mc_config y);
  mv_good : Forall (fun r => task_good (owned (job_owner (rd_job r))) (drops_safely (rd_job r)) (rd_rest r)) (mc_rounds y);
  mv_ids : NoDup (map rd_id (mc_rounds y));
  mv_next : Forall (fun r => (rd_id r < mc_next_id y)%nat) (mc_rounds y);
  mv_tasks : NoDup (round_tasks (mc_rounds y));
  mv_guards : forall task, task ∈ round_tasks (mc_rounds y) -> task ∈ active (mc_world y)
}.

Lemma round_tasks_app l1 l2 : round_tasks (l1 ++ l2) = round_tasks l1 ++ round_tasks l2.
Proof. apply omap_app. Qed.

Lemma round_tasks_waiting id job rest :
  round_tasks (waiting id job rest) = match rest, job with Some _, RunTask task => [task] | _, _ => [] end.
Proof. by destruct rest, job. Qed.

Lemma NoDup_drop_middle {A} (l1 l2 l3 : list A) : NoDup (l1 ++ l2 ++ l3) -> NoDup (l1 ++ l3).
Proof.
  rewrite !NoDup_app. intros (H1 & Hd & _ & _ & H3). split_and!; [done | | done].
  intros x Hx Hin. apply (Hd x Hx), elem_of_app. by right.
Qed.

Lemma inv_message w pre r post next before now w' rest :
  machine_inv (mkMachine w (pre ++ r :: post) next before) -> job_moves (rd_job r) w w' ->
  match rest with
  | Some t' => task_good (owned (job_owner (rd_job r))) (drops_safely (rd_job r)) t' /\ active w' = active w
  | None => active w' = active (release (rd_job r) w) \/ active w' = active w
  end ->
  machine_inv (mkMachine w' (pre ++ waiting (rd_id r) (rd_job r) rest ++ post) next now).
Proof.
  intros [Hrun Hgood Hids Hnext Htasks Hguards] Hmoves Hrest. cbn [mc_world mc_rounds mc_next_id mc_config] in *.
  apply Forall_app in Hgood as [Hg1 [Hg2 Hg3]%Forall_cons]. apply Forall_app in Hnext as [Hn1 [Hn2 Hn3]%Forall_cons].
  change (r :: post) with ([r] ++ post) in Hids, Htasks, Hguards.
  rewrite !map_app in Hids. rewrite !round_tasks_app in Htasks. setoid_rewrite round_tasks_app in Hguards. setoid_rewrite round_tasks_app in Hguards.
  assert (round_tasks [r] = match rd_job r with RunTask task => [task] | FetchPublicKey => [] end) as Er by (cbn; by destruct (rd_job r)).
  split; cbn [mc_world mc_rounds mc_next_id mc_config].
  - by eapply moves_run.
  - apply Forall_app. split; [done|]. apply Forall_app. split; [|done]. destruct rest; [|done]. apply Forall_singleton, Hrest.
  - rewrite !map_app. destruct rest as [t'|]; [done | by eapply NoDup_drop_middle].
  - apply Forall_app. split; [done|]. apply Forall_app. split; [|done]. destruct rest; [|done]. by apply Forall_singleton.
  - rewrite !round_tasks_app, round_tasks_waiting. rewrite Er in Htasks. destruct rest as [t'|]; [by destruct (rd_job r) | by eapply NoDup_drop_middle].
  - intros task. rewrite !round_tasks_app, round_tasks_waiting. specialize (Hguards task). rewrite Er in Htasks, Hguards.
    destruct rest as [t'|]; [destruct Hrest as [_ ->]; by destruct (rd_job r)|]. rewrite app_nil_l. intros Hin.
    assert (task ∈ active w) as Ha by (apply Hguards; rewrite !elem_of_app in *; tauto).
    destruct Hrest as [E|E]; rewrite E; [rewrite active_release|done]. destruct (rd_job r) as [|task']; [done|].
    apply elem_of_difference. split; [done|]. intros ->%elem_of_singleton.
    apply NoDup_app in Htasks as (_ & Hd & Hx). apply NoDup_app in Hx as (_ & Hd' & _). apply elem_of_app in Hin as [Hin|Hin].
    + apply (Hd _ Hin). rewrite elem_of_app. left. by apply list_elem_of_singleton.
    + by apply (Hd' task'); [apply list_elem_of_singleton|].
Qed.

Lemma no_rounds_inv w next now : minter_run (w_config w) -> machine_inv (mkMachine w [] next now).
Proof.
  intros Hrun. split; [exact Hrun | constructor | constructor | constructor | constructor | by intros task ?%not_elem_of_nil].
Qed.

Lemma inv_step l y y' : machine_inv y -> machine_step l y y' -> machine_inv y'.
Proof.
  intros Hinv Hstep. destruct Hstep as
    [c pre tm post rounds next before now due w rest Hnow Hdue Hp Hs | w pre r post next before now answers i w' rest Hnow Hs
    | w pre r post next before now Hnow | c timers rounds next before now c' Hnow Hs | s log m timers rounds next before now args c' ins Hnow Hs].
  - destruct Hinv as [Hrun Hgood Hids Hnext Htasks Hguards]. cbn [mc_world mc_rounds mc_next_id mc_config] in *.
    apply start_job_spec in Hs as [Hmoves Hrest]; [|exact Hrun]. split; cbn [mc_world mc_rounds mc_next_id mc_config].
    + eapply moves_run; [|exact Hmoves]. exact Hrun.
    + apply Forall_app. split; [done|]. destruct rest as [t|]; [|done]. apply Forall_singleton. apply Hrest.
    + rewrite map_app. apply NoDup_app. split_and!; [done | | destruct rest; [apply NoDup_singleton | constructor]].
      intros id (r & -> & Hr)%list_elem_of_fmap. rewrite Forall_forall in Hnext. specialize (Hnext _ Hr).
      destruct rest; cbn; [|by intros ?%not_elem_of_nil]. intros ?%list_elem_of_singleton. lia.
    + apply Forall_app. split; [eapply Forall_impl; [exact Hnext|]; cbn; lia|]. destruct rest; [|done]. apply Forall_singleton. cbn. lia.
    + rewrite round_tasks_app, round_tasks_waiting. apply NoDup_app. destruct rest as [t|]; [destruct (tm_job tm) as [|task]|]; cbn.
      * split_and!; [done | set_solver | constructor].
      * split_and!; [done | | apply NoDup_singleton]. intros task' Hin ->%list_elem_of_singleton.
        destruct Hrest as (_ & Hn & _). by apply Hn, Hguards.
      * split_and!; [done | set_solver | constructor].
    + intros task. rewrite round_tasks_app, round_tasks_waiting, elem_of_app. specialize (Hguards task).
      change (active (mkWorld c (pre ++ tm :: post))) with (active (mkWorld c (pre ++ rearm tm due ++ post))) in Hguards.
      destruct rest as [t|]; [destruct Hrest as [_ Hrest]; destruct (tm_job tm)|]; cbn.
      * rewrite Hrest. set_solver.
      * destruct Hrest as [_ ->]. set_solver.
      * rewrite Hrest. set_solver.
  - pose proof Hinv as [Hrun Hgood _ _ _ _]. cbn [mc_rounds mc_config] in *. apply Forall_app in Hgood as [_ [Hg _]%Forall_cons].
    apply resume_job_spec in Hs as [Hmoves Hrest]; [| done | done]. eapply inv_message; [exact Hinv | done |].
    destruct rest; [done | tauto].
  - pose proof Hinv as [Hrun Hgood _ _ _ _]. cbn [mc_rounds mc_config] in *. apply Forall_app in Hgood as [_ [Hg _]%Forall_cons].
    destruct (abort_job_spec _ _ _ now Hrun Hg) as [Hmoves Hrest].
    apply (inv_message _ _ _ _ _ _ now _ None Hinv Hmoves). cbn. tauto.
  - destruct Hinv as [Hrun Hgood Hids Hnext Htasks Hguards]. cbn [mc_world mc_rounds mc_next_id mc_config] in *.
    apply endpoint_quiet in Hs; [|exact Hrun]. split; try done; cbn.
    + eapply steps_run; [exact Hrun | by eapply quiet_minter].
    + intros task Hin. change (task ∈ active_tasks c'.1.1). apply quiet_active in Hs. rewrite Hs. by apply Hguards.
  - apply no_rounds_inv. eapply run_step; [exact (mv_run _ Hinv)|]. destruct c' as [s' log'].
    destruct args as [[]|]; [done | by eapply step_upgrade..].
Qed.

(** A message that belongs to another round, or to none. *)
Definition other_step (id : nat) (y y' : Machine) : Prop := exists l, l <> Some id /\ machine_step l y y'.

Definition waits (id : nat) (y : Machine) : Prop := id ∈ map rd_id (mc_rounds y).

#[export] Instance waits_dec id y : Decision (waits id y).
Proof. unfold waits. apply _. Defined.

(** The ids of rounds are not used again. *)
Lemma gone_step id l y y' : machine_step l y y' -> (id < mc_next_id y)%nat -> ~ waits id y -> (id < mc_next_id y')%nat /\ ~ waits id y'.
Proof.
  unfold waits. intros Hstep Hlt Hn. destruct Hstep; cbn [mc_rounds mc_next_id] in *; rewrite ?map_app in *; (split; [lia|]).
  - rewrite elem_of_app. intros [?|Hw]; [done|]. destruct rest; cbn in Hw; [apply list_elem_of_singleton in Hw; lia | by apply not_elem_of_nil in Hw].
  - intros Hw. apply Hn. rewrite map_cons. destruct rest; cbn in Hw; rewrite !elem_of_app, ?elem_of_cons in *; tauto.
  - intros Hw. apply Hn. rewrite map_cons, !elem_of_app, elem_of_cons in *. tauto.
  - done.
  - by intros ?%not_elem_of_nil.
Qed.

(** Distinct rounds are of distinct tasks. *)
Lemma other_round_job y pre r0 post r task :
  machine_inv y -> mc_rounds y = pre ++ r0 :: post -> r ∈ mc_rounds y -> rd_id r0 <> rd_id r -> rd_job r = RunTask task ->
  r ∈ pre ++ post /\ rd_job r0 <> RunTask task.
Proof.
  intros Hinv E Hr Hne Hj. rewrite E in Hr. assert (r ∈ pre ++ post) as Hin.
  { rewrite elem_of_app, elem_of_cons in Hr. rewrite elem_of_app. destruct Hr as [?|[->|?]]; [by left | done | by right]. }
  split; [done|]. intros Hj0. pose proof (mv_tasks _ Hinv) as Hnd. rewrite E in Hnd. change (r0 :: post) with ([r0] ++ post) in Hnd.
  rewrite !round_tasks_app in Hnd. assert (round_tasks [r0] = [task]) as E0 by (cbn; by rewrite Hj0). rewrite E0 in Hnd.
  assert (forall l, r ∈ l -> task ∈ round_tasks l) as Ht by (intros l Hl; apply list_elem_of_omap; exists r; by rewrite Hj).
  apply NoDup_app in Hnd as (_ & Hd & Hnd). apply NoDup_app in Hnd as (_ & Hd' & _). apply elem_of_app in Hin as [Hin|Hin].
  - apply (Hd task); [by apply Ht|]. apply elem_of_app. left. by apply list_elem_of_singleton.
  - by apply (Hd' task); [apply list_elem_of_singleton | apply Ht].
Qed.

Lemma moves_calm job task w w' :
  job_moves job w w' -> job <> RunTask task -> rtc (calm_step (owned (OwnerTask task))) (w_config w) (w_config w').
Proof.
  intros [Hc _] Hne. eapply calm_weaken; [|exact Hc]. unfold owned. intros ev -> Heq. destruct job; cbn in Heq; congruence.
Qed.

(** While a round waits, the others record none of the events of its task. *)
Lemma other_step_calm r task l y y' :
  machine_inv y -> r ∈ mc_rounds y -> rd_job r = RunTask task -> l <> Some (rd_id r) -> machine_step l y y' ->
  waits (rd_id r) y' ->
  r ∈ mc_rounds y' /\ rtc (calm_step (owned (OwnerTask task))) (mc_config y) (mc_config y').
Proof.
  intros Hinv Hr Hj Hl Hstep Hw. pose proof (mv_run _ Hinv) as Hrun. destruct Hstep as
    [c pre tm post rounds next before now due w rest Hnow Hdue Hp Hs | w pre r0 post next before now answers i w' rest Hnow Hs
    | w pre r0 post next before now Hnow | c timers rounds next before now c' Hnow Hs | s log m timers rounds next before now args c' ins Hnow Hs];
    cbn [mc_rounds mc_config mc_world] in *.
  - split; [apply elem_of_app; by left|]. destruct (decide (tm_job tm = RunTask task)) as [E|Hne].
    + assert (task ∈ active (mkWorld c (pre ++ tm :: post))) as Ha.
      { apply (mv_guards _ Hinv), list_elem_of_omap. exists r. by rewrite Hj. }
      unfold start_job, acquire in Hs. rewrite E in Hs. unfold timer_guard_new in Hs.
      case_bool_decide as Hb; [|done]. by injection Hs as <- <-.
    + apply start_job_spec in Hs as [Hm _]; [|exact Hrun]. exact (moves_calm _ _ _ _ Hm Hne).
  - assert (rd_id r0 <> rd_id r) as Hne by congruence.
    destruct (other_round_job _ pre r0 post r task Hinv eq_refl Hr Hne Hj) as [Hin Hj0].
    split; [rewrite !elem_of_app in *; tauto|].
    pose proof (mv_good _ Hinv) as Hgood. cbn in Hgood. apply Forall_app in Hgood as [_ [Hg _]%Forall_cons].
    apply resume_job_spec in Hs as [Hm _]; [|done|done]. by eapply moves_calm.
  - assert (rd_id r0 <> rd_id r) as Hne by congruence.
    destruct (other_round_job _ pre r0 post r task Hinv eq_refl Hr Hne Hj) as [Hin Hj0]. split; [done|].
    pose proof (mv_good _ Hinv) as Hgood. cbn in Hgood. apply Forall_app in Hgood as [_ [Hg _]%Forall_cons].
    eapply moves_calm; [|exact Hj0]. by apply abort_job_spec.
  - split; [done|]. apply endpoint_quiet in Hs; [|exact Hrun]. eapply quiet_calm; [|exact Hs]. unfold owned. intros ev -> Hx. done.
  - by apply not_elem_of_nil in Hw.
Qed.

Lemma machine_run_inv y : machine_run y -> machine_inv y.
Proof.
  induction 1 as [args now c Hinit | l y y' _ IH Hstep]; [|by eapply inv_step].
  apply no_rounds_inv. destruct args; [by eapply run_init | done].
Qed.

Lemma step_refines l y y' : machine_inv y -> machine_step l y y' -> rtc minter_step (mc_config y) (mc_config y').
Proof.
  intros Hinv Hstep. pose proof (mv_run _ Hinv) as Hrun. pose proof (mv_good _ Hinv) as Hgood.
  assert (forall job w w', job_moves job w w' -> rtc minter_step (w_config w) (w_config w')) as Hm.
  { intros job w w' [Hc _]. eapply rtc_subrel; [|exact Hc]. intros c c' Hcc. by eapply calm_minter_step. }
  destruct Hstep as
    [c pre tm post rounds next before now due w rest _ _ _ Hs | w pre r post next before now answers i w' rest _ Hs
    | w pre r post next before now _ | c timers rounds next before now c' _ Hs | s log m timers rounds next before now args [s' log'] ins _ Hs];
    cbn [mc_rounds mc_config mc_world] in *.
  - apply start_job_spec in Hs as [Hj _]; [|exact Hrun]. exact (Hm _ _ _ Hj).
  - apply Forall_app in Hgood as [_ [Hg _]%Forall_cons]. apply resume_job_spec in Hs as [Hj _]; [|done|done]. exact (Hm _ _ _ Hj).
  - apply Forall_app in Hgood as [_ [Hg _]%Forall_cons]. eapply Hm. by apply abort_job_spec.
  - apply endpoint_quiet in Hs; [|exact Hrun]. by eapply quiet_minter.
  - apply rtc_once. destruct args as [[]|]; [done | by eapply step_upgrade..].
Qed.

Lemma others_keep_round r task y y' :
  machine_run y -> r ∈ mc_rounds y -> rd_job r = RunTask task -> rtc (other_step (rd_id r)) y y' -> waits (rd_id r) y' ->
  machine_run y' /\ r ∈ mc_rounds y' /\ rtc (calm_step (owned (OwnerTask task))) (mc_config y) (mc_config y').
Proof.
  intros Hrun Hr Hj Hsteps Hw. induction Hsteps as [y | y y1 y' (l & Hl & Hstep) Hsteps IH]; [done|].
  pose proof (machine_run_inv _ Hrun) as Hinv. pose proof (machine_message _ _ _ Hrun Hstep) as Hrun1.
  destruct (decide (waits (rd_id r) y1)) as [Hw1|Hn].
  - destruct (other_step_calm r task l y y1 Hinv Hr Hj Hl Hstep Hw1) as [Hr1 Hc1].
    destruct (IH Hrun1 Hr1 Hw) as (? & ? & ?). split_and!; [done | done | by etransitivity].
  - exfalso. assert ((rd_id r < mc_next_id y)%nat) as Hlt.
    { pose proof (mv_next _ Hinv) as Hnext. rewrite Forall_forall in Hnext. by apply Hnext. }
    assert ((rd_id r < mc_next_id y1)%nat) as Hlt1 by (inversion Hstep; subst; cbn in *; lia).
    clear -Hsteps Hn Hlt1 Hw. induction Hsteps as [y | y y1 y' (l & _ & Hstep) _ IH]; [done|].
    destruct (gone_step _ _ _ _ Hstep Hlt1 Hn) as [Hlt' Hn']. by apply IH.
Qed.

(** ** Executable steps *)
Definition fire (n : nat) (due now : Timestamp) (y : Machine) : Machine :=
  match w_timers (mc_world y) !! n with
  | Some tm =>
      if (mc_now y <=? now) && (tm_due tm <=? now)
        && match tm_interval tm with Some p => (now <=? due) && (due <=? now + p) | None => true end then
        let '(w, rest) := start_job (tm_job tm)
          (mkWorld (w_tracked (mc_world y)) (take n (w_timers (mc_world y)) ++ rearm tm due ++ drop (S n) (w_timers (mc_world y)))) now in
        mkMachine w (mc_rounds y ++ waiting (mc_next_id y) (tm_job tm) rest) (S (mc_next_id y)) now
      else y
  | None => y
  end.

Definition answer (n : nat) (answers : forall r, Answer r) (i : nat) (now : Timestamp) (y : Machine) : Machine :=
  match mc_rounds y !! n with
  | Some r =>
      match resume_job (rd_job r) (rd_rest r) answers i (mc_world y) now with
      | Some (w, rest) =>
          if mc_now y <=? now then
            mkMachine w (take n (mc_rounds y) ++ waiting (rd_id r) (rd_job r) rest ++ drop (S n) (mc_rounds y)) (mc_next_id y) now
          else y
      | None => y
      end
  | None => y
  end.

Lemma fire_step n due now y : fire n due now y = y \/ machine_step None y (fire n due now y).
Proof.
  unfold fire. destruct (w_timers (mc_world y) !! n) as [tm|] eqn:Hn; [|by left].
  destruct (_ && _ && _) eqn:Hok; [|by left]. right. destruct y as [[c timers] rounds next before]. cbn in *.
  apply andb_prop in Hok as [[H1 H2]%andb_prop H3]. destruct (start_job _ _ _) as [w rest] eqn:Hs.
  rewrite <- (take_drop_middle _ _ _ Hn) at 1. apply (step_fire _ _ _ _ _ _ _ now due); [lia | lia | | exact Hs].
  intros p Hp. rewrite Hp in H3. lia.
Qed.

Lemma answer_step n answers i now y :
  answer n answers i now y = y \/ exists r, r ∈ mc_rounds y /\ machine_step (Some (rd_id r)) y (answer n answers i now y).
Proof.
  unfold answer. destruct (mc_rounds y !! n) as [r|] eqn:Hn; [|by left].
  destruct (resume_job _ _ _ _ _ _) as [[w rest]|] eqn:Hs; [|by left]. destruct (Z.leb_spec (mc_now y) now); [|by left].
  right. exists r. split; [by eapply list_elem_of_lookup_2|]. destruct y as [w0 rounds next before]. cbn in *.
  rewrite <- (take_drop_middle _ _ _ Hn) at 1. by eapply step_answer.
Qed.

Lemma fire_run n due now y : machine_run y -> machine_run (fire n due now y).
Proof. intros Hrun. destruct (fire_step n due now y) as [E|Hs]; [by rewrite E | by eapply machine_message]. Qed.

Lemma answer_run n answers i now y : machine_run y -> machine_run (answer n answers i now y).
Proof. intros Hrun. destruct (answer_step n answers i now y) as [E|(r & _ & Hs)]; [by rewrite E | by eapply machine_message]. Qed.
End System.

(** ** Properties *)

(** An execution: the canister is installed, fetches its key, queues a deposit
    and starts a sweep, which waits for a recent block while the mint timer fires. *)
Definition example_answers (r : Request) : Answer r :=
  match r with
  | GetRecentBlock _ => Ok (7, "hash", Some 1000)
  | GetSignatureStatuses _ => (Ok tt, Err "unavailable")
  | GetAccountInfo _ => Ok (Consistent (Ok (Some (mkUiAccount "system" false "nonce"))))
  | GetTransaction _ => Ok (Consistent (Ok None))
  | SendTransaction _ _ => Err "unavailable"
  | SignWithSchnorr _ _ => fun _ _ => Ok (repeat 1 64)
  | LedgerTransfer _ => Ok (Ok 7)
  | FetchSchnorrPublicKey _ => Ok ([5], repeat 0 32)
  end.
Definition example_deserialize (raw : bytes) : option PublicKey := Some (be_value raw).

Definition machine_at (c : Config) (now : Timestamp) : Machine := mkMachine (setup_timers (mkWorld (c, metrics_new) []) now) [] 0 now.
Definition machine_installed_example : Machine :=
  machine_at (match canister_init (ArgInit example_init) 1 with Done c => c | Panic _ => (example_state, []) end) 1.
Definition machine_fetching : Machine := fire example_deserialize 0 0 1 machine_installed_example.
Definition machine_with_key : Machine := answer 0 example_answers 0 2 machine_fetching.

Definition endpoint_machine (y : Machine) (c : Config) (now : Timestamp) : Machine :=
  mkMachine (with_config (mc_world y) c) (mc_rounds y) (mc_next_id y) now.
Definition example_call : outcome (State * (result DepositSolId DepositSolError + BalanceCall)) :=
  deposit_sol_endpoint (mc_config machine_with_key).1 [3] [9] 20000000000 None [].
Definition machine_depositing : Machine :=
  match example_call with
  | Done (s, _) => endpoint_machine machine_with_key (s, (mc_config machine_with_key).2) 3
  | Panic _ => machine_with_key
  end.
Definition machine_queued : Machine :=
  match example_call with
  | Done (_, inr call) =>
      endpoint_machine machine_depositing
        (deposit_sol_callback (mc_config machine_depositing) (mkAccount [3] []) call (Ok (Consistent (Ok 5000000))) (fun amount => amount) 0 4).1 4
  | _ => machine_depositing
  end.
Definition minute_past : Timestamp := 60 * NANOS_PER_SECOND + 1.
Definition next_minute : Timestamp := minute_past + 60 * NANOS_PER_SECOND.
Definition machine_sweeping : Machine := fire example_deserialize 1 next_minute minute_past machine_queued.
Definition machine_later : Machine := fire example_deserialize 2 next_minute minute_past machine_sweeping.

Lemma endpoint_machine_run deserialize y c' now :
  machine_run deserialize y -> mc_now y <= now -> endpoint_step (w_tracked (mc_world y)) (c', (w_tracked (mc_world y)).2) ->
  machine_run deserialize (endpoint_machine y c' now).
Proof.
  intros Hrun Hnow Hs. eapply machine_message; [exact Hrun|]. destruct y as [[c timers] rounds next before]. by apply step_endpoint.
Qed.

Lemma machine_with_key_run : machine_run example_deserialize machine_with_key.
Proof. apply answer_run, fire_run. apply (machine_installed _ (ArgInit example_init)). vm_compute. reflexivity. Qed.

Lemma machine_queued_run : machine_run example_deserialize machine_queued.
Proof.
  destruct example_call as [[s [r|call]]|] eqn:E; [vm_compute in E; discriminate | | vm_compute in E; discriminate].
  assert (machine_run example_deserialize machine_depositing) as Hd.
  { unfold machine_depositing. rewrite E. apply endpoint_machine_run; [exact machine_with_key_run | vm_compute; discriminate |].
    destruct (w_tracked (mc_world machine_with_key)) as [[s0 log] m] eqn:Ew.
    assert (mc_config machine_with_key = (s0, log)) as Ec by (unfold mc_config, w_config; by rewrite Ew). rewrite Ec.
    eapply es_deposit_sol. unfold example_call in E. rewrite Ec in E. exact E. }
  unfold machine_queued. rewrite E. apply endpoint_machine_run; [exact Hd | unfold machine_depositing; rewrite E; discriminate |].
  rewrite (surjective_pairing (w_tracked (mc_world machine_depositing))) at 1. eapply es_deposit_sol_callback. apply surjective_pairing.
Qed.

Lemma machine_sweeping_run : machine_run example_deserialize machine_sweeping.
Proof. apply fire_run, machine_queued_run. Qed.

(** C4: the canister implements the minter's state machine. Whatever messages
    it receives, in whatever order timers fire and calls are answered, whatever
    the other canisters answer and whichever callbacks trap, each message
    changes the state only by recorded events, by transient data (guards,
    active tasks, the watchlist) or by an upgrade: it is a sequence of steps of
    [minter_step]. So the invariants of [minter_run] hold after every message,
    the event log only grows, and replaying it rebuilds the state. *)
Theorem canister_refines_minter `{!Platform, !SolanaDecoders} deserialize_raw l y y' :
  machine_run deserialize_raw y -> machine_step deserialize_raw l y y' ->
  rtc minter_step (mc_config y) (mc_config y') /\ minter_run (mc_config y') /\
  (mc_config y).2 `prefix_of` (mc_config y').2 /\ replay_events (mc_config y').2 = Done (erase (mc_config y').1).
Proof.
  intros Hinv%machine_run_inv Hstep. pose proof (mv_run _ Hinv) as Hrun. pose proof (step_refines _ _ _ _ Hinv Hstep) as Hsteps.
  pose proof (steps_run _ _ Hrun Hsteps) as Hrun'.
  split_and!; [done | done | by apply steps_log | by apply minter_run_replay].
Qed.

(** The sweep started by the timer waits for the block, with its deposit queued. *)
Lemma canister_refines_minter_witness :
  length (mc_rounds machine_sweeping) = 1%nat /\ length (mc_config machine_sweeping).2 = 3%nat /\ minter_run (mc_config machine_sweeping).
Proof.
  destruct (fire_step example_deserialize 1 next_minute minute_past machine_queued) as [E|Hs].
  - assert (mc_now machine_sweeping = minute_past) as H1 by (vm_compute; reflexivity).
    assert (mc_now machine_queued = 4) as H2 by (vm_compute; reflexivity).
    fold machine_sweeping in E. rewrite E, H2 in H1. vm_compute in H1. discriminate.
  - destruct (canister_refines_minter example_deserialize None _ _ machine_queued_run Hs) as (_ & Hrun & _).
    split_and!; [vm_compute; reflexivity | vm_compute; reflexivity | exact Hrun].
Defined.

(** C5: rounds of the timer tasks do not interfere. While a round waits for
    its calls, whatever messages other rounds, endpoints and timers handle, it
    is the only round of its task, what is left of it stays the same, and none
    of the events of its task is recorded: so whatever it read or checked
    before its call, about data only its own task changes, still holds when
    the answer arrives. *)
Theorem tasks_do_not_interfere `{!Platform, !SolanaDecoders} deserialize_raw y y' r task :
  machine_run deserialize_raw y -> r ∈ mc_rounds y -> rd_job r = RunTask task ->
  rtc (other_step deserialize_raw (rd_id r)) y y' -> waits (rd_id r) y' ->
  r ∈ mc_rounds y' /\ (forall r', r' ∈ mc_rounds y' -> rd_job r' = RunTask task -> r' = r) /\
  forall forbidden, (forall ev, forbidden ev -> event_owner ev = OwnerTask task) ->
    rtc (calm_step forbidden) (mc_config y) (mc_config y').
Proof.
  intros Hrun Hr Hj Hsteps Hw. destruct (others_keep_round _ _ _ _ _ Hrun Hr Hj Hsteps Hw) as (Hrun' & Hr' & Hcalm).
  split_and!; [done | | by intros forbidden Hf; eapply calm_weaken; [exact Hf | exact Hcalm]].
  intros r' Hin Hj'. pose proof (machine_run_inv _ _ Hrun') as Hinv. destruct (list_elem_of_split _ _ Hin) as (pre & post & E).
  destruct (decide (rd_id r' = rd_id r)) as [Hid|Hne].
  - pose proof (mv_ids _ Hinv) as Hnd. apply list_elem_of_lookup in Hr' as [a Ha]. apply list_elem_of_lookup in Hin as [b Hb].
    assert (a = b) as <-; [|congruence]. eapply (NoDup_lookup _ _ _ (rd_id r)); [exact Hnd | |]; rewrite list_lookup_fmap.
    + by rewrite Ha.
    + by rewrite Hb, <- Hid.
  - destruct (other_round_job _ pre r' post r task Hinv E Hr' Hne Hj) as [_ Hn]. done.
Qed.

Definition sweeping_round : Round := default (mkRound 0 FetchPublicKey (TReturn tt)) (head (mc_rounds machine_sweeping)).

Lemma sweeping_round_waits : sweeping_round ∈ mc_rounds machine_sweeping.
Proof.
  assert (length (mc_rounds machine_sweeping) = 1%nat) as Hl by (vm_compute; reflexivity). unfold sweeping_round.
  destruct (mc_rounds machine_sweeping); [discriminate | left].
Qed.

Lemma sweeping_round_job : rd_job sweeping_round = RunTask SweepDeposits.
Proof. vm_compute. reflexivity. Qed.

Lemma mint_timer_fires : rtc (other_step example_deserialize (rd_id sweeping_round)) machine_sweeping machine_later.
Proof.
  apply rtc_once. exists None. split; [done|].
  destruct (fire_step example_deserialize 2 next_minute minute_past machine_sweeping) as [E|Hs]; [|exact Hs].
  assert (mc_next_id machine_later = S (mc_next_id machine_sweeping)) as Hne by (vm_compute; reflexivity).
  fold machine_later in E. rewrite E in Hne. destruct (Nat.neq_succ_diag_r _ Hne).
Qed.

Lemma sweeping_round_still_waits : waits (rd_id sweeping_round) machine_later.
Proof. apply (bool_decide_unpack _). vm_compute. exact I. Qed.

Lemma tasks_do_not_interfere_witness :
  mc_now machine_later = minute_past /\ sweeping_round ∈ mc_rounds machine_later /\
  rtc (calm_step (sweeps_any example_deposits)) (mc_config machine_sweeping) (mc_config machine_later).
Proof.
  pose proof (tasks_do_not_interfere example_deserialize machine_sweeping machine_later sweeping_round SweepDeposits
    machine_sweeping_run sweeping_round_waits sweeping_round_job mint_timer_fires sweeping_round_still_waits) as (Hin & _ & Hcalm).
  split_and!; [vm_compute; reflexivity | exact Hin |]. apply Hcalm. by intros ev (sig & m & signers & ids & h & i & dep & -> & _).
Defined.
