(* ===== verification/Scheduling.v ===== *)
(** What keeps the timer tasks running: their guards are free whenever no
    round of theirs waits, the timers registered at installation stay armed,
    and the fetch of the public key is repeated until it succeeds. *)
From S2P Require Import Prelude Platform ConcretePlatform InsertionOrderedMap TimedSizedMap Watchlist NoncePool Events Sweeps Deposits SolTransfer MinterState Replay Invariants Safety Interleaving Guards Rpc Withdraw Memo Metrics Mint DepositSol SweepTasks Monitor Async Tasks Delivery Canister System.

Section Scheduling.
Context `{Platform} `{SolanaDecoders} (deserialize_raw : bytes -> option PublicKey).

Abbreviation machine_step := (machine_step deserialize_raw).
Abbreviation machine_run := (machine_run deserialize_raw).
Abbreviation w_pending w := (pending_mints (deposits (w_state w))).

(** ** Rounds of the mint task

    Between two messages such a round waits for the ledger's answer on one
    mint, and the mints it has not handled yet are all pending. *)
Definition mint_guard (deposit_id : DepositSolId) : ScopeGuard := fun w now =>
  c ← quarantine_unless_defused (w_tracked w) deposit_id now; Done (mkWorld c (w_timers w)).

Definition mint_end (round : MintRound) : Task unit :=
  round_made_progress ← seq (read (fun s =>
    existsb (fun p => bool_decide (pending_mints (deposits s) !! p.1 = None)) (mr_pending_mints round)));
  if round_made_progress && mr_more_pending_mints_than_one_round round
  then seq (schedule 0 (RunTask TaskMint))
  else mret tt.

Definition mint_waiting_loop (deposit_id : DepositSolId) (pending : PendingMint) (rest : list (DepositSolId * PendingMint)) : Async unit :=
  Await (LedgerTransfer (mint_transfer_arg deposit_id pending)) (mint_guard deposit_id) (fun response =>
    _ ← update_tracked (fun c now => c ← process_pending_mint_answer c deposit_id response now; Done (c, tt));
    for_each process_pending_mint_future rest).

Definition mint_waiting (round : MintRound) (deposit_id : DepositSolId) (pending : PendingMint)
    (rest : list (DepositSolId * PendingMint)) : Task unit :=
  TSeq no_guard (mint_waiting_loop deposit_id pending rest) (fun _ => mint_end round).

Definition mints_ready (items : list (DepositSolId * PendingMint)) (d : Deposits) : Prop :=
  NoDup items.*1 /\ forall i p, (i, p) ∈ items -> pending_mints d !! i = Some p.

Lemma mints_ready_tail item items d d' :
  mints_ready (item :: items) d -> (forall j, j <> item.1 -> pending_mints d' !! j = pending_mints d !! j) -> mints_ready items d'.
Proof.
  intros [[Hn Hnd]%NoDup_cons Hp] Hk. split; [done|]. intros i p Hin. rewrite Hk; [apply Hp; by right|].
  intros ->. apply Hn. apply list_elem_of_fmap. by exists (item.1, p).
Qed.

Lemma minted_pending c i ix now c' j :
  record_minted_swept_deposit c i ix now = Done c' -> j <> i -> pending_mints (deposits c'.1.1) !! j = pending_mints (deposits c.1.1) !! j.
Proof.
  intros Hev%tracked_event_Done Hne. destruct c as [[s log] m], c' as [[s' log'] m']. cbn in *.
  apply bind_Done in Hev as (s1 & (d & (p & _ & _ & ->)%mint_Done & ->)%deposit_update_Done & [= <- _]%Done_inv). cbn.
  by rewrite lookup_delete_ne.
Qed.

Lemma quarantined_pending c i now c' j :
  record_quarantined_pending_mint c i now = Done c' -> j <> i -> pending_mints (deposits c'.1.1) !! j = pending_mints (deposits c.1.1) !! j.
Proof.
  intros Hev%tracked_event_Done Hne. destruct c as [[s log] m], c' as [[s' log'] m']. cbn in *.
  apply bind_Done in Hev as (s1 & (d & (p & _ & ->)%quarantine_pending_mint_Done & ->)%deposit_update_Done & [= <- _]%Done_inv). cbn.
  by rewrite lookup_delete_ne.
Qed.

Lemma answer_pending c i response now c' j :
  process_pending_mint_answer c i response now = Done c' -> j <> i ->
  pending_mints (deposits c'.1.1) !! j = pending_mints (deposits c.1.1) !! j.
Proof.
  intros (answer & _ & Ha)%bind_Done Hne. destruct answer as [[ix|[]]|]; try (by apply Done_inv in Ha as <-);
    try (by eapply minted_pending); try (by apply (quarantined_pending _ _ _ _ j) in Ha).
  apply bind_Done in Ha as (ix & _ & Ha). by eapply minted_pending.
Qed.

Lemma mint_loop_run items : forall w now w' x',
  mints_ready items (deposits (w_state w)) -> run_async (for_each process_pending_mint_future items) w now = Done (w', x') ->
  x' = Return tt \/ exists i p rest, x' = mint_waiting_loop i p rest /\ mints_ready ((i, p) :: rest) (deposits (w_state w')).
Proof.
  induction items as [|[i p] items IH]; intros w now w' x' Hready Hr; [injection Hr as <- <-; by left|].
  cbn [for_each process_pending_mint_future mbind async_bind update_tracked run_async] in Hr.
  apply bind_Done in Hr as ([w1 started] & H1 & Hr). apply bind_Done in H1 as ([c1 st] & H1 & H2). apply Done_inv in H2.
  injection H2 as <- <-. apply bind_Done in H1 as (st' & Hst & H1). apply Done_inv in H1. unfold process_pending_mint_start in Hst.
  destruct (is_beyond_deduplication_window p now).
  - apply bind_Done in Hst as (c2 & Hq & Hst). apply Done_inv in Hst. subst st'. injection H1 as <- <-. cbn in Hr. apply IH in Hr; [done|].
    eapply mints_ready_tail; [exact Hready|]. intros j Hj. by apply (quarantined_pending _ _ _ _ j) in Hq.
  - apply Done_inv in Hst. subst st'. injection H1 as <- <-. cbn in Hr. apply Done_inv in Hr. injection Hr as <- <-.
    right. by exists i, p, items.
Qed.

Lemma mint_end_run round w now w' t' : run_task (mint_end round) w now = Done (w', t') -> t' = TReturn tt.
Proof. unfold mint_end. cbn. destruct (_ && _); cbn; by intros [= _ <-]%Done_inv. Qed.

(** What a message leaves of a round. *)
Lemma mint_stage_run round x w now w' t' items :
  mints_ready items (deposits (w_state w)) ->
  (forall w1 x1, run_async x w now = Done (w1, x1) ->
     x1 = Return tt \/ exists i p rest, x1 = mint_waiting_loop i p rest /\ mints_ready ((i, p) :: rest) (deposits (w_state w1))) ->
  run_task (TSeq no_guard x (fun _ => mint_end round)) w now = Done (w', t') ->
  t' = TReturn tt \/ exists i p rest, t' = mint_waiting round i p rest /\ mints_ready ((i, p) :: rest) (deposits (w_state w')).
Proof.
  intros Hready Hx Hr. cbn [run_task] in Hr. apply bind_Done in Hr as ([w1 x1] & H1 & Hr). apply Hx in H1 as [-> |(i & p & rest & -> & H1)].
  - left. cbn [returned] in Hr. exact (mint_end_run _ _ _ _ _ Hr).
  - cbn in Hr. apply Done_inv in Hr. injection Hr as <- <-. right. by exists i, p, rest.
Qed.

Lemma mint_start_run w now w' t' :
  run_task process_pending_mints w now = Done (w', t') ->
  t' = TReturn tt \/ exists round i p rest, t' = mint_waiting round i p rest /\ mints_ready ((i, p) :: rest) (deposits (w_state w')).
Proof.
  set (round := mint_round_next (w_state w)). change (run_task process_pending_mints w now) with (run_task
    (if bool_decide (mr_pending_mints round = []) then TReturn tt
     else TSeq no_guard (for_each process_pending_mint_future (mr_pending_mints round)) (fun _ => mint_end round)) w now).
  case_bool_decide; [by intros [= _ <-]%Done_inv; left|]. intros Hr.
  assert (mints_ready (mr_pending_mints round) (deposits (w_state w))) as Hready.
  { subst round. unfold mint_round_next. cbn [mr_pending_mints]. split.
    - rewrite fmap_take. apply (sublist_NoDup _ (btree_keys (pending_mints (deposits (w_state w))))); [apply NoDup_btree_keys | apply sublist_take].
    - intros i p (j & Hj%list_elem_of_lookup_2 & _)%elem_of_take. by apply elem_of_btree_iter in Hj. }
  destruct (mint_stage_run round (for_each process_pending_mint_future (mr_pending_mints round)) w now w' t' _ Hready) as [?|(i & p & rest & ?)].
  - intros w1 x1. by apply mint_loop_run.
  - exact Hr.
  - by left.
  - right. by exists round, i, p, rest.
Qed.

Lemma mint_answer_run round i p rest answers k w now t1 w' t' :
  mints_ready ((i, p) :: rest) (deposits (w_state w)) -> deliver answers k (mint_waiting round i p rest) = Some t1 ->
  run_task t1 w now = Done (w', t') ->
  t' = TReturn tt \/ exists i p rest, t' = mint_waiting round i p rest /\ mints_ready ((i, p) :: rest) (deposits (w_state w')).
Proof.
  intros Hready [= <-] Hr. eapply (mint_stage_run round _ _ _ _ _ _ Hready); [|exact Hr]. intros w1 x1 Hx.
  cbn [run_async mbind async_bind update_tracked] in Hx. apply bind_Done in Hx as ([w2 []] & H2 & Hx).
  apply bind_Done in H2 as ([c2 []] & H2 & H3). apply Done_inv in H3. injection H3 as <-. apply bind_Done in H2 as (c3 & Ha & H3). apply Done_inv in H3.
  injection H3 as ->. eapply mint_loop_run; [|exact Hx]. eapply mints_ready_tail; [exact Hready|]. intros j Hj. cbn. by eapply answer_pending.
Qed.

(** Dropping such a round never panics. *)
Lemma mint_drop_ok round i p rest w now :
  mints_ready ((i, p) :: rest) (deposits (w_state w)) -> exists w', drop_task (mint_waiting round i p rest) w now = Done w'.
Proof.
  intros [_ Hp]. specialize (Hp i p ltac:(left)). cbn [drop_task mint_waiting drop_async mint_waiting_loop].
  unfold mint_guard, quarantine_unless_defused, record_quarantined_pending_mint, tracked_event, process_event. cbn [apply_state_transition].
  unfold process_quarantined_pending_mint. assert (exists d, quarantine_pending_mint (deposits (failed_mint FmUnknownOutcome (w_tracked w)).1.1) i = Done d) as [d ->].
  { eexists. apply quarantine_pending_mint_Done. by exists p. }
  cbn. by eauto.
Qed.

(** ** Guards are free when no round waits *)
Definition mint_round_ready (y : Machine) (r : Round) : Prop :=
  exists round i p rest, rd_rest r = mint_waiting round i p rest /\ mints_ready ((i, p) :: rest) (deposits (mc_config y).1).

Record guards_inv (y : Machine) : Prop := {
  gi_mints : forall r, r ∈ mc_rounds y -> rd_job r = RunTask TaskMint -> mint_round_ready y r;
  gi_active : active_tasks (mc_config y).1 = list_to_set (round_tasks (mc_rounds y))
}.

Lemma mints_ready_calm items c c' :
  rtc (calm_step (owned (OwnerTask TaskMint))) c c' -> minter_run c -> sized c'.2 ->
  mints_ready items (deposits c.1) -> mints_ready items (deposits c'.1).
Proof.
  intros Hcalm Hrun Hsz [Hnd Hp]. split; [done|]. intros i [[dep sig] amount t] Hin.
  apply (calm_pending i dep sig amount t c c'); [|done|done|by apply Hp].
  eapply calm_weaken; [|exact Hcalm]. by intros ev [[ix ->]| ->].
Qed.

Lemma drop_ok y r now :
  machine_inv y -> guards_inv y -> r ∈ mc_rounds y -> exists w, drop_task (rd_rest r) (mc_world y) now = Done w.
Proof.
  intros Hinv Hg Hr. pose proof (mv_good _ Hinv) as Hgood. rewrite Forall_forall in Hgood. specialize (Hgood _ Hr).
  destruct (drops_safely (rd_job r)) eqn:Hd.
  - by apply (gg_total _ _ _ (drop_task_good _ _ _ Hgood)).
  - assert (rd_job r = RunTask TaskMint) as Hj by (by destruct (rd_job r) as [|[]]).
    destruct (gi_mints _ Hg r Hr Hj) as (round & i & p & rest & -> & Hready). by eapply mint_drop_ok.
Qed.

Lemma start_mint w now w' t :
  start_job deserialize_raw (RunTask TaskMint) w now = (w', Some t) ->
  exists round i p rest, t = mint_waiting round i p rest /\ mints_ready ((i, p) :: rest) (deposits (w_state w')).
Proof.
  unfold start_job. destruct (acquire _ w) as [w1|]; [|done]. cbn [job_task].
  destruct (run_task process_pending_mints w1 now) as [[w2 t2]|] eqn:Hr; [|done].
  apply mint_start_run in Hr as [-> |(round & i & p & rest & -> & Hready)]; [done|]. intros [= <- <-]. by exists round, i, p, rest.
Qed.

Lemma resume_mint round i p rest answers k w now w' t :
  mints_ready ((i, p) :: rest) (deposits (w_state w)) ->
  resume_job (RunTask TaskMint) (mint_waiting round i p rest) answers k w now = Some (w', Some t) ->
  exists round i p rest, t = mint_waiting round i p rest /\ mints_ready ((i, p) :: rest) (deposits (w_state w')).
Proof.
  intros Hready (t1 & Ht1 & Hr)%bind_Some. injection Hr as Hr. destruct (run_task t1 w now) as [[w2 t2]|] eqn:Ht; [|done].
  destruct (mint_answer_run _ _ _ _ _ _ _ _ _ _ _ Hready Ht1 Ht) as [-> |(i' & p' & rest' & -> & Hready')]; [done|].
  injection Hr as <- <-. by exists round, i', p', rest'.
Qed.

(** The rounds that a message does not belong to. *)
Lemma untouched_ready r l y y' :
  machine_inv y -> guards_inv y -> machine_step l y y' -> sized (mc_config y').2 ->
  r ∈ mc_rounds y -> r ∈ mc_rounds y' -> l <> Some (rd_id r) -> rd_job r = RunTask TaskMint -> mint_round_ready y' r.
Proof.
  intros Hinv Hg Hstep Hsz Hr Hr' Hl Hj. assert (waits (rd_id r) y') as Hw by (by apply list_elem_of_fmap_2).
  destruct (other_step_calm _ _ _ _ _ _ Hinv Hr Hj Hl Hstep Hw) as [_ Hcalm].
  destruct (gi_mints _ Hg r Hr Hj) as (round & i & p & rest & E & Hready). exists round, i, p, rest. split; [done|].
  eapply mints_ready_calm; [exact Hcalm | exact (mv_run _ Hinv) | done | done].
Qed.

Lemma list_to_set_drop {A} `{Countable A} (l1 l2 : list A) x :
  NoDup (l1 ++ x :: l2) -> (list_to_set (l1 ++ x :: l2) : gset A) ∖ {[x]} = list_to_set (l1 ++ l2).
Proof.
  intros (_ & Hd & [Hx _]%NoDup_cons)%NoDup_app. apply set_eq. intros y.
  rewrite elem_of_difference, !elem_of_list_to_set, elem_of_singleton, !elem_of_app, elem_of_cons.
  split; [naive_solver|]. intros [Hy|Hy]; split; [tauto | | tauto |]; intros ->; [apply (Hd _ Hy); left | done].
Qed.

(** A message of a round, which returned if nothing is left of it. *)
Lemma guards_message w pre r post next before w' rest :
  machine_inv (mkMachine w (pre ++ r :: post) next before) -> guards_inv (mkMachine w (pre ++ r :: post) next before) ->
  (active_tasks (w_state w') = match rest with Some _ => active_tasks (w_state w) | None => active_tasks (w_state (release (rd_job r) w)) end) ->
  active_tasks (w_state w') = list_to_set (round_tasks (pre ++ waiting (rd_id r) (rd_job r) rest ++ post)).
Proof.
  intros Hinv Hg ->.
  assert (active_tasks (w_state w) = list_to_set (round_tasks (pre ++ [r] ++ post))) as Ha by exact (gi_active _ Hg).
  assert (NoDup (round_tasks (pre ++ [r] ++ post))) as Hnd by exact (mv_tasks _ Hinv).
  rewrite !round_tasks_app, round_tasks_waiting in *. assert (round_tasks [r] = match rd_job r with RunTask task => [task] | FetchPublicKey => [] end) as E
    by (cbn; by destruct (rd_job r)). rewrite E in *.
  destruct rest as [t'|]; [by destruct (rd_job r)|]. rewrite active_release, Ha. destruct (rd_job r) as [|task]; [done|].
  by apply (list_to_set_drop (round_tasks pre) (round_tasks post) task).
Qed.

Lemma round_still_there r pre r0 post y :
  machine_inv y -> mc_rounds y = pre ++ r0 :: post -> r ∈ pre ++ post -> r ∈ mc_rounds y /\ Some (rd_id r0) <> Some (rd_id r).
Proof.
  intros Hinv E Hr. rewrite E. pose proof (mv_ids _ Hinv) as Hnd. rewrite E, map_app in Hnd. cbn in Hnd.
  apply NoDup_app in Hnd as (_ & Hd & [Hx _]%NoDup_cons). split; [rewrite elem_of_app, elem_of_cons in *; tauto|]. intros [= Hid].
  apply elem_of_app in Hr as [Hr|Hr]; apply (list_elem_of_fmap_2 rd_id) in Hr.
  - apply (Hd _ Hr). rewrite Hid. left.
  - apply Hx. by rewrite Hid.
Qed.

Lemma upgraded_active s log args now c' : minter_run (s, log) -> canister_post_upgrade log args now = Done c' -> active_tasks c'.1 = ∅.
Proof.
  intros Hrun%minter_run_replay Hup. cbn [fst snd] in Hrun.
  assert (exists args, post_upgrade log args now = Done c') as [args' Hup'] by (destruct args as [[]|]; [done | by eauto..]).
  unfold post_upgrade in Hup'. rewrite Hrun in Hup'. cbn [mbind outcome_bind] in Hup'. destruct args' as [a|].
  - apply bind_Done in Hup' as (s1 & Hs1 & Hl). apply Done_inv in Hl. subst c'. cbn. by apply active_tasks_event in Hs1.
  - by apply Done_inv in Hup' as <-.
Qed.

Lemma guards_step l y y' :
  machine_inv y -> guards_inv y -> machine_step l y y' -> sized (mc_config y').2 -> guards_inv y'.
Proof.
  intros Hinv Hg Hstep Hsz. pose proof (mv_run _ Hinv) as Hrun. pose proof (fun r => untouched_ready r _ _ _ Hinv Hg Hstep Hsz) as Hkeep.
  destruct Hstep as
    [c pre tm post rounds next before now due w rest Hnow Hdue Hp Hs | w pre r0 post next before now answers i w' rest Hnow Hs
    | w pre r0 post next before now Hnow | c timers rounds next before now c' Hnow Hs | s log m timers rounds next before now args c' ins Hnow Hs].
  - pose proof Hs as Hs'. apply start_job_spec in Hs' as [_ Hrest]; [|exact Hrun]. split; cbn [mc_rounds mc_config mc_world].
    + intros r Hr Hj. cbn [mc_rounds] in *. apply elem_of_app in Hr as [Hr|Hr]; [apply Hkeep; [done | apply elem_of_app; by left | done | done]|].
      destruct rest as [t|]; [|by apply not_elem_of_nil in Hr]. apply list_elem_of_singleton in Hr. subst r. cbn in Hj. rewrite Hj in Hs.
      by eapply start_mint.
    + pose proof (gi_active _ Hg) as Ha. cbn [mc_rounds] in Ha. rewrite round_tasks_app, list_to_set_app_L, <- Ha, round_tasks_waiting.
      change (active_tasks (w_state w) = active_tasks c.1.1 ∪
        list_to_set match rest, tm_job tm with Some _, RunTask task => [task] | _, _ => [] end).
      destruct rest as [t|]; [|rewrite Hrest; set_solver]. destruct Hrest as [_ Hrest].
      destruct (tm_job tm) as [|task]; [rewrite Hrest; set_solver | destruct Hrest as [_ ->]; set_solver].
  - pose proof (mv_good _ Hinv) as Hgood. cbn [mc_rounds] in Hgood. apply Forall_app in Hgood as [_ [Hg0 _]%Forall_cons].
    pose proof Hs as Hs'. apply resume_job_spec in Hs' as [_ Hrest]; [|exact Hrun | exact Hg0]. split; cbn [mc_rounds].
    + intros r Hr Hj. assert (r ∈ pre ++ post \/ r ∈ waiting (rd_id r0) (rd_job r0) rest) as [Hin|Hin] by (rewrite !elem_of_app in *; tauto).
      * destruct (round_still_there r pre r0 post _ Hinv eq_refl Hin). by apply Hkeep.
      * destruct rest as [t|]; [|by apply not_elem_of_nil in Hin]. apply list_elem_of_singleton in Hin. subst r. cbn in Hj.
        destruct (gi_mints _ Hg r0) as (round & j & p & rest & E & Hready); [apply elem_of_app; right; left | done |].
        rewrite E, Hj in Hs. by eapply resume_mint.
    + apply (guards_message w pre r0 post next before w' rest Hinv Hg). destruct rest as [t|]; [apply Hrest|]. destruct Hrest as [->|[_ [why Hd]]]; [done|].
      destruct (drop_ok _ r0 now Hinv Hg) as [w1 Hw1]; [apply elem_of_app; right; left|]. cbn in Hw1. congruence.
  - pose proof (mv_good _ Hinv) as Hgood. cbn [mc_rounds] in Hgood. apply Forall_app in Hgood as [_ [Hg0 _]%Forall_cons]. split; cbn [mc_rounds].
    + intros r Hin Hj. destruct (round_still_there r pre r0 post _ Hinv eq_refl Hin). by apply Hkeep.
    + apply (guards_message w pre r0 post next before (abort_job (rd_job r0) (rd_rest r0) w now) None Hinv Hg).
      destruct (abort_job_spec (rd_job r0) (rd_rest r0) w now Hrun Hg0) as [_ [->|[_ [why Hd]]]]; [done|].
      destruct (drop_ok _ r0 now Hinv Hg) as [w1 Hw1]; [apply elem_of_app; right; left|]. cbn in Hw1. congruence.
  - split; cbn [mc_rounds].
    + intros r Hr Hj. by apply Hkeep.
    + apply endpoint_quiet, quiet_active in Hs; [|exact Hrun]. change (active_tasks c'.1.1 = list_to_set (round_tasks rounds)).
      rewrite Hs. exact (gi_active _ Hg).
  - split; cbn [mc_rounds]; [by intros r ?%not_elem_of_nil|].
    change (active_tasks c'.1 = ∅). exact (upgraded_active _ _ _ _ _ Hrun Hs).
Qed.

Lemma run_guards y : machine_run y -> sized (mc_config y).2 -> guards_inv y.
Proof.
  induction 1 as [args now c Hinit | l y y' Hrun IH Hstep]; intros Hsz.
  - split; cbn [mc_rounds]; [by intros r ?%not_elem_of_nil|]. change (active_tasks c.1 = ∅).
    destruct args as [args|]; [|done]. cbn in Hinit. unfold init in Hinit. destruct (state_try_from args) as [s|] eqn:Hs; [|done].
    apply Done_inv in Hinit. subst c. cbn. by apply state_try_from_fields in Hs as (pool & _ & -> & _).
  - pose proof (machine_run_inv _ _ Hrun) as Hinv. eapply guards_step; [exact Hinv | | exact Hstep | done]. apply IH.
    pose proof (step_refines _ _ _ _ Hinv Hstep) as [k E]%steps_log; [|exact (mv_run _ Hinv)]. rewrite E in Hsz. by apply sized_app in Hsz.
Qed.

(** ** The timers stay armed *)
Definition armed (task : TaskType) (now : Timestamp) (timers : list Timer) : Prop :=
  exists tm, tm ∈ timers /\ tm_job tm = RunTask task /\ tm_interval tm = Some (interval_of task) /\ tm_due tm <= now + interval_of task.

Lemma armed_mono task now now' timers timers' :
  armed task now timers -> now <= now' -> (forall tm, tm ∈ timers -> tm ∈ timers') -> armed task now' timers'.
Proof. intros (tm & Hin & Hj & Hi & Hd) Hnow Hsub. exists tm. split_and!; [by apply Hsub | done | done | lia]. Qed.

Lemma armed_setup task w now : armed task now (w_timers (setup_timers w now)).
Proof.
  unfold setup_timers, set_timer_interval, set_timer. cbn [w_timers].
  exists (mkTimer (now + interval_of task) (Some (interval_of task)) (RunTask task)). split_and!; [|done|done|cbn; lia].
  rewrite !elem_of_app, !list_elem_of_singleton. destruct task; cbn [interval_of]; tauto.
Qed.

Lemma armed_rearm task pre tm due post before now :
  armed task before (pre ++ tm :: post) -> before <= now -> (forall p, tm_interval tm = Some p -> now <= due <= now + p) ->
  armed task now (pre ++ rearm tm due ++ post).
Proof.
  intros (tm0 & Hin & Hj & Hi & Hd) Hnow Hdue. rewrite elem_of_app, elem_of_cons in Hin.
  assert (tm0 = tm \/ tm0 ∈ pre ++ post) as [-> |Hin'] by (rewrite elem_of_app; tauto).
  - unfold rearm. rewrite Hi. exists (mkTimer due (Some (interval_of task)) (tm_job tm)). cbn.
    split_and!; [rewrite elem_of_app, elem_of_cons; tauto | done | done | by apply Hdue].
  - exists tm0. split_and!; [rewrite !elem_of_app in *; tauto | done | done | lia].
Qed.

Lemma moves_timers job w w' tm : job_moves job w w' -> tm ∈ w_timers w -> tm ∈ w_timers w'.
Proof. intros [_ [l ->]] Hin. apply elem_of_app. by left. Qed.

Lemma armed_step l y y' task :
  machine_inv y -> machine_step l y y' -> armed task (mc_now y) (w_timers (mc_world y)) -> armed task (mc_now y') (w_timers (mc_world y')).
Proof.
  intros Hinv Hstep Ha. pose proof (mv_run _ Hinv) as Hrun. pose proof (mv_good _ Hinv) as Hgood. destruct Hstep as
    [c pre tm post rounds next before now due w rest Hnow Hdue Hp Hs | w pre r0 post next before now answers i w' rest Hnow Hs
    | w pre r0 post next before now Hnow | c timers rounds next before now c' Hnow Hs | s log m timers rounds next before now args c' ins Hnow Hs];
    cbn [mc_now mc_world mc_rounds] in *.
  - apply start_job_spec in Hs as [Hm _]; [|exact Hrun]. pose proof (armed_rearm _ _ _ _ _ _ _ Ha Hnow Hp) as Ha'.
    eapply armed_mono; [exact Ha' | done |]. intros tm'. by apply (moves_timers _ _ _ _ Hm).
  - apply Forall_app in Hgood as [_ [Hg0 _]%Forall_cons]. apply resume_job_spec in Hs as [Hm _]; [|exact Hrun | exact Hg0].
    eapply armed_mono; [exact Ha | done |]. intros tm'. by apply (moves_timers _ _ _ _ Hm).
  - apply Forall_app in Hgood as [_ [Hg0 _]%Forall_cons]. destruct (abort_job_spec _ _ w now Hrun Hg0) as [Hm _].
    eapply armed_mono; [exact Ha | done |]. intros tm'. by apply (moves_timers _ _ _ _ Hm).
  - by eapply armed_mono.
  - apply armed_setup.
Qed.

(** ** The public key is fetched until it is recorded *)
Definition fetch_retry : ScopeGuard := fun w now => Done (set_timer MINTER_PUBLIC_KEY_RETRY_DELAY FetchPublicKey w now).

Definition fetch_waiting (name : Ed25519KeyName) : Task unit :=
  TSeq (also_drop no_guard fetch_retry) (await (FetchSchnorrPublicKey name)) (fun response =>
    scoped fetch_retry
      (again ← seq (update (fun c now => fetch_and_record_minter_public_key deserialize_raw c response now)); mret (negb again))).

Definition fetch_scheduled (w : World) : Prop := exists tm, tm ∈ w_timers w /\ tm_job tm = FetchPublicKey.

Lemma fetch_start w now w' rest :
  start_job deserialize_raw FetchPublicKey w now = (w', rest) ->
  (exists name, rest = Some (fetch_waiting name)) \/ rest = None /\ is_Some (minter_public_key (w_state w')).
Proof.
  unfold start_job. cbn [acquire job_task]. unfold fetch_and_record_minter_public_key_task.
  cbn [run_task seq mbind task_bind read run_async returned outcome_bind]. destruct (minter_public_key (w_state w)) as [key|] eqn:Hk; cbn.
  - intros [= <- <-]. right. by eauto.
  - intros [= <- <-]. left. by eexists.
Qed.

Lemma fetch_records_key c response now c' :
  fetch_and_record_minter_public_key deserialize_raw c response now = Done (c', false) -> is_Some (minter_public_key c'.1).
Proof.
  unfold fetch_and_record_minter_public_key. destruct response as [[raw_key raw_cc]|]; [|done].
  intros (pk & _ & (cc & _ & Hf)%bind_Done)%bind_Done. destruct (minter_public_key c.1) as [key|] eqn:Hk.
  - apply Done_inv in Hf. injection Hf as <-. by eauto.
  - apply bind_Done in Hf as (c1 & Hev & Hf). apply Done_inv in Hf. injection Hf as <-.
    apply bind_Done in Hev as (s1 & Hs1 & Hl). apply Done_inv in Hl. subst c1. cbn in *.
    apply cache_key_Done in Hs1 as [[_ ->]|[? _]]; [by eauto | congruence].
Qed.

Lemma set_timer_scheduled delay w now : fetch_scheduled (set_timer delay FetchPublicKey w now).
Proof. eexists. cbn [w_timers set_timer]. split; [apply elem_of_app; right; by apply list_elem_of_singleton | done]. Qed.

Lemma fetch_abort name w now : fetch_scheduled (abort_job FetchPublicKey (fetch_waiting name) w now).
Proof. apply set_timer_scheduled. Qed.

Lemma fetch_resume name answers i w now w' rest :
  resume_job FetchPublicKey (fetch_waiting name) answers i w now = Some (w', rest) ->
  rest = None /\ (is_Some (minter_public_key (w_state w')) \/ fetch_scheduled w').
Proof.
  intros [= Hr]. revert Hr. set (response := answers (FetchSchnorrPublicKey name)).
  destruct (fetch_and_record_minter_public_key deserialize_raw (w_config w) response now) as [[c' again]|] eqn:Hf;
    cbn -[fetch_and_record_minter_public_key].
  - destruct again; cbn; intros [= <- <-]; (split; [done|]).
    + right. apply set_timer_scheduled.
    + left. by apply fetch_records_key in Hf.
  - intros [= <- <-]. split; [done|]. right. apply (fetch_abort name).
Qed.

Lemma setup_fetches w now : fetch_scheduled (setup_timers w now).
Proof.
  exists (mkTimer (now + 0) None FetchPublicKey). split; [|done]. unfold setup_timers, set_timer_interval, set_timer. cbn [w_timers].
  rewrite !elem_of_app, !list_elem_of_singleton. tauto.
Qed.

Record key_inv (y : Machine) : Prop := {
  ki_rounds : forall r, r ∈ mc_rounds y -> rd_job r = FetchPublicKey -> exists name, rd_rest r = fetch_waiting name;
  ki_key : minter_public_key (mc_config y).1 = None ->
    fetch_scheduled (mc_world y) \/ exists r, r ∈ mc_rounds y /\ rd_job r = FetchPublicKey
}.

Lemma key_unknown (forbidden : EventType -> Prop) c c' :
  rtc (calm_step forbidden) c c' -> minter_public_key c'.1 = None -> minter_public_key c.1 = None.
Proof.
  intros Hcalm Hk. destruct (minter_public_key c.1) as [key|] eqn:E; [|done]. pose proof (calm_key _ _ _ _ Hcalm E). congruence.
Qed.

(** A message of a round other than a fetch. *)
Lemma key_message w pre r0 post next before w' rest now :
  key_inv (mkMachine w (pre ++ r0 :: post) next before) -> job_moves (rd_job r0) w w' -> rd_job r0 <> FetchPublicKey ->
  key_inv (mkMachine w' (pre ++ waiting (rd_id r0) (rd_job r0) rest ++ post) next now).
Proof.
  intros [Hr Hk] Hm Hne. cbn [mc_rounds mc_config mc_world] in *. split; cbn [mc_rounds mc_config mc_world].
  - intros r Hin Hj. apply Hr; [|done]. rewrite !elem_of_app in Hin. rewrite elem_of_app, elem_of_cons.
    destruct Hin as [?|[Hin|?]]; [tauto | | tauto]. destruct rest; [|by apply not_elem_of_nil in Hin].
    apply list_elem_of_singleton in Hin. subst r. done.
  - intros Hnone. destruct Hk as [(tm & Hin & Hj)|(r & Hin & Hj)].
    + destruct Hm as [Hc _]. by eapply key_unknown.
    + left. exists tm. split; [by eapply moves_timers | done].
    + right. exists r. split; [|done]. rewrite elem_of_app, elem_of_cons in Hin. rewrite !elem_of_app.
      destruct Hin as [?|[-> |?]]; [tauto | done | tauto].
Qed.

Lemma key_step l y y' : machine_inv y -> key_inv y -> machine_step l y y' -> key_inv y'.
Proof.
  intros Hinv HK Hstep. pose proof (mv_run _ Hinv) as Hrun. pose proof (mv_good _ Hinv) as Hgood. destruct Hstep as
    [c pre tm post rounds next before now due w rest Hnow Hdue Hp Hs | w pre r0 post next before now answers i w' rest Hnow Hs
    | w pre r0 post next before now Hnow | c timers rounds next before now c' Hnow Hs | s log m timers rounds next before now args c' ins Hnow Hs].
  - pose proof Hs as Hs'. apply start_job_spec in Hs' as [Hm _]; [|exact Hrun]. destruct HK as [Hr Hk]. cbn [mc_rounds mc_config mc_world] in *.
    split; cbn [mc_rounds mc_config mc_world].
    + intros r Hin Hj. apply elem_of_app in Hin as [Hin|Hin]; [by apply Hr|]. destruct rest as [t|]; [|by apply not_elem_of_nil in Hin].
      apply list_elem_of_singleton in Hin. subst r. cbn in *. rewrite Hj in Hs. apply fetch_start in Hs as [[name [= ->]]|[? _]]; [by eauto | done].
    + intros Hnone. destruct (decide (tm_job tm = FetchPublicKey)) as [E|Hne].
      * right. rewrite E in Hs. apply fetch_start in Hs as [[name ->]|[_ [key Hkey]]]; [|by change (minter_public_key (w_state w) = None) in Hnone; rewrite Hkey in Hnone].
        eexists. split; [apply elem_of_app; right; by apply list_elem_of_singleton | done].
      * destruct Hk as [(tm0 & Hin & Hj)|(r & Hin & Hj)]; [destruct Hm as [Hc _]; exact (key_unknown _ _ _ Hc Hnone) | |].
        -- left. exists tm0. split; [|done]. eapply moves_timers; [exact Hm|]. cbn [w_timers] in *. rewrite elem_of_app, elem_of_cons in Hin.
           rewrite !elem_of_app. destruct Hin as [?|[-> |?]]; [tauto | done | tauto].
        -- right. exists r. split; [apply elem_of_app; by left | done].
  - cbn [mc_rounds] in Hgood. apply Forall_app in Hgood as [_ [Hg0 _]%Forall_cons].
    destruct (decide (rd_job r0 = FetchPublicKey)) as [E|Hne].
    + destruct (ki_rounds _ HK r0) as [name Ename]; [apply elem_of_app; right; left | done |].
      rewrite E, Ename in Hs. destruct (fetch_resume _ _ _ _ _ _ _ Hs) as [-> Hsched]. split; cbn [mc_rounds mc_config mc_world].
      * intros r Hin Hj. apply (ki_rounds _ HK); [|done]. cbn [mc_rounds]. cbn [waiting app] in Hin. rewrite elem_of_app, ?elem_of_cons in *. tauto.
      * intros Hnone. left. destruct Hsched as [[key Hkey]|?]; [|done].
        change (minter_public_key (w_state w') = None) in Hnone. by rewrite Hkey in Hnone.
    + apply resume_job_spec in Hs as [Hm _]; [|exact Hrun | exact Hg0]. by eapply key_message.
  - cbn [mc_rounds] in Hgood. apply Forall_app in Hgood as [_ [Hg0 _]%Forall_cons].
    destruct (decide (rd_job r0 = FetchPublicKey)) as [E|Hne].
    + destruct (ki_rounds _ HK r0) as [name Ename]; [apply elem_of_app; right; left | done |]. rewrite E, Ename. split; cbn [mc_rounds mc_config mc_world].
      * intros r Hin Hj. apply (ki_rounds _ HK); [|done]. cbn [mc_rounds]. rewrite elem_of_app, ?elem_of_cons in *. tauto.
      * intros _. left. apply fetch_abort.
    + destruct (abort_job_spec _ _ w now Hrun Hg0) as [Hm _]. by apply (key_message _ _ _ _ _ _ _ None now HK).
  - destruct HK as [Hr Hk]. split; [done|]. cbn [mc_rounds mc_config mc_world] in *. intros Hnone. apply Hk.
    apply endpoint_quiet in Hs; [|exact Hrun]. eapply (key_unknown (fun _ => False)); [|exact Hnone].
    eapply quiet_calm; [|exact Hs]. by intros ev _ [].
  - split; cbn [mc_rounds mc_config mc_world]; [by intros r ?%not_elem_of_nil|]. intros _. left. apply setup_fetches.
Qed.

Lemma run_key y : machine_run y -> key_inv y.
Proof.
  induction 1 as [args now c Hinit | l y y' Hrun IH Hstep].
  - split; cbn [mc_rounds mc_config mc_world]; [by intros r ?%not_elem_of_nil|]. intros _. left. apply setup_fetches.
  - eapply key_step; [by eapply machine_run_inv | exact IH | exact Hstep].
Qed.

Lemma run_armed y task : machine_run y -> armed task (mc_now y) (w_timers (mc_world y)).
Proof.
  induction 1 as [args now c Hinit | l y y' Hrun IH Hstep]; [apply armed_setup|].
  eapply armed_step; [by eapply machine_run_inv | exact Hstep | exact IH].
Qed.
End Scheduling.

(** ** Properties *)

(** C6: the timer tasks stay scheduled. After any messages, traps and
    upgrades, every task has an armed timer that is due within its interval;
    its guard is free exactly when no round of it waits for an answer, so a
    trapped round never locks its task out; and as long as the public key is
    not recorded, fetching it is scheduled or under way. *)
Theorem tasks_stay_scheduled `{!Platform, !SolanaDecoders} deserialize_raw y :
  machine_run deserialize_raw y -> sized (mc_config y).2 ->
  (forall task, exists tm, tm ∈ w_timers (mc_world y) /\ tm_job tm = RunTask task /\
     tm_interval tm = Some (interval_of task) /\ tm_due tm <= mc_now y + interval_of task) /\
  (forall task, acquire (RunTask task) (mc_world y) = None <-> exists r, r ∈ mc_rounds y /\ rd_job r = RunTask task) /\
  (minter_public_key (mc_config y).1 = None ->
     (exists tm, tm ∈ w_timers (mc_world y) /\ tm_job tm = FetchPublicKey) \/
     (exists r, r ∈ mc_rounds y /\ rd_job r = FetchPublicKey)).
Proof.
  intros Hrun Hsz. split_and!; [intros task; by apply (run_armed deserialize_raw) | | by apply (run_key deserialize_raw)].
  intros task. pose proof (gi_active _ (run_guards _ _ Hrun Hsz)) as Ha.
  assert (task ∈ active_tasks (w_state (mc_world y)) <-> exists r, r ∈ mc_rounds y /\ rd_job r = RunTask task) as <-.
  { change (task ∈ active_tasks (mc_config y).1 <-> exists r, r ∈ mc_rounds y /\ rd_job r = RunTask task).
    rewrite Ha, elem_of_list_to_set. unfold round_tasks. rewrite list_elem_of_omap. split.
    - intros (r & Hr & Hj). exists r. split; [done|]. destruct (rd_job r); [done | by injection Hj as ->].
    - intros (r & Hr & Hj). exists r. by rewrite Hj. }
  cbn [acquire]. unfold timer_guard_new. case_bool_decide; naive_solver.
Qed.

(** The sweep of the example traps: its guard is free again. *)
Definition machine_trapped : Machine :=
  mkMachine (abort_job (rd_job sweeping_round) (rd_rest sweeping_round) (mc_world machine_sweeping) next_minute) []
    (mc_next_id machine_sweeping) next_minute.

Lemma machine_trapped_run : machine_run example_deserialize machine_trapped.
Proof.
  apply (machine_message _ (Some (rd_id sweeping_round)) _ _ machine_sweeping_run).
  assert (mc_rounds machine_sweeping = [] ++ sweeping_round :: []) as E.
  { assert (length (mc_rounds machine_sweeping) = 1%nat) as Hl by (vm_compute; reflexivity). unfold sweeping_round.
    destruct (mc_rounds machine_sweeping) as [|r [|]]; [discriminate | reflexivity | discriminate]. }
  assert (mc_now machine_sweeping <= next_minute) as Hn by (vm_compute; discriminate). unfold machine_trapped. revert E Hn.
  generalize sweeping_round. destruct machine_sweeping as [w rounds next before]. cbn [mc_rounds mc_world mc_next_id mc_now].
  intros r -> Hn. by apply (step_trap _ w [] r []).
Qed.

Lemma tasks_stay_scheduled_witness :
  (exists tm, tm ∈ w_timers (mc_world machine_trapped) /\ tm_job tm = RunTask SweepDeposits) /\
  ~ acquire (RunTask SweepDeposits) (mc_world machine_trapped) = None.
Proof.
  destruct (tasks_stay_scheduled example_deserialize machine_trapped machine_trapped_run) as (Htimers & Hfree & _).
  - split; [vm_compute; discriminate|]. apply (bool_decide_unpack _). vm_compute. exact I.
  - split.
    + destruct (Htimers SweepDeposits) as (tm & Hin & Hj & _). exists tm. split; [exact Hin | exact Hj].
    + intros (r & Hr & _)%Hfree. by apply not_elem_of_nil in Hr.
Defined.
