(* ===== verification/Costs.v ===== *)
(** How many calls asynchronous code makes: a bound on all the calls of a
    program, on the calls it makes at once, and its preservation by running
    the program and by answering its calls. *)
From S2P Require Import Prelude Platform InsertionOrderedMap NoncePool Events Sweeps Deposits SolTransfer MinterState Replay Invariants Safety Interleaving Guards Rpc Withdraw Metrics Mint Monitor Async.

(** A recent block is fetched in at most this many attempts, each of them at
    most one [getSlot] and one [getBlock]. *)
Definition GET_RECENT_BLOCK_MAX_TRIES : nat := 3.

Section Requests.
Context `{SolanaDecoders}.

(** The most calls a request makes one after the other or at once, and the
    most it makes at once; a transaction is signed by one call per path. *)
Definition total_calls (r : Request) : nat :=
  match r with
  | GetRecentBlock _ => 2 * GET_RECENT_BLOCK_MAX_TRIES
  | SignWithSchnorr _ derivation_paths => Nat.max 1 (length derivation_paths)
  | _ => 1
  end.

Definition concurrent_calls (r : Request) : nat :=
  match r with SignWithSchnorr _ derivation_paths => Nat.max 1 (length derivation_paths) | _ => 1 end.

(** The calls to the SOL RPC canister and the signatures among them. *)
Definition rpc_calls (r : Request) : nat :=
  match r with
  | GetRecentBlock _ | GetSignatureStatuses _ | GetAccountInfo _ | GetTransaction _ | SendTransaction _ _ => 1
  | SignWithSchnorr _ _ | LedgerTransfer _ | FetchSchnorrPublicKey _ => 0
  end.

Definition signature_calls (r : Request) : nat :=
  match r with SignWithSchnorr _ derivation_paths => length derivation_paths | _ => 0 end.

(** The requests a program waits for, and the calls of the [i]-th. *)
Definition pending_call {B} (x : Async B) : list Request := match x with Await r _ _ => [r] | _ => [] end.

Definition outstanding {A} (t : Task A) : list Request :=
  match t with
  | TReturn _ => []
  | TSeq _ x _ => pending_call x
  | TJoin _ xs _ => concat (map pending_call xs)
  end.

Definition pending_calls {B} (x : Async B) : nat := sum_list_with total_calls (pending_call x).

Definition calls_at {A} (i : nat) (t : Task A) : nat :=
  match t with
  | TReturn _ => 0
  | TSeq _ x _ => pending_calls x
  | TJoin _ xs _ => default 0%nat (pending_calls <$> xs !! i)
  end.
End Requests.

(** ** Bounds

    The program makes at most [n] calls, joins at most [width] futures, makes
    only requests in [allowed], and its result satisfies [Q], provided that the
    world it reads satisfies [W]. *)
Section Costs.
Context `{SolanaDecoders} (W : World -> Prop) (width : nat) (allowed : Request -> Prop).

Fixpoint async_cost {B} (x : Async B) (n : nat) (Q : B -> Prop) : Prop :=
  match x with
  | Return b => Q b
  | Act f k => forall w now w' y, W w -> f w now = Done (w', y) -> async_cost (k y) n Q
  | Await r _ k => allowed r /\ (total_calls r <= n)%nat /\ forall a, async_cost (k a) (n - total_calls r) Q
  end.

Abbreviation any := (fun _ => True).
Abbreviation futures_cost xs ns := (Forall2 (fun x n => async_cost x n any) xs ns).

Fixpoint task_cost {A} (t : Task A) (n : nat) (Q : A -> Prop) : Prop :=
  match t with
  | TReturn a => Q a
  | TSeq _ x k => exists m, (m <= n)%nat /\ async_cost x m (fun y => task_cost (k y) (n - m) Q)
  | TJoin _ xs k =>
      (length xs <= width)%nat /\
      exists ms, futures_cost xs ms /\ (sum_list ms <= n)%nat /\
        forall ys, length ys = length xs -> task_cost (k ys) (n - sum_list ms) Q
  end.

Lemma async_cost_mono {B} (x : Async B) : forall n n' (Q Q' : B -> Prop),
  (n <= n')%nat -> (forall b, Q b -> Q' b) -> async_cost x n Q -> async_cost x n' Q'.
Proof.
  induction x as [b | X f k IH | r g k IH]; intros n n' Q Q' Hn HQ Hx; cbn in *; [by apply HQ | |].
  - intros w now w' y Hw Hf. eapply IH; [exact Hn | exact HQ | by eapply Hx].
  - destruct Hx as (Ha & Hr & Hk). split_and!; [done | lia|]. intros a. eapply IH; [|exact HQ|apply Hk]. lia.
Qed.

Lemma task_cost_mono {A} (t : Task A) : forall n n' (Q Q' : A -> Prop),
  (n <= n')%nat -> (forall b, Q b -> Q' b) -> task_cost t n Q -> task_cost t n' Q'.
Proof.
  induction t as [a | B g x k IH | B g xs k IH]; intros n n' Q Q' Hn HQ Ht; cbn in *; [by apply HQ | |].
  - destruct Ht as (m & Hm & Hx). exists m. split; [lia|]. eapply async_cost_mono; [reflexivity | | exact Hx].
    intros y. apply IH; [lia | done].
  - destruct Ht as (Hw & ms & Hxs & Hm & Hk). split; [done|]. exists ms. split_and!; [done | lia|].
    intros ys Hys. eapply IH; [| exact HQ | by apply Hk]. lia.
Qed.

(** *** The combinators *)
Lemma async_bind_cost {A B} (x : Async A) (f : A -> Async B) : forall n m Q,
  async_cost x n (fun a => async_cost (f a) m Q) -> async_cost (x ≫= f) (n + m) Q.
Proof.
  induction x as [a | X g k IH | r g k IH]; intros n m Q Hx; cbn in *.
  - eapply async_cost_mono; [| |exact Hx]; [lia | done].
  - intros w now w' y Hw Hf. by eapply IH, Hx.
  - destruct Hx as (Ha & Hr & Hk). split_and!; [done | lia|]. intros a.
    replace (n + m - total_calls r)%nat with (n - total_calls r + m)%nat by lia. by apply IH.
Qed.

Lemma task_bind_cost {A B} (t : Task A) (f : A -> Task B) : forall n m Q,
  task_cost t n (fun a => task_cost (f a) m Q) -> task_cost (t ≫= f) (n + m) Q.
Proof.
  induction t as [a | X g x k IH | X g xs k IH]; intros n m Q Ht; cbn in *.
  - eapply task_cost_mono; [| |exact Ht]; [lia | done].
  - destruct Ht as (c & Hc & Hx). exists c. split; [lia|]. eapply async_cost_mono; [reflexivity | | exact Hx]. intros y Hy.
    replace (n + m - c)%nat with (n - c + m)%nat by lia. by apply IH.
  - destruct Ht as (Hw & ms & Hxs & Hm & Hk). split; [done|]. exists ms. split_and!; [done | lia|]. intros ys Hys.
    replace (n + m - sum_list ms)%nat with (n - sum_list ms + m)%nat by lia. by apply IH, Hk.
Qed.

Lemma seq_cost {A} (x : Async A) n Q : async_cost x n Q -> task_cost (seq x) n Q.
Proof. intros Hx. by exists n. Qed.

Lemma join_cost {A X} (f : X -> Async A) items c n :
  (length items <= width)%nat -> (length items * c <= n)%nat -> (forall x, x ∈ items -> async_cost (f x) c any) ->
  task_cost (join_all (map f items)) n (fun ys => length ys = length items).
Proof.
  intros Hw Hn Hf. cbn. rewrite length_map. split; [done|]. exists (replicate (length items) c).
  assert (sum_list (replicate (length items) c) = (length items * c)%nat) as E.
  { clear. induction items; cbn in *; lia. }
  rewrite E. split_and!; [|done | done]. clear -Hf. induction items as [|x items IH]; cbn; constructor; [apply Hf; left|].
  apply IH. intros y Hy. apply Hf. by right.
Qed.

Lemma await_cost r n : allowed r -> (total_calls r <= n)%nat -> async_cost (await r) n any.
Proof. done. Qed.

Lemma read_cost {X} (f : State -> X) n (Q : X -> Prop) : (forall w, W w -> Q (f (w_state w))) -> async_cost (read f) n Q.
Proof. intros HQ w now w' y Hw [= _ <-]%Done_inv. by apply HQ. Qed.

Lemma lift_cost {X} (o : outcome X) n (Q : X -> Prop) : (forall x, o = Done x -> Q x) -> async_cost (lift o) n Q.
Proof. intros HQ w now w' y Hw (x & -> & [= _ <-]%Done_inv)%bind_Done. by apply HQ. Qed.

Lemma for_each_cost {X} (body : X -> Async unit) items c :
  (forall x, x ∈ items -> async_cost (body x) c any) -> async_cost (for_each body items) (length items * c) any.
Proof.
  induction items as [|x items IH]; intros Hb; [done|]. cbn. apply async_bind_cost.
  eapply async_cost_mono; [reflexivity | | apply Hb; left]. intros _ _. apply IH. intros y Hy. apply Hb. by right.
Qed.

(** A loop over batches with an invariant on the accumulator and the number
    of elements seen, whose body makes one call per element. *)
Lemma fold_cost {T X} (body : T -> list X -> Task T) (inv : nat -> T -> Prop) batches : forall k acc,
  (forall k acc batch, batch ∈ batches -> inv k acc -> task_cost (body acc batch) (length batch) (inv (k + length batch)%nat)) ->
  inv k acc -> task_cost (for_fold body acc batches) (length (concat batches)) (inv (k + length (concat batches))%nat).
Proof.
  induction batches as [|batch batches IH]; intros k acc Hb Hinv; cbn [for_fold concat]; [cbn; by rewrite Nat.add_0_r|].
  rewrite length_app. apply task_bind_cost. eapply task_cost_mono; [reflexivity | | apply Hb; [left | exact Hinv]].
  intros acc' Hacc. rewrite Nat.add_assoc. apply IH; [|exact Hacc]. intros k' a b Hin. apply Hb. by right.
Qed.

Lemma scoped_cost guard t : forall n, task_cost t n any -> task_cost (scoped guard t) n any.
Proof.
  induction t as [[] | X g x k IH | X g xs k IH]; intros n Ht; cbn in *; [done | by exists 0%nat; split; [lia|] | |].
  - destruct Ht as (m & Hm & Hx). exists m. split; [done|]. eapply async_cost_mono; [reflexivity | | exact Hx]. intros y. apply IH.
  - destruct Ht as (Hw & ms & Hxs & Hm & Hk). split; [done|]. exists ms. split_and!; [done | done|]. intros ys Hys. by apply IH, Hk.
Qed.

(** *** Waiting programs *)
Lemma outstanding_cost {A} (t : Task A) n Q :
  (0 < width)%nat -> task_cost t n Q ->
  (length (outstanding t) <= width)%nat /\ Forall allowed (outstanding t) /\ (sum_list_with total_calls (outstanding t) <= n)%nat.
Proof.
  intros Hw. destruct t as [a | B g x k | B g xs k]; cbn; [intros _; split_and!; [lia | constructor | lia] | |].
  - intros (m & Hm & Hx). destruct x; cbn in *; [split_and!; [lia | constructor | lia]..|]. destruct Hx as (Ha & Hr & _).
    split_and!; [lia | by apply Forall_singleton | lia].
  - intros (Hlen & ms & Hxs & Hm & _). revert Hlen Hm. clear Hw k. generalize width as u. revert n.
    induction Hxs as [|x m xs ms Hx _ IH]; intros n u Hlen Hm; cbn in *; [split_and!; [lia | constructor | lia]|].
    destruct (IH (n - m)%nat (u - 1)%nat) as (IH1 & IH2 & IH3); [lia..|].
    destruct x as [b | X f k | r g' k]; cbn in *; [split_and!; [lia | done | lia]..|]. destruct Hx as (Ha & Hr & _).
    split_and!; [lia | by constructor | lia].
Qed.

Lemma sum_list_insert ms : forall i (m c : nat), ms !! i = Some m -> (c <= m)%nat ->
  (c <= sum_list ms)%nat /\ sum_list (<[i := (m - c)%nat]> ms) = (sum_list ms - c)%nat.
Proof.
  induction ms as [|m0 ms IH]; intros [|i] m c Hi Hc; cbn in *; simplify_eq; [lia|].
  destruct (IH i m c Hi Hc) as [? E]. split; [lia|].
  etransitivity; [apply (f_equal (Nat.add m0)), E | lia].
Qed.

(** An answered request is paid for. *)
Lemma deliver_cost {A} answers i (t t' : Task A) n Q :
  task_cost t n Q -> deliver answers i t = Some t' -> (calls_at i t <= n)%nat /\ task_cost t' (n - calls_at i t) Q.
Proof.
  destruct t as [a | B g x k | B g xs k]; cbn [deliver task_cost calls_at]; [done| |].
  - intros (m & Hm & Hx) (x' & Hx' & [= <-])%bind_Some. destruct x as [b | X f k' | r g' k']; cbn in Hx'; simplify_eq.
    unfold pending_calls. cbn in *. rewrite Nat.add_0_r. destruct Hx as (_ & Hr & Hx). split; [lia|].
    exists (m - total_calls r)%nat. split; [lia|]. eapply async_cost_mono; [reflexivity | | apply Hx]. intros y Hy.
    eapply task_cost_mono; [| |exact Hy]; [lia | done].
  - intros (Hw & ms & Hxs & Hm & Hk) (x & Hi & (x' & Hx' & [= <-])%bind_Some)%bind_Some. rewrite Hi. cbn [fmap option_fmap option_map default].
    destruct (Forall2_lookup_l _ _ _ _ _ Hxs Hi) as (m & Hmi & Hx). destruct x as [b | X f k' | r g' k']; cbn in Hx'; simplify_eq.
    unfold pending_calls. cbn in *. rewrite Nat.add_0_r. destruct Hx as (_ & Hr & Hx).
    destruct (sum_list_insert ms i m (total_calls r) Hmi Hr) as [Hle E]. split; [lia|]. rewrite length_insert. split; [done|].
    exists (<[i := (m - total_calls r)%nat]> ms). rewrite E. split_and!; [|lia|].
    + apply Forall2_insert; [done | apply Hx].
    + intros ys Hys. eapply task_cost_mono; [| |by apply Hk]; [lia | done].
Qed.

(** *** Running, through worlds that satisfy [W] *)
Section Running.
Context `{Platform} (P : EventType -> Prop) (total : bool).

Definition fine_between (w w' : World) : Prop := forall w1, grows P w w1 -> grows P w1 w' -> W w1.

Lemma fine_later w w1 w' : grows P w w1 -> fine_between w w' -> fine_between w1 w'.
Proof. intros Hg Hf w2 H1 H2. apply Hf; [by etransitivity | done]. Qed.

Lemma fine_sooner w w1 w' : grows P w1 w' -> fine_between w w' -> fine_between w w1.
Proof. intros Hg Hf w2 H1 H2. apply Hf; [done | by etransitivity]. Qed.

Lemma run_async_cost {B} (x : Async B) : forall n Q w now w' x',
  async_good P total x -> async_cost x n Q -> run_async x w now = Done (w', x') -> fine_between w w' -> async_cost x' n Q.
Proof.
  induction x as [b | X f k IH | r g k IH]; intros n Q w now w' x' Hg Hc Hr Hf; cbn in Hr; [by injection Hr as _ <- | | by injection Hr as _ <-].
  apply bind_Done in Hr as ([w1 y] & H1 & Hr). pose proof (Hg _ _ _ _ H1) as [Hw1 Hgk].
  pose proof (run_async_good P total _ _ _ _ _ Hgk Hr) as [Hw2 _].
  eapply IH; [exact Hgk | | exact Hr | by eapply fine_later]. eapply Hc; [|exact H1]. apply Hf; [reflexivity | by etransitivity].
Qed.

Lemma run_all_cost {B} (xs : list (Async B)) : forall ms w now w' xs',
  Forall (async_good P total) xs -> futures_cost xs ms -> run_all xs w now = Done (w', xs') -> fine_between w w' ->
  futures_cost xs' ms.
Proof.
  induction xs as [|x xs IH]; intros ms w now w' xs' Hg Hc Hr Hf; cbn in Hr; [by injection Hr as _ <-|].
  apply bind_Done in Hr as ([w1 x1] & H1 & Hr). apply bind_Done in Hr as ([w2 xs2] & H2 & Hr). injection Hr as <- <-.
  apply Forall_cons in Hg as [Hgx Hg]. apply Forall2_cons_inv_l in Hc as (m & ms' & Hx & Hxs & ->).
  pose proof (run_async_good P total _ _ _ _ _ Hgx H1) as [G1 _]. pose proof (run_all_good P total _ _ _ _ _ Hg H2) as [G2 _].
  constructor; [by eapply run_async_cost, fine_sooner | by eapply IH, fine_later].
Qed.

Lemma run_task_cost {A} (t : Task A) : forall n Q w now w' t',
  task_good P total t -> task_cost t n Q -> run_task t w now = Done (w', t') -> fine_between w w' -> task_cost t' n Q.
Proof.
  induction t as [a | B g x k IH | B g xs k IH]; intros n Q w now w' t' Hg Hc Hr Hf; cbn in Hr.
  - by injection Hr as _ <-.
  - destruct Hg as (_ & Hgx & Hgk). destruct Hc as (m & Hm & Hx). apply bind_Done in Hr as ([w1 x1] & H1 & Hr).
    pose proof (run_async_good P total _ _ _ _ _ Hgx H1) as [G1 _]. destruct (returned x1) as [b|] eqn:Hb.
    + pose proof (run_task_good P total _ _ _ _ _ (Hgk b) Hr) as [G2 _].
      assert (async_cost x1 m (fun y => task_cost (k y) (n - m) Q)) as Hx1 by (by eapply run_async_cost, fine_sooner).
      destruct x1; [|done|done]. injection Hb as ->. cbn in Hx1.
      eapply task_cost_mono; [| |eapply IH; [apply Hgk | exact Hx1 | exact Hr | by eapply fine_later]]; [lia | done].
    + injection Hr as <- <-. exists m. split; [done|]. by eapply run_async_cost.
  - destruct Hg as (_ & Hgx & Hgk). destruct Hc as (Hw & ms & Hxs & Hm & Hk). apply bind_Done in Hr as ([w1 xs1] & H1 & Hr).
    pose proof (run_all_good P total _ _ _ _ _ Hgx H1) as [G1 _]. pose proof (Forall2_length _ _ _ Hxs) as Hl.
    destruct (mapM returned xs1) as [bs|] eqn:Hb.
    + pose proof (run_task_good P total _ _ _ _ _ (Hgk bs) Hr) as [G2 _]. assert (futures_cost xs1 ms) as Hx1 by (by eapply run_all_cost, fine_sooner).
      apply Forall2_length in Hx1. apply length_mapM in Hb.
      eapply task_cost_mono; [| |eapply IH; [apply Hgk | apply Hk | exact Hr | by eapply fine_later]]; [lia | done | lia].
    + injection Hr as <- <-. assert (futures_cost xs1 ms) as Hx1 by (by eapply run_all_cost). pose proof (Forall2_length _ _ _ Hx1) as Hl1.
      assert (length xs1 = length xs) as El by lia. cbn. rewrite El. split; [done|]. by exists ms.
Qed.
End Running.
End Costs.
