(* ===== verification/Rounds.v ===== *)
(** The rounds of the timer tasks, one by one: what every waiting round
    satisfies, that it waits for a call, and an example of an execution. *)
From S2P Require Import Prelude Platform ConcretePlatform InsertionOrderedMap TimedSizedMap Watchlist NoncePool Events Sweeps Deposits SolTransfer MinterState Replay Invariants Safety Interleaving Guards Rpc Withdraw Memo Metrics Mint DepositSol SweepTasks Monitor Async Tasks Execution Canister System.

(** ** Properties of waiting rounds *)
Section Invariants.
Context `{Platform} `{SolanaDecoders} (deserialize_raw : bytes -> option PublicKey).
Context (P : Job -> Task unit -> Prop).
Context (start_P : forall job w now w' t, run_task (job_task deserialize_raw job) w now = Done (w', t) -> P job t).
Context (resume_P : forall job answers i t t1 w now w' t', P job t -> deliver answers i t = Some t1 -> run_task t1 w now = Done (w', t') -> P job t').

Definition unfinished (t : Task unit) : Prop := match t with TReturn _ => False | _ => True end.

(** What is left of a round after a message. *)
Definition left_over (job : Job) (rest : option (Task unit)) : Prop :=
  match rest with Some t => P job t /\ unfinished t | None => True end.

Lemma suspend_rest job w t w' rest : P job t -> suspend job w t = (w', rest) -> left_over job rest.
Proof. intros Ht Hs. destruct t; cbn in Hs; injection Hs as _ <-; done. Qed.

Lemma start_rest job w now w' rest : start_job deserialize_raw job w now = (w', rest) -> left_over job rest.
Proof.
  unfold start_job. destruct (acquire job w) as [w1|]; [|by intros [= _ <-]].
  destruct (run_task _ w1 now) as [[w2 t]|] eqn:Ht; [|by intros [= _ <-]].
  apply suspend_rest. by eapply start_P.
Qed.

Lemma resume_rest job t answers i w now w' rest :
  P job t -> resume_job job t answers i w now = Some (w', rest) -> left_over job rest.
Proof.
  intros Hs (t1 & Ht1 & Hr)%bind_Some. injection Hr as Hr.
  destruct (run_task t1 w now) as [[w2 t2]|] eqn:Ht; [|by injection Hr as _ <-].
  eapply suspend_rest; [|exact Hr]. by eapply resume_P.
Qed.

Lemma waiting_rest id job rest :
  left_over job rest -> Forall (fun r => P (rd_job r) (rd_rest r) /\ unfinished (rd_rest r)) (waiting id job rest).
Proof. destruct rest as [t|]; [|constructor]. intros Ht. by apply Forall_singleton. Qed.

Lemma rounds_satisfy y :
  machine_run deserialize_raw y -> Forall (fun r => P (rd_job r) (rd_rest r) /\ unfinished (rd_rest r)) (mc_rounds y).
Proof.
  induction 1 as [args now c Hinit | l y y' _ IH Hstep]; [constructor|].
  destruct Hstep; cbn [mc_rounds] in *; [| | | done | constructor].
  - apply Forall_app. split; [done|]. by eapply waiting_rest, start_rest.
  - apply Forall_app in IH as [? [[Hr _] ?]%Forall_cons]. rewrite !Forall_app. split_and!; [done | | done]. by eapply waiting_rest, resume_rest.
  - apply Forall_app in IH as [? [_ ?]%Forall_cons]. by apply Forall_app.
Qed.
End Invariants.

(** ** The first and the last message of a round

    The parts of the tasks that [SweepTasks] and [Mint] cut out are the
    messages of the whole tasks. *)
Section Messages.
Context `{Platform} `{SolanaDecoders} (deserialize_raw : bytes -> option PublicKey).

Lemma guard_undone s task s1 : timer_guard_new s task = Ok s1 -> timer_guard_drop s1 task = s.
Proof.
  unfold timer_guard_new, timer_guard_drop. case_bool_decide as Hn; [done|]. intros [= <-]. destruct s. cbn. f_equal. set_solver.
Qed.

Lemma release_undone w task s1 : timer_guard_new (w_state w) task = Ok s1 -> release (RunTask task) (with_state w s1) = w.
Proof. intros Hs%guard_undone. destruct w as [[[s log] m] timers]. unfold release, with_state, with_config. cbn in *. by rewrite Hs. Qed.

(** What follows the fetch of the block. *)
Definition sweep_with_block (round : SweepRound) (destination : Address) (block : result Block GetRecentBlockError) : Task unit :=
  match block with
  | Err _ => mret tt
  | Ok block =>
      scoped (fun w now => Done (set_timer 0 (RunTask SweepDeposits) w now))
        (_ ← join_all (map (submit_sweep_transaction_future block destination) (sr_batches round));
         mret (negb (sr_leaves_deposits_queued round)))
  end.

Lemma start_sweep w now :
  start_job deserialize_raw (RunTask SweepDeposits) w now =
  match sweep_queued_deposits_start (w_state w) with
  | Some (s, round, destination) =>
      (with_state w s, Some (seq (get_recent_block_future CommitmentConfirmed) ≫= sweep_with_block round destination))
  | None => (w, None)
  end.
Proof.
  unfold start_job, sweep_queued_deposits_start. cbn [acquire]. destruct (timer_guard_new (w_state w) SweepDeposits) as [s|] eqn:Hg; [|done].
  cbn [job_task]. unfold sweep_queued_deposits. cbn -[release with_state].
  change (w_state (with_state w s)) with s. case_bool_decide; cbn -[release with_state]; [by rewrite (release_undone _ _ _ Hg)|].
  change (w_state (with_state w s)) with s. destruct (minter_public_key s) as [key|]; cbn -[release with_state]; [done | by rewrite (release_undone _ _ _ Hg)].
Qed.

Lemma finish_sweep w now round :
  match run_task (scoped (fun w now => Done (set_timer 0 (RunTask SweepDeposits) w now))
          (mret (negb (sr_leaves_deposits_queued round)))) w now with
  | Done (w', t) => suspend (RunTask SweepDeposits) w' t
  | Panic _ => (w, None)
  end =
  let '(s, again) := sweep_queued_deposits_end (w_state w) round true in
  (with_state (if again then set_timer 0 (RunTask SweepDeposits) w now else w) s, None).
Proof. unfold sweep_queued_deposits_end. cbn. by destruct (sr_leaves_deposits_queued round). Qed.

(** What follows the mints of a round. *)
Definition mints_done (round : MintRound) : Task unit :=
  round_made_progress ← seq (read (fun s =>
    existsb (fun p => bool_decide (pending_mints (deposits s) !! p.1 = None)) (mr_pending_mints round)));
  if round_made_progress && mr_more_pending_mints_than_one_round round then seq (schedule 0 (RunTask TaskMint)) else mret tt.

Lemma start_mints w now :
  start_job deserialize_raw (RunTask TaskMint) w now =
  match process_pending_mints_start (w_state w) with
  | Some (s, round) =>
      match run_task (seq (for_each process_pending_mint_future (mr_pending_mints round)) ≫= fun _ => mints_done round) (with_state w s) now with
      | Done (w', t) => suspend (RunTask TaskMint) w' t
      | Panic _ => (w, None)
      end
  | None => (w, None)
  end.
Proof.
  unfold start_job, process_pending_mints_start. cbn [acquire]. destruct (timer_guard_new (w_state w) TaskMint) as [s|] eqn:Hg; [|done].
  cbn [job_task]. unfold process_pending_mints. cbn -[for_each mints_done release with_state].
  change (w_state (with_state w s)) with s. case_bool_decide; [by cbn -[release with_state]; rewrite (release_undone _ _ _ Hg) | done].
Qed.

Lemma finish_mints w now round :
  match run_task (mints_done round) w now with
  | Done (w', t) => suspend (RunTask TaskMint) w' t
  | Panic _ => (w, Some (mints_done round))
  end =
  let '(s, again) := process_pending_mints_end (w_state w) round in
  (with_state (if again then set_timer 0 (RunTask TaskMint) w now else w) s, None).
Proof. unfold mints_done, process_pending_mints_end. cbn. by destruct (existsb _ _ && _). Qed.
End Messages.

(** ** A waiting round can go on *)
Section Waiting.
Context `{Platform} `{SolanaDecoders}.

(** What runs up to its next await does not run further. *)
Definition paused {B} (x : Async B) : Prop := match x with Act _ _ => False | _ => True end.

Lemma run_async_paused {B} (x : Async B) : forall w now w' x', run_async x w now = Done (w', x') -> paused x'.
Proof.
  induction x as [b | X f k IH | r g k IH]; intros w now w' x' Hr; cbn in Hr; [by injection Hr as _ <- | | by injection Hr as _ <-].
  apply bind_Done in Hr as ([w1 y] & _ & Hr). by eapply IH.
Qed.

Lemma run_all_paused {B} (xs : list (Async B)) : forall w now w' xs', run_all xs w now = Done (w', xs') -> Forall paused xs'.
Proof.
  induction xs as [|x xs IH]; intros w now w' xs' Hr; cbn in Hr; [by injection Hr as _ <-; constructor|].
  apply bind_Done in Hr as ([w1 x1] & H1 & Hr). apply bind_Done in Hr as ([w2 xs2] & H2 & Hr). injection Hr as _ <-.
  constructor; [by eapply run_async_paused | by eapply IH].
Qed.

(** *** A waiting task waits for a call *)
Definition can_be_answered {A} (t : Task A) : Prop := exists i, forall answers, is_Some (deliver answers i t).

Lemma run_task_waits {A} (t : Task A) : forall w now w' t',
  run_task t w now = Done (w', t') -> match t' with TReturn _ => True | _ => can_be_answered t' end.
Proof.
  induction t as [a | B g x k IH | B g xs k IH]; intros w now w' t' Hr; cbn in Hr.
  - by injection Hr as _ <-.
  - apply bind_Done in Hr as ([w1 x1] & H1 & Hr). destruct (returned x1) as [b|] eqn:Hb; [by eapply IH|]. injection Hr as _ <-.
    apply run_async_paused in H1. exists 0%nat. intros answers. destruct x1; [done | done |]. by eexists.
  - apply bind_Done in Hr as ([w1 xs1] & H1 & Hr). destruct (mapM returned xs1) as [bs|] eqn:Hb; [by eapply IH|]. injection Hr as _ <-.
    apply run_all_paused in H1. apply mapM_None in Hb. apply Exists_exists in Hb as (x & Hx & Hn).
    apply list_elem_of_lookup in Hx as [i Hi]. exists i. intros answers. cbn. rewrite Hi. cbn.
    rewrite Forall_lookup in H1. specialize (H1 _ _ Hi). destruct x; [done | done |]. by eexists.
Qed.
End Waiting.

(** ** An example *)

(** An execution with honest answers: Solana executes what was submitted,
    which advances the nonce of a withdrawal, and the ledger mints. *)
Definition honest_chain : Chain := fun a => if a =? 5 then 1000000 else 5000000.

Definition honest_answers (s : State) (r : Request) : Answer r :=
  match r with
  | GetSignatureStatuses signatures =>
      (Ok tt, Ok (Consistent (Ok (map (fun _ => Some (mkTransactionStatus (Some Finalized) None)) signatures))))
  | GetTransaction signature =>
      Ok (Consistent (Ok
        match iom_get (submitted_transactions s) signature with
        | Some (TxWithdrawal (Legacy message) _ _ _) =>
            Some (mkVersionedTransaction [signature] (ExecutedLegacy message), Some (mkMeta None BATCH_WITHDRAWAL_TX_FEE [] []))
        | _ =>
            sweep ← by_signature (finalized (deposits s)) !! signature;
            Some (mkVersionedTransaction [signature] (ExecutedLegacy (sweep_message sweep 4)),
                  Some (executed_meta sweep 4 (sw_fee sweep) honest_chain))
        end))
  | GetAccountInfo account =>
      Ok (Consistent (Ok (Some (mkUiAccount "system" false
        (if existsb (fun w => iw_nonce_account w =? account) (in_flight_withdrawals s) then "advanced" else "nonce")))))
  | SignWithSchnorr _ _ => fun _ path => Ok (repeat (Z.of_nat (S (length path))) 64)
  | SendTransaction transaction _ => Ok (Consistent (Ok (default 0 (head (tx_signatures transaction)))))
  | other => example_answers other
  end.

(** Answers the calls of the first round until no round waits. *)
Fixpoint serve (fuel : nat) (y : Machine) : Machine :=
  match fuel, mc_rounds y with
  | S fuel, _ :: _ => serve fuel (answer 0 (honest_answers (mc_config y).1) 0 (mc_now y) y)
  | _, _ => y
  end.

Definition machine_swept : Machine := serve 5 machine_sweeping.
Definition two_minutes_past : Timestamp := next_minute.
Definition machine_credited : Machine :=
  serve 5 (fire example_deserialize 3 (two_minutes_past + FINALIZE_TRANSACTIONS_DELAY) two_minutes_past machine_swept).
Definition machine_minted : Machine :=
  serve 5 (fire example_deserialize 2 (two_minutes_past + PROCESS_PENDING_MINTS_DELAY) two_minutes_past machine_credited).

(** The deposited SOL is withdrawn again. *)
Definition example_withdraw : outcome (result (State * Address) WithdrawSolError) :=
  withdraw_sol_endpoint (mc_config machine_minted).1 [3] [] 1000000 "destination".
Definition machine_withdrawing : Machine :=
  match example_withdraw with
  | Done (Ok (s, _)) => endpoint_machine machine_minted (s, (mc_config machine_minted).2) two_minutes_past
  | _ => machine_minted
  end.
Definition burned_by (y : Machine) (request : outcome (result (State * Address) WithdrawSolError))
    : outcome ((State * list Event) * result LedgerBurnIndex WithdrawSolError) :=
  match request with
  | Done (Ok (_, destination)) => withdraw_burned (mc_config y) (mkAccount [3] []) 1000000 destination (Ok (Ok 8)) two_minutes_past
  | _ => Panic "not reached"
  end.
Definition after_burn (y : Machine) (burned : outcome ((State * list Event) * result LedgerBurnIndex WithdrawSolError)) : Machine :=
  match burned with
  | Done (c, _) => endpoint_machine y c two_minutes_past
  | Panic _ => y
  end.
Definition machine_accepted : Machine := after_burn machine_withdrawing (burned_by machine_withdrawing example_withdraw).
Definition machine_sent : Machine :=
  serve 5 (fire example_deserialize 0 (two_minutes_past + WITHDRAWAL_PROCESSING_DELAY) two_minutes_past machine_accepted).
Definition four_minutes_past : Timestamp := two_minutes_past + FINALIZE_TRANSACTIONS_DELAY.
Definition machine_paid : Machine :=
  serve 5 (fire example_deserialize 3 (four_minutes_past + FINALIZE_TRANSACTIONS_DELAY) four_minutes_past machine_sent).

Lemma serve_run fuel : forall y, machine_run example_deserialize y -> machine_run example_deserialize (serve fuel y).
Proof.
  induction fuel as [|fuel IH]; intros y Hrun; cbn; destruct (mc_rounds y); try done. apply IH. by apply answer_run.
Qed.

Lemma machine_minted_run : machine_run example_deserialize machine_minted.
Proof. apply serve_run, fire_run, serve_run, fire_run, serve_run. exact machine_sweeping_run. Qed.

Lemma withdraw_machine_run y caller subaccount amount address s destination now :
  machine_run example_deserialize y -> mc_now y <= now ->
  withdraw_sol_endpoint (mc_config y).1 caller subaccount amount address = Done (Ok (s, destination)) ->
  machine_run example_deserialize (endpoint_machine y (s, (mc_config y).2) now).
Proof.
  intros Hrun Hnow Hw. apply endpoint_machine_run; [done..|]. destruct y as [[[[s0 log] m] timers] rounds next before]. by eapply es_withdraw.
Qed.

Lemma burned_machine_run y request :
  machine_run example_deserialize y -> mc_now y <= two_minutes_past ->
  machine_run example_deserialize (after_burn y (burned_by y request)).
Proof.
  intros Hrun Hnow. destruct (burned_by y request) as [[c r]|] eqn:Hw; [|done]. cbn. unfold burned_by in Hw.
  destruct request as [[[s a]|e]|]; [|done..].
  apply endpoint_machine_run; [done..|]. destruct y as [[[c0 m] timers] rounds next before]. by eapply es_withdraw_burned.
Qed.

Lemma machine_withdrawing_run : machine_run example_deserialize machine_withdrawing.
Proof.
  unfold machine_withdrawing. destruct example_withdraw as [[[s a]|e]|] eqn:E; [|exact machine_minted_run..].
  refine (withdraw_machine_run _ _ _ _ _ _ _ _ machine_minted_run _ E). vm_compute. discriminate.
Qed.

Lemma machine_accepted_run : machine_run example_deserialize machine_accepted.
Proof. apply burned_machine_run; [exact machine_withdrawing_run | vm_compute; discriminate]. Qed.

(** The whole life of a deposit and of a withdrawal: two minutes after the
    timers were set up the deposit of the example is minted, two minutes later
    a withdrawal from it is paid, and nothing waits any more. *)
Lemma deposit_minted_and_withdrawal_paid :
  machine_run example_deserialize machine_paid /\ mc_rounds machine_paid = [] /\
  deposit_status (mc_config machine_minted).1 0 = StatusMinted 7 4104120 /\
  withdrawal_status (mc_config machine_accepted).1 8 = WithdrawalPending /\
  withdrawal_status (mc_config machine_paid).1 8 = WithdrawalTxSuccess (be_value (repeat 1 64)).
Proof.
  split; [|vm_compute; by split_and!]. apply serve_run, fire_run, serve_run, fire_run. exact machine_accepted_run.
Qed.
