(* ===== verification/Concurrency.v ===== *)
(** How many calls the rounds of the timer tasks make, all together and at
    the same time: every round ends after a number of calls that is known in
    advance, and limits the calls it makes at once. *)
From S2P Require Import Prelude Platform ConcretePlatform InsertionOrderedMap TimedSizedMap Watchlist NoncePool Events Sweeps Deposits SolTransfer MinterState Replay Invariants Safety Interleaving Guards Rpc Withdraw Memo Metrics Mint DepositSol SweepTasks Monitor Async Tasks Payout Canister System Costs Rounds.

Lemma chunks_length {A} n m (l : list A) : (0 < n)%nat -> (length l <= m * n)%nat -> (length (chunks n l) <= m)%nat.
Proof.
  intros Hn. unfold chunks. generalize (length l) at 2 as fuel. intros fuel. revert l m.
  induction fuel as [|fuel IH]; intros [|x l] m Hl; cbn; [lia..|]. destruct m as [|m]; [cbn in Hl; lia|].
  apply le_n_S, IH. destruct n as [|n]; [lia|]. cbn [drop]. rewrite length_drop. cbn in Hl. lia.
Qed.

Lemma length_omap_le {A B} (f : A -> option B) l : (length (omap f l) <= length l)%nat.
Proof. induction l as [|x l IH]; cbn; [lia|]. case_match; cbn; lia. Qed.

Lemma NoDup_omap_strong {A B} (f : A -> option B) l :
  (forall x y z, x ∈ l -> y ∈ l -> f x = Some z -> f y = Some z -> x = y) -> NoDup l -> NoDup (omap f l).
Proof.
  intros Hf Hnd. induction Hnd as [|x l Hx _ IH]; cbn; [constructor|].
  assert (NoDup (omap f l)) as Hl by (apply IH; intros ????? ; apply Hf; by right).
  destruct (f x) as [z|] eqn:Hz; [|done]. constructor; [|done]. intros (y & Hy & Hyz)%list_elem_of_omap.
  apply Hx. rewrite (Hf x y z); [done | left | by right | done | done].
Qed.

(** ** The withdrawals in flight

    Each holds a nonce account of its own, and only an upgrade adds accounts
    to the pool. *)
Section InFlight.
Context `{Platform}.

Definition pool_size (s : State) : nat := size (np_accounts (nonce_pool s)).

Lemma in_flight_bounded s log : minter_run (s, log) -> sized log -> (length (in_flight_withdrawals s) <= pool_size s)%nat.
Proof.
  intros Hrun Hsz. destruct (minter_run_inv _ Hrun Hsz) as (L & HI & _). pose proof (mi_nonce _ _ _ HI) as Hn. cbn [fst snd] in Hn.
  destruct Hsz as [Hlen _]. destruct (listable_run _ Hrun Hlen) as [Hwf _]. cbn [fst snd] in Hwf.
  rewrite <- (length_map iw_nonce_account).
  assert (NoDup (map iw_nonce_account (in_flight_withdrawals s))) as Hnd.
  { apply NoDup_fmap_2_strong.
    - intros x y Hx%in_flight_withdrawal_submitted Hy%in_flight_withdrawal_submitted E. rewrite E in Hx.
      pose proof (nv_unique _ _ _ Hn _ _ _ _ _ _ _ _ _ Hx Hy) as Es. rewrite Es, Hy in Hx. destruct x, y. cbn in *. congruence.
    - apply NoDup_omap_strong; [|apply (NoDup_fmap_1 fst), (NoDup_iom_keys _ Hwf)].
      intros [k1 t1] [k2 t2] z H1%iom_iter_get H2%iom_iter_get E1 E2. cbn in *.
      destruct t1 as [|[]], t2 as [|[]]; try done. by simplify_eq. }
  rewrite <- (size_list_to_set (C := gset Address)) by done. unfold pool_size. rewrite <- size_dom. apply subseteq_size.
  intros a. rewrite elem_of_list_to_set. intros (w & -> & Hw%in_flight_withdrawal_submitted)%list_elem_of_fmap. apply elem_of_dom.
  destruct (proj2 (nv_bound _ _ _ Hn (iw_nonce_account w))) as (acc & Ha & _); [right; by eauto 6 | by exists acc].
Qed.

Lemma bind_pool_size pool a v pool' : np_bind pool a v = Done pool' -> size (np_accounts pool') = size (np_accounts pool).
Proof. intros (acc & Ha & _ & _ & ->)%np_bind_Done. cbn. rewrite map_size_insert, Ha. done. Qed.

Lemma free_pool_size pool a pool' : np_free pool a = Done pool' -> size (np_accounts pool') = size (np_accounts pool).
Proof. intros (acc & Ha & _ & ->)%np_free_Done. cbn. rewrite map_size_insert, Ha. done. Qed.

Lemma pool_size_event s ev t s' :
  event_owner ev <> OwnerLifecycle -> apply_state_transition s ev t = Done s' -> pool_size s' = pool_size s.
Proof.
  unfold pool_size. destruct ev; cbn [apply_state_transition event_owner]; intros Ho; [done | done | ..].
  - by intros [_ ->]%process_accepted_Done.
  - destruct message as [m]. destruct purpose as [ids h|ixs].
    + by intros (key' & d & r & _ & _ & _ & _ & _ & ->)%process_submitted_sweep_Done.
    + intros (s1 & tx & _ & _ & _ & Hsend & ->)%process_submitted_withdrawal_Done.
      by apply send_nonce_withdrawal_Done in Hsend as (a & cr & bound & c & st & _ & _ & _ & _ & _ & _ & _ & _ & ->).
  - intros (tx & d & pool & _ & _ & _ & Hf & ->)%process_succeeded_Done. cbn.
    destruct tx; cbn in Hf; [by destruct Hf as [_ ->] | destruct Hf as [Hf _]; by eapply free_pool_size].
  - intros (tx & d & pool & _ & _ & _ & Hf & ->)%process_failed_Done. cbn.
    destruct tx; cbn in Hf; [by destruct Hf as [_ ->] | destruct Hf as [Hf _]; by eapply free_pool_size].
  - by intros (h & d & _ & _ & _ & _ & ->)%process_expired_Done.
  - by intros (d & _ & ->)%deposit_update_Done.
  - by intros (d & sw & _ & _ & _ & ->)%process_credited_Done.
  - by intros (d & _ & ->)%deposit_update_Done.
  - by intros [[_ ->]|[_ ->]]%cache_key_Done.
  - by intros (d & _ & ->)%deposit_update_Done.
  - by intros (d & _ & ->)%deposit_update_Done.
  - intros (pool & p & c & tot & Hb & _ & _ & _ & ->)%process_created_Done. cbn. by eapply bind_pool_size.
Qed.

Lemma calm_pool_size (P : EventType -> Prop) c c' :
  (forall ev, event_owner ev = OwnerLifecycle -> P ev) -> rtc (calm_step P) c c' -> pool_size c'.1 = pool_size c.1.
Proof.
  intros HP. induction 1 as [|c c1 c' Hs _ IH]; [done|]. rewrite IH. destruct Hs as [s log ev now s' log' Hne Hev | s log s' He Hwf].
  - apply bind_Done in Hev as (s1 & Hs1 & Hl). apply Done_inv in Hl. injection Hl as <- _. eapply pool_size_event; [|exact Hs1].
    intros Ho. by apply Hne, HP.
  - unfold pool_size. cbn. apply (f_equal nonce_pool) in He. cbn in He. by rewrite He.
Qed.
End InFlight.

(** ** The tasks *)

(** The most calls of a round, given the number of nonce accounts. *)
Definition round_limit (job : Job) (nonce_accounts : nat) : nat :=
  match job with
  | FetchPublicKey => 1
  | RunTask SweepDeposits => 2 * GET_RECENT_BLOCK_MAX_TRIES + MAX_CONCURRENT_RPC_CALLS * (MAX_DEPOSITS_PER_SWEEP + 1)
  | RunTask TaskMint => MAX_PENDING_MINTS_PER_ROUND
  | RunTask FinalizeTransactions =>
      2 * GET_RECENT_BLOCK_MAX_TRIES + MAX_CONCURRENT_RPC_CALLS + 2 * nonce_accounts + MAX_CONCURRENT_RPC_CALLS
  | RunTask WithdrawalProcessing => MAX_CONCURRENT_RPC_CALLS + 2 * MAX_CONCURRENT_SIGNATURES
  end.

(** The most futures a round joins, and the most calls one of them makes at once. *)
Definition job_width (job : Job) : nat :=
  match job with FetchPublicKey | RunTask TaskMint => 1 | _ => MAX_CONCURRENT_RPC_CALLS end.

Definition future_limit (job : Job) : nat :=
  match job with RunTask SweepDeposits => MAX_DEPOSITS_PER_SWEEP | _ => 1 end.

Definition allowed_call `{SolanaDecoders} (job : Job) (r : Request) : Prop := (concurrent_calls r <= future_limit job)%nat.

Section Tasks.
Context `{Platform} `{SolanaDecoders} (M : nat).

Definition few_in_flight (w : World) : Prop := (length (in_flight_withdrawals (w_state w)) <= M)%nat.

Abbreviation any := (fun _ => True).
Abbreviation acost job x n Q := (async_cost few_in_flight (allowed_call job) x n Q).
Abbreviation tcost job t n Q := (task_cost few_in_flight (job_width job) (allowed_call job) t n Q).

Lemma seq_bind_cost {A B} job (x : Async A) (f : A -> Task B) n m Q :
  acost job x n (fun a => tcost job (f a) m Q) -> tcost job (seq x ≫= f) (n + m) Q.
Proof. intros Hx. by apply task_bind_cost, seq_cost. Qed.

Lemma read_bind_cost {A B} job (f : State -> A) (k : A -> Task B) n Q :
  (forall w, few_in_flight w -> tcost job (k (f (w_state w))) n Q) -> tcost job (seq (read f) ≫= k) n Q.
Proof. intros Hk. apply (seq_bind_cost _ _ _ 0). by apply read_cost. Qed.

Lemma join_bind_cost {A B X} job (f : X -> Async A) items (k : list A -> Task B) c n m Q :
  (length items <= job_width job)%nat -> (length items * c <= n)%nat -> (forall x, x ∈ items -> acost job (f x) c any) ->
  (forall ys, length ys = length items -> tcost job (k ys) m Q) -> tcost job (join_all (map f items) ≫= k) (n + m) Q.
Proof.
  intros Hw Hn Hf Hk. apply task_bind_cost. eapply task_cost_mono; [reflexivity | exact Hk|]. by eapply join_cost.
Qed.

(** Sequential code without calls. *)
Lemma quiet_seq_cost {A} job (x : Async A) n Q : acost job x 0 Q -> tcost job (seq x) n Q.
Proof. intros Hx. eapply task_cost_mono; [| |by apply seq_cost]; [lia | done]. Qed.

(** One call of one future. *)
Lemma one_call_cost {A} job (r : Request) (k : Answer r -> Async A) n Q :
  (total_calls r = 1)%nat -> (1 <= n)%nat -> (1 <= future_limit job)%nat ->
  (concurrent_calls r = 1)%nat -> (forall a, acost job (k a) (n - 1) Q) -> acost job (await r ≫= k) n Q.
Proof. intros Ht Hn Hl Hc Hk. cbn. rewrite Ht. unfold allowed_call. rewrite Hc. by split_and!. Qed.

Lemma recent_block_cost job commitment (Q : result Block GetRecentBlockError -> Prop) :
  (1 <= future_limit job)%nat -> (forall block, Q block) ->
  acost job (get_recent_block_future commitment) (2 * GET_RECENT_BLOCK_MAX_TRIES) Q.
Proof. intros Hl HQ. cbn. split_and!; [exact Hl | lia|]. intros a. apply HQ. Qed.

(** *** The fetch of the public key and the mints *)
Lemma fetch_key_cost deserialize : tcost FetchPublicKey (fetch_and_record_minter_public_key_task deserialize) (round_limit FetchPublicKey M) any.
Proof.
  unfold fetch_and_record_minter_public_key_task. apply read_bind_cost. intros w _. destruct (minter_public_key _); [done|].
  apply scoped_cost, read_bind_cost. intros w' _. apply (seq_bind_cost _ _ _ 1 0). apply (one_call_cost _ _ Return); [done..|].
  intros response. apply (seq_bind_cost _ _ _ 0 0). by intros ????.
Qed.

Lemma mint_future_cost p : acost (RunTask TaskMint) (process_pending_mint_future p) 1 any.
Proof.
  destruct p as [i pending]. unfold process_pending_mint_future. apply (async_bind_cost _ _ _ _ 0 1). intros w now w' [arg|] _ _; [|done].
  cbn. unfold allowed_call. cbn. split_and!; [lia | lia|]. by intros ?????.
Qed.

Lemma mint_task_cost : tcost (RunTask TaskMint) process_pending_mints (round_limit (RunTask TaskMint) M) any.
Proof.
  unfold process_pending_mints. apply read_bind_cost. intros w _. case_bool_decide; [done|].
  rewrite <- (Nat.add_0_r (round_limit _ _)). apply seq_bind_cost. eapply async_cost_mono; [| |apply (for_each_cost _ _ _ _ 1)].
  - rewrite Nat.mul_1_r. cbn [mint_round_next mr_pending_mints round_limit]. rewrite length_take. lia.
  - intros _ _. apply read_bind_cost. intros w' _. destruct (_ && _); [|done]. by apply quiet_seq_cost.
  - intros p _. apply mint_future_cost.
Qed.

(** *** The sweeps *)
Lemma sweep_signers_length `{!UniqueSigners} batch destination sweep block_hash signers :
  plan batch destination = Done sweep -> sweep_signers sweep (sweep_message sweep block_hash) = Done signers ->
  (length signers <= length batch)%nat.
Proof.
  intros (_ & Hd & _)%plan_Done Hs%traverse_Done. rewrite <- (Forall2_length _ _ _ Hs), <- (length_map (fun p => qd_address p.2) batch).
  apply submseteq_length, NoDup_submseteq; [apply signer_keys_unique|].
  intros k (n & Hk)%list_elem_of_lookup. destruct (Forall2_lookup_l _ _ _ _ _ Hs Hk) as (signer & _ & Hsig).
  apply bind_Done in Hsig as (acc & (i & d & Hl & <- & _)%expect_Done%accounts_by_address_lookup & _).
  rewrite Hd in Hl. apply elem_of_list_to_map_2 in Hl. apply list_elem_of_fmap. by exists (i, d).
Qed.

Lemma sweep_future_cost `{!UniqueSigners} block destination batch :
  (length batch <= MAX_DEPOSITS_PER_SWEEP)%nat ->
  acost (RunTask SweepDeposits) (submit_sweep_transaction_future block destination batch) (MAX_DEPOSITS_PER_SWEEP + 1) any.
Proof.
  intros Hlen. unfold submit_sweep_transaction_future. apply (async_bind_cost _ _ _ _ 0 (MAX_DEPOSITS_PER_SWEEP + 1)), lift_cost. intros sweep Hplan.
  apply (async_bind_cost _ _ _ _ MAX_DEPOSITS_PER_SWEEP 1). unfold sign_sweep_transaction_future.
  apply (async_bind_cost _ _ _ _ 0 MAX_DEPOSITS_PER_SWEEP), lift_cost. intros signers Hs.
  pose proof (sweep_signers_length _ _ _ _ _ Hplan Hs) as Hsig.
  assert (forall signed, acost (RunTask SweepDeposits)
    (submitted ← update (fun c now => submit_sweep_signed c sweep block signed now);
     match submitted with
     | Err e => mret (Err e)
     | Ok transaction =>
         sent ← submit_transaction transaction CommitmentConfirmed;
         signature ← lift (expect (head (tx_signatures transaction)) "index out of bounds");
         mret (result_bind (map_err SubmitTransactionFailed sent) (fun _ => Ok signature))
     end) 1 any) as Hsend.
  { intros signed w now w' [tx|e] _ _; [|done]. apply one_call_cost; [done | done | vm_compute; lia | done|]. by intros ??????. }
  destruct (ensure_within_transaction_size _); [|apply Hsend].
  cbn -[submit_transaction update MAX_DEPOSITS_PER_SWEEP]. unfold allowed_call. cbn [concurrent_calls future_limit].
  rewrite length_map. assert (1 <= MAX_DEPOSITS_PER_SWEEP)%nat by (vm_compute; lia). split_and!; [lia | lia|].
  intros sign w now w' signed _ _. eapply async_cost_mono; [| |apply Hsend]; [lia | done].
Qed.

Lemma sweep_task_cost `{!UniqueSigners} : tcost (RunTask SweepDeposits) sweep_queued_deposits (round_limit (RunTask SweepDeposits) M) any.
Proof.
  unfold sweep_queued_deposits. apply read_bind_cost. intros w _. case_bool_decide; [done|].
  apply read_bind_cost. intros w' _. destruct (minter_public_key _) as [key|]; [|done].
  apply seq_bind_cost, recent_block_cost; [vm_compute; lia|]. intros [block|]; [|done].
  apply scoped_cost. rewrite <- (Nat.add_0_r (_ * _)).
  assert (length (sr_batches (take_from_queue (w_state w))) <= MAX_CONCURRENT_RPC_CALLS)%nat as Hlen.
  { apply chunks_length; [vm_compute; lia|]. rewrite length_take. vm_compute (MAX_DEPOSITS_PER_ROUND). vm_compute (MAX_CONCURRENT_RPC_CALLS * _)%nat. lia. }
  eapply (join_bind_cost (RunTask SweepDeposits) _ _ _ (MAX_DEPOSITS_PER_SWEEP + 1)); [exact Hlen | by apply Nat.mul_le_mono_r | | done].
  intros batch Hb. apply sweep_future_cost.
  assert (0 < MAX_DEPOSITS_PER_SWEEP)%nat as Hpos by (vm_compute; lia).
  pose proof (chunks_bounds MAX_DEPOSITS_PER_SWEEP (take MAX_DEPOSITS_PER_ROUND (take (MAX_DEPOSITS_PER_ROUND + 1) (btree_iter (queued (deposits (w_state w)))))) Hpos) as Hc.
  rewrite Forall_forall in Hc. apply Hc in Hb. lia.
Qed.
(** *** The monitor *)

(** Joining the futures of the elements of a chunk, one chunk after the other. *)
Lemma chunks_cost {X Y T} job (f : X -> Async Y) (g : T -> list Y -> T) (inv : nat -> T -> Prop) items acc :
  job_width job = MAX_CONCURRENT_RPC_CALLS -> (forall x, acost job (f x) 1 any) ->
  (forall k acc ys, inv k acc -> inv (k + length ys)%nat (g acc ys)) -> inv 0%nat acc ->
  tcost job (for_fold (fun acc batch => ys ← join_all (map f batch); mret (g acc ys)) acc (chunks MAX_CONCURRENT_RPC_CALLS items))
    (length items) (inv (length items)).
Proof.
  intros Hw Hf Hg Hinv. assert (0 < MAX_CONCURRENT_RPC_CALLS)%nat as Hpos by (vm_compute; lia).
  rewrite <- (chunks_concat MAX_CONCURRENT_RPC_CALLS items Hpos) at 2 3. apply (fold_cost _ _ _ _ _ _ 0%nat); [|done].
  intros k acc' batch Hb Hk. rewrite <- (Nat.add_0_r (length batch)) at 1.
  eapply (join_bind_cost job _ _ _ 1); [|lia | by intros x _ |].
  - rewrite Hw. pose proof (chunks_bounds _ items Hpos) as Hc. rewrite Forall_forall in Hc. apply Hc in Hb. lia.
  - intros ys <-. by apply Hg.
Qed.

Abbreviation Monitoring := (RunTask FinalizeTransactions).

Lemma get_transaction_cost signature : acost Monitoring (get_transaction_future signature) 1 any.
Proof. unfold get_transaction_future. by apply one_call_cost. Qed.

Lemma check_sweeps_cost : tcost Monitoring check_sweep_transactions_task (2 * GET_RECENT_BLOCK_MAX_TRIES + MAX_CONCURRENT_RPC_CALLS) any.
Proof.
  unfold check_sweep_transactions_task. apply read_bind_cost. intros w _. case_bool_decide; [done|]. apply seq_bind_cost.
  rewrite <- (Nat.add_0_r (2 * _)). apply async_bind_cost, recent_block_cost; [done|]. intros block. cbn [async_cost mret async_ret].
  rewrite <- (Nat.add_0_r MAX_CONCURRENT_RPC_CALLS).
  assert (length (status_batches (btree_keys (blockhash_transactions (w_state w)))) <= MAX_CONCURRENT_RPC_CALLS)%nat as Hlen
    by (unfold status_batches; rewrite length_take; lia).
  eapply (join_bind_cost Monitoring _ _ _ 1); [exact Hlen | lia | |].
  - intros batch _. apply one_call_cost; [done..|]. by intros [].
  - intros ys _. by apply quiet_seq_cost.
Qed.

(** At most one of the two steps that follow looks at a withdrawal again. *)
Definition reads_at_most (k : nat) (nonces : InFlightNonces) : Prop := (length (unchanged nonces) + length (advanced nonces) <= k)%nat.

Lemma add_reads_at_most reads : forall k nonces,
  reads_at_most k nonces -> reads_at_most (k + length reads)%nat (fold_left add_nonce_read reads nonces).
Proof.
  unfold reads_at_most. induction reads as [|[w read] reads IH]; intros k nonces Hk; cbn [fold_left length]; [lia|].
  rewrite <- Nat.add_succ_comm. apply IH. unfold add_nonce_read. repeat case_match; cbn; rewrite ?length_app; cbn; lia.
Qed.

Lemma read_nonces_cost : tcost Monitoring read_in_flight_nonces_task M (reads_at_most M).
Proof.
  assert (reads_at_most 0 (mkInFlightNonces [] [] ∅)) as H0' by (cbv; lia).
  unfold read_in_flight_nonces_task. cbv zeta. apply read_bind_cost. intros w _. destruct (minter_public_key _) as [key|]; [|cbv; lia].
  apply read_bind_cost. intros w' Hw'.
  eapply task_cost_mono; [exact Hw' | |apply (chunks_cost _ _ _ reads_at_most); [done | | |exact H0']].
  - unfold reads_at_most, few_in_flight in *. lia.
  - intros x. unfold read_nonce_future. apply (async_bind_cost _ _ _ _ 1 0). apply one_call_cost; [done..|]. by intros ??????.
  - intros k acc ys. apply add_reads_at_most.
Qed.

Lemma resubmit_cost nonces : tcost Monitoring (resubmit_transactions_batch nonces) (length (unchanged nonces)) any.
Proof.
  unfold resubmit_transactions_batch. apply (seq_bind_cost _ _ _ 0). intros w now w' y _ [= _ <-]%Done_inv.
  eapply task_cost_mono; [| |apply (chunks_cost Monitoring _ (fun _ _ => tt) (fun _ _ => True))]; [| done | done | | done | done].
  - apply length_filter.
  - intros x w1 now1 w1' tx _ _. by apply (async_bind_cost _ _ _ _ 1 0), one_call_cost.
Qed.

Lemma finalize_batch_cost nonces : tcost Monitoring (finalize_transactions_batch nonces) (length (advanced nonces)) any.
Proof.
  unfold finalize_transactions_batch. rewrite <- (Nat.add_0_r (length _)). apply task_bind_cost.
  eapply task_cost_mono; [reflexivity | |apply (chunks_cost Monitoring _ (fun l batch => l ++ batch) (fun _ _ => True)); [done | | done | done]].
  - intros l _. by apply quiet_seq_cost.
  - intros x. unfold finalize_landed_withdrawal_future. apply (async_bind_cost _ _ _ _ 1 0).
    eapply async_cost_mono; [reflexivity | |apply get_transaction_cost]. by intros ??????.
Qed.

Lemma credit_cost : tcost Monitoring credit_finalized_sweeps_task MAX_CONCURRENT_RPC_CALLS any.
Proof.
  unfold credit_finalized_sweeps_task. apply read_bind_cost. intros w _. case_bool_decide; [done|].
  assert (length (finalized_round (w_state w)).2 <= MAX_CONCURRENT_RPC_CALLS)%nat as Hlen
    by (unfold finalized_round; cbn [snd]; rewrite length_take; lia).
  rewrite <- (Nat.add_0_r MAX_CONCURRENT_RPC_CALLS). eapply (join_bind_cost Monitoring _ _ _ 1); [exact Hlen | lia | |].
  - intros p _. apply get_transaction_cost.
  - intros ys _. by apply quiet_seq_cost.
Qed.

Lemma finalize_task_cost : tcost Monitoring finalize_transactions (round_limit Monitoring M) any.
Proof.
  unfold finalize_transactions. apply scoped_cost. cbn [round_limit].
  replace (_ + 2 * M + _)%nat with (2 * GET_RECENT_BLOCK_MAX_TRIES + MAX_CONCURRENT_RPC_CALLS + (M + (M + MAX_CONCURRENT_RPC_CALLS)))%nat by lia.
  apply task_bind_cost. eapply task_cost_mono; [reflexivity | |apply check_sweeps_cost]. intros more _.
  apply task_bind_cost. eapply task_cost_mono; [reflexivity | |apply read_nonces_cost]. intros nonces Hn. unfold reads_at_most in Hn.
  apply (task_cost_mono _ _ _ _ (length (unchanged nonces) + (length (advanced nonces) + (MAX_CONCURRENT_RPC_CALLS + 0)))%nat _ any); [lia | done|].
  apply task_bind_cost. eapply task_cost_mono; [reflexivity | |apply resubmit_cost]. intros _ _.
  apply task_bind_cost. eapply task_cost_mono; [reflexivity | |apply finalize_batch_cost]. intros _ _.
  apply task_bind_cost. by eapply task_cost_mono; [reflexivity | |apply credit_cost].
Qed.
(** *** The withdrawals *)
Lemma bound_withdrawals_length s address ws : bound_withdrawals s address = Done ws -> (length ws <= MAX_CONCURRENT_SIGNATURES)%nat.
Proof.
  intros (rs & Hrs%traverse_Done & [= <-]%Done_inv)%bind_Done. apply Forall2_length in Hrs. rewrite length_take in Hrs.
  etransitivity; [apply length_omap_le|]. lia.
Qed.

Abbreviation Withdrawing := (RunTask WithdrawalProcessing).

Lemma create_batch_cost address : tcost Withdrawing (create_transactions_batch address) MAX_CONCURRENT_RPC_CALLS any.
Proof.
  unfold create_transactions_batch. apply read_bind_cost. intros w _. rewrite <- (Nat.add_0_r MAX_CONCURRENT_RPC_CALLS).
  assert (length (reserved_batches (w_state w)) <= MAX_CONCURRENT_RPC_CALLS)%nat as Hlen
    by (unfold reserved_batches, max_batches; rewrite length_map, length_take; lia).
  eapply (join_bind_cost Withdrawing _ _ _ 1); [exact Hlen | lia | | done].
  intros batch _. unfold create_transaction_future. apply (async_bind_cost _ _ _ _ 1 0), one_call_cost; [done..|]. by intros ??????.
Qed.

Lemma sign_batch_cost address :
  tcost Withdrawing (sign_transactions_batch address) MAX_CONCURRENT_SIGNATURES (fun txs => (length txs <= MAX_CONCURRENT_SIGNATURES)%nat).
Proof.
  unfold sign_transactions_batch. apply read_bind_cost. intros w _. apply (seq_bind_cost _ _ _ 0 MAX_CONCURRENT_SIGNATURES), lift_cost.
  intros ws Hws%bound_withdrawals_length. rewrite <- (Nat.add_0_r MAX_CONCURRENT_SIGNATURES) at 1.
  eapply (join_bind_cost Withdrawing _ _ _ 1); [exact Hws | lia | |].
  - intros x _. unfold sign_withdrawal_future, sign_batch_withdrawal_message_future.
    apply (async_bind_cost _ _ _ _ 1 0). destruct (ensure_within_transaction_size _); [|by intros ?????].
    apply one_call_cost; [done..|]. by intros ?????????.
  - intros ys Hys. cbn. etransitivity; [apply length_omap_le|]. lia.
Qed.

Lemma send_batch_cost txs :
  (length txs <= MAX_CONCURRENT_SIGNATURES)%nat -> tcost Withdrawing (send_transactions_batch txs) MAX_CONCURRENT_SIGNATURES any.
Proof.
  intros Hlen. unfold send_transactions_batch. rewrite <- (Nat.add_0_r MAX_CONCURRENT_SIGNATURES).
  eapply (join_bind_cost Withdrawing _ _ _ 1); [exact Hlen | lia | | done]. intros tx _. unfold send_transaction.
  apply (async_bind_cost _ _ _ _ 0 1), lift_cost. intros _ _. by apply (async_bind_cost _ _ _ _ 1 0), one_call_cost.
Qed.

Lemma withdrawals_task_cost : tcost Withdrawing process_pending_withdrawals (round_limit Withdrawing M) any.
Proof.
  unfold process_pending_withdrawals. apply read_bind_cost. intros w _. destruct (minter_public_key _) as [key|]; [|done]. cbv zeta.
  cbn [round_limit].
  replace (2 * MAX_CONCURRENT_SIGNATURES)%nat with (MAX_CONCURRENT_SIGNATURES + (MAX_CONCURRENT_SIGNATURES + 0))%nat by lia.
  apply task_bind_cost. eapply task_cost_mono; [reflexivity | |apply create_batch_cost]. intros created _.
  apply task_bind_cost. eapply task_cost_mono; [reflexivity | |apply sign_batch_cost]. intros txs Htxs.
  apply task_bind_cost. eapply task_cost_mono; [reflexivity | |by apply send_batch_cost]. intros _ _.
  apply read_bind_cost. intros w' _. destruct (reschedules_withdrawals _ _ _); [|done]. by apply quiet_seq_cost.
Qed.

Lemma job_task_cost `{!UniqueSigners} deserialize job : tcost job (job_task deserialize job) (round_limit job M) any.
Proof.
  destruct job as [|[]]; cbn [job_task].
  - apply fetch_key_cost.
  - apply sweep_task_cost.
  - apply mint_task_cost.
  - apply finalize_task_cost.
  - apply withdrawals_task_cost.
Qed.
End Tasks.

(** ** The rounds of the canister *)
Section Rounds.
Context `{Platform} `{SolanaDecoders} `{!UniqueSigners} (deserialize_raw : bytes -> option PublicKey).

Abbreviation pool y := (pool_size (mc_config y).1).
Abbreviation within M job t n := (task_cost (few_in_flight M) (job_width job) (allowed_call job) t n (fun _ => True)).

Lemma moves_pool_size job w w' : job_moves job w w' -> pool_size (w_state w') = pool_size (w_state w).
Proof. intros [Hc _]. eapply calm_pool_size; [|exact Hc]. cbn. intros ev ->. by destruct job. Qed.

(** All worlds a message of a round passes through. *)
Lemma message_fine job w w' :
  minter_run (w_config w) -> sized (w_config w').2 ->
  fine_between (few_in_flight (pool_size (w_state w))) (owned (job_owner job)) w w'.
Proof.
  intros Hrun Hsz w1 G1%grows_moves G2%grows_moves. pose proof (moves_run _ _ _ Hrun G1) as Hrun1. unfold few_in_flight.
  rewrite <- (moves_pool_size _ _ _ G1). destruct G2 as [Hc _]. apply (calm_sized _ _ _ Hc) in Hsz.
  destruct w1 as [[[s1 log1] m1] timers1]. by apply (in_flight_bounded s1 log1).
Qed.

Lemma suspend_Some job w t w' t' : suspend job w t = (w', Some t') -> w' = w /\ t' = t.
Proof. destruct t; cbn; by intros [= <- <-]. Qed.

Lemma start_cost job w now w' t :
  minter_run (w_config w) -> start_job deserialize_raw job w now = (w', Some t) -> sized (w_config w').2 ->
  within (pool_size (w_state w)) job t (round_limit job (pool_size (w_state w))).
Proof.
  intros Hrun Hs Hsz. unfold start_job in Hs. destruct (acquire job w) as [w1|] eqn:Ha; [|done].
  destruct (acquire_Some _ _ _ Hrun Ha) as [Hm _]. pose proof (moves_run _ _ _ Hrun Hm) as Hrun1.
  destruct (run_task _ w1 now) as [[w2 t2]|] eqn:Ht; [|done]. apply suspend_Some in Hs as [-> ->].
  eapply run_task_cost; [apply job_task_good | by apply job_task_cost | exact Ht|].
  rewrite <- (moves_pool_size _ _ _ Hm). by apply message_fine.
Qed.

Lemma resume_cost job t answers i w now w' rest n :
  minter_run (w_config w) -> task_good (owned (job_owner job)) (drops_safely job) t ->
  within (pool_size (w_state w)) job t n -> resume_job job t answers i w now = Some (w', rest) -> sized (w_config w').2 ->
  (calls_at i t <= n)%nat /\
  match rest with Some t' => within (pool_size (w_state w)) job t' (n - calls_at i t) | None => True end.
Proof.
  intros Hrun Hgood Hc (t1 & Hd & Hr)%bind_Some Hsz. injection Hr as Hr.
  destruct (deliver_cost _ _ _ _ _ _ _ _ _ Hc Hd) as [Hle Hc1]. split; [done|]. destruct rest as [t'|]; [|done].
  destruct (run_task t1 w now) as [[w2 t2]|] eqn:Ht; [|done]. apply suspend_Some in Hr as [-> ->].
  eapply run_task_cost; [by eapply deliver_good | exact Hc1 | exact Ht | by apply message_fine].
Qed.

Lemma step_sized l y y' : machine_inv y -> machine_step deserialize_raw l y y' -> sized (mc_config y').2 -> sized (mc_config y).2.
Proof.
  intros Hinv Hstep Hsz. pose proof (step_refines _ _ _ _ Hinv Hstep) as [k E]%steps_log; [|exact (mv_run _ Hinv)].
  rewrite E in Hsz. by apply sized_app in Hsz.
Qed.

(** A message of another round leaves a round and the pool alone, unless it is an upgrade. *)
Lemma other_step_keeps r l y y' :
  machine_inv y -> r ∈ mc_rounds y -> l <> Some (rd_id r) -> machine_step deserialize_raw l y y' ->
  (r ∈ mc_rounds y' /\ pool y' = pool y) \/ mc_rounds y' = [].
Proof.
  intros Hinv Hr Hl Hstep. pose proof (mv_run _ Hinv) as Hrun. pose proof (mv_good _ Hinv) as Hgood. destruct Hstep as
    [c pre tm post rounds next before now due w rest Hnow Hdue Hp Hs | w pre r0 post next before now answers i w' rest Hnow Hs
    | w pre r0 post next before now Hnow | c timers rounds next before now c' Hnow Hs | s log m timers rounds next before now args c' ins Hnow Hs];
    cbn [mc_rounds mc_config mc_world] in *; [| | | | by right]; left.
  - split; [apply elem_of_app; by left|]. apply start_job_spec in Hs as [Hm _]; [|exact Hrun]. exact (moves_pool_size _ _ _ Hm).
  - apply Forall_app in Hgood as [_ [Hg _]%Forall_cons]. apply resume_job_spec in Hs as [Hm _]; [|done|done].
    split; [|exact (moves_pool_size _ _ _ Hm)]. rewrite !elem_of_app, elem_of_cons in *. destruct Hr as [?|[->|?]]; [by left | done | by right; right].
  - apply Forall_app in Hgood as [_ [Hg _]%Forall_cons]. destruct (abort_job_spec _ _ _ now Hrun Hg) as [Hm _].
    split; [|exact (moves_pool_size _ _ _ Hm)]. rewrite elem_of_app, elem_of_cons in *. destruct Hr as [?|[->|?]]; [by left | done | by right].
  - split; [done|]. apply endpoint_quiet in Hs; [|exact Hrun].
    apply (quiet_calm _ (fun ev => event_owner ev = OwnerLifecycle)) in Hs; [|by unfold owned; intros ev -> ?].
    by eapply calm_pool_size in Hs.
Qed.

Lemma other_round_ids y pre r0 post r :
  machine_inv y -> mc_rounds y = pre ++ r0 :: post -> r ∈ pre ++ post -> r ∈ mc_rounds y /\ Some (rd_id r0) <> Some (rd_id r).
Proof.
  intros Hinv E Hin. pose proof (mv_ids _ Hinv) as Hnd. rewrite E in *. split; [rewrite elem_of_app, elem_of_cons in *; tauto|].
  intros [= Hid]. rewrite map_app, map_cons in Hnd. apply NoDup_app in Hnd as (_ & Hd & [Hn _]%NoDup_cons).
  rewrite Hid in *. apply elem_of_app in Hin as [Hin|Hin]; [|by apply Hn, (list_elem_of_fmap_2 rd_id)].
  apply (Hd (rd_id r)); [by apply (list_elem_of_fmap_2 rd_id) | left].
Qed.

(** Every waiting round is within its limits. *)
Lemma rounds_within y :
  machine_run deserialize_raw y -> sized (mc_config y).2 ->
  forall r, r ∈ mc_rounds y -> within (pool y) (rd_job r) (rd_rest r) (round_limit (rd_job r) (pool y)).
Proof.
  induction 1 as [args now c Hinit | l y y' Hrun IH Hstep]; intros Hsz r Hr; [by apply not_elem_of_nil in Hr|].
  pose proof (machine_run_inv _ _ Hrun) as Hinv. specialize (IH (step_sized _ _ _ Hinv Hstep Hsz)).
  assert (forall r0, r0 ∈ mc_rounds y -> l <> Some (rd_id r0) -> within (pool y') (rd_job r0) (rd_rest r0) (round_limit (rd_job r0) (pool y'))) as Hkept.
  { intros r0 H0' Hl. destruct (other_step_keeps _ _ _ _ Hinv H0' Hl Hstep) as [[_ ->]|E]; [by apply IH | by rewrite E in Hr; apply not_elem_of_nil in Hr]. }
  pose proof (mv_run _ Hinv) as Hmr. pose proof (mv_good _ Hinv) as Hgood. destruct Hstep as
    [c pre tm post rounds next before now due w rest Hnow Hdue Hp Hs | w pre r0 post next before now answers i w' rest Hnow Hs
    | w pre r0 post next before now Hnow | c timers rounds next before now c' Hnow Hs | s log m timers rounds next before now args c' ins Hnow Hs];
    cbn [mc_rounds mc_config mc_world] in *; [| | | by apply Hkept | by apply not_elem_of_nil in Hr].
  - apply elem_of_app in Hr as [Hr|Hr]; [by apply Hkept|]. destruct rest as [t|]; [|by apply not_elem_of_nil in Hr].
    apply list_elem_of_singleton in Hr as ->. cbn [rd_job rd_rest]. pose proof Hs as Hm. apply start_job_spec in Hm as [Hm _]; [|exact Hmr].
    change (within (pool_size (w_state w)) (tm_job tm) t (round_limit (tm_job tm) (pool_size (w_state w)))).
    rewrite (moves_pool_size _ _ _ Hm). by eapply start_cost.
  - assert (r ∈ waiting (rd_id r0) (rd_job r0) rest \/ r ∈ pre ++ post) as [Hw|Hin] by (rewrite !elem_of_app in *; tauto).
    + destruct rest as [t|]; [|by apply not_elem_of_nil in Hw]. apply list_elem_of_singleton in Hw as ->. cbn [rd_job rd_rest].
      apply Forall_app in Hgood as [_ [Hg _]%Forall_cons]. pose proof Hs as Hm. apply resume_job_spec in Hm as [Hm _]; [|done|done].
      change (within (pool_size (w_state w')) (rd_job r0) t (round_limit (rd_job r0) (pool_size (w_state w')))).
      rewrite (moves_pool_size _ _ _ Hm).
      eapply resume_cost in Hs as [_ Hc]; [|done|done| |done]; [|apply (IH r0); rewrite elem_of_app, elem_of_cons; by right; left].
      eapply task_cost_mono; [| |exact Hc]; [apply Nat.le_sub_l | done].
    + destruct (other_round_ids _ pre r0 post r Hinv eq_refl Hin). by apply Hkept.
  - destruct (other_round_ids _ pre r0 post r Hinv eq_refl Hr). by apply Hkept.
Qed.
(** *** The calls of a round over time

    [y'] follows [y], and in between requests of the round [id] were answered
    that make [k] calls. *)
Inductive history (id : nat) (y : Machine) : nat -> Machine -> Prop :=
  | history_none : history id y 0 y
  | history_answer k w pre r post next before now answers i w' rest :
      history id y k (mkMachine w (pre ++ r :: post) next before) -> rd_id r = id -> before <= now ->
      resume_job (rd_job r) (rd_rest r) answers i w now = Some (w', rest) ->
      history id y (k + calls_at i (rd_rest r)) (mkMachine w' (pre ++ waiting (rd_id r) (rd_job r) rest ++ post) next now)
  | history_trap k w pre r post next before now :
      history id y k (mkMachine w (pre ++ r :: post) next before) -> rd_id r = id -> before <= now ->
      history id y k (mkMachine (abort_job (rd_job r) (rd_rest r) w now) (pre ++ post) next now)
  | history_other k y1 y2 : history id y k y1 -> other_step deserialize_raw id y1 y2 -> history id y k y2.

(** The calls of the requests the round waits for. *)
Definition calls_waited_for (id : nat) (y : Machine) : nat :=
  sum_list_with (fun r => if decide (rd_id r = id) then sum_list_with total_calls (outstanding (rd_rest r)) else 0%nat) (mc_rounds y).

Lemma history_run id y k y' : machine_run deserialize_raw y -> history id y k y' -> machine_run deserialize_raw y'.
Proof.
  intros Hrun. induction 1 as [| k w pre r post next before now answers i w' rest _ IH Hid Hnow Hs | k w pre r post next before now _ IH Hid Hnow
    | k y1 y2 _ IH (l & _ & Hstep)]; [done | | | by eapply machine_message]; (eapply machine_message; [exact IH|]);
    [by eapply step_answer | by eapply step_trap].
Qed.

(** The budget of a round that waits, or that it kept to. *)
Definition on_budget (M limit : nat) (r : Round) (k : nat) (y : Machine) : Prop :=
  (exists r' m, r' ∈ mc_rounds y /\ rd_id r' = rd_id r /\ rd_job r' = rd_job r /\
    within M (rd_job r) (rd_rest r') m /\ (k + m <= limit)%nat /\ pool y = M) \/
  (~ waits (rd_id r) y /\ (rd_id r < mc_next_id y)%nat /\ (k <= limit)%nat).

Lemma middle_gone y pre r post : machine_inv y -> mc_rounds y = pre ++ r :: post -> rd_id r ∉ map rd_id (pre ++ post).
Proof.
  intros Hinv E Hin. apply list_elem_of_fmap in Hin as (r' & Hid & Hr').
  destruct (other_round_ids y pre r post r' Hinv E Hr') as [_ Hne]. congruence.
Qed.

(** The round in the middle is the one the budget is about. *)
Lemma middle_round y pre r0 post r' :
  machine_inv y -> mc_rounds y = pre ++ r0 :: post -> r' ∈ mc_rounds y -> rd_id r' = rd_id r0 -> r' = r0.
Proof.
  intros Hinv E Hr' Hid. pose proof (middle_gone _ _ _ _ Hinv E) as Hn. rewrite E, elem_of_app, elem_of_cons in Hr'.
  destruct Hr' as [?|[?|?]]; [|done|]; exfalso; apply Hn; rewrite <- Hid; apply (list_elem_of_fmap_2 rd_id), elem_of_app; auto.
Qed.

Lemma gone_on_budget M limit r k w pre r0 post next before now w' :
  machine_inv (mkMachine w (pre ++ r0 :: post) next before) -> rd_id r0 = rd_id r -> (k <= limit)%nat ->
  on_budget M limit r k (mkMachine w' (pre ++ post) next now).
Proof.
  intros Hinv Hid Hk. right. pose proof (middle_gone _ pre r0 post Hinv eq_refl) as Hn. rewrite Hid in Hn. split_and!; [exact Hn | | done].
  pose proof (mv_next _ Hinv) as Hx. cbn in Hx. apply Forall_app in Hx as [_ [Hlt _]%Forall_cons]. cbn in *. lia.
Qed.

Lemma on_budget_le M limit r k y : on_budget M limit r k y -> (k <= limit)%nat.
Proof. intros [(r' & m & _ & _ & _ & _ & Hk & _)|(_ & _ & Hk)]; lia. Qed.

Lemma answer_on_budget M limit r k w pre r0 post next before now answers i w' rest :
  machine_inv (mkMachine w (pre ++ r0 :: post) next before) -> rd_id r0 = rd_id r ->
  resume_job (rd_job r0) (rd_rest r0) answers i w now = Some (w', rest) -> sized (w_config w').2 ->
  on_budget M limit r k (mkMachine w (pre ++ r0 :: post) next before) ->
  on_budget M limit r (k + calls_at i (rd_rest r0)) (mkMachine w' (pre ++ waiting (rd_id r0) (rd_job r0) rest ++ post) next now).
Proof.
  intros Hinv Hid Hs Hsz [(r' & m & Hr' & Hid' & Hj' & Hc & Hk & HM)|(Hn & _)].
  2: { exfalso. apply Hn. unfold waits. cbn. rewrite <- Hid. apply (list_elem_of_fmap_2 rd_id), elem_of_app. right. left. }
  assert (r' = r0) as -> by (eapply (middle_round _ pre r0 post); [exact Hinv | done | exact Hr' | congruence]).
  pose proof (mv_run _ Hinv) as Hrun. pose proof (mv_good _ Hinv) as Hgood. cbn [mc_rounds] in *.
  apply Forall_app in Hgood as [_ [Hg _]%Forall_cons]. change (pool_size (w_state w) = M) in HM. rewrite <- HM, <- Hj' in Hc.
  destruct (resume_cost _ _ _ _ _ _ _ _ _ Hrun Hg Hc Hs Hsz) as [Hle Hrest].
  apply resume_job_spec in Hs as [Hm _]; [|exact Hrun|exact Hg]. apply moves_pool_size in Hm. destruct rest as [t|].
  - left. exists (mkRound (rd_id r0) (rd_job r0) t), (m - calls_at i (rd_rest r0))%nat. cbn [mc_rounds rd_id rd_job rd_rest].
    split_and!; [rewrite !elem_of_app; right; left; left | done | done | by rewrite <- HM, <- Hj' | lia | by rewrite <- HM].
  - eapply gone_on_budget; [exact Hinv | done | lia].
Qed.

Lemma other_on_budget M limit r k l y y' :
  machine_inv y -> l <> Some (rd_id r) -> machine_step deserialize_raw l y y' -> (rd_id r < mc_next_id y)%nat ->
  on_budget M limit r k y -> on_budget M limit r k y'.
Proof.
  intros Hinv Hl Hstep Hnext Hb. pose proof (on_budget_le _ _ _ _ _ Hb) as Hk.
  assert ((rd_id r < mc_next_id y')%nat) as Hnext' by (destruct Hstep; cbn in *; lia).
  destruct Hb as [(r' & m & Hr' & Hid & Hj & Hc & Hkm & HM)|(Hn & _)].
  - rewrite <- Hid in Hl. destruct (other_step_keeps _ _ _ _ Hinv Hr' Hl Hstep) as [[Hr1 HM1]|E].
    + left. exists r', m. split_and!; [done.. | congruence].
    + right. split_and!; [|done|done]. unfold waits. rewrite E. apply not_elem_of_nil.
  - right. destruct (gone_step _ _ _ _ _ Hstep Hnext Hn). by split_and!.
Qed.

Lemma history_on_budget r y k y' :
  machine_run deserialize_raw y -> r ∈ mc_rounds y -> history (rd_id r) y k y' -> sized (mc_config y').2 ->
  on_budget (pool y) (round_limit (rd_job r) (pool y)) r k y' /\ (rd_id r < mc_next_id y')%nat.
Proof.
  intros Hrun Hr. pose proof (machine_run_inv _ _ Hrun) as Hinv0.
  induction 1 as [| k w pre r0 post next before now answers i w' rest Hh IH Hid Hnow Hs | k w pre r0 post next before now Hh IH Hid Hnow
    | k y1 y2 Hh IH (l & Hl & Hstep)]; intros Hsz.
  - pose proof (mv_next _ Hinv0) as Hx. rewrite Forall_forall in Hx. split; [|by apply Hx]. left.
    exists r, (round_limit (rd_job r) (pool y)). split_and!; [done.. | by apply rounds_within | lia | done].
  - pose proof (machine_run_inv _ _ (history_run _ _ _ _ Hrun Hh)) as Hinv.
    assert (machine_step deserialize_raw (Some (rd_id r0)) (mkMachine w (pre ++ r0 :: post) next before)
      (mkMachine w' (pre ++ waiting (rd_id r0) (rd_job r0) rest ++ post) next now)) as Hstep by (by eapply step_answer).
    destruct (IH (step_sized _ _ _ Hinv Hstep Hsz)) as [Hb Hnext]. split; [|done]. by eapply answer_on_budget.
  - pose proof (machine_run_inv _ _ (history_run _ _ _ _ Hrun Hh)) as Hinv.
    assert (machine_step deserialize_raw (Some (rd_id r0)) (mkMachine w (pre ++ r0 :: post) next before)
      (mkMachine (abort_job (rd_job r0) (rd_rest r0) w now) (pre ++ post) next now)) as Hstep by (by eapply step_trap).
    destruct (IH (step_sized _ _ _ Hinv Hstep Hsz)) as [Hb Hnext]. split; [|done].
    eapply gone_on_budget; [exact Hinv | done | by eapply on_budget_le].
  - pose proof (machine_run_inv _ _ (history_run _ _ _ _ Hrun Hh)) as Hinv.
    destruct (IH (step_sized _ _ _ Hinv Hstep Hsz)) as [Hb Hnext]. split; [by eapply other_on_budget|].
    destruct Hstep; cbn in *; lia.
Qed.

(** What is waited for is part of the budget. *)
Lemma not_waited_for id l :
  id ∉ map rd_id l ->
  sum_list_with (fun r => if decide (rd_id r = id) then sum_list_with total_calls (outstanding (rd_rest r)) else 0%nat) l = 0%nat.
Proof.
  induction l as [|r l IH]; [done|]. rewrite map_cons, not_elem_of_cons. intros [Hne Hl]. cbn.
  rewrite decide_False by congruence. by apply IH.
Qed.

Lemma job_width_pos job : (0 < job_width job)%nat.
Proof. destruct job as [|[]]; vm_compute; lia. Qed.

Lemma on_budget_calls M limit r k y : machine_inv y -> on_budget M limit r k y -> (k + calls_waited_for (rd_id r) y <= limit)%nat.
Proof.
  intros Hinv [(r' & m & Hr' & Hid & Hj & Hc & Hk & _)|(Hn & _ & Hk)]; unfold calls_waited_for; [|rewrite not_waited_for by done; lia].
  apply outstanding_cost in Hc as (_ & _ & Hc); [|apply job_width_pos].
  apply list_elem_of_split in Hr' as (pre & post & E). pose proof (middle_gone _ _ _ _ Hinv E) as Hn.
  rewrite Hid, map_app, not_elem_of_app in Hn. destruct Hn as [H1' H2']. rewrite E, sum_list_with_app. cbn.
  rewrite !not_waited_for, decide_True by done. lia.
Qed.

(** Every answer is of a call. *)
Lemma deliver_calls {A} answers i (t : Task A) t' : deliver answers i t = Some t' -> (0 < calls_at i t)%nat.
Proof.
  assert (forall r : Request, (0 < total_calls r)%nat) as Hpos by (intros []; cbn; lia).
  destruct t as [a | B g x k | B g xs k]; cbn [deliver calls_at]; [done| |].
  - intros (x' & Hx' & _)%bind_Some. destruct x; [done|done|]. unfold pending_calls. cbn. specialize (Hpos r). lia.
  - intros (x & -> & (x' & Hx' & _)%bind_Some)%bind_Some. destruct x; [done|done|]. unfold pending_calls. cbn. specialize (Hpos r). lia.
Qed.
End Rounds.

(** ** Properties *)

(** C7: every round ends. A round that waits has a call outstanding, whose
    answer, whatever it is and whatever happened in the meantime, lets it go
    on; every answer is that of at least one call; and whatever happens from
    then on (answers in any order, other rounds, endpoints, traps, upgrades),
    the calls answered to the round and those it still waits for are at most
    [round_limit]: one for the fetch of the key, 116 for a sweep, ten mints,
    30 for the withdrawals, and for the monitor 26 and two per nonce account.
    So no task retries or loops without bound, and none polls within a round. *)
Theorem rounds_end `{!Platform, !SolanaDecoders, !UniqueSigners} deserialize_raw y r :
  machine_run deserialize_raw y -> r ∈ mc_rounds y ->
  (exists i, forall answers w now, is_Some (resume_job (rd_job r) (rd_rest r) answers i w now)) /\
  (forall i answers w now result, resume_job (rd_job r) (rd_rest r) answers i w now = Some result -> (0 < calls_at i (rd_rest r))%nat) /\
  forall k y', history deserialize_raw (rd_id r) y k y' -> sized (mc_config y').2 ->
    (k + calls_waited_for (rd_id r) y' <= round_limit (rd_job r) (pool_size (mc_config y).1))%nat.
Proof.
  intros Hrun Hr. split_and!.
  - assert (Forall (fun r => (unfinished (rd_rest r) -> can_be_answered (rd_rest r)) /\ unfinished (rd_rest r)) (mc_rounds y)) as Hall.
    { eapply (rounds_satisfy deserialize_raw (fun _ t => unfinished t -> can_be_answered t)); [| |exact Hrun].
      - intros job w now w' t Ht%run_task_waits Hu. by destruct t.
      - intros job answers i t t1 w now w' t' _ _ Ht%run_task_waits Hu. by destruct t'. }
    rewrite Forall_forall in Hall. destruct (Hall r Hr) as [Hcan Hu]. destruct (Hcan Hu) as [i Hi].
    exists i. intros answers w now. unfold resume_job. destruct (Hi answers) as [t1 ->]. by eexists.
  - intros i answers w now result (t1 & Hd & _)%bind_Some. by eapply deliver_calls.
  - intros k y' Hh Hsz. destruct (history_on_budget _ _ _ _ _ Hrun Hr Hh Hsz) as [Hb _].
    eapply on_budget_calls; [|exact Hb]. eapply machine_run_inv, history_run; [exact Hrun | exact Hh].
Qed.

(** The sweep of the example, served with honest answers: its calls. *)
Section Served.
Context (id : nat).

Definition first_round (y : Machine) : Round := default (mkRound 0 FetchPublicKey (TReturn tt)) (head (mc_rounds y)).

Definition answerable (y : Machine) : bool :=
  (0 <? length (mc_rounds y))%nat && (rd_id (first_round y) =? id)%nat &&
  match resume_job (rd_job (first_round y)) (rd_rest (first_round y)) (honest_answers (mc_config y).1) 0 (mc_world y) (mc_now y) with
  | Some _ => true
  | None => false
  end.

Fixpoint served_calls (fuel : nat) (y : Machine) : option nat :=
  match fuel, mc_rounds y with
  | S fuel, _ :: _ =>
      if answerable y then
        n ← served_calls fuel (answer 0 (honest_answers (mc_config y).1) 0 (mc_now y) y);
        Some (calls_at 0 (rd_rest (first_round y)) + n)%nat
      else None
  | _, _ => Some 0%nat
  end.

Lemma answerable_history y0 k y :
  history example_deserialize id y0 k y -> answerable y = true ->
  history example_deserialize id y0 (k + calls_at 0 (rd_rest (first_round y))) (answer 0 (honest_answers (mc_config y).1) 0 (mc_now y) y).
Proof.
  intros Hh Ha. unfold answerable, first_round in *. destruct y as [w [|r post] next now]; [done|]. cbn [head mc_rounds default mc_world mc_now] in *.
  apply andb_prop in Ha as [[_ Hid%Nat.eqb_eq]%andb_prop Hs]. unfold answer. cbn [mc_rounds mc_world mc_now mc_next_id lookup list_lookup].
  destruct (resume_job _ _ _ _ _ _) as [[w' rest]|] eqn:E; [|done]. rewrite Z.leb_refl.
  apply (history_answer _ _ _ _ w [] r post next now now (honest_answers (mc_config (mkMachine w (r :: post) next now)).1) 0); [exact Hh | exact Hid | lia | exact E].
Qed.

Lemma served_history fuel : forall y0 k y n,
  history example_deserialize id y0 k y -> served_calls fuel y = Some n -> history example_deserialize id y0 (k + n) (serve fuel y).
Proof.
  induction fuel as [|fuel IH]; intros y0 k y n Hh Hn; cbn in *; [injection Hn as <-; by rewrite Nat.add_0_r|].
  destruct (mc_rounds y) as [|r rounds] eqn:E; [injection Hn as <-; by rewrite Nat.add_0_r|].
  destruct (answerable y) eqn:Ha; [|done]. apply bind_Some in Hn as (n' & Hn & [= <-]). rewrite Nat.add_assoc.
  by apply IH; [apply answerable_history|].
Qed.
End Served.

Lemma machine_swept_sized : sized (mc_config machine_swept).2.
Proof. split; [vm_compute; discriminate|]. apply (bool_decide_unpack _). vm_compute. exact I. Qed.

(** The waiting sweep goes on for eight calls, within its limit, and ends. *)
Lemma rounds_end_witness :
  history example_deserialize (rd_id sweeping_round) machine_sweeping 8 machine_swept /\ mc_rounds machine_swept = [] /\
  round_limit (rd_job sweeping_round) (pool_size (mc_config machine_sweeping).1) = 116%nat /\
  (8 + calls_waited_for (rd_id sweeping_round) machine_swept <=
    round_limit (rd_job sweeping_round) (pool_size (mc_config machine_sweeping).1))%nat.
Proof.
  assert (history example_deserialize (rd_id sweeping_round) machine_sweeping 8 machine_swept) as Hh.
  { apply (served_history _ 5 machine_sweeping 0 machine_sweeping 8); [constructor | vm_compute; reflexivity]. }
  split_and!; [exact Hh | vm_compute; reflexivity | vm_compute; reflexivity|].
  exact (proj2 (proj2 (rounds_end example_deserialize machine_sweeping sweeping_round machine_sweeping_run sweeping_round_waits))
    8%nat machine_swept Hh machine_swept_sized).
Defined.

(** ** The calls made at the same time *)

(** The calls a round may have outstanding. *)
Definition call_limit (job : Job) : nat :=
  match job with
  | RunTask SweepDeposits => MAX_DEPOSITS_PER_ROUND
  | FetchPublicKey | RunTask TaskMint => 1
  | RunTask FinalizeTransactions | RunTask WithdrawalProcessing => MAX_CONCURRENT_RPC_CALLS
  end.

(** The calls the rounds of tasks have outstanding. *)
Definition task_calls `{SolanaDecoders} (rounds : list Round) : nat :=
  sum_list_with (fun r =>
    match rd_job r with RunTask _ => sum_list_with concurrent_calls (outstanding (rd_rest r)) | FetchPublicKey => 0%nat end) rounds.

Section Limits.
Context `{SolanaDecoders}.

Lemma sum_bound {A} (f : A -> nat) c l : Forall (fun x => (f x <= c)%nat) l -> (sum_list_with f l <= length l * c)%nat.
Proof. induction 1; cbn; lia. Qed.

Lemma sum_submseteq {A} (f : A -> nat) l k : l ⊆+ k -> (sum_list_with f l <= sum_list_with f k)%nat.
Proof. induction 1; cbn; lia. Qed.

Lemma task_calls_limit rounds :
  Forall (fun r => (sum_list_with concurrent_calls (outstanding (rd_rest r)) <= call_limit (rd_job r))%nat) rounds ->
  (task_calls rounds <= sum_list_with (fun task => call_limit (RunTask task)) (round_tasks rounds))%nat.
Proof.
  induction 1 as [|r rounds Hr _ IH]; [done|]. unfold task_calls, round_tasks in *.
  cbn -[call_limit]. destruct (rd_job r); cbn -[call_limit]; lia.
Qed.

Lemma all_tasks (l : list TaskType) : NoDup l -> l ⊆+ [SweepDeposits; TaskMint; FinalizeTransactions; WithdrawalProcessing].
Proof. intros Hnd. apply NoDup_submseteq; [done|]. intros []; rewrite !elem_of_cons; tauto. Qed.
End Limits.

(** C17: the rounds of timer tasks limit the calls they make at the same time,
    every signature of a transaction counted. Whatever happened before, a round
    that waits has at most [MAX_CONCURRENT_RPC_CALLS] calls to the SOL RPC
    canister outstanding, and at most [call_limit] calls in all: one mint, ten
    calls of the monitor or of the withdrawals, and a hundred signatures of a
    sweep; a round of any task but the sweep waits for at most
    [MAX_CONCURRENT_SIGNATURES] signatures; and the rounds of all tasks
    together have at most 121 calls outstanding. *)
Theorem outstanding_calls_bounded `{!Platform, !SolanaDecoders, !UniqueSigners} deserialize_raw y :
  machine_run deserialize_raw y -> sized (mc_config y).2 ->
  (forall r, r ∈ mc_rounds y ->
    (sum_list_with rpc_calls (outstanding (rd_rest r)) <= MAX_CONCURRENT_RPC_CALLS)%nat /\
    (sum_list_with concurrent_calls (outstanding (rd_rest r)) <= call_limit (rd_job r))%nat /\
    (rd_job r <> RunTask SweepDeposits ->
      (sum_list_with signature_calls (outstanding (rd_rest r)) <= MAX_CONCURRENT_SIGNATURES)%nat)) /\
  (task_calls (mc_rounds y) <= MAX_DEPOSITS_PER_ROUND + 2 * MAX_CONCURRENT_RPC_CALLS + 1)%nat.
Proof.
  intros Hrun Hsz.
  assert (forall r, r ∈ mc_rounds y -> (length (outstanding (rd_rest r)) <= job_width (rd_job r))%nat /\
    Forall (allowed_call (rd_job r)) (outstanding (rd_rest r))) as Hout.
  { intros r Hr%(rounds_within deserialize_raw y Hrun Hsz). by apply outstanding_cost in Hr as (? & ? & _); [|apply job_width_pos]. }
  assert (forall r, r ∈ mc_rounds y -> (sum_list_with concurrent_calls (outstanding (rd_rest r)) <= call_limit (rd_job r))%nat) as Hcalls.
  { intros r Hr. destruct (Hout r Hr) as [Hlen HF%sum_bound]. etransitivity; [exact HF|].
    etransitivity; [apply Nat.mul_le_mono_r, Hlen|]. by destruct (rd_job r) as [|[]]; vm_compute; lia. }
  split.
  - intros r Hr. destruct (Hout r Hr) as [Hlen HF]. specialize (Hcalls r Hr). split_and!; [|done|].
    + etransitivity; [apply (sum_bound _ 1), Forall_true; intros []; cbn; lia|]. rewrite Nat.mul_1_r. etransitivity; [exact Hlen|].
      destruct (rd_job r) as [|[]]; vm_compute; lia.
    + intros Hj. transitivity (length (outstanding (rd_rest r)) * 1)%nat.
      * apply sum_bound. eapply Forall_impl; [exact HF|]. intros q Hq. unfold allowed_call in Hq.
        assert (future_limit (rd_job r) = 1%nat) as Ef by (by destruct (rd_job r) as [|[]]). rewrite Ef in Hq. destruct q; cbn in *; lia.
      * rewrite Nat.mul_1_r. etransitivity; [exact Hlen|]. destruct (rd_job r) as [|[]]; vm_compute; lia.
  - etransitivity; [apply task_calls_limit, Forall_forall, Hcalls|].
    etransitivity; [apply sum_submseteq, all_tasks; exact (mv_tasks _ (machine_run_inv _ _ Hrun))|]. vm_compute. lia.
Qed.

Lemma machine_sweeping_sized : sized (mc_config machine_sweeping).2.
Proof. split; [vm_compute; discriminate|]. apply (bool_decide_unpack _). vm_compute. exact I. Qed.

(** The sweep of the example waits for one call. *)
Lemma outstanding_calls_bounded_witness :
  task_calls (mc_rounds machine_sweeping) = 1%nat /\ (task_calls (mc_rounds machine_sweeping) <= 121)%nat.
Proof.
  split; [vm_compute; reflexivity|].
  exact (proj2 (outstanding_calls_bounded example_deserialize machine_sweeping machine_sweeping_run machine_sweeping_sized)).
Defined.

(** A sweep of a full round of queued deposits reaches its limit: it waits for
    the signatures of all of them at once, ten times [MAX_CONCURRENT_SIGNATURES]. *)
Definition full_queue_log : list Event :=
  mkEvent 1 (Init example_init) :: map (mkEvent 2) (MinterPublicKeyFetched 5 [] ::
    map (fun i => let account := mkAccount [Z.of_nat i] [] in
      QueuedDepositEvent (Z.of_nat i) account (account_address example_key account)
        (default (mkDepositBalance RENT_EXEMPTION_THRESHOLD eq_refl) (DepositBalance_new 5000000)) None) (List.seq 0 MAX_DEPOSITS_PER_ROUND)).
Definition full_queue_world : World :=
  mkWorld (match replay_events full_queue_log with Done s => s | Panic _ => example_state end, full_queue_log, metrics_new) [].
Definition full_sweep_signing : option (Task unit) :=
  let '(w, rest) := start_job example_deserialize (RunTask SweepDeposits) full_queue_world 3 in
  t ← rest; '(_, rest) ← resume_job (RunTask SweepDeposits) t example_answers 0 w 4; rest.

Lemma full_sweep_signatures :
  minter_run (w_config full_queue_world) /\
  (fun t => (sum_list_with concurrent_calls (outstanding t), sum_list_with signature_calls (outstanding t))) <$> full_sweep_signing =
    Some (call_limit (RunTask SweepDeposits), 10 * MAX_CONCURRENT_SIGNATURES)%nat.
Proof.
  split; [|vm_compute; reflexivity].
  assert (match replay_events full_queue_log with Done _ => True | Panic _ => False end) as Hok by (vm_compute; exact I).
  change (minter_run (match replay_events full_queue_log with Done s => s | Panic _ => example_state end, full_queue_log)).
  destruct (replay_events full_queue_log) as [s|] eqn:E; [exact (replay_run _ _ E) | destruct Hok].
Qed.
